(* ===== verification/_CoqProject ===== *)
-Q . S2P
Prelude.v
StdMap.v
SStream.v
Decimal.v
StringUtil.v
RingQueue.v
SegmentTree.v
Trie.v
EpollTypes.v
HttpRequest.v
HttpResponse.v
HttpHandler.v
EpollSocket.v
HttpServer.v
HttpExchange.v
LockFreeStack.v
RcuPtr.v
DoubleBuffer.v
ThreadPool.v
PoolFuture.v
Printf.v
FileAppender.v
FileAppenderThreads.v
Backtrace.v
Logger.v
LoggerRun.v
JsonMarshal.v
JsonRoundTrip.v
JsonHelper.v
JsonModel.v
JsonExample.v
RedisProxy.v
SharedMemory.v
SharedMemoryOpen.v
IpcMessageQueue.v
TcpServer.v
TcpClient.v
TcpChat.v
HttpClient.v
Util.v
Examples.v
UnitTests.v
