(* ===== verification/Prelude.v ===== *)
(** * CppUtil: a verification of the library

    CppUtil is a collection of C++ components: data structures, an HTTP server and
    client, a TCP relay with its client, lock-free and RCU-style sharing, a thread
    pool, a logger, a JSON mapper, a Redis client and shared memory for a message
    queue.  Each component is translated here into definitions that follow its source
    statement by statement, and the properties that make it correct are proved about
    those definitions.  Paths below are relative to src/.

    ** How code is modelled

    A pure function is a function.  A method takes its object (a [Record] with the
    class's members) and returns it.  System calls and third-party calls are answered
    by arguments, so that a theorem holds for every answer, or for every answer their
    documentation allows.  What a callback does (an HTTP handler, an updater, a task) is
    an argument of the call or a relation, so that it may do something else each time.
    Undefined behaviour
    (an access out of range, a freed or null pointer, signed overflow, division by
    zero, a printf directive without an argument) is [None], or a constructor
    [Undefined] where there are other outcomes such as [exit] or an exception.
    Integers are [Z]; [u32], [i32], [u64], ... wrap where the source stores them.  The
    one exception to signed overflow is the segment tree, whose [int] sums wrap around.
    Concurrent code is an [Inductive step] with one transition per atomic access,
    system call or critical section, over a shared state; theorems hold in every
    reachable state.  Memory is sequentially consistent.

    ** Files

    Shared vocabulary:
    - [Prelude]: this file: automation, machine integers, vectors, byte strings,
      transition systems.
    - [StdMap]: [std::map] and [std::set] as ordered association lists.
    - [SStream]: [std::stringstream].   [Decimal]: [to_string], [stoi] and relatives.
    - [Printf]: the printf directives the sources use.

    Data structures:
    - [RingQueue]: data_structure/ring_buffer_queue (class Queue).
    - [SegmentTree]: data_structure/segment_tree.   [Trie]: data_structure/trie.
    - [StringUtil]: util/string.

    HTTP server (http/http_server).  The event loop calls the handler through the
    interface of [EpollTypes]; its theorems are proved against that interface and
    [HttpServer] instantiates it.
    - [EpollTypes]: epoll_event_handler.h.   [EpollSocket]: the event loop.
    - [HttpRequest]: the incremental parser.   [HttpResponse]: serialisation.
    - [HttpHandler]: the callbacks, with their contexts on a heap; the functions users
      register are addresses, and each call of one has an arbitrary effect.
    - [HttpServer]: loop and handler together.
    - [HttpExchange]: runs of the server with what they send: connections do not
      influence one another, and a request is answered from first to last byte.

    Concurrency:
    - [LockFreeStack]: lockfree/lockfree_stack.cpp.   [RcuPtr]: rcu_ptr.
    - [DoubleBuffer]: double_buffer.   [ThreadPool]: threadpool.
    - [PoolFuture]: the packaged tasks and futures of [Enqueue], over [ThreadPool].

    Logging (logger/, util/config):
    - [FileAppender]: hourly files over a file system of names and inodes.
    - [FileAppenderThreads]: the same calls made by several threads, with the points
      at which they take the mutex.
    - [Backtrace]: the stack dumper.   [Logger]: Logger, LogCapture, LoggerKV, log.h.
    - [LoggerRun]: configuration, front end, logger and files together.

    Serialisation and storage:
    - [JsonMarshal]: the overloads of json_helper; jsoncpp is the class [JsonValue]
      with [JsonLaws].   [JsonRoundTrip]: the contract [RoundTrip] between a [Marshal]
      and its [Unmarshal], proved overload by overload, and [JsonEquiv].
    - [JsonHelper]: the front ends on text and overload resolution over all types.
    - [JsonModel]: a jsoncpp for which the laws hold.   [JsonExample]: the example
      programs of json_helper.
    - [RedisProxy]: redis_proxy; hiredis is the class [Hiredis] with [HiredisLaws],
      and [RedisServer] is a server that is up, with a clock by which values expire.
      A small [wp] carries the proofs.

    Shared memory (lockfree/ipc_message_queue):
    - [SharedMemory]: the three classes over named segments and lock files.
    - [SharedMemoryOpen]: any number of processes opening a segment at once, one
      transition per system call, refused ones included.
    - [IpcMessageQueue]: the registry of shared memories.

    Network tools:
    - [TcpServer], [TcpClient], [TcpChat]: tcp/, and both ends together.
    - [HttpClient]: http/http_client; libcurl is the parameter [transfer].
    - [Util]: util/random.h, util/time, util/magic_enum.h, util/macro_util.h.
    - [Examples]: the other example programs and main/main.cc.
    - [UnitTests]: the unit tests of the data structures, the enum names and
      json_helper, run on the model.

    ** What the theorems show

    - Refinement: the queue is a bounded FIFO, the segment tree an array with range
      sums modulo 2^32, the trie a set of words, the RCU pointer and (as long as nodes
      are not recycled) the stack linearizable objects, the double buffer a register
      as long as no reader is overtaken by a swap, the Redis client a store of entries
      that expire, the registry a function from keys to objects.
    - Round trips: rendered HTTP requests are parsed back, in whatever pieces they
      arrive (but for the version, which keeps a carriage return); JSON values with
      non-empty containers are recovered, and the theorem says what becomes of them
      where the target has null pointers.
    - Safety of resources: the HTTP server never uses freed contexts and keeps
      descriptors and contexts in one-to-one correspondence (descriptor 0 apart, which
      it does not close); the Redis client frees every context and reply and never
      mixes up pipelined replies, whatever the network does; opening shared memory
      never touches a segment that is in use, whatever the system refuses; reads of it
      stay inside the mapping.
    - Delivery: responses go out exactly once when the kernel takes whole chunks, and
      a prefix of them otherwise; without retention a configured logger leaves in
      every hour's file exactly the lines written in it, and threads that share it
      neither lose nor tear lines, however the clock moves; the relay, as long as
      writes are whole, sends every chunk to all others and to nobody else; each HTTP
      connection is served as if it were alone, and a request in pieces is answered by
      its handler's response; [get] on a future yields the result of its own call.
    - Progress: parsers, splitters and tree operations end; the thread pool loses no
      wake-up, drains its queue, resolves every future and shuts down after running every
      task; an opener of shared memory that is not finished can go on, or the one that
      has the lock can, and there is a bound on the calls of all of them.
    - Error behaviour: theorems that pin down where the code departs from what it
      means to do (partial last sends, the version of a request, point updates under
      pending additions, ABA in the stack, the race in the double buffer, retention
      across midnight, wrap-around of the bounds test, edge-triggered reads, FATAL in
      debug builds).

    ** Bounds and fuel

    Loops that are not structural carry fuel, and theorems show that the fuel given
    is enough: the stream loops get the length of the input plus two rounds, the
    recursion of the segment tree the height of the tree, [printf] the length of the
    format, [enum_max] the number of enumerators plus one.

    ** Not modelled

    Third-party code (boost, jsoncpp, hiredis, libcurl, libbacktrace, cpptoml, uuid)
    beyond the calls the sources make; floating-point arithmetic (an abstract type in
    [JsonMarshal]); weak memory orderings; the log
    lines written by the other components; methods that are declared without a body
    (hence the registry of shared memories only in part: the message queue's Read and Write, TcpServer::Send and Receive, the message
    factory) or cannot be instantiated ([Unmarshal] into [std::map<uint32_t, T>]); how a
    configuration file is parsed (cpptoml's work: the table it answers with is an
    argument); tests of the compiler's type traits, of boost or against a running
    server; scripts and build files. *)

From Stdlib Require Export ZArith Lia Bool Ascii String.
From stdpp Require Export base list gmap strings relations option sorting.

#[global] Open Scope Z_scope.

(** ** Proof automation of the development *)

(** [lia] with the equations of [/] and [mod] on top. *)
Ltac dlia := Z.div_mod_to_equations; lia.

(** Boolean tests of the code, reflected into propositions. *)
Create Rewrite HintDb cpputil_bool.

#[export] Hint Rewrite Z.eqb_eq Z.eqb_neq Z.leb_le Z.leb_gt Z.ltb_lt Z.ltb_ge
  Z.geb_leb Z.gtb_ltb
  Nat.eqb_eq Nat.eqb_neq Nat.leb_le Nat.leb_gt Nat.ltb_lt Nat.ltb_ge
  andb_true_iff andb_false_iff orb_true_iff orb_false_iff
  negb_true_iff negb_false_iff : cpputil_bool.

Ltac breflect := autorewrite with cpputil_bool in *.

(** Case analysis on the boolean test or the match that blocks a goal or a
    hypothesis, recording the equation. *)
Ltac case_test :=
  match goal with
  | |- context [if ?b then _ else _] => destruct b eqn:?
  | H : context [if ?b then _ else _] |- _ => destruct b eqn:?
  end.

(** Everything the components tag as routine. *)
Create HintDb cpputil.

#[export] Hint Extern 2 (_ <= _) => lia : cpputil.
#[export] Hint Extern 2 (_ < _) => lia : cpputil.
#[export] Hint Extern 2 (_ = _ :> Z) => lia : cpputil.

(** ** Machine integers

    A [w]-bit integer is a [Z]; [wrapu] and [wraps] are the values an unsigned
    and a two's-complement signed object of that width can hold. *)

Definition wrapu (w z : Z) : Z := z mod 2 ^ w.

Definition wraps (w z : Z) : Z := (z + 2 ^ (w - 1)) mod 2 ^ w - 2 ^ (w - 1).

Abbreviation u16 := (wrapu 16).
Abbreviation u32 := (wrapu 32).
Abbreviation u64 := (wrapu 64).
Abbreviation i32 := (wraps 32).
Abbreviation i64 := (wraps 64).

Definition in_u (w z : Z) : Prop := 0 <= z < 2 ^ w.

Definition in_s (w z : Z) : Prop := - 2 ^ (w - 1) <= z < 2 ^ (w - 1).

#[global] Instance in_u_dec w z : Decision (in_u w z).
Proof. unfold in_u. apply _. Defined.

#[global] Instance in_s_dec w z : Decision (in_s w z).
Proof. unfold in_s. apply _. Defined.

Lemma wrapu_range w z : 0 <= w -> in_u w (wrapu w z).
Proof. intros Hw. unfold in_u, wrapu. apply Z.mod_pos_bound. lia. Qed.

Lemma wraps_range w z : 0 < w -> in_s w (wraps w z).
Proof.
  intros Hw. unfold in_s, wraps.
  pose proof (Z.mod_pos_bound (z + 2 ^ (w - 1)) (2 ^ w) ltac:(lia)) as Hm.
  assert (2 ^ w = 2 * 2 ^ (w - 1)) as E.
  { rewrite <- Z.pow_succ_r by lia. f_equal. lia. }
  lia.
Qed.

Lemma wrapu_id w z : in_u w z -> wrapu w z = z.
Proof. intros H. apply Z.mod_small, H. Qed.

Lemma wraps_id w z : 0 < w -> in_s w z -> wraps w z = z.
Proof.
  intros Hw H. unfold in_s, wraps in *.
  assert (2 ^ w = 2 * 2 ^ (w - 1)) as E.
  { rewrite <- Z.pow_succ_r by lia. f_equal. lia. }
  rewrite Z.mod_small by lia. lia.
Qed.

(** Two integers have the same [w]-bit signed value exactly when they are
    congruent modulo [2 ^ w]. *)
Lemma wraps_eq_iff w x y :
  0 < w -> wraps w x = wraps w y <-> x mod 2 ^ w = y mod 2 ^ w.
Proof.
  intros Hw. unfold wraps.
  set (m := 2 ^ w). set (h := 2 ^ (w - 1)).
  assert (0 < m) by (subst m; lia).
  split; intros H'.
  - assert ((x + h) mod m = (y + h) mod m) as E by lia.
    replace x with (x + h - h) by lia. replace y with (y + h - h) by lia.
    rewrite (Zminus_mod (x + h)), (Zminus_mod (y + h)), E. done.
  - rewrite (Zplus_mod x), (Zplus_mod y), H'. done.
Qed.

Lemma wraps_mod w z : 0 < w -> wraps w z mod 2 ^ w = z mod 2 ^ w.
Proof.
  intros Hw. unfold wraps.
  rewrite Zminus_mod_idemp_l. f_equal. lia.
Qed.

Lemma wraps_add w x y : 0 < w -> wraps w (wraps w x + wraps w y) = wraps w (x + y).
Proof.
  intros Hw. apply wraps_eq_iff; [done|].
  rewrite Zplus_mod, !wraps_mod, <- Zplus_mod by done. done.
Qed.

Lemma wraps_mul_l w x y : 0 < w -> wraps w (wraps w x * y) = wraps w (x * y).
Proof.
  intros Hw. apply wraps_eq_iff; [done|].
  rewrite Zmult_mod, wraps_mod, <- Zmult_mod by done. done.
Qed.

Lemma wraps_add_l w x y : 0 < w -> wraps w (wraps w x + y) = wraps w (x + y).
Proof.
  intros Hw. apply wraps_eq_iff; [done|].
  rewrite Zplus_mod, wraps_mod, <- Zplus_mod by done. done.
Qed.

Lemma wraps_add_r w x y : 0 < w -> wraps w (x + wraps w y) = wraps w (x + y).
Proof. intros Hw. rewrite (Z.add_comm x), wraps_add_l, Z.add_comm by done. done. Qed.

(** A wider unsigned intermediate does not change the narrower signed result:
    the usual arithmetic conversions of [int op size_t] stored back in an [int]. *)
Lemma wraps_wrapu w v x :
  0 < w <= v -> wraps w (wrapu v x) = wraps w x.
Proof.
  intros Hw. apply wraps_eq_iff; [lia|]. unfold wrapu.
  apply Z.mod_mod_divide.
  exists (2 ^ (v - w)). rewrite <- Z.pow_add_r by lia. f_equal. lia.
Qed.

Lemma wrapu_wraps w x : 0 < w -> wrapu w (wraps w x) = wrapu w x.
Proof. intros Hw. unfold wrapu. by apply wraps_mod. Qed.

Lemma wraps_wraps w x : 0 < w -> wraps w (wraps w x) = wraps w x.
Proof. intros Hw. apply wraps_eq_iff; [done|]. by apply wraps_mod. Qed.

#[export] Hint Resolve wrapu_range wraps_range : cpputil.

(** ** Vectors

    [operator[]] of [std::vector] and of a C array: an access outside the
    bounds is undefined behaviour, here [None]. *)

Definition vget {A} (v : list A) (i : Z) : option A :=
  if i <? 0 then None else v !! Z.to_nat i.

Definition vset {A} (v : list A) (i : Z) (x : A) : option (list A) :=
  if (0 <=? i) && (i <? Z.of_nat (length v)) then Some (<[Z.to_nat i := x]> v) else None.

Definition vlen {A} (v : list A) : Z := Z.of_nat (length v).

Section vectors.
Context {A : Type}.
Implicit Types (v : list A) (x : A).

Lemma vget_Some_range v i x : vget v i = Some x -> 0 <= i < vlen v.
Proof.
  unfold vget, vlen. destruct (Z.ltb_spec i 0); [done|].
  intros Hl%lookup_lt_Some. lia.
Qed.

Lemma vget_is_Some v i : 0 <= i < vlen v -> is_Some (vget v i).
Proof.
  unfold vget, vlen. intros H. destruct (Z.ltb_spec i 0); [lia|].
  apply lookup_lt_is_Some. lia.
Qed.

Lemma vset_in_range v i x :
  0 <= i < vlen v -> vset v i x = Some (<[Z.to_nat i := x]> v).
Proof.
  unfold vset, vlen. intros H.
  destruct (Z.leb_spec 0 i), (Z.ltb_spec i (Z.of_nat (length v))); done || lia.
Qed.

Lemma vset_Some v i x v' :
  vset v i x = Some v' ->
  0 <= i < vlen v /\ vlen v' = vlen v /\
  vget v' i = Some x /\ (forall j, j <> i -> vget v' j = vget v j).
Proof.
  unfold vset, vlen, vget. intros H.
  destruct (Z.leb_spec 0 i), (Z.ltb_spec i (Z.of_nat (length v))); try done.
  injection H as <-. rewrite length_insert. split_and!; [lia..| |].
  - destruct (Z.ltb_spec i 0); [lia|]. apply list_lookup_insert_eq. lia.
  - intros j Hj. destruct (Z.ltb_spec j 0); [done|].
    apply list_lookup_insert_ne. lia.
Qed.
End vectors.

(** ** Byte strings

    [std::string], C strings and I/O buffers are lists of characters. *)

#[global] Instance ascii_countable : Countable ascii.
Proof.
  apply (inj_countable' N_of_ascii ascii_of_N). intros c. apply ascii_N_embedding.
Defined.

Abbreviation bytes := (list ascii).

Definition lit (s : string) : bytes := list_ascii_of_string s.

Definition NUL : ascii := ascii_of_nat 0.
Definition LF : ascii := ascii_of_nat 10.
Definition CR : ascii := ascii_of_nat 13.

(** The C string a buffer holds: what precedes the first NUL. *)
Fixpoint c_str (s : bytes) : bytes :=
  match s with
  | [] => []
  | c :: s' => if decide (c = NUL) then [] else c :: c_str s'
  end.

Lemma c_str_no_nul s : NUL ∉ s -> c_str s = s.
Proof.
  induction s as [|c s IH]; intros H; [done|]. simpl.
  apply not_elem_of_cons in H as [Hc Hs]. rewrite decide_False by done.
  by rewrite IH.
Qed.

Lemma c_str_idem s : c_str (c_str s) = c_str s.
Proof.
  induction s as [|c s IH]; [done|]. simpl. case_decide; [done|].
  simpl. rewrite decide_False by done. by rewrite IH.
Qed.

(** What [snprintf]/[vsnprintf] into a buffer of [n] bytes leaves as a C string
    when the formatted text is [s]. *)
Definition snprintf (n : Z) (s : bytes) : bytes := take (Z.to_nat (n - 1)) (c_str s).

(** ** Transition systems *)

Section transition_systems.
Context {S : Type} (step : S -> S -> Prop).

(** A property of the initial states kept by every step holds in every
    reachable state. *)
Lemma invariant_rtc (I : S -> Prop) s s' :
  (forall x y, I x -> step x y -> I y) -> I s -> rtc step s s' -> I s'.
Proof. intros Hstep Hs. induction 1; eauto. Qed.

(** A simulation: every detailed step is zero or more abstract steps. *)
Lemma simulation_rtc {A : Type} (astep : A -> A -> Prop) (R : S -> A -> Prop) s s' a :
  (forall x y b, R x b -> step x y -> exists b', rtc astep b b' /\ R y b') ->
  R s a -> rtc step s s' -> exists a', rtc astep a a' /\ R s' a'.
Proof.
  intros Hsim HR Hs. revert a HR. induction Hs as [x|x y z Hxy _ IH]; intros a HR.
  - exists a. split; [constructor|done].
  - destruct (Hsim _ _ _ HR Hxy) as (b & Hab & Hb).
    destruct (IH _ Hb) as (a' & Hba & Ha). exists a'.
    split; [by etrans|done].
Qed.
End transition_systems.
