(* ===== verification/StdMap.v ===== *)
(** * [std::map] and [std::set] as the sources use them

    A map is the list of its entries in key order, which is the order
    [begin() .. end()] visits.  The key order is an interface, [KeyOrd], with
    instances for integers and for [std::string] (characters compared as
    [unsigned char]). *)

From S2P Require Import Prelude.

(** ** Key orders *)

Class KeyOrd (K : Type) `{EqDecision K} := {
  klt : K -> K -> bool;
  klt_irrefl : forall a, klt a a = false;
  klt_trans : forall a b c, klt a b = true -> klt b c = true -> klt a c = true;
  klt_total : forall a b, klt a b = false -> klt b a = false -> a = b;
}.

Lemma Zltb_trans a b c : (a <? b) = true -> (b <? c) = true -> (a <? c) = true.
Proof. rewrite !Z.ltb_lt. lia. Qed.

Lemma Zltb_total a b : (a <? b) = false -> (b <? a) = false -> a = b.
Proof. rewrite !Z.ltb_ge. lia. Qed.

#[global] Instance Z_key : KeyOrd Z :=
  {| klt := Z.ltb; klt_irrefl := Z.ltb_irrefl; klt_trans := Zltb_trans; klt_total := Zltb_total |}.

Fixpoint lexlt (a b : bytes) : bool :=
  match a, b with
  | [], [] => false
  | [], _ :: _ => true
  | _ :: _, [] => false
  | x :: a', y :: b' =>
      if (N_of_ascii x <? N_of_ascii y)%N then true
      else if (N_of_ascii y <? N_of_ascii x)%N then false
      else lexlt a' b'
  end.

Lemma lexlt_irrefl a : lexlt a a = false.
Proof. induction a as [|x a IH]; simpl; [done|]. by rewrite N.ltb_irrefl. Qed.

Lemma lexlt_trans a b c : lexlt a b = true -> lexlt b c = true -> lexlt a c = true.
Proof.
  revert b c. induction a as [|x a IH]; intros [|y b] [|z c]; simpl; try done.
  repeat match goal with |- context [(?u <? ?v)%N] => destruct (N.ltb_spec u v) end;
    try done; try lia; eauto.
Qed.

Lemma lexlt_total a b : lexlt a b = false -> lexlt b a = false -> a = b.
Proof.
  revert b. induction a as [|x a IH]; intros [|y b]; simpl; try done.
  repeat match goal with |- context [(?u <? ?v)%N] => destruct (N.ltb_spec u v) end;
    try done; try lia. intros H1 H2. f_equal; [|by apply IH].
  rewrite <- (ascii_N_embedding x), <- (ascii_N_embedding y). f_equal. lia.
Qed.

#[global] Instance bytes_key : KeyOrd bytes :=
  {| klt := lexlt; klt_irrefl := lexlt_irrefl; klt_trans := lexlt_trans;
     klt_total := lexlt_total |}.

(** ** Maps *)

Module StdMap.

Section ops.
Context {K V : Type} `{KeyOrd K}.
Implicit Types (m : list (K * V)) (k : K) (v : V).

(** [m.find(k)], [None] being [m.end()] *)
Fixpoint find k m : option V :=
  match m with
  | [] => None
  | (k', v) :: m' => if decide (k = k') then Some v else find k m'
  end.

(** [m[k] = v] *)
Fixpoint assign k v m : list (K * V) :=
  match m with
  | [] => [(k, v)]
  | (k', v') :: m' =>
      if klt k k' then (k, v) :: m
      else if klt k' k then (k', v') :: assign k v m'
      else (k, v) :: m'
  end.

(** [m.insert({k, v})] keeps an entry that is there *)
Definition insert k v m : list (K * V) :=
  match find k m with Some _ => m | None => assign k v m end.

(** [m[k]] used as a value: creates a default-constructed entry if absent *)
Definition subscript (d : V) k m : V * list (K * V) :=
  match find k m with Some v => (v, m) | None => (d, assign k d m) end.

Definition erase k m : list (K * V) := base.filter (fun kv => fst kv <> k) m.

Definition keys m : list K := fst <$> m.

(** Strictly increasing keys, what the container maintains. *)
Definition ordered m : Prop := StronglySorted (fun a b => klt a b = true) (keys m).

Lemma klt_asym a b : klt a b = true -> klt b a = true -> False.
Proof. intros H1 H2. pose proof (klt_trans _ _ _ H1 H2). by rewrite klt_irrefl in *. Qed.

Lemma find_assign k k' v m :
  find k (assign k' v m) = if decide (k = k') then Some v else find k m.
Proof.
  induction m as [|[k0 v0] m IH]; simpl; [done|].
  destruct (klt k' k0) eqn:E1; simpl.
  - by repeat case_decide.
  - destruct (klt k0 k') eqn:E2; simpl.
    + rewrite IH. repeat case_decide; try done. subst. by rewrite klt_irrefl in E2.
    + rewrite (klt_total k' k0 E1 E2). by repeat case_decide.
Qed.

Lemma find_insert k k' v m :
  find k (insert k' v m) = if decide (k = k' /\ find k' m = None) then Some v else find k m.
Proof.
  unfold insert. destruct (find k' m) eqn:E.
  - by rewrite decide_False by naive_solver.
  - rewrite find_assign. repeat case_decide; naive_solver.
Qed.

Lemma keys_assign_lt a k v m :
  klt a k = true -> Forall (fun b => klt a b = true) (keys m) ->
  Forall (fun b => klt a b = true) (keys (assign k v m)).
Proof.
  intros Hk Hm. induction m as [|[k0 v0] m IH]; simpl; [by constructor|].
  apply Forall_cons in Hm as [H0 Hm].
  repeat case_test; simpl; by repeat constructor; auto.
Qed.

Lemma assign_ordered k v m : ordered m -> ordered (assign k v m).
Proof.
  unfold ordered. induction m as [|[k0 v0] m IH]; simpl; intros Hm; [by repeat constructor|].
  inversion_clear Hm as [|? ? Hs Hf].
  destruct (klt k k0) eqn:E1; simpl.
  - constructor; [by constructor|]. constructor; [done|].
    eapply Forall_impl; [exact Hf|]. intros b Hb. by eapply klt_trans.
  - destruct (klt k0 k) eqn:E2; simpl.
    + constructor; [by apply IH|]. by apply keys_assign_lt.
    + rewrite (klt_total k k0 E1 E2). by constructor.
Qed.

Lemma insert_ordered k v m : ordered m -> ordered (insert k v m).
Proof. unfold insert. destruct (find k m); auto using assign_ordered. Qed.

Lemma find_Some_elem k v m : find k m = Some v -> (k, v) ∈ m.
Proof.
  induction m as [|[k0 v0] m IH]; simpl; [done|]. case_decide; [|set_solver].
  intros [= ->]. subst. set_solver.
Qed.

Lemma find_None k m : find k m = None <-> k ∉ keys m.
Proof.
  induction m as [|[k0 v0] m IH]; simpl; [set_solver|]. case_decide; set_solver.
Qed.

Lemma ordered_NoDup m : ordered m -> NoDup (keys m).
Proof.
  unfold ordered. induction 1 as [|k ks _ IH Hf]; constructor; [|done]. intros Hin.
  pose proof (proj1 (Forall_forall _ _) Hf k Hin) as Hk. simpl in Hk. by rewrite klt_irrefl in Hk.
Qed.

(** Ordered maps are determined by their lookups. *)
Lemma ordered_ext m1 m2 :
  ordered m1 -> ordered m2 -> (forall k, find k m1 = find k m2) -> m1 = m2.
Proof.
  unfold ordered. revert m2. induction m1 as [|[k1 v1] m1 IH]; intros [|[k2 v2] m2] H1 H2 E; try done.
  - specialize (E k2). simpl in E. by rewrite decide_True in E.
  - specialize (E k1). simpl in E. by rewrite decide_True in E.
  - inversion_clear H1 as [|? ? Hs1 Hf1]. inversion_clear H2 as [|? ? Hs2 Hf2].
    rewrite Forall_forall in Hf1, Hf2.
    assert (k1 = k2) as ->.
    { apply klt_total.
      - destruct (klt k1 k2) eqn:L; [|done]. pose proof (E k1) as E1. simpl in E1.
        rewrite decide_True in E1 by done. case_decide; [subst; by rewrite klt_irrefl in L|].
        symmetry in E1. apply find_Some_elem in E1.
        assert (k1 ∈ keys m2) as Hin by (apply list_elem_of_fmap; by exists (k1, v1)).
        exfalso. eapply klt_asym; [exact L|by apply Hf2].
      - destruct (klt k2 k1) eqn:L; [|done]. pose proof (E k2) as E2. simpl in E2.
        rewrite (decide_True (P := k2 = k2)) in E2 by done.
        case_decide; [subst; by rewrite klt_irrefl in L|].
        apply find_Some_elem in E2.
        assert (k2 ∈ keys m1) as Hin by (apply list_elem_of_fmap; by exists (k2, v2)).
        exfalso. eapply klt_asym; [exact L|by apply Hf1]. }
    pose proof (E k2) as E2. simpl in E2. rewrite !decide_True in E2 by done.
    injection E2 as ->. f_equal. apply IH; [done|done|]. intros k. specialize (E k). simpl in E.
    case_decide; [|done]. subst.
    transitivity (@None V); [|symmetry]; apply find_None; intros Hin;
      [specialize (Hf1 _ Hin) as Hc|specialize (Hf2 _ Hin) as Hc]; by rewrite klt_irrefl in Hc.
Qed.

End ops.

End StdMap.

#[export] Hint Resolve StdMap.assign_ordered StdMap.insert_ordered : cpputil.

(** ** Sets of integers in increasing order *)

Module StdSet.

Section ops.
Context {K : Type} `{KeyOrd K}.
Implicit Types (x y : K) (s : list K).

(** [s.insert(x)] *)
Fixpoint insert x s : list K :=
  match s with
  | [] => [x]
  | y :: s' => if klt x y then x :: s else if klt y x then y :: insert x s' else s
  end.

(** Strictly increasing elements, what the container maintains. *)
Definition sorted s : Prop := StronglySorted (fun a b => klt a b = true) s.

Lemma elem_insert x y s : x ∈ insert y s <-> x = y \/ x ∈ s.
Proof.
  induction s as [|z s IH]; simpl; [set_solver|].
  destruct (klt y z) eqn:E1; [set_solver|]. destruct (klt z y) eqn:E2; [set_solver|].
  rewrite (klt_total y z E1 E2). set_solver.
Qed.

Lemma insert_sorted x s : sorted s -> sorted (insert x s).
Proof.
  unfold sorted. induction s as [|y s IH]; simpl; intros Hs; [by repeat constructor|].
  pose proof Hs as Hs0. inversion_clear Hs as [|? ? Hs' Hf].
  destruct (klt x y) eqn:E1; [|destruct (klt y x) eqn:E2; [|done]].
  - constructor; [done|]. constructor; [done|]. eapply Forall_impl; [exact Hf|]. intros b Hb. by eapply klt_trans.
  - constructor; [by apply IH|]. apply Forall_forall. intros z Hz%elem_insert.
    destruct Hz as [->|Hz]; [done|]. by eapply Forall_forall in Hf.
Qed.

(** Sets are determined by their elements. *)
Lemma sorted_ext s1 s2 : sorted s1 -> sorted s2 -> (forall x, x ∈ s1 <-> x ∈ s2) -> s1 = s2.
Proof.
  unfold sorted. revert s2. induction s1 as [|a s1 IH]; intros [|b s2] H1 H2 E; try done.
  - specialize (E b). set_solver.
  - specialize (E a). set_solver.
  - inversion_clear H1 as [|? ? Hs1 Hf1]. inversion_clear H2 as [|? ? Hs2 Hf2]. rewrite Forall_forall in Hf1, Hf2.
    assert (a = b) as ->.
    { pose proof (proj1 (E a) ltac:(left)) as [?|Ha]%elem_of_cons; [done|].
      pose proof (proj2 (E b) ltac:(left)) as [?|Hb]%elem_of_cons; [done|].
      pose proof (klt_trans _ _ _ (Hf2 _ Ha) (Hf1 _ Hb)) as Hl. by rewrite klt_irrefl in Hl. }
    f_equal. apply IH; [done|done|]. intros x. specialize (E x). split; intros Hx.
    + pose proof (proj1 E ltac:(by right)) as [-> |?]%elem_of_cons; [|done].
      specialize (Hf1 _ Hx). simpl in Hf1. by rewrite klt_irrefl in Hf1.
    + pose proof (proj2 E ltac:(by right)) as [-> |?]%elem_of_cons; [|done].
      specialize (Hf2 _ Hx). simpl in Hf2. by rewrite klt_irrefl in Hf2.
Qed.

(** Inserting the elements of a set in any order builds the set. *)
Lemma foldl_insert_perm l s : sorted s -> l ≡ₚ s -> foldl (fun a x => insert x a) [] l = s.
Proof.
  intros Hs Hp.
  assert (forall acc, sorted acc -> sorted (foldl (fun a x => insert x a) acc l) /\
    forall x, x ∈ foldl (fun a x => insert x a) acc l <-> x ∈ acc \/ x ∈ l) as Hf.
  { clear. induction l as [|y l IH]; intros acc Ha; simpl; [set_solver|].
    destruct (IH (insert y acc) (insert_sorted y acc Ha)) as [H1 H2]. split; [done|].
    intros x. rewrite H2, elem_insert. set_solver. }
  destruct (Hf []) as [H1 H2]; [constructor|]. apply sorted_ext; [done|done|].
  intros x. rewrite H2, Hp. set_solver.
Qed.

End ops.

(** Sets of integers. *)
Definition ordered (s : list Z) : Prop := StronglySorted Z.lt s.

Lemma ordered_sorted s : ordered s <-> sorted s.
Proof.
  unfold ordered, sorted. split; induction 1 as [|x s _ IH Hf]; constructor; try done;
    (eapply Forall_impl; [exact Hf|]); simpl; intros y Hy; by apply Z.ltb_lt.
Qed.

Lemma set_insert_ordered x s : ordered s -> ordered (insert x s).
Proof. rewrite !ordered_sorted. apply insert_sorted. Qed.

End StdSet.
