(* ===== verification/SStream.v ===== *)
(** * [std::stringstream] as the sources use it

    The buffer, the get position, the [eofbit] and [failbit] flags and the
    count of the last unformatted input.  Writes go to the end of the buffer.
    The operations follow the standard's unformatted input functions: a sentry
    that fails when the stream is not [good()] sets [failbit] and extracts
    nothing. *)

From S2P Require Import Prelude.

Module SStream.

Record t := mk {
  buf : bytes;
  gpos : nat;
  eofbit : bool;
  failbit : bool;
  gcount : Z;
}.

Definition empty : t := mk [] 0 false false 0.

(** [std::stringstream ss(s)] *)
Definition of_bytes (s : bytes) : t := mk s 0 false false 0.

Definition good (ss : t) : bool := negb (eofbit ss) && negb (failbit ss).

Definition eof (ss : t) : bool := eofbit ss.

Definition clear (ss : t) : t := mk (buf ss) (gpos ss) false false (gcount ss).

Definition set_fail (ss : t) : t := mk (buf ss) (gpos ss) (eofbit ss) true (gcount ss).

(** What is left to read. *)
Definition rest (ss : t) : bytes := drop (gpos ss) (buf ss).

(** The characters before the first [d], and what follows it if there is one. *)
Fixpoint cut (d : ascii) (s : bytes) : bytes * option bytes :=
  match s with
  | [] => ([], None)
  | c :: s' =>
      if decide (c = d) then ([], Some s')
      else let '(l, r) := cut d s' in (c :: l, r)
  end.

(** [std::getline(ss, line, delim)]; [old] is what [line] held. *)
Definition getline (ss : t) (old : bytes) (delim : ascii) : bytes * t :=
  if negb (good ss) then (old, set_fail ss)
  else
    match cut delim (rest ss) with
    | (l, Some _) => (l, mk (buf ss) (gpos ss + length l + 1) false false (gcount ss))
    | (l, None) =>
        (l, mk (buf ss) (length (buf ss)) true (bool_decide (l = [])) (gcount ss))
    end.

(** [ss.write(s, n)] and [ss << s] *)
Definition write (ss : t) (s : bytes) : t :=
  if negb (good ss) then set_fail ss
  else mk (buf ss ++ s) (gpos ss) (eofbit ss) (failbit ss) (gcount ss).

(** [ss.seekg(pos)], [pos] an offset from the beginning *)
Definition seekg (ss : t) (pos : Z) : t :=
  let ss := mk (buf ss) (gpos ss) false (failbit ss) (gcount ss) in
  if failbit ss then ss
  else if (0 <=? pos) && (pos <=? vlen (buf ss))
  then mk (buf ss) (Z.to_nat pos) false false (gcount ss)
  else set_fail ss.

(** [ss.seekg(off, ss.end)] *)
Definition seekg_end (ss : t) (off : Z) : t := seekg ss (vlen (buf ss) + off).

Definition tellg (ss : t) : Z * t :=
  if negb (good ss) then (-1, set_fail ss) else (Z.of_nat (gpos ss), ss).

(** [ss.readsome(p, n)]: what is available, at most [n] characters *)
Definition readsome (ss : t) (n : nat) : bytes * t :=
  if negb (good ss) then ([], set_fail ss)
  else
    let s := take n (rest ss) in
    (s, mk (buf ss) (gpos ss + length s) false false (vlen s)).

(** [ss.read(p, n)]: reaching the end before [n] characters sets both flags *)
Definition read (ss : t) (n : nat) : bytes * t :=
  if negb (good ss)
  then ([], mk (buf ss) (gpos ss) (eofbit ss) true 0)
  else
    let s := take n (rest ss) in
    let short := bool_decide (length s < n)%nat in
    (s, mk (buf ss) (gpos ss + length s) short short (vlen s)).

(** [while (ss.good()) { getline(ss, elem, d); ... }] visits the pieces of the
    buffer between delimiters. *)
Fixpoint pieces (fuel : nat) (ss : t) (d : ascii) : option (list bytes * t) :=
  match fuel with
  | O => None
  | S fuel' =>
      if good ss then
        let '(l, ss1) := getline ss [] d in
        '(ls, ss2) ← pieces fuel' ss1 d; Some (l :: ls, ss2)
      else Some ([], ss)
  end.

(** ** Splitting at a delimiter *)

Fixpoint split (d : ascii) (s : bytes) : list bytes :=
  match s with
  | [] => [[]]
  | c :: s' =>
      if decide (c = d) then [] :: split d s'
      else match split d s' with
           | l :: ls => (c :: l) :: ls
           | [] => [[c]]
           end
  end.

Fixpoint join (d : ascii) (ls : list bytes) : bytes :=
  match ls with
  | [] => []
  | [l] => l
  | l :: ls' => l ++ d :: join d ls'
  end.

Lemma split_cut d s :
  split d s = match cut d s with
              | (l, Some r) => l :: split d r
              | (l, None) => [l]
              end.
Proof.
  induction s as [|c s IH]; simpl; [done|]. case_decide; [done|].
  rewrite IH. destruct (cut d s) as [l [r|]]; done.
Qed.

Lemma cut_Some d s l r : cut d s = (l, Some r) -> s = l ++ d :: r /\ d ∉ l.
Proof.
  revert l. induction s as [|c s IH]; simpl; intros l H; [done|]. case_decide.
  - simplify_eq. split; [done|apply not_elem_of_nil].
  - destruct (cut d s) as [l' [r'|]]; simplify_eq. destruct (IH l' eq_refl) as [-> ?].
    split; [done|]. by apply not_elem_of_cons.
Qed.

Lemma cut_None d s l : cut d s = (l, None) -> l = s /\ d ∉ s.
Proof.
  revert l. induction s as [|c s IH]; simpl; intros l H.
  - simplify_eq. split; [done|apply not_elem_of_nil].
  - case_decide; [done|]. destruct (cut d s) as [l' [r'|]]; simplify_eq.
    destruct (IH l' eq_refl) as [-> ?]. split; [done|]. by apply not_elem_of_cons.
Qed.

Lemma cut_app d l r : d ∉ l -> cut d (l ++ d :: r) = (l, Some r).
Proof.
  induction l as [|c l IH]; simpl; intros H.
  - by rewrite decide_True.
  - apply not_elem_of_cons in H as [Hc Hl]. rewrite decide_False by done. by rewrite IH.
Qed.

Lemma cut_not_elem d l : d ∉ l -> cut d l = (l, None).
Proof.
  induction l as [|c l IH]; simpl; intros H; [done|].
  apply not_elem_of_cons in H as [Hc Hl]. rewrite decide_False by done. by rewrite IH.
Qed.

Lemma split_ne d s : split d s <> [].
Proof. rewrite split_cut. by destruct (cut d s) as [l [r|]]. Qed.

Lemma split_app d l r : d ∉ l -> split d (l ++ d :: r) = l :: split d r.
Proof. intros H. by rewrite split_cut, cut_app. Qed.

(** Splitting on both sides of a delimiter. *)
Lemma split_at d s r : split d (s ++ d :: r) = split d s ++ split d r.
Proof.
  induction s as [|c s IH]; simpl; [by rewrite decide_True|]. case_decide; [by rewrite IH|].
  rewrite IH. destruct (split d s) as [|l ls] eqn:E; [|done]. rewrite split_cut in E. by destruct (cut d s) as [? [?|]].
Qed.

Lemma split_single d l : d ∉ l -> split d l = [l].
Proof. intros H. by rewrite split_cut, cut_not_elem. Qed.

Lemma split_no_delim d s : Forall (fun f => d ∉ f) (split d s).
Proof.
  induction s as [|c s IH]; simpl; [repeat constructor; apply not_elem_of_nil|].
  case_decide; [constructor; [apply not_elem_of_nil|done]|].
  destruct (split d s) as [|l ls]; [repeat constructor; set_solver|].
  apply Forall_cons in IH as [? ?]. constructor; [set_solver|done].
Qed.

(** Joining the pieces gives the string back. *)
Lemma join_split d s : join d (split d s) = s.
Proof.
  induction s as [|c s IH]; simpl; [done|]. case_decide as Hc.
  - subst. destruct (split d s) as [|l ls] eqn:E; [by apply split_ne in E|]. by rewrite <- IH.
  - destruct (split d s) as [|l ls] eqn:E; [by apply split_ne in E|].
    rewrite <- IH. by destruct ls.
Qed.

(** Pieces without the delimiter survive joining. *)
Lemma split_join d ls :
  ls <> [] -> Forall (fun l => d ∉ l) ls -> split d (join d ls) = ls.
Proof.
  intros Hne Hls. induction Hls as [|l ls Hl _ IH]; [done|]. destruct ls as [|l' ls'].
  - by apply split_single.
  - cbn [join]. rewrite split_app by done. f_equal. apply IH. done.
Qed.

(** ** Streams that are being read *)

(** [ss] is good and has [s] left to read. *)
Definition at_rest (ss : t) (s : bytes) : Prop :=
  good ss = true /\ rest ss = s /\ (gpos ss <= length (buf ss))%nat.

Lemma at_rest_of_bytes s : at_rest (of_bytes s) s.
Proof. split_and!; [done|done|simpl; lia]. Qed.

Lemma good_true ss : good ss = true <-> eofbit ss = false /\ failbit ss = false.
Proof. unfold good. breflect. done. Qed.

(** A line that ends in the delimiter. *)
Lemma getline_delim ss old d l r :
  at_rest ss (l ++ d :: r) -> d ∉ l ->
  exists ss', getline ss old d = (l, ss') /\ at_rest ss' r /\ buf ss' = buf ss.
Proof.
  intros (Hg & Hr & Hp) Hd. unfold getline. rewrite Hg, Hr. simpl. rewrite cut_app by done.
  eexists. split; [done|]. split; [|done]. unfold at_rest, rest in *; simpl.
  apply (f_equal length) in Hr as Hlen. rewrite length_drop, length_app in Hlen. simpl in Hlen.
  split_and!; [done| |lia].
  replace (gpos ss + length l + 1)%nat with (gpos ss + (length l + 1))%nat by lia.
  rewrite <- drop_drop, Hr, <- drop_drop, drop_app_length. done.
Qed.

(** The last piece: nothing more can be read. *)
Lemma getline_last ss old d l :
  at_rest ss l -> d ∉ l ->
  exists ss', getline ss old d = (l, ss') /\ good ss' = false /\ eof ss' = true /\
    failbit ss' = bool_decide (l = []) /\ buf ss' = buf ss.
Proof.
  intros (Hg & Hr & Hp) Hd. unfold getline. rewrite Hg, Hr. simpl. rewrite cut_not_elem by done.
  eexists. split; [done|]. simpl. done.
Qed.

(** Reading a stream that is not good leaves the target as it was. *)
Lemma getline_not_good ss old d :
  good ss = false -> exists ss', getline ss old d = (old, ss') /\ good ss' = false.
Proof.
  intros Hg. unfold getline. rewrite Hg. simpl. eexists. split; [done|].
  unfold good, set_fail; simpl. by rewrite andb_false_r.
Qed.

(** The getline loop yields exactly the split, in at most [length + 2] rounds. *)
Lemma pieces_split d s : forall fuel ss,
  at_rest ss s -> (length s + 1 < fuel)%nat ->
  exists ss', pieces fuel ss d = Some (split d s, ss') /\ good ss' = false /\ eof ss' = true.
Proof.
  induction s as [s IH] using (induction_ltof1 _ (@length ascii)). intros [|fuel] ss Hs Hf; [lia|].
  cbn [pieces]. rewrite (proj1 Hs).
  rewrite split_cut. destruct (cut d s) as [l [r|]] eqn:E.
  - apply cut_Some in E as [-> Hl].
    destruct (getline_delim ss [] d l r Hs Hl) as (ss1 & -> & H1 & _).
    rewrite length_app in Hf. simpl in Hf.
    destruct (IH r) with (fuel := fuel) (ss := ss1) as (ss2 & -> & H2);
      [unfold ltof; rewrite length_app; simpl; lia|done|lia|].
    simpl. eauto.
  - apply cut_None in E as [-> Hl].
    destruct (getline_last ss [] d s Hs Hl) as (ss1 & -> & H1 & H2 & _).
    destruct fuel as [|fuel]; [lia|]. cbn [pieces]. rewrite H1. simpl. eauto.
Qed.

End SStream.

#[export] Hint Resolve SStream.at_rest_of_bytes : cpputil.
