(* ===== verification/Decimal.v ===== *)
(** * Decimal numerals

    What [operator<<(int)], [std::to_string] and [std::stoi] and its relatives
    do with decimal numbers, and that reading back what was printed gives the
    number. *)

From S2P Require Import Prelude.

Module Decimal.

Definition digit (n : Z) : ascii := ascii_of_N (Z.to_N (48 + n)).

Definition digit_value (c : ascii) : option Z :=
  let n := Z.of_N (N_of_ascii c) - 48 in
  if (0 <=? n) && (n <=? 9) then Some n else None.

(** The digits of a natural number, most significant first; [fuel] is at least
    their number. *)
Fixpoint digits (fuel : nat) (n : Z) : bytes :=
  match fuel with
  | O => []
  | S fuel' =>
      if n / 10 =? 0 then [digit (n mod 10)] else digits fuel' (n / 10) ++ [digit (n mod 10)]
  end.

(** One round per binary digit is more than enough. *)
Definition natural (n : Z) : bytes := digits (S (Z.to_nat (Z.log2 n))) n.

(** [std::to_string(z)] and [os << z] *)
Definition to_string (z : Z) : bytes :=
  if z <? 0 then "-"%char :: natural (- z) else natural z.

(** The longest run of digits at the front, accumulated. *)
Fixpoint scan (acc : Z) (s : bytes) : Z :=
  match s with
  | c :: s' => match digit_value c with Some d => scan (10 * acc + d) s' | None => acc end
  | [] => acc
  end.

Definition starts_with_digit (s : bytes) : bool :=
  match s with c :: _ => if digit_value c then true else false | [] => false end.

(** White space that [strtol] skips. *)
Definition is_blank (c : ascii) : bool :=
  let n := Z.of_N (N_of_ascii c) in (n =? 32) || ((9 <=? n) && (n <=? 13)).

Fixpoint skip_blanks (s : bytes) : bytes :=
  match s with c :: s' => if is_blank c then skip_blanks s' else s | [] => [] end.

(** [std::stoi] and friends for a [w]-bit signed type: [None] is the exception
    ([std::invalid_argument] or [std::out_of_range]). *)
Definition sto (w : Z) (s : bytes) : option Z :=
  let '(neg, ds) :=
    match skip_blanks s with
    | c :: s' => if decide (c = "-"%char) then (true, s')
                 else if decide (c = "+"%char) then (false, s') else (false, c :: s')
    | [] => (false, [])
    end in
  if starts_with_digit ds then
    let v := if neg then - scan 0 ds else scan 0 ds in
    if (- 2 ^ (w - 1) <=? v) && (v <? 2 ^ (w - 1)) then Some v else None
  else None.

(** [std::stoul] and [std::stoull] (64 bits); a minus sign negates modulo
    [2^64]. *)
Definition stou (s : bytes) : option Z :=
  let '(neg, ds) :=
    match skip_blanks s with
    | c :: s' => if decide (c = "-"%char) then (true, s')
                 else if decide (c = "+"%char) then (false, s') else (false, c :: s')
    | [] => (false, [])
    end in
  if starts_with_digit ds then
    let v := scan 0 ds in
    if v <? 2 ^ 64 then Some (if neg then wrapu 64 (- v) else v) else None
  else None.

(** ** Reading back *)

Lemma digit_cases n : 0 <= n < 10 -> n ∈ [0; 1; 2; 3; 4; 5; 6; 7; 8; 9].
Proof. intros H. rewrite !elem_of_cons. lia. Qed.

Lemma digit_value_digit n : 0 <= n < 10 -> digit_value (digit n) = Some n.
Proof.
  intros H. apply digit_cases in H. rewrite !elem_of_cons, elem_of_nil in H.
  destruct_or! H; try done; subst; reflexivity.
Qed.

Lemma scan_app acc s c d :
  Forall (fun c => is_Some (digit_value c)) s -> digit_value c = Some d ->
  scan acc (s ++ [c]) = 10 * scan acc s + d.
Proof.
  intros Hs Hc. revert acc. induction Hs as [|x s [dx Hx] _ IH]; intros acc; simpl; [by rewrite Hc|].
  by rewrite Hx, IH.
Qed.

Lemma digits_spec fuel n :
  0 <= n -> n < 2 ^ Z.of_nat fuel -> (0 < fuel)%nat ->
  Forall (fun c => is_Some (digit_value c)) (digits fuel n) /\ scan 0 (digits fuel n) = n /\
  digits fuel n <> [].
Proof.
  revert n. induction fuel as [|fuel IH]; intros n H0 Hn Hf; [lia|]. cbn [digits].
  pose proof (Z.mod_pos_bound n 10 ltac:(lia)) as Hm.
  pose proof (digit_value_digit (n mod 10) Hm) as Hd.
  destruct (Z.eqb_spec (n / 10) 0) as [E|E].
  - split_and!; [by repeat constructor|simpl; rewrite Hd; dlia|done].
  - assert (0 <= n / 10 < 2 ^ Z.of_nat fuel) as Hq.
    { rewrite Nat2Z.inj_succ, Z.pow_succ_r in Hn by lia. split; [apply Z.div_pos; lia|].
      apply Z.div_lt_upper_bound; lia. }
    destruct fuel as [|fuel]; [simpl in Hq; lia|].
    destruct (IH (n / 10)) as (IH1 & IH2 & IH3); [lia|lia|lia|]. split_and!.
    + apply Forall_app. split; [done|]. by repeat constructor.
    + erewrite scan_app by done. rewrite IH2. dlia.
    + by destruct (digits (S fuel) (n / 10)).
Qed.

Lemma natural_spec n :
  0 <= n -> Forall (fun c => is_Some (digit_value c)) (natural n) /\ scan 0 (natural n) = n /\ natural n <> [].
Proof.
  intros H. apply digits_spec; [done| |lia].
  destruct (decide (n = 0)) as [->|Hn]; [done|].
  rewrite Nat2Z.inj_succ, Z2Nat.id by apply Z.log2_nonneg. apply Z.log2_spec. lia.
Qed.

Lemma digit_value_not c d : digit_value c = Some d -> is_blank c = false /\ c <> "-"%char /\ c <> "+"%char.
Proof.
  intros H. split_and!; [|by intros ->..]. unfold digit_value, is_blank in *.
  destruct (_ && _) eqn:E in H; [|done]. breflect. lia.
Qed.

(** [std::stoi(std::to_string(z))] is [z], for every value of the type. *)
Lemma sto_to_string w z : in_s w z -> sto w (to_string z) = Some z.
Proof.
  intros Hz. unfold in_s in Hz. unfold to_string. destruct (Z.ltb_spec z 0).
  - destruct (natural_spec (- z)) as (H1 & H2 & H3); [lia|]. unfold sto. simpl.
    destruct (natural (- z)) as [|c s]; [done|]. apply Forall_cons in H1 as [[d Hd] _].
    simpl starts_with_digit. rewrite Hd, H2. rewrite Z.opp_involutive.
    rewrite (proj2 (Z.leb_le _ _)), (proj2 (Z.ltb_lt _ _)) by lia. done.
  - destruct (natural_spec z) as (H1 & H2 & H3); [lia|]. unfold sto.
    destruct (natural z) as [|c s]; [done|]. apply Forall_cons in H1 as [[d Hd] _].
    destruct (digit_value_not _ _ Hd) as (Hb & Hm & Hp).
    cbn [skip_blanks]. rewrite Hb, !decide_False by done. simpl starts_with_digit. rewrite Hd, H2.
    rewrite (proj2 (Z.leb_le _ _)), (proj2 (Z.ltb_lt _ _)) by lia. done.
Qed.

Lemma stou_to_string z : in_u 64 z -> stou (to_string z) = Some z.
Proof.
  intros Hz. unfold in_u in Hz. unfold to_string. rewrite (proj2 (Z.ltb_ge z 0)) by lia.
  destruct (natural_spec z) as (H1 & H2 & H3); [lia|]. unfold stou.
  destruct (natural z) as [|c s]; [done|]. apply Forall_cons in H1 as [[d Hd] _].
  destruct (digit_value_not _ _ Hd) as (Hb & Hm & Hp).
  cbn [skip_blanks]. rewrite Hb, !decide_False by done. simpl starts_with_digit. rewrite Hd, H2.
  by rewrite (proj2 (Z.ltb_lt _ _)) by lia.
Qed.

Lemma to_string_digits z c : c ∈ to_string z -> c = "-"%char \/ is_Some (digit_value c).
Proof.
  unfold to_string. destruct (Z.ltb_spec z 0); [intros [-> |Hc]%elem_of_cons; [by left|]|intros Hc]; right.
  - destruct (natural_spec (- z)) as [H1 _]; [lia|]. by apply (proj1 (Forall_forall _ _) H1).
  - destruct (natural_spec z) as [H1 _]; [lia|]. by apply (proj1 (Forall_forall _ _) H1).
Qed.

End Decimal.
