(* ===== verification/StringUtil.v ===== *)
(** * util/string/string_util.{h,cc}

    [ltrim], [rtrim], [trim] and [string_split]. *)

From S2P Require Import Prelude SStream.

(** [isspace] of the C locale: space, \t \n \v \f \r *)
Definition isspace (c : ascii) : bool :=
  let n := Z.of_N (N_of_ascii c) in (n =? 32) || ((9 <=? n) && (n <=? 13)).

Fixpoint ltrim (s : bytes) : bytes :=
  match s with
  | c :: s' => if isspace c then ltrim s' else s
  | [] => []
  end.

(** The erased suffix starts after the last character that is not a space. *)
Definition rtrim (s : bytes) : bytes := reverse (ltrim (reverse s)).

Definition trim (s : bytes) : bytes := ltrim (rtrim s).

(** [fuel] bounds the rounds of [while (ss.good())]. *)
Definition string_split_fuel (fuel : nat) (str : bytes) (delimter : ascii)
  (res : list bytes) : option (list bytes) :=
  '(ls, _) ← SStream.pieces fuel (SStream.of_bytes str) delimter;
  Some (res ++ (trim <$> ls)).

Definition string_split (str : bytes) (delimter : ascii) (res : list bytes) : option (list bytes) :=
  string_split_fuel (length str + 2) str delimter res.

(** ** Trimming *)

Lemma ltrim_decomp s : exists a, s = a ++ ltrim s /\ Forall (fun c => isspace c = true) a.
Proof.
  induction s as [|c s (a & E & Ha)]; simpl; [by exists []|].
  destruct (isspace c) eqn:Ec; [|by exists []].
  exists (c :: a). split; [simpl; congruence|by constructor].
Qed.

Lemma ltrim_head s c s' : ltrim s = c :: s' -> isspace c = false.
Proof. induction s as [|c0 s IH]; simpl; [done|]. case_test; [done|]. intros [= -> ->]. done. Qed.

Lemma ltrim_fix s : (forall c s', s = c :: s' -> isspace c = false) -> ltrim s = s.
Proof. destruct s as [|c s]; simpl; [done|]. intros H. by rewrite (H c s). Qed.

Lemma rtrim_decomp s : exists b, s = rtrim s ++ b /\ Forall (fun c => isspace c = true) b.
Proof.
  destruct (ltrim_decomp (reverse s)) as (a & E & Ha). exists (reverse a). unfold rtrim. split.
  - rewrite <- reverse_app, <- E, reverse_involutive. done.
  - by apply Forall_reverse.
Qed.

Lemma rtrim_last s x y : rtrim s = x ++ [y] -> isspace y = false.
Proof.
  unfold rtrim. intros H. apply (f_equal reverse) in H.
  rewrite reverse_involutive, reverse_snoc in H. by eapply ltrim_head.
Qed.

(** What [trim] removes and what it keeps. *)
Lemma trim_decomp s :
  exists a b, s = a ++ trim s ++ b /\
    Forall (fun c => isspace c = true) a /\ Forall (fun c => isspace c = true) b.
Proof.
  destruct (rtrim_decomp s) as (b & Es & Hb), (ltrim_decomp (rtrim s)) as (a & Er & Ha).
  exists a, b. split; [|done]. unfold trim. by rewrite app_assoc, <- Er.
Qed.

Lemma trim_first s c s' : trim s = c :: s' -> isspace c = false.
Proof. apply ltrim_head. Qed.

Lemma trim_last s x y : trim s = x ++ [y] -> isspace y = false.
Proof.
  unfold trim. intros H. destruct (ltrim_decomp (rtrim s)) as (a & E & _).
  rewrite H, app_assoc in E. by eapply rtrim_last.
Qed.

Lemma trim_fix s :
  (forall c s', s = c :: s' -> isspace c = false) ->
  (forall x y, s = x ++ [y] -> isspace y = false) -> trim s = s.
Proof.
  intros H1 H2. unfold trim, rtrim. rewrite (ltrim_fix (reverse s)).
  - rewrite reverse_involutive. by apply ltrim_fix.
  - intros c s' E. apply (H2 (reverse s')). rewrite <- (reverse_involutive s), E.
    by rewrite reverse_cons.
Qed.

Lemma trim_idem s : trim (trim s) = trim s.
Proof. apply trim_fix; [apply trim_first|apply trim_last]. Qed.

Lemma string_split_spec str d res : string_split str d res = Some (res ++ (trim <$> SStream.split d str)).
Proof.
  unfold string_split, string_split_fuel.
  destruct (SStream.pieces_split d str (length str + 2) (SStream.of_bytes str))
    as (ss & -> & _); [apply SStream.at_rest_of_bytes|lia|]. done.
Qed.

(** C28: [string_split] terminates and appends one trimmed piece per field
    between delimiters; joining the untrimmed fields gives the input back, and
    each piece is its field less leading and trailing white space. *)
Theorem string_split_correct (str : bytes) (d : ascii) (res : list bytes) :
  exists fields, string_split str d res = Some (res ++ (trim <$> fields)) /\
    SStream.join d fields = str /\ Forall (fun f => d ∉ f) fields /\ fields <> [] /\
    Forall (fun f => exists a b, f = a ++ trim f ++ b /\
      Forall (fun c => isspace c = true) (a ++ b) /\
      (forall c s, trim f = c :: s -> isspace c = false) /\
      (forall s c, trim f = s ++ [c] -> isspace c = false)) fields.
Proof.
  exists (SStream.split d str). split_and!.
  - apply string_split_spec.
  - apply SStream.join_split.
  - apply SStream.split_no_delim.
  - apply SStream.split_ne.
  - apply Forall_forall. intros f _. destruct (trim_decomp f) as (a & b & E & Ha & Hb).
    exists a, b. split_and!; [done|by apply Forall_app|apply trim_first|apply trim_last].
Qed.
