(* ===== verification/RingQueue.v ===== *)
(** * data_structure/ring_buffer_queue/queue.h

    [class Queue]: a bounded FIFO of [uint32_t] over a ring of [capacity + 1]
    cells of type [int32_t].  All index arithmetic is [uint32_t]; an access
    outside [data_] and a remainder by zero are undefined behaviour, [None]. *)

From S2P Require Import Prelude.

(** ** Abstract specification: a FIFO that holds at most [bound] values. *)
Module FifoSpec.

Record t := mk { bound : Z; items : list Z }.

Definition is_full (q : t) : bool := bound q <=? vlen (items q).

Definition enqueue (x : Z) (q : t) : bool * t :=
  if is_full q then (false, q) else (true, mk (bound q) (items q ++ [x])).

Definition dequeue (q : t) : option Z * t :=
  match items q with
  | [] => (None, q)
  | x :: xs => (Some x, mk (bound q) xs)
  end.

End FifoSpec.

(** ** The class *)
Module Queue.

Record t := mk {
  data_ : list Z;      (* std::vector<int32_t> *)
  capacity_ : Z;       (* uint32_t *)
  front_ : Z;          (* uint32_t *)
  rear_ : Z;           (* uint32_t *)
}.

Definition make (capacity : Z) : t :=
  let c := u32 (capacity + 1) in
  mk (replicate (Z.to_nat c) 0) c 0 0.

Definition IsEmpty (q : t) : bool := front_ q =? rear_ q.

(** [(i + 1) % capacity_] *)
Definition next_index (q : t) (i : Z) : option Z :=
  if capacity_ q =? 0 then None else Some (u32 (i + 1) mod capacity_ q).

Definition IsFull (q : t) : option bool :=
  n ← next_index q (rear_ q); Some (n =? front_ q).

Definition Enqueue (q : t) (elem : Z) : option (bool * t) :=
  full ← IsFull q;
  if (full : bool) then Some (false, q)
  else
    d ← vset (data_ q) (rear_ q) (i32 elem);
    r ← next_index q (rear_ q);
    Some (true, mk d (capacity_ q) (front_ q) r).

Definition Dequeue (q : t) : option (Z * t) :=
  if IsEmpty q then Some (u32 (-1), q)
  else
    elem ← vget (data_ q) (front_ q);
    f ← next_index q (front_ q);
    Some (u32 elem, mk (data_ q) (capacity_ q) f (rear_ q)).

(** Number of stored elements and the elements in dequeue order. *)
Definition count (q : t) : Z := (rear_ q - front_ q) mod capacity_ q.

Definition slot (q : t) (k : Z) : Z := (front_ q + k) mod capacity_ q.

(** The concrete queue [q] stores the abstract contents [s]. *)
Record Rep (q : t) (s : FifoSpec.t) : Prop := {
  rep_bound : FifoSpec.bound s = capacity_ q - 1;
  rep_cap : 1 <= capacity_ q < 2 ^ 32;
  rep_len : vlen (data_ q) = capacity_ q;
  rep_front : 0 <= front_ q < capacity_ q;
  rep_rear : 0 <= rear_ q < capacity_ q;
  rep_count : vlen (FifoSpec.items s) = count q;
  rep_items : forall k x, FifoSpec.items s !! Z.to_nat k = Some x -> 0 <= k ->
    in_u 32 x /\ vget (data_ q) (slot q k) = Some (i32 x);
}.

Section lemmas.
Implicit Types (q : t) (s : FifoSpec.t).

Lemma next_index_Some q i :
  1 <= capacity_ q < 2 ^ 32 -> 0 <= i < capacity_ q ->
  next_index q i = Some ((i + 1) mod capacity_ q).
Proof.
  intros Hc Hi. unfold next_index. destruct (Z.eqb_spec (capacity_ q) 0); [lia|].
  rewrite wrapu_id by (unfold in_u; lia). done.
Qed.

(** Walking one cell round the ring from below [c]. *)
Lemma succ_mod i c : 0 <= i < c -> (i + 1) mod c = if i + 1 =? c then 0 else i + 1.
Proof.
  intros H. destruct (Z.eqb_spec (i + 1) c) as [->|].
  - apply Z_mod_same_full.
  - apply Z.mod_small. lia.
Qed.

(** The distance between two cells of the ring. *)
Lemma dist_mod f r c :
  0 <= f < c -> 0 <= r < c -> (r - f) mod c = if f <=? r then r - f else r - f + c.
Proof.
  intros Hf Hr. destruct (Z.leb_spec f r).
  - apply Z.mod_small. lia.
  - rewrite <- (Z_mod_plus_full _ 1), Z.mod_small by lia. lia.
Qed.

(** A cell at offset [k] from the front. *)
Lemma slot_mod f k c :
  0 <= f < c -> 0 <= k < c -> (f + k) mod c = if f + k <? c then f + k else f + k - c.
Proof.
  intros Hf Hk. destruct (Z.ltb_spec (f + k) c).
  - apply Z.mod_small. lia.
  - rewrite <- (Z_mod_plus_full _ (-1)), Z.mod_small by lia. lia.
Qed.

Lemma make_Rep capacity :
  0 <= capacity < 2 ^ 32 - 1 -> Rep (make capacity) (FifoSpec.mk capacity []).
Proof.
  intros H. unfold make. rewrite wrapu_id by (unfold in_u; lia).
  constructor; simpl; try lia.
  - unfold vlen. rewrite length_replicate. lia.
  - unfold count; simpl. rewrite Z.mod_0_l by lia. done.
  - intros k x Hk. by rewrite lookup_nil in Hk.
Qed.

Lemma IsEmpty_spec q s : Rep q s -> IsEmpty q = bool_decide (FifoSpec.items s = []).
Proof.
  intros []. unfold IsEmpty, count in *. rewrite dist_mod in rep_count0 by lia.
  unfold vlen in *.
  destruct (FifoSpec.items s); simpl in *;
    destruct (Z.eqb_spec (front_ q) (rear_ q)), (Z.leb_spec (front_ q) (rear_ q));
    done || lia.
Qed.

Lemma IsFull_spec q s : Rep q s -> IsFull q = Some (FifoSpec.is_full s).
Proof.
  intros []. unfold IsFull, FifoSpec.is_full, count in *.
  rewrite next_index_Some by lia. simpl. f_equal.
  rewrite rep_count0, rep_bound0, dist_mod, succ_mod by lia.
  destruct (Z.eqb_spec (rear_ q + 1) (capacity_ q)); destruct (Z.leb_spec (front_ q) (rear_ q));
    match goal with |- (?a =? ?b) = (?c <=? ?d) =>
      destruct (Z.eqb_spec a b), (Z.leb_spec c d); done || lia end.
Qed.

(** Distances after the rear, or the front, moves on by one cell. *)
Lemma count_rear_succ f r c :
  0 <= f < c -> 0 <= r < c -> (r + 1) mod c <> f ->
  ((r + 1) mod c - f) mod c = (r - f) mod c + 1.
Proof.
  intros Hf Hr Hne. pose proof (Z.mod_pos_bound (r + 1) c ltac:(lia)).
  rewrite !dist_mod by lia. rewrite succ_mod in * by lia.
  repeat (case_test; breflect); lia.
Qed.

Lemma count_front_succ f r c :
  0 <= f < c -> 0 <= r < c -> f <> r ->
  (r - (f + 1) mod c) mod c = (r - f) mod c - 1.
Proof.
  intros Hf Hr Hne. pose proof (Z.mod_pos_bound (f + 1) c ltac:(lia)).
  rewrite !dist_mod by lia. rewrite succ_mod in * by lia.
  repeat (case_test; breflect); lia.
Qed.

(** The [rear_] cell is the slot just after the stored elements, and no
    stored element lives there. *)
Lemma slot_count f r c : 0 <= f < c -> 0 <= r < c -> (f + (r - f) mod c) mod c = r.
Proof.
  intros Hf Hr. pose proof (Z.mod_pos_bound (r - f) c ltac:(lia)).
  rewrite slot_mod by lia. rewrite dist_mod in * by lia.
  repeat (case_test; breflect); lia.
Qed.

Lemma slot_below f r c k :
  0 <= f < c -> 0 <= r < c -> 0 <= k < (r - f) mod c -> (f + k) mod c <> r.
Proof.
  intros Hf Hr. pose proof (Z.mod_pos_bound (r - f) c ltac:(lia)). intros Hk.
  rewrite slot_mod by lia. rewrite dist_mod in * by lia.
  repeat (case_test; breflect); lia.
Qed.

Lemma slot_front_succ f k c :
  0 <= f < c -> 0 <= k -> ((f + 1) mod c + k) mod c = (f + (k + 1)) mod c.
Proof. intros. rewrite Zplus_mod_idemp_l. f_equal. lia. Qed.

(** Enqueue refines the bounded FIFO. *)
Lemma Enqueue_Rep q s x :
  Rep q s -> in_u 32 x ->
  exists q', Enqueue q x = Some (fst (FifoSpec.enqueue x s), q') /\ Rep q' (snd (FifoSpec.enqueue x s)).
Proof.
  intros HR Hx. pose proof (IsFull_spec q s HR) as Hfull.
  unfold Enqueue. rewrite Hfull. simpl. unfold FifoSpec.enqueue.
  destruct (FifoSpec.is_full s) eqn:Ef; [by eauto|].
  destruct HR as [Hb Hcap Hlen Hf Hr Hcount Hitems].
  rewrite vset_in_range by lia. simpl.
  rewrite next_index_Some by lia. simpl. eexists. split; [done|].
  unfold IsFull in Hfull. rewrite next_index_Some in Hfull by lia.
  injection Hfull as Hne. breflect.
  assert (0 <= rear_ q < vlen (data_ q)) as Hin by lia.
  destruct (vset_Some _ _ (i32 x) _ (vset_in_range _ _ _ Hin)) as (_ & Hlen' & Hnew & Hold).
  pose proof (Z.mod_pos_bound (rear_ q + 1) (capacity_ q) ltac:(lia)).
  unfold count in *. constructor; simpl; try lia.
  - unfold vlen in *. rewrite length_app. simpl. unfold count; simpl.
    rewrite count_rear_succ by lia. lia.
  - intros k y Hk Hk0. unfold slot in *; simpl in *.
    destruct (decide (k < vlen (FifoSpec.items s))) as [Hlt|Hge].
    + rewrite lookup_app_l in Hk by (unfold vlen in *; lia).
      destruct (Hitems _ _ Hk Hk0) as [Hy Hg]. split; [done|].
      rewrite Hold; [done|]. apply slot_below; lia.
    + rewrite lookup_app_r in Hk by (unfold vlen in *; lia).
      apply list_lookup_singleton_Some in Hk as [Hi <-].
      assert (k = (rear_ q - front_ q) mod capacity_ q) as -> by (unfold vlen in *; lia).
      rewrite slot_count by lia. done.
Qed.

(** Dequeue refines the bounded FIFO; on an empty queue the code returns the
    [uint32_t] conversion of [-1]. *)
Lemma Dequeue_Rep q s :
  Rep q s ->
  exists q', Dequeue q = Some (default (2 ^ 32 - 1) (fst (FifoSpec.dequeue s)), q') /\ Rep q' (snd (FifoSpec.dequeue s)).
Proof.
  intros HR. pose proof (IsEmpty_spec q s HR) as He. unfold Dequeue, FifoSpec.dequeue.
  rewrite He. destruct (FifoSpec.items s) as [|x xs] eqn:Ei; simpl.
  { exists q. done. }
  rewrite bool_decide_eq_false_2 in He by done.
  destruct HR as [Hb Hcap Hlen Hf Hr Hcount Hitems]. rewrite Ei in *.
  unfold IsEmpty in He. breflect.
  destruct (Hitems 0 x eq_refl ltac:(lia)) as [Hx Hg].
  unfold slot in Hg. rewrite Z.add_0_r, Z.mod_small in Hg by lia. rewrite Hg. simpl.
  rewrite next_index_Some by lia. simpl. eexists. split.
  { by rewrite wrapu_wraps, wrapu_id by done. }
  pose proof (Z.mod_pos_bound (front_ q + 1) (capacity_ q) ltac:(lia)).
  unfold count in *. constructor; simpl; try lia.
  - unfold count, vlen in *; simpl in *. rewrite count_front_succ by lia. lia.
  - intros k y Hk Hk0. unfold slot; simpl. rewrite slot_front_succ by lia.
    apply (Hitems (k + 1)); [|lia].
    replace (Z.to_nat (k + 1)) with (S (Z.to_nat k)) by lia. done.
Qed.

(** The abstraction never exceeds its bound. *)
Lemma Rep_within_bound q s : Rep q s -> vlen (FifoSpec.items s) <= FifoSpec.bound s.
Proof.
  intros []. unfold count in *.
  pose proof (Z.mod_pos_bound (rear_ q - front_ q) (capacity_ q) ltac:(lia)). lia.
Qed.
End lemmas.

(** A client's sequence of calls and what each returned. *)
Inductive op := OpEnqueue (x : Z) | OpDequeue.

Inductive ret := RetBool (b : bool) | RetElem (x : Z).

Fixpoint run (q : t) (ops : list op) : option (list ret * t) :=
  match ops with
  | [] => Some ([], q)
  | OpEnqueue x :: ops' =>
      '(b, q1) ← Enqueue q x; '(rs, q2) ← run q1 ops'; Some (RetBool b :: rs, q2)
  | OpDequeue :: ops' =>
      '(x, q1) ← Dequeue q; '(rs, q2) ← run q1 ops'; Some (RetElem x :: rs, q2)
  end.

Fixpoint spec_run (s : FifoSpec.t) (ops : list op) : list ret * FifoSpec.t :=
  match ops with
  | [] => ([], s)
  | OpEnqueue x :: ops' =>
      let '(b, s1) := FifoSpec.enqueue x s in
      let '(rs, s2) := spec_run s1 ops' in (RetBool b :: rs, s2)
  | OpDequeue :: ops' =>
      let '(x, s1) := FifoSpec.dequeue s in
      let '(rs, s2) := spec_run s1 ops' in (RetElem (default (2 ^ 32 - 1) x) :: rs, s2)
  end.

Definition op_ok (o : op) : Prop :=
  match o with OpEnqueue x => in_u 32 x | OpDequeue => True end.

#[global] Instance op_ok_dec o : Decision (op_ok o).
Proof. destruct o; simpl; apply _. Defined.

Lemma run_Rep ops q s :
  Rep q s -> Forall op_ok ops ->
  exists q', run q ops = Some (fst (spec_run s ops), q') /\ Rep q' (snd (spec_run s ops)).
Proof.
  intros HR Hops. revert q s HR. induction Hops as [|o ops Ho _ IH]; intros q s HR; simpl.
  { eauto. }
  destruct o as [x|].
  - destruct (Enqueue_Rep q s x HR Ho) as (q1 & -> & HR1). simpl.
    destruct (IH _ _ HR1) as (q2 & -> & HR2). simpl. exists q2.
    destruct (FifoSpec.enqueue x s) as [b s1]; simpl in *.
    destruct (spec_run s1 ops); done.
  - destruct (Dequeue_Rep q s HR) as (q1 & -> & HR1). simpl.
    destruct (IH _ _ HR1) as (q2 & -> & HR2). simpl. exists q2.
    destruct (FifoSpec.dequeue s) as [b s1]; simpl in *.
    destruct (spec_run s1 ops); done.
Qed.

Lemma spec_run_bound ops s : FifoSpec.bound (snd (spec_run s ops)) = FifoSpec.bound s.
Proof.
  revert s. induction ops as [|[x|] ops IH]; intros s; simpl; [done|..].
  - specialize (IH (snd (FifoSpec.enqueue x s))). unfold FifoSpec.enqueue in *.
    destruct (FifoSpec.is_full s); simpl in *; by destruct (spec_run _ ops).
  - specialize (IH (snd (FifoSpec.dequeue s))). unfold FifoSpec.dequeue in *.
    destruct (FifoSpec.items s); simpl in *; by destruct (spec_run _ ops).
Qed.

(** C18: for every capacity below [2^32 - 1] and every sequence of calls with
    [uint32_t] arguments, the ring buffer runs without undefined behaviour,
    returns exactly what a FIFO bounded by that capacity returns (an empty
    [Dequeue] giving [4294967295]), and ends in a state that stores that FIFO. *)
Theorem queue_refines_fifo (capacity : Z) (ops : list op) :
  0 <= capacity < 2 ^ 32 - 1 -> Forall op_ok ops ->
  exists q', run (make capacity) ops =
               Some (fst (spec_run (FifoSpec.mk capacity []) ops), q') /\
             Rep q' (snd (spec_run (FifoSpec.mk capacity []) ops)).
Proof. intros Hc Hops. apply run_Rep; [by apply make_Rep|done]. Qed.

Lemma queue_refines_fifo_witness :
  exists q', run (make 2) [OpEnqueue 7; OpEnqueue 4294967295; OpEnqueue 9; OpDequeue] =
               Some ([RetBool true; RetBool true; RetBool false; RetElem 7], q') /\
             Rep q' (FifoSpec.mk 2 [4294967295]).
Proof.
  apply (queue_refines_fifo 2 [OpEnqueue 7; OpEnqueue 4294967295; OpEnqueue 9; OpDequeue]).
  - lia.
  - apply (bool_decide_unpack _). vm_compute. exact I.
Defined.

(** The stored elements never outnumber the requested capacity and both
    indices stay inside the vector, whatever the calls. *)
Theorem queue_bounded (capacity : Z) (ops : list op) rs q' :
  0 <= capacity < 2 ^ 32 - 1 -> Forall op_ok ops ->
  run (make capacity) ops = Some (rs, q') ->
  count q' <= capacity /\ 0 <= front_ q' < vlen (data_ q') /\ 0 <= rear_ q' < vlen (data_ q').
Proof.
  intros Hc Hops Hrun.
  destruct (run_Rep ops _ _ (make_Rep _ Hc) Hops) as (q1 & Hq1 & HR).
  rewrite Hrun in Hq1. injection Hq1 as _ <-.
  pose proof (Rep_within_bound _ _ HR) as Hb. rewrite spec_run_bound in Hb. simpl in Hb.
  destruct HR. lia.
Qed.

Lemma queue_bounded_witness :
  count (mk [7; 9; 0] 3 0 2) <= 2 /\ 0 <= 0 < vlen [7; 9; 0] /\ 0 <= 2 < vlen [7; 9; 0].
Proof.
  apply (queue_bounded 2 [OpEnqueue 7; OpEnqueue 9; OpEnqueue 11]
           [RetBool true; RetBool true; RetBool false] (mk [7; 9; 0] 3 0 2)).
  - lia.
  - apply (bool_decide_unpack _). vm_compute. exact I.
  - vm_compute. reflexivity.
Defined.

(** With the largest [uint32_t] capacity, [capacity + 1] wraps to zero: the
    ring has no cells and every [Enqueue] divides by zero. *)
Theorem queue_capacity_overflow (x : Z) :
  capacity_ (make (2 ^ 32 - 1)) = 0 /\ Enqueue (make (2 ^ 32 - 1)) x = None.
Proof. split; reflexivity. Qed.

End Queue.
