(* ===== verification/SegmentTree.v ===== *)
(** * data_structure/segment_tree/segment_tree.{h,cc}

    [class SegmentTree]: range sums over an array indexed from 1, with lazily
    propagated range additions.  The two arrays [sum_] and [lazy_add_] are
    [std::vector<int>]: an access outside the bounds is [None].  Index and
    length arithmetic is [std::size_t], stored values are [int]; an [int]
    addition that overflows, undefined in C++, is given its two's-complement
    result.  Recursion is on fuel; [None] also stands for running out of it, and
    every theorem shows that [height + 1] is enough. *)

From S2P Require Import Prelude.
From Stdlib Require Import Morphisms.

(** ** Congruence modulo [2^32], the equality of stored [int]s *)

Definition eqm (x y : Z) : Prop := i32 x = i32 y.

#[global] Instance eqm_equiv : Equivalence eqm.
Proof.
  split; unfold eqm; [by intros x|by intros x y|].
  intros x y z H1 H2. by transitivity (i32 y).
Qed.

#[global] Instance eqm_add : Proper (eqm ==> eqm ==> eqm) Z.add.
Proof.
  intros x x' Hx y y' Hy. unfold eqm in *.
  rewrite <- (wraps_add 32 x y), Hx, Hy, wraps_add by lia. done.
Qed.

#[global] Instance eqm_mul_l : Proper (eqm ==> eq ==> eqm) Z.mul.
Proof.
  intros x x' Hx y y' <-. unfold eqm in *.
  rewrite <- (wraps_mul_l 32 x y), Hx, wraps_mul_l by lia. done.
Qed.

Lemma eqm_i32 x : eqm (i32 x) x.
Proof. unfold eqm. by rewrite wraps_wraps. Qed.

(** [rsum a l n] is [a l + a (l+1) + ... + a (l+n-1)]. *)
Fixpoint rsum (a : Z -> Z) (l : Z) (n : nat) : Z :=
  match n with
  | O => 0
  | S n' => a l + rsum a (l + 1) n'
  end.

Lemma rsum_app a l n m : rsum a l (n + m) = rsum a l n + rsum a (l + Z.of_nat n) m.
Proof.
  revert l. induction n as [|n IH]; intros l; cbn [rsum Nat.add].
  - by rewrite Z.add_0_r.
  - rewrite IH. replace (l + Z.of_nat (S n)) with (l + 1 + Z.of_nat n) by lia. lia.
Qed.

Lemma rsum_eqm a b l n :
  (forall i, l <= i < l + Z.of_nat n -> eqm (a i) (b i)) -> eqm (rsum a l n) (rsum b l n).
Proof.
  revert l. induction n as [|n IH]; intros l H; simpl; [done|].
  rewrite (H l) by lia. rewrite (IH (l + 1)); [done|]. intros i Hi. apply H. lia.
Qed.

Lemma rsum_ext a b l n :
  (forall i, l <= i < l + Z.of_nat n -> a i = b i) -> rsum a l n = rsum b l n.
Proof.
  revert l. induction n as [|n IH]; intros l H; simpl; [done|].
  rewrite H by lia. rewrite (IH (l + 1)); [done|]. intros i Hi. apply H. lia.
Qed.

Lemma rsum_shift a k l n : rsum (fun i => a i + k) l n = rsum a l n + k * Z.of_nat n.
Proof.
  revert l. induction n as [|n IH]; intros l; cbn [rsum]; [lia|]. rewrite IH. lia.
Qed.

Lemma rsum_zero l n : rsum (fun _ => 0) l n = 0.
Proof. revert l. induction n as [|n IH]; intros l; simpl; [done|]. by rewrite IH. Qed.

(** ** The class *)
Module SegmentTree.

Record Range := mkRange { left : Z; right : Z }.

Definition length (r : Range) : Z := u64 (right r - left r + 1).

Definition middle (r : Range) : Z := Z.shiftr (u64 (left r + right r)) 1.

Record t := mk {
  sum_ : list Z;
  lazy_add_ : list Z;
  root_ : Z;
  root_range_ : Range;
}.

Definition set_sum (s : list Z) (x : t) : t := mk s (lazy_add_ x) (root_ x) (root_range_ x).
Definition set_lazy (s : list Z) (x : t) : t := mk (sum_ x) s (root_ x) (root_range_ x).

(** [current << 1] and [current << 1 | 1] *)
Definition lchild (c : Z) : Z := u64 (Z.shiftl c 1).
Definition rchild (c : Z) : Z := Z.lor (u64 (Z.shiftl c 1)) 1.

(** [v[i] += x] with [x] an [int] *)
Definition add_int (v : list Z) (i x : Z) : option (list Z) :=
  y ← vget v i; vset v i (i32 (y + x)).

(** [v[i] += x] with [x] a [std::size_t]: the sum is computed in [std::size_t] *)
Definition add_size (v : list Z) (i x : Z) : option (list Z) :=
  y ← vget v i; vset v i (i32 (u64 (u64 y + x))).

(** [int * std::size_t] *)
Definition mul_size (x n : Z) : Z := u64 (u64 x * n).

Definition PushUp (x : t) (current : Z) : option t :=
  a ← vget (sum_ x) (lchild current);
  b ← vget (sum_ x) (rchild current);
  s ← vset (sum_ x) current (i32 (a + b));
  Some (set_sum s x).

Definition PushDown (x : t) (current : Z) (current_range : Range) : option t :=
  lz ← vget (lazy_add_ x) current;
  if lz =? 0 then Some x
  else
    let left_range := mkRange (left current_range) (middle current_range) in
    let right_range := mkRange (u64 (middle current_range + 1)) (right current_range) in
    z1 ← add_int (lazy_add_ x) (lchild current) lz;
    lz1 ← vget z1 current;
    z2 ← add_int z1 (rchild current) lz1;
    lz2 ← vget z2 current;
    s1 ← add_size (sum_ x) (lchild current) (mul_size lz2 (length left_range));
    s2 ← add_size s1 (rchild current) (mul_size lz2 (length right_range));
    z3 ← vset z2 current 0;
    Some (set_lazy z3 (set_sum s2 x)).

Fixpoint Build (fuel : nat) (x : t) (current : Z) (r : Range) : option t :=
  match fuel with
  | O => None
  | S fuel' =>
      if length r =? 1 then
        v ← vget (lazy_add_ x) (left r);
        s ← vset (sum_ x) current v;
        Some (set_sum s x)
      else
        let m := middle r in
        x1 ← Build fuel' x (lchild current) (mkRange (left r) m);
        x2 ← Build fuel' x1 (rchild current) (mkRange (u64 (m + 1)) (right r));
        PushUp x2 current
  end.

Fixpoint QueryNode (fuel : nat) (x : t) (q : Range) (current : Z) (r : Range)
  : option (Z * t) :=
  match fuel with
  | O => None
  | S fuel' =>
      if (left q <=? left r) && (right r <=? right q) then
        s ← vget (sum_ x) current; Some (s, x)
      else
        let m := middle r in
        x0 ← PushDown x current r;
        '(res1, x1) ←
          (if left q <=? m then
             '(s, y) ← QueryNode fuel' x0 q (lchild current) (mkRange (left r) m);
             Some (i32 (0 + s), y)
           else Some (0, x0));
        if u64 (m + 1) <=? right q then
          '(s, y) ← QueryNode fuel' x1 q (rchild current) (mkRange (u64 (m + 1)) (right r));
          Some (i32 (res1 + s), y)
        else Some (res1, x1)
  end.

Fixpoint UpdatePointNode (fuel : nat) (x : t) (k increment : Z) (current : Z) (r : Range)
  : option t :=
  match fuel with
  | O => None
  | S fuel' =>
      if length r =? 1 then
        s ← add_int (sum_ x) current increment; Some (set_sum s x)
      else
        let m := middle r in
        x1 ← (if k <=? m
              then UpdatePointNode fuel' x k increment (lchild current) (mkRange (left r) m)
              else UpdatePointNode fuel' x k increment (rchild current)
                     (mkRange (u64 (m + 1)) (right r)));
        PushUp x1 current
  end.

Fixpoint UpdateRangeNode (fuel : nat) (x : t) (k : Range) (increment : Z) (current : Z)
  (r : Range) : option t :=
  match fuel with
  | O => None
  | S fuel' =>
      if (left k <=? left r) && (right r <=? right k) then
        s ← add_size (sum_ x) current (mul_size increment (length r));
        z ← add_int (lazy_add_ x) current increment;
        Some (set_lazy z (set_sum s x))
      else
        let m := middle r in
        x0 ← PushDown x current r;
        x1 ← (if left k <=? m
              then UpdateRangeNode fuel' x0 k increment (lchild current) (mkRange (left r) m)
              else Some x0);
        x2 ← (if u64 (m + 1) <=? right k
              then UpdateRangeNode fuel' x1 k increment (rchild current)
                     (mkRange (u64 (m + 1)) (right r))
              else Some x1);
        PushUp x2 current
  end.

(** Fuel for a call from the root: one more than the tree's height. *)
Definition fuel_of (x : t) : nat := S (Z.to_nat (Z.log2 (right (root_range_ x)))).

Definition Update (x : t) (k increment : Z) : option t :=
  UpdatePointNode (fuel_of x) x k increment (root_ x) (root_range_ x).

Definition UpdateRange (x : t) (k_range : Range) (increment : Z) : option t :=
  UpdateRangeNode (fuel_of x) x k_range increment (root_ x) (root_range_ x).

Definition Query (x : t) (query_range : Range) : option (Z * t) :=
  QueryNode (fuel_of x) x query_range (root_ x) (root_range_ x).

(** The constructor: a failed [CHECK_GT] or [CHECK_EQ] logs a FATAL record,
    which ends the process. *)
Inductive made := CheckFailed | Made (x : t) | Undefined.

Definition make (len : Z) : made :=
  if len <=? 0 then CheckFailed
  else if negb (Z.land len (u64 (len - 1)) =? 0) then CheckFailed
  else
    let n := u64 (Z.shiftl len 1) in
    let x := mk (replicate (Z.to_nat n) 0) (replicate (Z.to_nat n) 0) 1 (mkRange 1 len) in
    match Build (fuel_of x) x (root_ x) (root_range_ x) with
    | Some x' => Made x'
    | None => Undefined
    end.

(** ** Node arithmetic *)

Definition wid (h : nat) : nat := Nat.pow 2 h.

Lemma wid_S h : wid (S h) = (wid h + wid h)%nat.
Proof. unfold wid. simpl. lia. Qed.

Lemma wid_pos h : (1 <= wid h)%nat.
Proof. unfold wid. induction h; simpl; lia. Qed.

(** The range of [2^h] cells that starts at [l]. *)
Definition span (l : Z) (h : nat) : Range := mkRange l (l + Z.of_nat (wid h) - 1).

Definition span_ok (l : Z) (h : nat) : Prop := 0 <= l /\ l + Z.of_nat (wid h) <= 2 ^ 62 + 1.

Lemma span_length l h : span_ok l h -> length (span l h) = Z.of_nat (wid h).
Proof.
  intros [H1 H2]. unfold length, span; simpl. pose proof (wid_pos h).
  rewrite wrapu_id by (unfold in_u; lia). lia.
Qed.

Lemma span_middle l h : span_ok l (S h) -> middle (span l (S h)) = l + Z.of_nat (wid h) - 1.
Proof.
  intros [H1 H2]. unfold middle, span; simpl. pose proof (wid_pos h). rewrite wid_S in *.
  rewrite wrapu_id by (unfold in_u; lia). rewrite Z.shiftr_div_pow2 by lia. dlia.
Qed.

Lemma span_left l h : span_ok l (S h) ->
  mkRange (left (span l (S h))) (middle (span l (S h))) = span l h /\ span_ok l h.
Proof.
  intros Hok. rewrite span_middle by done. destruct Hok. rewrite wid_S in *.
  split; [done|split; lia].
Qed.

Lemma span_right l h : span_ok l (S h) ->
  mkRange (u64 (middle (span l (S h)) + 1)) (right (span l (S h))) =
    span (l + Z.of_nat (wid h)) h /\ span_ok (l + Z.of_nat (wid h)) h.
Proof.
  intros Hok. rewrite span_middle by done. destruct Hok. pose proof (wid_pos h).
  unfold span, span_ok; simpl. rewrite wid_S in *.
  rewrite wrapu_id by (unfold in_u; lia).
  split; [f_equal; lia|lia].
Qed.

Lemma lchild_eq c : 0 <= c < 2 ^ 63 -> lchild c = 2 * c.
Proof.
  intros H. unfold lchild. rewrite Z.shiftl_mul_pow2 by lia.
  rewrite wrapu_id by (unfold in_u; lia). lia.
Qed.

Lemma rchild_eq c : 0 <= c < 2 ^ 63 -> rchild c = 2 * c + 1.
Proof.
  intros H. unfold rchild. change (u64 (Z.shiftl c 1)) with (lchild c).
  rewrite lchild_eq by done. destruct c as [|p|p]; [done|done|lia].
Qed.

(** [sub h c i]: node [i] belongs to the subtree of height [h] under node [c]. *)
Definition sub (h : nat) (c i : Z) : Prop :=
  exists k : nat, (k <= h)%nat /\ i / 2 ^ Z.of_nat k = c.

Lemma div_pow_trans i (j k : nat) :
  (j <= k)%nat -> i / 2 ^ Z.of_nat k = (i / 2 ^ Z.of_nat j) / 2 ^ Z.of_nat (k - j).
Proof.
  intros H. rewrite Z.div_div by lia. f_equal.
  rewrite <- Z.pow_add_r by lia. f_equal. lia.
Qed.

Lemma sub_self h c : sub h c c.
Proof. exists 0%nat. split; [lia|]. by rewrite Z.div_1_r. Qed.

Lemma sub_child h c d i : d / 2 = c -> sub h d i -> sub (S h) c i.
Proof.
  intros Hd (k & Hk & Hi). exists (S k). split; [lia|].
  rewrite (div_pow_trans i k (S k)) by lia. rewrite Hi.
  replace (S k - k)%nat with 1%nat by lia. done.
Qed.

Lemma sub_left h c i : sub h (2 * c) i -> sub (S h) c i.
Proof. apply sub_child. dlia. Qed.

Lemma sub_right h c i : sub h (2 * c + 1) i -> sub (S h) c i.
Proof. apply sub_child. dlia. Qed.

(** A proper descendant is a larger index. *)
Lemma div_pow_lt c (n : nat) : 0 < c -> (0 < n)%nat -> c / 2 ^ Z.of_nat n <= c / 2.
Proof.
  intros Hc Hn. rewrite (div_pow_trans c 1 n) by lia.
  assert (0 <= c / 2 ^ Z.of_nat 1) by (apply Z.div_pos; lia).
  etrans; [apply Z.div_le_upper_bound with (q := c / 2 ^ Z.of_nat 1); [lia|nia]|].
  by rewrite Z.pow_1_r.
Qed.

Lemma sub_children_disjoint h c i :
  0 < c -> sub h (2 * c) i -> sub h (2 * c + 1) i -> False.
Proof.
  intros Hc (k & _ & Hk) (j & _ & Hj).
  destruct (decide (k <= j)%nat) as [Hkj|Hkj].
  - rewrite (div_pow_trans i k j), Hk in Hj by lia.
    destruct (decide (j - k = 0)%nat) as [E|E].
    + rewrite E, Z.div_1_r in Hj. lia.
    + pose proof (div_pow_lt (2 * c) (j - k) ltac:(lia) ltac:(lia)). dlia.
  - rewrite (div_pow_trans i j k), Hj in Hk by lia.
    pose proof (div_pow_lt (2 * c + 1) (k - j) ltac:(lia) ltac:(lia)). dlia.
Qed.

Lemma sub_not_parent h c d : 0 < c -> d / 2 = c -> ~ sub h d c.
Proof.
  intros Hc Hd (k & _ & Hk). destruct k as [|k].
  - rewrite Z.div_1_r in Hk. dlia.
  - pose proof (div_pow_lt c (S k) Hc ltac:(lia)). dlia.
Qed.

(** ** Representation

    [Rep x h c l a]: the subtree of height [h] at node [c] stores the values
    [a l .. a (l + 2^h - 1)], additions pending above [c] not counted. *)
Fixpoint Rep (x : t) (h : nat) (c l : Z) (a : Z -> Z) : Prop :=
  exists s lz,
    vget (sum_ x) c = Some s /\ vget (lazy_add_ x) c = Some lz /\
    s = i32 (rsum a l (wid h)) /\
    match h with
    | O => True
    | S h' => exists a',
        (forall i, l <= i < l + Z.of_nat (wid h) -> eqm (a i) (a' i + lz)) /\
        Rep x h' (2 * c) l a' /\ Rep x h' (2 * c + 1) (l + Z.of_nat (wid h')) a'
    end.

Definition same_at (x y : t) (i : Z) : Prop :=
  vget (sum_ y) i = vget (sum_ x) i /\ vget (lazy_add_ y) i = vget (lazy_add_ x) i.

(** What an operation on the subtree at [c] leaves alone. *)
Record frame (h : nat) (c : Z) (x y : t) : Prop := {
  frame_root : root_ y = root_ x;
  frame_range : root_range_ y = root_range_ x;
  frame_sum : vlen (sum_ y) = vlen (sum_ x);
  frame_lazy : vlen (lazy_add_ y) = vlen (lazy_add_ x);
  frame_same : forall i, ~ sub h c i -> same_at x y i;
}.

Definition small (x : t) : Prop := vlen (sum_ x) <= 2 ^ 63 /\ vlen (lazy_add_ x) <= 2 ^ 63.

Lemma frame_refl h c x : frame h c x x.
Proof. done. Qed.

Lemma frame_trans h c x y z : frame h c x y -> frame h c y z -> frame h c x z.
Proof.
  intros [???? Hxy] [???? Hyz]. split; [congruence..|].
  intros i Hi. destruct (Hxy i Hi), (Hyz i Hi). split; congruence.
Qed.

Lemma frame_weaken h c h' c' x y :
  (forall i, sub h c i -> sub h' c' i) -> frame h c x y -> frame h' c' x y.
Proof.
  intros Hs [???? H]. split; [done..|]. intros i Hi. apply H. eauto.
Qed.

Lemma frame_small h c x y : frame h c x y -> small x -> small y.
Proof. intros [_ _ E1 E2 _] []. split; lia. Qed.

Lemma Rep_frame x y h c l a :
  (forall i, sub h c i -> same_at x y i) -> Rep x h c l a -> Rep y h c l a.
Proof.
  revert c l a. induction h as [|h IH]; intros c l a Hsame; simpl;
    intros (s & lz & Hs & Hlz & Es & Hrest);
    destruct (Hsame c (sub_self _ _)) as [E1 E2];
    exists s, lz; rewrite E1, E2; split_and!; try done.
  destruct Hrest as (a' & Ha & Hl & Hr). exists a'. split_and!; [done|..].
  - apply IH; [|done]. intros i Hi. apply Hsame, sub_left, Hi.
  - apply IH; [|done]. intros i Hi. apply Hsame, sub_right, Hi.
Qed.

Lemma Rep_ext x h c l a b :
  (forall i, l <= i < l + Z.of_nat (wid h) -> eqm (a i) (b i)) ->
  Rep x h c l a -> Rep x h c l b.
Proof.
  destruct h as [|h]; intros Hab; cbn [Rep]; intros (s & lz & Hs & Hlz & Es & Hrest);
    exists s, lz; (split_and!; [done|done|rewrite Es; apply rsum_eqm, Hab|]); [done|].
  destruct Hrest as (a' & Ha & Hlr). exists a'. split; [|done].
  intros i Hi. rewrite <- Hab by done. by apply Ha.
Qed.

(** Changing one node's sum by [k * 2^h] and its mark by [k] adds [k] to every
    value below it. *)
Lemma Rep_bump x y h c l a s lz k :
  0 < c ->
  Rep x h c l a -> vget (sum_ x) c = Some s -> vget (lazy_add_ x) c = Some lz ->
  vget (sum_ y) c = Some (i32 (s + k * Z.of_nat (wid h))) ->
  vget (lazy_add_ y) c = Some (i32 (lz + k)) ->
  (forall i, sub h c i -> i <> c -> same_at x y i) ->
  Rep y h c l (fun i => a i + k).
Proof.
  intros Hc HR Hs Hlz Hs' Hlz' Hsame.
  assert (i32 (s + k * Z.of_nat (wid h)) = i32 (rsum (fun i => a i + k) l (wid h))) as Esum.
  { rewrite rsum_shift. destruct h; destruct HR as (s0 & lz0 & Hs0 & _ & E & _);
      assert (s = s0) as -> by congruence; rewrite E; by apply wraps_add_l. }
  destruct h as [|h]; destruct HR as (s0 & lz0 & _ & Hlz0 & _ & Hrest); eexists _, _;
    (split_and!; [exact Hs'|exact Hlz'|exact Esum|]); [done|].
  assert (lz0 = lz) as -> by congruence. destruct Hrest as (a' & Ha & Hl & Hr).
  exists a'. split_and!.
  - intros i Hi. rewrite (Ha i Hi), eqm_i32. by rewrite Z.add_assoc.
  - eapply Rep_frame; [|exact Hl]. intros i Hi. apply Hsame; [by apply sub_left|].
    intros ->. eapply sub_not_parent; [exact Hc| |exact Hi]. dlia.
  - eapply Rep_frame; [|exact Hr]. intros i Hi. apply Hsame; [by apply sub_right|].
    intros ->. eapply sub_not_parent; [exact Hc| |exact Hi]. dlia.
Qed.

(** ** Single array updates *)

(** [v'] is [v] with cell [i] set to [y]. *)
Definition updated (v v' : list Z) (i y : Z) : Prop :=
  vlen v' = vlen v /\ vget v' i = Some y /\ (forall j, j <> i -> vget v' j = vget v j).

Lemma vset_updated v i y z :
  vget v i = Some y -> exists v', vset v i z = Some v' /\ updated v v' i z.
Proof.
  intros H%vget_Some_range. eexists. split; [by apply vset_in_range|].
  destruct (vset_Some _ _ z _ (vset_in_range _ _ _ H)) as (_&?&?&?). done.
Qed.

Lemma add_int_updated v i x y :
  vget v i = Some y -> exists v', add_int v i x = Some v' /\ updated v v' i (i32 (y + x)).
Proof. intros H. unfold add_int. rewrite H. simpl. by eapply vset_updated. Qed.

Lemma add_size_updated v i k n y :
  vget v i = Some y ->
  exists v', add_size v i (mul_size k n) = Some v' /\ updated v v' i (i32 (y + k * n)).
Proof.
  intros H. unfold add_size. rewrite H. simpl.
  replace (i32 (u64 (u64 y + mul_size k n))) with (i32 (y + k * n)).
  { by eapply vset_updated. }
  rewrite wraps_wrapu by lia. unfold mul_size, wrapu.
  apply wraps_eq_iff; [lia|].
  rewrite (Zplus_mod (y mod _)), !Z.mod_mod_divide by (exists (2 ^ 32); done).
  rewrite (Zmult_mod (k mod _)), !Z.mod_mod_divide by (exists (2 ^ 32); done).
  by rewrite <- Zmult_mod, <- Zplus_mod.
Qed.

Lemma Rep_sum x h c l a :
  Rep x h c l a -> vget (sum_ x) c = Some (i32 (rsum a l (wid h))).
Proof. destruct h; intros (s & lz & Hs & _ & -> & _); exact Hs. Qed.

Lemma Rep_lazy x h c l a : Rep x h c l a -> exists lz, vget (lazy_add_ x) c = Some lz.
Proof. destruct h; intros (s & lz & _ & Hlz & _); eauto. Qed.

(** A node with a cell below it has an index that can be doubled. *)
Lemma Rep_child_index x h c l a :
  small x -> 0 < c -> Rep x (S h) c l a -> 0 <= c < 2 ^ 63.
Proof.
  intros [Hs _] Hc HR%Rep_sum%vget_Some_range. lia.
Qed.

(** ** PushUp and PushDown *)

Lemma PushUp_ok x h c l a lz :
  small x -> 0 < c < 2 ^ 63 ->
  vget (sum_ x) c <> None -> vget (lazy_add_ x) c = Some lz -> lz = 0 ->
  Rep x h (2 * c) l a -> Rep x h (2 * c + 1) (l + Z.of_nat (wid h)) a ->
  exists y, PushUp x c = Some y /\ Rep y (S h) c l a /\ frame (S h) c x y /\
            vget (lazy_add_ y) c = Some 0 /\ lazy_add_ y = lazy_add_ x.
Proof.
  intros Hsm Hc Hsum Hlz -> HL HR. unfold PushUp.
  rewrite lchild_eq, rchild_eq, (Rep_sum _ _ _ _ _ HL), (Rep_sum _ _ _ _ _ HR) by lia. simpl.
  destruct (vget (sum_ x) c) as [s0|] eqn:Es; [|done].
  destruct (vset_updated _ _ _ (i32 (i32 (rsum a l (wid h)) +
    i32 (rsum a (l + Z.of_nat (wid h)) (wid h)))) Es) as (v & -> & Hlen & Hget & Hoth).
  simpl. eexists. split; [done|]. split_and!; [| |done|done].
  - eexists _, 0. simpl. split_and!; [exact Hget|exact Hlz| |].
    + rewrite wraps_add, <- rsum_app, <- wid_S by lia. done.
    + exists a. split; [intros i _; by rewrite Z.add_0_r|].
      assert (forall d i, d / 2 = c -> sub h d i -> same_at x (set_sum v x) i) as Hsame.
      { intros d i Hd Hi. split; [|done]. apply Hoth. intros ->.
        eapply sub_not_parent; [|exact Hd|exact Hi]. lia. }
      split; (eapply Rep_frame; [|eassumption]); intros i; apply Hsame; dlia.
  - split; [done|done|exact Hlen|done|]. intros i Hi. split; [|done].
    apply Hoth. intros ->. apply Hi, sub_self.
Qed.

Lemma PushDown_ok x h c l a :
  small x -> 0 < c -> span_ok l (S h) -> Rep x (S h) c l a ->
  exists y, PushDown x c (span l (S h)) = Some y /\
    vget (lazy_add_ y) c = Some 0 /\ vget (sum_ y) c = vget (sum_ x) c /\
    Rep y h (2 * c) l a /\ Rep y h (2 * c + 1) (l + Z.of_nat (wid h)) a /\
    frame (S h) c x y.
Proof.
  intros Hsm Hc Hok HRep. pose proof (Rep_child_index _ _ _ _ _ Hsm Hc HRep) as Hidx.
  destruct HRep as (s & lz & Hs & Hlz & Es & a' & Ha & HL & HR).
  unfold PushDown. rewrite Hlz. simpl.
  destruct (Z.eqb_spec lz 0) as [->|Hne].
  { exists x. split_and!; [done|done|done| | |apply frame_refl];
      (eapply Rep_ext; [|eassumption]); intros i Hi; (rewrite Ha, Z.add_0_r; [done|]); rewrite wid_S; lia. }
  destruct (span_left l h Hok) as [EL HokL], (span_right l h Hok) as [ER HokR].
  simpl in EL, ER. rewrite EL, ER, !span_length by done.
  rewrite lchild_eq, rchild_eq by done.
  destruct (Rep_lazy _ _ _ _ _ HL) as [zl Hzl], (Rep_lazy _ _ _ _ _ HR) as [zr Hzr].
  pose proof (Rep_sum _ _ _ _ _ HL) as Hsl. pose proof (Rep_sum _ _ _ _ _ HR) as Hsr.
  destruct (add_int_updated _ _ lz _ Hzl) as (z1 & -> & Lz1 & Gz1 & Oz1). simpl.
  rewrite Oz1, Hlz by lia. simpl. rewrite <- Oz1 in Hzr by lia.
  destruct (add_int_updated _ _ lz _ Hzr) as (z2 & -> & Lz2 & Gz2 & Oz2). simpl.
  rewrite Oz2, Oz1, Hlz by lia. simpl.
  destruct (add_size_updated _ _ lz (Z.of_nat (wid h)) _ Hsl) as (s1 & -> & Ls1 & Gs1 & Os1).
  simpl. pose proof Hsr as Hsr1. rewrite <- Os1 in Hsr1 by lia.
  destruct (add_size_updated _ _ lz (Z.of_nat (wid h)) _ Hsr1) as (s2 & -> & Ls2 & Gs2 & Os2).
  simpl. assert (vget z2 c = Some lz) as Hlz2 by (rewrite Oz2, Oz1 by lia; done).
  destruct (vset_updated _ _ _ 0 Hlz2) as (z3 & -> & Lz3 & Gz3 & Oz3). simpl.
  eexists. split; [done|]. simpl. rewrite Oz1 in Hzr by lia.
  set (y := set_lazy z3 (set_sum s2 x)).
  assert (forall i, i <> c -> i <> 2 * c -> i <> 2 * c + 1 -> same_at x y i) as Hsame.
  { intros i H1 H2 H3. split; simpl; [by rewrite Os2, Os1|by rewrite Oz3, Oz2, Oz1]. }
  assert (forall d i, d / 2 = c -> sub h d i -> i <> c) as Hnc.
  { intros d i Hd Hi ->. by eapply sub_not_parent. }
  split_and!; [done|by rewrite Os2, Os1 by lia| | |].
  - eapply Rep_ext; [intros i Hi; symmetry; apply Ha; rewrite wid_S; lia|].
    eapply (Rep_bump x y h (2 * c)); [lia|exact HL|exact Hsl|exact Hzl| | |].
    + simpl. by rewrite Os2 by lia.
    + simpl. by rewrite Oz3, Oz2 by lia.
    + intros i Hi Hne'. apply Hsame; [eapply Hnc; [|exact Hi]; dlia|done|].
      intros ->. eapply sub_children_disjoint; [exact Hc|exact Hi|apply sub_self].
  - eapply Rep_ext; [intros i Hi; symmetry; apply Ha; rewrite wid_S; lia|].
    eapply (Rep_bump x y h (2 * c + 1)); [lia|exact HR|exact Hsr|exact Hzr|exact Gs2| |].
    + simpl. by rewrite Oz3 by lia.
    + intros i Hi Hne'. apply Hsame; [eapply Hnc; [|exact Hi]; dlia| |done].
      intros ->. eapply sub_children_disjoint; [exact Hc|apply sub_self|exact Hi].
  - split; [done|done|simpl; lia|simpl; lia|]. intros i Hi.
    apply Hsame; intros ->; apply Hi; [apply sub_self|apply sub_left, sub_self|apply sub_right, sub_self].
Qed.

Lemma parent_outside h c : 0 < c -> ~ sub h (2 * c) c /\ ~ sub h (2 * c + 1) c.
Proof. intros Hc. split; (apply sub_not_parent; [done|dlia]). Qed.

(** A clean node over two represented children. *)
Lemma Rep_node x h c l a :
  vget (sum_ x) c = Some (i32 (rsum a l (wid (S h)))) -> vget (lazy_add_ x) c = Some 0 ->
  Rep x h (2 * c) l a -> Rep x h (2 * c + 1) (l + Z.of_nat (wid h)) a -> Rep x (S h) c l a.
Proof.
  intros Hs Hlz HL HR. eexists _, 0. split_and!; [exact Hs|exact Hlz|done|].
  exists a. split_and!; [|done|done]. intros i _. by rewrite Z.add_0_r.
Qed.

(** Work under one child leaves the other child and the parent alone. *)
Lemma frame_left x y h c l a :
  0 < c -> frame h (2 * c) x y ->
  same_at x y c /\ (Rep x h (2 * c + 1) l a -> Rep y h (2 * c + 1) l a) /\ frame (S h) c x y.
Proof.
  intros Hc Hf. split_and!.
  - apply Hf. by apply parent_outside.
  - apply Rep_frame. intros i Hi. apply Hf. intros Hi'. by eapply sub_children_disjoint.
  - eapply frame_weaken; [|exact Hf]. apply sub_left.
Qed.

Lemma frame_right x y h c l a :
  0 < c -> frame h (2 * c + 1) x y ->
  same_at x y c /\ (Rep x h (2 * c) l a -> Rep y h (2 * c) l a) /\ frame (S h) c x y.
Proof.
  intros Hc Hf. split_and!.
  - apply Hf. by apply parent_outside.
  - apply Rep_frame. intros i Hi. apply Hf. intros Hi'. by eapply sub_children_disjoint.
  - eapply frame_weaken; [|exact Hf]. apply sub_right.
Qed.

(** ** Query *)

Definition inside (q : Range) (i : Z) : bool := (left q <=? i) && (i <=? right q).

Definition mask (q : Range) (a : Z -> Z) (i : Z) : Z := if inside q i then a i else 0.

Lemma inside_spec q i : inside q i = true <-> left q <= i <= right q.
Proof. unfold inside. breflect. lia. Qed.

Lemma rsum_mask_all q a l n :
  left q <= l -> l + Z.of_nat n - 1 <= right q -> rsum (mask q a) l n = rsum a l n.
Proof.
  intros H1 H2. apply rsum_ext. intros i Hi. unfold mask.
  rewrite (proj2 (inside_spec q i)) by lia. done.
Qed.

Lemma rsum_mask_none q a l n :
  right q < l \/ l + Z.of_nat n - 1 < left q -> rsum (mask q a) l n = 0.
Proof.
  intros H. rewrite <- (rsum_zero l n). apply rsum_ext. intros i Hi. unfold mask.
  destruct (inside q i) eqn:E; [|done]. apply inside_spec in E. lia.
Qed.

Definition overlaps (q : Range) (l : Z) (h : nat) : Prop :=
  left q <= l + Z.of_nat (wid h) - 1 /\ l <= right q.

Lemma QueryNode_ok h : forall fuel x q c l a,
  (h < fuel)%nat -> small x -> 0 < c -> span_ok l h -> Rep x h c l a -> overlaps q l h ->
  exists y, QueryNode fuel x q c (span l h) = Some (i32 (rsum (mask q a) l (wid h)), y) /\
            Rep y h c l a /\ frame h c x y.
Proof.
  induction h as [|h IH]; intros [|fuel] x q c l a Hf Hsm Hc Hok HRep Hov; try lia;
    destruct Hov as [Ho1 Ho2]; cbn [QueryNode];
    destruct ((left q <=? left (span l _)) && (right (span l _) <=? right q)) eqn:E;
    unfold span in E; simpl in E; breflect.
  1, 3: exists x; rewrite (Rep_sum _ _ _ _ _ HRep), rsum_mask_all by (simpl; lia);
    by split_and!; [| |apply frame_refl].
  { change (wid 0) with 1%nat in *. lia. }
  pose proof (Rep_sum _ _ _ _ _ HRep) as Hsum.
  destruct (PushDown_ok x h c l a Hsm Hc Hok HRep) as (x0 & -> & Hlz & Hs0 & HL & HR & Hf0).
  pose proof (Rep_child_index _ _ _ _ _ Hsm Hc HRep) as Hidx.
  pose proof (frame_small _ _ _ _ Hf0 Hsm) as Hsm0.
  destruct (span_left l h Hok) as [EL HokL], (span_right l h Hok) as [ER HokR].
  rewrite EL, ER, lchild_eq, rchild_eq, span_middle by done. cbn [mbind option_bind].
  rewrite wrapu_id by (destruct Hok, HokR; unfold in_u; lia).
  rewrite <- Hs0 in Hsum. rewrite wid_S, rsum_app. clear E EL ER HRep.
  assert (exists x1, (if left q <=? l + Z.of_nat (wid h) - 1 then
      '(s, y) ← QueryNode fuel x0 q (2 * c) (span l h); Some (i32 (0 + s), y)
      else Some (0, x0)) = Some (i32 (rsum (mask q a) l (wid h)), x1) /\
      Rep x1 h (2 * c) l a /\ frame h (2 * c) x0 x1) as (x1 & -> & HL1 & Hf1).
  { destruct (Z.leb_spec (left q) (l + Z.of_nat (wid h) - 1)).
    - destruct (IH fuel x0 q (2 * c) l a) as (x1 & -> & H1 & H2); [lia|done|lia|done|done|by split|].
      exists x1. simpl. by rewrite wraps_add_r by lia.
    - exists x0. rewrite rsum_mask_none by lia. split_and!; [done|done|apply frame_refl]. }
  simpl. destruct (frame_left x0 x1 h c (l + Z.of_nat (wid h)) a Hc Hf1) as ([Es1 Ez1] & HR1 & Hf1').
  specialize (HR1 HR). pose proof (frame_small _ _ _ _ Hf1 Hsm0) as Hsm1.
  destruct (Z.leb_spec (l + Z.of_nat (wid h) - 1 + 1) (right q)).
  - destruct (IH fuel x1 q (2 * c + 1) (l + Z.of_nat (wid h)) a) as (x2 & -> & HR2 & Hf2);
      [lia|done|lia|done|done|rewrite wid_S in *; split; lia|].
    simpl. exists x2. rewrite wraps_add by lia. split; [done|].
    destruct (frame_right x1 x2 h c l a Hc Hf2) as ([Es2 Ez2] & HL2 & Hf2').
    split; [apply Rep_node; auto; congruence|]. eauto using frame_trans.
  - exists x1. rewrite (rsum_mask_none q a (l + Z.of_nat (wid h))), Z.add_0_r by lia.
    split; [done|]. split; [apply Rep_node; auto; congruence|]. eauto using frame_trans.
Qed.

(** ** Range update *)

Definition addin (q : Range) (k : Z) (a : Z -> Z) (i : Z) : Z :=
  if inside q i then a i + k else a i.

Lemma addin_none q k a l h i :
  right q < l \/ l + Z.of_nat (wid h) - 1 < left q ->
  l <= i < l + Z.of_nat (wid h) -> eqm (a i) (addin q k a i).
Proof.
  intros H Hi. unfold addin. destruct (inside q i) eqn:E; [|done].
  apply inside_spec in E. lia.
Qed.

(** The whole node lies in the updated range. *)
Lemma UpdateRange_here x h c l a k inc :
  0 < c -> span_ok l h -> Rep x h c l a ->
  left k <= l -> l + Z.of_nat (wid h) - 1 <= right k ->
  exists y, (s ← add_size (sum_ x) c (mul_size inc (length (span l h)));
             z ← add_int (lazy_add_ x) c inc; Some (set_lazy z (set_sum s x))) = Some y /\
            Rep y h c l (addin k inc a) /\ frame h c x y.
Proof.
  intros Hc Hok HRep H1 H2. rewrite span_length by done.
  pose proof (Rep_sum _ _ _ _ _ HRep) as Hs. destruct (Rep_lazy _ _ _ _ _ HRep) as [z0 Hz].
  destruct (add_size_updated _ _ inc (Z.of_nat (wid h)) _ Hs) as (s1 & -> & Ls & Gs & Os).
  destruct (add_int_updated _ _ inc _ Hz) as (z1 & Ez & Lz & Gz & Oz). simpl. rewrite Ez.
  eexists. split; [done|]. split.
  - eapply Rep_ext; [|eapply (Rep_bump x _ h c l a _ _ inc); [done|exact HRep|exact Hs|exact Hz|
      exact Gs|exact Gz|]].
    + intros i Hi. unfold addin. rewrite (proj2 (inside_spec k i)) by lia. done.
    + intros i _ Hne. split; simpl; auto.
  - split; [done|done|exact Ls|exact Lz|]. intros i Hi.
    assert (i <> c) by (intros ->; apply Hi, sub_self). split; simpl; auto.
Qed.

Lemma UpdateRangeNode_ok h : forall fuel x k inc c l a,
  (h < fuel)%nat -> small x -> 0 < c -> span_ok l h -> Rep x h c l a -> overlaps k l h ->
  exists y, UpdateRangeNode fuel x k inc c (span l h) = Some y /\
            Rep y h c l (addin k inc a) /\ frame h c x y.
Proof.
  induction h as [|h IH]; intros [|fuel] x k inc c l a Hf Hsm Hc Hok HRep Hov; try lia;
    destruct Hov as [Ho1 Ho2]; cbn [UpdateRangeNode];
    destruct ((left k <=? left (span l _)) && (right (span l _) <=? right k)) eqn:E;
    unfold span in E; simpl in E; breflect.
  1, 3: by apply UpdateRange_here; [| | |lia|lia].
  { change (wid 0) with 1%nat in *. lia. }
  destruct (PushDown_ok x h c l a Hsm Hc Hok HRep) as (x0 & -> & Hlz & Hs0 & HL & HR & Hf0).
  pose proof (Rep_child_index _ _ _ _ _ Hsm Hc HRep) as Hidx.
  pose proof (frame_small _ _ _ _ Hf0 Hsm) as Hsm0.
  pose proof (Rep_sum _ _ _ _ _ HRep) as Hsum. rewrite <- Hs0 in Hsum.
  destruct (span_left l h Hok) as [EL HokL], (span_right l h Hok) as [ER HokR].
  rewrite EL, ER, lchild_eq, rchild_eq, span_middle by done. cbn [mbind option_bind].
  rewrite wrapu_id by (destruct Hok, HokR; unfold in_u; lia). clear E EL ER HRep.
  assert (exists x1, (if left k <=? l + Z.of_nat (wid h) - 1
      then UpdateRangeNode fuel x0 k inc (2 * c) (span l h) else Some x0) = Some x1 /\
      Rep x1 h (2 * c) l (addin k inc a) /\ frame h (2 * c) x0 x1) as (x1 & -> & HL1 & Hf1).
  { destruct (Z.leb_spec (left k) (l + Z.of_nat (wid h) - 1)).
    - by apply (IH fuel x0 k inc (2 * c) l a); [lia|done|lia|done|done|split].
    - exists x0. split_and!; [done| |apply frame_refl].
      eapply Rep_ext; [|exact HL]. intros i. apply addin_none. lia. }
  destruct (frame_left x0 x1 h c (l + Z.of_nat (wid h)) a Hc Hf1) as ([Es1 Ez1] & HR1 & Hf1').
  specialize (HR1 HR). pose proof (frame_small _ _ _ _ Hf1 Hsm0) as Hsm1.
  assert (exists x2, (if l + Z.of_nat (wid h) - 1 + 1 <=? right k
      then UpdateRangeNode fuel x1 k inc (2 * c + 1) (span (l + Z.of_nat (wid h)) h)
      else Some x1) = Some x2 /\
      Rep x2 h (2 * c + 1) (l + Z.of_nat (wid h)) (addin k inc a) /\
      frame h (2 * c + 1) x1 x2) as (x2 & E2 & HR2 & Hf2).
  { destruct (Z.leb_spec (l + Z.of_nat (wid h) - 1 + 1) (right k)).
    - by apply (IH fuel x1 k inc (2 * c + 1) _ a);
        [lia|done|lia|done|done|rewrite wid_S in *; split; lia].
    - exists x1. split_and!; [done| |apply frame_refl].
      eapply Rep_ext; [|exact HR1]. intros i. apply addin_none. lia. }
  cbn [mbind option_bind] in *. rewrite E2. cbn [mbind option_bind].
  destruct (frame_right x1 x2 h c l (addin k inc a) Hc Hf2) as ([Es2 Ez2] & HL2 & Hf2').
  destruct (PushUp_ok x2 h c l (addin k inc a) 0) as (y & -> & Hy & Hfy & _);
    [eauto using frame_small|lia|rewrite Es2, Es1, Hsum; done|congruence|done|auto|done|].
  exists y. split_and!; [done|done|]. eauto using frame_trans.
Qed.

(** ** Point update

    The code does not push marks down on the way to the leaf, so the values on
    the path are complete only where no addition is pending. *)
Fixpoint clean_path (x : t) (h : nat) (c l k : Z) : Prop :=
  match h with
  | O => True
  | S h' =>
      vget (lazy_add_ x) c = Some 0 /\
      if k <=? l + Z.of_nat (wid h') - 1 then clean_path x h' (2 * c) l k
      else clean_path x h' (2 * c + 1) (l + Z.of_nat (wid h')) k
  end.

Definition addat (k inc : Z) (a : Z -> Z) (i : Z) : Z := if i =? k then a i + inc else a i.

Lemma UpdatePoint_leaf fuel x k inc c l a :
  span_ok l 0 -> Rep x 0 c l a -> l = k ->
  exists y, UpdatePointNode (S fuel) x k inc c (span l 0) = Some y /\
            Rep y 0 c l (addat k inc a) /\ frame 0 c x y /\ lazy_add_ y = lazy_add_ x.
Proof.
  intros Hok HRep <-. cbn [UpdatePointNode]. rewrite span_length by done.
  change (wid 0) with 1%nat in *. simpl (Z.of_nat 1 =? 1). cbn match.
  destruct HRep as (s & lz & Hs & Hlz & Es & _).
  destruct (add_int_updated _ _ inc _ Hs) as (v & -> & Lv & Gv & Ov).
  eexists. split; [done|]. split_and!; [|split; try done|done].
  - eexists _, lz. simpl. split_and!; [exact Gv|exact Hlz| |done].
    unfold addat. rewrite Z.eqb_refl. rewrite Es. simpl. rewrite wraps_add_l by lia. f_equal. lia.
  - intros i Hi. split; [|done]. apply Ov. intros ->. apply Hi, sub_self.
Qed.

(** An array that changes at [k] only stays represented by a node that does not cover [k]. *)
Lemma Rep_addat_outside x h c l a k inc :
  k < l \/ l + Z.of_nat (wid h) <= k -> Rep x h c l a -> Rep x h c l (addat k inc a).
Proof.
  intros Hk HRep. eapply Rep_ext; [|exact HRep]. intros i Hi. unfold addat.
  rewrite (proj2 (Z.eqb_neq i k)) by lia. done.
Qed.

Lemma UpdatePointNode_ok h : forall fuel x k inc c l a,
  (h < fuel)%nat -> small x -> 0 < c -> span_ok l h -> Rep x h c l a ->
  l <= k < l + Z.of_nat (wid h) -> clean_path x h c l k ->
  exists y, UpdatePointNode fuel x k inc c (span l h) = Some y /\
            Rep y h c l (addat k inc a) /\ frame h c x y /\ lazy_add_ y = lazy_add_ x.
Proof.
  induction h as [|h IH]; intros [|fuel] x k inc c l a Hf Hsm Hc Hok HRep Hk Hcl; try lia.
  - apply UpdatePoint_leaf; [done|done|]. change (wid 0) with 1%nat in Hk. lia.
  - cbn [UpdatePointNode]. rewrite span_length by done.
    pose proof (Rep_child_index _ _ _ _ _ Hsm Hc HRep) as Hidx.
    pose proof (Rep_sum _ _ _ _ _ HRep) as Hsum. pose proof (wid_pos h).
    rewrite (proj2 (Z.eqb_neq (Z.of_nat (wid (S h))) 1)) by (rewrite wid_S; lia).
    destruct (span_left l h Hok) as [EL HokL], (span_right l h Hok) as [ER HokR].
    rewrite EL, ER, lchild_eq, rchild_eq, span_middle by done.
    destruct Hcl as [Hlz Hcl].
    destruct HRep as (s & lz & Hs & Hlz' & Es & a' & Ha & HL & HR).
    assert (lz = 0) as -> by congruence.
    assert (forall i, l <= i < l + Z.of_nat (wid (S h)) ->
              eqm (addat k inc a' i) (addat k inc a i)) as Hext.
    { intros i Hi. unfold addat. specialize (Ha i Hi). rewrite Z.add_0_r in Ha.
      case_test; by rewrite Ha. }
    rewrite wid_S in Hk, Hext.
    assert (exists x1, (if k <=? l + Z.of_nat (wid h) - 1
        then UpdatePointNode fuel x k inc (2 * c) (span l h)
        else UpdatePointNode fuel x k inc (2 * c + 1) (span (l + Z.of_nat (wid h)) h)) = Some x1 /\
        Rep x1 h (2 * c) l (addat k inc a') /\
        Rep x1 h (2 * c + 1) (l + Z.of_nat (wid h)) (addat k inc a') /\
        same_at x x1 c /\ frame (S h) c x x1 /\ lazy_add_ x1 = lazy_add_ x)
      as (x1 & E1 & HL1 & HR1 & [Es1 Ez1] & Hf1 & Hz1).
    { destruct (Z.leb_spec k (l + Z.of_nat (wid h) - 1)).
      - destruct (IH fuel x k inc (2 * c) l a') as (x1 & -> & HL1 & Hf1 & Hz1);
          [lia|done|lia|done|done|lia|done|].
        destruct (frame_left x x1 h c (l + Z.of_nat (wid h)) a' Hc Hf1) as (Hsame & HR1 & Hf1').
        exists x1. split_and!; try done; try apply Hsame. apply Rep_addat_outside; [lia|auto].
      - destruct (IH fuel x k inc (2 * c + 1) (l + Z.of_nat (wid h)) a') as (x1 & -> & HR1 & Hf1 & Hz1);
          [lia|done|lia|done|done|lia|done|].
        destruct (frame_right x x1 h c l a' Hc Hf1) as (Hsame & HL1 & Hf1').
        exists x1. split_and!; try done; try apply Hsame. apply Rep_addat_outside; [lia|auto]. }
    rewrite E1. cbn [mbind option_bind].
    destruct (PushUp_ok x1 h c l (addat k inc a') 0) as (y & -> & Hy & Hfy & _ & Hzy);
      [eauto using frame_small|lia|congruence|congruence|done|done|done|].
    exists y. split_and!; [done| |eauto using frame_trans|congruence].
    eapply Rep_ext; [|exact Hy]. rewrite wid_S. exact Hext.
Qed.

(** ** Construction *)

Lemma vget_zeros m i : 0 <= i < Z.of_nat m -> vget (replicate m 0) i = Some 0.
Proof.
  intros H. unfold vget. destruct (Z.ltb_spec i 0); [lia|].
  apply lookup_replicate_2. lia.
Qed.

Lemma vset_zeros m i : 0 <= i < Z.of_nat m -> vset (replicate m 0) i 0 = Some (replicate m 0).
Proof.
  intros H. rewrite vset_in_range by (unfold vlen; rewrite length_replicate; lia).
  f_equal. apply list_insert_id, lookup_replicate_2. lia.
Qed.

(** Both arrays have [m] cells, all zero. *)
Definition zeros (m : nat) (x : t) : Prop :=
  sum_ x = replicate m 0 /\ lazy_add_ x = replicate m 0.

Definition fits (m : nat) (h : nat) (c l : Z) : Prop :=
  0 < c /\ 0 <= l /\ (c + 1) * Z.of_nat (wid h) <= Z.of_nat m /\
  l + Z.of_nat (wid h) <= Z.of_nat m /\ Z.of_nat m <= 2 ^ 63.

Lemma fits_index m h c l : fits m h c l -> 0 <= c < Z.of_nat m.
Proof. intros (?&?&?&?&?). pose proof (wid_pos h). nia. Qed.

Lemma fits_children m h c l :
  fits m (S h) c l -> fits m h (2 * c) l /\ fits m h (2 * c + 1) (l + Z.of_nat (wid h)).
Proof.
  unfold fits. rewrite wid_S. pose proof (wid_pos h). intros (?&?&?&?&?).
  split; split_and!; nia.
Qed.

Lemma set_sum_same x : set_sum (sum_ x) x = x.
Proof. by destruct x. Qed.

Lemma Build_zeros m h : forall fuel x c l,
  (h < fuel)%nat -> zeros m x -> fits m h c l -> span_ok l h ->
  Build fuel x c (span l h) = Some x.
Proof.
  induction h as [|h IH]; intros [|fuel] x c l Hf [Hs Hz] Hfit Hok; try lia;
    cbn [Build]; rewrite span_length by done; pose proof (fits_index _ _ _ _ Hfit).
  - change (wid 0) with 1%nat. simpl (Z.of_nat 1 =? 1). cbn match.
    destruct Hfit as (?&?&?&?&?). change (wid 0) with 1%nat in *.
    rewrite Hz, Hs. unfold span; simpl. rewrite vget_zeros by lia. simpl.
    rewrite vset_zeros by lia. simpl. rewrite <- Hs. by rewrite set_sum_same.
  - pose proof (wid_pos h). destruct (fits_children _ _ _ _ Hfit) as [HfL HfR].
    pose proof (fits_index _ _ _ _ HfL). pose proof (fits_index _ _ _ _ HfR).
    rewrite (proj2 (Z.eqb_neq (Z.of_nat (wid (S h))) 1)) by (rewrite wid_S; lia).
    destruct (span_left l h Hok) as [EL HokL], (span_right l h Hok) as [ER HokR].
    rewrite EL, ER, lchild_eq, rchild_eq by (destruct Hfit as (_&_&_&_&?); lia).
    do 2 (rewrite IH by (done || lia); cbn [mbind option_bind]).
    unfold PushUp. rewrite lchild_eq, rchild_eq by (destruct Hfit as (_&_&_&_&?); lia).
    rewrite Hs, !vget_zeros by lia. simpl. change (i32 0) with 0. rewrite vset_zeros by lia.
    simpl. rewrite <- Hs. by rewrite set_sum_same.
Qed.

Lemma Rep_zeros m x h : forall c l, zeros m x -> fits m h c l -> Rep x h c l (fun _ => 0).
Proof.
  induction h as [|h IH]; intros c l [Hs Hz] Hfit; pose proof (fits_index _ _ _ _ Hfit);
    exists 0, 0; rewrite Hs, Hz, !vget_zeros, rsum_zero by lia;
    (split_and!; [done|done|done|]); [done|].
  exists (fun _ => 0). destruct (fits_children _ _ _ _ Hfit). split_and!; [done|..]; by apply IH.
Qed.

(** ** Calls from the root *)

(** The tree of [2^H] cells stores the array [a]. *)
Record Tree (H : nat) (x : t) (a : Z -> Z) : Prop := {
  tree_small : small x;
  tree_root : root_ x = 1;
  tree_range : root_range_ x = span 1 H;
  tree_rep : Rep x H 1 1 a;
}.

Lemma tree_fuel H x a : Tree H x a -> fuel_of x = S H.
Proof.
  intros []. unfold fuel_of. rewrite tree_range0. unfold span, wid; simpl. f_equal.
  replace (1 + Z.of_nat (2 ^ H) - 1) with (2 ^ Z.of_nat H) by (rewrite Nat2Z.inj_pow; lia).
  rewrite Z.log2_pow2 by lia. lia.
Qed.

Definition height_ok (H : nat) : Prop := (H <= 62)%nat.

Lemma height_span H : height_ok H -> span_ok 1 H.
Proof.
  unfold height_ok, span_ok, wid. intros HH. rewrite Nat2Z.inj_pow.
  pose proof (Z.pow_le_mono_r 2 (Z.of_nat H) 62). lia.
Qed.

Lemma Tree_frame H c x y a b : Tree H x a -> frame H c x y -> Rep y H 1 1 b -> Tree H y b.
Proof.
  intros [] Hf Hr. destruct Hf eqn:E. split; [by eapply frame_small|congruence|congruence|done].
Qed.

Lemma make_ok H :
  height_ok H ->
  exists x, make (2 ^ Z.of_nat H) = Made x /\ Tree H x (fun _ => 0) /\
            zeros (wid (S H)) x.
Proof.
  intros HH. pose proof (height_span H HH) as Hok. unfold height_ok in HH.
  assert (Z.of_nat (wid H) = 2 ^ Z.of_nat H) as Ew by (unfold wid; rewrite Nat2Z.inj_pow; lia).
  pose proof (Z.pow_le_mono_r 2 (Z.of_nat H) 62 ltac:(lia) ltac:(lia)).
  unfold make. destruct (Z.leb_spec (2 ^ Z.of_nat H) 0); [lia|].
  rewrite (wrapu_id 64 (2 ^ Z.of_nat H - 1)) by (unfold in_u; lia).
  replace (2 ^ Z.of_nat H - 1) with (Z.ones (Z.of_nat H)) by (rewrite Z.ones_equiv; lia).
  rewrite Z.land_ones, Z_mod_same_full by lia. simpl (negb (0 =? 0)). cbn match.
  rewrite Z.shiftl_mul_pow2, wrapu_id by (try (unfold in_u); lia).
  replace (Z.to_nat (2 ^ Z.of_nat H * 2 ^ 1)) with (wid (S H)) by (rewrite wid_S; lia).
  set (x := mk _ _ _ _). assert (zeros (wid (S H)) x) as Hz by done.
  assert (fits (wid (S H)) H 1 1) as Hfit.
  { unfold fits. rewrite wid_S. pose proof (wid_pos H). split_and!; lia. }
  assert (Tree H x (fun _ => 0)) as HT.
  { split; [|done| |by eapply Rep_zeros].
    - unfold small, vlen; simpl. rewrite !length_replicate, wid_S. lia.
    - unfold span, x; simpl. f_equal. lia. }
  exists x. rewrite (tree_fuel _ _ _ HT), (tree_root _ _ _ HT), (tree_range _ _ _ HT).
  rewrite (Build_zeros (wid (S H)) H) by (done || lia). done.
Qed.

Lemma Query_tree H x a q :
  height_ok H -> Tree H x a -> overlaps q 1 H ->
  exists y, Query x q = Some (i32 (rsum (mask q a) 1 (wid H)), y) /\ Tree H y a.
Proof.
  intros HH HT Hov. unfold Query.
  rewrite (tree_fuel _ _ _ HT), (tree_root _ _ _ HT), (tree_range _ _ _ HT).
  destruct (QueryNode_ok H (S H) x q 1 1 a) as (y & -> & Hy & Hf);
    [lia|apply HT|lia|by apply height_span|apply HT|done|].
  exists y. split; [done|]. by eapply Tree_frame.
Qed.

Lemma UpdateRange_tree H x a k inc :
  height_ok H -> Tree H x a -> overlaps k 1 H ->
  exists y, UpdateRange x k inc = Some y /\ Tree H y (addin k inc a).
Proof.
  intros HH HT Hov. unfold UpdateRange.
  rewrite (tree_fuel _ _ _ HT), (tree_root _ _ _ HT), (tree_range _ _ _ HT).
  destruct (UpdateRangeNode_ok H (S H) x k inc 1 1 a) as (y & -> & Hy & Hf);
    [lia|apply HT|lia|by apply height_span|apply HT|done|].
  exists y. split; [done|]. by eapply Tree_frame.
Qed.

(** No addition is pending anywhere. *)
Definition no_pending (x : t) : Prop :=
  forall i z, vget (lazy_add_ x) i = Some z -> z = 0.

Lemma no_pending_clean x h : forall c l a k,
  no_pending x -> Rep x h c l a -> clean_path x h c l k.
Proof.
  induction h as [|h IH]; intros c l a k Hn HR; [done|].
  destruct HR as (s & lz & _ & Hlz & _ & a' & _ & HL & HR). simpl.
  split; [by rewrite Hlz, (Hn _ _ Hlz)|]. case_test; eauto.
Qed.

Lemma Update_tree H x a k inc :
  height_ok H -> Tree H x a -> no_pending x -> 1 <= k <= Z.of_nat (wid H) ->
  exists y, Update x k inc = Some y /\ Tree H y (addat k inc a) /\ no_pending y.
Proof.
  intros HH HT Hn Hk. unfold Update.
  rewrite (tree_fuel _ _ _ HT), (tree_root _ _ _ HT), (tree_range _ _ _ HT).
  destruct (UpdatePointNode_ok H (S H) x k inc 1 1 a) as (y & -> & Hy & Hf & Hz);
    [lia|apply HT|lia|by apply height_span|apply HT|lia|eapply no_pending_clean, HT; done|].
  exists y. split; [done|]. split; [by eapply Tree_frame|].
  unfold no_pending. by rewrite Hz.
Qed.

(** Without pending additions a query changes nothing. *)
Lemma PushDown_same x c r y : no_pending x -> PushDown x c r = Some y -> y = x.
Proof.
  intros Hn. unfold PushDown. destruct (vget (lazy_add_ x) c) as [z|] eqn:E; [|done].
  rewrite (Hn _ _ E). simpl. by intros [= <-].
Qed.

Lemma QueryNode_same q fuel : forall x c r v y, no_pending x -> QueryNode fuel x q c r = Some (v, y) -> y = x.
Proof.
  induction fuel as [|fuel IH]; intros x c r v y Hn; [done|]. cbn [QueryNode].
  case_test; [by destruct (vget _ _); intros [= _ <-]|].
  destruct (PushDown x c r) as [x0|] eqn:E0; [|done]. apply PushDown_same in E0 as ->; [|done]. cbn [mbind option_bind].
  destruct (if left q <=? middle r then _ else _) as [[res1 x1]|] eqn:E1; [|done]. cbn [mbind option_bind].
  assert (x1 = x) as ->.
  { case_test; [|by injection E1]. destruct (QueryNode fuel x q (lchild c) _) as [[s x1']|] eqn:E2; [|done].
    injection E1 as _ <-. by eapply IH. }
  case_test; [|by intros [= _ <-]]. destruct (QueryNode fuel x q (rchild c) _) as [[s x2]|] eqn:E2; [|done].
  intros [= _ <-]. by eapply IH.
Qed.

(** ** A client's sequence of calls *)

Inductive op :=
  | OpPoint (k inc : Z)
  | OpRange (k : Range) (inc : Z)
  | OpQuery (q : Range).

(** The values the queries returned, and the final tree. *)
Fixpoint run (x : t) (ops : list op) : option (list Z * t) :=
  match ops with
  | [] => Some ([], x)
  | OpPoint k inc :: ops' => y ← Update x k inc; run y ops'
  | OpRange k inc :: ops' => y ← UpdateRange x k inc; run y ops'
  | OpQuery q :: ops' =>
      '(v, y) ← Query x q; '(vs, z) ← run y ops'; Some (v :: vs, z)
  end.

(** The same calls on a plain array of [n] cells. *)
Fixpoint spec_run (n : nat) (a : Z -> Z) (ops : list op) : list Z :=
  match ops with
  | [] => []
  | OpPoint k inc :: ops' => spec_run n (addat k inc a) ops'
  | OpRange k inc :: ops' => spec_run n (addin k inc a) ops'
  | OpQuery q :: ops' => i32 (rsum (mask q a) 1 n) :: spec_run n a ops'
  end.

(** Arguments inside the array; a range has to meet [1 .. 2^H]. *)
Definition op_ok (H : nat) (o : op) : Prop :=
  match o with
  | OpPoint k _ => 1 <= k <= Z.of_nat (wid H)
  | OpRange r _ | OpQuery r => overlaps r 1 H
  end.

Definition is_point (o : op) : Prop := match o with OpPoint _ _ => True | _ => False end.

#[global] Instance op_ok_dec H o : Decision (op_ok H o).
Proof. destruct o; simpl; unfold overlaps; apply _. Defined.

Definition is_range (o : op) : Prop := match o with OpRange _ _ => True | _ => False end.

#[global] Instance is_range_dec o : Decision (is_range o).
Proof. destruct o; simpl; apply _. Defined.

#[global] Instance is_point_dec o : Decision (is_point o).
Proof. destruct o; simpl; apply _. Defined.

Lemma run_ranges H ops x a :
  height_ok H -> Tree H x a -> Forall (op_ok H) ops -> Forall (fun o => ~ is_point o) ops ->
  exists y, run x ops = Some (spec_run (wid H) a ops, y).
Proof.
  intros HH HT Hok. revert x a HT. induction Hok as [|o ops Ho _ IH]; intros x a HT Hnp.
  { by exists x. }
  apply Forall_cons in Hnp as [Ho' Hnp]. destruct o as [k inc|k inc|q]; simpl in *; [done|..].
  - destruct (UpdateRange_tree H x a k inc HH HT Ho) as (y & -> & HT'). simpl. eauto.
  - destruct (Query_tree H x a q HH HT Ho) as (y & -> & HT'). simpl.
    destruct (IH y a HT' Hnp) as (z & ->). simpl. eauto.
Qed.

Lemma run_points H ps ops x a :
  height_ok H -> Tree H x a -> no_pending x -> Forall (op_ok H) ps -> Forall (fun o => ~ is_range o) ps ->
  Forall (op_ok H) ops -> Forall (fun o => ~ is_point o) ops ->
  exists y, run x (ps ++ ops) = Some (spec_run (wid H) a (ps ++ ops), y).
Proof.
  intros HH HT Hn Hps. revert x a HT Hn.
  induction Hps as [|o ps Ho _ IH]; intros x a HT Hn Hp Hops Hnp; simpl.
  { by apply run_ranges. }
  apply Forall_cons in Hp as [Ho' Hp]. destruct o as [k inc|k inc|q]; simpl in *; [|done|].
  - destruct (Update_tree H x a k inc HH HT Hn Ho) as (y & -> & HT' & Hn'). simpl. by apply IH.
  - destruct (Query_tree H x a q HH HT Ho) as (y & Eq & HT'). pose proof Eq as ->%QueryNode_same; [|done].
    rewrite Eq. simpl. destruct (IH x a HT Hn Hp Hops Hnp) as (z & ->). simpl. eauto.
Qed.

(** From the constructor on. *)
Lemma run_made H ps ops :
  height_ok H -> Forall (op_ok H) ps -> Forall (op_ok H) ops ->
  Forall (fun o => ~ is_range o) ps -> Forall (fun o => ~ is_point o) ops ->
  exists x y, make (2 ^ Z.of_nat H) = Made x /\
    run x (ps ++ ops) = Some (spec_run (wid H) (fun _ => 0) (ps ++ ops), y).
Proof.
  intros HH Hps Hops Hp Hnp.
  destruct (make_ok H HH) as (x & -> & HT & [_ Hz]).
  destruct (run_points H ps ops x (fun _ => 0)) as (y & Hy); try done; [|by exists x, y].
  intros i z Hi. rewrite Hz in Hi.
  pose proof (vget_Some_range _ _ _ Hi) as Hr. unfold vlen in Hr. rewrite length_replicate in Hr.
  rewrite vget_zeros in Hi by lia. congruence.
Qed.

(** C1: on a tree of [2^H] cells ([H <= 62]), any sequence of range additions
    and queries, after any sequence of point additions and queries, runs to the
    end without an out-of-range access and every query returns the sum of the
    array cells it covers, reduced to [int]. *)
Theorem segment_tree_refines_array (H : nat) (ps ops : list op) :
  height_ok H -> Forall (op_ok H) (ps ++ ops) ->
  Forall (fun o => ~ is_range o) ps -> Forall (fun o => ~ is_point o) ops ->
  exists x y, make (2 ^ Z.of_nat H) = Made x /\
    run x (ps ++ ops) = Some (spec_run (wid H) (fun _ => 0) (ps ++ ops), y).
Proof. intros HH [Hps Hops]%Forall_app. by apply run_made. Qed.

Lemma segment_tree_refines_array_witness :
  exists x y, make 4 = Made x /\
    run x [OpPoint 2 7; OpQuery (mkRange 1 4); OpPoint 1 1; OpRange (mkRange 1 3) 5; OpQuery (mkRange 2 3);
           OpQuery (mkRange 1 4)]
      = Some ([7; 17; 23], y).
Proof.
  apply (segment_tree_refines_array 2 [OpPoint 2 7; OpQuery (mkRange 1 4); OpPoint 1 1]
           [OpRange (mkRange 1 3) 5; OpQuery (mkRange 2 3); OpQuery (mkRange 1 4)]).
  - unfold height_ok. lia.
  - apply (bool_decide_unpack _). vm_compute. exact I.
  - apply (bool_decide_unpack _). vm_compute. exact I.
  - apply (bool_decide_unpack _). vm_compute. exact I.
Defined.

(** A point addition keeps the stored array correct exactly on the
    condition the code relies on: no addition is pending on the way to the
    leaf.  The whole subtree then represents the array with cell [k] raised,
    nothing outside it changes and no mark moves. *)
Theorem point_update_on_clean_path (h fuel : nat) (x : t) (k inc c l : Z) (a : Z -> Z) :
  (h < fuel)%nat -> small x -> 0 < c -> span_ok l h -> Rep x h c l a ->
  l <= k < l + Z.of_nat (wid h) -> clean_path x h c l k ->
  exists y, UpdatePointNode fuel x k inc c (span l h) = Some y /\
            Rep y h c l (addat k inc a) /\ frame h c x y /\ lazy_add_ y = lazy_add_ x.
Proof. apply UpdatePointNode_ok. Qed.

Lemma point_update_on_clean_path_witness :
  exists y, UpdatePointNode 2 (mk [0; 0; 0; 0] [0; 0; 0; 0] 1 (mkRange 1 2)) 2 9 1 (span 1 1)
              = Some y /\
    Rep y 1 1 1 (addat 2 9 (fun _ => 0)) /\
    frame 1 1 (mk [0; 0; 0; 0] [0; 0; 0; 0] 1 (mkRange 1 2)) y /\
    lazy_add_ y = [0; 0; 0; 0].
Proof.
  apply (point_update_on_clean_path 1 2 (mk [0; 0; 0; 0] [0; 0; 0; 0] 1 (mkRange 1 2))
           2 9 1 1 (fun _ => 0)).
  - lia.
  - split; vm_compute; congruence.
  - lia.
  - split; vm_compute; congruence.
  - apply (Rep_zeros 4); [done|]. unfold fits. vm_compute. repeat split; congruence.
  - change (wid 1) with 2%nat. lia.
  - simpl. done.
Defined.

(** *** With additions pending on the path *)

(** What a point addition to cell [k] loses: the additions pending at the nodes above
    the leaf, over all the cells of each. *)
Fixpoint lost (x : t) (h : nat) (c l k : Z) : Z :=
  match h with
  | O => 0
  | S h' =>
      default 0 (vget (lazy_add_ x) c) * Z.of_nat (wid (S h')) +
      (if k <=? l + Z.of_nat (wid h') - 1 then lost x h' (2 * c) l k
       else lost x h' (2 * c + 1) (l + Z.of_nat (wid h')) k)
  end.

Lemma addat_outside k inc a l h :
  k < l \/ l + Z.of_nat (wid h) <= k -> rsum (addat k inc a) l (wid h) = rsum a l (wid h).
Proof.
  intros Hk. apply rsum_ext. intros i Hi. unfold addat. by rewrite (proj2 (Z.eqb_neq i k)) by lia.
Qed.

(** The sum of a node in terms of what its children store. *)
Lemma rsum_pending a a' lz l h k inc :
  (forall i, l <= i < l + Z.of_nat (wid (S h)) -> eqm (a i) (a' i + lz)) ->
  eqm (rsum (addat k inc a) l (wid (S h)) - lz * Z.of_nat (wid (S h)))
      (rsum (addat k inc a') l (wid h) + rsum (addat k inc a') (l + Z.of_nat (wid h)) (wid h)).
Proof.
  intros Ha. rewrite <- rsum_app, <- wid_S.
  assert (eqm (rsum (addat k inc a) l (wid (S h))) (rsum (fun i => addat k inc a' i + lz) l (wid (S h)))) as E.
  { apply rsum_eqm. intros i Hi. unfold addat. specialize (Ha i Hi). case_test; [|done].
    rewrite Ha. replace (a' i + lz + inc) with (a' i + inc + lz) by lia. done. }
  rewrite rsum_shift in E. unfold Z.sub. rewrite E.
  match goal with |- eqm ?u ?v => replace u with v by lia end. done.
Qed.

Lemma PushUp_sum x c u v s :
  0 < c < 2 ^ 63 -> vget (sum_ x) (2 * c) = Some u -> vget (sum_ x) (2 * c + 1) = Some v -> vget (sum_ x) c = Some s ->
  exists y, PushUp x c = Some y /\ vget (sum_ y) c = Some (i32 (u + v)) /\ lazy_add_ y = lazy_add_ x /\
    forall h, frame h c x y.
Proof.
  intros Hc Hu Hv Hs. unfold PushUp. rewrite lchild_eq, rchild_eq, Hu, Hv by lia. simpl.
  destruct (vset_updated _ _ _ (i32 (u + v)) Hs) as (w & -> & Hlen & Hget & Hoth). simpl.
  eexists. split_and!; [done|exact Hget|done|]. intros h. split; [done|done|exact Hlen|done|].
  intros i Hi. split; [|done]. apply Hoth. intros ->. apply Hi, sub_self.
Qed.

Lemma UpdatePointNode_loses h : forall fuel x k inc c l a,
  (h < fuel)%nat -> small x -> 0 < c -> span_ok l h -> Rep x h c l a -> l <= k < l + Z.of_nat (wid h) ->
  exists y, UpdatePointNode fuel x k inc c (span l h) = Some y /\ frame h c x y /\
    vget (sum_ y) c = Some (i32 (rsum (addat k inc a) l (wid h) - lost x h c l k)).
Proof.
  induction h as [|h IH]; intros [|fuel] x k inc c l a Hf Hsm Hc Hok HRep Hk; try lia.
  - destruct (UpdatePoint_leaf fuel x k inc c l a Hok HRep) as (y & -> & Hy & Hfy & _).
    { change (wid 0) with 1%nat in Hk. lia. }
    exists y. split_and!; [done|done|]. simpl lost. rewrite Z.sub_0_r. by apply Rep_sum in Hy.
  - cbn [UpdatePointNode]. rewrite span_length by done.
    pose proof (Rep_child_index _ _ _ _ _ Hsm Hc HRep) as Hidx. pose proof (wid_pos h).
    rewrite (proj2 (Z.eqb_neq (Z.of_nat (wid (S h))) 1)) by (rewrite wid_S; lia).
    destruct (span_left l h Hok) as [EL HokL], (span_right l h Hok) as [ER HokR].
    rewrite EL, ER, lchild_eq, rchild_eq, span_middle by done.
    destruct HRep as (s & lz & Hs & Hlz & Es & a' & Ha & HL & HR).
    pose proof (rsum_pending a a' lz l h k inc Ha) as Hsum. cbn [lost]. rewrite Hlz. cbn [default from_option id].
    rewrite wid_S in Hk.
    assert (exists x1 u v, (if k <=? l + Z.of_nat (wid h) - 1
        then UpdatePointNode fuel x k inc (2 * c) (span l h)
        else UpdatePointNode fuel x k inc (2 * c + 1) (span (l + Z.of_nat (wid h)) h)) = Some x1 /\
        vget (sum_ x1) (2 * c) = Some u /\ vget (sum_ x1) (2 * c + 1) = Some v /\ vget (sum_ x1) c = Some s /\
        frame (S h) c x x1 /\
        eqm (u + v) (rsum (addat k inc a') l (wid h) + rsum (addat k inc a') (l + Z.of_nat (wid h)) (wid h) -
          (if k <=? l + Z.of_nat (wid h) - 1 then lost x h (2 * c) l k
           else lost x h (2 * c + 1) (l + Z.of_nat (wid h)) k)))
      as (x1 & u & v & -> & Hu & Hv & Hs1 & Hf1 & Euv).
    { destruct (Z.leb_spec k (l + Z.of_nat (wid h) - 1)).
      - destruct (IH fuel x k inc (2 * c) l a') as (x1 & -> & Hf1 & Hg); [lia|done|lia|done|done|lia|].
        destruct (frame_left x x1 h c (l + Z.of_nat (wid h)) a' Hc Hf1) as ([Hsame _] & HR1 & Hf1').
        eexists x1, _, _. split_and!; [done|exact Hg|exact (Rep_sum _ _ _ _ _ (HR1 HR))|congruence|done|].
        rewrite !eqm_i32, (addat_outside k inc a' (l + Z.of_nat (wid h)) h) by lia.
        match goal with |- eqm ?p ?q => replace p with q by lia end. done.
      - destruct (IH fuel x k inc (2 * c + 1) (l + Z.of_nat (wid h)) a') as (x1 & -> & Hf1 & Hg); [lia|done|lia|done|done|lia|].
        destruct (frame_right x x1 h c l a' Hc Hf1) as ([Hsame _] & HL1 & Hf1').
        eexists x1, _, _. split_and!; [done|exact (Rep_sum _ _ _ _ _ (HL1 HL))|exact Hg|congruence|done|].
        rewrite !eqm_i32, (addat_outside k inc a' l h) by lia.
        match goal with |- eqm ?p ?q => replace p with q by lia end. done. }
    cbn [mbind option_bind].
    destruct (PushUp_sum x1 c u v s) as (y & -> & Hy & _ & Hfy); [lia|done|done|done|].
    exists y. split_and!; [done|eapply frame_trans; [exact Hf1|apply Hfy]|]. rewrite Hy. f_equal.
    change (eqm (u + v) (rsum (addat k inc a) l (wid (S h)) -
      (lz * Z.of_nat (wid (S h)) + (if k <=? l + Z.of_nat (wid h) - 1 then lost x h (2 * c) l k
           else lost x h (2 * c + 1) (l + Z.of_nat (wid h)) k)))).
    rewrite Euv. unfold Z.sub. rewrite <- Hsum.
    match goal with |- eqm ?p ?q => replace p with q by lia end. done.
Qed.

(** C34: a point addition loses the additions pending on its path.  On any tree, with
    any additions made before, adding to cell [k] and then asking for the sum of the
    whole array returns the sum the array should have less the additions that were
    pending at the nodes above the leaf of [k], each times the number of cells under
    its node. *)
Theorem point_update_drops_pending (H : nat) (x : t) (a : Z -> Z) (k inc : Z) :
  height_ok H -> Tree H x a -> 1 <= k <= Z.of_nat (wid H) ->
  exists y, Update x k inc = Some y /\
    Query y (mkRange 1 (Z.of_nat (wid H))) = Some (i32 (rsum (addat k inc a) 1 (wid H) - lost x H 1 1 k), y).
Proof.
  intros HH HT Hk. unfold Update.
  rewrite (tree_fuel _ _ _ HT), (tree_root _ _ _ HT), (tree_range _ _ _ HT).
  destruct (UpdatePointNode_loses H (S H) x k inc 1 1 a) as (y & -> & Hf & Hs);
    [lia|apply HT|lia|by apply height_span|apply HT|lia|].
  exists y. split; [done|]. unfold Query, fuel_of. rewrite (frame_root _ _ _ _ Hf), (frame_range _ _ _ _ Hf).
  rewrite (tree_root _ _ _ HT), (tree_range _ _ _ HT). cbn [QueryNode span left right].
  rewrite (proj2 (Z.leb_le 1 1)), (proj2 (Z.leb_le _ _)) by lia. cbn [andb]. by rewrite Hs.
Qed.

(** Four cells raised by 5 at once: the addition is pending at the root. *)
Definition raised : t := mk [0; 20; 0; 0; 0; 0; 0; 0] [0; 5; 0; 0; 0; 0; 0; 0] 1 (mkRange 1 4).

Lemma raised_tree : Tree 2 raised (fun _ => 5).
Proof.
  split; [split; vm_compute; congruence|done|done|].
  exists 20, 5. split_and!; [done|done|done|]. exists (fun _ => 0). split; [done|].
  split; (exists 0, 0; split_and!; [done|done|done|]; exists (fun _ => 0); split; [done|]);
    split; (exists 0, 0; by split_and!).
Qed.

(** Then 1 is added to cell 2: the query returns 1, not 21. *)
Lemma point_update_drops_pending_witness :
  match make 4 with Made x => UpdateRange x (mkRange 1 4) 5 | _ => None end = Some raised /\
  exists y, Update raised 2 1 = Some y /\ Query y (mkRange 1 4) = Some (i32 (21 - 20), y).
Proof.
  split; [reflexivity|]. apply (point_update_drops_pending 2 raised (fun _ => 5) 2 1); [|exact raised_tree|].
  - unfold height_ok. lia.
  - change (wid 2) with 4%nat. lia.
Defined.

End SegmentTree.
