(* ===== verification/Trie.v ===== *)
(** * data_structure/trie/trie.h

    [class Trie]: a 26-way tree of words over ['a'..'z'].  Every node is owned
    by its parent's [childrens_] slot, so the heap of nodes is a tree and the
    pointer walk of [Insert] and [SearchPrefix] is recursion on the word.  A
    character outside ['a'..'z'] indexes [childrens_] out of range: undefined
    behaviour, [None]. *)

From S2P Require Import Prelude.

Module Trie.

#[warnings="-register-all"]
Inductive t := Node (is_end_ : bool) (childrens_ : list (option t)).

Definition is_end_ (n : t) : bool := let '(Node e _) := n in e.
Definition childrens_ (n : t) : list (option t) := let '(Node _ cs) := n in cs.

Definition make : t := Node false (replicate 26 None).

(** [size_t index = ch - 'a'], with [char] signed *)
Definition index (ch : ascii) : Z := u64 (wraps 8 (Z.of_N (N_of_ascii ch)) - 97).

Fixpoint Insert (node : t) (word : bytes) : option t :=
  match word with
  | [] => Some (Node true (childrens_ node))
  | ch :: word' =>
      child ← vget (childrens_ node) (index ch);
      child' ← Insert (default make child) word';
      cs ← vset (childrens_ node) (index ch) (Some child');
      Some (Node (is_end_ node) cs)
  end.

(** The node reached, [Some None] being [nullptr]. *)
Fixpoint SearchPrefix (node : t) (prefix : bytes) : option (option t) :=
  match prefix with
  | [] => Some (Some node)
  | ch :: prefix' =>
      child ← vget (childrens_ node) (index ch);
      match child with
      | None => Some None
      | Some c => SearchPrefix c prefix'
      end
  end.

Definition Search (node : t) (word : bytes) : option bool :=
  r ← SearchPrefix node word;
  Some (match r with None => false | Some n => is_end_ n end).

Definition StartWith (node : t) (prefix : bytes) : option bool :=
  r ← SearchPrefix node prefix;
  Some (match r with None => false | Some _ => true end).

(** ** Words over the alphabet *)

Definition lower (ch : ascii) : bool :=
  (97 <=? Z.of_N (N_of_ascii ch)) && (Z.of_N (N_of_ascii ch) <=? 122).

Definition low (w : bytes) : Prop := Forall (fun ch => lower ch = true) w.

Lemma index_lower ch : lower ch = true -> index ch = Z.of_N (N_of_ascii ch) - 97 /\ 0 <= index ch < 26.
Proof.
  unfold lower, index. intros H. breflect.
  rewrite wraps_id, wrapu_id by (unfold in_u, in_s; simpl; lia). lia.
Qed.

Lemma index_inj a b : lower a = true -> lower b = true -> index a = index b -> a = b.
Proof.
  intros Ha Hb. destruct (index_lower a Ha) as [-> _], (index_lower b Hb) as [-> _].
  intros H. rewrite <- (ascii_N_embedding a), <- (ascii_N_embedding b). f_equal. lia.
Qed.

(** Every node that can be reached has its 26 slots. *)
Definition wf (node : t) : Prop :=
  forall p n, low p -> SearchPrefix node p = Some (Some n) -> length (childrens_ n) = 26%nat.

Definition ended (r : option t) : Prop := exists n, r = Some n /\ is_end_ n = true.

Lemma wf_slots node : wf node -> vlen (childrens_ node) = 26.
Proof. intros H. unfold vlen. rewrite (H [] node); [done|constructor|done]. Qed.

Lemma vget_make ch : lower ch = true -> vget (childrens_ make) (index ch) = Some None.
Proof.
  intros Hch. destruct (index_lower ch Hch) as [_ Hi]. unfold vget, make, childrens_.
  destruct (Z.ltb_spec (index ch) 0); [lia|]. apply lookup_replicate_2. lia.
Qed.

Lemma SearchPrefix_make p :
  low p -> SearchPrefix make p = Some (match p with [] => Some make | _ => None end).
Proof.
  intros [|ch p' Hch _]; cbn [SearchPrefix]; [done|]. by rewrite vget_make.
Qed.

Lemma wf_make : wf make.
Proof.
  intros p n Hp Hs. rewrite SearchPrefix_make in Hs by done. by destruct p; simplify_eq.
Qed.

Lemma wf_slot node ch :
  wf node -> lower ch = true ->
  exists child, vget (childrens_ node) (index ch) = Some child /\
                (forall c, child = Some c -> wf c).
Proof.
  intros Hwf Hch. destruct (index_lower ch Hch) as [_ Hi].
  destruct (vget_is_Some (childrens_ node) (index ch)) as [child Hc].
  { by rewrite wf_slots. }
  exists child. split; [done|]. intros c -> p n Hp Hn. apply (Hwf (ch :: p)).
  - by constructor.
  - simpl. by rewrite Hc.
Qed.

(** On a well-formed trie a word over the alphabet is looked up safely. *)
Lemma SearchPrefix_Some node p : wf node -> low p -> exists r, SearchPrefix node p = Some r.
Proof.
  intros Hwf Hp. revert node Hwf. induction Hp as [|ch p Hch _ IH]; intros node Hwf; simpl; [eauto|].
  destruct (wf_slot node ch Hwf Hch) as ([c|] & -> & Hc); simpl; eauto.
Qed.

(** What a node's slot holds, [nullptr] standing for a fresh node: same answers
    except at the empty prefix. *)
Lemma wf_default child : (forall c, child = Some c -> wf c) -> wf (default make child).
Proof. intros H. destruct child; simpl; auto using wf_make. Qed.

(** ** Insertion *)

(** The answer [r'] is the answer [r] with the word [w] added. *)
Definition adds (p w : bytes) (r r' : option t) : Prop :=
  (is_Some r' <-> is_Some r \/ p `prefix_of` w) /\ (ended r' <-> ended r \/ p = w) /\
  (forall n, r' = Some n -> length (childrens_ n) = 26%nat).

(** [node'] answers every lookup as [node] does, with the word [w] added. *)
Definition extends (node node' : t) (w : bytes) : Prop :=
  forall p r, low p -> SearchPrefix node p = Some r ->
  exists r', SearchPrefix node' p = Some r' /\ adds p w r r'.

Lemma adds_other p w r :
  (forall n, r = Some n -> length (childrens_ n) = 26%nat) -> ~ p `prefix_of` w -> adds p w r r.
Proof.
  intros Hn Hp. assert (p <> w) by (intros ->; by apply Hp). unfold adds. tauto.
Qed.

(** Going down one character, from the slot or from the node made for it. *)
Lemma adds_cons ch p w child r0 r r' :
  low p -> SearchPrefix (default make child) p = Some r0 ->
  match child with None => Some None | Some c => SearchPrefix c p end = Some r ->
  adds p w r0 r' -> adds (ch :: p) (ch :: w) r r'.
Proof.
  intros Hp H0 Hr (H1 & H2 & H3). unfold adds.
  assert (ch :: p `prefix_of` ch :: w <-> p `prefix_of` w) as ->.
  { split; [apply prefix_cons_inv_2|apply prefix_cons]. }
  assert (ch :: p = ch :: w <-> p = w) as -> by (split; congruence).
  destruct child as [c|]; simpl in *; [assert (r = r0) as -> by congruence; done|].
  injection Hr as <-. rewrite SearchPrefix_make in H0 by done. injection H0 as <-.
  destruct p as [|c0 p].
  - split_and!; [|clear -H2|done].
    + rewrite H1. split; [right; apply prefix_nil|intros _; right; apply prefix_nil].
    + rewrite H2. split; (intros [(n & [= <-] & Hn)|?]; [done|by right]) ||
        (intros [(n & Hn & _)|?]; [done|by right]).
  - split_and!; done.
Qed.

Lemma Insert_ok w : forall node,
  wf node -> low w -> exists node', Insert node w = Some node' /\ extends node node' w.
Proof.
  induction w as [|ch w IH]; intros node Hwf Hw; cbn [Insert].
  - eexists. split; [done|]. intros [|c p] r Hp Hr.
    + injection Hr as <-. exists (Some (Node true (childrens_ node))). split; [done|].
      split_and!; [split; eauto|split; [by right|intros _; eexists; by split]|].
      intros n [= <-]. apply (Hwf [] node); [constructor|done].
    + exists r. split; [done|]. apply adds_other; [|intros [k Hk]; by destruct k].
      intros n ->. by apply (Hwf (c :: p)).
  - apply Forall_cons in Hw as [Hch Hw].
    destruct (wf_slot node ch Hwf Hch) as (child & Hchild & Hcwf). rewrite Hchild.
    cbn [mbind option_bind].
    destruct (IH (default make child) (wf_default _ Hcwf) Hw) as (child' & -> & Hext).
    destruct (index_lower ch Hch) as [_ Hi].
    assert (0 <= index ch < vlen (childrens_ node)) as Hrange by (rewrite (wf_slots _ Hwf); lia).
    pose proof (vset_in_range _ _ (Some child') Hrange) as Hcs.
    destruct (vset_Some _ _ _ _ Hcs) as (_ & Hlen & Hnew & Hold).
    cbn [mbind option_bind]. rewrite Hcs. cbn [mbind option_bind]. eexists. split; [done|].
    intros [|c p] r Hp Hr.
    + injection Hr as <-. eexists. split; [done|]. split_and!.
      * split; eauto.
      * unfold ended. split; [|intros [(n & [= <-] & Hn)|?]; [eauto|done]].
        intros (n & [= <-] & Hn). left. eauto.
      * intros n [= <-]. rewrite (wf_slots _ Hwf) in Hlen. unfold vlen in Hlen. simpl. lia.
    + apply Forall_cons in Hp as [Hc Hp]. cbn [SearchPrefix childrens_].
      cbn [SearchPrefix] in Hr. destruct (decide (c = ch)) as [->|Hne].
      * rewrite Hnew. rewrite Hchild in Hr. cbn [mbind option_bind] in *.
        destruct (SearchPrefix_Some (default make child) p (wf_default _ Hcwf) Hp) as [r0 H0].
        destruct (Hext p r0 Hp H0) as (r' & -> & Hadd). exists r'. split; [done|].
        by eapply adds_cons.
      * rewrite Hold by (intros E; by apply Hne, index_inj). exists r. split; [done|].
        apply adds_other; [|by intros ?%prefix_cons_inv_1].
        intros n ->. apply (Hwf (c :: p)); [by constructor|done].
Qed.

Lemma extends_wf node node' w : wf node -> extends node node' w -> wf node'.
Proof.
  intros Hwf Hext p n Hp Hn. destruct (SearchPrefix_Some node p Hwf Hp) as [r Hr].
  destruct (Hext p r Hp Hr) as (r' & Hr' & _ & _ & H). apply H. congruence.
Qed.

(** ** Tries built by a sequence of insertions *)

Fixpoint InsertAll (node : t) (ws : list bytes) : option t :=
  match ws with
  | [] => Some node
  | w :: ws' => node' ← Insert node w; InsertAll node' ws'
  end.

Definition holds (node : t) (ws : list bytes) : Prop :=
  wf node /\ forall p r, low p -> SearchPrefix node p = Some r ->
    (is_Some r <-> p = [] \/ exists w, w ∈ ws /\ p `prefix_of` w) /\ (ended r <-> p ∈ ws).

Lemma holds_make : holds make [].
Proof.
  split; [apply wf_make|]. intros p r Hp Hr. rewrite SearchPrefix_make in Hr by done.
  injection Hr as <-. split.
  - destruct p; split; eauto; [intros [? [=]]|].
    intros [?|(w & []%elem_of_nil & _)]; done.
  - split; [|by intros ?%elem_of_nil]. intros (n & Hn & He). by destruct p; simplify_eq.
Qed.

Lemma holds_Insert node ws w node' :
  holds node ws -> low w -> Insert node w = Some node' -> holds node' (w :: ws).
Proof.
  intros [Hwf Hws] Hw HI. destruct (Insert_ok w node Hwf Hw) as (n' & Hn' & Hext).
  assert (n' = node') as -> by congruence. split; [by eapply extends_wf|].
  intros p r' Hp Hr'. destruct (SearchPrefix_Some node p Hwf Hp) as [r Hr].
  destruct (Hext p r Hp Hr) as (r0 & H0 & Hadd & Hend & _).
  assert (r0 = r') as -> by congruence. destruct (Hws p r Hp Hr) as [H1 H2]. split.
  - rewrite Hadd, H1. setoid_rewrite elem_of_cons. split.
    + intros [[?|(v & ? & ?)]|?]; eauto.
    + intros [?|(v & [->|?] & ?)]; eauto.
  - rewrite Hend, H2, elem_of_cons. tauto.
Qed.

Lemma InsertAll_ok ws : forall node vs,
  holds node vs -> Forall low ws -> exists node', InsertAll node ws = Some node' /\
    holds node' (rev ws ++ vs).
Proof.
  induction ws as [|w ws IH]; intros node vs Hn Hw; simpl; [eauto|].
  apply Forall_cons in Hw as [Hw Hws].
  destruct (Insert_ok w node (proj1 Hn) Hw) as (n' & E & _). rewrite E. simpl.
  rewrite <- app_assoc. apply IH; [by eapply holds_Insert|done].
Qed.

Lemma inserted_elem (x : bytes) ws : x ∈ rev ws ++ [] <-> x ∈ ws.
Proof. by rewrite app_nil_r, list_elem_of_In, <- in_rev, <- list_elem_of_In. Qed.

(** C22: after inserting any words over ['a'..'z'] into an empty trie, [Search]
    answers membership and [StartWith] answers whether the argument is empty or
    a prefix of an inserted word; no lookup leaves [childrens_]. *)
Theorem trie_is_word_set (ws : list bytes) (p : bytes) :
  Forall low ws -> low p ->
  exists node b1 b2, InsertAll make ws = Some node /\
    Search node p = Some b1 /\ StartWith node p = Some b2 /\
    (b1 = true <-> p ∈ ws) /\
    (b2 = true <-> p = [] \/ exists w, w ∈ ws /\ p `prefix_of` w).
Proof.
  intros Hws Hp. destruct (InsertAll_ok ws make [] holds_make Hws) as (node & -> & Hwf & Hn).
  destruct (SearchPrefix_Some node p Hwf Hp) as [r Hr]. destruct (Hn p r Hp Hr) as [H1 H2].
  exists node. unfold Search, StartWith. rewrite Hr. simpl. eexists _, _.
  split_and!; [done|done|done|..].
  - rewrite inserted_elem in H2. rewrite <- H2. unfold ended. destruct r as [n|]; [|split; [done|by intros (?&?&?)]].
    split; [eauto|by intros (? & [= <-] & ?)].
  - transitivity (is_Some r); [destruct r; split; eauto; (by intros [? ?]) || done|].
    rewrite H1. by setoid_rewrite inserted_elem.
Qed.

Lemma trie_is_word_set_witness :
  exists node b1 b2, InsertAll make [lit "ab"; lit "abc"; lit "b"] = Some node /\
    Search node (lit "abc") = Some b1 /\ StartWith node (lit "abc") = Some b2 /\
    (b1 = true <-> lit "abc" ∈ [lit "ab"; lit "abc"; lit "b"]) /\
    (b2 = true <-> lit "abc" = [] \/
       exists w, w ∈ [lit "ab"; lit "abc"; lit "b"] /\ lit "abc" `prefix_of` w).
Proof.
  apply (trie_is_word_set [lit "ab"; lit "abc"; lit "b"] (lit "abc")).
  - repeat constructor.
  - repeat constructor.
Defined.

(** A first character outside ['a'..'z'] makes [Insert] and both lookups
    index [childrens_] out of range, on every well-formed trie. *)
Theorem trie_rejects_other_characters (node : t) (ch : ascii) (w : bytes) :
  wf node -> lower ch = false ->
  Insert node (ch :: w) = None /\ Search node (ch :: w) = None /\ StartWith node (ch :: w) = None.
Proof.
  intros Hwf Hch.
  assert (vget (childrens_ node) (index ch) = None) as Hnone.
  { destruct (vget (childrens_ node) (index ch)) as [c|] eqn:E; [|done].
    apply vget_Some_range in E. rewrite (wf_slots _ Hwf) in E. exfalso.
    revert Hch E. clear. unfold lower, index. pose proof (N_ascii_bounded ch) as Hb.
    set (n := Z.of_N (N_of_ascii ch)). assert (0 <= n < 256) by lia. intros Hch E. breflect.
    unfold wraps, wrapu in E. dlia. }
  unfold Search, StartWith. cbn [Insert SearchPrefix]. by rewrite Hnone.
Qed.

Lemma trie_rejects_other_characters_witness :
  Insert make (lit "A") = None /\ Search make (lit "A") = None /\ StartWith make (lit "A") = None.
Proof.
  apply (trie_rejects_other_characters make "A"%char []).
  - exact wf_make.
  - reflexivity.
Defined.

End Trie.
