(* ===== verification/EpollTypes.v ===== *)
(** * http/http_server/epoll_event_handler.h

    The status codes and the connection context shared by the event loop
    ([EpollSocket]) and the protocol handler behind it. *)

From S2P Require Import Prelude.

Inductive ReadStatus := READ_ERROR | READ_OVER | READ_CONTINUE | READ_REACH_MAX_SIZE.

Inductive WriteStatus := WRITE_ERROR | WRITE_OVER | WRITE_ALIVE | WRITE_CONTINUE.

#[global] Instance ReadStatus_eq_dec : EqDecision ReadStatus.
Proof. solve_decision. Defined.

#[global] Instance WriteStatus_eq_dec : EqDecision WriteStatus.
Proof. solve_decision. Defined.

(** [struct EpollEventContext]; [data_ptr] points to the handler's own data. *)
Record EpollEventContext (D : Type) := mkEpollEventContext {
  data_ptr : option D;
  fd : Z;
  client_ip : bytes;
}.

Arguments mkEpollEventContext {D} _ _ _.
Arguments data_ptr {D} _.
Arguments fd {D} _.
Arguments client_ip {D} _.

Definition EPOLL_SOCKET_READ_BUFFER_SIZE : Z := 4096.
Definition EPOLL_SOCKET_WRITE_BUFFER_SIZE : Z := 4096.

(** ** [class EpollEventHandler]

    The virtual functions, on a handler state [H]; [data_ptr] is an address.
    [OnAccept] gets the address the handler's [new] returns, [OnReadable] what the
    code it calls back does this time (an [E]), [OnWriteable] what [::send]
    answers; [None] is a dereference of memory that is not allocated. *)

Class EpollEventHandler (H E : Type) := {
  OnAccept : H -> EpollEventContext Z -> Z -> Z * EpollEventContext Z * H;
  OnReadable : H -> EpollEventContext Z -> bytes -> E -> option (ReadStatus * EpollEventContext Z * H);
  OnWriteable : H -> EpollEventContext Z -> (Z -> bytes -> Z) -> option (WriteStatus * EpollEventContext Z * H);
  OnClose : H -> EpollEventContext Z -> option (Z * H);
}.

(** What the event loop may count on: a handler keeps one object per accepted
    connection, at the address in [data_ptr], until [OnClose]. *)
Class EpollEventHandlerLaws (H E : Type) `{EpollEventHandler H E} := {
  objects : H -> gset Z;
  OnAccept_law h ctx addr :
    addr ∉ objects h ->
    exists r ctx' h', OnAccept h ctx addr = (r, ctx', h') /\ fd ctx' = fd ctx /\
      data_ptr ctx' = Some addr /\ objects h' = {[addr]} ∪ objects h;
  OnReadable_law h ctx d buf e :
    data_ptr ctx = Some d -> d ∈ objects h ->
    exists st ctx' h', OnReadable h ctx buf e = Some (st, ctx', h') /\ fd ctx' = fd ctx /\
      data_ptr ctx' = Some d /\ objects h' = objects h;
  OnWriteable_law h ctx d send :
    data_ptr ctx = Some d -> d ∈ objects h ->
    exists st ctx' h', OnWriteable h ctx send = Some (st, ctx', h') /\ fd ctx' = fd ctx /\
      data_ptr ctx' = Some d /\ objects h' = objects h;
  OnClose_law h ctx d :
    data_ptr ctx = Some d -> d ∈ objects h ->
    exists r h', OnClose h ctx = Some (r, h') /\ objects h' = objects h ∖ {[d]};
}.
