(* ===== verification/HttpRequest.v ===== *)
(** * http/http_server/http_request.{h,cpp}

    [struct HttpRequest]: the request fields, the buffer of bytes received so
    far and the incremental parser [OnReadable].  Loops over a string stream run
    on fuel, one more than the number of pieces they can find; [None] would be
    running out of it. *)

From S2P Require Import Prelude StdMap SStream StringUtil EpollTypes.

Module HttpRequest.

Inductive ParsePhase := PARSE_REQ_LINE | PARSE_REQ_HEAD | PARSE_REQ_BODY | PARSE_REQ_OVER.

#[global] Instance ParsePhase_eq_dec : EqDecision ParsePhase.
Proof. solve_decision. Defined.

Definition MAX_REQUEST_SIZE : Z := 1024 * 1024 * 10.

Abbreviation smap := (list (bytes * bytes)).

Record t := mk {
  method : bytes;
  url : bytes;
  uri : bytes;
  http_version : bytes;
  headers : smap;
  url_params : smap;
  body_params : smap;
  parse_part : ParsePhase;
  req_buff_ : SStream.t;
  total_req_size_ : Z;
}.

Definition make : t := mk [] [] [] [] [] [] [] PARSE_REQ_LINE SStream.empty 0.

Definition set_line (m u i v : bytes) (ps : smap) (r : t) : t :=
  mk m u i v (headers r) ps (body_params r) (parse_part r) (req_buff_ r) (total_req_size_ r).
Definition set_headers (h : smap) (r : t) : t :=
  mk (method r) (url r) (uri r) (http_version r) h (url_params r) (body_params r)
     (parse_part r) (req_buff_ r) (total_req_size_ r).
Definition set_body_params (b : smap) (r : t) : t :=
  mk (method r) (url r) (uri r) (http_version r) (headers r) (url_params r) b
     (parse_part r) (req_buff_ r) (total_req_size_ r).
Definition set_part (p : ParsePhase) (r : t) : t :=
  mk (method r) (url r) (uri r) (http_version r) (headers r) (url_params r) (body_params r)
     p (req_buff_ r) (total_req_size_ r).
Definition set_buff (b : SStream.t) (r : t) : t :=
  mk (method r) (url r) (uri r) (http_version r) (headers r) (url_params r) (body_params r)
     (parse_part r) b (total_req_size_ r).
Definition set_total (n : Z) (r : t) : t :=
  mk (method r) (url r) (uri r) (http_version r) (headers r) (url_params r) (body_params r)
     (parse_part r) (req_buff_ r) n.

(** [while (kv_ss.good()) { getline(kv_ss, key, '='); getline(kv_ss, value, '='); ... }] *)
Fixpoint kv_loop (fuel : nat) (kv_ss : SStream.t) : option (list (bytes * bytes)) :=
  match fuel with
  | O => None
  | S fuel' =>
      if SStream.good kv_ss then
        let '(key, s1) := SStream.getline kv_ss [] "=" in
        let '(value, s2) := SStream.getline s1 [] "=" in
        kvs ← kv_loop fuel' s2; Some ((key, value) :: kvs)
      else Some []
  end.

(** The loop over the pieces between ['&'], storing each pair with [put]. *)
Fixpoint store_params (put : bytes -> bytes -> smap -> smap) (kvs : list bytes) (m : smap)
  : option smap :=
  match kvs with
  | [] => Some m
  | kv :: kvs' =>
      ps ← kv_loop (length kv + 2) (SStream.of_bytes kv);
      store_params put kvs' (foldl (fun acc '(k, v) => put k v acc) m ps)
  end.

Definition parse_params (put : bytes -> bytes -> smap -> smap) (s : bytes) (m : smap)
  : option smap :=
  '(kvs, _) ← SStream.pieces (length s + 2) (SStream.of_bytes s) "&";
  store_params put kvs m.

(** Returns the new [uri] and [url_params]. *)
Definition parse_url_params (url uri : bytes) (url_params : smap) : option (bytes * smap) :=
  let '(uri', ss) := SStream.getline (SStream.of_bytes url) uri "?" in
  if SStream.good ss then
    let '(query_url, _) := SStream.getline ss [] "?" in
    ps ← parse_params StdMap.assign query_url url_params; Some (uri', ps)
  else Some (uri', url_params).

Definition parse_request_line (r : t) (line : bytes) : option (Z * t) :=
  let '(m, ss1) := SStream.getline (SStream.of_bytes line) (method r) " " in
  if negb (SStream.good ss1) then
    Some (-1, set_line m (url r) (uri r) (http_version r) (url_params r) r)
  else
    let '(u, ss2) := SStream.getline ss1 (url r) " " in
    if negb (SStream.good ss2) then
      Some (-1, set_line m u (uri r) (http_version r) (url_params r) r)
    else
      '(i, ps) ← parse_url_params u (uri r) (url_params r);
      let '(v, _) := SStream.getline ss2 (http_version r) " " in
      Some (0, set_line m u i v ps r).

Definition parse_body (r : t) (body : bytes) : option (Z * t) :=
  ps ← parse_params StdMap.insert body (body_params r); Some (0, set_body_params ps r).

(** [strncmp] of the last four bytes with the blank line that ends the header. *)
Definition TERMINATOR : bytes := [CR; LF; CR; LF].

Definition is_read_over (r : t) : bool * t :=
  let ss1 := SStream.seekg_end (req_buff_ r) (-4) in
  let '(s, ss2) := SStream.readsome ss1 4 in
  let buff := s ++ replicate (4 - length s) NUL in
  if decide (buff = TERMINATOR) then (true, set_buff (SStream.seekg ss2 0) r)
  else (false, set_buff ss2 r).

(** How one round of the line loop ends. *)
Inductive flow := Continue | Break | Return (st : ReadStatus).

(** The body of the line loop, after [getline]. *)
Definition handle_line (r : t) (line : bytes) : option (flow * t) :=
  if decide (line = [CR]) then
    Some (Continue, if decide (method r = lit "POST") then set_part PARSE_REQ_OVER r
                    else set_part PARSE_REQ_OVER r)
  else if decide (parse_part r = PARSE_REQ_LINE) then
    '(ret, r1) ← parse_request_line r line;
    if negb (ret =? 0) then Some (Return READ_ERROR, r1)
    else if decide (method r1 <> lit "POST" /\ method r1 <> lit "GET") then
      Some (Return READ_ERROR, r1)
    else Some (Continue, set_part PARSE_REQ_HEAD r1)
  else if decide (parse_part r = PARSE_REQ_HEAD /\ line <> []) then
    parts ← string_split line ":" [];
    match parts with
    | name :: value :: _ => Some (Continue, set_headers (StdMap.assign name value (headers r)) r)
    | _ => Some (Continue, r)
    end
  else if decide (parse_part r = PARSE_REQ_BODY /\ line <> []) then
    '(_, r1) ← parse_body r line; Some (Break, set_part PARSE_REQ_OVER r1)
  else Some (Continue, r).

(** [while (req_buff_.good()) { std::getline(req_buff_, line, '\n'); ... }] *)
Fixpoint line_loop (fuel : nat) (r : t) (line : bytes) : option (option ReadStatus * t) :=
  match fuel with
  | O => None
  | S fuel' =>
      if SStream.good (req_buff_ r) then
        let '(line', ss) := SStream.getline (req_buff_ r) line LF in
        '(fl, r1) ← handle_line (set_buff ss r) line';
        match fl with
        | Continue => line_loop fuel' r1 line'
        | Break => Some (None, r1)
        | Return st => Some (Some st, r1)
        end
      else Some (None, r)
  end.

(** What [OnReadable] does once a whole header has arrived. *)
Definition parse_buffered (r : t) : option (ReadStatus * t) :=
  '(ret, r1) ← line_loop (length (SStream.buf (req_buff_ r)) + 2) r [];
  match ret with
  | Some st => Some (st, r1)
  | None =>
      if decide (parse_part r1 = PARSE_REQ_OVER) then Some (READ_OVER, r1)
      else Some (READ_CONTINUE, r1)
  end.

Definition OnReadable (r : t) (read_buffer : bytes) : option (ReadStatus * t) :=
  let r1 := set_total (i32 (total_req_size_ r + vlen read_buffer)) r in
  if MAX_REQUEST_SIZE <? total_req_size_ r1 then Some (READ_REACH_MAX_SIZE, r1)
  else
    let r2 := set_buff (SStream.write (req_buff_ r1) read_buffer) r1 in
    if total_req_size_ r2 <? 4 then Some (READ_CONTINUE, r2)
    else
      let '(over, r3) := is_read_over r2 in
      if negb over then Some (READ_CONTINUE, r3) else parse_buffered r3.

Definition crlf : bytes := [CR; LF].

Example get_request :
  (fun '(st, r) => (st, method r, uri r, http_version r, headers r, url_params r)) <$>
    OnReadable make (lit "GET /foo?a=1&b=2 HTTP/1.1" ++ crlf ++ lit "Host: localhost:8080" ++ crlf
                       ++ crlf)
  = Some (READ_OVER, lit "GET", lit "/foo", lit "HTTP/1.1" ++ [CR],
          [(lit "Host", lit "localhost")], [(lit "a", lit "1"); (lit "b", lit "2")]).
Proof. vm_compute. reflexivity. Qed.

(** ** Feeding a request in pieces *)

Definition ends_over (s : bytes) : Prop :=
  (4 <= length s)%nat /\ drop (length s - 4) s = TERMINATOR.

#[global] Instance ends_over_dec s : Decision (ends_over s).
Proof. unfold ends_over. apply _. Defined.

(** No line has been looked at yet; [s] is what has arrived. *)
Definition waiting (r : t) (s : bytes) : Prop :=
  exists ss, r = set_total (vlen s) (set_buff ss make) /\
    SStream.buf ss = s /\ SStream.good ss = true.

(** The request just before its lines are parsed. *)
Definition ready (s : bytes) : t :=
  set_total (vlen s) (set_buff (SStream.mk s 0 false false 4) make).

Lemma waiting_make : waiting make [].
Proof. by exists SStream.empty. Qed.

Lemma is_read_over_spec ss n :
  SStream.good ss = true -> (4 <= length (SStream.buf ss))%nat ->
  is_read_over (set_total n (set_buff ss make)) =
    if decide (ends_over (SStream.buf ss))
    then (true, set_total n (set_buff (SStream.mk (SStream.buf ss) 0 false false 4) make))
    else (false, set_total n (set_buff
           (SStream.mk (SStream.buf ss) (length (SStream.buf ss)) false false 4) make)).
Proof.
  intros Hg Hlen. apply SStream.good_true in Hg as [He Hf]. destruct ss as [b g e f c]; simpl in *; subst.
  unfold is_read_over, SStream.seekg_end, SStream.seekg; simpl. unfold vlen.
  rewrite (proj2 (Z.leb_le 0 (Z.of_nat (length b) + -4))) by lia.
  rewrite (proj2 (Z.leb_le (Z.of_nat (length b) + -4) (Z.of_nat (length b)))) by lia.
  unfold SStream.readsome, SStream.rest; simpl.
  replace (Z.to_nat (Z.of_nat (length b) + -4)) with (length b - 4)%nat by lia.
  rewrite take_ge by (rewrite length_drop; lia). rewrite length_drop.
  replace (length b - (length b - 4))%nat with 4%nat by lia. simpl. rewrite app_nil_r.
  unfold SStream.seekg; simpl. unfold vlen. rewrite (proj2 (Z.leb_le 0 (Z.of_nat (length b)))) by lia.
  simpl. rewrite length_drop.
  replace (Z.of_nat (length b - (length b - 4))) with 4 by lia.
  replace (length b - 4 + 4)%nat with (length b) by lia.
  unfold ends_over. repeat case_decide; try done; tauto.
Qed.

(** One more piece: either the header is complete and gets parsed, whatever the
    pieces were, or the request keeps waiting. *)
Lemma OnReadable_waiting r s c :
  waiting r s -> vlen (s ++ c) <= MAX_REQUEST_SIZE ->
  if decide (ends_over (s ++ c)) then OnReadable r c = parse_buffered (ready (s ++ c))
  else exists r', OnReadable r c = Some (READ_CONTINUE, r') /\ waiting r' (s ++ c).
Proof.
  intros (ss & -> & Hb & Hg) Hmax.
  assert (vlen (s ++ c) = vlen s + vlen c) as Hv by (unfold vlen; rewrite length_app; lia).
  unfold OnReadable. cbn [set_total total_req_size_ set_buff req_buff_].
  rewrite wraps_id by (unfold MAX_REQUEST_SIZE, in_s, vlen in *; lia). rewrite <- Hv.
  rewrite (proj2 (Z.ltb_ge _ _) Hmax).
  set (ss' := SStream.mk (s ++ c) (SStream.gpos ss) false false (SStream.gcount ss)).
  assert (SStream.write ss c = ss') as ->.
  { unfold SStream.write, ss'. rewrite Hg. apply SStream.good_true in Hg as [-> ->]. by rewrite Hb. }
  destruct (Z.ltb_spec (vlen (s ++ c)) 4) as [H4|H4].
  - rewrite decide_False by (unfold ends_over, vlen in *; lia).
    eexists. split; [done|]. by exists ss'.
  - change (is_read_over _) with (is_read_over (set_total (vlen (s ++ c)) (set_buff ss' make))).
    rewrite is_read_over_spec by (done || (simpl; unfold vlen in *; lia)). simpl.
    case_decide; [done|]. simpl. eexists. split; [done|]. by eexists.
Qed.

(** The event loop's view: pieces are handed over until one is not a
    [READ_CONTINUE]. *)
Fixpoint feed (r : t) (chunks : list bytes) : option (ReadStatus * t) :=
  match chunks with
  | [] => Some (READ_CONTINUE, r)
  | c :: cs =>
      '(st, r1) ← OnReadable r c;
      if decide (st = READ_CONTINUE) then feed r1 cs else Some (st, r1)
  end.

Lemma feed_waiting cs c r s :
  waiting r s -> vlen (s ++ concat cs ++ c) <= MAX_REQUEST_SIZE ->
  (forall k, (k < length cs)%nat -> ~ ends_over (s ++ concat (take (S k) cs))) ->
  ends_over (s ++ concat cs ++ c) ->
  feed r (cs ++ [c]) = parse_buffered (ready (s ++ concat cs ++ c)).
Proof.
  revert r s. induction cs as [|d cs IH]; intros r s Hw Hmax Hk Hend; simpl in *.
  - pose proof (OnReadable_waiting r s c Hw Hmax) as H. rewrite decide_True in H by done.
    rewrite H. destruct (parse_buffered _) as [[st r1]|]; simpl; [|done].
    case_decide; [by subst|done].
  - rewrite <- app_assoc in *. 
    assert (vlen (s ++ d) <= MAX_REQUEST_SIZE) as Hd.
    { unfold vlen in *. rewrite !length_app in *. lia. }
    pose proof (OnReadable_waiting r s d Hw Hd) as H.
    assert (~ ends_over (s ++ d)) as Hnd.
    { specialize (Hk 0%nat ltac:(lia)). simpl in Hk. by rewrite app_nil_r in Hk. }
    rewrite decide_False in H by done. destruct H as (r' & -> & Hw'). simpl.
    rewrite app_assoc in *. apply IH; [done|done| |done].
    intros k Hlt. specialize (Hk (S k) ltac:(lia)). simpl in Hk. by rewrite app_assoc in Hk.
Qed.



(** ** The reference parser

    What the loops over string streams compute, on the fields between
    delimiters. *)

Fixpoint pair_up (fs : list bytes) : list (bytes * bytes) :=
  match fs with
  | k :: v :: fs' => (k, v) :: pair_up fs'
  | [k] => [(k, [])]
  | [] => []
  end.

Definition query_pairs (q : bytes) : list (bytes * bytes) :=
  mjoin ((fun kv => pair_up (SStream.split "=" kv)) <$> SStream.split "&" q).

Definition store_all (put : bytes -> bytes -> smap -> smap) (m : smap) (kvs : list (bytes * bytes))
  : smap := foldl (fun acc '(k, v) => put k v acc) m kvs.

Definition ref_url (url : bytes) (m : smap) : bytes * smap :=
  match SStream.split "?" url with
  | u :: q :: _ => (u, store_all StdMap.assign m (query_pairs q))
  | u :: [] => (u, m)
  | [] => ([], m)
  end.

Lemma kv_loop_spec s : forall fuel ss,
  SStream.at_rest ss s -> (length s + 1 < fuel)%nat ->
  kv_loop fuel ss = Some (pair_up (SStream.split "=" s)).
Proof.
  induction s as [s IH] using (induction_ltof1 _ (@length ascii)). intros [|fuel] ss Hs Hf; [lia|].
  cbn [kv_loop]. rewrite (proj1 Hs), SStream.split_cut.
  destruct (SStream.cut "=" s) as [k [r|]] eqn:E.
  - apply SStream.cut_Some in E as [-> Hk].
    destruct (SStream.getline_delim ss [] "=" k r Hs Hk) as (s1 & -> & H1 & _).
    rewrite length_app in Hf. simpl in Hf.
    rewrite (SStream.split_cut "=" r). destruct (SStream.cut "=" r) as [v [r'|]] eqn:E'.
    + apply SStream.cut_Some in E' as [-> Hv].
      destruct (SStream.getline_delim s1 [] "=" v r' H1 Hv) as (s2 & -> & H2 & _).
      rewrite length_app in Hf. simpl in Hf.
      rewrite (IH r') by (unfold ltof; rewrite ?length_app; simpl; rewrite ?length_app; simpl; done || lia).
      done.
    + apply SStream.cut_None in E' as [-> Hv].
      destruct (SStream.getline_last s1 [] "=" r H1 Hv) as (s2 & -> & H2 & _).
      destruct fuel as [|fuel]; [lia|]. cbn [kv_loop]. by rewrite H2.
  - apply SStream.cut_None in E as [-> Hk].
    destruct (SStream.getline_last ss [] "=" s Hs Hk) as (s1 & -> & H1 & _).
    destruct (SStream.getline_not_good s1 [] "=" H1) as (s2 & -> & H2).
    destruct fuel as [|fuel]; [lia|]. cbn [kv_loop]. by rewrite H2.
Qed.

Lemma store_params_spec put kvs m :
  store_params put kvs m =
    Some (store_all put m (mjoin ((fun kv => pair_up (SStream.split "=" kv)) <$> kvs))).
Proof.
  revert m. induction kvs as [|kv kvs IH]; intros m; [done|]. cbn [store_params].
  rewrite (kv_loop_spec kv) by (auto with cpputil; lia). cbn [mbind option_bind].
  rewrite IH. unfold store_all. simpl. by rewrite foldl_app.
Qed.

Lemma parse_params_spec put s m :
  parse_params put s m = Some (store_all put m (query_pairs s)).
Proof.
  unfold parse_params.
  destruct (SStream.pieces_split "&" s (length s + 2) (SStream.of_bytes s)) as (ss & -> & _);
    [auto with cpputil|lia|]. cbn [mbind option_bind]. apply store_params_spec.
Qed.

Lemma parse_url_params_spec url uri m : parse_url_params url uri m = Some (ref_url url m).
Proof.
  unfold parse_url_params, ref_url. rewrite SStream.split_cut.
  destruct (SStream.cut "?" url) as [u [q|]] eqn:E.
  - apply SStream.cut_Some in E as [-> Hu].
    destruct (SStream.getline_delim (SStream.of_bytes (u ++ "?"%char :: q)) uri "?" u q) as (s1 & -> & H1 & _);
      [auto with cpputil|done|]. rewrite (proj1 H1), SStream.split_cut.
    destruct (SStream.cut "?" q) as [q1 [q2|]] eqn:E'.
    + apply SStream.cut_Some in E' as [-> Hq].
      destruct (SStream.getline_delim s1 [] "?" q1 q2 H1 Hq) as (s2 & -> & _). by rewrite parse_params_spec.
    + apply SStream.cut_None in E' as [-> Hq].
      destruct (SStream.getline_last s1 [] "?" q H1 Hq) as (s2 & -> & _). by rewrite parse_params_spec.
  - apply SStream.cut_None in E as [-> Hu].
    destruct (SStream.getline_last (SStream.of_bytes url) uri "?" url) as (s1 & -> & -> & _);
      [auto with cpputil|done|done].
Qed.

Lemma find_store_all kvs m k :
  StdMap.find k (store_all StdMap.assign m kvs) =
    from_option Some (StdMap.find k m) (snd <$> last (base.filter (fun kv => fst kv = k) kvs)).
Proof.
  induction kvs as [|[k' v] kvs IH] using rev_ind; [done|].
  unfold store_all in *. rewrite foldl_app, filter_app. simpl. rewrite StdMap.find_assign.
  destruct (decide (k' = k)) as [->|Hk].
  - rewrite filter_cons_True by done. rewrite filter_nil, last_snoc, decide_True by done. done.
  - rewrite filter_cons_False by done. rewrite filter_nil, app_nil_r, decide_False by done. done.
Qed.

(** C25: [parse_url_params] terminates on every URL; the path is what precedes the
    first ['?'], and the parameters are the pairs of the ['&']- and ['=']-fields
    between the first and the second ['?'], later keys overwriting earlier ones. *)
Theorem parse_url_params_correct (url uri : bytes) (m : smap) :
  exists uri' m', parse_url_params url uri m = Some (uri', m') /\
    uri' = fst (SStream.cut "?" url) /\
    forall k, StdMap.find k m' =
      match snd (SStream.cut "?" url) with
      | None => StdMap.find k m
      | Some q =>
          from_option Some (StdMap.find k m)
            (snd <$> last (base.filter (fun kv => fst kv = k) (query_pairs (fst (SStream.cut "?" q)))))
      end.
Proof.
  destruct (ref_url url m) as [u' m'] eqn:E. exists u', m'. rewrite parse_url_params_spec.
  revert E. unfold ref_url. rewrite SStream.split_cut.
  destruct (SStream.cut "?" url) as [u [q|]]; simpl; [|by intros [= -> ->]].
  rewrite SStream.split_cut. destruct (SStream.cut "?" q) as [q1 [q2|]]; simpl;
    intros [= <- <-]; (split_and!; [done|done|]; intros k; apply find_store_all).
Qed.

(** *** The request line *)

Definition ref_request_line (r : t) (line : bytes) : Z * t :=
  match SStream.split " " line with
  | m :: u :: v :: _ =>
      let '(i, ps) := ref_url u (url_params r) in (0, set_line m u i v ps r)
  | [m; u] => (-1, set_line m u (uri r) (http_version r) (url_params r) r)
  | [m] => (-1, set_line m (url r) (uri r) (http_version r) (url_params r) r)
  | [] => (-1, r)
  end.

(** A [getline] takes the first of the fields that are left. *)
Lemma getline_split ss old d s :
  SStream.at_rest ss s ->
  exists l ss', SStream.getline ss old d = (l, ss') /\
    ((exists r, SStream.at_rest ss' r /\ SStream.split d s = l :: SStream.split d r) \/
     (SStream.good ss' = false /\ SStream.split d s = [l])).
Proof.
  intros Hs. rewrite SStream.split_cut. destruct (SStream.cut d s) as [l [r|]] eqn:E.
  - apply SStream.cut_Some in E as [-> Hl].
    destruct (SStream.getline_delim ss old d l r Hs Hl) as (ss' & -> & H & _). eauto 10.
  - apply SStream.cut_None in E as [-> Hl].
    destruct (SStream.getline_last ss old d s Hs Hl) as (ss' & -> & H & _). eauto 10.
Qed.

Lemma parse_request_line_spec r line : parse_request_line r line = Some (ref_request_line r line).
Proof.
  unfold parse_request_line, ref_request_line.
  destruct (getline_split (SStream.of_bytes line) (method r) " " line) as (m & s1 & -> & H1);
    [auto with cpputil|]. destruct H1 as [(l1 & H1 & ->)|[H1 ->]]; [|by rewrite H1].
  rewrite (proj1 H1). simpl.
  destruct (getline_split s1 (url r) " " l1 H1) as (u & s2 & -> & H2).
  destruct H2 as [(l2 & H2 & ->)|[H2 ->]]; [|by rewrite H2].
  rewrite (proj1 H2). simpl. rewrite parse_url_params_spec. simpl.
  destruct (getline_split s2 (http_version r) " " l2 H2) as (v & s3 & -> & H3).
  destruct H3 as [(l3 & H3 & ->)|[H3 ->]]; simpl; by destruct (ref_url _ _).
Qed.

(** *** The lines of a request *)

Definition put_header (parts : list bytes) (r : t) : t :=
  match parts with
  | name :: value :: _ => set_headers (StdMap.assign name value (headers r)) r
  | _ => r
  end.

Definition ref_line (r : t) (line : bytes) : flow * t :=
  if decide (line = [CR]) then (Continue, set_part PARSE_REQ_OVER r)
  else match parse_part r with
  | PARSE_REQ_LINE =>
      let '(ret, r1) := ref_request_line r line in
      if decide (ret = 0 /\ (method r1 = lit "POST" \/ method r1 = lit "GET"))
      then (Continue, set_part PARSE_REQ_HEAD r1) else (Return READ_ERROR, r1)
  | PARSE_REQ_HEAD =>
      (Continue, if decide (line = []) then r
                 else put_header (trim <$> SStream.split ":" line) r)
  | PARSE_REQ_BODY =>
      if decide (line = []) then (Continue, r)
      else (Break, set_part PARSE_REQ_OVER
                     (set_body_params (store_all StdMap.insert (body_params r) (query_pairs line)) r))
  | PARSE_REQ_OVER => (Continue, r)
  end.

Lemma handle_line_spec r line : handle_line r line = Some (ref_line r line).
Proof.
  unfold handle_line, ref_line. case_decide; [by case_decide|].
  destruct (parse_part r) eqn:Ep.
  - rewrite decide_True by done. rewrite parse_request_line_spec. simpl.
    destruct (ref_request_line r line) as [ret r1] eqn:E.
    destruct (Z.eqb_spec ret 0); simpl; repeat case_decide; try done; tauto.
  - rewrite decide_False by done. destruct (decide (line = [])) as [->|Hl].
    + rewrite !decide_False by (intros [? ?]; done). done.
    + rewrite decide_True, string_split_spec by done. simpl.
      by destruct (SStream.split ":" line) as [|? [|? ?]].
  - rewrite !decide_False by (done || intros [? ?]; done). destruct (decide (line = [])) as [->|Hl].
    + rewrite decide_False by (intros [? ?]; done). done.
    + rewrite decide_True by done. unfold parse_body. by rewrite parse_params_spec.
  - rewrite !decide_False by (done || intros [? ?]; done). done.
Qed.

Fixpoint ref_lines (r : t) (ls : list bytes) : option ReadStatus * t :=
  match ls with
  | [] => (None, r)
  | l :: ls' =>
      match ref_line r l with
      | (Continue, r1) => ref_lines r1 ls'
      | (Break, r1) => (None, r1)
      | (Return st, r1) => (Some st, r1)
      end
  end.

(** The stream plays no part in the handling of a line. *)
Lemma ref_line_set_buff ss r l :
  ref_line (set_buff ss r) l = prod_map id (set_buff ss) (ref_line r l).
Proof.
  unfold ref_line, ref_request_line, put_header. simpl. case_decide; [done|].
  destruct (parse_part r); simpl.
  - destruct (SStream.split " " l) as [|m [|u [|v ls]]]; simpl; try done.
    destruct (ref_url u (url_params r)). simpl. by case_decide.
  - case_decide; [done|]. by destruct (SStream.split ":" l) as [|? [|? ?]].
  - by case_decide.
  - done.
Qed.

Lemma line_loop_spec s : forall fuel r old,
  SStream.at_rest (req_buff_ r) s -> (length s + 1 < fuel)%nat ->
  exists ss, line_loop fuel r old = Some (prod_map id (set_buff ss) (ref_lines r (SStream.split LF s))).
Proof.
  induction s as [s IH] using (induction_ltof1 _ (@length ascii)). intros [|fuel] r old Hs Hf; [lia|].
  cbn [line_loop]. rewrite (proj1 Hs), SStream.split_cut.
  destruct (SStream.cut LF s) as [l [rs|]] eqn:E; cbn [ref_lines].
  - apply SStream.cut_Some in E as [-> Hl].
    destruct (SStream.getline_delim (req_buff_ r) old LF l rs Hs Hl) as (s1 & -> & H1 & _).
    rewrite handle_line_spec. cbn [mbind option_bind]. rewrite ref_line_set_buff.
    rewrite length_app in Hf. simpl in Hf.
    destruct (ref_line r l) as [[| |st] r1]; cbn [prod_map fst snd id];
      [|eexists; done|eexists; done].
    destruct (IH rs) with (fuel := fuel) (r := set_buff s1 r1) (old := l) as (ss & ->);
      [unfold ltof; rewrite length_app; simpl; lia|done|lia|].
    exists ss. f_equal. clear. generalize (SStream.split LF rs) as ls. intros ls.
    revert r1. induction ls as [|l' ls IH]; intros r1; [done|]. cbn [ref_lines].
    rewrite ref_line_set_buff. destruct (ref_line r1 l') as [[| |st] r2]; simpl; [apply IH|done|done].
  - apply SStream.cut_None in E as [-> Hl].
    destruct (SStream.getline_last (req_buff_ r) old LF s Hs Hl) as (s1 & -> & H1 & _).
    rewrite handle_line_spec. cbn [mbind option_bind]. rewrite ref_line_set_buff.
    destruct fuel as [|fuel]; [lia|].
    destruct (ref_line r s) as [[| |st] r1]; cbn [prod_map fst snd id]; [|eexists; done|eexists; done].
    cbn [line_loop]. cbn [req_buff_ set_buff]. rewrite H1. eexists. done.
Qed.

(** The verdict once all lines have been looked at. *)
Definition verdict (o : option ReadStatus) (r : t) : ReadStatus :=
  match o with
  | Some st => st
  | None => if decide (parse_part r = PARSE_REQ_OVER) then READ_OVER else READ_CONTINUE
  end.

Lemma parse_buffered_spec r s :
  SStream.at_rest (req_buff_ r) s -> SStream.buf (req_buff_ r) = s ->
  exists ss o r', ref_lines r (SStream.split LF s) = (o, r') /\
    parse_buffered r = Some (verdict o r', set_buff ss r').
Proof.
  intros Hs Hb. unfold parse_buffered. rewrite Hb.
  destruct (line_loop_spec s (length s + 2) r [] Hs ltac:(lia)) as (ss & ->). exists ss.
  destruct (ref_lines r (SStream.split LF s)) as [o r']. exists o, r'. split; [done|].
  cbn [mbind option_bind prod_map fst snd id]. destruct o; simpl; [done|].
  by case_decide.
Qed.

(** *** Every call returns, and the body stays unread *)

Lemma is_read_over_frame r :
  exists b ss, is_read_over r = (b, set_buff ss r) /\
    (b = true -> SStream.at_rest ss (SStream.buf ss)).
Proof.
  unfold is_read_over. set (ss1 := SStream.seekg_end (req_buff_ r) (-4)).
  unfold SStream.readsome. destruct (SStream.good ss1) eqn:Hg; simpl.
  - case_decide; eexists _, _; (split; [done|]); [intros _|done].
    unfold SStream.seekg, SStream.at_rest, SStream.rest; simpl. unfold vlen.
    rewrite (proj2 (Z.leb_le 0 (Z.of_nat (length (SStream.buf ss1))))) by lia. simpl.
    split_and!; [done|done|lia].
  - by eexists _, _.
Qed.

Lemma ref_request_line_frame r l :
  body_params (snd (ref_request_line r l)) = body_params r /\
  parse_part (snd (ref_request_line r l)) = parse_part r.
Proof.
  unfold ref_request_line. destruct (SStream.split _ _) as [|m [|u [|v ls]]]; [done..|].
  by destruct (ref_url _ _).
Qed.

(** The body phase is never entered. *)
Definition no_body (b : smap) (r : t) : Prop := parse_part r <> PARSE_REQ_BODY /\ body_params r = b.

Lemma ref_line_no_body b r l : no_body b r -> no_body b (snd (ref_line r l)).
Proof.
  intros [Hp Hb]. unfold no_body, ref_line. case_decide; [done|].
  destruct (parse_part r) eqn:Ep; [| |done|by simpl; rewrite Ep].
  - pose proof (ref_request_line_frame r l) as [H1 H2].
    destruct (ref_request_line r l) as [ret r1]; simpl in *. case_decide; simpl; [by rewrite H1|].
    rewrite H1, H2, Ep. done.
  - simpl. case_decide; [by rewrite Ep|]. unfold put_header.
    destruct (trim <$> _) as [|? [|? ?]]; simpl; by rewrite Ep.
Qed.

Lemma ref_lines_no_body b r ls : no_body b r -> no_body b (snd (ref_lines r ls)).
Proof.
  revert r. induction ls as [|l ls IH]; intros r H; [done|]. cbn [ref_lines].
  pose proof (ref_line_no_body b r l H) as H1.
  destruct (ref_line r l) as [[| |st] r1]; [by apply IH|done|done].
Qed.

Lemma OnReadable_total (r : t) (c : bytes) :
  exists st r', OnReadable r c = Some (st, r') /\ forall b, no_body b r -> no_body b r'.
Proof.
  unfold OnReadable. case_test; [by eexists _, _|]. case_test; [by eexists _, _|].
  match goal with |- context [is_read_over ?x] =>
    destruct (is_read_over_frame x) as (ov & ss & -> & Hs) end.
  destruct ov; simpl; [|by eexists _, _].
  match goal with |- context [parse_buffered ?x] =>
    destruct (parse_buffered_spec x (SStream.buf ss) (Hs eq_refl) eq_refl) as (ss' & o & r' & Hl & ->) end.
  eexists _, _. split; [done|]. intros b Hb. change (no_body b r').
  replace r' with (snd (o, r')) by done. rewrite <- Hl. by apply ref_lines_no_body.
Qed.

(** [OnReadable] returns on every state and every input.  The body phase is
    never entered and [body_params] is never filled, whatever the method: at the
    blank line both branches of the test for [POST] end the parse. *)
Theorem OnReadable_returns_without_body (r : t) (c : bytes) :
  exists st r', OnReadable r c = Some (st, r') /\
    (parse_part r <> PARSE_REQ_BODY ->
     parse_part r' <> PARSE_REQ_BODY /\ body_params r' = body_params r).
Proof.
  destruct (OnReadable_total r c) as (st & r' & E & Hb). exists st, r'. split; [done|].
  intros Hp. by apply Hb.
Qed.

(** *** Well-formed requests *)

Definition render_header (h : bytes * bytes) : bytes := fst h ++ lit ": " ++ snd h ++ [CR].

Definition render_lines (m u v : bytes) (hs : smap) : list bytes :=
  (m ++ " "%char :: u ++ " "%char :: v ++ [CR]) :: (render_header <$> hs) ++ [[CR]; []].

(** The text of a request with the headers [hs] and no body. *)
Definition render (m u v : bytes) (hs : smap) : bytes := SStream.join LF (render_lines m u v hs).

Definition clean (ds : list ascii) (s : bytes) : Prop := Forall (fun c => c ∉ ds) s.

#[global] Instance clean_dec ds s : Decision (clean ds s).
Proof. unfold clean. apply _. Defined.

Record well_formed (m u v : bytes) (hs : smap) : Prop := {
  wf_method : m = lit "GET" \/ m = lit "POST";
  wf_url : clean [" "%char; LF] u;
  wf_version : clean [" "%char; LF] v;
  wf_headers : Forall (fun h => clean [":"%char; LF] (fst h) /\ clean [":"%char; LF] (snd h) /\
                                trim (fst h) = fst h /\ trim (snd h) = snd h) hs;
  wf_size : vlen (render m u v hs) <= MAX_REQUEST_SIZE;
}.

#[global] Instance well_formed_dec m u v hs : Decision (well_formed m u v hs).
Proof.
  refine (cast_if (decide ((m = lit "GET" \/ m = lit "POST") /\ clean [" "%char; LF] u /\
    clean [" "%char; LF] v /\
    Forall (fun h => clean [":"%char; LF] (fst h) /\ clean [":"%char; LF] (snd h) /\
                                trim (fst h) = fst h /\ trim (snd h) = snd h) hs /\
    vlen (render m u v hs) <= MAX_REQUEST_SIZE)));
  [abstract (constructor; naive_solver)|abstract (intros []; naive_solver)].
Defined.

Lemma clean_not_elem ds d s : clean ds s -> d ∈ ds -> d ∉ s.
Proof. intros H Hd Hs. by apply (proj1 (Forall_forall _ _) H d Hs). Qed.

Lemma trim_rendered_value x : trim x = x -> trim (" "%char :: x ++ [CR]) = x.
Proof.
  intros H. assert (rtrim (" "%char :: x ++ [CR]) = rtrim (" "%char :: x)) as E.
  { unfold rtrim. change (" "%char :: x ++ [CR]) with ((" "%char :: x) ++ [CR]).
    rewrite reverse_snoc. done. }
  unfold trim. rewrite E. destruct x as [|a x]; [done|].
  assert (" "%char :: a :: x = rtrim (" "%char :: a :: x)) as <-.
  { unfold rtrim. rewrite (ltrim_fix (reverse (" "%char :: a :: x))); [by rewrite reverse_involutive|].
    intros c s' Ec. destruct (exists_last (l := a :: x)) as (y & z & Ey); [done|].
    rewrite Ey in *. rewrite reverse_cons, reverse_snoc in Ec. injection Ec as -> _.
    by apply (trim_last (y ++ [c]) y). }
  simpl. rewrite <- H at 2. pose proof (trim_first (a :: x) a x H) as Ha. by rewrite Ha.
Qed.

Lemma ref_lines_headers hs ls r :
  parse_part r = PARSE_REQ_HEAD ->
  Forall (fun h => clean [":"%char; LF] (fst h) /\ clean [":"%char; LF] (snd h) /\
                   trim (fst h) = fst h /\ trim (snd h) = snd h) hs ->
  ref_lines r ((render_header <$> hs) ++ ls) =
    ref_lines (set_headers (store_all StdMap.assign (headers r) hs) r) ls.
Proof.
  intros Hp Hhs. revert r Hp. induction Hhs as [|[n x] hs (Hn & Hx & Tn & Tx) _ IH]; intros r Hp;
    simpl in *; [by destruct r|].
  assert (ref_line r (render_header (n, x)) = (Continue, set_headers (StdMap.assign n x (headers r)) r)) as ->.
  { unfold ref_line, render_header. simpl. rewrite decide_False.
    2:{ intros E. destruct n; [done|]. apply (f_equal length) in E. simpl in E.
        rewrite !length_app in E. simpl in E. lia. }
    rewrite Hp, decide_False by (by destruct n).
    rewrite SStream.split_app by (eapply clean_not_elem; [done|set_solver]).
    rewrite SStream.split_single.
    2:{ pose proof (clean_not_elem _ ":"%char _ Hx ltac:(set_solver)). rewrite not_elem_of_cons, not_elem_of_app.
        set_solver. }
    simpl. by rewrite Tn, trim_rendered_value. }
  rewrite IH by done. done.
Qed.

Lemma ref_lines_rendered m u v hs r :
  well_formed m u v hs -> parse_part r = PARSE_REQ_LINE ->
  ref_lines r (render_lines m u v hs) =
    let '(i, ps) := ref_url u (url_params r) in
    (None, set_part PARSE_REQ_OVER
             (set_headers (store_all StdMap.assign (headers r) hs) (set_line m u i (v ++ [CR]) ps r))).
Proof.
  intros Hwf Hp. pose proof (wf_url _ _ _ _ Hwf) as Hu. pose proof (wf_version _ _ _ _ Hwf) as Hv.
  assert (" "%char ∉ m) as Hm by (destruct (wf_method _ _ _ _ Hwf) as [-> | ->]; apply (bool_decide_unpack _); done).
  unfold render_lines. cbn [ref_lines].
  destruct (ref_url u (url_params r)) as [i ps] eqn:Eu.
  assert (ref_line r (m ++ " "%char :: u ++ " "%char :: v ++ [CR]) =
    (Continue, set_part PARSE_REQ_HEAD (set_line m u i (v ++ [CR]) ps r))) as ->.
  { unfold ref_line, ref_request_line. rewrite decide_False.
    2:{ intros E. apply (f_equal length) in E. rewrite length_app in E. simpl in E. rewrite length_app in E. simpl in E. lia. }
    rewrite Hp, SStream.split_app by done.
    rewrite SStream.split_app by (eapply clean_not_elem; [done|set_solver]).
    rewrite SStream.split_single by
      (pose proof (clean_not_elem _ " "%char _ Hv ltac:(set_solver)); set_solver).
    rewrite Eu. rewrite decide_True; [done|]. split; [done|]. simpl. destruct (wf_method _ _ _ _ Hwf); eauto. }
  rewrite ref_lines_headers by (done || apply (wf_headers _ _ _ _ Hwf)). done.
Qed.

Lemma render_lines_no_LF m u v hs :
  well_formed m u v hs -> Forall (fun l => LF ∉ l) (render_lines m u v hs).
Proof.
  intros Hwf. destruct (wf_method _ _ _ _ Hwf) as [-> | ->];
  (pose proof (clean_not_elem _ LF _ (wf_url _ _ _ _ Hwf) ltac:(set_solver));
   pose proof (clean_not_elem _ LF _ (wf_version _ _ _ _ Hwf) ltac:(set_solver));
   constructor; [unfold LF, CR, lit in *; cbn; set_solver|];
   apply Forall_app; split; [|repeat constructor; set_solver];
   apply Forall_fmap, (Forall_impl _ _ _ (wf_headers _ _ _ _ Hwf)); intros [n x] (Hn & Hx & _); simpl in *;
   apply (clean_not_elem _ LF) in Hn; [|set_solver]; apply (clean_not_elem _ LF) in Hx; [|set_solver];
   unfold render_header, LF, CR, lit in *; cbn; set_solver).
Qed.

Lemma join_snoc2 d ls a b : ls <> [] -> exists s, SStream.join d (ls ++ [a; b]) = s ++ d :: a ++ d :: b /\
  SStream.join d ls = s.
Proof.
  induction ls as [|l ls IH]; intros Hne; [done|]. destruct ls as [|l' ls].
  - exists l. done.
  - destruct IH as (s & E & Es); [done|]. exists (l ++ d :: s). cbn [app SStream.join] in *.
    rewrite E. split; [by rewrite <- app_assoc|by rewrite Es].
Qed.

Lemma join_last_suffix d ls a x : exists s, SStream.join d (ls ++ [a ++ [x]]) = s ++ [x].
Proof.
  induction ls as [|l ls (s & E)]; [by exists a|]. exists (l ++ d :: s).
  cbn [app SStream.join]. destruct (ls ++ [a ++ [x]]) as [|y ys] eqn:Ey; [by destruct ls|].
  rewrite E. by rewrite <- app_assoc.
Qed.

Lemma render_ends_over m u v hs : ends_over (render m u v hs).
Proof.
  unfold render, render_lines. rewrite app_comm_cons.
  set (req := m ++ _). set (ls := req :: _).
  destruct (join_snoc2 LF ls [CR] []) as (s & -> & E); [done|].
  assert (exists s', s = s' ++ [CR]) as (s' & ->).
  { subst s. unfold ls, req. destruct hs as [|h hs] using rev_ind.
    - eexists (m ++ " "%char :: u ++ " "%char :: v). simpl. rewrite <- app_assoc. simpl. by rewrite <- app_assoc.
    - rewrite fmap_app, app_comm_cons. cbn [fmap list_fmap].
      assert (render_header h = (fst h ++ lit ": " ++ snd h) ++ [CR]) as ->
        by (unfold render_header; by rewrite <- !app_assoc).
      apply join_last_suffix. }
  rewrite <- app_assoc. unfold ends_over. rewrite length_app. simpl. split; [lia|].
  replace (length s' + 4 - 4)%nat with (length s') by lia. apply drop_app_length.
Qed.

(** *** Only the whole request looks complete *)

(** Lines other than the empty one, then the empty line. *)
Definition closed_lines (ls : list bytes) : bytes := mjoin ((fun l => l ++ [LF]) <$> ls) ++ [CR; LF].

Lemma closed_lines_starts_blank ls k :
  Forall (fun l => LF ∉ l /\ l <> [CR]) ls -> closed_lines ls = CR :: LF :: k -> k = [].
Proof.
  intros Hls E. destruct ls as [|l ls]; unfold closed_lines in E; simpl in E; [by simplify_eq|].
  apply Forall_cons in Hls as [[Hl Hcr] _]. destruct l as [|c [|c2 l]]; simpl in E; simplify_eq. set_solver.
Qed.

(** A blank line in it is its end. *)
Lemma closed_lines_blank ls : forall x k,
  Forall (fun l => LF ∉ l /\ l <> [CR]) ls -> closed_lines ls = x ++ LF :: CR :: LF :: k -> k = [].
Proof.
  induction ls as [|l ls IH]; intros x k Hls E.
  { unfold closed_lines in E. simpl in E. apply (f_equal length) in E. rewrite length_app in E. simpl in E. lia. }
  apply Forall_cons in Hls as [[Hl Hcr] Hls].
  assert (l ++ LF :: closed_lines ls = x ++ LF :: CR :: LF :: k) as E'.
  { rewrite <- E. unfold closed_lines. simpl. by rewrite <- !app_assoc. }
  apply app_eq_inv in E' as [(y & -> & E')|(y & -> & E')]; destruct y as [|c y]; simpl in E';
    [injection E' as E1|injection E' as E0 E1|injection E' as E1|injection E' as E0 E1].
  - by eapply closed_lines_starts_blank.
  - subst. set_solver.
  - by eapply closed_lines_starts_blank.
  - by eapply IH.
Qed.

Lemma render_closed_lines m u v hs :
  render m u v hs = closed_lines ((m ++ " "%char :: u ++ " "%char :: v ++ [CR]) :: (render_header <$> hs)).
Proof.
  unfold render, render_lines, closed_lines. generalize (m ++ " "%char :: u ++ " "%char :: v ++ [CR]) as l.
  generalize (render_header <$> hs) as ls. intros ls. induction ls as [|l' ls IH]; intros l.
  - cbn. by rewrite <- !app_assoc.
  - specialize (IH l'). simpl in *. rewrite IH. by rewrite <- !app_assoc.
Qed.

(** However a well-formed request is cut, it does not look complete before its
    last byte. *)
Lemma render_waits m u v hs s k :
  well_formed m u v hs -> render m u v hs = s ++ k -> ends_over s -> k = [].
Proof.
  intros Hwf E [Hlen Hd]. rewrite render_closed_lines in E.
  rewrite <- (take_drop (length s - 4) s), Hd, <- app_assoc in E. unfold TERMINATOR in E. simpl in E.
  apply (closed_lines_blank ((m ++ " "%char :: u ++ " "%char :: v ++ [CR]) :: (render_header <$> hs))
    (take (length s - 4) s ++ [CR])); [|by rewrite E, <- app_assoc].
  destruct Hwf as [Hm Hu Hv Hhs _]. constructor.
  - split.
    + intros Hin. pose proof (clean_not_elem _ LF _ Hu ltac:(set_solver)).
      pose proof (clean_not_elem _ LF _ Hv ltac:(set_solver)).
      assert (LF ∉ m) by (destruct Hm as [-> | ->]; apply (bool_decide_unpack _); vm_compute; exact I).
      rewrite elem_of_app, elem_of_cons, elem_of_app, elem_of_cons, elem_of_app in Hin.
      destruct Hin as [?|[?|[?|[?|[?|?%list_elem_of_singleton]]]]]; done.
    + destruct Hm as [-> | ->]; done.
  - apply Forall_fmap. eapply Forall_impl; [exact Hhs|]. intros [n x] (Hn & Hx & _). simpl in *. unfold render_header. simpl.
    split.
    + pose proof (clean_not_elem _ LF _ Hn ltac:(set_solver)). pose proof (clean_not_elem _ LF _ Hx ltac:(set_solver)).
      intros [?|[?|[?|[?|?%list_elem_of_singleton]%elem_of_app]%elem_of_cons]%elem_of_cons]%elem_of_app; done.
    + destruct n as [|c n]; simpl; [done|]. intros [= _ E2]. apply (f_equal length) in E2.
      rewrite !length_app in E2. simpl in E2. lia.
Qed.

Lemma rendered_request_read (m u v : bytes) (hs : smap) :
  well_formed m u v hs ->
  exists r, OnReadable make (render m u v hs) = Some (READ_OVER, r) /\
    method r = m /\ url r = u /\ (uri r, url_params r) = ref_url u [] /\
    http_version r = v ++ [CR] /\
    (forall k, StdMap.find k (headers r) = snd <$> last (base.filter (fun h => fst h = k) hs)) /\
    parse_part r = PARSE_REQ_OVER.
Proof.
  intros Hwf. pose proof (OnReadable_waiting make [] (render m u v hs) waiting_make (wf_size _ _ _ _ Hwf)) as H.
  simpl in H. rewrite decide_True in H by apply render_ends_over. rewrite H. clear H.
  destruct (parse_buffered_spec (ready (render m u v hs)) (render m u v hs)) as (ss & o & r' & El & ->);
    [split_and!; [done|done|simpl; lia]|done|].
  unfold render in El at 2. rewrite SStream.split_join in El; [|done|by apply render_lines_no_LF].
  rewrite ref_lines_rendered in El by done.
  simpl in El. destruct (ref_url u []) as [i ps] eqn:Eu. injection El as <- <-.
  eexists. split; [done|]. simpl. split_and!; try done.
  intros k. rewrite find_store_all. simpl. by destruct (snd <$> _).
Qed.

(** C7: a well-formed [GET] or [POST] request (url and version without spaces, header
    names and values trimmed and without colons, no more than [MAX_REQUEST_SIZE] bytes)
    received on a fresh connection is read completely, and its method, URL, path and
    query parameters are recovered, and one entry per header, the last of equal names
    winning. *)
Theorem request_round_trip (m u v : bytes) (hs : smap) :
  well_formed m u v hs ->
  exists r, OnReadable make (render m u v hs) = Some (READ_OVER, r) /\
    method r = m /\ url r = u /\ (uri r, url_params r) = ref_url u [] /\
    (forall k, StdMap.find k (headers r) = snd <$> last (base.filter (fun h => fst h = k) hs)) /\
    parse_part r = PARSE_REQ_OVER.
Proof.
  intros Hwf. destruct (rendered_request_read m u v hs Hwf) as (r & E & ? & ? & ? & _ & ?). by exists r.
Qed.

(** C40: the version is not recovered: it keeps the carriage return that ends the
    request line, for every well-formed request. *)
Theorem version_keeps_carriage_return (m u v : bytes) (hs : smap) :
  well_formed m u v hs ->
  exists r, OnReadable make (render m u v hs) = Some (READ_OVER, r) /\ http_version r = v ++ [CR].
Proof.
  intros Hwf. destruct (rendered_request_read m u v hs Hwf) as (r & E & _ & _ & _ & ? & _). by exists r.
Qed.

Lemma version_keeps_carriage_return_witness :
  exists r, OnReadable make (render (lit "GET") (lit "/a") (lit "HTTP/1.1") [(lit "Host", lit "localhost")])
    = Some (READ_OVER, r) /\ http_version r = lit "HTTP/1.1" ++ [CR].
Proof.
  apply (version_keeps_carriage_return (lit "GET") (lit "/a") (lit "HTTP/1.1") [(lit "Host", lit "localhost")]).
  constructor; apply (bool_decide_unpack _); vm_compute; exact I.
Defined.

Lemma request_round_trip_witness :
  exists r, OnReadable make (render (lit "GET") (lit "/a?x=1&y=2") (lit "HTTP/1.1")
              [(lit "Host", lit "localhost"); (lit "Accept", lit "*/*")]) = Some (READ_OVER, r) /\
    method r = lit "GET" /\ url r = lit "/a?x=1&y=2" /\
    (uri r, url_params r) = ref_url (lit "/a?x=1&y=2") [] /\
    (forall k, StdMap.find k (headers r) =
       snd <$> last (base.filter (fun h => fst h = k)
                       [(lit "Host", lit "localhost"); (lit "Accept", lit "*/*")])) /\
    parse_part r = PARSE_REQ_OVER.
Proof.
  apply (request_round_trip (lit "GET") (lit "/a?x=1&y=2") (lit "HTTP/1.1")
           [(lit "Host", lit "localhost"); (lit "Accept", lit "*/*")]).
  constructor; apply (bool_decide_unpack _); vm_compute; exact I.
Defined.

(** A header value stops at its first [':']: the port of a [Host] header is
    dropped. *)
Theorem header_value_cut_at_colon :
  exists r, OnReadable make (render (lit "GET") (lit "/") (lit "HTTP/1.1")
              [(lit "Host", lit "localhost:8080")]) = Some (READ_OVER, r) /\
    StdMap.find (lit "Host") (headers r) = Some (lit "localhost").
Proof. eexists. split; vm_compute; reflexivity. Qed.

End HttpRequest.
