(* ===== verification/HttpResponse.v ===== *)
(** * http/http_server/http_response.{h,cpp}

    [struct HttpResponse]: the response fields and the buffer the bytes to send
    are read from. *)

From S2P Require Import Prelude Decimal StdMap SStream EpollTypes.

Module HttpResponse.

Record StatusLine := mkStatusLine { stauts_code : Z; msg : bytes }.

Definition STATUS_OK := mkStatusLine 200 (lit "OK").
Definition STATUS_NOT_FOUND := mkStatusLine 404 (lit "Not Found").
Definition STATUS_METHOD_NOT_ALLOWED := mkStatusLine 405 (lit "Method Not Allowed").

Record t := mk {
  status_line : StatusLine;
  headers : list (bytes * bytes);
  body : bytes;
  is_writted : bool;
  resp_buff_ : SStream.t;
}.

Definition make : t := mk STATUS_OK [] [] false SStream.empty.

Definition set_status (s : StatusLine) (b : bytes) (r : t) : t :=
  mk s (headers r) b (is_writted r) (resp_buff_ r).
Definition set_writted (w : bool) (r : t) : t :=
  mk (status_line r) (headers r) (body r) w (resp_buff_ r).
Definition set_buff (ss : SStream.t) (r : t) : t :=
  mk (status_line r) (headers r) (body r) (is_writted r) ss.

(** The status, the bytes put into [buffer], [*write_size] and the new state. *)
Definition OnWriteable (is_keepalive : bool) (buffer_size : Z) (r : t) : WriteStatus * bytes * Z * t :=
  let '(s, ss) := SStream.read (resp_buff_ r) (Z.to_nat buffer_size) in
  let r1 := set_buff ss r in
  let write_size := SStream.gcount ss in
  if negb (SStream.eof ss) then (WRITE_CONTINUE, s, write_size, r1)
  else if is_keepalive then (WRITE_ALIVE, s, write_size, r1)
  else (WRITE_OVER, s, write_size, r1).

Definition crlf : bytes := [CR; LF].

(** The operands of the successive [<<]. *)
Definition response_items (http_version : bytes) (is_keepalive : bool) (r : t) : list bytes :=
  [http_version; lit " "; Decimal.to_string (stauts_code (status_line r)); lit " ";
   msg (status_line r); crlf; lit "Server: http_server/0.1"; crlf] ++
  (if StdMap.find (lit "Content-Type") (headers r) then []
   else [lit "Content-Type: application/json; charset=UTF-8"; crlf]) ++
  [lit "Content-Length: "; Decimal.to_string (vlen (body r)); crlf] ++
  (if is_keepalive then [lit "COnnection: Keep-Alive"; crlf] else [lit "Connection: close"; crlf]) ++
  mjoin ((fun h => [fst h; lit ": "; snd h; crlf]) <$> headers r) ++
  [crlf; body r].

Definition ExportBuffer2Response (http_version : bytes) (is_keepalive : bool) (r : t) : Z * t :=
  (0, set_buff (foldl SStream.write (resp_buff_ r) (response_items http_version is_keepalive r)) r).

Definition Rollback (size : Z) (r : t) : Z * t :=
  let ss1 := if SStream.eof (resp_buff_ r) then SStream.clear (resp_buff_ r) else resp_buff_ r in
  let '(pos, ss2) := SStream.tellg ss1 in
  let rollback_pos := i32 (i32 pos - size) in
  let ss3 := SStream.seekg ss2 rollback_pos in
  (if SStream.good ss3 then 0 else -1, set_buff ss3 r).

(** ** What the buffer holds *)

Definition response_text (http_version : bytes) (is_keepalive : bool) (r : t) : bytes :=
  mjoin (response_items http_version is_keepalive r).

Lemma foldl_write ss ls :
  SStream.good ss = true ->
  foldl SStream.write ss ls =
    SStream.mk (SStream.buf ss ++ mjoin ls) (SStream.gpos ss) false false (SStream.gcount ss).
Proof.
  revert ss. induction ls as [|l ls IH]; intros ss Hg; simpl.
  - apply SStream.good_true in Hg as [H1 H2]. rewrite app_nil_r. destruct ss; simpl in *; by subst.
  - unfold SStream.write at 2. rewrite Hg. simpl. apply SStream.good_true in Hg as [-> ->].
    rewrite IH by done. simpl. by rewrite <- app_assoc.
Qed.

Lemma Export_fresh v k r :
  resp_buff_ r = SStream.empty ->
  ExportBuffer2Response v k r =
    (0, set_buff (SStream.of_bytes (response_text v k r)) r).
Proof. intros E. unfold ExportBuffer2Response. rewrite E, foldl_write by done. done. Qed.

(** [sent] has gone out and the buffer stands right after it. *)
Definition sending (text sent : bytes) (r : t) : Prop :=
  exists e, resp_buff_ r = SStream.mk text (length sent) e e (SStream.gcount (resp_buff_ r)) /\
    exists rest, text = sent ++ rest.

(** Reading the next piece. *)
Lemma OnWriteable_sending text sent rest k n r :
  resp_buff_ r = SStream.mk text (length sent) false false (SStream.gcount (resp_buff_ r)) ->
  text = sent ++ rest -> 0 <= n ->
  let chunk := take (Z.to_nat n) rest in
  let short := bool_decide (vlen rest < n) in
  OnWriteable k n r =
    (if short then if k then WRITE_ALIVE else WRITE_OVER else WRITE_CONTINUE, chunk, vlen chunk,
     set_buff (SStream.mk text (length sent + length chunk) short short (vlen chunk)) r).
Proof.
  intros E -> Hn chunk short. unfold OnWriteable. rewrite E. unfold SStream.read, SStream.rest; simpl.
  rewrite drop_app_length. fold chunk.
  assert (bool_decide (length chunk < Z.to_nat n)%nat = short) as ->.
  { unfold chunk, short, vlen. apply bool_decide_ext. rewrite length_take. lia. }
  unfold SStream.eof; simpl. by destruct short, k.
Qed.

(** Going back over the bytes the kernel did not take. *)
Lemma Rollback_sending text p e c size r :
  resp_buff_ r = SStream.mk text p e e c -> (p <= length text)%nat -> vlen text < 2 ^ 31 ->
  0 <= size <= Z.of_nat p ->
  Rollback size r = (0, set_buff (SStream.mk text (p - Z.to_nat size) false false c) r).
Proof.
  intros E Hp Ht Hs. unfold Rollback, vlen in *. rewrite E. unfold SStream.eof, SStream.clear; simpl.
  assert ((if e then SStream.mk text p false false c else SStream.mk text p e e c) =
    SStream.mk text p false false c) as -> by by destruct e.
  unfold SStream.tellg; simpl. rewrite !wraps_id by (unfold in_s; rewrite ?wraps_id; unfold in_s; lia).
  unfold SStream.seekg; simpl. unfold vlen.
  rewrite (proj2 (Z.leb_le 0 _)), (proj2 (Z.leb_le _ (Z.of_nat (length text)))) by lia. simpl.
  by replace (Z.to_nat (Z.of_nat p - size)) with (p - Z.to_nat size)%nat by lia.
Qed.

End HttpResponse.
