(* ===== verification/HttpHandler.v ===== *)
(** * http/http_server/http_epoll_event_handler.{h,cpp}

    [HttpContext], one per connection, and [HttpEpollEventHandler].  The contexts
    live on a heap, a finite map from addresses; dereferencing an address that
    is not allocated is [None].  The address [new] returns, the result of [send]
    and what a registered callback does to the request and the response it is
    given are inputs: a callback may have side effects and share state with others,
    and need not do the same twice. *)

From S2P Require Import Prelude StdMap SStream EpollTypes HttpRequest HttpResponse.

Module HttpHandler.

(** [void ( *HttpHandler)(HttpRequest*, HttpResponse* )]: the address of a function. *)
Definition HttpHandler : Type := Z.

(** What the functions do when they are called this time. *)
Definition calls : Type :=
  HttpHandler -> HttpRequest.t -> HttpResponse.t -> HttpRequest.t * HttpResponse.t.

Record HttpContext := mkHttpContext {
  req : HttpRequest.t;
  resp : HttpResponse.t;
  ctx_fd : Z;
}.

Definition newHttpContext (fd : Z) : HttpContext :=
  mkHttpContext HttpRequest.make HttpResponse.make fd.

Definition Clear (c : HttpContext) : HttpContext :=
  mkHttpContext HttpRequest.make HttpResponse.make (ctx_fd c).

Record t := mk {
  uri2handler : list (bytes * HttpHandler);
  heap : gmap Z HttpContext;
}.

Definition set_heap (hp : gmap Z HttpContext) (h : t) : t := mk (uri2handler h) hp.

Abbreviation context := (EpollEventContext Z).

Definition set_data (p : Z) (ctx : context) : context :=
  mkEpollEventContext (Some p) (fd ctx) (client_ip ctx).

(** [ctx->data_ptr] dereferenced *)
Definition deref (h : t) (ctx : context) : option (Z * HttpContext) :=
  p ← data_ptr ctx; c ← heap h !! p; Some (p, c).

Definition OnAccept (h : t) (ctx : context) (addr : Z) : Z * context * t :=
  (0, set_data addr ctx, set_heap (<[addr := newHttpContext (fd ctx)]> (heap h)) h).

Definition handle_http_request (call : calls) (h : t) (rq : HttpRequest.t) (rs : HttpResponse.t)
  : Z * HttpRequest.t * HttpResponse.t :=
  let uri := HttpRequest.uri rq in
  match StdMap.find uri (uri2handler h) with
  | None =>
      (0, rq, HttpResponse.set_status HttpResponse.STATUS_NOT_FOUND
                (HttpResponse.msg HttpResponse.STATUS_NOT_FOUND) rs)
  | Some f =>
      let rs1 :=
        if decide (HttpRequest.method rq <> lit "POST" /\ HttpRequest.method rq <> lit "GET")
        then HttpResponse.set_status HttpResponse.STATUS_METHOD_NOT_ALLOWED
               (HttpResponse.msg HttpResponse.STATUS_METHOD_NOT_ALLOWED) rs
        else rs in
      let '(rq2, rs2) := call f rq rs1 in (0, rq2, rs2)
  end.

Definition OnReadable (h : t) (ctx : context) (read_buffer : bytes) (call : calls)
  : option (ReadStatus * context * t) :=
  '(p, c) ← deref h ctx;
  '(read_ret, rq) ← HttpRequest.OnReadable (req c) read_buffer;
  if decide (read_ret <> READ_OVER) then
    Some (read_ret, ctx, set_heap (<[p := mkHttpContext rq (resp c) (ctx_fd c)]> (heap h)) h)
  else
    let '(_, rq2, rs2) := handle_http_request call h rq (resp c) in
    Some (READ_OVER, ctx, set_heap (<[p := mkHttpContext rq2 rs2 (ctx_fd c)]> (heap h)) h).

Definition is_keepalive (rq : HttpRequest.t) : bool * HttpRequest.t :=
  let '(v, hs) := StdMap.subscript [] (lit "Connection") (HttpRequest.headers rq) in
  (bool_decide (v = lit "keep-alive"), HttpRequest.set_headers hs rq).

(** [send] maps the descriptor and the bytes offered to what [::send] returns;
    the second result is what the kernel took. *)
Definition OnWriteable (h : t) (ctx : context) (send : Z -> bytes -> Z)
  : option (WriteStatus * bytes * t) :=
  '(p, c) ← deref h ctx;
  let socket_fd := ctx_fd c in
  let '(keep, rq) := is_keepalive (req c) in
  let rs1 :=
    if negb (HttpResponse.is_writted (resp c))
    then HttpResponse.set_writted true
           (snd (HttpResponse.ExportBuffer2Response (HttpRequest.http_version rq) keep (resp c)))
    else resp c in
  let '(write_ret, buffer, write_size, rs2) :=
    HttpResponse.OnWriteable keep EPOLL_SOCKET_WRITE_BUFFER_SIZE rs1 in
  let n_write := send socket_fd buffer in
  if n_write <? 0 then
    Some (WRITE_ERROR, [], set_heap (<[p := mkHttpContext rq rs2 socket_fd]> (heap h)) h)
  else
    let rs3 := if n_write <? write_size
               then snd (HttpResponse.Rollback (write_size - n_write) rs2) else rs2 in
    let c1 := mkHttpContext rq rs3 socket_fd in
    let c2 := if bool_decide (write_ret = WRITE_ALIVE) && (0 <? n_write) then Clear c1 else c1 in
    Some (write_ret, take (Z.to_nat n_write) buffer, set_heap (<[p := c2]> (heap h)) h).

Definition OnClose (h : t) (ctx : context) : option (Z * t) :=
  match data_ptr ctx with
  | None => Some (0, h)
  | Some p => _ ← heap h !! p; Some (0, set_heap (delete p (heap h)) h)
  end.

(** ** Sending a response *)

(** The event loop's side: one [OnWriteable] per writable event, until the status
    is no longer [WRITE_CONTINUE]. *)
Fixpoint pump (h : t) (ctx : context) (sends : list (Z -> bytes -> Z))
  : option (WriteStatus * bytes * t) :=
  match sends with
  | [] => Some (WRITE_CONTINUE, [], h)
  | send :: sends' =>
      '(st, s, h1) ← OnWriteable h ctx send;
      if decide (st = WRITE_CONTINUE) then
        '(st', s', h2) ← pump h1 ctx sends'; Some (st', s ++ s', h2)
      else Some (st, s, h1)
  end.

(** What [send] may answer, apart from an error. *)
Definition legal (send : Z -> bytes -> Z) : Prop := forall fd s, 0 <= send fd s <= vlen s.

Definition send_all : Z -> bytes -> Z := fun _ s => vlen s.

(** The next piece of what is left, and what follows it. *)
Definition chunk_of (rest : bytes) : bytes := take (Z.to_nat EPOLL_SOCKET_WRITE_BUFFER_SIZE) rest.
Definition after_chunk (rest : bytes) : bytes := drop (Z.to_nat EPOLL_SOCKET_WRITE_BUFFER_SIZE) rest.

Abbreviation W := EPOLL_SOCKET_WRITE_BUFFER_SIZE.

Lemma W_pos : 0 < W.
Proof. done. Qed.

Lemma take_W rest : take (Z.to_nat W) rest = chunk_of rest.
Proof. done. Qed.

Lemma vlen_chunk_of rest : vlen (chunk_of rest) = Z.min W (vlen rest).
Proof. pose proof W_pos. unfold chunk_of, vlen. rewrite length_take. lia. Qed.

Lemma vlen_after_chunk rest : W <= vlen rest -> vlen (after_chunk rest) = vlen rest - 1 * W.
Proof. pose proof W_pos. unfold after_chunk, vlen. rewrite length_drop. lia. Qed.

Lemma chunk_of_after rest : chunk_of rest ++ after_chunk rest = rest.
Proof. apply take_drop. Qed.

Lemma chunk_of_short rest : vlen rest < W -> chunk_of rest = rest.
Proof. unfold chunk_of, vlen. intros H. apply take_ge. lia. Qed.

#[local] Opaque EPOLL_SOCKET_WRITE_BUFFER_SIZE.
#[local] Arguments chunk_of : simpl never.
#[local] Arguments after_chunk : simpl never.

(** The response that [OnWriteable] is going to send from a context. *)
Definition text_of (c : HttpContext) : bytes :=
  HttpResponse.response_text (HttpRequest.http_version (req c)) (fst (is_keepalive (req c))) (resp c).

(** [c] belongs to a response [text] of which [sent] has gone out. *)
Definition mid_response (text sent : bytes) (keep : bool) (c : HttpContext) : Prop :=
  fst (is_keepalive (req c)) = keep /\
  ((HttpResponse.is_writted (resp c) = false /\ HttpResponse.resp_buff_ (resp c) = SStream.empty /\
      sent = [] /\ text_of c = text) \/
   (HttpResponse.is_writted (resp c) = true /\
      exists g, HttpResponse.resp_buff_ (resp c) = SStream.mk text (length sent) false false g)).

Lemma is_keepalive_idem rq : is_keepalive (snd (is_keepalive rq)) = is_keepalive rq.
Proof.
  unfold is_keepalive, StdMap.subscript.
  destruct (StdMap.find (lit "Connection") (HttpRequest.headers rq)) as [v|] eqn:E.
  - cbn [snd HttpRequest.set_headers HttpRequest.headers]. by rewrite E.
  - cbn [snd HttpRequest.set_headers HttpRequest.headers].
    by rewrite StdMap.find_assign, decide_True by done.
Qed.

Lemma is_keepalive_version rq : HttpRequest.http_version (snd (is_keepalive rq)) = HttpRequest.http_version rq.
Proof. unfold is_keepalive. by destruct (StdMap.subscript _ _ _). Qed.

Lemma is_keepalive_part rq : HttpRequest.parse_part (snd (is_keepalive rq)) = HttpRequest.parse_part rq.
Proof. unfold is_keepalive. by destruct (StdMap.subscript _ _ _). Qed.

(** The response [OnWriteable] works on, once exported. *)
Definition exported (c : HttpContext) : HttpResponse.t :=
  let '(keep, rq) := is_keepalive (req c) in
  if negb (HttpResponse.is_writted (resp c))
  then HttpResponse.set_writted true
         (snd (HttpResponse.ExportBuffer2Response (HttpRequest.http_version rq) keep (resp c)))
  else resp c.

Lemma exported_mid text sent keep c :
  mid_response text sent keep c ->
  HttpResponse.is_writted (exported c) = true /\
  exists g, HttpResponse.resp_buff_ (exported c) = SStream.mk text (length sent) false false g.
Proof.
  intros [Hk [(Hw & Hb & -> & <-)|(Hw & g & Hg)]]; unfold exported, text_of in *.
  - pose proof (is_keepalive_version (req c)) as Hv. destruct (is_keepalive (req c)) as [k rq]; cbn [fst snd] in *.
    rewrite Hw. cbn [negb]. rewrite HttpResponse.Export_fresh, Hv by done. simpl. eauto.
  - destruct (is_keepalive (req c)) as [k rq]. rewrite Hw. simpl. eauto.
Qed.

(** What the response holds after [send] took [n] bytes of the chunk. *)
Definition settled (rs : HttpResponse.t) (text : bytes) (pos : nat) (g : Z) (short : bool) (len n : Z)
  : HttpResponse.t :=
  if n <? len then HttpResponse.set_buff (SStream.mk text (pos + Z.to_nat n) false false g) rs
  else HttpResponse.set_buff (SStream.mk text (pos + Z.to_nat len) short short g) rs.

Lemma OnWriteable_step h ctx p c text sent rest keep send :
  data_ptr ctx = Some p -> heap h !! p = Some c -> mid_response text sent keep c ->
  text = sent ++ rest -> vlen text < 2 ^ 31 -> legal send ->
  let chunk := chunk_of rest in
  let n := send (ctx_fd c) chunk in
  let short := bool_decide (vlen rest < W) in
  let st := if short then if keep then WRITE_ALIVE else WRITE_OVER else WRITE_CONTINUE in
  let c1 := mkHttpContext (snd (is_keepalive (req c)))
              (settled (exported c) text (length sent) (vlen chunk) short (vlen chunk) n) (ctx_fd c) in
  OnWriteable h ctx send =
    Some (st, take (Z.to_nat n) chunk,
      set_heap (<[p := if bool_decide (st = WRITE_ALIVE) && (0 <? n) then Clear c1 else c1]> (heap h)) h).
Proof.
  intros Hp Hc Hm Ht Hlt Hs chunk n short st c1.
  pose proof (exported_mid _ _ _ _ Hm) as (_ & g & Hg). destruct Hm as [Hk _].
  unfold OnWriteable, deref. rewrite Hp. simpl. rewrite Hc. simpl.
  assert (is_keepalive (req c) = (keep, snd (is_keepalive (req c)))) as Ek
    by (rewrite (surjective_pairing (is_keepalive (req c))) at 1; by rewrite Hk).
  pose proof (eq_refl (exported c)) as Ee. unfold exported at 1 in Ee. rewrite Ek in *. simpl in *.
  rewrite Ee. clear Ee.
  rewrite (HttpResponse.OnWriteable_sending text sent rest keep EPOLL_SOCKET_WRITE_BUFFER_SIZE (exported c));
    [|by rewrite Hg|done|pose proof W_pos; lia].
  rewrite take_W. fold chunk short n.
  destruct (Hs (ctx_fd c) chunk) as [Hn0 Hn1]. fold n in Hn0, Hn1.
  rewrite (proj2 (Z.ltb_ge n 0)) by done. fold st.
  assert (length chunk <= length rest)%nat as Hcl by (pose proof (vlen_chunk_of rest); unfold chunk, vlen in *; lia).
  assert (length text = length sent + length rest)%nat as Hlen by (rewrite Ht, length_app; lia).
  assert ((if n <? vlen chunk then snd (HttpResponse.Rollback (vlen chunk - n)
             (HttpResponse.set_buff (SStream.mk text (length sent + length chunk) short short (vlen chunk)) (exported c)))
           else HttpResponse.set_buff (SStream.mk text (length sent + length chunk) short short (vlen chunk)) (exported c))
          = settled (exported c) text (length sent) (vlen chunk) short (vlen chunk) n) as ->; [|done].
  unfold settled, vlen in *. rewrite Nat2Z.id. destruct (Z.ltb_spec n (Z.of_nat (length chunk))); [|done].
  erewrite HttpResponse.Rollback_sending; [|done|lia|unfold vlen; lia|lia]. simpl.
  by replace (length sent + length chunk - Z.to_nat (Z.of_nat (length chunk) - n))%nat
    with (length sent + Z.to_nat n)%nat by lia.
Qed.

(** As long as the piece was not the last one, nothing is lost. *)
Lemma mid_response_step text sent rest keep c n :
  mid_response text sent keep c -> text = sent ++ rest -> W <= vlen rest ->
  0 <= n <= W ->
  let chunk := chunk_of rest in
  mid_response text (sent ++ take (Z.to_nat n) chunk) keep
    (mkHttpContext (snd (is_keepalive (req c)))
       (settled (exported c) text (length sent) (vlen chunk) false (vlen chunk) n) (ctx_fd c)).
Proof.
  intros Hm Ht Hr Hn chunk. pose proof (exported_mid _ _ _ _ Hm) as (Hw & _). destruct Hm as [Hk _].
  assert (vlen chunk = W) as Hc by (unfold chunk; rewrite vlen_chunk_of; lia).
  split; simpl; [by rewrite is_keepalive_idem|]. right. unfold settled.
  rewrite length_app, length_take. unfold vlen in *.
  destruct (Z.ltb_spec n (Z.of_nat (length chunk))); simpl; (split; [done|]; eexists; f_equal; lia).
Qed.

Section pumping.
Context (ctx : context) (p : Z) (text : bytes) (keep : bool).
Context (Hp : data_ptr ctx = Some p) (Hsize : vlen text < 2 ^ 31).

Definition final : WriteStatus := if keep then WRITE_ALIVE else WRITE_OVER.

Lemma final_not_continue : final <> WRITE_CONTINUE.
Proof. unfold final. by destruct keep. Qed.

(** One round in the middle of a response. *)
Lemma pump_round h c sent rest send :
  heap h !! p = Some c -> mid_response text sent keep c -> text = sent ++ rest -> legal send ->
  exists c' n, 0 <= n <= vlen (chunk_of rest) /\ n = send (ctx_fd c) (chunk_of rest) /\
  OnWriteable h ctx send =
    Some (if decide (vlen rest < W) then final else WRITE_CONTINUE,
          take (Z.to_nat n) (chunk_of rest), set_heap (<[p := c']> (heap h)) h) /\
  (W <= vlen rest -> mid_response text (sent ++ take (Z.to_nat n) (chunk_of rest)) keep c' /\
     ctx_fd c' = ctx_fd c /\ req c' = snd (is_keepalive (req c))) /\
  (vlen rest < W -> keep = true -> if decide (n = 0)
     then HttpResponse.is_writted (resp c') = true /\ req c' = snd (is_keepalive (req c))
     else c' = newHttpContext (ctx_fd c)).
Proof.
  intros Hc Hm Ht Hs. pose proof (Hs (ctx_fd c) (chunk_of rest)) as Hn.
  set (n := send _ _) in *.
  pose proof (OnWriteable_step h ctx p c text sent rest keep send Hp Hc Hm Ht Hsize Hs) as E.
  pose proof W_pos. cbv zeta in E. fold n in E. destruct (decide (vlen rest < W)) as [Hl|Hl].
  - rewrite bool_decide_true in E by done. eexists _, n. split_and!; [lia|lia|done|exact E|lia|].
    intros _ ->. destruct (decide (n = 0)) as [H0|H0].
    + rewrite H0, andb_false_r. split; [|done].
      pose proof (exported_mid _ _ _ _ Hm) as (Hw & _). simpl. unfold settled. by case_test.
    + rewrite (proj2 (Z.ltb_lt 0 n)), bool_decide_true by (done || lia). done.
  - rewrite bool_decide_false in E by done. eexists _, n. split_and!; [lia|lia|done|exact E| |lia].
    intros _. split; [|done]. apply mid_response_step; [done|done|lia|].
    rewrite vlen_chunk_of in Hn. lia.
Qed.

Lemma pump_prefix sends : forall h c sent rest,
  heap h !! p = Some c -> mid_response text sent keep c -> text = sent ++ rest -> Forall legal sends ->
  exists st s h', pump h ctx sends = Some (st, s, h') /\ s `prefix_of` rest /\
    (st = WRITE_CONTINUE \/ st = final) /\
    (st = WRITE_CONTINUE -> exists c', heap h' !! p = Some c' /\ mid_response text (sent ++ s) keep c').
Proof.
  induction sends as [|send sends IH]; intros h c sent rest Hc Hm Ht Hs.
  { eexists _, _, _. split_and!; [done|apply prefix_nil|by left|]. intros _. rewrite app_nil_r. eauto. }
  apply Forall_cons in Hs as [Hs1 Hs].
  destruct (pump_round h c sent rest send Hc Hm Ht Hs1) as (c' & n & Hn & _ & E & Hmid & _).
  cbn [pump]. rewrite E. cbn [mbind option_bind]. clear E.
  set (chunk := take (Z.to_nat n) (chunk_of rest)) in *.
  assert (chunk `prefix_of` rest) as [rest' Er].
  { unfold chunk, chunk_of. rewrite take_take. apply prefix_take. }
  destruct (decide (vlen rest < W)) as [Hl|Hl].
  - rewrite decide_False by apply final_not_continue. eexists _, _, _. split_and!; [done|by exists rest'|by right|].
    intros Hf. by apply final_not_continue in Hf.
  - rewrite decide_True by done.
    destruct (IH (set_heap (<[p := c']> (heap h)) h) c' (sent ++ chunk) rest') as (st & s & h' & -> & Hpre & Hst & Hend).
    + simpl. apply lookup_insert_eq.
    + apply Hmid; lia.
    + rewrite Ht, Er. by rewrite app_assoc.
    + done.
    + simpl. eexists _, _, _. split_and!; [done| |done|].
      * rewrite Er. by apply prefix_app.
      * intros H. destruct (Hend H) as (c'' & ? & Hm'). exists c''. rewrite <- app_assoc in Hm'. done.
Qed.

Definition complete (send : Z -> bytes -> Z) : Prop := forall fd s, send fd s = vlen s.

Lemma complete_legal send : complete send -> legal send.
Proof. intros H fd s. rewrite H. unfold vlen. lia. Qed.

Lemma pump_complete sends : forall h c sent rest,
  heap h !! p = Some c -> mid_response text sent keep c -> text = sent ++ rest ->
  Forall complete sends -> vlen rest < W * vlen sends ->
  exists h', pump h ctx sends = Some (final, rest, h') /\
    (keep = true -> exists c', heap h' !! p = Some c' /\
      if decide (vlen rest mod W = 0)
      then HttpResponse.is_writted (resp c') = true /\
           HttpRequest.parse_part (req c') = HttpRequest.parse_part (req c)
      else c' = newHttpContext (ctx_fd c)).
Proof.
  induction sends as [|send sends IH]; intros h c sent rest Hc Hm Ht Hs Hlen;
    [unfold vlen in *; simpl in Hlen; lia|].
  apply Forall_cons in Hs as [Hs1 Hs].
  destruct (pump_round h c sent rest send Hc Hm Ht (complete_legal _ Hs1))
    as (c' & n & Hn & En & E & Hmid & Hk).
  rewrite Hs1 in En. cbn [pump]. rewrite E. cbn [mbind option_bind]. clear E.
  assert (take (Z.to_nat n) (chunk_of rest) = chunk_of rest) as Etk
    by (apply take_ge; unfold vlen in En; lia).
  destruct (decide (vlen rest < W)) as [Hl|Hl].
  - rewrite decide_False by apply final_not_continue. rewrite Etk, chunk_of_short by done.
    eexists. split; [done|]. intros Hk1. exists c'. split; [apply lookup_insert_eq|].
    specialize (Hk Hl Hk1). rewrite chunk_of_short in En by done.
    assert (0 <= vlen rest) by (unfold vlen; lia). rewrite Z.mod_small by lia. subst n.
    case_decide; [|done]. destruct Hk as [? ->]. by rewrite is_keepalive_part.
  - rewrite decide_True by done. rewrite Etk in *.
    destruct (IH (set_heap (<[p := c']> (heap h)) h) c' (sent ++ chunk_of rest) (after_chunk rest))
      as (h' & -> & Hend).
    + simpl. apply lookup_insert_eq.
    + apply Hmid; lia.
    + by rewrite <- app_assoc, chunk_of_after.
    + done.
    + rewrite vlen_after_chunk by lia. unfold vlen in *. simpl in Hlen. lia.
    + exists h'. simpl. rewrite chunk_of_after. split; [done|]. intros Hk1.
      destruct (Hend Hk1) as (c'' & Hc'' & Hd). exists c''. split; [done|].
      destruct (Hmid ltac:(lia)) as (_ & Hfd & Hreq).
      rewrite vlen_after_chunk, Zminus_mod, Z.mod_mul, Z.sub_0_r, Z.mod_mod in Hd by lia.
      rewrite Hfd, Hreq, is_keepalive_part in Hd. done.
Qed.

(** A [send] that takes only part of what it is offered. *)
Definition partial (send : Z -> bytes -> Z) : Prop :=
  legal send /\ forall fd s, s <> [] -> send fd s < vlen s.

(** The full chunks go out whole, the last one does not. *)
Lemma pump_cut_short sends send more : forall h c sent rest,
  heap h !! p = Some c -> mid_response text sent keep c -> text = sent ++ rest ->
  Forall complete sends -> vlen sends = vlen rest / W -> vlen rest mod W <> 0 -> partial send ->
  exists s lost h', pump h ctx (sends ++ send :: more) = Some (final, s, h') /\ rest = s ++ lost /\ lost <> [] /\
    (keep = true -> vlen s mod W <> 0 -> heap h' !! p = Some (newHttpContext (ctx_fd c))).
Proof.
  induction sends as [|send0 sends IH]; intros h c sent rest Hc Hm Ht Hs Hlen Hmod [Hleg Hpart];
    pose proof W_pos as HW; assert (0 <= vlen rest) as H0 by (unfold vlen; lia); cbn [pump app].
  - assert (vlen rest < W) as Hl.
    { change (vlen (@nil (Z -> bytes -> Z))) with 0 in Hlen. apply eq_sym, Z.div_small_iff in Hlen; lia. }
    destruct (pump_round h c sent rest send Hc Hm Ht Hleg) as (c' & n & Hn & En & E & _ & Hk).
    rewrite E. cbn [mbind option_bind]. destruct (decide (vlen rest < W)) as [_|]; [|lia].
    rewrite decide_False by apply final_not_continue. rewrite chunk_of_short in * by done. rewrite Z.mod_small in Hmod by lia.
    assert (n < vlen rest) as Hlt.
    { rewrite En. apply Hpart. intros Hz. by rewrite Hz in Hmod. }
    exists (take (Z.to_nat n) rest), (drop (Z.to_nat n) rest). eexists. split_and!; [done|by rewrite take_drop| |].
    + intros Hz. apply (f_equal length) in Hz. rewrite length_drop in Hz. unfold vlen in Hlt. simpl in Hz. lia.
    + intros Hk1 Hn0. assert (vlen (take (Z.to_nat n) rest) = n) as Ev.
      { unfold vlen in *. rewrite length_take. lia. }
      rewrite Ev, Z.mod_small in Hn0 by lia. specialize (Hk Hl Hk1). rewrite decide_False in Hk by done.
      simpl. rewrite lookup_insert_eq. by rewrite Hk.
  - apply Forall_cons in Hs as [Hs1 Hs]. assert (1 <= vlen rest / W) as Hq by (rewrite <- Hlen; unfold vlen; simpl; lia).
    assert (W <= vlen rest) as Hge by (pose proof (Z.mul_div_le (vlen rest) W HW); nia).
    destruct (pump_round h c sent rest send0 Hc Hm Ht (complete_legal _ Hs1)) as (c' & n & Hn & En & E & Hmid & _).
    rewrite E. cbn [mbind option_bind]. destruct (decide (vlen rest < W)) as [|_]; [lia|]. rewrite decide_True by done.
    assert (take (Z.to_nat n) (chunk_of rest) = chunk_of rest) as Etk.
    { apply take_ge. rewrite En, Hs1. unfold vlen. lia. }
    rewrite Etk in *. destruct (Hmid Hge) as (Hm' & Hfd & _).
    pose proof (vlen_after_chunk rest Hge) as Hva.
    destruct (IH (set_heap (<[p := c']> (heap h)) h) c' (sent ++ chunk_of rest) (after_chunk rest))
      as (s & lost & h' & Ep & Er & Hl & Hk).
    + simpl. apply lookup_insert_eq.
    + done.
    + by rewrite <- app_assoc, chunk_of_after.
    + done.
    + rewrite Hva. replace (vlen rest - 1 * W) with (vlen rest + (-1) * W) by lia. rewrite Z.div_add by lia.
      unfold vlen in *. simpl in Hlen. lia.
    + rewrite Hva. replace (vlen rest - 1 * W) with (vlen rest + (-1) * W) by lia. by rewrite Z.mod_add by lia.
    + done.
    + exists (chunk_of rest ++ s), lost, h'. rewrite Ep. split_and!; [done| |done|].
      * by rewrite <- app_assoc, <- Er, chunk_of_after.
      * intros Hk1 Hn0. rewrite <- Hfd. apply Hk; [done|]. intros Hz. apply Hn0.
        assert (vlen (chunk_of rest ++ s) = vlen s + 1 * W) as ->.
        { unfold vlen. rewrite length_app. pose proof (vlen_chunk_of rest) as Hv. unfold vlen in *. lia. }
        by rewrite Z.mod_add by lia.
Qed.
End pumping.

(** A context whose response is ready and untouched. *)
Definition pending (c : HttpContext) : Prop :=
  HttpResponse.is_writted (resp c) = false /\ HttpResponse.resp_buff_ (resp c) = SStream.empty /\
  vlen (text_of c) < 2 ^ 31.

Lemma pending_mid c : pending c -> mid_response (text_of c) [] (fst (is_keepalive (req c))) c.
Proof. intros (Hw & Hb & _). split; [done|]. by left. Qed.

(** C10: whatever parts of each chunk the kernel takes, the bytes sent are a
    prefix of the response, in order and without repetition; as long as the
    status is [WRITE_CONTINUE] the unsent bytes are exactly those still to come. *)
Theorem partial_sends_are_a_prefix (h : t) (ctx : context) (p : Z) (c : HttpContext)
    (sends : list (Z -> bytes -> Z)) :
  data_ptr ctx = Some p -> heap h !! p = Some c -> pending c -> Forall legal sends ->
  exists st s h', pump h ctx sends = Some (st, s, h') /\ s `prefix_of` text_of c /\
    (st = WRITE_CONTINUE -> exists c', heap h' !! p = Some c' /\
       mid_response (text_of c) s (fst (is_keepalive (req c))) c').
Proof.
  intros Hp Hc Hpen Hs. pose proof Hpen as (_ & _ & Hsz).
  destruct (pump_prefix ctx p (text_of c) (fst (is_keepalive (req c))) Hp Hsz sends h c [] (text_of c)
              Hc (pending_mid _ Hpen) eq_refl Hs) as (st & s & h' & E & Hpre & _ & Hend).
  exists st, s, h'. done.
Qed.

(** C9: when the kernel takes every chunk whole, the response goes out exactly
    once, in at most one call more than it has chunks, and ends in the status of
    its kind.  A kept-alive connection then starts afresh if the size of the
    response is not a multiple of the chunk size; if it is, the last call sends
    nothing and the finished request and response stay in place. *)
Theorem complete_sends_deliver (h : t) (ctx : context) (p : Z) (c : HttpContext)
    (sends : list (Z -> bytes -> Z)) :
  data_ptr ctx = Some p -> heap h !! p = Some c -> pending c -> Forall complete sends ->
  vlen (text_of c) < EPOLL_SOCKET_WRITE_BUFFER_SIZE * vlen sends ->
  exists h', pump h ctx sends = Some (final (fst (is_keepalive (req c))), text_of c, h') /\
    (fst (is_keepalive (req c)) = true ->
     exists c', heap h' !! p = Some c' /\
       if decide (vlen (text_of c) mod EPOLL_SOCKET_WRITE_BUFFER_SIZE = 0)
       then HttpResponse.is_writted (resp c') = true /\
            HttpRequest.parse_part (req c') = HttpRequest.parse_part (req c)
       else c' = newHttpContext (ctx_fd c)).
Proof.
  intros Hp Hc Hpen Hs Hlen. pose proof Hpen as (_ & _ & Hsz).
  apply (pump_complete ctx p (text_of c) (fst (is_keepalive (req c))) Hp Hsz sends h c [] (text_of c)
           Hc (pending_mid _ Hpen) eq_refl Hs Hlen).
Qed.

(** On a kept-alive connection, a response whose size is a multiple of the
    chunk size ends in an empty [send], after which the context is not reset:
    the finished request and response stay in place. *)
Theorem keepalive_not_reset_on_full_chunks (h : t) (ctx : context) (p : Z) (c : HttpContext)
    (sends : list (Z -> bytes -> Z)) :
  data_ptr ctx = Some p -> heap h !! p = Some c -> pending c -> Forall complete sends ->
  vlen (text_of c) < EPOLL_SOCKET_WRITE_BUFFER_SIZE * vlen sends ->
  fst (is_keepalive (req c)) = true -> vlen (text_of c) mod EPOLL_SOCKET_WRITE_BUFFER_SIZE = 0 ->
  exists h' c', pump h ctx sends = Some (WRITE_ALIVE, text_of c, h') /\ heap h' !! p = Some c' /\
    HttpResponse.is_writted (resp c') = true /\
    HttpRequest.parse_part (req c') = HttpRequest.parse_part (req c).
Proof.
  intros Hp Hc Hpen Hs Hlen Hka Hmod. pose proof Hpen as (_ & _ & Hsz).
  destruct (pump_complete ctx p (text_of c) (fst (is_keepalive (req c))) Hp Hsz sends h c [] (text_of c)
              Hc (pending_mid _ Hpen) eq_refl Hs Hlen) as (h' & E & Hk).
  destruct (Hk Hka) as (c' & Hc' & Hd). rewrite decide_True in Hd by done.
  exists h', c'. unfold final in E. by rewrite Hka in E.
Qed.

Transparent EPOLL_SOCKET_WRITE_BUFFER_SIZE.

(** ** Instances *)

(** A context with a request from [fd] 5 that asks to keep the connection or
    not, and a response with a body of [n] bytes. *)
Definition sample_ctx (keep : bool) (n : nat) : HttpContext :=
  mkHttpContext
    (HttpRequest.set_headers (if keep then [(lit "Connection", lit "keep-alive")] else [])
      (HttpRequest.set_part HttpRequest.PARSE_REQ_OVER HttpRequest.make))
    (HttpResponse.set_status HttpResponse.STATUS_OK (replicate n "x"%char) HttpResponse.make) 5.

Definition sample_h (c : HttpContext) : t := mk [] {[ 64 := c ]}.

Definition sample_ectx : context := mkEpollEventContext (Some 64) 5 (lit "127.0.0.1").

Lemma sample_pending keep n : vlen (text_of (sample_ctx keep n)) < 2 ^ 31 -> pending (sample_ctx keep n).
Proof. intros H. split_and!; done. Qed.

Lemma sample_text_small keep n : bool_decide (vlen (text_of (sample_ctx keep n)) < 2 ^ 31) = true ->
  pending (sample_ctx keep n).
Proof. intros H. apply sample_pending. by apply bool_decide_eq_true in H. Qed.

Lemma send_all_complete : complete send_all.
Proof. done. Qed.

Definition send_half : Z -> bytes -> Z := fun _ s => vlen s / 2.

Lemma send_half_legal : legal send_half.
Proof. intros fd s. unfold send_half, vlen. dlia. Qed.

Lemma partial_sends_are_a_prefix_witness :
  exists st s h', pump (sample_h (sample_ctx false 5000)) sample_ectx [send_half; send_all; send_half]
    = Some (st, s, h') /\ s `prefix_of` text_of (sample_ctx false 5000) /\
    (st = WRITE_CONTINUE -> exists c', heap h' !! 64 = Some c' /\
       mid_response (text_of (sample_ctx false 5000)) s (fst (is_keepalive (req (sample_ctx false 5000)))) c').
Proof.
  apply (partial_sends_are_a_prefix (sample_h (sample_ctx false 5000)) sample_ectx 64 (sample_ctx false 5000)).
  - reflexivity.
  - apply lookup_singleton_eq.
  - apply sample_text_small. vm_compute. reflexivity.
  - constructor; [apply send_half_legal|]. constructor; [apply complete_legal, send_all_complete|].
    constructor; [apply send_half_legal|constructor].
Defined.

Lemma complete_sends_deliver_witness :
  exists h', pump (sample_h (sample_ctx true 5000)) sample_ectx [send_all; send_all]
    = Some (final (fst (is_keepalive (req (sample_ctx true 5000)))), text_of (sample_ctx true 5000), h') /\
    (fst (is_keepalive (req (sample_ctx true 5000))) = true ->
     exists c', heap h' !! 64 = Some c' /\
       if decide (vlen (text_of (sample_ctx true 5000)) mod EPOLL_SOCKET_WRITE_BUFFER_SIZE = 0)
       then HttpResponse.is_writted (resp c') = true /\
            HttpRequest.parse_part (req c') = HttpRequest.parse_part (req (sample_ctx true 5000))
       else c' = newHttpContext 5).
Proof.
  apply (complete_sends_deliver (sample_h (sample_ctx true 5000)) sample_ectx 64 (sample_ctx true 5000)).
  - reflexivity.
  - apply lookup_singleton_eq.
  - apply sample_text_small. vm_compute. reflexivity.
  - constructor; [apply send_all_complete|]. constructor; [apply send_all_complete|constructor].
  - vm_compute. reflexivity.
Defined.

Lemma keepalive_not_reset_on_full_chunks_witness :
  exists h' c', pump (sample_h (sample_ctx true 3967)) sample_ectx [send_all; send_all]
    = Some (WRITE_ALIVE, text_of (sample_ctx true 3967), h') /\ heap h' !! 64 = Some c' /\
    HttpResponse.is_writted (resp c') = true /\
    HttpRequest.parse_part (req c') = HttpRequest.parse_part (req (sample_ctx true 3967)).
Proof.
  apply (keepalive_not_reset_on_full_chunks (sample_h (sample_ctx true 3967)) sample_ectx 64
           (sample_ctx true 3967)).
  - reflexivity.
  - apply lookup_singleton_eq.
  - apply sample_text_small. vm_compute. reflexivity.
  - constructor; [apply send_all_complete|]. constructor; [apply send_all_complete|constructor].
  - vm_compute. reflexivity.
  - vm_compute. reflexivity.
  - vm_compute. reflexivity.
Defined.

(** C37: when the kernel takes only part of the last, incomplete chunk, the rest of
    the response is lost whatever happens afterwards: the status is that of a
    finished response, on which the event loop closes the connection, or, when
    the connection is kept and some of the chunk went out, waits for the next
    request with a context from which the response is gone. *)
Theorem partial_last_chunk_is_lost (h : t) (ctx : context) (p : Z) (c : HttpContext)
    (sends more : list (Z -> bytes -> Z)) (send : Z -> bytes -> Z) :
  data_ptr ctx = Some p -> heap h !! p = Some c -> pending c -> Forall complete sends ->
  vlen sends = vlen (text_of c) / EPOLL_SOCKET_WRITE_BUFFER_SIZE ->
  vlen (text_of c) mod EPOLL_SOCKET_WRITE_BUFFER_SIZE <> 0 -> partial send ->
  exists s lost h', pump h ctx (sends ++ send :: more) = Some (final (fst (is_keepalive (req c))), s, h') /\
    text_of c = s ++ lost /\ lost <> [] /\
    (fst (is_keepalive (req c)) = true -> vlen s mod EPOLL_SOCKET_WRITE_BUFFER_SIZE <> 0 ->
     heap h' !! p = Some (newHttpContext (ctx_fd c))).
Proof.
  intros Hp Hc Hpen Hs Hlen Hmod Hpart. pose proof Hpen as (_ & _ & Hsz).
  apply (pump_cut_short ctx p (text_of c) (fst (is_keepalive (req c))) Hp Hsz sends send more h c [] (text_of c)
           Hc (pending_mid _ Hpen) eq_refl Hs Hlen Hmod Hpart).
Qed.

Lemma send_half_partial : partial send_half.
Proof.
  split; [apply send_half_legal|]. intros fd s Hs. unfold send_half, vlen. destruct s; [done|]. simpl length. dlia.
Qed.

Lemma partial_last_chunk_is_lost_witness :
  exists s lost h', pump (sample_h (sample_ctx true 5000)) sample_ectx ([send_all] ++ send_half :: [send_all])
    = Some (final (fst (is_keepalive (req (sample_ctx true 5000)))), s, h') /\
    text_of (sample_ctx true 5000) = s ++ lost /\ lost <> [] /\
    (fst (is_keepalive (req (sample_ctx true 5000))) = true -> vlen s mod EPOLL_SOCKET_WRITE_BUFFER_SIZE <> 0 ->
     heap h' !! 64 = Some (newHttpContext (ctx_fd (sample_ctx true 5000)))).
Proof.
  apply (partial_last_chunk_is_lost (sample_h (sample_ctx true 5000)) sample_ectx 64 (sample_ctx true 5000)).
  - reflexivity.
  - apply lookup_singleton_eq.
  - apply sample_text_small. vm_compute. reflexivity.
  - constructor; [apply send_all_complete|constructor].
  - vm_compute. reflexivity.
  - vm_compute. discriminate.
  - apply send_half_partial.
Defined.

End HttpHandler.
