(* ===== verification/EpollSocket.v ===== *)
(** * http/http_server/epoll_socket.{h,cpp}

    [EpollSocket]: the event loop over an [EpollEventHandler].  Its connection
    contexts live on a heap ([ctxs]); [kern] is what the kernel holds on the
    loop's behalf: open descriptors, their status flags and the interest list.
    The results of system calls and the addresses [new] returns are inputs, one
    [answers] record per event; [None] is a dereference of a freed context. *)

From S2P Require Import Prelude EpollTypes.

Module EpollSocket.

Definition EPOLLIN : Z := 1.
Definition EPOLLOUT : Z := 4.
Definition EPOLLET : Z := 2 ^ 31.
Definition O_NONBLOCK : Z := 2048.

(** [data] is the 64-bit union: [data.ptr] is all of it, [data.fd] its low half. *)
Record epoll_event := mkEvent { events : Z; data : Z }.

Definition data_fd (ev : epoll_event) : Z := i32 (data ev).

Record kernel := mkKernel {
  opened : gset Z;
  flags : gmap Z Z;
  interest : gmap Z epoll_event;
}.

Inductive ctl_op := EPOLL_CTL_ADD | EPOLL_CTL_MOD | EPOLL_CTL_DEL.

(** [epoll_ctl] with the result [ret] *)
Definition epoll_ctl (ret : Z) (op : ctl_op) (fd : Z) (ev : epoll_event) (k : kernel) : kernel :=
  if ret =? -1 then k
  else mkKernel (opened k) (flags k)
         match op with
         | EPOLL_CTL_ADD | EPOLL_CTL_MOD => <[fd := ev]> (interest k)
         | EPOLL_CTL_DEL => delete fd (interest k)
         end.

(** [close]: the descriptor also leaves every interest list. *)
Definition close (fd : Z) (k : kernel) : kernel :=
  mkKernel (opened k ∖ {[fd]}) (delete fd (flags k)) (delete fd (interest k)).

Record answers (E : Type) := mkAnswers {
  a_accept : Z * bytes;        (* accept: descriptor or -1, peer address *)
  a_getfl : Z;                 (* fcntl(F_GETFL) *)
  a_recv : Z * bytes;          (* recv: result and the bytes received *)
  a_send : Z -> bytes -> Z;    (* send *)
  a_ctl : Z;                   (* epoll_ctl of the handler *)
  a_del : Z;                   (* epoll_ctl(EPOLL_CTL_DEL) *)
  a_close : Z;                 (* close *)
  a_ctx_addr : Z;              (* new EpollEventContext *)
  a_data_addr : Z;             (* the handler's new *)
  a_call : E;                  (* what the handler calls back *)
}.

Arguments mkAnswers {E} _ _ _ _ _ _ _ _ _ _.
Arguments a_accept {E} _.
Arguments a_getfl {E} _.
Arguments a_recv {E} _.
Arguments a_send {E} _.
Arguments a_ctl {E} _.
Arguments a_del {E} _.
Arguments a_close {E} _.
Arguments a_ctx_addr {E} _.
Arguments a_data_addr {E} _.
Arguments a_call {E} _.

Section loop.
Context {H E : Type} {HE : EpollEventHandler H E}.

Record t := mk {
  epoll_fd_ : Z;
  listen_socket_fd_ : Z;
  port_ : Z;
  backlog_ : Z;
  max_events_ : Z;
  event_handler_ : H;
  ctxs : gmap Z (EpollEventContext Z);
  kern : kernel;
}.

Definition make (port backlog max_events : Z) (h : H) : t :=
  mk 0 0 port backlog max_events h ∅ (mkKernel ∅ ∅ ∅).

Definition upd (s : t) (h : H) (cs : gmap Z (EpollEventContext Z)) (k : kernel) : t :=
  mk (epoll_fd_ s) (listen_socket_fd_ s) (port_ s) (backlog_ s) (max_events_ s) h cs k.

Definition set_fds (efd lfd : Z) (k : kernel) (s : t) : t :=
  mk efd lfd (port_ s) (backlog_ s) (max_events_ s) (event_handler_ s) (ctxs s) k.

(** [fcntl(fd, F_SETFL, flags | O_NONBLOCK)] *)
Definition set_nonblocking (getfl : Z) (fd : Z) (k : kernel) : kernel :=
  let fl := if getfl =? -1 then 0 else getfl in
  mkKernel (opened k) (<[fd := Z.lor fl O_NONBLOCK]> (flags k)) (interest k).

(** The connection and the peer's address, which stays empty on failure. *)
Definition accept_socket (a : answers E) (k : kernel) : Z * bytes * kernel :=
  let '(conn_fd, ip) := a_accept a in
  if conn_fd =? -1 then (-1, [], k)
  else (conn_fd, ip, mkKernel ({[conn_fd]} ∪ opened k) (flags k) (interest k)).

Definition close_and_release (s : t) (ev : epoll_event) (a : answers E) : option (Z * epoll_event * t) :=
  if data ev =? 0 then Some (0, ev, s)
  else
    ctx ← ctxs s !! data ev;
    '(_, h) ← OnClose (event_handler_ s) ctx;
    let cfd := fd ctx in
    let ev1 := mkEvent (Z.lor EPOLLIN (Z.lor EPOLLOUT EPOLLET)) (data ev) in
    let k1 := epoll_ctl (a_del a) EPOLL_CTL_DEL cfd ev1 (kern s) in
    let cs := delete (data ev) (ctxs s) in
    let '(ret, k2) := if 0 <? cfd then (a_close a, close cfd k1) else (0, k1) in
    Some (ret, mkEvent (events ev1) 0, upd s h cs k2).

Definition handle_accept_event (s : t) (a : answers E) : option (Z * t) :=
  let '(conn_socket, client_ip, k1) := accept_socket a (kern s) in
  if conn_socket =? -1 then Some (-1, s)
  else
    let k2 := set_nonblocking (a_getfl a) conn_socket k1 in
    let ctx := mkEpollEventContext None conn_socket client_ip in
    let '(_, ctx1, h) := OnAccept (event_handler_ s) ctx (a_data_addr a) in
    let cs := <[a_ctx_addr a := ctx1]> (ctxs s) in
    let ev := mkEvent (Z.lor EPOLLIN EPOLLET) (a_ctx_addr a) in
    let s1 := upd s h cs (epoll_ctl (a_ctl a) EPOLL_CTL_ADD conn_socket ev k2) in
    if a_ctl a =? -1 then '(_, _, s2) ← close_and_release s1 ev a; Some (-1, s2)
    else Some (0, s1).

Definition handle_readable_event (s : t) (ev : epoll_event) (a : answers E) : option (Z * t) :=
  ctx ← ctxs s !! data ev;
  let cfd := fd ctx in
  let '(read_size, buffer) := a_recv a in
  '(ret, ctx1, h) ←
    (if 0 <? read_size then OnReadable (event_handler_ s) ctx buffer (a_call a)
     else Some (READ_ERROR, ctx, event_handler_ s));
  let s1 := upd s h (<[data ev := ctx1]> (ctxs s)) (kern s) in
  if (read_size <=? 0) || bool_decide (ret = READ_ERROR) || bool_decide (ret = READ_REACH_MAX_SIZE) then
    '(_, _, s2) ← close_and_release s1 ev a; Some (0, s2)
  else
    let evs := if decide (ret = READ_CONTINUE) then Z.lor EPOLLIN EPOLLET else Z.lor EPOLLOUT EPOLLET in
    Some (0, upd s1 h (ctxs s1) (epoll_ctl (a_ctl a) EPOLL_CTL_MOD cfd (mkEvent evs (data ev)) (kern s1))).

Definition handle_writeable_event (s : t) (ev : epoll_event) (a : answers E) : option (Z * t) :=
  ctx ← ctxs s !! data ev;
  let cfd := fd ctx in
  '(ret, ctx1, h) ← OnWriteable (event_handler_ s) ctx (a_send a);
  let s1 := upd s h (<[data ev := ctx1]> (ctxs s)) (kern s) in
  if bool_decide (ret = WRITE_ERROR) || bool_decide (ret = WRITE_OVER) then
    '(_, _, s2) ← close_and_release s1 ev a; Some (0, s2)
  else
    let evs := if decide (ret = WRITE_CONTINUE) then Z.lor EPOLLOUT EPOLLET else Z.lor EPOLLIN EPOLLET in
    Some (0, upd s1 h (ctxs s1) (epoll_ctl (a_ctl a) EPOLL_CTL_MOD cfd (mkEvent evs (data ev)) (kern s1))).

(** The body of the [for] loop over the ready events. *)
Definition handle_event (s : t) (ev : epoll_event) (a : answers E) : option t :=
  if data_fd ev =? listen_socket_fd_ s then snd <$> handle_accept_event s a
  else if negb (Z.land (events ev) EPOLLIN =? 0) then snd <$> handle_readable_event s ev a
  else if negb (Z.land (events ev) EPOLLOUT =? 0) then snd <$> handle_writeable_event s ev a
  else Some s.

Fixpoint handle_events (s : t) (evs : list (epoll_event * answers E)) : option t :=
  match evs with
  | [] => Some s
  | (ev, a) :: evs' => s1 ← handle_event s ev a; handle_events s1 evs'
  end.

(** [start_epoll_loop] over the results of the successive [epoll_wait]s; [None]
    among them is the result -1, after which the loop returns -1. *)
Fixpoint start_epoll_loop (s : t) (waits : list (option (list (epoll_event * answers E))))
  : option (option Z * t) :=
  match waits with
  | [] => Some (None, s)
  | None :: _ => Some (Some (-1), s)
  | Some evs :: waits' => s1 ← handle_events s evs; start_epoll_loop s1 waits'
  end.

(** [listen_on], given what [socket], [bind] and [listen] return. *)
Definition listen_on (s : t) (socket bind listen : Z) : Z * t :=
  if socket =? -1 then (-1, set_fds (epoll_fd_ s) socket (kern s) s)
  else
    let k := mkKernel ({[socket]} ∪ opened (kern s)) (flags (kern s)) (interest (kern s)) in
    let s1 := set_fds (epoll_fd_ s) socket k s in
    if bind =? -1 then (-1, s1) else if listen =? -1 then (-1, s1) else (0, s1).

Definition create_epoll (s : t) (efd : Z) : Z * t :=
  let s1 := set_fds efd (listen_socket_fd_ s) (kern s) s in
  if efd =? -1 then (-1, s1)
  else (0, set_fds efd (listen_socket_fd_ s)
             (mkKernel ({[efd]} ∪ opened (kern s)) (flags (kern s)) (interest (kern s))) s).

(** The upper half of the union is not written: [high] is what it holds. *)
Definition add_listen_socket_to_epoll (s : t) (ret high : Z) : Z * t :=
  let ev := mkEvent EPOLLIN (high * 2 ^ 32 + u32 (listen_socket_fd_ s)) in
  let k := epoll_ctl ret EPOLL_CTL_ADD (listen_socket_fd_ s) ev (kern s) in
  if ret =? -1 then (-1, s) else (0, set_fds (epoll_fd_ s) (listen_socket_fd_ s) k s).

(** [Start]; [CHECK_RET] returns at the first failure. *)
Definition Start (s : t) (socket bind listen efd ctl high : Z)
    (waits : list (option (list (epoll_event * answers E)))) : option (option Z * t) :=
  let '(r1, s1) := listen_on s socket bind listen in
  if negb (r1 =? 0) then Some (Some r1, s1)
  else
    let '(r2, s2) := create_epoll s1 efd in
    if negb (r2 =? 0) then Some (Some r2, s2)
    else
      let '(r3, s3) := add_listen_socket_to_epoll s2 ctl high in
      if negb (r3 =? 0) then Some (Some r3, s3) else start_epoll_loop s3 waits.
End loop.

Arguments t H : clear implicits.

(** ** Connections, contexts and the interest list *)

Section safety.
Context {H E : Type} {HE : EpollEventHandler H E} {HL : EpollEventHandlerLaws H E}.

(** The heap, the interest list, the open descriptors and the handler's objects
    describe the same set of connections.  Only descriptor 0 may be open without
    a context: [close_and_release] does not close it. *)
Record consistent (s : t H) : Prop := {
  c_registered : forall c ev, interest (kern s) !! c = Some ev -> c <> listen_socket_fd_ s ->
    exists ctx, ctxs s !! data ev = Some ctx /\ fd ctx = c;
  c_context : forall p ctx, ctxs s !! p = Some ctx ->
    p <> 0 /\ 0 <= fd ctx /\ fd ctx <> listen_socket_fd_ s /\
    fd ctx ∈ opened (kern s) /\ exists ev, interest (kern s) !! fd ctx = Some ev /\ data ev = p;
  c_data : forall p ctx, ctxs s !! p = Some ctx ->
    exists d, data_ptr ctx = Some d /\ d ∈ objects (event_handler_ s);
  c_data_inj : forall p1 p2 c1 c2, ctxs s !! p1 = Some c1 -> ctxs s !! p2 = Some c2 ->
    data_ptr c1 = data_ptr c2 -> p1 = p2;
  c_no_leak : forall d, d ∈ objects (event_handler_ s) ->
    exists p ctx, ctxs s !! p = Some ctx /\ data_ptr ctx = Some d;
  c_listen : listen_socket_fd_ s ∈ opened (kern s);
  c_listen_data : forall ev, interest (kern s) !! listen_socket_fd_ s = Some ev -> data_fd ev = listen_socket_fd_ s;
  c_opened : forall c, c ∈ opened (kern s) ->
    c = listen_socket_fd_ s \/ c = epoll_fd_ s \/ c = 0 \/ exists p ctx, ctxs s !! p = Some ctx /\ fd ctx = c;
}.

(** What accept(2), epoll_ctl(2) and [new] promise: a new descriptor is not
    negative and not open, removing a registered descriptor does not fail, and a
    new address is not null and not in use. *)
Record fair (s : t H) (ev : epoll_event) (a : answers E) : Prop := {
  f_accept : fst (a_accept a) <> -1 -> 0 <= fst (a_accept a) /\ fst (a_accept a) ∉ opened (kern s);
  f_del : forall ctx, data_fd ev <> listen_socket_fd_ s -> ctxs s !! data ev = Some ctx ->
    is_Some (interest (kern s) !! fd ctx) -> a_del a <> -1;
  f_ctx : a_ctx_addr a <> 0 /\ ctxs s !! a_ctx_addr a = None;
  f_data : a_data_addr a ∉ objects (event_handler_ s);
}.

(** An event that can be handled: one that looks like the listening socket's, or
    one that points to a live context. *)
Definition live (s : t H) (ev : epoll_event) : Prop :=
  data_fd ev = listen_socket_fd_ s \/ is_Some (ctxs s !! data ev).

(** Nothing is registered that is not open. *)
Lemma registered_opened s c : consistent s -> is_Some (interest (kern s) !! c) -> c ∈ opened (kern s).
Proof.
  intros C [ev Hev]. destruct (decide (c = listen_socket_fd_ s)) as [-> |Hc]; [apply C|].
  destruct (c_registered _ C _ _ Hev Hc) as (ctx & Hctx & <-). by destruct (c_context _ C _ _ Hctx) as (_ & _ & _ & ? & _).
Qed.

(** Writing back a context the handler returned. *)
Lemma consistent_upd s p ctx ctx' h k :
  consistent s -> ctxs s !! p = Some ctx -> fd ctx' = fd ctx -> data_ptr ctx' = data_ptr ctx ->
  objects h = objects (event_handler_ s) ->
  opened k = opened (kern s) ->
  (interest k = interest (kern s) \/ exists evs, interest k = <[fd ctx := mkEvent evs p]> (interest (kern s))) ->
  consistent (upd s h (<[p := ctx']> (ctxs s)) k).
Proof.
  intros C Hp Hfd Hd Ho Hop Hk.
  assert (forall q c, <[p := ctx']> (ctxs s) !! q = Some c ->
    exists c0, ctxs s !! q = Some c0 /\ fd c = fd c0 /\ data_ptr c = data_ptr c0) as Hback.
  { intros q c. destruct (decide (q = p)) as [-> |]; [rewrite lookup_insert_eq|rewrite lookup_insert_ne by done];
      intros E0; simplify_eq; eauto. }
  assert (forall q c, ctxs s !! q = Some c ->
    exists c0, <[p := ctx']> (ctxs s) !! q = Some c0 /\ fd c0 = fd c /\ data_ptr c0 = data_ptr c) as Hforth.
  { intros q c Hq. destruct (decide (q = p)) as [-> |]; [rewrite lookup_insert_eq|rewrite lookup_insert_ne by done];
      simplify_eq; eauto. }
  destruct (c_context _ C _ _ Hp) as (Hp0 & Hf0 & Hfl & Hfo & ev0 & Hev & Hdev).
  constructor; simpl.
  - intros c ev Hi Hc. assert (exists ctx0, ctxs s !! data ev = Some ctx0 /\ fd ctx0 = c) as (c0 & H0 & Hf).
    { destruct Hk as [Hk|[evs Hk]]; rewrite Hk in Hi; [by apply C|].
      destruct (decide (c = fd ctx)) as [-> |]; [rewrite lookup_insert_eq in Hi|rewrite lookup_insert_ne in Hi by done].
      - simplify_eq. simpl. eauto.
      - by apply C. }
    destruct (Hforth _ _ H0) as (c1 & ? & ? & _). exists c1. split; congruence.
  - intros q c Hq. destruct (Hback _ _ Hq) as (c0 & H0 & Hf & _). rewrite Hf, Hop.
    destruct (c_context _ C _ _ H0) as (? & ? & ? & ? & ev & Hi & Hdq). split_and!; try done.
    destruct Hk as [-> |[evs ->]]; [eauto|].
    destruct (decide (fd c0 = fd ctx)) as [E0|E0].
    + rewrite E0, lookup_insert_eq. eexists. split; [done|]. simpl. rewrite E0 in Hi. congruence.
    + rewrite lookup_insert_ne by done. eauto.
  - intros q c Hq. destruct (Hback _ _ Hq) as (c0 & H0 & _ & Hdd). rewrite Ho, Hdd. by eapply C.
  - intros p1 p2 c1 c2 H1 H2. destruct (Hback _ _ H1) as (? & ? & _ & ->), (Hback _ _ H2) as (? & ? & _ & ->). by eapply C.
  - intros d Hdo. rewrite Ho in Hdo. destruct (c_no_leak _ C _ Hdo) as (q & c & Hq & Hqd).
    destruct (Hforth _ _ Hq) as (c1 & ? & _ & ?). exists q, c1. split; congruence.
  - rewrite Hop. apply C.
  - intros ev Hi. apply (c_listen_data _ C). destruct Hk as [Hk|[evs Hk]]; rewrite Hk in Hi; [done|].
    by rewrite lookup_insert_ne in Hi.
  - intros c Hc. rewrite Hop in Hc. destruct (c_opened _ C _ Hc) as [?|[?|[?|(q & x & Hq & <-)]]]; [tauto..|].
    destruct (Hforth _ _ Hq) as (c1 & ? & ? & _). eauto 10.
Qed.

(** What the kernel holds after a connection's descriptor was given up. *)
Definition given_up (c : Z) (k k' : kernel) : Prop :=
  interest k' = delete c (interest k) /\
  (opened k' = opened k ∖ {[c]} \/ c = 0 /\ opened k' = opened k).

Lemma given_up_close ret c ev k :
  0 <= c -> (0 < c \/ ret <> -1 \/ interest k !! c = None) ->
  let k1 := epoll_ctl ret EPOLL_CTL_DEL c ev k in
  given_up c k (if 0 <? c then close c k1 else k1).
Proof.
  intros H0 Hdel. simpl. unfold given_up, epoll_ctl. destruct (Z.ltb_spec 0 c).
  - case_test; simpl; (split; [|by left]); [done|by rewrite delete_delete_eq].
  - assert (c = 0) as -> by lia. case_test; simpl; (split; [|by right]); [|done].
    destruct Hdel as [?|[?|?]]; [lia|lia|by rewrite delete_id].
Qed.

(** A connection that is gone. *)
Lemma consistent_release s p ctx d h k :
  consistent s -> ctxs s !! p = Some ctx -> data_ptr ctx = Some d ->
  objects h = objects (event_handler_ s) ∖ {[d]} -> given_up (fd ctx) (kern s) k ->
  consistent (upd s h (delete p (ctxs s)) k).
Proof.
  intros C Hp Hd Ho [Hi Hop]. destruct (c_context _ C _ _ Hp) as (Hp0 & Hf0 & Hfl & Hfo & ev0 & Hev & Hdev).
  assert (forall c, c ∈ opened (kern s) -> c <> fd ctx -> c ∈ opened k) as Hkeep.
  { intros c Hc Hne. destruct Hop as [-> |[_ ->]]; set_solver. }
  assert (forall q c, delete p (ctxs s) !! q = Some c -> q <> p /\ ctxs s !! q = Some c) as Hback.
  { intros q c [??]%lookup_delete_Some. done. }
  constructor; simpl; rewrite ?Hi, ?Ho.
  - intros c e Hl Hc. apply lookup_delete_Some in Hl as [Hne Hl]. destruct (c_registered _ C _ _ Hl Hc) as (c0 & H0 & Hf).
    exists c0. rewrite lookup_delete_ne; [done|]. intros E0. rewrite <- E0 in H0. congruence.
  - intros q c [Hne Hq]%Hback. destruct (c_context _ C _ _ Hq) as (? & ? & ? & ? & e & He & Hde).
    assert (fd c <> fd ctx) by (intros E0; rewrite E0 in He; congruence).
    rewrite lookup_delete_ne by done. split_and!; eauto.
  - intros q c [Hne Hq]%Hback. destruct (c_data _ C _ _ Hq) as (d' & Hd' & Ho').
    exists d'. split; [done|]. assert (d' <> d); [|set_solver].
    intros ->. apply Hne. eapply (c_data_inj _ C); [done..|congruence].
  - intros p1 p2 c1 c2 [_ H1]%Hback [_ H2]%Hback. by eapply C.
  - intros d' [Hd' Hne]%elem_of_difference. destruct (c_no_leak _ C _ Hd') as (q & c & Hq & Hqd).
    exists q, c. rewrite lookup_delete_ne; [done|]. intros <-. set_solver.
  - apply Hkeep; [apply C|done].
  - intros e [_ Hl]%lookup_delete_Some. by apply (c_listen_data _ C).
  - intros c Hc. assert (c ∈ opened (kern s) /\ (c = fd ctx -> c = 0)) as [Hc' Hz].
    { destruct Hop as [Hop|[E0 Hop]]; rewrite Hop in Hc; set_solver. }
    destruct (decide (c = fd ctx)) as [E0|Hne]; [auto|].
    destruct (c_opened _ C _ Hc') as [?|[?|[?|(q & x & Hq & <-)]]]; [tauto..|].
    do 3 right. exists q, x. rewrite lookup_delete_ne; [done|]. intros <-. congruence.
Qed.

(** Closing a connection releases its context, its registration, the handler's
    object and, unless it is 0, its descriptor, and nothing else. *)
Lemma close_and_release_ok s ev ctx a :
  consistent s -> ctxs s !! data ev = Some ctx -> a_del a <> -1 ->
  exists ret ev' s', close_and_release s ev a = Some (ret, ev', s') /\ consistent s' /\
    ctxs s' = delete (data ev) (ctxs s) /\ listen_socket_fd_ s' = listen_socket_fd_ s.
Proof.
  intros C Hp Hdel. destruct (c_context _ C _ _ Hp) as (Hp0 & Hf0 & Hfl & Hfo & ev0 & Hev & Hdev).
  destruct (c_data _ C _ _ Hp) as (d & Hd & Hdo).
  destruct (OnClose_law (event_handler_ s) ctx d Hd Hdo) as (r & h & Ec & Ho).
  unfold close_and_release. rewrite (proj2 (Z.eqb_neq _ _) Hp0), Hp. simpl. rewrite Ec. simpl. set (ev1 := mkEvent _ _).
  pose proof (given_up_close (a_del a) (fd ctx) ev1 (kern s) Hf0 ltac:(tauto)) as G. simpl in G.
  destruct (0 <? fd ctx); eexists _, _, _; (split; [done|]); (split; [|done]);
    by apply consistent_release with ctx d.
Qed.

(** A new connection, registered. *)
Lemma consistent_accept s c ctx h p d evs k :
  consistent s -> 0 <= c -> c ∉ opened (kern s) -> p <> 0 ->
  ctxs s !! p = None -> fd ctx = c -> data_ptr ctx = Some d -> d ∉ objects (event_handler_ s) ->
  objects h = {[d]} ∪ objects (event_handler_ s) ->
  opened k = {[c]} ∪ opened (kern s) -> interest k = <[c := mkEvent evs p]> (interest (kern s)) ->
  consistent (upd s h (<[p := ctx]> (ctxs s)) k).
Proof.
  intros C Hc0 Hco Hp0 Hpn Hfd Hd Hdn Ho Hop Hi.
  assert (c <> listen_socket_fd_ s) as Hcl by (intros ->; apply Hco, C).
  assert (forall q x, ctxs s !! q = Some x -> fd x <> c) as Hne.
  { intros q x Hq E0. destruct (c_context _ C _ _ Hq) as (_ & _ & _ & Hx & _). congruence. }
  assert (forall q x, <[p := ctx]> (ctxs s) !! q = Some x -> q = p /\ x = ctx \/ q <> p /\ ctxs s !! q = Some x) as Hcase.
  { intros q x. destruct (decide (q = p)) as [-> |]; [rewrite lookup_insert_eq|rewrite lookup_insert_ne by done];
      naive_solver. }
  assert (forall q x, ctxs s !! q = Some x -> <[p := ctx]> (ctxs s) !! q = Some x) as Hold.
  { intros q x Hq. rewrite lookup_insert_ne; [done|congruence]. }
  constructor; simpl; rewrite ?Hi, ?Hop, ?Ho.
  - intros c' ev Hl Hc'. destruct (decide (c' = c)) as [-> |].
    + rewrite lookup_insert_eq in Hl. simplify_eq. simpl. exists ctx. by rewrite lookup_insert_eq.
    + rewrite lookup_insert_ne in Hl by done. destruct (c_registered _ C _ _ Hl Hc') as (x & Hx & Hf). eauto.
  - intros q x Hq. destruct (Hcase _ _ Hq) as [[-> ->]|[_ Hq']].
    + rewrite Hfd, lookup_insert_eq. split_and!; try done; [set_solver|eauto].
    + destruct (c_context _ C _ _ Hq') as (? & ? & ? & ? & e & He & Hde).
      rewrite lookup_insert_ne by (apply not_eq_sym; by eapply Hne). split_and!; try done; [set_solver|eauto].
  - intros q x Hq. destruct (Hcase _ _ Hq) as [[-> ->]|[_ Hq']]; [exists d; set_solver|].
    destruct (c_data _ C _ _ Hq') as (d' & ? & ?). exists d'. set_solver.
  - intros p1 p2 c1 c2 H1 H2 E0.
    destruct (Hcase _ _ H1) as [[-> ->]|[_ H1']], (Hcase _ _ H2) as [[-> ->]|[_ H2']]; [done| | |by eapply C].
    + destruct (c_data _ C _ _ H2') as (d' & ? & ?). congruence.
    + destruct (c_data _ C _ _ H1') as (d' & ? & ?). congruence.
  - intros d' [Hd'|Hd']%elem_of_union.
    + apply elem_of_singleton in Hd' as ->. exists p, ctx. by rewrite lookup_insert_eq.
    + destruct (c_no_leak _ C _ Hd') as (q & x & Hq & Hqd). eauto.
  - pose proof (c_listen _ C). set_solver.
  - intros e. rewrite lookup_insert_ne by done. apply C.
  - intros c' [Hc'|Hc']%elem_of_union.
    + apply elem_of_singleton in Hc' as ->. do 3 right. exists p, ctx. by rewrite lookup_insert_eq.
    + destruct (c_opened _ C _ Hc') as [?|[?|[?|(q & x & Hq & <-)]]]; eauto 10.
Qed.

(** A connection that could not be registered is closed again. *)
Lemma consistent_refused s h k c :
  consistent s -> objects h = objects (event_handler_ s) -> c ∉ opened (kern s) ->
  interest k = interest (kern s) -> (opened k = opened (kern s) \/ c = 0 /\ opened k = {[c]} ∪ opened (kern s)) ->
  consistent (upd s h (ctxs s) k).
Proof.
  intros C Ho Hc Hi Hop.
  assert (opened (kern s) ⊆ opened k) as Hsub by (destruct Hop as [-> |[_ ->]]; set_solver).
  constructor; simpl; rewrite ?Hi, ?Ho; try apply C.
  - intros p ctx Hp. destruct (c_context _ C _ _ Hp) as (? & ? & ? & ? & ?). split_and!; try done. by apply Hsub.
  - apply Hsub, C.
  - intros x Hx. destruct Hop as [Hop|[-> Hop]]; rewrite Hop in Hx; [by apply C|].
    apply elem_of_union in Hx as [->%elem_of_singleton|Hx]; [auto|by apply C].
Qed.

Lemma union_difference_new (X : gset Z) d : d ∉ X -> ({[d]} ∪ X) ∖ {[d]} = X.
Proof. set_solver. Qed.

(** The connections other than [p] are where they were. *)
Definition others_kept (p : Z) (s s' : t H) : Prop :=
  listen_socket_fd_ s' = listen_socket_fd_ s /\
  forall q, q <> p -> is_Some (ctxs s !! q) -> is_Some (ctxs s' !! q).

Lemma handle_accept_event_ok s ev a :
  consistent s -> fair s ev a ->
  exists r s', handle_accept_event s a = Some (r, s') /\ consistent s' /\
    listen_socket_fd_ s' = listen_socket_fd_ s /\ forall p, is_Some (ctxs s !! p) -> is_Some (ctxs s' !! p).
Proof.
  intros C [Fa _ (Fc0 & Fcn) Fd]. unfold handle_accept_event, accept_socket.
  destruct (a_accept a) as [c ip]; simpl in Fa. destruct (Z.eqb_spec c (-1)) as [->|Hc]; simpl.
  { eexists _, _. by split_and!. }
  rewrite (proj2 (Z.eqb_neq _ _) Hc). destruct (Fa Hc) as [Hc0 Hco].
  destruct (OnAccept_law (event_handler_ s) (mkEpollEventContext None c ip) (a_data_addr a) Fd)
    as (r & ctx & h & -> & Hfd & Hd & Ho). simpl in Hfd.
  set (ev0 := mkEvent _ (a_ctx_addr a)). set (k2 := set_nonblocking _ _ _).
  destruct (Z.eqb_spec (a_ctl a) (-1)) as [Ea|Ea].
  - unfold epoll_ctl at 1. rewrite (proj2 (Z.eqb_eq _ _) Ea). unfold close_and_release.
    cbn [data ev0]. rewrite (proj2 (Z.eqb_neq _ _) Fc0). simpl. rewrite lookup_insert_eq. simpl.
    destruct (OnClose_law h ctx (a_data_addr a) Hd ltac:(set_solver)) as (r' & h' & -> & Ho'). simpl. rewrite Hfd.
    assert (interest (kern s) !! c = None) as Hni.
    { destruct (interest (kern s) !! c) eqn:Ei; [|done]. destruct Hco. apply registered_opened; [done|]. eauto. }
    set (ev1 := mkEvent _ (a_ctx_addr a)).
    pose proof (given_up_close (a_del a) c ev1 k2 Hc0 ltac:(auto)) as G. simpl in G.
    assert (forall k, given_up c k2 k -> consistent (upd s h' (ctxs s) k)) as Hcons.
    { intros k [Hi Hop]. apply consistent_refused with c; [done|by rewrite Ho', Ho, union_difference_new|done| |].
      - rewrite Hi. simpl. by rewrite delete_id.
      - destruct Hop as [-> |[-> ->]]; simpl; [left; set_solver|by right]. }
    destruct (0 <? c); (eexists _, _; split; [done|]); rewrite delete_insert_id by done; (split_and!; [by apply Hcons|done|done]).
  - unfold epoll_ctl. rewrite (proj2 (Z.eqb_neq _ _) Ea). eexists _, _. split; [done|]. split_and!; [|done|].
    + by eapply consistent_accept with (d := a_data_addr a) (c := c).
    + intros q Hq. simpl. destruct (decide (q = a_ctx_addr a)) as [-> |];
        [rewrite lookup_insert_eq; eauto|by rewrite lookup_insert_ne].
Qed.

Lemma release_upd s ev ctx ctx' h a :
  consistent s -> ctxs s !! data ev = Some ctx -> fd ctx' = fd ctx -> data_ptr ctx' = data_ptr ctx ->
  objects h = objects (event_handler_ s) -> a_del a <> -1 ->
  exists ret ev' s',
    close_and_release (upd s h (<[data ev := ctx']> (ctxs s)) (kern s)) ev a = Some (ret, ev', s') /\
    consistent s' /\ others_kept (data ev) s s'.
Proof.
  intros C Hp Hfd Hd Ho Hdel.
  pose proof (consistent_upd s (data ev) ctx ctx' h (kern s) C Hp Hfd Hd Ho eq_refl (or_introl eq_refl)) as C1.
  destruct (close_and_release_ok _ ev ctx' a C1) as (ret & ev' & s' & -> & C2 & Hcs & Hl);
    [apply lookup_insert_eq|done|]. eexists _, _, _. split; [done|]. split; [done|].
  split; [by rewrite Hl|]. intros q Hq Hs. rewrite Hcs. simpl. rewrite lookup_delete_ne by done.
  by rewrite lookup_insert_ne.
Qed.

Lemma rearm_upd s ev ctx ctx' h (a : answers E) evs :
  consistent s -> ctxs s !! data ev = Some ctx -> fd ctx' = fd ctx -> data_ptr ctx' = data_ptr ctx ->
  objects h = objects (event_handler_ s) ->
  let s' := upd s h (<[data ev := ctx']> (ctxs s))
              (epoll_ctl (a_ctl a) EPOLL_CTL_MOD (fd ctx) (mkEvent evs (data ev)) (kern s)) in
  consistent s' /\ others_kept (data ev) s s'.
Proof.
  intros C Hp Hfd Hd Ho s'. split.
  - eapply consistent_upd; [done..| |]; unfold epoll_ctl; case_test; simpl; eauto.
  - split; [done|]. intros q Hq Hs. simpl. by rewrite lookup_insert_ne.
Qed.

Lemma handle_readable_event_ok s ev a ctx :
  consistent s -> ctxs s !! data ev = Some ctx -> a_del a <> -1 ->
  exists r s', handle_readable_event s ev a = Some (r, s') /\ consistent s' /\ others_kept (data ev) s s'.
Proof.
  intros C Hp Hdel. unfold handle_readable_event. rewrite Hp. simpl. destruct (a_recv a) as [n buf].
  destruct (c_data _ C _ _ Hp) as (d & Hd & Hdo).
  assert (exists st ctx' h, (if 0 <? n then OnReadable (event_handler_ s) ctx buf (a_call a)
            else Some (READ_ERROR, ctx, event_handler_ s)) = Some (st, ctx', h) /\ fd ctx' = fd ctx /\
            data_ptr ctx' = data_ptr ctx /\ objects h = objects (event_handler_ s))
    as (st & ctx' & h & -> & Hf & Hd' & Ho).
  { case_test; [|by eexists _, _, _].
    destruct (OnReadable_law (event_handler_ s) ctx d buf (a_call a) Hd Hdo) as (? & ? & ? & -> & ? & ? & ?).
    eexists _, _, _. split; [done|]. split_and!; congruence. }
  cbn [mbind option_bind]. case_test.
  - destruct (release_upd s ev ctx ctx' h a C Hp Hf Hd' Ho Hdel) as (? & ? & s' & -> & ? & ?).
    eexists _, _. by split.
  - eexists _, _. split; [done|]. by apply (rearm_upd s ev ctx ctx' h a).
Qed.

Lemma handle_writeable_event_ok s ev a ctx :
  consistent s -> ctxs s !! data ev = Some ctx -> a_del a <> -1 ->
  exists r s', handle_writeable_event s ev a = Some (r, s') /\ consistent s' /\ others_kept (data ev) s s'.
Proof.
  intros C Hp Hdel. unfold handle_writeable_event. rewrite Hp. simpl.
  destruct (c_data _ C _ _ Hp) as (d & Hd & Hdo).
  destruct (OnWriteable_law (event_handler_ s) ctx d (a_send a) Hd Hdo) as (st & ctx' & h & -> & Hf & Hd' & Ho).
  rewrite <- Hd in Hd'. cbn [mbind option_bind]. case_test.
  - destruct (release_upd s ev ctx ctx' h a C Hp Hf Hd' Ho Hdel) as (? & ? & s' & -> & ? & ?).
    eexists _, _. by split.
  - eexists _, _. split; [done|]. by apply (rearm_upd s ev ctx ctx' h a).
Qed.

Lemma handle_event_ok s ev a :
  consistent s -> live s ev -> fair s ev a ->
  exists s', handle_event s ev a = Some s' /\ consistent s' /\ listen_socket_fd_ s' = listen_socket_fd_ s /\
    forall q, (data_fd ev = listen_socket_fd_ s \/ q <> data ev) -> is_Some (ctxs s !! q) -> is_Some (ctxs s' !! q).
Proof.
  intros C Hl F. unfold handle_event. destruct (Z.eqb_spec (data_fd ev) (listen_socket_fd_ s)) as [E0|E0].
  { destruct (handle_accept_event_ok s ev a C F) as (r & s' & -> & C' & Hl' & Hk). eexists. split; [done|].
    split_and!; [done|done|]. intros q _. apply Hk. }
  destruct Hl as [Hl|[ctx Hp]]; [done|].
  assert (a_del a <> -1) as Hdel.
  { apply (f_del _ _ _ F ctx E0 Hp). destruct (c_context _ C _ _ Hp) as (_ & _ & _ & _ & e & -> & _). eauto. }
  case_test; [|case_test].
  - destruct (handle_readable_event_ok s ev a ctx C Hp Hdel) as (r & s' & -> & C' & Hl & Hk).
    eexists. split; [done|]. split_and!; [done|done|]. intros q [?|Hq]; [done|by apply Hk].
  - destruct (handle_writeable_event_ok s ev a ctx C Hp Hdel) as (r & s' & -> & C' & Hl & Hk).
    eexists. split; [done|]. split_and!; [done|done|]. intros q [?|Hq]; [done|by apply Hk].
  - eexists. by split_and!.
Qed.

(** *** The loop as a transition system

    A configuration is the loop's state and the events of the current batch not
    yet handled.  [epoll_wait] reports every ready descriptor once, with the data
    it was registered with. *)
Definition reported (s : t H) (c : Z) (ev : epoll_event) : Prop :=
  exists e, interest (kern s) !! c = Some e /\ data e = data ev.

Inductive step : t H * list epoll_event -> t H * list epoll_event -> Prop :=
  | step_wait s evs cs : NoDup cs -> Forall2 (reported s) cs evs -> step (s, []) (s, evs)
  | step_handle s ev evs a s' :
      fair s ev a -> handle_event s ev a = Some s' -> step (s, ev :: evs) (s', evs).

(** The events that do not look like the listening socket's. *)
Definition connections (l : Z) (evs : list epoll_event) : list epoll_event :=
  base.filter (fun ev => data_fd ev <> l) evs.

Definition safe (c : t H * list epoll_event) : Prop :=
  consistent (fst c) /\ Forall (live (fst c)) (snd c) /\
  NoDup (data <$> connections (listen_socket_fd_ (fst c)) (snd c)).

Lemma reported_live s c ev : consistent s -> reported s c ev -> live s ev.
Proof.
  intros C (e & He & Hd). destruct (decide (c = listen_socket_fd_ s)) as [-> |Hc].
  - left. rewrite <- (c_listen_data _ C _ He). unfold data_fd. by rewrite Hd.
  - right. destruct (c_registered _ C _ _ He Hc) as (ctx & Hctx & _). rewrite <- Hd. eauto.
Qed.

(** Two descriptors are never reported with the same connection. *)
Lemma reported_same s c1 c2 ev1 ev2 :
  consistent s -> reported s c1 ev1 -> reported s c2 ev2 -> data ev1 = data ev2 ->
  data_fd ev1 <> listen_socket_fd_ s -> c1 = c2.
Proof.
  intros C (e1 & He1 & Hd1) (e2 & He2 & Hd2) E0 Hl.
  assert (forall c e, interest (kern s) !! c = Some e -> data e = data ev1 -> c <> listen_socket_fd_ s) as Hne.
  { intros c e He Hd ->. apply Hl. rewrite <- (c_listen_data _ C _ He). unfold data_fd. by rewrite Hd. }
  destruct (c_registered _ C _ _ He1) as (x1 & Hx1 & <-); [by eapply Hne|].
  destruct (c_registered _ C _ _ He2) as (x2 & Hx2 & <-); [eapply Hne; [done|congruence]|]. congruence.
Qed.

Lemma reported_nodup s cs evs :
  consistent s -> NoDup cs -> Forall2 (reported s) cs evs ->
  NoDup (data <$> connections (listen_socket_fd_ s) evs).
Proof.
  intros C Hnd HF. induction HF as [|c ev cs evs Hc HF IH]; [constructor|].
  apply NoDup_cons in Hnd as [Hn Hnd]. unfold connections. rewrite filter_cons. case_decide as Hl; [|by apply IH].
  rewrite fmap_cons. apply NoDup_cons. split; [|by apply IH].
  intros (ev' & E0 & [Hl' Hin]%list_elem_of_filter)%list_elem_of_fmap. apply Hn.
  apply list_elem_of_lookup in Hin as [i Hi]. destruct (Forall2_lookup_r _ _ _ _ _ HF Hi) as (c' & Hc' & Hr).
  rewrite (reported_same s c c' ev ev' C Hc Hr E0 Hl). by apply list_elem_of_lookup_2 in Hc'.
Qed.

Lemma safe_step c c' : safe c -> step c c' -> safe c'.
Proof.
  intros (C & L & N) Hs. destruct Hs as [s evs cs Hnd HF|s ev evs a s' F E0]; simpl in *.
  - split_and!; [done| |by eapply reported_nodup]. clear Hnd. simpl.
    induction HF; constructor; [by eapply reported_live|by apply IHHF].
  - apply Forall_cons in L as [L1 L].
    destruct (handle_event_ok s ev a C L1 F) as (s1 & E1 & C1 & Hl & Hk).
    assert (s1 = s') as -> by congruence. unfold connections in N. rewrite filter_cons in N. simpl in N.
    assert (NoDup (data <$> connections (listen_socket_fd_ s) evs)) as N'
      by (case_decide; [by apply NoDup_cons in N as [_ ?]|done]).
    split_and!; [done| |unfold connections; simpl; by rewrite Hl]. simpl.
    apply Forall_forall. intros e He. pose proof (proj1 (Forall_forall _ _) L e He) as [Le|Le].
    + left. congruence.
    + destruct (decide (data_fd e = listen_socket_fd_ s)) as [Hle|Hle]; [left; congruence|].
      right. apply Hk; [|done]. destruct (decide (data_fd ev = listen_socket_fd_ s)) as [?|Hlv]; [by left|]. right.
      rewrite decide_True in N by done. rewrite fmap_cons in N. apply NoDup_cons in N as [N1 _].
      intros Ed. apply N1. rewrite <- Ed. apply list_elem_of_fmap_2, list_elem_of_filter. done.
Qed.

(** [data.fd] of the listening socket's event is that socket, whatever the rest of
    the union holds. *)
Lemma low_half high l : 0 <= l < 2 ^ 31 -> i32 (high * 2 ^ 32 + u32 l) = l.
Proof.
  intros Hl. rewrite wrapu_id by (unfold in_u; lia). rewrite <- (wraps_id 32 l) at 2 by (unfold in_s; lia).
  apply wraps_eq_iff; [lia|]. rewrite Z.add_comm, Z.mod_add by lia. done.
Qed.

(** The state right before the loop starts, when every call succeeded. *)
Definition started (port backlog max_events : Z) (h : H) (socket efd high : Z) : t H :=
  snd (add_listen_socket_to_epoll
         (snd (create_epoll (snd (listen_on (make port backlog max_events h) socket 0 0)) efd)) 0 high).

Lemma started_safe port backlog max_events h socket efd high :
  0 <= socket < 2 ^ 31 -> 0 <= efd -> objects h = ∅ ->
  safe (started port backlog max_events h socket efd high, []).
Proof.
  intros Hs He Ho. unfold started, listen_on, create_epoll.
  rewrite (proj2 (Z.eqb_neq socket (-1))) by lia. simpl. rewrite (proj2 (Z.eqb_neq efd (-1))) by lia. simpl.
  unfold safe; simpl. split_and!; [|constructor|constructor].
  constructor; simpl; [|by intros ? ?; rewrite lookup_empty..| |set_solver| |set_solver].
  - intros c ev Hl Hc. by rewrite lookup_insert_ne, lookup_empty in Hl.
  - intros d. rewrite Ho. set_solver.
  - intros ev. rewrite lookup_insert_eq. intros [= <-]. unfold data_fd. cbn [data]. apply low_half. lia.
Qed.

(** Every reachable configuration can take its next step. *)
Lemma reachable_safe c c' : safe c -> rtc step c c' -> safe c'.
Proof. intros Hs. apply invariant_rtc; [apply safe_step|done]. Qed.

End safety.

End EpollSocket.
