(* ===== verification/HttpServer.v ===== *)
(** * http/http_server/http_server.{h,cpp}

    [HttpServer]: the event loop of [EpollSocket] around one
    [HttpEpollEventHandler].  The handler object is shared: the loop's pointer
    and the server's are the same, so the server's state is the loop's, or
    nothing after destruction. *)

From S2P Require Import Prelude StdMap EpollTypes HttpRequest HttpResponse HttpHandler EpollSocket.

Module HttpServer.

(** [HttpEpollEventHandler] implements the loop's interface. *)
#[global] Instance http_handler : EpollEventHandler HttpHandler.t HttpHandler.calls := {
  OnAccept := HttpHandler.OnAccept;
  OnReadable := HttpHandler.OnReadable;
  OnWriteable h ctx send :=
    '(st, _, h1) ← HttpHandler.OnWriteable h ctx send; Some (st, ctx, h1);
  OnClose := HttpHandler.OnClose;
}.

Record t := mk { epoll_socket_ : option (EpollSocket.t HttpHandler.t) }.

Definition make (port backlog max_events : Z) : t :=
  mk (Some (EpollSocket.make port backlog max_events (HttpHandler.mk [] ∅))).

Definition destroy (s : t) : t := mk None.

(** [uri2handler[path] = handler] *)
Definition RegisterHandler (path : bytes) (handler : HttpHandler.HttpHandler) (s : t) : option t :=
  es ← epoll_socket_ s;
  let h := EpollSocket.event_handler_ es in
  let h1 := HttpHandler.mk (StdMap.assign path handler (HttpHandler.uri2handler h)) (HttpHandler.heap h) in
  Some (mk (Some (EpollSocket.upd es h1 (EpollSocket.ctxs es) (EpollSocket.kern es)))).

(** [Start] drops the loop's result. *)
Definition Start (s : t) (socket bind listen efd ctl high : Z)
    (waits : list (option (list (EpollSocket.epoll_event * EpollSocket.answers HttpHandler.calls)))) : option (Z * t) :=
  es ← epoll_socket_ s;
  '(_, es1) ← EpollSocket.Start es socket bind listen efd ctl high waits;
  Some (0, mk (Some es1)).

(** ** The handler keeps the loop's contract *)

Lemma deref_live h (ctx : EpollEventContext Z) d :
  data_ptr ctx = Some d -> d ∈ dom (HttpHandler.heap h) ->
  exists c, HttpHandler.heap h !! d = Some c /\ HttpHandler.deref h ctx = Some (d, c).
Proof.
  intros Hd Hin. apply elem_of_dom in Hin as [c Hc]. exists c. split; [done|].
  unfold HttpHandler.deref. rewrite Hd. simpl. by rewrite Hc.
Qed.

Lemma dom_update (m : gmap Z HttpHandler.HttpContext) d c c' :
  m !! d = Some c -> dom (<[d := c']> m) = dom m.
Proof. intros H. rewrite dom_insert_L. apply elem_of_dom_2 in H. set_solver. Qed.

#[global] Instance http_handler_laws : EpollEventHandlerLaws HttpHandler.t HttpHandler.calls.
Proof.
  refine {| objects h := dom (HttpHandler.heap h) |}.
  - intros h ctx addr Ha. eexists _, _, _. split; [done|]. simpl. by rewrite dom_insert_L.
  - intros h ctx d buf call Hd Hin. destruct (deref_live h ctx d Hd Hin) as (c & Hc & E).
    simpl. unfold HttpHandler.OnReadable. rewrite E. cbn [mbind option_bind].
    destruct (HttpRequest.OnReadable_total (HttpHandler.req c) buf) as (st & r & -> & _).
    cbn [mbind option_bind]. case_decide.
    + eexists _, _, _. split_and!; [done|done|done|]. simpl. by eapply dom_update.
    + destruct (HttpHandler.handle_http_request _ _ _ _) as [[? ?] ?].
      eexists _, _, _. split_and!; [done|done|done|]. simpl. by eapply dom_update.
  - intros h ctx d send Hd Hin. destruct (deref_live h ctx d Hd Hin) as (c & Hc & E).
    simpl. unfold HttpHandler.OnWriteable. rewrite E. cbn [mbind option_bind].
    destruct (HttpHandler.is_keepalive _) as [k rq]. destruct (HttpResponse.OnWriteable _ _ _) as [[[st b] w] rs].
    case_test; eexists _, _, _; (split_and!; [done|done|done|]); simpl; by eapply dom_update.
  - intros h ctx d Hd Hin. destruct (deref_live h ctx d Hd Hin) as (c & Hc & _).
    simpl. unfold HttpHandler.OnClose. rewrite Hd, Hc. simpl. eexists _, _. split; [done|]. simpl.
    by rewrite dom_delete_L.
Defined.

(** The server just started, with the handlers [hs] registered. *)
Definition running (hs : list (bytes * HttpHandler.HttpHandler)) (socket efd high : Z)
  : EpollSocket.t HttpHandler.t :=
  EpollSocket.started 8080 10 1000 (HttpHandler.mk hs ∅) socket efd high.

Lemma running_safe hs socket efd high :
  0 <= socket < 2 ^ 31 -> 0 <= efd -> EpollSocket.safe (running hs socket efd high, []).
Proof. intros Hs He. apply EpollSocket.started_safe; [done|done|apply dom_empty_L]. Qed.

(** C3: in every reachable state of the running server, every event of the
    current batch can be handled: no connection context or HTTP context is used
    after it was freed, whatever clients send, callbacks do and system calls
    answer within what their manual pages promise; also when a connection has
    descriptor 0, and when an event of a connection is taken for one of the
    listening socket because the low half of its context's address is that
    descriptor. *)
Theorem server_never_uses_freed_memory hs socket efd high s ev evs a :
  0 <= socket < 2 ^ 31 -> 0 <= efd ->
  rtc EpollSocket.step (running hs socket efd high, []) (s, ev :: evs) ->
  EpollSocket.fair s ev a -> is_Some (EpollSocket.handle_event s ev a).
Proof.
  intros Hs He Hr F.
  destruct (EpollSocket.reachable_safe _ _ (running_safe _ _ _ _ Hs He) Hr)
    as (C & L & _). apply Forall_cons in L as [L _].
  destruct (EpollSocket.handle_event_ok s ev a C L F) as (s' & -> & _). eauto.
Qed.

(** A callback that leaves request and response as they are. *)
Definition no_calls : HttpHandler.calls := fun _ rq rs => (rq, rs).

(** A run: one client connects on descriptor 7 and sends some bytes. *)
Definition run_answers : EpollSocket.answers HttpHandler.calls :=
  EpollSocket.mkAnswers (7, lit "10.0.0.1") 2 (4, lit "GET ") (fun _ s => vlen s) 0 0 0 4096 8192 no_calls.

Definition run_accept : EpollSocket.epoll_event := EpollSocket.mkEvent 1 3.
Definition run_read : EpollSocket.epoll_event := EpollSocket.mkEvent 1 4096.

Definition run_state : EpollSocket.t HttpHandler.t :=
  default (running [] 3 4 0) (EpollSocket.handle_event (running [] 3 4 0) run_accept run_answers).

Lemma fair_if (s : EpollSocket.t HttpHandler.t) ev (a : EpollSocket.answers HttpHandler.calls) :
  bool_decide (0 <= fst (EpollSocket.a_accept a) /\ fst (EpollSocket.a_accept a) ∉ EpollSocket.opened (EpollSocket.kern s) /\
    EpollSocket.a_del a <> -1 /\ EpollSocket.a_ctx_addr a <> 0 /\ EpollSocket.ctxs s !! EpollSocket.a_ctx_addr a = None /\
    EpollSocket.a_data_addr a ∉ dom (HttpHandler.heap (EpollSocket.event_handler_ s))) = true ->
  EpollSocket.fair s ev a.
Proof. intros H%bool_decide_eq_true. destruct H as (? & ? & ? & ? & ? & ?). by constructor. Qed.

Lemma run_reaches :
  rtc EpollSocket.step (running [] 3 4 0, []) (run_state, [run_read]).
Proof.
  apply rtc_l with (running [] 3 4 0, [run_accept]).
  { apply EpollSocket.step_wait with [3]; [apply NoDup_singleton|]. constructor; [|constructor].
    exists (EpollSocket.mkEvent 1 3). by vm_compute. }
  apply rtc_l with (run_state, []).
  { apply EpollSocket.step_handle with run_answers; [apply fair_if; by vm_compute|]. reflexivity. }
  apply rtc_once. apply EpollSocket.step_wait with [7]; [apply NoDup_singleton|]. constructor; [|constructor].
  exists (EpollSocket.mkEvent (Z.lor 1 (2 ^ 31)) 4096). by vm_compute.
Qed.

(** The next client would come on descriptor 9. *)
Definition run_answers2 : EpollSocket.answers HttpHandler.calls :=
  EpollSocket.mkAnswers (9, lit "10.0.0.2") 2 (4, lit "GET ") (fun _ s => vlen s) 0 0 0 4160 8256 no_calls.

Lemma server_never_uses_freed_memory_witness :
  is_Some (EpollSocket.handle_event run_state run_read run_answers2).
Proof.
  apply (server_never_uses_freed_memory [] 3 4 0 run_state run_read []); [lia|lia|apply run_reaches|].
  apply fair_if. by vm_compute.
Defined.

(** What a server holds for its connections, and that nothing else is held: every
    context has an open descriptor, registered with the context's address, and
    an HTTP context of its own; every registered descriptor but the listening one
    has a context; every open descriptor but the listening one, epoll's and 0 has one;
    every HTTP context belongs to one; different contexts have different
    descriptors and HTTP contexts. *)
Definition one_to_one (s : EpollSocket.t HttpHandler.t) : Prop :=
  let k := EpollSocket.kern s in
  let heap := HttpHandler.heap (EpollSocket.event_handler_ s) in
  (forall p ctx, EpollSocket.ctxs s !! p = Some ctx ->
     fd ctx ∈ EpollSocket.opened k /\
     (exists e, EpollSocket.interest k !! fd ctx = Some e /\ EpollSocket.data e = p) /\
     exists d c, data_ptr ctx = Some d /\ heap !! d = Some c) /\
  (forall c e, EpollSocket.interest k !! c = Some e -> c <> EpollSocket.listen_socket_fd_ s ->
     exists ctx, EpollSocket.ctxs s !! EpollSocket.data e = Some ctx /\ fd ctx = c) /\
  (forall c, c ∈ EpollSocket.opened k ->
     c = EpollSocket.listen_socket_fd_ s \/ c = EpollSocket.epoll_fd_ s \/ c = 0 \/
     exists p ctx, EpollSocket.ctxs s !! p = Some ctx /\ fd ctx = c) /\
  (forall d c, heap !! d = Some c -> exists p ctx, EpollSocket.ctxs s !! p = Some ctx /\ data_ptr ctx = Some d) /\
  (forall p1 p2 c1 c2, EpollSocket.ctxs s !! p1 = Some c1 -> EpollSocket.ctxs s !! p2 = Some c2 ->
     data_ptr c1 = data_ptr c2 \/ fd c1 = fd c2 -> p1 = p2).

(** C5: in every reachable state the contexts, the registered descriptors, the open
    descriptors and the HTTP contexts correspond one to one, the listening
    socket and epoll's own descriptor apart: nothing is left behind by the
    connections that were closed.  The one exception is descriptor 0, which
    [close_and_release] unregisters but does not close. *)
Theorem server_leaks_nothing hs socket efd high s evs :
  0 <= socket < 2 ^ 31 -> 0 <= efd ->
  rtc EpollSocket.step (running hs socket efd high, []) (s, evs) -> one_to_one s.
Proof.
  intros Hs He Hr.
  destruct (EpollSocket.reachable_safe _ _ (running_safe _ _ _ _ Hs He) Hr)
    as (C & _ & _). simpl in C. split_and!.
  - intros p ctx Hp. destruct (EpollSocket.c_context _ C _ _ Hp) as (_ & _ & _ & ? & ?).
    destruct (EpollSocket.c_data _ C _ _ Hp) as (d & Hd & Ho).
    change (d ∈ dom (HttpHandler.heap (EpollSocket.event_handler_ s))) in Ho.
    apply elem_of_dom in Ho as [c Hc]. eauto 10.
  - apply C.
  - apply C.
  - intros d c Hc. apply (EpollSocket.c_no_leak _ C).
    change (d ∈ dom (HttpHandler.heap (EpollSocket.event_handler_ s))). by eapply elem_of_dom_2.
  - intros p1 p2 c1 c2 H1 H2 [E|E]; [by eapply (EpollSocket.c_data_inj _ C)|].
    destruct (EpollSocket.c_context _ C _ _ H1) as (_ & _ & _ & _ & e1 & He1 & <-).
    destruct (EpollSocket.c_context _ C _ _ H2) as (_ & _ & _ & _ & e2 & He2 & <-).
    rewrite E in He1. congruence.
Qed.

Lemma server_leaks_nothing_witness : one_to_one run_state.
Proof. apply (server_leaks_nothing [] 3 4 0 run_state [run_read]); [lia|lia|apply run_reaches]. Defined.

(** The exception: a connection on descriptor 0 is closed, its descriptor is not. *)
Definition zero_answers : EpollSocket.answers HttpHandler.calls :=
  EpollSocket.mkAnswers (0, lit "10.0.0.1") 2 (0, []) (fun _ s => vlen s) 0 0 0 4096 8192 no_calls.

Example descriptor_zero_stays_open :
  (fun s => (EpollSocket.ctxs s, bool_decide (0 ∈ EpollSocket.opened (EpollSocket.kern s)))) <$>
    EpollSocket.handle_events (running [] 3 4 0) [(run_accept, zero_answers); (run_read, zero_answers)] =
  Some (∅, true).
Proof. vm_compute. reflexivity. Qed.

End HttpServer.
