(* ===== verification/HttpExchange.v ===== *)
(** * http/http_server: whole exchanges

    The event loop, the handler, the request parser and the response together.
    [run] is the loop's body over a sequence of events, with the bytes that go
    out; the events of many connections may be interleaved in it.  First, every
    connection is served as if it were the only one; then, for one connection,
    the exchange of a request and its response. *)

From S2P Require Import Prelude StdMap SStream EpollTypes HttpRequest HttpResponse HttpHandler EpollSocket HttpServer.
Import EpollSocket.

Module HttpExchange.

Abbreviation server := (EpollSocket.t HttpHandler.t).
Abbreviation answers := (EpollSocket.answers HttpHandler.calls).
Abbreviation event := (epoll_event * answers)%type.

Definition http_heap (s : server) : gmap Z HttpHandler.HttpContext := HttpHandler.heap (event_handler_ s).
Definition handlers (s : server) : list (bytes * HttpHandler.HttpHandler) := HttpHandler.uri2handler (event_handler_ s).

(** The bytes the kernel takes when an event is handled. *)
Definition event_output (s : server) (ev : epoll_event) (a : answers) : bytes :=
  if data_fd ev =? listen_socket_fd_ s then []
  else if negb (Z.land (events ev) EPOLLIN =? 0) then []
  else if negb (Z.land (events ev) EPOLLOUT =? 0) then
    match ctxs s !! data ev with
    | Some ctx =>
        match HttpHandler.OnWriteable (event_handler_ s) ctx (a_send a) with
        | Some (_, out, _) => out
        | None => []
        end
    | None => []
    end
  else [].

(** [handle_events] with what is sent, each piece with the context it belongs to. *)
Fixpoint run (s : server) (evs : list event) : option (server * list (Z * bytes)) :=
  match evs with
  | [] => Some (s, [])
  | (ev, a) :: evs' =>
      s1 ← handle_event s ev a;
      '(s2, out) ← run s1 evs';
      Some (s2, (data ev, event_output s ev a) :: out)
  end.

Lemma run_handle_events s evs s' out : run s evs = Some (s', out) -> handle_events s evs = Some s'.
Proof.
  revert s out. induction evs as [|[ev a] evs IH]; intros s out; simpl; [by intros [= <-]|].
  destruct (handle_event s ev a) as [s1|]; [|done]. simpl.
  destruct (run s1 evs) as [[s2 out2]|] eqn:E; [|done]. intros [= <- <-]. by eapply IH.
Qed.

Definition sent_to (p : Z) (out : list (Z * bytes)) : bytes := mjoin ((base.filter (fun e => fst e = p) out).*2).

Lemma run_app s evs1 evs2 s1 s2 out1 out2 :
  run s evs1 = Some (s1, out1) -> run s1 evs2 = Some (s2, out2) -> run s (evs1 ++ evs2) = Some (s2, out1 ++ out2).
Proof.
  revert s out1. induction evs1 as [|[ev a] evs1 IH]; intros s out1; simpl.
  - by intros [= <- <-] ->.
  - destruct (handle_event s ev a) as [s'|]; [|done]. simpl.
    destruct (run s' evs1) as [[s'' out']|] eqn:E; [|done]. intros [= <- <-] H2. by rewrite (IH _ _ E H2).
Qed.

Lemma sent_to_app p out1 out2 : sent_to p (out1 ++ out2) = sent_to p out1 ++ sent_to p out2.
Proof. unfold sent_to. by rewrite filter_app, fmap_app, join_app. Qed.

Lemma sent_to_cons p q b out : sent_to p ((q, b) :: out) = (if decide (q = p) then b else []) ++ sent_to p out.
Proof. unfold sent_to. rewrite filter_cons. simpl. by case_decide. Qed.

(** ** The handler works on one context *)

Lemma OnReadable_local h ctx d c buf call :
  data_ptr ctx = Some d -> HttpHandler.heap h !! d = Some c ->
  exists st c', forall h2, HttpHandler.uri2handler h2 = HttpHandler.uri2handler h -> HttpHandler.heap h2 !! d = Some c ->
    HttpHandler.OnReadable h2 ctx buf call = Some (st, ctx, HttpHandler.set_heap (<[d := c']> (HttpHandler.heap h2)) h2).
Proof.
  intros Hd Hc. destruct (HttpRequest.OnReadable_total (HttpHandler.req c) buf) as (st & rq & E & _).
  destruct (decide (st <> READ_OVER)) as [Hst|Hst].
  - eexists st, _. intros h2 Hh Hc2. unfold HttpHandler.OnReadable, HttpHandler.deref. rewrite Hd. simpl.
    rewrite Hc2. simpl. rewrite E. simpl. by rewrite decide_True.
  - destruct (HttpHandler.handle_http_request call h rq (HttpHandler.resp c)) as [[z rq2] rs2] eqn:Eh.
    exists READ_OVER, (HttpHandler.mkHttpContext rq2 rs2 (HttpHandler.ctx_fd c)). intros h2 Hh Hc2.
    unfold HttpHandler.OnReadable, HttpHandler.deref. rewrite Hd. simpl. rewrite Hc2. simpl. rewrite E. simpl.
    rewrite decide_False by done. unfold HttpHandler.handle_http_request in *. by rewrite Hh, Eh.
Qed.

Lemma OnWriteable_local h ctx d c send :
  data_ptr ctx = Some d -> HttpHandler.heap h !! d = Some c ->
  exists st out c', forall h2, HttpHandler.heap h2 !! d = Some c ->
    HttpHandler.OnWriteable h2 ctx send = Some (st, out, HttpHandler.set_heap (<[d := c']> (HttpHandler.heap h2)) h2).
Proof.
  intros Hd Hc. unfold HttpHandler.OnWriteable, HttpHandler.deref. rewrite Hd. cbn [mbind option_bind].
  destruct (HttpHandler.is_keepalive (HttpHandler.req c)) as [k rq] eqn:Ek.
  destruct (HttpResponse.OnWriteable k EPOLL_SOCKET_WRITE_BUFFER_SIZE
    (if negb (HttpResponse.is_writted (HttpHandler.resp c))
     then HttpResponse.set_writted true
            (snd (HttpResponse.ExportBuffer2Response (HttpRequest.http_version rq) k (HttpHandler.resp c)))
     else HttpHandler.resp c)) as [[[st b] w] rs] eqn:Ew.
  destruct (send (HttpHandler.ctx_fd c) b <? 0) eqn:En;
    eexists _, _, _; intros h2 Hc2; rewrite Hc2; cbn [mbind option_bind]; rewrite Ek, Ew, En; done.
Qed.

Lemma OnReadable_inv h ctx buf call st ctx1 h1 :
  HttpHandler.OnReadable h ctx buf call = Some (st, ctx1, h1) ->
  exists d c c', data_ptr ctx = Some d /\ HttpHandler.heap h !! d = Some c /\ ctx1 = ctx /\
    h1 = HttpHandler.set_heap (<[d := c']> (HttpHandler.heap h)) h.
Proof.
  intros E. destruct (data_ptr ctx) as [d|] eqn:Hd;
    [|by unfold HttpHandler.OnReadable, HttpHandler.deref in E; rewrite Hd in E].
  destruct (HttpHandler.heap h !! d) as [c|] eqn:Hc;
    [|by unfold HttpHandler.OnReadable, HttpHandler.deref in E; rewrite Hd in E; simpl in E; rewrite Hc in E].
  destruct (OnReadable_local h ctx d c buf call Hd Hc) as (st' & c' & H). rewrite (H h) in E by done.
  simplify_eq. eauto 10.
Qed.

Lemma OnWriteable_inv h ctx send st out h1 :
  HttpHandler.OnWriteable h ctx send = Some (st, out, h1) ->
  exists d c c', data_ptr ctx = Some d /\ HttpHandler.heap h !! d = Some c /\
    h1 = HttpHandler.set_heap (<[d := c']> (HttpHandler.heap h)) h.
Proof.
  intros E. destruct (data_ptr ctx) as [d|] eqn:Hd;
    [|by unfold HttpHandler.OnWriteable, HttpHandler.deref in E; rewrite Hd in E].
  destruct (HttpHandler.heap h !! d) as [c|] eqn:Hc;
    [|by unfold HttpHandler.OnWriteable, HttpHandler.deref in E; rewrite Hd in E; simpl in E; rewrite Hc in E].
  destruct (OnWriteable_local h ctx d c send Hd Hc) as (st' & out' & c' & H). rewrite (H h) in E by done.
  simplify_eq. eauto 10.
Qed.

(** Handling an event changes neither the listening socket nor the registered
    handlers. *)
Definition fixed (s s' : server) : Prop :=
  listen_socket_fd_ s' = listen_socket_fd_ s /\ handlers s' = handlers s.

Lemma close_and_release_fixed (s : server) ev a r ev' s' :
  close_and_release s ev a = Some (r, ev', s') -> fixed s s'.
Proof.
  unfold close_and_release. case_test; [by intros [= _ _ <-]|]. destruct (ctxs s !! data ev) as [ctx|]; [|done]. simpl.
  unfold HttpHandler.OnClose. destruct (data_ptr ctx) as [d|]; [destruct (HttpHandler.heap _ !! d)|]; simpl; try done;
    case_test; by intros [= _ _ <-].
Qed.

Lemma handle_event_fixed (s s' : server) ev a : handle_event s ev a = Some s' -> fixed s s'.
Proof.
  unfold handle_event, handle_accept_event, handle_readable_event, handle_writeable_event.
  case_test; [|case_test; [|case_test]]; [| | |by intros [= <-]].
  - destruct (accept_socket a (kern s)) as [[c ip] k]. case_test; [by intros [= <-]|]. simpl.
    case_test; [|by intros [= <-]]. destruct (close_and_release _ _ _) as [[[? ?] ?]|] eqn:E; [|done].
    intros [= <-]. by apply close_and_release_fixed in E.
  - destruct (ctxs s !! data ev) as [ctx|]; [|done]. simpl. destruct (a_recv a) as [n b].
    destruct (if 0 <? n then _ else _) as [[[? ctx1] h]|] eqn:Eh; [|done].
    assert (HttpHandler.uri2handler h = handlers s) as Hh.
    { destruct (0 <? n); [|by injection Eh as _ _ <-].
      by apply OnReadable_inv in Eh as (? & ? & ? & _ & _ & _ & ->). }
    simpl. case_test; [|by intros [= <-]].
    destruct (close_and_release _ _ _) as [[[? ?] ?]|] eqn:E; [|done].
    intros [= <-]. apply close_and_release_fixed in E as [? Ht]. split; [done|]. rewrite <- Hh. exact Ht.
  - destruct (ctxs s !! data ev); [|done]. simpl.
    destruct (HttpHandler.OnWriteable _ _ _) as [[[? ?] h]|] eqn:Eh; [|done].
    apply OnWriteable_inv in Eh as (? & ? & ? & _ & _ & ->). simpl. case_test; [|by intros [= <-]].
    destruct (close_and_release _ _ _) as [[[? ?] ?]|] eqn:E; [|done].
    intros [= <-]. by apply close_and_release_fixed in E.
Qed.

Lemma reachable_handlers hs socket efd high c :
  0 <= socket < 2 ^ 31 -> 0 <= efd ->
  rtc EpollSocket.step (HttpServer.running hs socket efd high, []) c -> handlers (fst c) = hs.
Proof.
  intros Hs He. apply (invariant_rtc (S := server * list epoll_event) EpollSocket.step (fun c => handlers (fst c) = hs)).
  - intros x y Hx Hst. destruct Hst as [|s ev evs a s' _ E]; [done|]. simpl in *.
    by apply handle_event_fixed in E as [_ ->].
  - unfold HttpServer.running, started, listen_on, create_epoll. rewrite (proj2 (Z.eqb_neq socket (-1))) by lia. simpl.
    by rewrite (proj2 (Z.eqb_neq efd (-1))) by lia.
Qed.

(** ** Every connection is served as if alone *)

Section connection.
(** The connection: its context's address, its HTTP context's and its descriptor. *)
Context (p d f : Z).

Definition own (e : event) : Prop := data (fst e) = p.
#[local] Instance own_dec e : Decision (own e).
Proof. unfold own. apply _. Defined.

(** No later connection is given the same descriptor or addresses. *)
Definition no_reuse (e : event) : Prop :=
  a_ctx_addr (snd e) <> p /\ a_data_addr (snd e) <> d /\ fst (a_accept (snd e)) <> f.

(** Two servers hold the same for this connection. *)
Record same_view (s t : server) : Prop := {
  v_listen : listen_socket_fd_ t = listen_socket_fd_ s;
  v_handlers : handlers t = handlers s;
  v_ctx : ctxs t !! p = ctxs s !! p;
  v_http : http_heap t !! d = http_heap s !! d;
  v_interest : interest (kern t) !! f = interest (kern s) !! f;
}.

(** The addresses and the descriptor belong to no other connection. *)
Record apart (s : server) : Prop := {
  a_own : forall ctx, ctxs s !! p = Some ctx -> data_ptr ctx = Some d /\ fd ctx = f;
  a_others : forall q ctx, q <> p -> ctxs s !! q = Some ctx -> data_ptr ctx <> Some d /\ fd ctx <> f;
}.

#[global] Instance same_view_equiv : Equivalence same_view.
Proof.
  split.
  - by constructor.
  - intros s t []. by constructor.
  - intros s t u [] []. constructor; by etrans.
Qed.

Lemma consistent_apart s ctx :
  consistent s -> ctxs s !! p = Some ctx -> data_ptr ctx = Some d -> fd ctx = f -> apart s.
Proof.
  intros C Hp Hd Hf. constructor.
  - intros c Hc. by simplify_eq.
  - intros q c Hq Hc. split; intros E; apply Hq.
    + eapply (c_data_inj _ C); [done..|congruence].
    + destruct (c_context _ C _ _ Hc) as (_ & _ & _ & _ & e1 & He1 & <-).
      destruct (c_context _ C _ _ Hp) as (_ & _ & _ & _ & e2 & He2 & <-).
      rewrite E, <- Hf in He1. congruence.
Qed.

(** *** Another connection's event *)

Lemma close_view s ctx a ev r ev' s' :
  data_ptr ctx <> Some d -> fd ctx <> f -> data ev <> p -> ctxs s !! data ev = Some ctx ->
  close_and_release s ev a = Some (r, ev', s') ->
  same_view s s' /\ (s' = s \/ ctxs s' = delete (data ev) (ctxs s)).
Proof.
  intros Hd Hf Hne Hc. unfold close_and_release. case_test; [intros [= <- <- <-]; by split; [|left]|]. rewrite Hc. simpl.
  destruct (HttpHandler.OnClose (event_handler_ s) ctx) as [[z h]|] eqn:Eo; [|done]. simpl.
  assert (HttpHandler.uri2handler h = handlers s /\ HttpHandler.heap h !! d = http_heap s !! d) as [Hh Hhd].
  { unfold HttpHandler.OnClose in Eo. destruct (data_ptr ctx) as [d'|]; [|by injection Eo as _ <-].
    destruct (HttpHandler.heap _ !! d'); [|done]. injection Eo as _ <-. split; [done|]. simpl.
    rewrite lookup_delete_ne by congruence. done. }
  set (k := if _ <? _ then _ else _).
  assert (interest (snd k) !! f = interest (kern s) !! f) as Hi.
  { unfold k. case_test; simpl; rewrite ?lookup_delete_ne by done; unfold epoll_ctl; case_test; simpl;
      rewrite ?lookup_delete_ne by done; done. }
  destruct k as [ret k2]; simpl in Hi. intros [= <- <- <-]. split; [|by right].
  constructor; simpl; try done. by rewrite lookup_delete_ne.
Qed.

Lemma others_close s ctx a ev r ev' s' :
  apart s -> data ev <> p -> ctxs s !! data ev = Some ctx -> close_and_release s ev a = Some (r, ev', s') ->
  same_view s s' /\ apart s'.
Proof.
  intros A Hne Hc E. destruct (a_others _ A _ _ Hne Hc) as [Hd Hf].
  destruct (close_view _ _ _ _ _ _ _ Hd Hf Hne Hc E) as [V Hcs]. split; [done|].
  destruct Hcs as [-> |Hcs]; [done|]. constructor; rewrite Hcs.
  - intros c. rewrite lookup_delete_ne by done. apply A.
  - intros q c Hq [_ Hc']%lookup_delete_Some. by eapply A.
Qed.

(** Writing back the same context and what the handler did to it. *)
Lemma others_upd s q ctx d' c' k :
  apart s -> q <> p -> ctxs s !! q = Some ctx -> data_ptr ctx = Some d' ->
  interest k !! f = interest (kern s) !! f ->
  let s' := upd s (HttpHandler.set_heap (<[d' := c']> (http_heap s)) (event_handler_ s)) (<[q := ctx]> (ctxs s)) k in
  same_view s s' /\ apart s'.
Proof.
  intros A Hne Hc Hd Hi s'. destruct (a_others _ A _ _ Hne Hc) as [Hdd Hf]. unfold s'. split.
  - constructor; simpl; try done; [by rewrite lookup_insert_ne|].
    unfold http_heap. simpl. rewrite lookup_insert_ne by congruence. done.
  - rewrite (insert_id _ _ _ Hc). constructor; simpl; apply A.
Qed.

Lemma epoll_ctl_interest ret op g ev k : g <> f -> interest (epoll_ctl ret op g ev k) !! f = interest k !! f.
Proof.
  intros Hg. unfold epoll_ctl. case_test; [done|]. destruct op; simpl;
    by rewrite ?lookup_insert_ne, ?lookup_delete_ne.
Qed.

Lemma accept_view s a z s' :
  no_reuse (mkEvent 0 0, a) -> handle_accept_event s a = Some (z, s') -> same_view s s'.
Proof.
  intros (Ha & Hd & Hf). simpl in *. unfold handle_accept_event, accept_socket.
  destruct (a_accept a) as [c ip]; simpl in Hf. destruct (Z.eqb_spec c (-1)) as [->|Hc]; simpl; [by intros [= <- <-]|].
  rewrite (proj2 (Z.eqb_neq _ _) Hc). set (k := epoll_ctl _ _ _ _ _). set (s1 := upd _ _ _ k).
  assert (same_view s s1) as V1.
  { constructor; simpl; try done.
    - by rewrite lookup_insert_ne.
    - unfold http_heap. simpl. by rewrite lookup_insert_ne.
    - unfold k. by rewrite epoll_ctl_interest. }
  case_test; [|by intros [= <- <-]].
  destruct (close_and_release s1 _ a) as [[[r ev'] s2]|] eqn:Ec; [|done]. simpl. intros [= <- <-].
  eapply close_view in Ec as [V2 _]; [by etrans| | |exact Ha|apply lookup_insert_eq]; simpl; congruence.
Qed.

Lemma others_accept s a z s' :
  apart s -> no_reuse (mkEvent 0 0, a) -> handle_accept_event s a = Some (z, s') -> same_view s s' /\ apart s'.
Proof.
  intros A Hr E. split; [by eapply accept_view|]. revert E. destruct Hr as (Ha & Hd & Hf). simpl in *.
  unfold handle_accept_event, accept_socket. destruct (a_accept a) as [c ip]; simpl in Hf.
  destruct (Z.eqb_spec c (-1)) as [->|Hc]; simpl; [by intros [= <- <-]|].
  rewrite (proj2 (Z.eqb_neq _ _) Hc). set (s1 := upd _ _ _ _).
  assert (apart s1) as A1.
  { constructor; simpl.
    - intros ctx. rewrite lookup_insert_ne by done. apply A.
    - intros q ctx Hq. destruct (decide (q = a_ctx_addr a)) as [-> |].
      + rewrite lookup_insert_eq. intros [= <-]. simpl. split; congruence.
      + rewrite lookup_insert_ne by done. by apply A. }
  case_test; [|by intros [= <- <-]].
  destruct (close_and_release s1 _ a) as [[[r ev'] s2]|] eqn:Ec; [|done]. simpl. intros [= <- <-].
  eapply others_close in Ec as [_ A2]; [done|done|done|apply lookup_insert_eq].
Qed.

Lemma others_readable s ev a z s' :
  apart s -> data ev <> p -> handle_readable_event s ev a = Some (z, s') -> same_view s s' /\ apart s'.
Proof.
  intros A Hne. unfold handle_readable_event. destruct (ctxs s !! data ev) as [ctx|] eqn:Hc; [|done]. simpl.
  destruct (a_recv a) as [n buf].
  destruct (if 0 <? n then _ else _) as [[[ret ctx1] h]|] eqn:Eh; [|done]. simpl.
  assert (ctx1 = ctx /\ forall k, interest k !! f = interest (kern s) !! f ->
    let s1 := upd s h (<[data ev := ctx]> (ctxs s)) k in same_view s s1 /\ apart s1) as (-> & H1).
  { destruct (0 <? n).
    - apply OnReadable_inv in Eh as (d' & c & c' & Hd' & Hc' & -> & ->). split; [done|].
      intros k Hk. by eapply others_upd.
    - injection Eh as _ <- <-. split; [done|]. intros k Hk.
      rewrite (insert_id _ _ _ Hc). split; constructor; simpl; try done; apply A. }
  destruct (a_others _ A _ _ Hne Hc) as [_ Hf].
  case_test.
  - destruct (close_and_release _ ev a) as [[[r ev'] s2]|] eqn:Ec; [|done]. simpl. intros [= <- <-].
    destruct (H1 (kern s) eq_refl) as (V1 & A1).
    eapply others_close in Ec as [V2 A2]; [|done|done|apply lookup_insert_eq].
    split; [by etrans|done].
  - intros [= <- <-]. apply H1. by rewrite epoll_ctl_interest.
Qed.

Lemma others_writeable s ev a z s' :
  apart s -> data ev <> p -> handle_writeable_event s ev a = Some (z, s') -> same_view s s' /\ apart s'.
Proof.
  intros A Hne. unfold handle_writeable_event. destruct (ctxs s !! data ev) as [ctx|] eqn:Hc; [|done]. simpl.
  destruct (HttpHandler.OnWriteable (event_handler_ s) ctx (a_send a)) as [[[ret out] h]|] eqn:Eh; [|done]. simpl.
  apply OnWriteable_inv in Eh as (d' & c & c' & Hd' & Hc' & ->).
  destruct (a_others _ A _ _ Hne Hc) as [_ Hf]. case_test.
  - destruct (close_and_release _ ev a) as [[[r ev'] s2]|] eqn:Ec; [|done]. simpl. intros [= <- <-].
    destruct (others_upd s (data ev) ctx d' c' (kern s) A Hne Hc Hd' eq_refl) as (V1 & A1).
    eapply others_close in Ec as [V2 A2]; [|done|done|apply lookup_insert_eq].
    split; [by etrans|done].
  - intros [= <- <-]. apply (others_upd s (data ev) ctx d' c'); [done..|]. by rewrite epoll_ctl_interest.
Qed.

Lemma others_event s ev a s' :
  apart s -> no_reuse (ev, a) -> data ev <> p -> handle_event s ev a = Some s' -> same_view s s' /\ apart s'.
Proof.
  intros A Hr Hne. unfold handle_event. case_test; [|case_test; [|case_test]].
  - destruct (handle_accept_event s a) as [[z s1]|] eqn:E; [|done]. intros [= <-]. by eapply others_accept.
  - destruct (handle_readable_event s ev a) as [[z s1]|] eqn:E; [|done]. intros [= <-]. by eapply others_readable.
  - destruct (handle_writeable_event s ev a) as [[z s1]|] eqn:E; [|done]. intros [= <-]. by eapply others_writeable.
  - by intros [= <-].
Qed.

(** *** Its own events *)

(** A server in the same position does the same for the connection. *)
Lemma own_close s t ctx ev a r ev' s' :
  same_view s t -> apart s -> data ev = p -> ctxs s !! p = Some ctx ->
  close_and_release s ev a = Some (r, ev', s') ->
  exists t', close_and_release t ev a = Some (r, ev', t') /\ same_view s' t' /\ apart s'.
Proof.
  intros V A Hev Hc. unfold close_and_release. rewrite Hev. case_test.
  { intros [= <- <- <-]. eexists. by split_and!. }
  rewrite (v_ctx _ _ V), Hc. simpl. destruct (a_own _ A _ Hc) as [Hd Hf]. unfold HttpHandler.OnClose. rewrite Hd.
  pose proof (v_http _ _ V) as Hh. unfold http_heap in Hh. rewrite Hh.
  destruct (HttpHandler.heap (event_handler_ s) !! d) as [c|] eqn:Ehd; [|done]. simpl. rewrite Hf.
  assert (forall r1 k1 k2, (if 0 <? f then (a_close a, close f k1) else (0, k1)) = (r1, k2) ->
    exists k3, (forall k4, interest k4 !! f = interest k1 !! f ->
      exists k5, (if 0 <? f then (a_close a, close f k4) else (0, k4)) = (r1, k5) /\ interest k5 !! f = k3) /\
      interest k2 !! f = k3) as Hclose.
  { intros r1 k1 k2. case_test; intros [= <- <-]; eexists; (split; [|done]); intros k4 Hk4; eexists; (split; [done|]);
      [|done]. simpl. by rewrite !lookup_delete_eq. }
  set (kk := epoll_ctl (a_del a) EPOLL_CTL_DEL f _ (kern s)).
  destruct (if 0 <? f then _ else _) as [r1 k2] eqn:Ek. intros [= <- <- <-].
  destruct (Hclose _ _ _ Ek) as (k3 & Hk3 & Hk2).
  destruct (Hk3 (epoll_ctl (a_del a) EPOLL_CTL_DEL f (mkEvent (Z.lor EPOLLIN (Z.lor EPOLLOUT EPOLLET)) p) (kern t)))
    as (k5 & Ek5 & Hk5).
  { unfold kk, epoll_ctl. case_test; [apply V|]. simpl. by rewrite !lookup_delete_eq. }
  rewrite Ek5. eexists. split_and!; [done| |].
  - constructor; simpl; [apply V|apply V|by rewrite !lookup_delete_eq| |congruence].
    unfold http_heap. simpl. by rewrite !lookup_delete_eq.
  - constructor; simpl.
    + intros c0. by rewrite lookup_delete_eq.
    + intros q c0 Hq [_ Hq']%lookup_delete_Some. by eapply A.
Qed.

Lemma own_upd s t ctx c' op evs ret :
  same_view s t -> apart s -> ctxs s !! p = Some ctx ->
  let up (x : server) k := upd x (HttpHandler.set_heap (<[d := c']> (http_heap x)) (event_handler_ x))
                             (<[p := ctx]> (ctxs x)) k in
  same_view (up s (kern s)) (up t (kern t)) /\
  same_view (up s (epoll_ctl ret op f (mkEvent evs p) (kern s))) (up t (epoll_ctl ret op f (mkEvent evs p) (kern t))) /\
  forall k, apart (up s k).
Proof.
  intros V A Hc up. split_and!.
  - constructor; simpl; [apply V|apply V|by rewrite !lookup_insert_eq| |apply V].
    unfold http_heap. simpl. by rewrite !lookup_insert_eq.
  - constructor; simpl; [apply V|apply V|by rewrite !lookup_insert_eq| |].
    + unfold http_heap. simpl. by rewrite !lookup_insert_eq.
    + unfold epoll_ctl. case_test; [apply V|]. destruct op; simpl; by rewrite ?lookup_insert_eq, ?lookup_delete_eq.
  - intros k. unfold up. rewrite (insert_id _ _ _ Hc). constructor; simpl; apply A.
Qed.

Lemma upd_id (x : server) ctx q : ctxs x !! q = Some ctx -> upd x (event_handler_ x) (<[q := ctx]> (ctxs x)) (kern x) = x.
Proof. intros Hc. rewrite insert_id by done. by destruct x. Qed.

Lemma own_readable s t ev a z s' :
  same_view s t -> apart s -> data ev = p -> handle_readable_event s ev a = Some (z, s') ->
  exists t', handle_readable_event t ev a = Some (z, t') /\ same_view s' t' /\ apart s'.
Proof.
  intros V A Hev. unfold handle_readable_event. rewrite Hev, (v_ctx _ _ V).
  destruct (ctxs s !! p) as [ctx|] eqn:Hc; [|done]. simpl.
  assert (ctxs t !! p = Some ctx) as Hct by by rewrite (v_ctx _ _ V).
  destruct (a_own _ A _ Hc) as [Hd Hf]. rewrite Hf. destruct (a_recv a) as [n buf]. destruct (Z.ltb_spec 0 n) as [Hn|Hn].
  - destruct (HttpHandler.OnReadable (event_handler_ s) ctx buf (a_call a)) as [[[st ctx1] h]|] eqn:Eh; [|done]. simpl.
    pose proof Eh as Eh2. apply OnReadable_inv in Eh2 as (d' & c & _ & Hd' & Hhc & -> & _).
    assert (d' = d) as -> by congruence.
    destruct (OnReadable_local (event_handler_ s) ctx d c buf (a_call a) Hd Hhc) as (st' & c' & Hloc).
    rewrite Hloc in Eh by done. injection Eh as <- <-.
    rewrite Hloc; [|apply V|by rewrite <- Hhc; apply (v_http _ _ V)]. simpl.
    destruct (own_upd s t ctx c' EPOLL_CTL_MOD
      (if decide (st' = READ_CONTINUE) then Z.lor EPOLLIN EPOLLET else Z.lor EPOLLOUT EPOLLET) (a_ctl a) V A Hc)
      as (V1 & V2 & A1).
    case_test.
    + destruct (close_and_release _ ev a) as [[[r ev'] s2]|] eqn:Ec; [|done]. simpl. intros [= <- <-].
      eapply own_close in Ec as (t' & -> & V3 & A3); [|exact V1|apply A1|done|apply lookup_insert_eq].
      simpl. eexists. by split_and!.
    + intros [= <- <-]. eexists. split_and!; [done|exact V2|apply A1].
  - simpl. rewrite (proj2 (Z.leb_le n 0)) by lia. simpl. rewrite !upd_id by done.
    destruct (close_and_release s ev a) as [[[r ev'] s2]|] eqn:Ec; [|done]. simpl. intros [= <- <-].
    eapply own_close in Ec as (t' & -> & V3 & A3); [|done..]. simpl. eexists. by split_and!.
Qed.

Lemma own_writeable s t ev a z s' :
  same_view s t -> apart s -> data ev = p -> handle_writeable_event s ev a = Some (z, s') ->
  exists t', handle_writeable_event t ev a = Some (z, t') /\ same_view s' t' /\ apart s' /\
    exists ctx out, ctxs s !! p = Some ctx /\ ctxs t !! p = Some ctx /\
      (snd ∘ fst) <$> HttpHandler.OnWriteable (event_handler_ s) ctx (a_send a) = Some out /\
      (snd ∘ fst) <$> HttpHandler.OnWriteable (event_handler_ t) ctx (a_send a) = Some out.
Proof.
  intros V A Hev. unfold handle_writeable_event. rewrite Hev, (v_ctx _ _ V).
  destruct (ctxs s !! p) as [ctx|] eqn:Hc; [|done]. simpl. destruct (a_own _ A _ Hc) as [Hd Hf]. rewrite Hf.
  destruct (HttpHandler.OnWriteable (event_handler_ s) ctx (a_send a)) as [[[st out] h]|] eqn:Eh; [|done]. simpl.
  pose proof Eh as Eh2. apply OnWriteable_inv in Eh2 as (d' & c & _ & Hd' & Hhc & _).
  assert (d' = d) as -> by congruence.
  destruct (OnWriteable_local (event_handler_ s) ctx d c (a_send a) Hd Hhc) as (st' & out' & c' & Hloc).
  rewrite Hloc in Eh by done. injection Eh as <- <- <-.
  rewrite Hloc; [|by rewrite <- Hhc; apply (v_http _ _ V)]. simpl.
  destruct (own_upd s t ctx c' EPOLL_CTL_MOD
    (if decide (st' = WRITE_CONTINUE) then Z.lor EPOLLOUT EPOLLET else Z.lor EPOLLIN EPOLLET) (a_ctl a) V A Hc)
    as (V1 & V2 & A1).
  match goal with |- _ -> exists _, _ /\ _ /\ _ /\ ?P => assert P as Hout end.
  { exists ctx, out'. split_and!; [done|done|by rewrite Hloc|].
    rewrite Hloc; [done|]. rewrite <- Hhc. apply (v_http _ _ V). }
  case_test.
  - destruct (close_and_release _ ev a) as [[[r ev'] s2]|] eqn:Ec; [|done]. simpl. intros [= <- <-].
    eapply own_close in Ec as (t' & -> & V3 & A3); [|exact V1|apply A1|done|apply lookup_insert_eq].
    simpl. eexists. split_and!; [done|done|done|exact Hout].
  - intros [= <- <-]. eexists. split_and!; [done|exact V2|apply A1|exact Hout].
Qed.

(** [handle_accept_event] never fails: a context that cannot be registered is the
    one it has just made. *)
Lemma accept_total (s : server) a : exists z s', handle_accept_event s a = Some (z, s').
Proof.
  unfold handle_accept_event. destruct (accept_socket a (kern s)) as [[c ip] k]. case_test; [eauto|]. simpl.
  case_test; [|eauto]. unfold close_and_release. simpl. case_test; [simpl; eauto|]. rewrite lookup_insert_eq. simpl.
  unfold HttpHandler.OnClose. simpl. rewrite lookup_insert_eq. simpl. case_test; simpl; eauto.
Qed.

(** An event of the connection that is taken for one of the listening socket. *)
Lemma own_mistaken s t a z s' :
  same_view s t -> apart s -> no_reuse (mkEvent 0 0, a) -> handle_accept_event s a = Some (z, s') ->
  exists z' t', handle_accept_event t a = Some (z', t') /\ same_view s' t' /\ apart s'.
Proof.
  intros V A Hr E. destruct (others_accept _ _ _ _ A Hr E) as [V1 A1].
  destruct (accept_total t a) as (z' & t' & Et). exists z', t'. split_and!; [done| |done].
  etrans; [symmetry; exact V1|]. etrans; [exact V|]. eapply accept_view; [exact Hr|exact Et].
Qed.

Lemma own_event s t ev a s' :
  same_view s t -> apart s -> data ev = p -> no_reuse (ev, a) -> handle_event s ev a = Some s' ->
  exists t', handle_event t ev a = Some t' /\ same_view s' t' /\ apart s' /\ event_output t ev a = event_output s ev a.
Proof.
  intros V A Hev Hr. unfold handle_event, event_output. rewrite (v_listen _ _ V). intros E.
  case_test; [|case_test; [|case_test]].
  - destruct (handle_accept_event s a) as [[z s1]|] eqn:E1; [|done]. injection E as ->.
    destruct (own_mistaken _ _ a _ _ V A Hr E1) as (z' & t' & -> & V1 & A1). eexists. by split_and!.
  - destruct (handle_readable_event s ev a) as [[z s1]|] eqn:E1; [|done]. injection E as ->.
    destruct (own_readable _ _ _ _ _ _ V A Hev E1) as (t' & -> & V1 & A1). eexists. by split_and!.
  - destruct (handle_writeable_event s ev a) as [[z s1]|] eqn:E1; [|done]. injection E as ->.
    destruct (own_writeable _ _ _ _ _ _ V A Hev E1) as (t' & -> & V1 & A1 & ctx & out & Hc & Hct & Ho & Hot).
    eexists. split_and!; [done|done|done|]. rewrite Hev, Hct, Hc.
    apply fmap_Some in Ho as ([[? ?] ?] & -> & ->). apply fmap_Some in Hot as ([[? ?] ?] & -> & Hot).
    simpl in *. congruence.
  - injection E as <-. eexists. by split_and!.
Qed.

(** The connection's part of a run is a run of its own events alone. *)
Lemma run_own evs : forall s t s' out,
  same_view s t -> apart s -> Forall no_reuse evs -> run s evs = Some (s', out) ->
  exists t' out', run t (base.filter own evs) = Some (t', out') /\ same_view s' t' /\ sent_to p out' = sent_to p out.
Proof.
  induction evs as [|[ev a] evs IH]; intros s t s' out V A Hr; simpl.
  { intros [= <- <-]. eexists _, _. by split_and!. }
  apply Forall_cons in Hr as [Hr1 Hr]. destruct (handle_event s ev a) as [s1|] eqn:E; [|done]. simpl.
  destruct (run s1 evs) as [[s2 out2]|] eqn:E2; [|done]. simpl. intros [= <- <-].
  rewrite filter_cons, sent_to_cons. unfold own at 1. simpl.
  destruct (decide (data ev = p)) as [Hev|Hev].
  - destruct (own_event s t ev a s1 V A Hev Hr1 E) as (t1 & Et & V1 & A1 & Ho).
    destruct (IH s1 t1 s2 out2) as (t' & out' & Er & V' & Hs); [done..|].
    cbn [run]. rewrite Et. simpl. rewrite Er. simpl. eexists _, _. split_and!; [done|done|].
    rewrite sent_to_cons, Hev, decide_True, Ho, Hs by done. done.
  - destruct (others_event s ev a s1 A Hr1 Hev E) as [V1 A1].
    destruct (IH s1 t s2 out2) as (t' & out' & Er & V' & Hs); [|done..|].
    { etrans; [symmetry; exact V1|done]. }
    eexists _, _. split_and!; [done|done|]. by rewrite Hs.
Qed.

(** The server with this connection only. *)
Definition alone (s : server) : server :=
  let here (x : Z) {A} (m : gmap Z A) : gmap Z A := base.filter (fun e => fst e = x) m in
  mk (epoll_fd_ s) (listen_socket_fd_ s) (port_ s) (backlog_ s) (max_events_ s)
    (HttpHandler.mk (handlers s) (here d (http_heap s))) (here p (ctxs s))
    (mkKernel (opened (kern s)) (flags (kern s)) (here f (interest (kern s)))).

Lemma filter_here {A} x (m : gmap Z A) : base.filter (fun e => fst e = x) m !! x = m !! x.
Proof. rewrite map_lookup_filter. destruct (m !! x); simpl; [|done]. by rewrite option_guard_True. Qed.

Lemma alone_view s : same_view s (alone s).
Proof. constructor; try done; apply filter_here. Qed.

End connection.

#[local] Existing Instance own_dec.

(** C6: in any interleaving of connections, each is served as if it were the only
    one: what the server sends to it, and all that the server holds for it
    afterwards (its context, its HTTP context with request and response, its
    registration), are those of a server that has only this connection and
    handles only its events, with the same answers of the kernel and of the
    callbacks to them.  The rest of the run does not matter, as long as no
    later connection is given the same addresses or descriptor. *)
Theorem served_as_if_alone hs socket efd high (s : server) batch p ctx d evs s' out :
  0 <= socket < 2 ^ 31 -> 0 <= efd ->
  rtc EpollSocket.step (HttpServer.running hs socket efd high, []) (s, batch) ->
  ctxs s !! p = Some ctx -> data_ptr ctx = Some d -> Forall (no_reuse p d (fd ctx)) evs ->
  run s evs = Some (s', out) ->
  exists t' out', run (alone p d (fd ctx) s) (base.filter (own p) evs) = Some (t', out') /\
    same_view p d (fd ctx) s' t' /\ sent_to p out' = sent_to p out.
Proof.
  intros Hs He Hr Hp Hd Hn Hrun.
  destruct (reachable_safe _ _ (HttpServer.running_safe _ _ _ _ Hs He) Hr) as (C & _ & _). simpl in C.
  eapply run_own; [apply alone_view|by eapply consistent_apart|done|done].
Qed.

(** ** A request and its response *)

(** What the server makes of a request: the request and the response after
    [handle_http_request], the callbacks doing [call]. *)
Definition answer (call : HttpHandler.calls) (hs : list (bytes * HttpHandler.HttpHandler)) (r : HttpRequest.t)
  : HttpRequest.t * HttpResponse.t :=
  let '(_, rq, rs) := HttpHandler.handle_http_request call (HttpHandler.mk hs ∅) r HttpResponse.make in (rq, rs).

Section exchange.
Context (p d : Z) (ctx : EpollEventContext Z).

(** A readable event on which [b] arrives; a writable one on which the kernel
    takes all it is offered. *)
Definition is_read (e : event) (b : bytes) : Prop :=
  data (fst e) = p /\ Z.land (events (fst e)) EPOLLIN <> 0 /\ a_recv (snd e) = (vlen b, b) /\ b <> [].

Definition is_write (e : event) : Prop :=
  data (fst e) = p /\ Z.land (events (fst e)) EPOLLIN = 0 /\ Z.land (events (fst e)) EPOLLOUT <> 0 /\
  HttpHandler.complete (a_send (snd e)).

(** The connection is open, with the HTTP context [c]. *)
Definition holds (s : server) (c : HttpHandler.HttpContext) : Prop :=
  ctxs s !! p = Some ctx /\ data_ptr ctx = Some d /\ http_heap s !! d = Some c /\
  i32 p <> listen_socket_fd_ s /\ p <> 0.

Lemma handle_read s c e b st c' h' :
  holds s c -> is_read e b ->
  HttpHandler.OnReadable (event_handler_ s) ctx b (a_call (snd e)) = Some (st, ctx, h') ->
  HttpHandler.heap h' !! d = Some c' -> HttpHandler.uri2handler h' = handlers s ->
  st = READ_CONTINUE \/ st = READ_OVER ->
  exists s', handle_event s (fst e) (snd e) = Some s' /\ event_output s (fst e) (snd e) = [] /\
    holds s' c' /\ handlers s' = handlers s.
Proof.
  intros (Hp & Hd & Hc & Hl & H0) (Hev & Hin & Hrecv & Hb) E Hc' Hh Hst.
  assert (0 < vlen b) as Hv by (unfold vlen; destruct b; simpl; [done|lia]).
  unfold handle_event, event_output, data_fd. rewrite Hev, (proj2 (Z.eqb_neq _ _) Hl), (proj2 (Z.eqb_neq _ _) Hin).
  cbn [negb]. unfold handle_readable_event. rewrite Hev, Hp. simpl. rewrite Hrecv, (proj2 (Z.ltb_lt _ _) Hv), E.
  simpl. rewrite (proj2 (Z.leb_gt _ _) Hv), !bool_decide_false by (destruct Hst; congruence). simpl.
  eexists. split; [done|]. split_and!; [done| |done]. unfold holds, http_heap. simpl. by rewrite lookup_insert_eq.
Qed.

Lemma deref_holds s c : holds s c -> HttpHandler.deref (event_handler_ s) ctx = Some (d, c).
Proof.
  intros (_ & Hd & Hc & _). unfold HttpHandler.deref. rewrite Hd. simpl. unfold http_heap in Hc. by rewrite Hc.
Qed.

(** A piece that does not complete the request is kept. *)
Lemma read_more s c e b r' :
  holds s c -> is_read e b -> HttpRequest.OnReadable (HttpHandler.req c) b = Some (READ_CONTINUE, r') ->
  exists s', handle_event s (fst e) (snd e) = Some s' /\ event_output s (fst e) (snd e) = [] /\
    holds s' (HttpHandler.mkHttpContext r' (HttpHandler.resp c) (HttpHandler.ctx_fd c)) /\ handlers s' = handlers s.
Proof.
  intros Hc Hread Hon. pose proof (deref_holds s c Hc) as Hderef. eapply handle_read; [done|done| | | |by left].
  - unfold HttpHandler.OnReadable. rewrite Hderef. cbn [mbind option_bind]. rewrite Hon. cbn [mbind option_bind].
    by rewrite decide_True.
  - apply lookup_insert_eq.
  - done.
Qed.

(** The piece that completes it brings its handler's answer. *)
Lemma read_last s c e b r :
  holds s c -> is_read e b -> HttpRequest.OnReadable (HttpHandler.req c) b = Some (READ_OVER, r) ->
  HttpHandler.resp c = HttpResponse.make ->
  exists s', handle_event s (fst e) (snd e) = Some s' /\ event_output s (fst e) (snd e) = [] /\
    (let '(rq, rs) := answer (a_call (snd e)) (handlers s) r in
     holds s' (HttpHandler.mkHttpContext rq rs (HttpHandler.ctx_fd c))) /\ handlers s' = handlers s.
Proof.
  intros Hc Hread Hon Hrs. pose proof (deref_holds s c Hc) as Hderef.
  destruct (HttpHandler.handle_http_request (a_call (snd e)) (event_handler_ s) r (HttpHandler.resp c)) as [[z rq] rs] eqn:E.
  assert (answer (a_call (snd e)) (handlers s) r = (rq, rs)) as ->.
  { revert E. unfold answer. rewrite Hrs. unfold HttpHandler.handle_http_request, handlers. cbn [HttpHandler.uri2handler].
    destruct (StdMap.find _ _) as [g|]; [|by intros [= <- <- <-]]. destruct (a_call (snd e) g _ _). by intros [= <- <- <-]. }
  eapply handle_read; [done|done| | | |by right].
  - unfold HttpHandler.OnReadable. rewrite Hderef. cbn [mbind option_bind]. rewrite Hon. cbn [mbind option_bind].
    rewrite decide_False by (intros H; by apply H). by rewrite E.
  - apply lookup_insert_eq.
  - done.
Qed.

(** The request arrives, in whatever pieces. *)
Lemma run_reads m u v hdrs r es bs call : forall s pre c,
  HttpRequest.well_formed m u v hdrs ->
  HttpRequest.OnReadable HttpRequest.make (HttpRequest.render m u v hdrs) = Some (READ_OVER, r) ->
  holds s c -> HttpRequest.waiting (HttpHandler.req c) pre -> HttpHandler.resp c = HttpResponse.make ->
  Forall2 is_read es bs -> last ((fun e => a_call (snd e)) <$> es) = Some call -> pre ++ concat bs = HttpRequest.render m u v hdrs ->
  exists s' out, run s es = Some (s', out) /\ sent_to p out = [] /\ handlers s' = handlers s /\
    (let '(rq, rs) := answer call (handlers s) r in
     holds s' (HttpHandler.mkHttpContext rq rs (HttpHandler.ctx_fd c))).
Proof.
  revert bs. induction es as [|[ev a] es IH]; intros bs s pre c Hwf Hr Hc Hw Hrs Hes Hlast Hpre;
    inversion Hes as [|? b ? bs' Hread Hes']; subst; [done|]. clear Hes. simpl in Hpre.
  assert (vlen (pre ++ b) <= HttpRequest.MAX_REQUEST_SIZE) as Hmax.
  { etrans; [|apply (HttpRequest.wf_size _ _ _ _ Hwf)]. rewrite <- Hpre. unfold vlen. rewrite !length_app. lia. }
  pose proof (HttpRequest.OnReadable_waiting _ _ b Hw Hmax) as Hon. destruct bs' as [|b' bs'].
  - inversion Hes'; subst. simpl in Hpre. injection Hlast as <-. rewrite app_nil_r in Hpre. rewrite Hpre in Hon.
    rewrite decide_True in Hon by apply HttpRequest.render_ends_over.
    pose proof (HttpRequest.OnReadable_waiting _ _ (HttpRequest.render m u v hdrs) HttpRequest.waiting_make
      (HttpRequest.wf_size _ _ _ _ Hwf)) as Hm. simpl in Hm.
    rewrite decide_True, Hr in Hm by apply HttpRequest.render_ends_over. rewrite <- Hm in Hon.
    destruct (read_last s c (ev, a) b r Hc Hread Hon Hrs) as (s' & Eh & Eo & Hc' & Hh').
    simpl in *. rewrite Eh. simpl. eexists _, _. split_and!; [done| |done|done].
    by rewrite sent_to_cons, Eo, app_nil_r; case_decide.
  - assert (~ HttpRequest.ends_over (pre ++ b)) as Hno.
    { intros He. assert (concat (b' :: bs') = []) as Hz.
      { eapply HttpRequest.render_waits; [done|by rewrite <- Hpre, app_assoc|done]. }
      inversion Hes' as [|? ? ? ? (_ & _ & _ & Hb') _]; subst. simpl in Hz. by apply app_eq_nil in Hz as [? _]. }
    rewrite decide_False in Hon by done. destruct Hon as (r' & Hon & Hw').
    destruct (read_more s c (ev, a) b r' Hc Hread Hon) as (s1 & Eh & Eo & Hc1 & Hh1).
    destruct (IH (b' :: bs') s1 (pre ++ b) _ Hwf Hr Hc1 Hw' Hrs Hes') as (s' & out & Er & Hs & Hh & Hc');
      [|by rewrite <- app_assoc|].
    { destruct es as [|e' es']; [by inversion Hes'|]. exact Hlast. }
    cbn [run fst snd] in *. rewrite Eh. simpl. rewrite Er. simpl. eexists _, _. rewrite Hh1 in Hh, Hc'.
    split_and!; [done| |done|done].
    rewrite sent_to_cons, Eo, Hs. by case_decide.
Qed.

Lemma handle_write s c e st out c' :
  holds s c -> is_write e ->
  HttpHandler.OnWriteable (event_handler_ s) ctx (a_send (snd e)) =
    Some (st, out, HttpHandler.set_heap (<[d := c']> (http_heap s)) (event_handler_ s)) ->
  st <> WRITE_ERROR ->
  exists s', handle_event s (fst e) (snd e) = Some s' /\ event_output s (fst e) (snd e) = out /\
    handlers s' = handlers s /\
    if decide (st = WRITE_OVER) then ctxs s' !! p = None /\ http_heap s' !! d = None else holds s' c'.
Proof.
  intros (Hp & Hd & Hc & Hl & H0) (Hev & Hin & Hout & _) E Hst.
  unfold handle_event, event_output, data_fd.
  rewrite Hev, (proj2 (Z.eqb_neq _ _) Hl), (proj2 (Z.eqb_eq _ _) Hin), (proj2 (Z.eqb_neq _ _) Hout), Hp, E.
  cbn [negb]. unfold handle_writeable_event. rewrite Hev, Hp. simpl. rewrite E. simpl.
  rewrite bool_decide_false by done. simpl. destruct (decide (st = WRITE_OVER)) as [->|Ho].
  - rewrite bool_decide_true by done. unfold close_and_release. rewrite Hev, (proj2 (Z.eqb_neq _ _) H0). simpl.
    rewrite lookup_insert_eq. simpl. unfold HttpHandler.OnClose. rewrite Hd. simpl. rewrite lookup_insert_eq. simpl.
    case_test; simpl; (eexists; split; [done|]; split_and!; [done|done|simpl; apply lookup_delete_eq|apply lookup_delete_eq]).
  - rewrite bool_decide_false by done. eexists. split; [done|]. split_and!; [done|done|]. unfold holds, http_heap. simpl.
    by rewrite !lookup_insert_eq.
Qed.

Abbreviation W := EPOLL_SOCKET_WRITE_BUFFER_SIZE.

(** The response goes out. *)
Lemma run_writes text keep es : forall s c sent rest,
  holds s c -> HttpHandler.mid_response text sent keep c -> text = sent ++ rest -> vlen text < 2 ^ 31 ->
  Forall is_write es -> vlen es = vlen rest / W + 1 ->
  exists s' out, run s es = Some (s', out) /\ sent_to p out = rest /\
    (keep = false -> ctxs s' !! p = None /\ http_heap s' !! d = None) /\
    (keep = true -> vlen rest mod W <> 0 -> holds s' (HttpHandler.newHttpContext (HttpHandler.ctx_fd c))).
Proof.
  induction es as [|e es IH]; intros s c sent rest Hc Hm Ht Hsz Hes Hlen.
  { exfalso. assert (0 <= vlen rest / W) by (apply Z.div_pos; [unfold vlen; lia|done]). unfold vlen in Hlen at 1. simpl in Hlen. lia. }
  apply Forall_cons in Hes as [He Hes]. pose proof He as (Hev & _ & _ & Hcomp). pose proof Hc as (_ & Hd & Hhc & _).
  destruct (HttpHandler.pump_round ctx d text keep Hd Hsz (event_handler_ s) c sent rest (a_send (snd e)) Hhc Hm Ht
    (HttpHandler.complete_legal _ Hcomp)) as (c' & n & Hn & En & E & Hmid & Hk).
  rewrite Hcomp in En.
  assert (take (Z.to_nat n) (HttpHandler.chunk_of rest) = HttpHandler.chunk_of rest) as Etk
    by (apply take_ge; unfold vlen in En; lia).
  rewrite Etk in *. destruct e as [ev a]. cbn [fst snd] in *.
  destruct (handle_write s c (ev, a) _ _ c' Hc He E) as (s1 & Eh & Eo & Hh1 & Hc1).
  { destruct (decide (vlen rest < W)); [unfold HttpHandler.final; by destruct keep|done]. }
  cbn [run fst snd] in *. rewrite Eh. simpl.
  assert (0 <= vlen rest) as H0 by (unfold vlen; lia).
  destruct (decide (vlen rest < W)) as [Hl|Hl].
  - assert (es = []) as ->.
    { rewrite Z.div_small in Hlen by lia. unfold vlen in Hlen. destruct es; [done|simpl in Hlen; lia]. }
    simpl. eexists _, _. split; [done|]. rewrite sent_to_cons, decide_True, Eo by done.
    rewrite HttpHandler.chunk_of_short in * by done. split_and!; [by rewrite app_nil_r| |].
    + intros ->. by rewrite decide_True in Hc1.
    + intros -> Hmod. rewrite decide_False in Hc1 by done. specialize (Hk Hl eq_refl).
      rewrite Z.mod_small in Hmod by lia. rewrite decide_False in Hk by lia. by subst c'.
  - destruct (Hmid ltac:(lia)) as (Hm' & Hfd & _). rewrite decide_False in Hc1 by done.
    pose proof (HttpHandler.vlen_after_chunk rest ltac:(lia)) as Hva.
    assert (vlen (HttpHandler.after_chunk rest) / W = vlen rest / W - 1) as Hdiv.
    { rewrite Hva. replace (vlen rest - 1 * W) with (vlen rest + (-1) * W) by lia. rewrite Z.div_add by done. lia. }
    assert (vlen (HttpHandler.after_chunk rest) mod W = vlen rest mod W) as Hmd.
    { rewrite Hva. replace (vlen rest - 1 * W) with (vlen rest + (-1) * W) by lia. by rewrite Z.mod_add. }
    destruct (IH s1 c' (sent ++ HttpHandler.chunk_of rest) (HttpHandler.after_chunk rest)) as (s' & out & Er & Hs & H1 & H2);
      [done|done|by rewrite <- app_assoc, HttpHandler.chunk_of_after|done|done| |].
    { rewrite Hdiv. unfold vlen in *. simpl in Hlen. lia. }
    rewrite Er. simpl. eexists _, _. split; [done|]. rewrite sent_to_cons, decide_True, Eo, Hs by done.
    rewrite HttpHandler.chunk_of_after, Hmd, Hfd in *. done.
Qed.

End exchange.

(** C4: whatever other connections do in between, a well-formed request that
    arrives on a fresh connection, cut into any pieces, is answered on it by
    exactly the bytes of the response its callback produced (or of the "not
    found" response), when the kernel takes every chunk whole; the connection is
    then closed and released, or, if the client asked to keep it, starts afresh
    unless the response's size is a multiple of the chunk size.  No later
    connection may be given the addresses or the descriptor of this one, and the low
    half of its context's address is not the listening socket's descriptor, for
    which its events would be mistaken. *)
Theorem request_is_answered hs socket efd high (s : server) batch p ctx d evs s' out m u v hdrs r reads writes bs call :
  0 <= socket < 2 ^ 31 -> 0 <= efd ->
  rtc EpollSocket.step (HttpServer.running hs socket efd high, []) (s, batch) ->
  ctxs s !! p = Some ctx -> data_ptr ctx = Some d -> i32 p <> listen_socket_fd_ s ->
  http_heap s !! d = Some (HttpHandler.newHttpContext (fd ctx)) ->
  Forall (no_reuse p d (fd ctx)) evs -> run s evs = Some (s', out) ->
  base.filter (own p) evs = reads ++ writes ->
  HttpRequest.well_formed m u v hdrs ->
  HttpRequest.OnReadable HttpRequest.make (HttpRequest.render m u v hdrs) = Some (READ_OVER, r) ->
  Forall2 (is_read p) reads bs -> concat bs = HttpRequest.render m u v hdrs ->
  last ((fun e => a_call (snd e)) <$> reads) = Some call ->
  let c := HttpHandler.mkHttpContext (fst (answer call hs r)) (snd (answer call hs r)) (fd ctx) in
  HttpHandler.pending c -> Forall (is_write p) writes ->
  vlen writes = vlen (HttpHandler.text_of c) / EPOLL_SOCKET_WRITE_BUFFER_SIZE + 1 ->
  sent_to p out = HttpHandler.text_of c /\
  (fst (HttpHandler.is_keepalive (HttpHandler.req c)) = false -> ctxs s' !! p = None /\ http_heap s' !! d = None) /\
  (fst (HttpHandler.is_keepalive (HttpHandler.req c)) = true ->
     vlen (HttpHandler.text_of c) mod EPOLL_SOCKET_WRITE_BUFFER_SIZE <> 0 ->
     ctxs s' !! p = Some ctx /\ http_heap s' !! d = Some (HttpHandler.newHttpContext (fd ctx))).
Proof.
  intros Hs He Hr Hp Hd Hl Hc Hn Hrun Hown Hwf Hreq Hreads Hbs Hlast c Hpen Hwrites Hlen.
  pose proof (reachable_handlers _ _ _ _ _ Hs He Hr) as Hh. simpl in Hh.
  destruct (reachable_safe _ _ (HttpServer.running_safe _ _ _ _ Hs He) Hr) as (C & _ & _). simpl in C.
  destruct (c_context _ C _ _ Hp) as (H0 & _).
  pose proof (alone_view p d (fd ctx) s) as V.
  destruct (run_own p d (fd ctx) evs s _ s' out V (consistent_apart _ _ _ _ _ C Hp Hd eq_refl) Hn Hrun)
    as (t' & out' & Et & V' & <-).
  assert (holds p d ctx (alone p d (fd ctx) s) (HttpHandler.newHttpContext (fd ctx))) as Hhold.
  { split_and!; [by rewrite (v_ctx _ _ _ _ _ V)|done|by rewrite (v_http _ _ _ _ _ V)|done|done]. }
  destruct (run_reads p d ctx m u v hdrs r reads bs call _ [] _ Hwf Hreq Hhold HttpRequest.waiting_make eq_refl Hreads Hlast Hbs)
    as (t1 & out1 & E1 & Ho1 & Hh1 & Hold1).
  change (handlers (alone p d (fd ctx) s)) with (handlers s) in Hold1. rewrite Hh in Hold1.
  rewrite (surjective_pairing (answer call hs r)) in Hold1. fold c in Hold1.
  destruct (run_writes p d ctx (HttpHandler.text_of c) (fst (HttpHandler.is_keepalive (HttpHandler.req c))) writes t1 c []
    (HttpHandler.text_of c) Hold1 (HttpHandler.pending_mid _ Hpen) eq_refl (proj2 (proj2 Hpen)) Hwrites Hlen)
    as (t2 & out2 & E2 & Ho2 & Hclosed & Hkept).
  rewrite Hown, (run_app _ _ _ _ _ _ _ E1 E2) in Et. injection Et as <- <-.
  rewrite sent_to_app, Ho1, Ho2. split_and!; [done| |].
  - intros Hk. destruct (Hclosed Hk). by rewrite <- (v_ctx _ _ _ _ _ V'), <- (v_http _ _ _ _ _ V').
  - intros Hk Hmod. destruct (Hkept Hk Hmod) as (? & _ & ? & _).
    by rewrite <- (v_ctx _ _ _ _ _ V'), <- (v_http _ _ _ _ _ V').
Qed.

(** ** Two clients at once

    One asks for [/hi] in two pieces, the other for a path nobody handles; their
    events are interleaved. *)

Definition greet : HttpHandler.HttpHandler := 1024.

Definition hi_calls : HttpHandler.calls := fun f rq rs =>
  if decide (f = greet) then (rq, HttpResponse.set_status HttpResponse.STATUS_OK (lit "hello") rs) else (rq, rs).

Definition hi_handlers : list (bytes * HttpHandler.HttpHandler) := [(lit "/hi", greet)].

Definition piece (b : bytes) (conn ctx_addr data_addr : Z) : answers :=
  mkAnswers (conn, lit "10.0.0.1") 2 (vlen b, b) HttpHandler.send_all 0 0 0 ctx_addr data_addr hi_calls.

Definition hi_started : server := HttpServer.running hi_handlers 3 4 0.

(** Both connections accepted. *)
Definition hi_state : server :=
  default hi_started
    (handle_events hi_started [(mkEvent 1 3, piece [] 7 4096 8192); (mkEvent 1 3, piece [] 9 4160 8256)]).

Lemma hi_reaches : rtc EpollSocket.step (hi_started, []) (hi_state, []).
Proof.
  set (s1 := default hi_started (handle_event hi_started (mkEvent 1 3) (piece [] 7 4096 8192))).
  assert (forall x : server, interest (kern x) !! 3 = Some (mkEvent 1 3) ->
    EpollSocket.step (x, []) (x, [mkEvent 1 3])) as Hwait.
  { intros x Hi. apply step_wait with [3]; [apply NoDup_singleton|]. constructor; [|constructor]. by exists (mkEvent 1 3). }
  eapply rtc_l; [apply Hwait; reflexivity|].
  eapply rtc_l; [apply (step_handle hi_started _ [] (piece [] 7 4096 8192) s1);
    [apply HttpServer.fair_if; by vm_compute|reflexivity]|].
  eapply rtc_l; [apply Hwait; by vm_compute|].
  apply rtc_once. apply (step_handle s1 _ [] (piece [] 9 4160 8256)); [apply HttpServer.fair_if; by vm_compute|reflexivity].
Qed.

Definition hi_ctx : EpollEventContext Z := mkEpollEventContext (Some 8192) 7 (lit "10.0.0.1").

Definition hi_pieces : list bytes := [lit "GET /hi HT"; lit "TP/1.1" ++ HttpRequest.crlf ++ HttpRequest.crlf].

Definition other_request : bytes := lit "GET /x HTTP/1.1" ++ HttpRequest.crlf ++ HttpRequest.crlf.

Definition reading (p : Z) (b : bytes) : event := (mkEvent 1 p, piece b 11 5000 9000).
Definition writing (p : Z) : event := (mkEvent 4 p, piece [] 11 5000 9000).

Definition hi_events : list event :=
  [reading 4096 (lit "GET /hi HT"); reading 4160 other_request;
   reading 4096 (lit "TP/1.1" ++ HttpRequest.crlf ++ HttpRequest.crlf); writing 4160; writing 4096].

Definition hi_result : server * list (Z * bytes) := default (hi_state, []) (run hi_state hi_events).

Definition hi_request : HttpRequest.t :=
  snd (default (READ_ERROR, HttpRequest.make) (HttpRequest.OnReadable HttpRequest.make (concat hi_pieces))).

Definition hi_final : HttpHandler.HttpContext :=
  HttpHandler.mkHttpContext (fst (answer hi_calls hi_handlers hi_request)) (snd (answer hi_calls hi_handlers hi_request)) 7.

Lemma hi_no_reuse : Forall (no_reuse 4096 8192 7) hi_events.
Proof. repeat constructor; done. Qed.

Lemma served_as_if_alone_witness :
  exists t' out', run (alone 4096 8192 7 hi_state) (base.filter (own 4096) hi_events) = Some (t', out') /\
    same_view 4096 8192 7 (fst hi_result) t' /\ sent_to 4096 out' = sent_to 4096 (snd hi_result).
Proof.
  apply (served_as_if_alone hi_handlers 3 4 0 hi_state [] 4096 hi_ctx 8192 hi_events (fst hi_result) (snd hi_result)).
  - lia.
  - lia.
  - apply hi_reaches.
  - by vm_compute.
  - reflexivity.
  - apply hi_no_reuse.
  - by vm_compute.
Defined.

Lemma request_is_answered_witness :
  sent_to 4096 (snd hi_result) = HttpHandler.text_of hi_final /\
  (fst (HttpHandler.is_keepalive (HttpHandler.req hi_final)) = false ->
     ctxs (fst hi_result) !! 4096 = None /\ http_heap (fst hi_result) !! 8192 = None) /\
  (fst (HttpHandler.is_keepalive (HttpHandler.req hi_final)) = true ->
     vlen (HttpHandler.text_of hi_final) mod EPOLL_SOCKET_WRITE_BUFFER_SIZE <> 0 ->
     ctxs (fst hi_result) !! 4096 = Some hi_ctx /\
     http_heap (fst hi_result) !! 8192 = Some (HttpHandler.newHttpContext 7)).
Proof.
  apply (request_is_answered hi_handlers 3 4 0 hi_state [] 4096 hi_ctx 8192 hi_events (fst hi_result) (snd hi_result)
    (lit "GET") (lit "/hi") (lit "HTTP/1.1") [] hi_request
    [reading 4096 (lit "GET /hi HT"); reading 4096 (lit "TP/1.1" ++ HttpRequest.crlf ++ HttpRequest.crlf)]
    [writing 4096] hi_pieces hi_calls).
  - lia.
  - lia.
  - apply hi_reaches.
  - by vm_compute.
  - reflexivity.
  - by vm_compute.
  - by vm_compute.
  - apply hi_no_reuse.
  - by vm_compute.
  - reflexivity.
  - apply (bool_decide_unpack _). vm_compute. exact I.
  - by vm_compute.
  - repeat constructor; done.
  - by vm_compute.
  - reflexivity.
  - split_and!; by vm_compute.
  - repeat constructor; done.
  - by vm_compute.
Defined.

End HttpExchange.
