(* ===== verification/LockFreeStack.v ===== *)
(** * lockfree/lockfree_stack.cpp

    [LockFreeStack]: a Treiber stack of client-owned nodes.  The model is a
    transition system with one step per access to shared memory: the load of
    [head_], the accesses to [next] and the compare-and-exchange, which may fail
    spuriously.  Addresses are integers, 0 being [nullptr]. *)

From S2P Require Import Prelude.

Module LockFreeStack.

(** Where a thread stands in [Push] or [Pop]. *)
Inductive pc :=
  | Idle
  | PushLoad (new_node : Z)                       (* before head_.load() *)
  | PushNext (new_node original_head : Z)         (* before new_node->next = original_head *)
  | PushCas (new_node original_head : Z)          (* before the exchange *)
  | PopLoad                                       (* before head_.load() *)
  | PopNext (old_head : Z)                        (* before old_head->next is read *)
  | PopCas (old_head new_head : Z).               (* before the exchange *)

(** What an operation did when it took effect. *)
Inductive effect := Pushed (n : Z) | Popped (n : Z) | PoppedNull.

Record t := mk {
  head_ : Z;
  next : gmap Z Z;                  (* the [next] field of each allocated node *)
  threads : nat -> pc;
  log : list (nat * effect);        (* operations in the order they took effect *)
  given : gset Z;                   (* nodes ever passed to [Push] *)
}.

Definition at_pc (i : nat) (p : pc) (s : t) : Prop := threads s i = p.

Definition goto (i : nat) (p : pc) (th : nat -> pc) : nat -> pc :=
  fun j => if decide (j = i) then p else th j.

(** All nodes the clients may use are allocated, the stack is empty. *)
Definition init (nodes : gset Z) : t :=
  mk 0 (set_to_map (fun n => (n, 0)) nodes) (fun _ => Idle) [] ∅.

(** The nodes a thread is about to push. *)
Definition pushing (p : pc) : option Z :=
  match p with
  | PushLoad n | PushNext n _ | PushCas n _ => Some n
  | _ => None
  end.

(** The nodes reachable from [head_]. *)
Inductive chain (nx : gmap Z Z) : Z -> list Z -> Prop :=
  | chain_nil : chain nx 0 []
  | chain_cons n m ns : n <> 0 -> nx !! n = Some m -> chain nx m ns -> chain nx n (n :: ns).

(** One memory access of thread [i].  [recycle] says whether clients push nodes
    again that were popped, and delete them. *)
Inductive step (recycle : bool) : t -> t -> Prop :=
  | step_push_begin s i n :
      at_pc i Idle s -> n <> 0 -> is_Some (next s !! n) ->
      (forall j, pushing (threads s j) <> Some n) ->
      (if recycle then forall ns, chain (next s) (head_ s) ns -> n ∉ ns else n ∉ given s) ->
      step recycle s (mk (head_ s) (next s) (goto i (PushLoad n) (threads s)) (log s) ({[n]} ∪ given s))
  | step_push_load s i n :
      at_pc i (PushLoad n) s ->
      step recycle s (mk (head_ s) (next s) (goto i (PushNext n (head_ s)) (threads s)) (log s) (given s))
  | step_push_next s i n h :
      at_pc i (PushNext n h) s ->
      step recycle s (mk (head_ s) (<[n := h]> (next s)) (goto i (PushCas n h) (threads s)) (log s) (given s))
  | step_push_cas_ok s i n h :
      at_pc i (PushCas n h) s -> head_ s = h ->
      step recycle s (mk n (next s) (goto i Idle (threads s)) (log s ++ [(i, Pushed n)]) (given s))
  | step_push_cas_fail s i n h :
      at_pc i (PushCas n h) s ->
      step recycle s (mk (head_ s) (next s) (goto i (PushLoad n) (threads s)) (log s) (given s))
  | step_pop_begin s i :
      at_pc i Idle s ->
      step recycle s (mk (head_ s) (next s) (goto i PopLoad (threads s)) (log s) (given s))
  | step_pop_null s i :
      at_pc i PopLoad s -> head_ s = 0 ->
      step recycle s (mk (head_ s) (next s) (goto i Idle (threads s)) (log s ++ [(i, PoppedNull)]) (given s))
  | step_pop_load s i :
      at_pc i PopLoad s -> head_ s <> 0 ->
      step recycle s (mk (head_ s) (next s) (goto i (PopNext (head_ s)) (threads s)) (log s) (given s))
  | step_pop_next s i h m :
      at_pc i (PopNext h) s -> next s !! h = Some m ->
      step recycle s (mk (head_ s) (next s) (goto i (PopCas h m) (threads s)) (log s) (given s))
  | step_pop_cas_ok s i h m :
      at_pc i (PopCas h m) s -> head_ s = h ->
      step recycle s (mk m (next s) (goto i Idle (threads s)) (log s ++ [(i, Popped h)]) (given s))
  | step_pop_cas_fail s i h m :
      at_pc i (PopCas h m) s ->
      step recycle s (mk (head_ s) (next s) (goto i PopLoad (threads s)) (log s) (given s))
  | step_delete s n :
      recycle = true -> (forall ns, chain (next s) (head_ s) ns -> n ∉ ns) ->
      (forall j, pushing (threads s j) <> Some n) ->
      step recycle s (mk (head_ s) (delete n (next s)) (threads s) (log s) (given s)).

(** ** The specification: a stack with atomic operations *)

Inductive atomic_step : list Z * list (nat * effect) -> list Z * list (nat * effect) -> Prop :=
  | atomic_push ns l i n : atomic_step (ns, l) (n :: ns, l ++ [(i, Pushed n)])
  | atomic_pop ns l i n : atomic_step (n :: ns, l) (ns, l ++ [(i, Popped n)])
  | atomic_pop_null l i : atomic_step ([], l) ([], l ++ [(i, PoppedNull)]).

(** The stack a log leads to, if an atomic stack can produce it. *)
Fixpoint replay (ns : list Z) (l : list (nat * effect)) : option (list Z) :=
  match l with
  | [] => Some ns
  | (_, Pushed n) :: l' => replay (n :: ns) l'
  | (_, Popped n) :: l' =>
      match ns with m :: ns' => if decide (m = n) then replay ns' l' else None | [] => None end
  | (_, PoppedNull) :: l' => match ns with [] => replay [] l' | _ => None end
  end.

Lemma replay_app ns l l' : replay ns (l ++ l') = ns' ← replay ns l; replay ns' l'.
Proof.
  revert ns. induction l as [|[i e] l IH]; intros ns; [done|].
  destruct e; simpl; [apply IH|destruct ns; [done|]; case_decide; [apply IH|done]|destruct ns; [apply IH|done]].
Qed.

Lemma atomic_replay ns l : rtc atomic_step ([], []) (ns, l) -> replay [] l = Some ns.
Proof.
  intros Hr. apply (invariant_rtc atomic_step (fun c => replay [] (snd c) = Some (fst c)) _ _) in Hr; [done| |done].
  intros x y Hx Hy. destruct Hy; simpl in *; rewrite replay_app, Hx; simpl; [done|by case_decide|done].
Qed.

(** ** Linearizability without recycling *)

(** What a thread's position says about the shared state. *)
Definition pc_ok (s : t) (p : pc) : Prop :=
  match p with
  | Idle | PopLoad => True
  | PushLoad n | PushNext n _ => n <> 0 /\ is_Some (next s !! n) /\ n ∈ given s
  | PushCas n h => n <> 0 /\ next s !! n = Some h /\ n ∈ given s
  | PopNext h => h <> 0 /\ is_Some (next s !! h) /\ h ∈ given s
  | PopCas h m => h <> 0 /\ next s !! h = Some m /\ h ∈ given s
  end.

(** The node a pop has read is one that was pushed, so nobody pushes it. *)
Definition popping (p : pc) : option Z :=
  match p with PopNext h | PopCas h _ => Some h | _ => None end.

Record inv (s : t) (ns : list Z) : Prop := {
  i_chain : chain (next s) (head_ s) ns;
  i_given : Forall (fun n => n ∈ given s) ns;
  i_pc : forall i, pc_ok s (threads s i);
  i_owner : forall i j n, pushing (threads s i) = Some n -> pushing (threads s j) = Some n -> i = j;
  i_stack : forall i n, pushing (threads s i) = Some n -> n ∉ ns;
  i_pop : forall i j n, pushing (threads s i) = Some n -> popping (threads s j) <> Some n;
}.

Lemma chain_frame nx h ns n m : chain nx h ns -> n ∉ ns -> chain (<[n := m]> nx) h ns.
Proof.
  induction 1 as [|n' m' ns Hn0 Hn Hc IH]; [constructor|]. intros [Hne Hni]%not_elem_of_cons.
  econstructor; [done| |by apply IH]. by rewrite lookup_insert_ne.
Qed.

Lemma goto_eq i p th : goto i p th i = p.
Proof. unfold goto. by rewrite decide_True. Qed.

Lemma goto_ne i j p th : j <> i -> goto i p th j = th j.
Proof. intros H. unfold goto. by rewrite decide_False. Qed.

(** Is [j] the thread [i] that moves? *)
Ltac at_thread j i :=
  destruct (decide (j = i)) as [-> |?]; [rewrite ?goto_eq in *|rewrite ?(goto_ne i j) in * by done].

(** A step that only moves thread [i] from [p0] to [p]. *)
Lemma inv_move s ns i p0 p l g :
  inv s ns -> threads s i = p0 -> given s ⊆ g ->
  (forall n, pushing p = Some n -> pushing p0 = Some n \/ n ∉ given s) ->
  (forall n, popping p = Some n -> popping p0 = Some n \/ n ∈ ns) ->
  pc_ok (mk (head_ s) (next s) (goto i p (threads s)) l g) p ->
  inv (mk (head_ s) (next s) (goto i p (threads s)) l g) ns.
Proof.
  intros I <- Hg Hpush Hpop Hok.
  assert (forall n, pushing p = Some n -> n ∉ ns) as Hns.
  { intros n Hn. destruct (Hpush n Hn) as [H|H]; [eapply (i_stack _ _ I i); congruence|].
    intros Hin. apply H. by apply (proj1 (Forall_forall _ _) (i_given _ _ I)). }
  assert (forall j n, pushing (threads s j) = Some n -> n ∈ given s) as Hpg.
  { intros j n Hn. pose proof (i_pc _ _ I j) as Hj. destruct (threads s j); simpl in *; naive_solver. }
  assert (forall j n, popping (threads s j) = Some n -> n ∈ given s) as Hqg.
  { intros j n Hn. pose proof (i_pc _ _ I j) as Hj. destruct (threads s j); simpl in *; naive_solver. }
  constructor; simpl.
  - apply I.
  - eapply Forall_impl; [apply I|]. set_solver.
  - intros j. destruct (decide (j = i)) as [-> |Hj0]; [by rewrite goto_eq|rewrite goto_ne by done].
    pose proof (i_pc _ _ I j) as Hj. destruct (threads s j); simpl in *; set_solver.
  - intros j k n Hj Hk. at_thread j i; at_thread k i; [done| | |by eapply (i_owner _ _ I)].
    + destruct (Hpush n Hj) as [H|H]; [by eapply (i_owner _ _ I)|]. by apply Hpg in Hk.
    + destruct (Hpush n Hk) as [H|H]; [by eapply (i_owner _ _ I)|]. by apply Hpg in Hj.
  - intros j n Hj. at_thread j i; [by apply Hns|by eapply (i_stack _ _ I)].
  - intros j k n Hj Hk. at_thread j i; at_thread k i.
    + destruct p; simpl in *; congruence.
    + destruct (Hpush n Hj) as [H|H]; [by eapply (i_pop _ _ I)|]. by apply Hqg in Hk.
    + destruct (Hpop n Hk) as [H|H]; [by eapply (i_pop _ _ I)|]. by eapply (i_stack _ _ I).
    + by eapply (i_pop _ _ I).
Qed.

(** Writing [next] of a node one is about to push. *)
Lemma inv_write_next s ns i n h :
  inv s ns -> threads s i = PushNext n h ->
  inv (mk (head_ s) (<[n := h]> (next s)) (goto i (PushCas n h) (threads s)) (log s) (given s)) ns.
Proof.
  intros I Hi. assert (pushing (threads s i) = Some n) as Hpi by by rewrite Hi.
  pose proof (i_pc _ _ I i) as Hok. rewrite Hi in Hok. destruct Hok as (Hn0 & Hns & Hg).
  constructor; simpl.
  - apply chain_frame; [apply I|by eapply (i_stack _ _ I)].
  - apply I.
  - intros j. at_thread j i; simpl; [by rewrite lookup_insert_eq|].
    pose proof (i_pc _ _ I j) as Hj. pose proof (fun E => n0 (i_owner _ _ I j i n E Hpi)) as Hne.
    pose proof (i_pop _ _ I i j n Hpi) as Hq.
    destruct (threads s j); simpl in *; try done;
      (rewrite lookup_insert_ne by congruence; done).
  - intros j k m Hj Hk. apply (i_owner _ _ I j k m); [revert Hj; at_thread j i|revert Hk; at_thread k i];
      rewrite ?Hi; done.
  - intros j m Hj. apply (i_stack _ _ I j m). revert Hj. at_thread j i; by rewrite ?Hi.
  - intros j k m Hj. assert (pushing (threads s j) = Some m) as Hj' by (revert Hj; at_thread j i; by rewrite ?Hi).
    at_thread k i; [done|by apply (i_pop _ _ I j)].
Qed.

Lemma inv_push s ns i n h l :
  inv s ns -> threads s i = PushCas n h -> head_ s = h ->
  inv (mk n (next s) (goto i Idle (threads s)) l (given s)) (n :: ns).
Proof.
  intros I Hi Hh. assert (pushing (threads s i) = Some n) as Hpi by by rewrite Hi.
  pose proof (i_pc _ _ I i) as Hok. rewrite Hi in Hok. destruct Hok as (Hn0 & Hnx & Hg).
  constructor; simpl.
  - econstructor; [done|done|]. rewrite <- Hh. apply I.
  - constructor; [done|apply I].
  - intros j. at_thread j i; [done|]. apply (i_pc _ _ I j).
  - intros j k m Hj Hk. at_thread j i; at_thread k i; try done. by apply (i_owner _ _ I j k m).
  - intros j m Hj. at_thread j i; [done|]. apply not_elem_of_cons. split; [|by eapply (i_stack _ _ I)].
    intros ->. by apply n0, (i_owner _ _ I j i n).
  - intros j k m Hj. at_thread j i; [done|]. at_thread k i; [done|]. by apply (i_pop _ _ I j).
Qed.

Lemma inv_pop s ns i h m l :
  inv s ns -> threads s i = PopCas h m -> head_ s = h ->
  exists ns', ns = h :: ns' /\ inv (mk m (next s) (goto i Idle (threads s)) l (given s)) ns'.
Proof.
  intros I Hi Hh. pose proof (i_pc _ _ I i) as Hok. rewrite Hi in Hok. destruct Hok as (Hh0 & Hnx & Hg).
  pose proof (i_chain _ _ I) as Hc. rewrite Hh in Hc.
  inversion Hc as [|n' m' ns' _ Hm Hc' E]; [congruence|]; subst.
  assert (m' = m) as -> by congruence. exists ns'. split; [done|].
  pose proof (i_given _ _ I) as [_ Hgs]%Forall_cons.
  constructor; simpl; [done|done| | | |].
  - intros j. at_thread j i; [done|]. apply (i_pc _ _ I j).
  - intros j k x Hj Hk. at_thread j i; at_thread k i; try done. by apply (i_owner _ _ I j k x).
  - intros j x Hj. at_thread j i; [done|]. pose proof (i_stack _ _ I j x Hj) as Hx.
    by apply not_elem_of_cons in Hx as [_ Hx].
  - intros j k x Hj. at_thread j i; [done|]. at_thread k i; [done|]. by apply (i_pop _ _ I j).
Qed.

Lemma chain_head nx h ns : chain nx h ns -> h <> 0 -> h ∈ ns /\ is_Some (nx !! h).
Proof. intros Hc Hh. inversion Hc; subst; [done|]. split; [set_solver|eauto]. Qed.

Lemma chain_null nx ns : chain nx 0 ns -> ns = [].
Proof. inversion 1; congruence. Qed.

(** The simulation: every access is a no-op or one atomic operation. *)
Lemma stack_step_simulates s s' b :
  inv s (fst b) /\ snd b = log s -> step false s s' ->
  exists b', rtc atomic_step b b' /\ inv s' (fst b') /\ snd b' = log s'.
Proof.
  destruct b as [ns l]; simpl. intros [I ->] Hs.
  destruct Hs as [s i n Hi Hn0 Hnx Hown Hnew|s i n Hi|s i n h Hi|s i n h Hi Hh|s i n h Hi|s i Hi|s i Hi Hh
    |s i Hi Hh|s i h m Hi Hm|s i h m Hi Hh|s i h m Hi|s n ? _ _]; [..|done]; unfold at_pc in Hi;
    pose proof (i_pc _ _ I i) as Hok; rewrite Hi in Hok; simpl in Hok.
  - exists (ns, log s). split; [constructor|]. split; [|done]. simpl.
    apply (inv_move s ns i Idle); [done|done|set_solver| |done|simpl; set_solver].
    intros m [= <-]. by right.
  - exists (ns, log s). split; [constructor|]. split; [|done]. simpl.
    apply (inv_move s ns i (PushLoad n)); [done|done|done|by left|done|done].
  - exists (ns, log s). split; [constructor|]. split; [|done]. by apply inv_write_next.
  - exists (n :: ns, log s ++ [(i, Pushed n)]). split; [apply rtc_once; constructor|]. split; [|done].
    by eapply inv_push.
  - exists (ns, log s). split; [constructor|]. split; [|done]. simpl.
    apply (inv_move s ns i (PushCas n h)); [done|done|done|by left|done|]. simpl. naive_solver.
  - exists (ns, log s). split; [constructor|]. split; [|done]. simpl.
    by apply (inv_move s ns i Idle).
  - pose proof (i_chain _ _ I) as Hc. rewrite Hh in Hc. apply chain_null in Hc as ->.
    exists ([], log s ++ [(i, PoppedNull)]). split; [apply rtc_once; constructor|]. split; [|done].
    by apply (inv_move s [] i PopLoad).
  - destruct (chain_head _ _ _ (i_chain _ _ I) Hh) as [Hin Hsome].
    exists (ns, log s). split; [constructor|]. split; [|done]. simpl.
    apply (inv_move s ns i PopLoad); [done|done|done|done| |].
    + intros n [= <-]. by right.
    + simpl. split_and!; [done|done|]. by apply (proj1 (Forall_forall _ _) (i_given _ _ I)).
  - exists (ns, log s). split; [constructor|]. split; [|done]. simpl.
    apply (inv_move s ns i (PopNext h)); [done|done|done|done|by left|]. simpl. naive_solver.
  - destruct (inv_pop s ns i h m (log s ++ [(i, Popped h)]) I Hi Hh) as (ns' & -> & I').
    exists (ns', log s ++ [(i, Popped h)]). split; [apply rtc_once; constructor|]. done.
  - exists (ns, log s). split; [constructor|]. split; [|done]. simpl.
    by apply (inv_move s ns i (PopCas h m)).
Qed.

Lemma stack_init_inv nodes : inv (init nodes) [].
Proof. constructor; simpl; try done. constructor. Qed.

Lemma stack_reachable_inv nodes s :
  rtc (step false) (init nodes) s ->
  exists ns, rtc atomic_step ([], []) (ns, log s) /\ inv s ns.
Proof.
  intros Hr.
  destruct (simulation_rtc (step false) atomic_step (fun s b => inv s (fst b) /\ snd b = log s)
              (init nodes) s ([], [])) as ([ns l] & Ha & I & E).
  - intros x y b [HI HE] Hxy. by apply (stack_step_simulates x y b).
  - split; [apply stack_init_inv|done].
  - done.
  - simpl in *. subst. eauto.
Qed.

(** C30: as long as no node is pushed twice or deleted, every interleaving of
    [Push] and [Pop] by any number of threads, with any spurious failures of the
    exchange, behaves like a stack with atomic operations: the effects in the
    order of their exchanges are a history of a sequential stack, whose contents
    are the nodes linked from [head_]; and a thread that has read a node's
    address in [Pop] can always read its [next]. *)
Theorem lockfree_stack_linearizable (nodes : gset Z) (s : t) :
  rtc (step false) (init nodes) s ->
  (exists ns, rtc atomic_step ([], []) (ns, log s) /\ chain (next s) (head_ s) ns) /\
  (forall i h, threads s i = PopNext h -> is_Some (next s !! h)).
Proof.
  intros Hr. destruct (stack_reachable_inv nodes s Hr) as (ns & Ha & I). split.
  - exists ns. split; [done|apply I].
  - intros i h Hi. pose proof (i_pc _ _ I i) as Hok. rewrite Hi in Hok. apply Hok.
Qed.

(** ** Running the model

    A schedule says which thread moves next and, where there is a choice, what it
    does; [exec] computes the step for the first [k] threads. *)

Inductive act :=
  | BeginPush (n : Z) (contents : list Z)
  | BeginPop
  | Advance
  | FailCas
  | Delete (n : Z) (contents : list Z).

Fixpoint chainb (nx : gmap Z Z) (h : Z) (ns : list Z) : bool :=
  match ns with
  | [] => h =? 0
  | n :: ns' => (h =? n) && negb (n =? 0) && match nx !! n with Some m => chainb nx m ns' | None => false end
  end.

Definition unclaimed (k : nat) (n : Z) (s : t) : bool :=
  forallb (fun j => negb (bool_decide (pushing (threads s j) = Some n))) (seq 0 k).

Definition off_stack (n : Z) (ns : list Z) (s : t) : bool :=
  chainb (next s) (head_ s) ns && bool_decide (n ∉ ns).

Definition exec (recycle : bool) (k : nat) (s : t) (ia : nat * act) : option t :=
  let '(i, a) := ia in
  let move p nx h l := Some (mk h nx (goto i p (threads s)) (log s ++ l) (given s)) in
  if negb (i <? k)%nat then None
  else match a, threads s i with
  | BeginPush n ns, Idle =>
      if negb (n =? 0) && bool_decide (is_Some (next s !! n)) && unclaimed k n s &&
         (if recycle then off_stack n ns s else bool_decide (n ∉ given s))
      then Some (mk (head_ s) (next s) (goto i (PushLoad n) (threads s)) (log s) ({[n]} ∪ given s))
      else None
  | BeginPop, Idle => move PopLoad (next s) (head_ s) []
  | Advance, PushLoad n => move (PushNext n (head_ s)) (next s) (head_ s) []
  | Advance, PushNext n h => move (PushCas n h) (<[n := h]> (next s)) (head_ s) []
  | Advance, PushCas n h =>
      if head_ s =? h then move Idle (next s) n [(i, Pushed n)] else move (PushLoad n) (next s) (head_ s) []
  | FailCas, PushCas n h => move (PushLoad n) (next s) (head_ s) []
  | Advance, PopLoad =>
      if head_ s =? 0 then move Idle (next s) (head_ s) [(i, PoppedNull)]
      else move (PopNext (head_ s)) (next s) (head_ s) []
  | Advance, PopNext h => m ← next s !! h; move (PopCas h m) (next s) (head_ s) []
  | Advance, PopCas h m =>
      if head_ s =? h then move Idle (next s) m [(i, Popped h)] else move PopLoad (next s) (head_ s) []
  | FailCas, PopCas h m => move PopLoad (next s) (head_ s) []
  | Delete n ns, Idle =>
      if recycle && off_stack n ns s && unclaimed k n s
      then Some (mk (head_ s) (delete n (next s)) (threads s) (log s) (given s)) else None
  | _, _ => None
  end.

Fixpoint exec_all (recycle : bool) (k : nat) (s : t) (ias : list (nat * act)) : option t :=
  match ias with
  | [] => Some s
  | ia :: ias' => s1 ← exec recycle k s ia; exec_all recycle k s1 ias'
  end.

Definition quiet (k : nat) (s : t) : Prop := forall j, (k <= j)%nat -> threads s j = Idle.

Lemma chainb_unique nx h ns : chainb nx h ns = true -> forall ns', chain nx h ns' -> ns' = ns.
Proof.
  revert h. induction ns as [|n ns IH]; simpl; intros h Hb ns' Hc.
  - breflect. subst. inversion Hc; congruence.
  - apply andb_true_iff in Hb as [Hb1 Hb2]. breflect. destruct Hb1 as [-> Hn0].
    inversion Hc as [|? m' ? ? Hm Hc']; subst; [congruence|]. rewrite Hm in Hb2. f_equal. eauto.
Qed.

Lemma unclaimed_spec k n s : quiet k s -> unclaimed k n s = true -> forall j, pushing (threads s j) <> Some n.
Proof.
  intros Hq Hu j Hj. destruct (decide (j < k)%nat) as [Hlt|Hge].
  - unfold unclaimed in Hu. rewrite forallb_forall in Hu.
    specialize (Hu j). rewrite in_seq in Hu. specialize (Hu ltac:(lia)). breflect. apply bool_decide_eq_false in Hu. done.
  - rewrite (Hq j) in Hj by lia. done.
Qed.

Lemma off_stack_spec n ns s : off_stack n ns s = true -> forall ns', chain (next s) (head_ s) ns' -> n ∉ ns'.
Proof.
  unfold off_stack. intros [Hc Hn]%andb_true_iff ns' Hc'. apply bool_decide_eq_true in Hn.
  by rewrite (chainb_unique _ _ _ Hc _ Hc').
Qed.

Lemma quiet_goto k i p s h nx l g : quiet k s -> (i < k)%nat -> quiet k (mk h nx (goto i p (threads s)) l g).
Proof. intros Hq Hi j Hj. simpl. rewrite goto_ne by lia. by apply Hq. Qed.

Lemma exec_step recycle k s ia s' :
  quiet k s -> exec recycle k s ia = Some s' -> step recycle s s' /\ quiet k s'.
Proof.
  destruct ia as [i a]. unfold exec. intros Hq. destruct (Nat.ltb_spec i k) as [Hi|]; [|done].
  cbn [negb]. destruct a as [n ns| | | |n ns], (threads s i) eqn:Ei; try done.
  - case_test; [|done]. intros [= <-]. repeat (apply andb_true_iff in Heqb as [Heqb ?]).
    apply negb_true_iff, Z.eqb_neq in Heqb. split; [|by apply quiet_goto].
    apply step_push_begin; [done|done|by eapply bool_decide_eq_true|by eapply unclaimed_spec|].
    destruct recycle; [by eapply off_stack_spec|by eapply bool_decide_eq_true].
  - intros [= <-]. split; [|by apply quiet_goto]. rewrite app_nil_r. by apply step_pop_begin.
  - intros [= <-]. split; [|by apply quiet_goto]. rewrite app_nil_r. by apply step_push_load.
  - intros [= <-]. split; [|by apply quiet_goto]. rewrite app_nil_r. by apply step_push_next.
  - case_test; intros [= <-]; (split; [|by apply quiet_goto]).
    + apply Z.eqb_eq in Heqb. by eapply step_push_cas_ok.
    + rewrite app_nil_r. by eapply step_push_cas_fail.
  - case_test; intros [= <-]; (split; [|by apply quiet_goto]).
    + apply Z.eqb_eq in Heqb. by apply step_pop_null.
    + apply Z.eqb_neq in Heqb. rewrite app_nil_r. by apply step_pop_load.
  - destruct (next s !! old_head) as [m|] eqn:Em; simpl; [|done]. intros [= <-]. split; [|by apply quiet_goto].
    rewrite app_nil_r. by eapply step_pop_next.
  - case_test; intros [= <-]; (split; [|by apply quiet_goto]).
    + apply Z.eqb_eq in Heqb. by eapply step_pop_cas_ok.
    + rewrite app_nil_r. by eapply step_pop_cas_fail.
  - intros [= <-]. split; [|by apply quiet_goto]. rewrite app_nil_r. by eapply step_push_cas_fail.
  - intros [= <-]. split; [|by apply quiet_goto]. rewrite app_nil_r. by eapply step_pop_cas_fail.
  - case_test; [|done]. intros [= <-]. repeat (apply andb_true_iff in Heqb as [Heqb ?]).
    split; [|done]. apply step_delete; [done|by eapply off_stack_spec|by eapply unclaimed_spec].
Qed.

Lemma exec_all_rtc recycle k ias : forall s s',
  quiet k s -> exec_all recycle k s ias = Some s' -> rtc (step recycle) s s'.
Proof.
  induction ias as [|ia ias IH]; simpl; intros s s' Hq E; [simplify_eq; constructor|].
  destruct (exec recycle k s ia) as [s1|] eqn:E1; [|done]. simpl in E.
  destruct (exec_step _ _ _ _ _ Hq E1) as [Hs Hq1]. eapply rtc_l; eauto.
Qed.

Definition reach (recycle : bool) (nodes : list Z) (ias : list (nat * act)) : t :=
  default (init (list_to_set nodes)) (exec_all recycle 2 (init (list_to_set nodes)) ias).

Lemma reach_rtc recycle nodes ias :
  bool_decide (is_Some (exec_all recycle 2 (init (list_to_set nodes)) ias)) = true ->
  rtc (step recycle) (init (list_to_set nodes)) (reach recycle nodes ias).
Proof.
  intros [s E]%bool_decide_eq_true. unfold reach. rewrite E. by eapply exec_all_rtc.
Qed.

(** Thread 0 pushes node 1 while thread 1 pushes node 2, whose exchange fails
    once; then thread 0 pops. *)
Definition sample_schedule : list (nat * act) :=
  [(0, BeginPush 1 []); (1, BeginPush 2 []); (0, Advance); (1, Advance); (0, Advance); (1, Advance);
   (0, Advance); (1, Advance); (1, Advance); (1, Advance); (1, Advance);
   (0, BeginPop); (0, Advance); (0, Advance); (0, Advance)]%nat.

Example sample_log :
  log (reach false [1; 2] sample_schedule) = [(0%nat, Pushed 1); (1%nat, Pushed 2); (0%nat, Popped 2)].
Proof. vm_compute. reflexivity. Qed.

Lemma lockfree_stack_linearizable_witness :
  (exists ns, rtc atomic_step ([], []) (ns, log (reach false [1; 2] sample_schedule)) /\
     chain (next (reach false [1; 2] sample_schedule)) (head_ (reach false [1; 2] sample_schedule)) ns) /\
  (forall i h, threads (reach false [1; 2] sample_schedule) i = PopNext h ->
     is_Some (next (reach false [1; 2] sample_schedule) !! h)).
Proof.
  apply (lockfree_stack_linearizable (list_to_set [1; 2])). apply reach_rtc. vm_compute. reflexivity.
Defined.

(** ** The destructor

    [Pop] until [nullptr], deleting every node; one round per node. *)
Fixpoint destroy (fuel : nat) (head : Z) (nx : gmap Z Z) : option (gmap Z Z) :=
  match fuel with
  | O => None
  | S fuel' =>
      if head =? 0 then Some nx
      else m ← nx !! head; destroy fuel' m (delete head nx)
  end.

Lemma chain_delete nx h ns n : chain nx h ns -> n ∉ ns -> chain (delete n nx) h ns.
Proof.
  induction 1 as [|n' m' ns Hn0 Hn Hc IH]; [constructor|]. intros [Hne Hni]%not_elem_of_cons.
  econstructor; [done| |by apply IH]. by rewrite lookup_delete_ne.
Qed.

(** It deletes every node of the stack once, and no other. *)
Lemma destroy_ok nx h ns :
  chain nx h ns -> NoDup ns ->
  exists nx', destroy (S (length ns)) h nx = Some nx' /\
    (forall n, n ∈ ns -> nx' !! n = None) /\ (forall n, n ∉ ns -> nx' !! n = nx !! n).
Proof.
  revert nx h. induction ns as [|n ns IH]; intros nx h Hc Hd; inversion Hc as [|? m ? Hn0 Hm Hc']; subst.
  { exists nx. split_and!; [done|by intros ? ?%elem_of_nil|done]. }
  apply NoDup_cons in Hd as [Hni Hd].
  destruct (IH (delete n nx) m) as (nx' & E & H1 & H2); [by apply chain_delete|done|].
  exists nx'. cbn [destroy length]. rewrite (proj2 (Z.eqb_neq _ _) Hn0), Hm. split_and!; [done| |].
  - intros x [-> |Hx]%elem_of_cons; [|by apply H1]. rewrite H2 by done. apply lookup_delete_eq.
  - intros x [Hx1 Hx2]%not_elem_of_cons. rewrite H2 by done. by apply lookup_delete_ne.
Qed.

(** ** Recycled nodes *)

(** Node 2 lies under node 1.  Thread 0 stops inside [Pop] after reading them;
    thread 1 pops both and pushes node 1 again, so that thread 0's exchange
    succeeds and makes the popped node 2 the top; thread 1 pops it again. *)
Definition push_all (i : nat) (n : Z) (ns : list Z) : list (nat * act) :=
  [(i, BeginPush n ns); (i, Advance); (i, Advance); (i, Advance)].
Definition pop_all (i : nat) : list (nat * act) :=
  [(i, BeginPop); (i, Advance); (i, Advance); (i, Advance)].

Definition aba_schedule : list (nat * act) :=
  push_all 1 2 [] ++ push_all 1 1 [2] ++
  [(0%nat, BeginPop); (0%nat, Advance); (0%nat, Advance)] ++
  pop_all 1 ++ pop_all 1 ++ push_all 1 1 [] ++
  [(0%nat, Advance)] ++ pop_all 1.

(** C38: once popped nodes are pushed again (or deleted), the stack is no longer
    linearizable: there is a run that pops a node twice, which no history of a
    sequential stack does; and a run in which a popping thread is about to read
    [next] of a deleted node. *)
Theorem recycling_breaks_the_stack :
  (exists s, rtc (step true) (init {[1; 2]}) s /\ forall ns, ~ rtc atomic_step ([], []) (ns, log s)) /\
  (exists s h, rtc (step true) (init {[1; 2]}) s /\ threads s 0%nat = PopNext h /\ next s !! h = None).
Proof.
  replace ({[1; 2]} : gset Z) with (list_to_set [1; 2] : gset Z) by set_solver. split.
  - exists (reach true [1; 2] aba_schedule). split; [apply reach_rtc; vm_compute; reflexivity|].
    intros ns Hr. apply atomic_replay in Hr.
    assert (replay [] (log (reach true [1; 2] aba_schedule)) = None) as E by (vm_compute; reflexivity).
    congruence.
  - set (sch := push_all 1 2 [] ++ [(0%nat, BeginPop); (0%nat, Advance)] ++ pop_all 1 ++ [(1%nat, Delete 2 [])]).
    exists (reach true [1; 2] sch), 2. split; [apply reach_rtc; vm_compute; reflexivity|].
    split; vm_compute; reflexivity.
Qed.

End LockFreeStack.
