(* ===== verification/RcuPtr.v ===== *)
(** * rcu_ptr/rcu_ptr.h

    [rcu_ptr]: an atomic shared pointer to immutable versions of a value.  One
    step per atomic operation on [sp_].  Versions live at addresses (0 is null);
    an address may be used again once no shared pointer refers to it.  Callers make
    shared pointers of their own, store them, null or the ones [Load] gave them, and
    drop them.  A version is changed by nobody but the callback it is made for, which
    does not keep the pointer it is given. *)

From S2P Require Import Prelude.

Module RcuPtr.
Section rcu.
(** [F] names the callbacks passed to [Update]: [call f x y] when [f] may turn the
    copy [x] it is given into [y] (it is called again when the exchange fails, and may
    do something else then), [accepts_null f] when it may be called with a null
    pointer. *)
Context {T F : Type} (call : F -> T -> T -> Prop) (accepts_null : F -> bool).

Inductive pc :=
  | Idle
  | UpdateLoad (func : F)                              (* before the first atomic_load *)
  | UpdateCopy (func : F) (sp_copy : Z)                (* before the deep copy and the call *)
  | UpdateCas (func : F) (sp_copy sp_deep_copy : Z)    (* before the exchange *)
  | Undefined (func : F).                              (* the callback followed a null pointer *)

Inductive effect := Loaded (v : option T) | Stored (v : option T) | Updated (func : F).

Record t := mk {
  sp_ : Z;
  versions : gmap Z T;
  threads : nat -> pc;
  held : list (Z * option T);        (* the callers' shared pointers, with the value they had at first *)
  log : list (nat * effect);
}.

Definition goto (i : nat) (p : pc) (th : nat -> pc) : nat -> pc :=
  fun j => if decide (j = i) then p else th j.

(** What a pointer points to, [None] for null. *)
Definition deref (vs : gmap Z T) (p : Z) : option T := if p =? 0 then None else vs !! p.

Definition pc_refs (p : pc) : list Z :=
  match p with
  | Idle | UpdateLoad _ | Undefined _ => []
  | UpdateCopy _ c => [c]
  | UpdateCas _ c n => [c; n]
  end.

(** Some shared pointer refers to the address [a]. *)
Definition in_use (s : t) (a : Z) : Prop :=
  a = sp_ s \/ (exists i, a ∈ pc_refs (threads s i)) \/ (exists v, (a, v) ∈ held s).

(** The default constructor and the one from a shared pointer, which the caller still
    has. *)
Definition init (v : option T) : t :=
  match v with
  | None => mk 0 ∅ (fun _ => Idle) [] []
  | Some x => mk 1 {[1 := x]} (fun _ => Idle) [(1, Some x)] []
  end.

Inductive step : t -> t -> Prop :=
  | step_load s i :
      threads s i = Idle ->
      step s (mk (sp_ s) (versions s) (threads s) ((sp_ s, deref (versions s) (sp_ s)) :: held s)
                (log s ++ [(i, Loaded (deref (versions s) (sp_ s)))]))
  | step_release s h1 p v h2 :
      held s = h1 ++ (p, v) :: h2 ->
      step s (mk (sp_ s) (versions s) (threads s) (h1 ++ h2) (log s))
  (** a caller makes a version *)
  | step_new s x a :
      a <> 0 -> ~ in_use s a ->
      step s (mk (sp_ s) (<[a := x]> (versions s)) (threads s) ((a, Some x) :: held s) (log s))
  | step_store s i r v :
      threads s i = Idle -> (r, v) ∈ (0, None) :: held s ->
      step s (mk r (versions s) (threads s) (held s) (log s ++ [(i, Stored v)]))
  | step_update_begin s i f :
      threads s i = Idle ->
      step s (mk (sp_ s) (versions s) (goto i (UpdateLoad f) (threads s)) (held s) (log s))
  | step_update_load s i f :
      threads s i = UpdateLoad f ->
      step s (mk (sp_ s) (versions s) (goto i (UpdateCopy f (sp_ s)) (threads s)) (held s) (log s))
  (** a copy of the version, if there is one, changed by the callback *)
  | step_update_copy s i f c x y a :
      threads s i = UpdateCopy f c -> c <> 0 -> versions s !! c = Some x -> call f x y -> a <> 0 -> ~ in_use s a ->
      step s (mk (sp_ s) (<[a := y]> (versions s)) (goto i (UpdateCas f c a) (threads s)) (held s) (log s))
  (** without a version the callback gets a null pointer *)
  | step_call_null_undefined s i f :
      threads s i = UpdateCopy f 0 -> accepts_null f = false ->
      step s (mk (sp_ s) (versions s) (goto i (Undefined f) (threads s)) (held s) (log s))
  | step_call_null s i f :
      threads s i = UpdateCopy f 0 -> accepts_null f = true ->
      step s (mk (sp_ s) (versions s) (goto i (UpdateCas f 0 0) (threads s)) (held s) (log s))
  | step_cas_ok s i f c n :
      threads s i = UpdateCas f c n -> sp_ s = c ->
      step s (mk n (versions s) (goto i Idle (threads s)) (held s) (log s ++ [(i, Updated f)]))
  (** a failed exchange loads the current pointer into [sp_copy] *)
  | step_cas_fail s i f c n :
      threads s i = UpdateCas f c n -> sp_ s <> c ->
      step s (mk (sp_ s) (versions s) (goto i (UpdateCopy f (sp_ s)) (threads s)) (held s) (log s)).

(** ** The specification: a register with atomic operations *)

(** What an update may replace a value with. *)
Definition updates (f : F) (v v' : option T) : Prop :=
  match v, v' with
  | Some x, Some y => call f x y
  | None, None => accepts_null f = true
  | _, _ => False
  end.

Inductive atomic_step : option T * list (nat * effect) -> option T * list (nat * effect) -> Prop :=
  | atomic_load v l i : atomic_step (v, l) (v, l ++ [(i, Loaded v)])
  | atomic_store v l i x : atomic_step (v, l) (x, l ++ [(i, Stored x)])
  | atomic_update v v' l i f : updates f v v' -> atomic_step (v, l) (v', l ++ [(i, Updated f)]).

(** ** Refinement *)

Definition pc_ok (vs : gmap Z T) (p : pc) : Prop :=
  match p with
  | UpdateCas f c n => updates f (deref vs c) (deref vs n)
  | Undefined f => accepts_null f = false
  | _ => True
  end.

Record inv (s : t) : Prop := {
  i_alive : forall a, in_use s a -> a <> 0 -> is_Some (versions s !! a);
  i_pc : forall i, pc_ok (versions s) (threads s i);
  i_held : forall p v, (p, v) ∈ held s -> deref (versions s) p = v;
}.

(** Writing a version nobody refers to changes nothing that is in use. *)
Lemma deref_fresh s a x p : ~ in_use s a -> in_use s p -> deref (<[a := x]> (versions s)) p = deref (versions s) p.
Proof.
  intros Ha Hp. unfold deref. case_test; [done|]. rewrite lookup_insert_ne; [done|]. by intros ->.
Qed.

Lemma goto_case i p th j : goto i p th j = th j \/ goto i p th j = p.
Proof. unfold goto. case_decide; auto. Qed.

(** A step that allocates at most one version and moves one thread to [p]; every
    address in use afterwards was in use before or is the new one. *)
Lemma inv_step s sp vs th p h l :
  inv s ->
  (vs = versions s \/ exists a x, ~ in_use s a /\ vs = <[a := x]> (versions s)) ->
  (forall j, th j = threads s j \/ th j = p) ->
  (forall q, q = sp \/ q ∈ pc_refs p -> in_use s q \/ is_Some (vs !! q) \/ q = 0) ->
  (forall q v, (q, v) ∈ h -> (q, v) ∈ held s \/ deref vs q = v /\ (q <> 0 -> is_Some (vs !! q))) ->
  pc_ok vs p ->
  inv (mk sp vs th h l).
Proof.
  intros I Hvs Hth Hrefs Hheld Hpc.
  assert (forall q, in_use s q -> deref vs q = deref (versions s) q) as Hd.
  { intros q Hq. destruct Hvs as [-> |(a & x & Ha & ->)]; [done|by apply deref_fresh]. }
  assert (forall q, in_use s q -> q <> 0 -> is_Some (vs !! q)) as Hal.
  { intros q Hq H0. pose proof (i_alive _ I q Hq H0) as Hs. destruct Hvs as [-> |(a & x & Ha & ->)]; [done|].
    rewrite lookup_insert_ne; [done|]. by intros ->. }
  constructor; simpl.
  - intros q Hq H0. destruct Hq as [-> |[[j Hj]|[v Hv]]]; simpl in *.
    + destruct (Hrefs sp (or_introl eq_refl)) as [?|[?|?]]; [by apply Hal|done|done].
    + destruct (Hth j) as [E|E]; rewrite E in Hj.
      * apply Hal; [|done]. right. left. eauto.
      * destruct (Hrefs q (or_intror Hj)) as [?|[?|?]]; [by apply Hal|done|done].
    + destruct (Hheld _ _ Hv) as [?|[_ Ha]]; [|by apply Ha]. apply Hal; [|done]. right. right. eauto.
  - intros j. destruct (Hth j) as [-> | ->]; [|done].
    pose proof (i_pc _ I j) as Hj. destruct (threads s j) as [| | |f c n|] eqn:E; simpl in *; try done.
    rewrite !Hd; [done|..]; right; left; exists j; rewrite E; set_solver.
  - intros q v Hq. destruct (Hheld _ _ Hq) as [Ho|[Ho _]]; [|done].
    rewrite Hd; [by apply I|]. right. right. eauto.
Qed.

Lemma in_use_pc s i a : a ∈ pc_refs (threads s i) -> in_use s a.
Proof. intros H. right. left. eauto. Qed.

Lemma deref_insert vs a x : a <> 0 -> deref (<[a := x]> vs) a = Some x.
Proof. intros H. unfold deref. rewrite (proj2 (Z.eqb_neq _ _) H). apply lookup_insert_eq. Qed.

Lemma rcu_init_inv v : inv (init v).
Proof.
  destruct v as [x|]; constructor; simpl; try done.
  - intros a [-> |[[i Hi]|[v Hv]]] _; simpl in *;
      [by rewrite lookup_singleton_eq|by apply elem_of_nil in Hi|].
    apply list_elem_of_singleton in Hv. simplify_eq. by rewrite lookup_singleton_eq.
  - intros p v Hp. apply list_elem_of_singleton in Hp. by simplify_eq.
  - intros a [-> |[[i Hi]|[v Hv]]] H0; simpl in *; [done|by apply elem_of_nil in Hi|by apply elem_of_nil in Hv].
  - by intros p v Hp%elem_of_nil.
Qed.

(** Every step keeps the invariant and is a no-op or one atomic operation. *)
Lemma rcu_step_simulates s s' b :
  inv s /\ b = (deref (versions s) (sp_ s), log s) -> step s s' ->
  exists b', rtc atomic_step b b' /\ inv s' /\ b' = (deref (versions s') (sp_ s'), log s').
Proof.
  intros [I ->] Hs. destruct Hs as [s i Hi|s h1 p v h2 Hh|s x a Ha0 Ha|s i r v Hi Hr|s i f Hi|s i f Hi
    |s i f c x y a Hi Hc Hx Hy Ha0 Ha|s i f Hi Hf|s i f Hi Hf|s i f c n Hi Hc|s i f c n Hi Hc]; simpl.
  - eexists. split; [apply rtc_once, atomic_load|]. split; [|done].
    apply (inv_step s _ _ _ Idle); [done|by left|by left|intros q [-> |H]; [left; by left|set_solver]| |done].
    intros q w [E|Hq]%elem_of_cons; [right; simplify_eq|by left]. split; [done|]. apply I. by left.
  - eexists. split; [apply rtc_refl|]. split; [|done].
    apply (inv_step s _ _ _ Idle); [done|by left|by left|intros q [-> |H]; [left; by left|set_solver]| |done].
    intros q w Hq. left. rewrite Hh. set_solver.
  - eexists. split; [apply rtc_refl|].
    split; [|by rewrite (deref_fresh s a _ (sp_ s)) by (done || by left)].
    apply (inv_step s _ _ _ Idle); [done|right; eauto|by left|intros q [-> |H]; [left; by left|set_solver]| |done].
    intros q w [E|Hq]%elem_of_cons; [right; simplify_eq|by left].
    split; [by apply deref_insert|]. rewrite lookup_insert_eq. eauto.
  - eexists. split; [apply rtc_once, (atomic_store _ _ i v)|].
    apply elem_of_cons in Hr. split.
    + apply (inv_step s _ _ _ Idle); [done|by left|by left| |by left|done].
      intros q [-> |H]; [|set_solver]. destruct Hr as [[= -> _]|Hr]; [auto|]. left. right. right. eauto.
    + destruct Hr as [[= -> ->]|Hr]; [done|]. by rewrite (i_held _ I _ _ Hr).
  - eexists. split; [apply rtc_refl|]. split; [|done].
    apply (inv_step s _ _ _ (UpdateLoad f)); [done|by left|apply goto_case| |by left|done].
    intros q [-> |H]; [left; by left|set_solver].
  - eexists. split; [apply rtc_refl|]. split; [|done].
    apply (inv_step s _ _ _ (UpdateCopy f (sp_ s))); [done|by left|apply goto_case| |by left|done].
    intros q [-> |H]; left; left; [done|set_solver].
  - assert (in_use s c) as Huc by (apply (in_use_pc s i); rewrite Hi; set_solver).
    eexists. split; [apply rtc_refl|].
    split; [|by rewrite (deref_fresh s a _ (sp_ s)) by (done || by left)].
    apply (inv_step s _ _ _ (UpdateCas f c a)); [done|right; eauto|apply goto_case| |by left|].
    + intros q [-> |H]; [left; by left|]. simpl in H. rewrite !elem_of_cons, elem_of_nil in H.
      destruct H as [-> |[-> |[]]]; [by left|]. right. left. rewrite lookup_insert_eq. eauto.
    + simpl. rewrite deref_insert, deref_fresh by done. unfold deref. by rewrite (proj2 (Z.eqb_neq _ _) Hc), Hx.
  - eexists. split; [apply rtc_refl|]. split; [|done].
    apply (inv_step s _ _ _ (Undefined f)); [done|by left|apply goto_case| |by left|done].
    intros q [-> |H]; [left; by left|set_solver].
  - eexists. split; [apply rtc_refl|]. split; [|done].
    apply (inv_step s _ _ _ (UpdateCas f 0 0)); [done|by left|apply goto_case| |by left|done].
    intros q [-> |H]; [left; by left|]. right. right. simpl in H. set_solver.
  - pose proof (i_pc _ I i) as Hok. rewrite Hi in Hok. simpl in Hok. subst c.
    eexists. split; [by eapply rtc_once, atomic_update|]. split; [|done].
    apply (inv_step s _ _ _ Idle); [done|by left|apply goto_case| |by left|done].
    intros q [-> |H]; [|set_solver]. left. apply (in_use_pc s i). rewrite Hi. set_solver.
  - eexists. split; [apply rtc_refl|]. split; [|done].
    apply (inv_step s _ _ _ (UpdateCopy f (sp_ s))); [done|by left|apply goto_case| |by left|done].
    intros q [-> |H]; left; left; [done|set_solver].
Qed.

(** *** Null pointers *)

(** No null pointer is stored, copied or about to be stored. *)
Definition pc_nonnull (p : pc) : Prop :=
  match p with UpdateCopy _ c => c <> 0 | UpdateCas _ c n => c <> 0 /\ n <> 0 | Undefined _ => False | _ => True end.

Definition nonnull (s : t) : Prop :=
  sp_ s <> 0 /\ (forall i, pc_nonnull (threads s i)) /\ forall v, (0, v) ∈ held s -> v = None.

Definition null_stored (s : t) : Prop := exists i, (i, Stored None) ∈ log s.

Lemma goto_nonnull i p th : pc_nonnull p -> (forall j, pc_nonnull (th j)) -> forall j, pc_nonnull (goto i p th j).
Proof. intros Hp Hth j. unfold goto. by case_decide. Qed.

Lemma nonnull_step s s' : step s s' -> nonnull s \/ null_stored s -> nonnull s' \/ null_stored s'.
Proof.
  intros Hs [(H0 & Hth & Hheld)|[i Hi]].
  2: { right. exists i. destruct Hs; simpl; try done; set_solver. }
  destruct Hs as [s i Hi|s h1 p v h2 Hh|s x a Ha0 Ha|s i r v Hi Hr|s i f Hi|s i f Hi
    |s i f c x y a Hi Hc Hx Hy Ha0 Ha|s i f Hi Hf|s i f Hi Hf|s i f c n Hi Hc|s i f c n Hi Hc];
    try (left; split_and!; simpl; [done|done|set_solver]);
    try (left; split_and!; simpl; [done|by apply goto_nonnull|done]).
  - left. split_and!; simpl; [done|done|]. intros w Hw. apply Hheld. rewrite Hh. set_solver.
  - apply elem_of_cons in Hr. destruct (Z.eq_dec r 0) as [-> |Hr0]; [|by left].
    right. exists i. assert (v = None) as -> by (destruct Hr as [[= ->]|Hr]; eauto). simpl. set_solver.
  - pose proof (Hth i) as H. by rewrite Hi in H.
  - pose proof (Hth i) as H. by rewrite Hi in H.
  - pose proof (Hth i) as H. rewrite Hi in H. destruct H. left. split_and!; simpl; [done|by apply goto_nonnull|done].
Qed.

Lemma nonnull_reachable v0 s : rtc step (init v0) s -> nonnull s \/ null_stored s \/ v0 = None.
Proof.
  destruct v0 as [x|]; [|by auto]. intros Hr.
  assert (nonnull s \/ null_stored s) as [?|?]; [|by auto..].
  apply (invariant_rtc step (fun s => nonnull s \/ null_stored s) (init (Some x)) s).
  - intros a b Hb Hab. by eapply nonnull_step.
  - left. split_and!; simpl; [done|done|set_solver].
  - done.
Qed.

(** C13: every interleaving of [Load], [Store] (of a null pointer, a new version or one
    already shared) and [Update] behaves like a register with atomic operations: each
    load returns the current value, no update is lost, and an update applies its
    callback to the value it replaces.  What a caller holds keeps its value for as
    long as it is held, even when addresses of released versions are used again.  A
    callback follows a null pointer only if the object was made empty or null was
    stored, and only one that does not accept null. *)
Theorem rcu_ptr_linearizable (v0 : option T) (s : t) :
  rtc step (init v0) s ->
  rtc atomic_step (v0, []) (deref (versions s) (sp_ s), log s) /\
  (forall p v, (p, v) ∈ held s -> deref (versions s) p = v) /\
  (forall i f, threads s i = Undefined f -> accepts_null f = false /\ (v0 = None \/ null_stored s)).
Proof.
  intros Hr.
  destruct (simulation_rtc step atomic_step (fun s b => inv s /\ b = (deref (versions s) (sp_ s), log s))
              (init v0) s (v0, [])) as (b & Ha & I & ->).
  - intros x y b [HI HE] Hxy. by apply (rcu_step_simulates x y b).
  - split; [apply rcu_init_inv|]. by destruct v0.
  - done.
  - split_and!; [done|apply I|]. intros i f Hf. pose proof (i_pc _ I i) as Hpc. rewrite Hf in Hpc. split; [exact Hpc|].
    destruct (nonnull_reachable v0 s Hr) as [(_ & Hth & _)|[?| ->]]; [|by right|by left].
    pose proof (Hth i) as H. by rewrite Hf in H.
Qed.

End rcu.

(** A counter at 5: thread 0 loads it, then thread 1 increments it, and thread 0 stores
    what it has loaded.  The states after each step: *)
Definition incr (f : unit) (n m : Z) : Prop := m = n + 1.
Definition never (f : unit) : bool := false.

Definition run1 : @t Z unit :=
  mk 1 {[1 := 5]} (fun _ => Idle) [(1, Some 5); (1, Some 5)] [(0%nat, Loaded (Some 5))].
Definition run2 := mk 1 {[1 := 5]} (goto 1 (UpdateLoad ()) (fun _ => Idle)) (held run1) (log run1).
Definition run3 := mk 1 {[1 := 5]} (goto 1 (UpdateCopy () 1) (threads run2)) (held run1) (log run1).
Definition run4 :=
  mk 1 (<[2 := 6]> {[1 := 5]}) (goto 1 (UpdateCas () 1 2) (threads run3)) (held run1) (log run1).
Definition run5 :=
  mk 2 (<[2 := 6]> {[1 := 5]}) (goto 1 Idle (threads run4)) (held run1)
    (log run1 ++ [(1%nat, Updated ())]).
Definition run6 := mk 1 (versions run5) (threads run5) (held run5) (log run5 ++ [(0%nat, Stored (Some 5))]).

Lemma rcu_run_reaches : rtc (step incr never) (init (Some 5)) run6.
Proof.
  apply rtc_l with run1; [apply (step_load incr never (init (Some 5)) 0); reflexivity|].
  apply rtc_l with run2; [apply (step_update_begin incr never run1 1 ()); reflexivity|].
  apply rtc_l with run3; [apply (step_update_load incr never run2 1 ()); reflexivity|].
  apply rtc_l with run4.
  { apply (step_update_copy incr never run3 1 () 1 5 6 2); [reflexivity|done|reflexivity|reflexivity|done|].
    intros [H|[[j H]|[v H]]]; simpl in H; [done| |set_solver].
    destruct (decide (j = 1%nat)) as [-> |Hj]; [set_solver|].
    unfold goto in H. rewrite !decide_False in H by done. set_solver. }
  apply rtc_l with run5; [apply (step_cas_ok incr never run4 1 () 1 2); reflexivity|].
  apply rtc_once. apply (step_store incr never run5 0 1 (Some 5)); [reflexivity|]. simpl. set_solver.
Qed.

Lemma rcu_ptr_linearizable_witness :
  rtc (atomic_step incr never) (Some 5, [])
    (Some 5, [(0%nat, Loaded (Some 5)); (1%nat, Updated ()); (0%nat, Stored (Some 5))]) /\
  (forall p v, (p, v) ∈ held run6 -> deref (versions run6) p = v) /\
  (forall i f, threads run6 i = Undefined f -> never f = false /\ (Some 5 = None \/ null_stored run6)).
Proof. apply (rcu_ptr_linearizable incr never (Some 5) run6). apply rcu_run_reaches. Defined.

End RcuPtr.
