(* ===== verification/DoubleBuffer.v ===== *)
(** * double_buffer/double_buffer.h

    [DoubleBuffer]: two copies of a value, one read, the other written.  One step
    per access to shared state.  The two [shared_ptr]s never change what they
    point to; what changes is the data, [read_idx_] and how many readers hold
    each buffer.  [write_mtx_] admits one writer. *)

From S2P Require Import Prelude.

Module DoubleBuffer.
Section double_buffer.
(** [F] names the updaters, [call f] is what one does to the data. *)
Context {T F : Type} (call : F -> T -> T).

(** Where the writer stands in [Update]; the index is that of the buffer it
    waits for or holds. *)
Inductive writer :=
  | Idle
  | Wait1 (f : F) (w : bool)       (* use_count() loop of the first monopolizer_writer_buffer *)
  | Write1 (f : F) (w : bool)      (* before updater(write_buffer) *)
  | Swap (f : F) (w : bool)        (* before swap_buffer *)
  | Index2 (f : F)                 (* before the second read of read_idx_ *)
  | Wait2 (f : F) (w : bool)
  | Write2 (f : F) (w : bool).

Inductive effect := Loaded (v : T) | Updated (f : F).

Record t := mk {
  buffers_ : bool -> T;
  read_idx_ : bool;
  held : list (bool * T);          (* buffers readers hold, with the value seen at [Load] *)
  fetching : list bool;            (* readers between the two accesses of [Load] *)
  wr : writer;
  log : list effect;
}.

Definition init (data : T) : t := mk (fun _ => data) false [] [] Idle [].

Definition set_buffer (w : bool) (v : T) (b : bool -> T) : bool -> T :=
  fun i => if Bool.eqb i w then v else b i.

(** [use_count()] of a buffer no writer holds *)
Definition use_count (s : t) (i : bool) : nat :=
  S (length (base.filter (fun h => fst h = i) (held s))).

(** [Load] reads the index, then copies the pointer. *)
Inductive step : t -> t -> Prop :=
  | step_load_index s :
      step s (mk (buffers_ s) (read_idx_ s) (held s) (read_idx_ s :: fetching s) (wr s) (log s))
  | step_load_copy s f1 i f2 :
      fetching s = f1 ++ i :: f2 ->
      step s (mk (buffers_ s) (read_idx_ s) ((i, buffers_ s i) :: held s) (f1 ++ f2) (wr s)
                       (log s ++ [Loaded (buffers_ s i)]))
  | step_release s h1 i v h2 :
      held s = h1 ++ (i, v) :: h2 ->
      step s (mk (buffers_ s) (read_idx_ s) (h1 ++ h2) (fetching s) (wr s) (log s))
  | step_update_begin s f :
      wr s = Idle ->
      step s (mk (buffers_ s) (read_idx_ s) (held s) (fetching s) (Wait1 f (negb (read_idx_ s))) (log s))
  | step_monopolize1 s f w :
      wr s = Wait1 f w -> use_count s w = 1%nat ->
      step s (mk (buffers_ s) (read_idx_ s) (held s) (fetching s) (Write1 f w) (log s))
  | step_write1 s f w :
      wr s = Write1 f w ->
      step s (mk (set_buffer w (call f (buffers_ s w)) (buffers_ s)) (read_idx_ s) (held s) (fetching s)
                       (Swap f w) (log s))
  | step_swap s f w :
      wr s = Swap f w ->
      step s (mk (buffers_ s) (negb (read_idx_ s)) (held s) (fetching s) (Index2 f) (log s ++ [Updated f]))
  | step_index2 s f :
      wr s = Index2 f ->
      step s (mk (buffers_ s) (read_idx_ s) (held s) (fetching s) (Wait2 f (negb (read_idx_ s))) (log s))
  | step_monopolize2 s f w :
      wr s = Wait2 f w -> use_count s w = 1%nat ->
      step s (mk (buffers_ s) (read_idx_ s) (held s) (fetching s) (Write2 f w) (log s))
  | step_write2 s f w :
      wr s = Write2 f w ->
      step s (mk (set_buffer w (call f (buffers_ s w)) (buffers_ s)) (read_idx_ s) (held s) (fetching s)
                       Idle (log s)).

(** A reader holds the buffer the writer is about to change. *)
Definition data_race (s : t) : Prop :=
  exists f w v, (wr s = Write1 f w \/ wr s = Write2 f w) /\ (w, v) ∈ held s.

(** ** The specification: a register with atomic operations *)

Inductive atomic_step : T * list effect -> T * list effect -> Prop :=
  | atomic_load v l : atomic_step (v, l) (v, l ++ [Loaded v])
  | atomic_update v l f : atomic_step (v, l) (call f v, l ++ [Updated f]).

(** ** Refinement, as long as no [Load] is overtaken *)

(** A step in which the writer does not swap the buffers while some reader stands
    between the two accesses of [Load]. *)
Definition orderly (s s' : t) : Prop := step s s' /\ (read_idx_ s' <> read_idx_ s -> fetching s = []).

Definition unheld (s : t) (w : bool) : Prop := forall v, (w, v) ∉ held s.

Lemma use_count_unheld s w : use_count s w = 1%nat -> unheld s w.
Proof.
  unfold use_count. intros [= H] v Hv. apply length_zero_iff_nil in H.
  assert ((w, v) ∈ base.filter (fun h => fst h = w) (held s)) as Hin by by apply list_elem_of_filter.
  rewrite H in Hin. by apply elem_of_nil in Hin.
Qed.

Definition writer_ok (s : t) : Prop :=
  let r := read_idx_ s in let b := buffers_ s in
  match wr s with
  | Idle => b false = b true
  | Wait1 f w => w = negb r /\ b false = b true
  | Write1 f w => w = negb r /\ b false = b true /\ unheld s w
  | Swap f w => w = negb r /\ b w = call f (b r) /\ unheld s w
  | Index2 f => b r = call f (b (negb r))
  | Wait2 f w => w = negb r /\ b r = call f (b w)
  | Write2 f w => w = negb r /\ b r = call f (b w) /\ unheld s w
  end.

Record inv (s : t) : Prop := {
  i_writer : writer_ok s;
  i_held : forall i v, (i, v) ∈ held s -> buffers_ s i = v;
  i_fetching : forall i, i ∈ fetching s -> i = read_idx_ s;
}.

Lemma set_buffer_eq w v b : set_buffer w v b w = v.
Proof. unfold set_buffer. by rewrite Bool.eqb_reflx. Qed.

Lemma set_buffer_other w v b : set_buffer (negb w) v b w = b w.
Proof. unfold set_buffer. by destruct w. Qed.

Lemma both_equal (b : bool -> T) i : b false = b true -> b i = b (negb i).
Proof. by destruct i. Qed.

(** Changing a buffer nobody holds. *)
Lemma held_set_buffer s w v i x :
  inv s -> unheld s w -> (i, x) ∈ held s -> set_buffer w v (buffers_ s) i = x.
Proof.
  intros I Hu Hi. unfold set_buffer. destruct (Bool.eqb_spec i w) as [-> |]; [by apply Hu in Hi|by apply I].
Qed.

Lemma writer_ok_ext s s' :
  buffers_ s' = buffers_ s -> read_idx_ s' = read_idx_ s -> wr s' = wr s ->
  (forall w v, (w, v) ∈ held s' -> (w, v) ∈ held s \/ w = read_idx_ s) -> writer_ok s -> writer_ok s'.
Proof.
  unfold writer_ok, unheld. intros -> -> -> Hh.
  assert (forall w, w = negb (read_idx_ s) -> (forall v, (w, v) ∉ held s) -> forall v, (w, v) ∉ held s') as Hu.
  { intros w -> H v Hv. destruct (Hh _ _ Hv) as [?|E]; [by eapply H|]. by destruct (read_idx_ s). }
  destruct (wr s); naive_solver.
Qed.

Lemma buffer_step_simulates s s' b :
  inv s /\ b = (buffers_ s (read_idx_ s), log s) -> orderly s s' ->
  exists b', rtc atomic_step b b' /\ inv s' /\ b' = (buffers_ s' (read_idx_ s'), log s').
Proof.
  intros [I ->] [Hs Hf]. pose proof (i_writer _ I) as W. unfold writer_ok in W. pose proof (i_fetching _ I) as Ht.
  destruct Hs as [s|s f1 i f2 Hi|s h1 i v h2 Hh|s f Hw|s f w Hw Hc|s f w Hw|s f w Hw|s f Hw|s f w Hw Hc|s f w Hw];
    try (rewrite Hw in W); simpl in *.
  - eexists. split; [apply rtc_refl|]. split; [|done]. constructor; [apply I|apply I|]. simpl.
    intros i [-> |H]%elem_of_cons; [done|by apply Ht].
  - assert (i = read_idx_ s) as -> by (apply Ht; rewrite Hi; set_solver).
    eexists. split; [apply rtc_once, atomic_load|]. split; [|done]. constructor; simpl.
    + eapply (writer_ok_ext s); simpl; [done..| |apply I].
      intros w v [E|H]%elem_of_cons; [right; congruence|by left].
    + intros i v [E|H]%elem_of_cons; [congruence|by apply I].
    + intros i H. apply Ht. rewrite Hi. set_solver.
  - eexists. split; [apply rtc_refl|]. split; [|done].
    assert (forall x, x ∈ h1 ++ h2 -> x ∈ held s) as Hsub by (intros x; rewrite Hh; set_solver).
    constructor; simpl; [|eauto using i_held|done]. eapply (writer_ok_ext s); simpl; [done..| |apply I]. eauto.
  - eexists. split; [apply rtc_refl|]. split; [|done]. by constructor; [|apply I|].
  - eexists. split; [apply rtc_refl|]. split; [|done]. constructor; [|apply I|done].
    destruct W. split_and!; [done|done|]. by apply (use_count_unheld s).
  - destruct W as (-> & E & Hu). eexists. split; [apply rtc_refl|].
    split; [|by rewrite set_buffer_other].
    constructor; simpl; [|intros i v; by apply held_set_buffer|done].
    unfold writer_ok; simpl. rewrite set_buffer_eq. split_and!; [done| |done]. f_equal.
    rewrite set_buffer_other. symmetry. by apply both_equal.
  - destruct W as (-> & E & Hu). eexists. split; [apply rtc_once, (atomic_update _ _ f)|].
    split; [|by rewrite E]. constructor; [|apply I|].
    + unfold writer_ok; simpl. by rewrite negb_involutive.
    + simpl. rewrite Hf by (by destruct (read_idx_ s)). by intros i ?%elem_of_nil.
  - eexists. split; [apply rtc_refl|]. split; [|done]. by constructor; [|apply I|].
  - eexists. split; [apply rtc_refl|]. split; [|done]. constructor; [|apply I|done].
    destruct W. split_and!; [done|done|]. by apply (use_count_unheld s).
  - destruct W as (-> & E & Hu). eexists. split; [apply rtc_refl|].
    set (r := read_idx_ s) in *. set (b' := set_buffer _ _ _).
    assert (b' r = buffers_ s r) as Er by apply set_buffer_other.
    assert (b' (negb r) = b' r) as Eb by (rewrite Er, E; apply set_buffer_eq).
    split; [|by rewrite Er]. constructor; simpl; [|intros i v; by apply held_set_buffer|done].
    unfold writer_ok; simpl. by destruct r.
Qed.

Lemma buffer_init_inv v : inv (init v).
Proof. constructor; [done|by intros ? ? ?%elem_of_nil|by intros ? ?%elem_of_nil]. Qed.

Lemma buffer_reachable_inv v s :
  rtc orderly (init v) s ->
  rtc atomic_step (v, []) (buffers_ s (read_idx_ s), log s) /\ inv s.
Proof.
  intros Hr.
  destruct (simulation_rtc orderly atomic_step (fun s b => inv s /\ b = (buffers_ s (read_idx_ s), log s))
              (init v) s (v, [])) as (b & Ha & I & ->); [|by split; [apply buffer_init_inv|]|done|done].
  intros x y b [HI HE] Hxy. by apply (buffer_step_simulates x y b).
Qed.

(** C31: in every run of [Load], [Update] and [Reset] in which the writer does not swap
    the buffers while a reader stands between reading the index and copying the
    pointer, the buffer behaves like a register with atomic loads and updates: the
    value a reader holds never changes under it, the writer never touches a buffer
    that is held, and both buffers agree whenever no update is running.  (Without the
    condition it does not, see the race below.) *)
Theorem double_buffer_correct_unless_overtaken (v : T) (s : t) :
  rtc orderly (init v) s ->
  rtc atomic_step (v, []) (buffers_ s (read_idx_ s), log s) /\
  (forall i x, (i, x) ∈ held s -> buffers_ s i = x) /\ ~ data_race s /\
  (wr s = Idle -> buffers_ s false = buffers_ s true).
Proof.
  intros Hr. destruct (buffer_reachable_inv v s Hr) as [Ha I]. pose proof (i_writer _ I) as W.
  unfold writer_ok in W. split_and!; [done|apply I| |].
  - intros (f & w & x & [E|E] & Hx); rewrite E in W; destruct W as (_ & _ & Hu); by apply Hu in Hx.
  - intros E. by rewrite E in W.
Qed.

End double_buffer.

(** ** Runs of a counter *)

Definition incr (f : unit) (n : Z) : Z := n + 1.

Tactic Notation "run_step" uconstr(c) := eapply rtc_l; [eapply c; reflexivity|]; cbn [buffers_ read_idx_ held fetching wr log negb].

(** One whole update, during which a reader takes the index, and its load. *)
Definition run_end : @t Z unit :=
  mk (set_buffer false 1 (set_buffer true 1 (fun _ => 0))) true [(true, 1)] [] Idle [Updated (); Loaded 1].

Tactic Notation "orderly_step" uconstr(c) :=
  eapply rtc_l; [split; [eapply c; reflexivity|cbn; done]|]; cbn [buffers_ read_idx_ held fetching wr log negb].

Lemma buffer_run_reaches : rtc (orderly incr) (init 0) run_end.
Proof.
  unfold init. orderly_step (step_update_begin _ _ ()).
  orderly_step step_monopolize1. orderly_step step_write1. orderly_step step_swap. orderly_step step_load_index.
  orderly_step step_index2. orderly_step step_monopolize2. orderly_step (step_load_copy _ _ [] true []).
  orderly_step step_write2. apply rtc_refl.
Qed.

Lemma double_buffer_correct_unless_overtaken_witness :
  rtc (atomic_step incr) (0, []) (1, [Updated (); Loaded 1]) /\
  (forall i x, (i, x) ∈ held run_end -> buffers_ run_end i = x) /\ ~ data_race run_end /\
  (wr run_end = Idle -> buffers_ run_end false = buffers_ run_end true).
Proof. apply (double_buffer_correct_unless_overtaken incr 0 run_end). apply buffer_run_reaches. Defined.

(** A reader took the index 0 before the update below, and the pointer after
    the writer's second test of [use_count()]. *)
Definition race_state : @t Z unit :=
  mk (set_buffer true 1 (fun _ => 0)) true [(false, 0)] [] (Write2 () false) [Updated (); Loaded 0].

(** C39: [Load] as written reads [read_idx_] and then copies the pointer.  A reader
    that is overtaken by an update between the two accesses ends up holding the
    buffer the writer is about to change: the [use_count()] test came too early.
    The value it has read then changes under it. *)
Theorem split_load_races_with_update :
  exists s s', rtc (step incr) (init 0) s /\ data_race s /\
    step incr s s' /\ exists i x, (i, x) ∈ held s' /\ buffers_ s' i <> x.
Proof.
  exists race_state. eexists. split_and!.
  - unfold init. run_step step_load_index. run_step (step_update_begin _ _ ()).
    run_step step_monopolize1. run_step step_write1. run_step step_swap. run_step step_index2.
    run_step step_monopolize2. run_step (step_load_copy _ _ [] false []). apply rtc_refl.
  - exists (), false, 0. split; [right; reflexivity|]. apply list_elem_of_here.
  - apply (step_write2 incr _ () false). reflexivity.
  - exists false, 0. split; [apply list_elem_of_here|]. done.
Qed.

End DoubleBuffer.
