(* ===== verification/ThreadPool.v ===== *)
(** * threadpool/threadpool.h

    [ThreadPool]: workers that take tasks from a queue under a mutex and wait on
    a condition variable.  A step is one critical section, one notification, one
    wake-up (notified or spurious) or one task run.  A push and its
    [notify_one], and the setting of [stop_] and its [notify_all], are separate
    steps, as in the code. *)

From S2P Require Import Prelude.

Module ThreadPool.
Section pool.
Context {T : Type}.

Inductive worker :=
  | Top                  (* before the critical section *)
  | Waiting              (* asleep in condition_.wait *)
  | Running (task : T)
  | Exited.

(** How far the destructor got. *)
Inductive dtor := Alive | Stopped | Joining | Destroyed.

Record t := mk {
  workers_ : list worker;
  tasks_ : list T;
  stop_ : bool;
  notify : nat;              (* pushes whose notify_one is still to come *)
  phase : dtor;
  accepted : list T;         (* tasks Enqueue took, in order *)
  started : list T;          (* tasks taken by workers, in order *)
  finished : list T;
}.

Definition init (threads : nat) : t := mk (replicate threads Top) [] false 0 Alive [] [] [].

Definition set_worker (i : nat) (w : worker) (s : t) : t :=
  mk (<[i := w]> (workers_ s)) (tasks_ s) (stop_ s) (notify s) (phase s) (accepted s) (started s) (finished s).

(** One step of worker [i]. *)
Inductive worker_step : t -> t -> Prop :=
  (** the predicate of [wait] is false: sleep, releasing the mutex *)
  | ws_wait s i :
      workers_ s !! i = Some Top -> stop_ s = false -> tasks_ s = [] ->
      worker_step s (set_worker i Waiting s)
  | ws_exit s i :
      workers_ s !! i = Some Top -> stop_ s = true -> tasks_ s = [] ->
      worker_step s (set_worker i Exited s)
  | ws_take s i x q :
      workers_ s !! i = Some Top -> tasks_ s = x :: q ->
      worker_step s (mk (<[i := Running x]> (workers_ s)) q (stop_ s) (notify s) (phase s) (accepted s)
                       (started s ++ [x]) (finished s))
  | ws_run s i x :
      workers_ s !! i = Some (Running x) ->
      worker_step s (mk (<[i := Top]> (workers_ s)) (tasks_ s) (stop_ s) (notify s) (phase s) (accepted s)
                       (started s) (finished s ++ [x])).

(** [wait] returns to its test without having been notified. *)
Inductive spurious_step : t -> t -> Prop :=
  | spurious s i : workers_ s !! i = Some Waiting -> spurious_step s (set_worker i Top s).

(** [Enqueue]'s critical section: [None] is the exception. *)
Definition Enqueue (x : T) (s : t) : option t :=
  if stop_ s then None
  else Some (mk (workers_ s) (tasks_ s ++ [x]) (stop_ s) (S (notify s)) (phase s) (accepted s ++ [x])
               (started s) (finished s)).

(** [Enqueue]'s [notify_one] wakes a sleeping worker if there is one. *)
Inductive notify_step : t -> t -> Prop :=
  | notify_one s k i :
      notify s = S k -> workers_ s !! i = Some Waiting ->
      notify_step s (mk (<[i := Top]> (workers_ s)) (tasks_ s) (stop_ s) k (phase s) (accepted s) (started s)
                       (finished s))
  | notify_none s k :
      notify s = S k -> Waiting ∉ workers_ s ->
      notify_step s (mk (workers_ s) (tasks_ s) (stop_ s) k (phase s) (accepted s) (started s) (finished s)).

Definition wake (w : worker) : worker := match w with Waiting => Top | _ => w end.

Inductive dtor_step : t -> t -> Prop :=
  | dtor_stop s :
      phase s = Alive ->
      dtor_step s (mk (workers_ s) (tasks_ s) true (notify s) Stopped (accepted s) (started s) (finished s))
  | dtor_notify_all s :
      phase s = Stopped ->
      dtor_step s (mk (wake <$> workers_ s) (tasks_ s) (stop_ s) (notify s) Joining (accepted s) (started s)
                     (finished s))
  | dtor_joined s :
      phase s = Joining -> Forall (fun w => w = Exited) (workers_ s) ->
      dtor_step s (mk (workers_ s) (tasks_ s) (stop_ s) (notify s) Destroyed (accepted s) (started s) (finished s)).

Inductive step : t -> t -> Prop :=
  | step_worker s s' : worker_step s s' -> step s s'
  | step_spurious s s' : spurious_step s s' -> step s s'
  | step_enqueue s x s' : Enqueue x s = Some s' -> step s s'
  | step_notify s s' : notify_step s s' -> step s s'
  | step_dtor s s' : dtor_step s s' -> step s s'.

(** ** Invariants *)

Definition task_of (w : worker) : list T := match w with Running x => [x] | _ => [] end.

Definition running (ws : list worker) : list T := ws ≫= task_of.

Definition awake (w : worker) : Prop := w = Top \/ exists x, w = Running x.

Record inv (n : nat) (s : t) : Prop := {
  i_size : length (workers_ s) = n;
  i_fifo : accepted s = started s ++ tasks_ s;
  i_once : started s ≡ₚ finished s ++ running (workers_ s);
  i_stop : stop_ s = true <-> phase s <> Alive;
  i_exited : Exited ∈ workers_ s -> stop_ s = true /\ tasks_ s = [];
  i_woken : phase s = Joining \/ phase s = Destroyed -> Waiting ∉ workers_ s;
  i_wakeup : tasks_ s <> [] -> (0 < n)%nat -> Exists awake (workers_ s) \/ (0 < notify s)%nat \/ phase s = Stopped;
  i_destroyed : phase s = Destroyed -> Forall (fun w => w = Exited) (workers_ s);
}.

Lemma running_insert ws i w w' :
  ws !! i = Some w -> task_of w ++ running (<[i := w']> ws) ≡ₚ task_of w' ++ running ws.
Proof.
  unfold running. revert i. induction ws as [|v ws IH]; intros i H; [done|]. destruct i as [|i]; simpl in *.
  - simplify_eq. rewrite !app_assoc. by rewrite (Permutation_app_comm (task_of w)).
  - rewrite !app_assoc, (Permutation_app_comm (task_of w)), (Permutation_app_comm (task_of w')).
    rewrite <- !app_assoc. by rewrite IH.
Qed.

Lemma running_idle ws i w w' :
  ws !! i = Some w -> task_of w = [] -> task_of w' = [] -> running (<[i := w']> ws) ≡ₚ running ws.
Proof. intros H E E'. pose proof (running_insert ws i w w' H) as P. by rewrite E, E' in P. Qed.

Lemma running_wake ws : running (wake <$> ws) = running ws.
Proof.
  induction ws as [|w ws IH]; [done|].
  change (task_of (wake w) ++ running (wake <$> ws) = task_of w ++ running ws). rewrite IH. by destruct w.
Qed.

Lemma insert_elem (ws : list worker) i w w' : w' ∈ <[i := w]> ws -> w' = w \/ w' ∈ ws.
Proof.
  intros H. apply list_elem_of_lookup in H as [j Hj]. apply list_lookup_insert_Some in Hj as [(_ & ? & _)|[_ Hj]];
    [by left|right]. by eapply list_elem_of_lookup_2.
Qed.

Lemma awake_insert ws i w : (i < length ws)%nat -> awake w -> Exists awake (<[i := w]> ws).
Proof.
  intros Hi Hw. apply Exists_exists. exists w. split; [|done]. apply list_elem_of_lookup. exists i.
  by apply list_lookup_insert_eq.
Qed.

Lemma lookup_length (ws : list worker) i w : ws !! i = Some w -> (i < length ws)%nat.
Proof. apply lookup_lt_Some. Qed.

Lemma not_waiting_insert (ws : list worker) i w : w <> Waiting -> Waiting ∉ ws -> Waiting ∉ <[i := w]> ws.
Proof. intros Hw Hn H. apply insert_elem in H as [H|H]; [congruence|done]. Qed.

Lemma all_exited_step ws i (w : worker) : Forall (fun w => w = Exited) ws -> ws !! i = Some w -> w = Exited.
Proof. intros H Hi. by apply (proj1 (Forall_lookup _ _) H i). Qed.

Lemma worker_step_inv n s s' : inv n s -> worker_step s s' -> inv n s'.
Proof.
  intros [Hsz Hf Ho Hst Hex Hwk Hwu Hde] Hs.
  destruct Hs as [s i Hi Hs He|s i Hi Hs He|s i x q Hi Hq|s i x Hi];
    pose proof (lookup_length _ _ _ Hi) as Hlt;
    assert (phase s = Destroyed -> False) as Hnd
      by (intros Hd; pose proof (all_exited_step _ _ _ (Hde Hd) Hi); congruence).
  - constructor; simpl; try done.
    + by rewrite length_insert.
    + by rewrite (running_idle _ i Top).
    + intros [?|H]%insert_elem; [done|by apply Hex].
    + intros [Hp|Hp]; [|by apply Hnd in Hp]. assert (stop_ s = true) by (apply Hst; congruence). congruence.
  - constructor; simpl; try done.
    + by rewrite length_insert.
    + by rewrite (running_idle _ i Top).
    + intros Hp. apply not_waiting_insert; [done|by apply Hwk].
  - constructor; simpl; try done.
    + by rewrite length_insert.
    + by rewrite Hf, Hq, <- app_assoc.
    + pose proof (running_insert _ _ _ (Running x) Hi) as P. simpl in P. rewrite P, Ho, <- app_assoc.
      by rewrite (Permutation_app_comm (running _) [x]).
    + intros [?|H]%insert_elem; [done|]. destruct (Hex H) as [_ E]. congruence.
    + intros Hp. apply not_waiting_insert; [done|by apply Hwk].
    + intros _ _. left. apply awake_insert; [done|]. right. eauto.
  - constructor; simpl; try done.
    + by rewrite length_insert.
    + pose proof (running_insert _ _ _ Top Hi) as P. simpl in P. rewrite Ho, <- P, <- app_assoc. done.
    + intros [?|H]%insert_elem; [done|by apply Hex].
    + intros Hp. apply not_waiting_insert; [done|by apply Hwk].
    + intros _ _. left. apply awake_insert; [done|by left].
Qed.

(** A sleeping worker is put back to its test, a pending notification used up or not. *)
Lemma woken_inv n s i m :
  inv n s -> workers_ s !! i = Some Waiting ->
  inv n (mk (<[i := Top]> (workers_ s)) (tasks_ s) (stop_ s) m (phase s) (accepted s) (started s) (finished s)).
Proof.
  intros [Hsz Hf Ho Hst Hex Hwk Hwu Hde] Hi. pose proof (lookup_length _ _ _ Hi) as Hlt. constructor; simpl; try done.
  - by rewrite length_insert.
  - by rewrite (running_idle _ i Waiting).
  - intros [?|H]%insert_elem; [done|by apply Hex].
  - intros Hp. apply not_waiting_insert; [done|by apply Hwk].
  - intros _ _. left. apply awake_insert; [done|by left].
  - intros Hd. pose proof (all_exited_step _ _ _ (Hde Hd) Hi). congruence.
Qed.

Lemma notify_step_inv n s s' : inv n s -> notify_step s s' -> inv n s'.
Proof.
  intros I Hs. destruct Hs as [s k i Hk Hi|s k Hk Hn]; [by apply woken_inv|].
  destruct I as [Hsz Hf Ho Hst Hex Hwk Hwu Hde]. constructor; simpl; try done. intros Ht H0.
  destruct (workers_ s) as [|w ws] eqn:Ew; [simpl in Hsz; lia|]. left. constructor.
  assert (w <> Waiting) by (intros ->; apply Hn; left).
  assert (w <> Exited) by (intros ->; destruct Hex; [left|done]).
  destruct w; [by left|done|right; eauto|done].
Qed.

Lemma dtor_step_inv n s s' : inv n s -> dtor_step s s' -> inv n s'.
Proof.
  intros [Hsz Hf Ho Hst Hex Hwk Hwu Hde] Hs. destruct Hs as [s Hp|s Hp|s Hp Ha]; constructor; simpl; try done.
  - intros H. split; [done|]. by apply Hex.
  - by intros [?|?].
  - intros _ _. by right; right.
  - by rewrite length_fmap.
  - by rewrite running_wake.
  - by rewrite Hst, Hp.
  - intros H. apply Hex. apply list_elem_of_fmap in H as ([] & E & Hin); done.
  - intros _ H. apply list_elem_of_fmap in H as ([] & E & Hin); done.
  - intros Ht H0. left. destruct (workers_ s) as [|w ws] eqn:Ew; [simpl in Hsz; lia|]. constructor.
    assert (w <> Exited) by (intros ->; destruct Hex; [left|done]).
    destruct w; [by left|by left|right; eauto|done].
  - by rewrite Hst, Hp.
  - intros _. apply Hwk. by left.
  - intros Ht H0. destruct (workers_ s) as [|w ws] eqn:Ew; [simpl in Hsz; lia|].
    apply Forall_cons in Ha as [-> _]. destruct Hex; [left|done].
Qed.

Lemma step_inv n s s' : inv n s -> step s s' -> inv n s'.
Proof.
  intros I Hs. destruct Hs as [s s' Hw|s s' Hw|s x s' He|s s' Hw|s s' Hw];
    [by eapply worker_step_inv| | |by eapply notify_step_inv|by eapply dtor_step_inv].
  { destruct Hw as [s i Hi]. by apply woken_inv. }
  destruct I as [Hsz Hf Ho Hst Hex Hwk Hwu Hde].
  unfold Enqueue in He. destruct (stop_ s) eqn:Es; simplify_eq. constructor; simpl; try done.
  - by rewrite Hf, app_assoc.
  - intros H. destruct (Hex H). congruence.
  - intros _ _. right. left. lia.
Qed.

Lemma pool_init_inv n : inv n (init n).
Proof.
  constructor; simpl; try done.
  - by rewrite length_replicate.
  - unfold running. by induction n.
  - intros H. by apply elem_of_replicate in H as [? _].
  - by intros [?|?].
Qed.

Lemma pool_reachable_inv n s : rtc step (init n) s -> inv n s.
Proof. apply invariant_rtc; [apply step_inv|apply pool_init_inv]. Qed.

(** C17: tasks are taken in the order they were accepted, each by one worker and
    run once: the accepted tasks are those started followed by the queue, and
    those started are the finished ones and the ones being run. *)
Theorem pool_fifo_exactly_once (n : nat) (s : t) :
  rtc step (init n) s ->
  accepted s = started s ++ tasks_ s /\ started s ≡ₚ finished s ++ running (workers_ s).
Proof. intros Hr. destruct (pool_reachable_inv n s Hr). done. Qed.

(** No wake-up is lost: whenever the queue is not empty, some worker is awake
    and will look at it, or a notification for it is still to be sent.  Accepted
    tasks never find all workers gone. *)
Theorem pool_no_lost_wakeup (n : nat) (s : t) :
  rtc step (init n) s -> (0 < n)%nat -> tasks_ s <> [] ->
  Exited ∉ workers_ s /\
  (Exists awake (workers_ s) \/ (0 < notify s)%nat \/ phase s = Stopped).
Proof.
  intros Hr Hn Ht. destruct (pool_reachable_inv n s Hr) as [_ _ _ _ Hex _ Hwu _].
  split; [|by apply Hwu]. intros H. by destruct (Hex H).
Qed.

(** A notification that is due can be sent. *)
Lemma notify_progress s k : notify s = S k -> exists s', notify_step s s'.
Proof.
  intros Hk. assert ((exists i, workers_ s !! i = Some Waiting) \/ Waiting ∉ workers_ s) as [[i Hi]|Hn].
  { induction (workers_ s) as [|w ws [[i Hi]|IH]]; [right; apply not_elem_of_nil|left; by exists (S i)|].
    destruct w; [|left; by exists 0%nat|..]; right; set_solver. }
  - eexists. by apply (notify_one s k i).
  - eexists. by apply (notify_none s k).
Qed.

(** ** Shutting down *)

Definition weight (w : worker) : nat :=
  match w with Top => 1 | Waiting => 0 | Running _ => 2 | Exited => 0 end.

(** How many steps the workers can still take once nobody sleeps. *)
Definition measure (s : t) : nat := 3 * length (tasks_ s) + sum_list_with weight (workers_ s).

Lemma weight_insert ws i w w' :
  ws !! i = Some w ->
  (sum_list_with weight (<[i := w']> ws) + weight w = sum_list_with weight ws + weight w')%nat.
Proof.
  revert i. induction ws as [|v ws IH]; intros i H; [done|]. destruct i as [|i]; simpl in *.
  - simplify_eq. lia.
  - specialize (IH i H). lia.
Qed.

Definition joining (n : nat) (s : t) : Prop := inv n s /\ phase s = Joining.

Lemma worker_step_joining n s s' :
  joining n s -> worker_step s s' -> joining n s' /\ (measure s' < measure s)%nat.
Proof.
  intros [I Hp] Hs. split.
  { split; [by eapply worker_step_inv|]. by destruct Hs. }
  pose proof (i_stop _ _ I) as Hst. pose proof (i_woken _ _ I (or_introl Hp)) as Hw.
  unfold measure. destruct Hs as [s i Hi Hs He|s i Hi Hs He|s i x q Hi Hq|s i x Hi]; simpl.
  - assert (stop_ s = true) by (apply Hst; congruence). congruence.
  - pose proof (weight_insert _ _ _ Exited Hi). simpl in *. lia.
  - pose proof (weight_insert _ _ _ (Running x) Hi). rewrite Hq. simpl in *. lia.
  - pose proof (weight_insert _ _ _ Top Hi). simpl in *. lia.
Qed.

Definition is_exited (w : worker) : bool := match w with Exited => true | _ => false end.

(** A worker that has not exited can move. *)
Lemma joining_progress n s :
  joining n s -> Forall (fun w => w = Exited) (workers_ s) \/ exists s', worker_step s s'.
Proof.
  intros [I Hp]. destruct (decide (Forall (fun w => is_exited w = true) (workers_ s))) as [H|H].
  { left. eapply Forall_impl; [exact H|]. by intros []. }
  right. apply not_Forall_Exists in H; [|apply _]. apply Exists_exists in H as (w & Hin & Hw).
  apply list_elem_of_lookup in Hin as [i Hi].
  assert (stop_ s = true) as Hst by (apply (i_stop _ _ I); congruence).
  destruct w as [| |x|]; [| | |by destruct Hw].
  - destruct (tasks_ s) as [|x q] eqn:Et; eexists; [by apply (ws_exit s i)|by apply (ws_take s i x q)].
  - exfalso. apply (i_woken _ _ I (or_introl Hp)). by eapply list_elem_of_lookup_2.
  - eexists. by apply (ws_run s i x).
Qed.

Lemma joining_bound n k s s' : joining n s -> nsteps worker_step k s s' -> joining n s' /\ (k + measure s' <= measure s)%nat.
Proof.
  intros J Hk. induction Hk as [s|k s s1 s' Hs _ IH]; [split; [done|lia]|].
  destruct (worker_step_joining n s s1 J Hs) as [J1 Hm]. destruct (IH J1) as [J' Hb]. split; [done|lia].
Qed.

Lemma running_exited ws : Forall (fun w => w = Exited) ws -> running ws = [].
Proof. induction 1 as [|w ws -> _ IH]; [done|]. exact IH. Qed.

(** Once all workers have exited, nothing is left in the queue. *)
Lemma all_exited_empty n s : inv n s -> Forall (fun w => w = Exited) (workers_ s) -> (0 < n)%nat -> tasks_ s = [].
Proof.
  intros I Hx Hn. apply (i_exited _ _ I). pose proof (i_size _ _ I) as Hsz.
  destruct (workers_ s) as [|w ws]; [simpl in Hsz; lia|]. apply Forall_cons in Hx as [-> _]. left.
Qed.

Lemma done_accepted n s : inv n s -> Forall (fun w => w = Exited) (workers_ s) -> (0 < n)%nat -> finished s ≡ₚ accepted s.
Proof.
  intros I Hx Hn. rewrite (i_fifo _ _ I), (all_exited_empty n s) by done.
  rewrite app_nil_r, (i_once _ _ I), running_exited by done. by rewrite app_nil_r.
Qed.

(** C19: after the destructor's [notify_all], the workers finish: they can take at
    most [measure s] more steps, none of them sleeps any more, they are never all
    stuck before every one has exited, and when they have, every accepted task has been run exactly once
    and the queue is empty, so that [join] returns for all of them. *)
Theorem pool_shutdown_completes (n : nat) (s : t) :
  rtc step (init n) s -> phase s = Joining -> (0 < n)%nat ->
  (forall k s', nsteps worker_step k s s' -> (k <= measure s)%nat) /\
  (forall s', rtc worker_step s s' -> ~ (exists s'', spurious_step s' s'')) /\
  (forall s', rtc worker_step s s' -> ~ (exists s'', worker_step s' s'') ->
     Forall (fun w => w = Exited) (workers_ s') /\ tasks_ s' = [] /\ finished s' ≡ₚ accepted s').
Proof.
  intros Hr Hp Hn. assert (joining n s) as J by (split; [by apply pool_reachable_inv|done]). split_and!.
  - intros k s' Hk. destruct (joining_bound n k s s' J Hk). lia.
  - intros s' [k Hk]%rtc_nsteps [s'' Hsp]. destruct (joining_bound n k s s' J Hk) as [[I' Hp'] _].
    destruct Hsp as [s' i Hi]. apply (i_woken _ _ I' (or_introl Hp')). by eapply list_elem_of_lookup_2.
  - intros s' Hs Hstuck. apply rtc_nsteps in Hs as [k Hk]. destruct (joining_bound n k s s' J Hk) as [[I' Hp'] _].
    destruct (joining_progress n s') as [Hx|Hx]; [by split| |done]. split; [done|].
    pose proof (all_exited_empty n s' I' Hx Hn). eauto using done_accepted.
Qed.

(** ** Draining the queue

    What happens by itself: the workers' own steps and the notifications of
    [Enqueue] calls under way. *)

Inductive drain_step : t -> t -> Prop :=
  | drain_worker s s' : worker_step s s' -> drain_step s s'
  | drain_notify s s' : notify_step s s' -> drain_step s s'.

Definition drain_measure (s : t) : nat := measure s + 2 * notify s.

Definition alive (n : nat) (s : t) : Prop := inv n s /\ phase s = Alive.

Lemma drain_step_alive n s s' :
  alive n s -> drain_step s s' ->
  alive n s' /\ accepted s' = accepted s /\ (drain_measure s' < drain_measure s)%nat.
Proof.
  intros [I Hp] Hs. split_and!.
  - split; [destruct Hs; [by eapply worker_step_inv|by eapply notify_step_inv]|].
    by destruct Hs as [? ? []|? ? []].
  - by destruct Hs as [? ? []|? ? []].
  - unfold drain_measure, measure.
    destruct Hs as [? ? [s i Hi Hs He|s i Hi Hs He|s i x q Hi Hq|s i x Hi]|? ? [s k i Hk Hi|s k Hk Hn]]; simpl.
    + pose proof (weight_insert _ _ _ Waiting Hi). simpl in *. lia.
    + pose proof (weight_insert _ _ _ Exited Hi). simpl in *. lia.
    + pose proof (weight_insert _ _ _ (Running x) Hi). rewrite Hq. simpl in *. lia.
    + pose proof (weight_insert _ _ _ Top Hi). simpl in *. lia.
    + pose proof (weight_insert _ _ _ Top Hi). rewrite Hk. simpl in *. lia.
    + rewrite Hk. lia.
Qed.

(** When nothing can move, everything is done. *)
Lemma alive_stuck n s :
  alive n s -> (0 < n)%nat -> ~ (exists s', drain_step s s') ->
  tasks_ s = [] /\ notify s = 0%nat /\ Forall (fun w => w = Waiting) (workers_ s).
Proof.
  intros [I Hp] Hn Hstuck.
  assert (stop_ s = false) as Hst
    by (destruct (stop_ s) eqn:E; [by apply (i_stop _ _ I) in E|done]).
  assert (Forall (fun w => w = Waiting) (workers_ s)) as Hall.
  { apply Forall_forall. intros w Hin. apply list_elem_of_lookup in Hin as Hl. destruct Hl as [i Hi].
    destruct w as [| |x|]; [|done| |].
    - destruct Hstuck. destruct (tasks_ s) as [|x q] eqn:Et; eexists; apply drain_worker;
        [by apply (ws_wait s i)|by apply (ws_take s i x q)].
    - destruct Hstuck. eexists. by apply drain_worker, (ws_run s i x).
    - destruct (i_exited _ _ I Hin). congruence. }
  assert (notify s = 0%nat) as Hno.
  { destruct (notify s) as [|k] eqn:Ek; [done|]. destruct Hstuck.
    pose proof (i_size _ _ I) as Hsz. destruct (workers_ s) as [|w ws] eqn:Ew; [simpl in Hsz; lia|].
    apply Forall_cons in Hall as [-> _]. eexists. apply drain_notify, (notify_one s k 0); [done|by rewrite Ew]. }
  split_and!; [|done|done]. destruct (tasks_ s) as [|x q] eqn:Et; [done|exfalso].
  destruct (i_wakeup _ _ I) as [Ha|[Ha|Ha]]; [by rewrite Et|done| |lia|congruence].
  apply Exists_exists in Ha as (w & Hin & Hw). pose proof (proj1 (Forall_forall _ _) Hall w Hin) as ->.
  by destruct Hw as [?|[? ?]].
Qed.

Lemma drain_bound n k s s' :
  alive n s -> nsteps drain_step k s s' ->
  alive n s' /\ accepted s' = accepted s /\ (k + drain_measure s' <= drain_measure s)%nat.
Proof.
  intros A Hk. induction Hk as [s|k s s1 s' Hs _ IH]; [split_and!; [done|done|lia]|].
  destruct (drain_step_alive n s s1 A Hs) as (A1 & Ha & Hm). destruct (IH A1) as (A' & Ha' & Hb).
  split_and!; [done|congruence|lia].
Qed.

Lemma running_waiting ws : Forall (fun w => w = Waiting) ws -> running ws = [].
Proof. induction 1 as [|w ws -> _ IH]; [done|]. exact IH. Qed.

(** C20: an idle pool has done its work: as long as the destructor has not begun,
    the workers and the pending notifications can take at most [drain_measure s]
    steps without further calls or spurious wake-ups; when none of them can move,
    whatever the order they moved in, every accepted task has been run exactly
    once, and all workers are asleep.  No wake-up is lost. *)
Theorem pool_drains (n : nat) (s : t) :
  rtc step (init n) s -> phase s = Alive -> (0 < n)%nat ->
  (forall k s', nsteps drain_step k s s' -> (k <= drain_measure s)%nat) /\
  (forall s', rtc drain_step s s' -> ~ (exists s'', drain_step s' s'') ->
     tasks_ s' = [] /\ finished s' ≡ₚ accepted s /\ Forall (fun w => w = Waiting) (workers_ s')).
Proof.
  intros Hr Hp Hn. assert (alive n s) as A by (split; [by apply pool_reachable_inv|done]). split.
  - intros k s' Hk. destruct (drain_bound n k s s' A Hk) as (_ & _ & ?). lia.
  - intros s' [k Hk]%rtc_nsteps Hstuck. destruct (drain_bound n k s s' A Hk) as (A' & Ha & _).
    destruct (alive_stuck n s' A' Hn Hstuck) as (Ht & _ & Hw). split_and!; [done| |done].
    destruct A' as [I' _]. rewrite <- Ha, (i_fifo _ _ I'), Ht, app_nil_r, (i_once _ _ I'), running_waiting by done.
    by rewrite app_nil_r.
Qed.

End pool.

(** ** A run with two workers and two tasks *)

Tactic Notation "run_step" uconstr(c) :=
  eapply rtc_l; [eapply c; reflexivity|];
  cbn [workers_ tasks_ stop_ notify phase accepted started finished set_worker list_insert insert app fmap list_fmap wake].

Definition mid_state : @t Z := mk [Running 7; Top] [8] false 1 Alive [7; 8] [7] [].

Lemma mid_reaches : rtc step (init 2) mid_state.
Proof.
  unfold init. cbn [replicate].
  eapply rtc_l; [apply step_worker, (ws_wait _ 0); reflexivity|]; cbn.
  run_step (step_enqueue _ 7). eapply rtc_l; [apply step_notify, (notify_one _ 0 0%nat); reflexivity|]; cbn.
  eapply rtc_l; [apply step_worker, (ws_take _ 0%nat 7 []); reflexivity|]; cbn.
  run_step (step_enqueue _ 8). apply rtc_refl.
Qed.

Lemma pool_fifo_exactly_once_witness :
  accepted mid_state = started mid_state ++ tasks_ mid_state /\
  started mid_state ≡ₚ finished mid_state ++ running (workers_ mid_state).
Proof. apply (pool_fifo_exactly_once 2 mid_state), mid_reaches. Defined.

Lemma pool_drains_witness :
  (forall k s', nsteps drain_step k mid_state s' -> (k <= drain_measure mid_state)%nat) /\
  (forall s', rtc drain_step mid_state s' -> ~ (exists s'', drain_step s' s'') ->
     tasks_ s' = [] /\ finished s' ≡ₚ accepted mid_state /\ Forall (fun w => w = Waiting) (workers_ s')).
Proof. apply (pool_drains 2 mid_state); [apply mid_reaches|reflexivity|lia]. Defined.

Definition stop_state : @t Z := mk [Running 7; Top] [8] true 1 Joining [7; 8] [7] [].

Lemma stop_reaches : rtc step (init 2) stop_state.
Proof.
  etrans; [apply mid_reaches|]. unfold mid_state. eapply rtc_l; [apply step_dtor, dtor_stop; reflexivity|]; cbn.
  eapply rtc_l; [apply step_dtor, dtor_notify_all; reflexivity|]; cbn. apply rtc_refl.
Qed.

Lemma pool_shutdown_completes_witness :
  (forall k s', nsteps worker_step k stop_state s' -> (k <= measure stop_state)%nat) /\
  (forall s', rtc worker_step stop_state s' -> ~ (exists s'', spurious_step s' s'')) /\
  (forall s', rtc worker_step stop_state s' -> ~ (exists s'', worker_step s' s'') ->
     Forall (fun w => w = Exited) (workers_ s') /\ tasks_ s' = [] /\ finished s' ≡ₚ accepted s').
Proof. apply (pool_shutdown_completes 2 stop_state); [apply stop_reaches|reflexivity|lia]. Defined.

End ThreadPool.
