(* ===== verification/PoolFuture.v ===== *)
(** * threadpool/threadpool.h: the futures of [Enqueue]

    [Enqueue] wraps the bound call in a [std::packaged_task], hands a function
    that runs it to the queue and returns its [std::future].  A call of
    [Enqueue] is followed through its program points; its number stands for the
    shared state that [make_shared] allocates, which the queued task and the
    future both refer to.  Running a packaged task stores the value or the
    exception of the wrapped function, so that no exception reaches the worker's
    loop.  The pool itself is [ThreadPool]; [get] waits for the shared state. *)

From S2P Require Import Prelude ThreadPool.

Module PoolFuture.
Section future.
(** Bound calls, what they return and what they throw; [runs f o]: a run of [f]
    can end with [o]. *)
Context {F R E : Type} (runs : F -> R + E -> Prop).

Abbreviation task := (nat * F)%type.
Abbreviation pool_t := (@ThreadPool.t task).

Inductive call :=
  | Made (f : F)                  (* packaged, its future taken; before the critical section *)
  | Pushed (f : F)                (* queued, before notify_one *)
  | Returned (f : F)              (* the caller has the future *)
  | Got (f : F) (o : R + E)       (* get() has returned the value or rethrown *)
  | Thrown (f : F).               (* "enqueue on stopped ThreadPool" *)

Record t := mk {
  pool : pool_t;
  calls : list call;
  shared : gmap nat (R + E);      (* the shared states that are ready *)
}.

Definition init (threads : nat) : t := mk (ThreadPool.init threads) [] ∅.

Definition set_call (id : nat) (c : call) (s : t) : t := mk (pool s) (<[id := c]> (calls s)) (shared s).

(** [Enqueue] and [get], in the threads that use the pool. *)
Inductive call_step : t -> t -> Prop :=
  | call_push s id f p :
      calls s !! id = Some (Made f) -> ThreadPool.Enqueue (id, f) (pool s) = Some p ->
      call_step s (mk p (<[id := Pushed f]> (calls s)) (shared s))
  | call_throw s id f :
      calls s !! id = Some (Made f) -> ThreadPool.Enqueue (id, f) (pool s) = None ->
      call_step s (set_call id (Thrown f) s)
  | call_notify s id f p :
      calls s !! id = Some (Pushed f) -> ThreadPool.notify_step (pool s) p ->
      call_step s (mk p (<[id := Returned f]> (calls s)) (shared s))
  | call_get s id f o :
      calls s !! id = Some (Returned f) -> shared s !! id = Some o ->
      call_step s (set_call id (Got f o) s).

(** The workers: critical sections, and running a packaged task. *)
Inductive work_step : t -> t -> Prop :=
  | work_critical s p :
      ThreadPool.worker_step (pool s) p -> ThreadPool.finished p = ThreadPool.finished (pool s) ->
      work_step s (mk p (calls s) (shared s))
  | work_run s id f o p :
      ThreadPool.worker_step (pool s) p ->
      ThreadPool.finished p = ThreadPool.finished (pool s) ++ [(id, f)] -> runs f o ->
      work_step s (mk p (calls s) (<[id := o]> (shared s))).

Inductive step : t -> t -> Prop :=
  | step_make s f : step s (mk (pool s) (calls s ++ [Made f]) (shared s))
  | step_call s s' : call_step s s' -> step s s'
  | step_work s s' : work_step s s' -> step s s'
  | step_spurious s p : ThreadPool.spurious_step (pool s) p -> step s (mk p (calls s) (shared s))
  | step_dtor s p : ThreadPool.dtor_step (pool s) p -> step s (mk p (calls s) (shared s)).

(** ** Invariant *)

(** The call whose task the pool has accepted. *)
Definition queued (c : call) : option F :=
  match c with Pushed f | Returned f | Got f _ => Some f | Made _ | Thrown _ => None end.

Definition pending (c : call) : nat := match c with Pushed _ => 1 | _ => 0 end.

Record inv (n : nat) (s : t) : Prop := {
  i_pool : ThreadPool.inv n (pool s);
  i_accepted : forall id f, (id, f) ∈ ThreadPool.accepted (pool s) <-> calls s !! id ≫= queued = Some f;
  i_nodup : NoDup (ThreadPool.accepted (pool s)).*1;
  i_ready : forall id o, shared s !! id = Some o -> exists f, (id, f) ∈ ThreadPool.finished (pool s) /\ runs f o;
  i_finished : forall id f, (id, f) ∈ ThreadPool.finished (pool s) -> is_Some (shared s !! id);
  i_got : forall id f o, calls s !! id = Some (Got f o) -> shared s !! id = Some o;
  i_thrown : forall id f, calls s !! id = Some (Thrown f) -> ThreadPool.stop_ (pool s) = true;
  i_notify : ThreadPool.notify (pool s) = sum_list_with pending (calls s);
}.

(** Steps of the pool that leave its books alone. *)
Definition same_books (p p' : pool_t) : Prop :=
  ThreadPool.accepted p' = ThreadPool.accepted p /\ ThreadPool.finished p' = ThreadPool.finished p.

(** [stop_] is never reset. *)
Lemma stop_mono (p p' : pool_t) : ThreadPool.step p p' -> ThreadPool.stop_ p = true -> ThreadPool.stop_ p' = true.
Proof.
  intros Hs Hp. destruct Hs as [? ? []|? ? []|? ? ? He|? ? []|? ? []]; try done.
  unfold ThreadPool.Enqueue in He. by rewrite Hp in He.
Qed.

Lemma spurious_books (p p' : pool_t) : ThreadPool.spurious_step p p' -> same_books p p' /\ ThreadPool.notify p' = ThreadPool.notify p.
Proof. by intros []. Qed.

Lemma dtor_books (p p' : pool_t) : ThreadPool.dtor_step p p' -> same_books p p' /\ ThreadPool.notify p' = ThreadPool.notify p.
Proof. by intros []. Qed.

Lemma notify_books (p p' : pool_t) : ThreadPool.notify_step p p' -> same_books p p' /\ ThreadPool.notify p = S (ThreadPool.notify p').
Proof. by intros []. Qed.

Lemma worker_books (p p' : pool_t) :
  ThreadPool.worker_step p p' -> ThreadPool.accepted p' = ThreadPool.accepted p /\ ThreadPool.notify p' = ThreadPool.notify p.
Proof. by intros []. Qed.

Lemma enqueue_books (x : task) (p p' : pool_t) :
  ThreadPool.Enqueue x p = Some p' ->
  ThreadPool.accepted p' = ThreadPool.accepted p ++ [x] /\ ThreadPool.finished p' = ThreadPool.finished p /\
  ThreadPool.notify p' = S (ThreadPool.notify p).
Proof. unfold ThreadPool.Enqueue. by case_match; intros [= <-]. Qed.

(** A step of the pool alone. *)
Lemma inv_pool n s p :
  inv n s -> ThreadPool.step (pool s) p -> same_books (pool s) p ->
  ThreadPool.notify p = ThreadPool.notify (pool s) -> inv n (mk p (calls s) (shared s)).
Proof.
  intros [Ip Ia In Ir Ifi Ig It Ino] Hs [Ha Hf] Hno.
  constructor; simpl; rewrite ?Ha, ?Hf, ?Hno; try done; [by eapply ThreadPool.step_inv|].
  intros id f Hc. eapply stop_mono; [done|by eapply It].
Qed.

Lemma sum_insert {A} (g : A -> nat) (l : list A) i x y :
  l !! i = Some x -> (sum_list_with g (<[i := y]> l) + g x = sum_list_with g l + g y)%nat.
Proof.
  revert i. induction l as [|z l IH]; intros i H; [done|]. destruct i as [|i]; simpl in *.
  - simplify_eq. lia.
  - specialize (IH i H). lia.
Qed.

(** A call moves on without changing whether its task was accepted. *)
Lemma queued_insert s id c c' j :
  calls s !! id = Some c -> queued c' = queued c ->
  <[id := c']> (calls s) !! j ≫= queued = calls s !! j ≫= queued.
Proof.
  intros Hc Hq. destruct (decide (j = id)) as [-> |].
  - rewrite list_lookup_insert_eq by (by eapply lookup_lt_Some). by rewrite Hc.
  - by rewrite list_lookup_insert_ne.
Qed.

Lemma inv_call n s id c c' p :
  inv n s -> calls s !! id = Some c -> queued c' = queued c ->
  ThreadPool.inv n p -> same_books (pool s) p ->
  (forall f o, c' = Got f o -> shared s !! id = Some o) ->
  (forall f, c' = Thrown f -> ThreadPool.stop_ p = true) ->
  (ThreadPool.stop_ (pool s) = true -> ThreadPool.stop_ p = true) ->
  (ThreadPool.notify p + pending c = ThreadPool.notify (pool s) + pending c')%nat ->
  inv n (mk p (<[id := c']> (calls s)) (shared s)).
Proof.
  intros [Ip Ia In Ir Ifi Ig It Ino] Hc Hq Hp [Ha Hf] Hg Ht Hst Hno. constructor; simpl; rewrite ?Ha, ?Hf; try done.
  - intros j f. by rewrite (queued_insert s id c c' j Hc Hq).
  - intros j f o Hj. apply list_lookup_insert_Some in Hj as [(-> & -> & _)|[_ Hj]]; [by eapply Hg|by eapply Ig].
  - intros j f Hj. apply list_lookup_insert_Some in Hj as [(-> & -> & _)|[_ Hj]]; [by eapply Ht|by eapply Hst, It].
  - pose proof (sum_insert pending (calls s) id c c' Hc). lia.
Qed.

Lemma call_step_inv n s s' : inv n s -> call_step s s' -> inv n s'.
Proof.
  intros I Hs. pose proof I as [Ip Ia In Ir Ifi Ig It Ino].
  destruct Hs as [s id f p Hc He|s id f Hc He|s id f p Hc Hn|s id f o Hc Ho].
  - destruct (enqueue_books _ _ _ He) as (Ha & Hf & Hno).
    assert (forall g, (id, g) ∉ ThreadPool.accepted (pool s)) as Hnew by (intros g; rewrite Ia, Hc; done).
    constructor; simpl; rewrite ?Ha, ?Hf, ?Hno; try done.
    + eapply ThreadPool.step_inv; [done|]. by eapply ThreadPool.step_enqueue.
    + intros j g. rewrite elem_of_app, list_elem_of_singleton, Ia. destruct (decide (j = id)) as [-> |Hj].
      * rewrite list_lookup_insert_eq by (by eapply lookup_lt_Some). rewrite Hc. simpl. naive_solver.
      * rewrite list_lookup_insert_ne by done. naive_solver.
    + rewrite fmap_app. apply NoDup_app. split_and!; [done| |apply NoDup_singleton].
      intros j Hj Hin%list_elem_of_singleton. simpl in Hin. subst j.
      apply list_elem_of_fmap in Hj as ([j g] & E1 & Hj). simpl in E1. subst. by apply Hnew in Hj.
    + intros j g o Hj. apply list_lookup_insert_Some in Hj as [(_ & ? & _)|[_ Hj]]; [done|by eapply Ig].
    + intros j g Hj. apply list_lookup_insert_Some in Hj as [(_ & ? & _)|[_ Hj]]; [done|].
      eapply stop_mono; [by eapply ThreadPool.step_enqueue|by eapply It].
    + pose proof (sum_insert pending (calls s) id (Made f) (Pushed f) Hc) as Hs. simpl in Hs. lia.
  - eapply inv_call; try done. intros _ _. unfold ThreadPool.Enqueue in He. by case_match.
  - destruct (notify_books _ _ Hn) as [Hb Hno]. eapply inv_call; try done; [| |simpl; lia].
    + by eapply ThreadPool.notify_step_inv.
    + by apply stop_mono, ThreadPool.step_notify.
  - eapply inv_call; try done. by intros ? ? [= <- <-].
Qed.

Lemma work_step_inv n s s' : inv n s -> work_step s s' -> inv n s'.
Proof.
  intros I Hs. destruct Hs as [s p Hw Hf|s id f o p Hw Hf Hr]; destruct (worker_books _ _ Hw) as [Ha Hno].
  { apply inv_pool; [done|by apply ThreadPool.step_worker|done|done]. }
  pose proof I as [Ip Ia In Ir Ifi Ig It Ino].
  assert (ThreadPool.inv n p) as Ip' by by eapply ThreadPool.worker_step_inv.
  assert (forall x, x ∈ ThreadPool.finished p -> x ∈ ThreadPool.accepted p) as Hsub.
  { intros x Hx. rewrite (ThreadPool.i_fifo _ _ Ip'). apply elem_of_app. left.
    rewrite (ThreadPool.i_once _ _ Ip'). apply elem_of_app. by left. }
  (* the task had not been run before *)
  assert (shared s !! id = None) as Hnone.
  { destruct (shared s !! id) as [o'|] eqn:Eo; [exfalso|done]. destruct (Ir _ _ Eo) as (g & Hg & _).
    assert (ThreadPool.accepted p ≡ₚ ThreadPool.finished p ++ (ThreadPool.running (ThreadPool.workers_ p) ++ ThreadPool.tasks_ p)) as Hperm.
    { by rewrite (ThreadPool.i_fifo _ _ Ip') at 1; rewrite (ThreadPool.i_once _ _ Ip'), app_assoc. }
    pose proof In as Hnd. rewrite <- Ha, Hperm, !fmap_app, Hf, fmap_app in Hnd. simpl in Hnd.
    apply NoDup_app in Hnd as (Hnd & _ & _). apply NoDup_app in Hnd as (_ & Hnd & _).
    apply (Hnd id); [|left]. apply list_elem_of_fmap. by exists (id, g). }
  constructor; simpl; rewrite ?Ha, ?Hno; try done.
  - intros j o' Hj. destruct (decide (j = id)) as [-> |Hne].
    + rewrite lookup_insert_eq in Hj. simplify_eq. exists f. split; [|done]. rewrite Hf. set_solver.
    + rewrite lookup_insert_ne in Hj by done. destruct (Ir _ _ Hj) as (g & Hg & ?). exists g. rewrite Hf. set_solver.
  - intros j g Hj. destruct (decide (j = id)) as [-> |Hne]; [rewrite lookup_insert_eq; eauto|].
    rewrite lookup_insert_ne by done. rewrite Hf in Hj. apply elem_of_app in Hj as [Hj|Hj]; [by eapply Ifi|].
    apply list_elem_of_singleton in Hj. congruence.
  - intros j g o' Hj. pose proof (Ig _ _ _ Hj) as Hs. rewrite lookup_insert_ne by congruence. done.
  - intros j g Hj. eapply stop_mono; [by apply ThreadPool.step_worker|by eapply It].
Qed.

Lemma future_step_inv n s s' : inv n s -> step s s' -> inv n s'.
Proof.
  intros I Hs. destruct Hs as [s f|s s' Hs|s s' Hs|s p Hs|s p Hs];
    [|by eapply call_step_inv|by eapply work_step_inv| |].
  - destruct I as [Ip Ia In Ir Ifi Ig It Ino].
    assert (forall id c, (calls s ++ [Made f]) !! id = Some c -> calls s !! id = Some c \/ c = Made f) as Hc.
    { intros id c [Hc|[_ Hc]]%lookup_app_Some; [by left|right]. by apply list_lookup_singleton_Some in Hc as [_ <-]. }
    constructor; simpl; try done.
    + intros id g. rewrite Ia. destruct (decide (id < length (calls s))%nat) as [Hl|Hl].
      * by rewrite lookup_app_l.
      * rewrite (lookup_ge_None_2 (calls s)) by lia. split; [done|].
        destruct ((calls s ++ [Made f]) !! id) as [c|] eqn:Ec; [|done].
        destruct (Hc _ _ Ec) as [Hc'| ->]; [|done]. apply lookup_lt_Some in Hc'. lia.
    + intros id g o Hj. destruct (Hc _ _ Hj) as [?|?]; [by eapply Ig|done].
    + intros id g Hj. destruct (Hc _ _ Hj) as [?|?]; [by eapply It|done].
    + rewrite sum_list_with_app. simpl. lia.
  - destruct (spurious_books _ _ Hs). apply inv_pool; [done|by apply ThreadPool.step_spurious|done|done].
  - destruct (dtor_books _ _ Hs). apply inv_pool; [done|by apply ThreadPool.step_dtor|done|done].
Qed.

Lemma init_inv n : inv n (init n).
Proof.
  constructor; simpl; try done.
  - apply ThreadPool.pool_init_inv.
  - intros id f. split; [by intros ?%elem_of_nil|done].
  - constructor.
  - intros id f ?%elem_of_nil. done.
Qed.

Lemma reachable_inv n s : rtc step (init n) s -> inv n s.
Proof. apply invariant_rtc; [apply future_step_inv|apply init_inv]. Qed.

(** ** What a future delivers *)

Lemma finished_accepted n s x :
  inv n s -> x ∈ ThreadPool.finished (pool s) -> x ∈ ThreadPool.accepted (pool s).
Proof.
  intros I Hx. rewrite (ThreadPool.i_fifo _ _ (i_pool _ _ I)). apply elem_of_app. left.
  rewrite (ThreadPool.i_once _ _ (i_pool _ _ I)). apply elem_of_app. by left.
Qed.

Lemma finished_nodup n s : inv n s -> NoDup (ThreadPool.finished (pool s)).*1.
Proof.
  intros I. pose proof (i_nodup _ _ I) as Hnd.
  rewrite (ThreadPool.i_fifo _ _ (i_pool _ _ I)), (ThreadPool.i_once _ _ (i_pool _ _ I)), !fmap_app in Hnd.
  apply NoDup_app in Hnd as [Hnd _]. by apply NoDup_app in Hnd as [Hnd _].
Qed.

Lemma ready_is_own n s id o :
  inv n s -> shared s !! id = Some o -> exists f, calls s !! id ≫= queued = Some f /\ runs f o.
Proof.
  intros I Ho. destruct (i_ready _ _ I _ _ Ho) as (f & Hf & Hr). exists f. split; [|done].
  apply (i_accepted _ _ I). by eapply finished_accepted.
Qed.

(** A shared state is written once. *)
Lemma shared_once n s s' id o : inv n s -> step s s' -> shared s !! id = Some o -> shared s' !! id = Some o.
Proof.
  intros I Hs Ho. destruct Hs as [s f|s s' Hs|s s' Hs|s p Hs|s p Hs]; try done; [by destruct Hs|].
  destruct Hs as [s p Hw Hf|s j f o' p Hw Hf Hr]; [done|]. simpl.
  destruct (decide (j = id)) as [-> |]; [|by rewrite lookup_insert_ne].
  assert (step s (mk p (calls s) (<[id := o']> (shared s)))) as Hs by by eapply step_work, work_run.
  pose proof (finished_nodup _ _ (future_step_inv _ _ _ I Hs)) as Hnd. simpl in Hnd.
  rewrite Hf, fmap_app in Hnd. apply NoDup_app in Hnd as (_ & Hnd & _).
  destruct (i_ready _ _ I _ _ Ho) as (g & Hg & _). destruct (Hnd id); [|left].
  apply list_elem_of_fmap. by exists (id, g).
Qed.

(** C16: [get] on the future of a call of [Enqueue] returns the value, or rethrows the
    exception, of a run of the very function and arguments of that call, which
    is run once; what a future holds never changes; and once the pool has been
    destroyed the future of every call that did not throw is ready (no promise is
    broken). *)
Theorem futures_deliver_their_results (n : nat) (s : t) :
  rtc step (init n) s ->
  (forall id f o, calls s !! id = Some (Got f o) -> runs f o) /\
  NoDup (ThreadPool.finished (pool s)).*1 /\
  (forall s' id o, rtc step s s' -> shared s !! id = Some o -> shared s' !! id = Some o) /\
  ((0 < n)%nat -> ThreadPool.phase (pool s) = ThreadPool.Destroyed ->
     forall id f, calls s !! id ≫= queued = Some f -> exists o, shared s !! id = Some o /\ runs f o).
Proof.
  intros Hr. pose proof (reachable_inv n s Hr) as I. split_and!.
  - intros id f o Hc. destruct (ready_is_own n s id o I) as (g & Hg & Ho); [by eapply i_got|].
    rewrite Hc in Hg. simpl in Hg. by simplify_eq.
  - by eapply finished_nodup.
  - intros s' id o Hs. revert I. induction Hs as [|s s1 s' H1 _ IH]; [done|]. intros I Ho.
    apply IH; [by eapply rtc_r|by eapply future_step_inv|by eapply shared_once].
  - intros Hn Hd id f Hc. apply (i_accepted _ _ I) in Hc as Ha.
    pose proof (i_pool _ _ I) as Ip. pose proof (ThreadPool.i_destroyed _ _ Ip Hd) as Hx.
    assert (ThreadPool.Exited ∈ ThreadPool.workers_ (pool s)) as Hin.
    { pose proof (ThreadPool.i_size _ _ Ip) as Hsz. destruct (ThreadPool.workers_ (pool s)) as [|w ws]; [simpl in Hsz; lia|].
      apply Forall_cons in Hx as [-> _]. left. }
    destruct (ThreadPool.i_exited _ _ Ip Hin) as [_ Ht].
    rewrite (ThreadPool.i_fifo _ _ Ip), Ht, app_nil_r, (ThreadPool.i_once _ _ Ip),
      ThreadPool.running_exited, app_nil_r in Ha by done.
    destruct (i_finished _ _ I _ _ Ha) as [o Ho]. exists o. split; [done|].
    destruct (ready_is_own n s id o I Ho) as (g & Hg & ?). congruence.
Qed.

(** ** Every future becomes ready *)

(** What the pool and its users do without new calls. *)
Inductive settle_step : t -> t -> Prop :=
  | settle_call s s' : call_step s s' -> settle_step s s'
  | settle_work s s' : work_step s s' -> settle_step s s'.

Definition call_weight (c : call) : nat :=
  match c with Made _ => 7 | Pushed _ | Returned _ => 1 | Got _ _ | Thrown _ => 0 end.

Definition settle_measure (s : t) : nat := ThreadPool.drain_measure (pool s) + sum_list_with call_weight (calls s).

Definition alive (n : nat) (s : t) : Prop := inv n s /\ ThreadPool.phase (pool s) = ThreadPool.Alive.

Lemma pool_alive n s : alive n s -> ThreadPool.alive n (pool s).
Proof. intros [I Hp]. split; [apply I|done]. Qed.

Lemma settle_step_alive n s s' :
  alive n s -> settle_step s s' ->
  alive n s' /\ length (calls s') = length (calls s) /\ (settle_measure s' < settle_measure s)%nat.
Proof.
  intros A Hs. pose proof (pool_alive n s A) as Ap. destruct A as [I Hp].
  assert (inv n s') as I' by (destruct Hs; [by eapply call_step_inv|by eapply work_step_inv]).
  unfold alive, settle_measure. destruct Hs as [s s' Hs|s s' Hs].
  - destruct Hs as [s id f p Hc He|s id f Hc He|s id f p Hc Hn|s id f o Hc Ho]; simpl; rewrite length_insert.
    + pose proof (sum_insert call_weight _ _ _ (Pushed f) Hc) as Hw.
      unfold ThreadPool.Enqueue in He. destruct (ThreadPool.stop_ _) eqn:Est; [done|]. injection He as <-. simpl in *.
      unfold ThreadPool.drain_measure, ThreadPool.measure. simpl. rewrite length_app. simpl. split_and!; [done|done|done|lia].
    + pose proof (sum_insert call_weight _ _ _ (Thrown f) Hc) as Hw. simpl in Hw. split_and!; [done|done|done|lia].
    + pose proof (sum_insert call_weight _ _ _ (Returned f) Hc) as Hw. simpl in Hw.
      destruct (ThreadPool.drain_step_alive n _ _ Ap (ThreadPool.drain_notify _ _ Hn)) as ([_ ?] & _ & ?).
      split_and!; [done|done|done|lia].
    + pose proof (sum_insert call_weight _ _ _ (Got f o) Hc) as Hw. simpl in Hw. split_and!; [done|done|done|lia].
  - assert (exists p, ThreadPool.worker_step (pool s) p /\ pool s' = p /\ calls s' = calls s) as (p & Hw & -> & ->)
      by (destruct Hs; eauto).
    destruct (ThreadPool.drain_step_alive n _ _ Ap (ThreadPool.drain_worker _ _ Hw)) as ([_ ?] & _ & ?).
    split_and!; [done|done|done|lia].
Qed.

Lemma settle_bound n k s s' :
  alive n s -> nsteps settle_step k s s' ->
  alive n s' /\ length (calls s') = length (calls s) /\ (k + settle_measure s' <= settle_measure s)%nat.
Proof.
  intros A Hk. induction Hk as [s|k s s1 s' Hs _ IH]; [split_and!; [done|done|lia]|].
  destruct (settle_step_alive n s s1 A Hs) as (A1 & Ha & Hm). destruct (IH A1) as (A' & Ha' & Hb).
  split_and!; [done|congruence|lia].
Qed.

(** Every bound call comes to an end. *)
Hypothesis runs_total : forall f, exists o, runs f o.

(** A step of the pool lifts to one of the whole. *)
Lemma worker_lifts s p : ThreadPool.worker_step (pool s) p -> exists s', settle_step s s'.
Proof.
  intros Hw. remember (pool s) as q eqn:Ep.
  assert (ThreadPool.finished p = ThreadPool.finished q \/
    exists id f, ThreadPool.finished p = ThreadPool.finished q ++ [(id, f)]) as [Hf|(id & f & Hf)].
  { destruct Hw as [| | |? ? [id f]]; eauto. }
  - eexists. by apply settle_work, (work_critical s p); rewrite <- Ep.
  - destruct (runs_total f) as [o Ho]. eexists. by apply settle_work, (work_run s id f o p); rewrite <- ?Ep.
Qed.

Lemma pending_call (cs : list call) : sum_list_with pending cs <> 0%nat -> exists id f, cs !! id = Some (Pushed f).
Proof.
  induction cs as [|c cs IH]; [done|]. simpl. intros H.
  destruct (decide (pending c = 0%nat)) as [Hc|Hc].
  - destruct IH as (id & f & Hid); [lia|]. by exists (S id), f.
  - exists 0%nat. destruct c; simpl in Hc; try done. eauto.
Qed.

Lemma settled_stuck n s :
  alive n s -> (0 < n)%nat -> ~ (exists s', settle_step s s') ->
  forall id c, calls s !! id = Some c -> exists f o, c = Got f o /\ runs f o.
Proof.
  intros A Hn Hstuck. pose proof (pool_alive n s A) as Ap. destruct A as [I Hp].
  destruct (ThreadPool.alive_stuck n (pool s) Ap Hn) as (Ht & Hno & Hw).
  { intros [p Hd]. apply Hstuck. inversion_clear Hd as [? ? Hw|? ? Hw].
    - by eapply worker_lifts.
    - destruct (pending_call (calls s)) as (id & f & Hid).
      { rewrite <- (i_notify _ _ I). destruct (notify_books _ _ Hw) as [_ ?]. lia. }
      eexists. by eapply settle_call, call_notify. }
  assert (ThreadPool.stop_ (pool s) = false) as Hst.
  { destruct (ThreadPool.stop_ (pool s)) eqn:Es; [|done]. apply (ThreadPool.i_stop _ _ (i_pool _ _ I)) in Es. done. }
  intros id c Hc. destruct c as [f|f|f|f o|f].
  - destruct Hstuck. destruct (ThreadPool.Enqueue (id, f) (pool s)) as [p|] eqn:E0; eexists; apply settle_call;
      [by eapply call_push|by eapply call_throw].
  - exfalso. rewrite (i_notify _ _ I) in Hno.
    pose proof (sum_insert pending _ _ _ (Returned f) Hc) as Hs. simpl in Hs. lia.
  - destruct Hstuck. assert ((id, f) ∈ ThreadPool.accepted (pool s)) as Ha by (apply (i_accepted _ _ I); by rewrite Hc).
    rewrite (ThreadPool.i_fifo _ _ (i_pool _ _ I)), Ht, app_nil_r, (ThreadPool.i_once _ _ (i_pool _ _ I)),
      ThreadPool.running_waiting, app_nil_r in Ha by done.
    destruct (i_finished _ _ I _ _ Ha) as [o Ho]. eexists. by eapply settle_call, call_get.
  - exists f, o. split; [done|]. destruct (ready_is_own n s id o I) as (g & Hg & ?); [by eapply i_got|].
    rewrite Hc in Hg. simpl in Hg. by simplify_eq.
  - rewrite (i_thrown _ _ I _ _ Hc) in Hst. done.
Qed.

(** C21: while the pool lives, every call of [Enqueue] made so far ends in its result:
    if every task comes to an end by itself, the callers and the workers take at
    most [settle_measure s] more steps without new calls or spurious wake-ups,
    and when none of them can move, every caller's [get] has returned. *)
Theorem futures_all_resolve (n : nat) (s : t) :
  rtc step (init n) s -> ThreadPool.phase (pool s) = ThreadPool.Alive -> (0 < n)%nat ->
  (forall k s', nsteps settle_step k s s' -> (k <= settle_measure s)%nat) /\
  (forall s', rtc settle_step s s' -> ~ (exists s'', settle_step s' s'') ->
     length (calls s') = length (calls s) /\
     forall id c, calls s' !! id = Some c -> exists f o, c = Got f o /\ runs f o).
Proof.
  intros Hr Hp Hn. assert (alive n s) as A by (split; [by apply reachable_inv|done]). split.
  - intros k s' Hk. destruct (settle_bound n k s s' A Hk) as (_ & _ & ?). lia.
  - intros s' [k Hk]%rtc_nsteps Hstuck. destruct (settle_bound n k s s' A Hk) as (A' & Hl & _).
    split; [done|]. by eapply settled_stuck.
Qed.

End future.

(** ** A run: one worker, a call that returns 14 and one that throws *)

Section sample.

(** Doubling, which throws on negative arguments. *)
Definition doubles (x : Z) (o : Z + bytes) : Prop := o = if x <? 0 then inr (lit "negative") else inl (2 * x).

Lemma doubles_total x : exists o, doubles x o.
Proof. by eexists. Qed.

Definition run_pool : @ThreadPool.t (nat * Z) :=
  ThreadPool.mk [ThreadPool.Top] [(1%nat, -1)] false 0 ThreadPool.Alive [(0%nat, 7); (1%nat, -1)] [(0%nat, 7)] [(0%nat, 7)].

Definition run_state : @t Z Z bytes := mk run_pool [Got 7 (inl 14); Returned (-1)] {[ 0%nat := inl 14 ]}.

Lemma future_run_reaches : rtc (step doubles) (init 1) run_state.
Proof.
  unfold init. cbn.
  eapply rtc_l; [apply (step_make _ _ 7)|]; cbn.
  eapply rtc_l; [eapply step_call, (call_push _ 0%nat 7); reflexivity|]; cbn.
  eapply rtc_l; [eapply step_call, (call_notify _ 0%nat 7); [reflexivity|apply ThreadPool.notify_none; [reflexivity|]]|];
    cbn; [by intros ?%list_elem_of_singleton|].
  eapply rtc_l; [eapply step_work, work_critical; [by apply (ThreadPool.ws_take _ 0%nat)|reflexivity]|]; cbn.
  eapply rtc_l; [eapply step_work, (work_run _ _ 0%nat 7 (inl 14));
    [by apply (ThreadPool.ws_run _ 0%nat (0%nat, 7))|reflexivity|reflexivity]|]; cbn.
  eapply rtc_l; [eapply step_call, (call_get _ 0%nat 7 (inl 14)); reflexivity|]; cbn.
  eapply rtc_l; [apply (step_make _ _ (-1))|]; cbn.
  eapply rtc_l; [eapply step_call, (call_push _ 1%nat (-1)); reflexivity|]; cbn.
  eapply rtc_l; [eapply step_call, (call_notify _ 1%nat (-1)); [reflexivity|apply ThreadPool.notify_none; [reflexivity|]]|];
    cbn; [by intros ?%list_elem_of_singleton|].
  apply rtc_refl.
Qed.

Lemma futures_deliver_their_results_witness :
  (forall id f o, calls run_state !! id = Some (Got f o) -> doubles f o) /\
  NoDup (ThreadPool.finished (pool run_state)).*1 /\
  (forall s' id o, rtc (step doubles) run_state s' -> shared run_state !! id = Some o -> shared s' !! id = Some o) /\
  ((0 < 1)%nat -> ThreadPool.phase (pool run_state) = ThreadPool.Destroyed ->
     forall id f, calls run_state !! id ≫= queued = Some f -> exists o, shared run_state !! id = Some o /\ doubles f o).
Proof. apply (futures_deliver_their_results doubles 1 run_state), future_run_reaches. Defined.

Lemma futures_all_resolve_witness :
  (forall k s', nsteps (settle_step doubles) k run_state s' -> (k <= settle_measure run_state)%nat) /\
  (forall s', rtc (settle_step doubles) run_state s' -> ~ (exists s'', settle_step doubles s' s'') ->
     length (calls s') = length (calls run_state) /\
     forall id c, calls s' !! id = Some c -> exists f o, c = Got f o /\ doubles f o).
Proof.
  apply (futures_all_resolve doubles doubles_total 1 run_state); [apply future_run_reaches|reflexivity|lia].
Defined.

End sample.
End PoolFuture.
