(* ===== verification/Printf.v ===== *)
(** * The printf family as the logger uses it

    Directives [%d], [%ld], [%u], [%x], [%lx], [%s] and [%%], with an optional
    zero flag and width.  [None] is undefined behaviour: an unknown directive or
    one without a matching argument. *)

From S2P Require Import Prelude Decimal.

Module Printf.

Inductive arg := AInt (z : Z) | AStr (s : bytes).

Definition hex_digit (n : Z) : ascii := ascii_of_N (Z.to_N (if n <? 10 then 48 + n else 87 + n)).

Fixpoint hex_digits (fuel : nat) (n : Z) : bytes :=
  match fuel with
  | O => []
  | S fuel' =>
      if n / 16 =? 0 then [hex_digit (n mod 16)] else hex_digits fuel' (n / 16) ++ [hex_digit (n mod 16)]
  end.

(** Sixteen digits hold 64 bits. *)
Definition hex (n : Z) : bytes := hex_digits 16 n.

Record spec := mkSpec { zero : bool; width : Z }.

(** The flag and the width after ['%'], and what follows. *)
Fixpoint read_width (w : Z) (s : bytes) : Z * bytes :=
  match s with
  | c :: s' => match Decimal.digit_value c with Some d => read_width (10 * w + d) s' | None => (w, s) end
  | [] => (w, [])
  end.

Definition read_spec (s : bytes) : spec * bytes :=
  let z := match s with c :: _ => bool_decide (c = "0"%char) | [] => false end in
  let '(w, s') := read_width 0 s in (mkSpec z w, s').

Definition pad (sp : spec) (s : bytes) : bytes :=
  let n := Z.to_nat (width sp - vlen s) in
  if zero sp then
    match s with
    | c :: s' => if decide (c = "-"%char) then c :: replicate n "0"%char ++ s' else replicate n "0"%char ++ s
    | [] => replicate n "0"%char
    end
  else replicate n " "%char ++ s.

(** One directive: the text and the arguments and characters left. *)
Definition directive (s : bytes) (args : list arg) : option (bytes * bytes * list arg) :=
  let '(sp, s1) := read_spec s in
  let s2 := match s1 with c :: s' => if decide (c = "l"%char) then s' else s1 | [] => [] end in
  match s2, args with
  | c :: s3, AInt z :: args' =>
      if decide (c = "%"%char) then Some (["%"%char], s3, args)
      else if decide (c = "d"%char) then Some (pad sp (Decimal.to_string z), s3, args')
      else if decide (c = "u"%char) then Some (pad sp (Decimal.to_string z), s3, args')
      else if decide (c = "x"%char) then Some (pad sp (hex z), s3, args')
      else None
  | c :: s3, AStr x :: args' =>
      if decide (c = "%"%char) then Some (["%"%char], s3, args)
      else if decide (c = "s"%char) then Some (pad sp (c_str x), s3, args') else None
  | c :: s3, [] => if decide (c = "%"%char) then Some (["%"%char], s3, []) else None
  | [], _ => None
  end.

(** Each round consumes a character of the format. *)
Fixpoint format_fuel (fuel : nat) (fmt : bytes) (args : list arg) : option bytes :=
  match fuel with
  | O => None
  | S fuel' =>
      match fmt with
      | [] => Some []
      | c :: fmt' =>
          if decide (c = "%"%char) then
            '(s, rest, args') ← directive fmt' args;
            r ← format_fuel fuel' rest args'; Some (s ++ r)
          else r ← format_fuel fuel' fmt' args; Some (c :: r)
      end
  end.

(** The text of [printf(fmt, args)]; the format is a C string. *)
Definition format (fmt : bytes) (args : list arg) : option bytes :=
  format_fuel (S (length (c_str fmt))) (c_str fmt) args.

Example format_line :
  format (lit "[%s:%d][%s] %04d-%02d %lx%%") [AStr (lit "a.cc"); AInt 12; AStr (lit "f"); AInt 7; AInt 9; AInt 255]
  = Some (lit "[a.cc:12][f] 0007-09 ff%").
Proof. vm_compute. reflexivity. Qed.

(** ** Plain text *)

Lemma format_fuel_plain s args : forall fuel,
  "%"%char ∉ s -> (length s < fuel)%nat -> format_fuel fuel s args = Some s.
Proof.
  induction s as [|c s IH]; intros [|fuel] Hs Hf; simpl in *; try lia; [done|].
  apply not_elem_of_cons in Hs as [Hc Hs]. rewrite decide_False by done. rewrite IH by (done || lia). done.
Qed.

Lemma format_fuel_app s fmt args : forall fuel,
  "%"%char ∉ s -> format_fuel (length s + fuel) (s ++ fmt) args = r ← format_fuel fuel fmt args; Some (s ++ r).
Proof.
  induction s as [|c s IH]; intros fuel Hs; simpl; [by destruct (format_fuel fuel fmt args)|].
  apply not_elem_of_cons in Hs as [Hc Hs]. rewrite decide_False, IH by done.
  by destruct (format_fuel fuel fmt args).
Qed.

(** Text without ['%'] and NUL is printed as it is. *)
Lemma format_plain s : "%"%char ∉ s -> NUL ∉ s -> format s [] = Some s.
Proof. intros H H0. unfold format. rewrite c_str_no_nul by done. by apply format_fuel_plain; [|lia]. Qed.

(** Plain text in front of a format is copied. *)
Lemma format_prefix s fmt args :
  "%"%char ∉ s -> NUL ∉ s -> format (s ++ fmt) args = r ← format fmt args; Some (s ++ r).
Proof.
  intros H H0. unfold format.
  assert (c_str (s ++ fmt) = s ++ c_str fmt) as ->.
  { clear H. induction s as [|c s IH]; [done|]. apply not_elem_of_cons in H0 as [Hc Hs]. simpl.
    rewrite decide_False by done. by rewrite IH. }
  rewrite length_app, <- Nat.add_succ_r. by apply format_fuel_app.
Qed.

End Printf.
