(* ===== verification/FileAppender.v ===== *)
(** * logger/file_appender.{h,cc}

    [FileAppender]: a log file that is cut every hour and whose old pieces are
    removed.  The file system maps names to files and files to contents, so that
    an open stream keeps its file across a [rename].  The broken-down local
    time and the results of [mkdir], [open] and [rename] are inputs.  A call
    is one step here; calls of several threads, and where they take
    [write_mutex_], are in FileAppenderThreads. *)

From S2P Require Import Prelude StdMap Decimal.

Module FileAppender.

(** The fields of [struct tm] the code reads. *)
Record tm := mkTm { tm_hour : Z; tm_mday : Z; tm_mon : Z; tm_year : Z }.

Record fs := mkFs {
  names : gmap bytes nat;
  files : gmap nat bytes;
}.

Definition content (f : fs) (path : bytes) : option bytes := i ← names f !! path; files f !! i.

(** [open(path, out | app)]: creates the file if there is none. *)
Definition fopen (path : bytes) (f : fs) : nat * fs :=
  match names f !! path with
  | Some i => (i, f)
  | None => let i := fresh (dom (files f)) in (i, mkFs (<[path := i]> (names f)) (<[i := []]> (files f)))
  end.

Definition append (i : nat) (s : bytes) (f : fs) : fs :=
  mkFs (names f) (alter (fun c => c ++ s) i (files f)).

Definition frename (old new : bytes) (f : fs) : fs :=
  match names f !! old with
  | Some i => mkFs (<[new := i]> (delete old (names f))) (files f)
  | None => f
  end.

Definition fremove (path : bytes) (f : fs) : fs := mkFs (delete path (names f)) (files f).

Definition kFileAppenderBuffSize : Z := 4096.

Record t := mk {
  file_stream_ : option nat;          (* the file the stream is open on *)
  file_dir_ : bytes;
  file_name_ : bytes;
  file_path_ : bytes;
  retain_hours_ : Z;
  last_hour_suffix_ : Z;
  is_cut_ : bool;
  history_files_ : list Z;            (* std::set, in order *)
}.

Definition make (dir file_name : bytes) (retain_hours : Z) (is_cut : bool) : t :=
  let dir := if decide (dir = []) then lit "." else dir in
  mk None dir file_name (dir ++ lit "/" ++ file_name) retain_hours (-1) is_cut [].

Definition set_stream (o : option nat) (a : t) : t :=
  mk o (file_dir_ a) (file_name_ a) (file_path_ a) (retain_hours_ a) (last_hour_suffix_ a) (is_cut_ a) (history_files_ a).
(** [~FileAppender]: the stream is closed if it is open. *)
Definition destroy (a : t) : t := match file_stream_ a with Some _ => set_stream None a | None => a end.

Definition set_last (z : Z) (a : t) : t :=
  mk (file_stream_ a) (file_dir_ a) (file_name_ a) (file_path_ a) (retain_hours_ a) z (is_cut_ a) (history_files_ a).
Definition set_history (h : list Z) (a : t) : t :=
  mk (file_stream_ a) (file_dir_ a) (file_name_ a) (file_path_ a) (retain_hours_ a) (last_hour_suffix_ a) (is_cut_ a) h.

Definition GenHourSuffix (v : tm) : Z :=
  tm_hour v + tm_mday v * 100 + (tm_mon v + 1) * 10000 + (tm_year v + 1900) * 1000000.

(** [mkdir_ok]: [mkdir] succeeded or the directory exists. *)
Definition Init (mkdir_ok open_ok : bool) (now : tm) (a : t) (f : fs) : bool * t * fs :=
  if negb mkdir_ok then (false, a, f)
  else
    let '(o, f1) := if open_ok then let '(i, f1) := fopen (file_path_ a) f in (Some i, f1) else (None, f) in
    (true, set_last (GenHourSuffix now) (set_stream o a), f1).

Definition old_path (a : t) (suffix : Z) : bytes := file_path_ a ++ lit "." ++ Decimal.to_string suffix.

Definition overdue (a : t) (now h : Z) : bool := h + retain_hours_ a <? now.

(** The loop with [it = history_files_.erase(it)] and [++it]: what is left of the
    set from [it] on. *)
Fixpoint delete_loop (a : t) (now : Z) (it : list Z) (f : fs) : list Z * fs :=
  match it with
  | [] => ([], f)
  | hour_suffix :: it' =>
      if overdue a now hour_suffix then delete_loop a now it' (fremove (old_path a hour_suffix) f)
      else let '(l, f1) := delete_loop a now it' f in (hour_suffix :: l, f1)
  end.

Definition DeleteOverdueFile (now_hour_suffix : Z) (a : t) (f : fs) : t * fs :=
  if retain_hours_ a <=? 0 then (a, f)
  else let '(h, f1) := delete_loop a now_hour_suffix (history_files_ a) f in (set_history h a, f1).

Definition CutIfNeed (rename_ok open_ok : bool) (now : tm) (a : t) (f : fs) : t * fs :=
  if negb (is_cut_ a) then (a, f)
  else
    let now_hour_suffix := GenHourSuffix now in
    if last_hour_suffix_ a <? now_hour_suffix then
      let f1 := if rename_ok then frename (file_path_ a) (old_path a (last_hour_suffix_ a)) f else f in
      let '(o, f2) := if open_ok then let '(i, f2) := fopen (file_path_ a) f1 in (Some i, f2) else (None, f1) in
      let a1 := set_stream o a in
      let '(a2, f3) :=
        if 0 <? retain_hours_ a1
        then DeleteOverdueFile now_hour_suffix
               (set_history (StdSet.insert (last_hour_suffix_ a1) (history_files_ a1)) a1) f2
        else (a1, f2) in
      (set_last now_hour_suffix a2, f3)
    else (a, f).

(** [text] is what [fmt] and [args] expand to. *)
Definition Write (rename_ok open_ok : bool) (now : tm) (text : bytes) (a : t) (f : fs) : t * fs :=
  let '(a1, f1) := CutIfNeed rename_ok open_ok now a f in
  match file_stream_ a1 with
  | Some i => (a1, append i (snprintf kFileAppenderBuffSize text ++ [LF]) f1)
  | None => (a1, f1)
  end.

(** ** Hour suffixes *)

Definition valid_tm (v : tm) : Prop :=
  0 <= tm_hour v < 24 /\ 1 <= tm_mday v <= 31 /\ 0 <= tm_mon v < 12 /\ -1900 <= tm_year v < 8100.

Definition earlier (u v : tm) : Prop :=
  tm_year u < tm_year v \/ tm_year u = tm_year v /\
    (tm_mon u < tm_mon v \/ tm_mon u = tm_mon v /\
       (tm_mday u < tm_mday v \/ tm_mday u = tm_mday v /\ tm_hour u < tm_hour v)).

(** Suffixes are ordered as the hours they stand for, and tell hours apart. *)
Theorem GenHourSuffix_order (u v : tm) :
  valid_tm u -> valid_tm v -> (GenHourSuffix u < GenHourSuffix v <-> earlier u v).
Proof.
  unfold valid_tm, earlier, GenHourSuffix. destruct u, v; simpl. intros Hu Hv. split; intros H; lia.
Qed.

Lemma GenHourSuffix_order_witness :
  GenHourSuffix (mkTm 23 2 3 122) < GenHourSuffix (mkTm 0 3 3 122) <->
  earlier (mkTm 23 2 3 122) (mkTm 0 3 3 122).
Proof. apply (GenHourSuffix_order (mkTm 23 2 3 122) (mkTm 0 3 3 122)); unfold valid_tm; simpl; lia. Defined.

(** ** The history of cut files *)

Record history_ok (a : t) : Prop := {
  h_sorted : StdSet.ordered (history_files_ a);
  h_past : Forall (fun h => h < last_hour_suffix_ a) (history_files_ a);
}.

Lemma delete_loop_history a now l f :
  fst (delete_loop a now l f) = base.filter (fun h => overdue a now h = false) l.
Proof.
  revert f. induction l as [|h l IH]; intros f; [done|]. simpl. destruct (overdue a now h) eqn:E.
  - rewrite IH, filter_cons_False by congruence. done.
  - destruct (delete_loop a now l f) as [l' f1] eqn:E'. simpl.
    rewrite filter_cons_True by done. f_equal. rewrite <- (IH f), E'. done.
Qed.

Lemma sorted_filter (P : Z -> Prop) `{forall z, Decision (P z)} l : StdSet.ordered l -> StdSet.ordered (base.filter P l).
Proof.
  unfold StdSet.ordered. induction 1 as [|x l Hs IH Hf]; [constructor|]. rewrite filter_cons. case_decide; [|done].
  constructor; [done|]. apply Forall_forall. intros z [_ Hz]%list_elem_of_filter. by eapply Forall_forall in Hf.
Qed.

(** A strictly increasing list within [lo, hi) has at most [hi - lo] elements. *)
Lemma sorted_length l lo hi :
  StdSet.ordered l -> Forall (fun z => lo <= z < hi) l -> vlen l <= Z.max 0 (hi - lo).
Proof.
  unfold StdSet.ordered, vlen. intros Hs. revert lo. induction Hs as [|x l _ IH Hf]; intros lo Hb; [simpl; lia|].
  apply Forall_cons in Hb as [Hx Hb]. specialize (IH (x + 1)).
  assert (Forall (fun z => x + 1 <= z < hi) l) as Hb'.
  { apply Forall_forall. intros z Hz. pose proof (proj1 (Forall_forall _ _) Hf z Hz). simpl in *.
    pose proof (proj1 (Forall_forall _ _) Hb z Hz). simpl in *. lia. }
  specialize (IH Hb'). simpl length. lia.
Qed.

Lemma CutIfNeed_history r o now a f a' f' :
  CutIfNeed r o now a f = (a', f') -> history_ok a -> 0 < retain_hours_ a ->
  history_ok a' /\
  (last_hour_suffix_ a < GenHourSuffix now -> is_cut_ a = true ->
   Forall (fun h => GenHourSuffix now - retain_hours_ a <= h < GenHourSuffix now) (history_files_ a')).
Proof.
  intros E [Hs Hp] Hr. unfold CutIfNeed in E.
  destruct (is_cut_ a) eqn:Ec; [|simpl in E; simplify_eq; by split].
  cbn [negb] in E. destruct (Z.ltb_spec (last_hour_suffix_ a) (GenHourSuffix now)) as [Hlt|Hge];
    [|simplify_eq; split; [done|lia]].
  destruct (if o then _ else _) as [st f2]. simpl in E. rewrite (proj2 (Z.ltb_lt _ _) Hr) in E.
  unfold DeleteOverdueFile in E. simpl in E. rewrite (proj2 (Z.leb_gt _ _) Hr) in E.
  destruct (delete_loop _ _ _ _) as [l f3] eqn:El. apply (f_equal fst) in El. rewrite delete_loop_history in El.
  simpl in El. injection E as <- <-. simpl.
  assert (StdSet.ordered l) as Hl by (subst l; apply sorted_filter; by apply StdSet.set_insert_ordered).
  assert (Forall (fun h => GenHourSuffix now - retain_hours_ a <= h < GenHourSuffix now) l) as Hb.
  { subst l. apply Forall_forall. intros h [Ho Hh]%list_elem_of_filter.
    unfold overdue in Ho; simpl in Ho. apply Z.ltb_ge in Ho.
    apply StdSet.elem_insert in Hh as [-> |Hh]; [lia|].
    pose proof (proj1 (Forall_forall _ _) Hp h Hh). simpl in *. lia. }
  split; [|done]. constructor; [done|]. eapply Forall_impl; [exact Hb|]. simpl. lia.
Qed.

(** With a retention time set, a cut leaves at most [retain_hours_] old files
    on record, none of them older than [retain_hours_] in terms of the suffix. *)
Theorem history_bounded (r o : bool) (now : tm) (a : t) (f : fs) (a' : t) (f' : fs) :
  CutIfNeed r o now a f = (a', f') -> history_ok a -> 0 < retain_hours_ a ->
  is_cut_ a = true -> last_hour_suffix_ a < GenHourSuffix now ->
  history_ok a' /\ vlen (history_files_ a') <= retain_hours_ a /\
  Forall (fun h => overdue a (GenHourSuffix now) h = false) (history_files_ a').
Proof.
  intros E Hok Hr Hc Hlt. destruct (CutIfNeed_history r o now a f a' f' E Hok Hr) as [Hok' Hb].
  specialize (Hb Hlt Hc). split_and!; [done| |].
  - pose proof (sorted_length _ _ _ (h_sorted _ Hok') Hb). lia.
  - eapply Forall_impl; [exact Hb|]. unfold overdue. simpl. intros h Hh. apply Z.ltb_ge. lia.
Qed.

Lemma history_bounded_witness :
  let a := mk (Some 0%nat) (lit ".") (lit "x") (lit "./x") 2 2022040214 true [2022040212; 2022040213] in
  let a' := mk (Some 0%nat) (lit ".") (lit "x") (lit "./x") 2 2022040215 true [2022040213; 2022040214] in
  history_ok a' /\ vlen (history_files_ a') <= retain_hours_ a /\
  Forall (fun h => overdue a (GenHourSuffix (mkTm 15 2 3 122)) h = false) (history_files_ a').
Proof.
  intros a a'.
  apply (history_bounded false true (mkTm 15 2 3 122) a (mkFs ∅ ∅) a'
           (mkFs {[lit "./x" := 0%nat]} {[0%nat := []]})).
  - vm_compute. reflexivity.
  - constructor; [repeat constructor|apply (bool_decide_unpack _); vm_compute; exact I].
  - reflexivity.
  - reflexivity.
  - reflexivity.
Defined.

(** The retention time is added to the suffix as if it were a number of
    hours, but suffixes jump at midnight: with a retention of three hours, the
    file of 23:00 is removed at 00:00, when it is one hour old. *)
Theorem retention_fails_at_midnight :
  let a := mk (Some 0%nat) (lit ".") (lit "x") (lit "./x") 3 2022040223 true [] in
  let f := mkFs {[lit "./x" := 0%nat]} {[0%nat := lit "late news"]} in
  let '(a', f') := CutIfNeed true true (mkTm 0 3 3 122) a f in
  content f (lit "./x") = Some (lit "late news") /\
  content f' (lit "./x.2022040223") = None /\ content f' (lit "./x") = Some [] /\
  last_hour_suffix_ a' = 2022040300.
Proof. vm_compute. repeat split. Qed.

(** ** What the files hold *)

Definition line_of (text : bytes) : bytes := snprintf kFileAppenderBuffSize text ++ [LF].

(** The lines logged in the hour [h]. *)
Definition lines_in (h : Z) (ws : list (tm * bytes)) : bytes :=
  mjoin ((fun w => line_of (snd w)) <$> base.filter (fun w => GenHourSuffix (fst w) = h) ws).

Fixpoint write_all (ws : list (tm * bytes)) (a : t) (f : fs) : t * fs :=
  match ws with
  | [] => (a, f)
  | (now, text) :: ws' => let '(a1, f1) := Write true true now text a f in write_all ws' a1 f1
  end.

(** The name under which the hour [h] is kept. *)
Definition path_of (a : t) (h : Z) : bytes :=
  if decide (h = last_hour_suffix_ a) then file_path_ a else old_path a h.

Record wf (a : t) (f : fs) : Prop := {
  w_stream : exists i, file_stream_ a = Some i /\ names f !! file_path_ a = Some i;
  w_files : forall p i, names f !! p = Some i -> is_Some (files f !! i);
  w_inj : forall p q i, names f !! p = Some i -> names f !! q = Some i -> p = q;
}.

Lemma content_append f i s p :
  (forall q j, names f !! q = Some j -> is_Some (files f !! j)) ->
  content (append i s f) p = (fun c => if decide (names f !! p = Some i) then c ++ s else c) <$> content f p.
Proof.
  intros Hf. unfold content, append; simpl. destruct (names f !! p) as [j|] eqn:E; [|done]. simpl.
  destruct (decide (j = i)) as [-> |Hne].
  - rewrite lookup_alter_eq. destruct (files f !! i); simpl; [|done]. by rewrite decide_True.
  - rewrite lookup_alter_ne by done. destruct (files f !! j); simpl; [|done]. by rewrite decide_False by congruence.
Qed.

Lemma wf_append a f i s : wf a f -> wf a (append i s f).
Proof.
  intros [Hs Hf Hi]. constructor; [done| |done]. simpl. intros p j Hp.
  destruct (decide (j = i)) as [-> |]; [rewrite lookup_alter_eq|rewrite lookup_alter_ne by done; by eapply Hf].
  destruct (Hf _ _ Hp) as [c ->]. by eexists.
Qed.

Lemma wf_append_content a f i s p :
  wf a f -> file_stream_ a = Some i ->
  content (append i s f) p = (fun c => if decide (p = file_path_ a) then c ++ s else c) <$> content f p.
Proof.
  intros W Hi. rewrite content_append by apply W. destruct (w_stream _ _ W) as (j & Hj & Hn).
  destruct (content f p) as [c|] eqn:Ec; [|done]. simpl. f_equal.
  destruct (decide (p = file_path_ a)) as [-> |Hne]; [rewrite decide_True by congruence; done|].
  rewrite decide_False; [done|]. intros E. apply Hne. eapply (w_inj _ _ W); [done|congruence].
Qed.

(** The cut moves the current file away and starts an empty one. *)
Definition cut_fs (a : t) (f : fs) : nat * fs :=
  fopen (file_path_ a) (frename (file_path_ a) (old_path a (last_hour_suffix_ a)) f).

Lemma old_path_ne a h : old_path a h <> file_path_ a.
Proof.
  unfold old_path. intros E. apply (f_equal length) in E. rewrite !length_app in E. simpl in E. lia.
Qed.

Lemma cut_fs_content a f :
  wf a f -> names f !! old_path a (last_hour_suffix_ a) = None ->
  let '(i, f') := cut_fs a f in
  names f' !! file_path_ a = Some i /\
  (forall p j, names f' !! p = Some j -> is_Some (files f' !! j)) /\
  (forall p q j, names f' !! p = Some j -> names f' !! q = Some j -> p = q) /\
  content f' (file_path_ a) = Some [] /\
  content f' (old_path a (last_hour_suffix_ a)) = content f (file_path_ a) /\
  (forall p, p <> file_path_ a -> p <> old_path a (last_hour_suffix_ a) -> names f' !! p = names f !! p /\ content f' p = content f p).
Proof.
  intros W Hn. destruct (w_stream _ _ W) as (i & _ & Hi). unfold cut_fs, frename. rewrite Hi.
  set (path := file_path_ a) in *. set (old := old_path a _) in *.
  assert (old <> path) as Hne by apply old_path_ne.
  unfold fopen. simpl. rewrite lookup_insert_ne, lookup_delete_eq by done.
  set (k := fresh (dom (files f))).
  assert (files f !! k = None) as Hk by (apply not_elem_of_dom, is_fresh).
  assert (forall p j, names f !! p = Some j -> j <> k) as Hjk.
  { intros p j Hp ->. destruct (w_files _ _ W _ _ Hp) as [? ?]. congruence. }
  set (nm := <[path := k]> (<[old := i]> (delete path (names f)))).
  assert (forall p j, nm !! p = Some j -> p = path /\ j = k \/ p = old /\ j = i \/
            p <> path /\ p <> old /\ names f !! p = Some j) as Hnm.
  { intros p j. unfold nm. destruct (decide (p = path)) as [-> |H1].
    - rewrite lookup_insert_eq. intros [= <-]. by left.
    - rewrite lookup_insert_ne by done. destruct (decide (p = old)) as [-> |H2].
      + rewrite lookup_insert_eq. intros [= <-]. by right; left.
      + rewrite lookup_insert_ne, lookup_delete_ne by done. intros H. by right; right. }
  unfold content; simpl. fold nm. split_and!.
  - apply lookup_insert_eq.
  - intros p j Hp. destruct (decide (j = k)) as [-> |]; [rewrite lookup_insert_eq; eauto|].
    rewrite lookup_insert_ne by done. destruct (Hnm _ _ Hp) as [[_ ?]|[[_ ->]|(_ & _ & ?)]]; [done| |];
      by eapply (w_files _ _ W).
  - intros p q j Hp Hq. destruct (Hnm _ _ Hp) as [[-> ->]|[[-> ->]|(H1 & H2 & H3)]],
      (Hnm _ _ Hq) as [[-> Hj]|[[-> Hj]|(H4 & H5 & H6)]]; try done; subst;
      try (by destruct (Hjk _ _ Hi)); try (by destruct (Hjk _ _ H3)); try (by destruct (Hjk _ _ H6)).
    + by destruct H4; eapply (w_inj _ _ W).
    + by destruct H1; eapply (w_inj _ _ W).
    + by eapply (w_inj _ _ W).
  - unfold nm. rewrite lookup_insert_eq. simpl. by rewrite lookup_insert_eq.
  - unfold nm. rewrite lookup_insert_ne, lookup_insert_eq by done. simpl. rewrite Hi. simpl.
    rewrite lookup_insert_ne; [done|]. intros ->. by destruct (Hjk _ _ Hi).
  - intros p H1 H2. unfold nm. rewrite !lookup_insert_ne, lookup_delete_ne by done. split; [done|].
    destruct (names f !! p) as [j|] eqn:E; [|done]. simpl. rewrite lookup_insert_ne; [done|].
    intros ->. by destruct (Hjk _ _ E).
Qed.

Lemma old_path_inj a h h' : in_s 64 h -> in_s 64 h' -> old_path a h = old_path a h' -> h = h'.
Proof.
  intros H H' E. unfold old_path in E. apply app_inv_head, app_inv_head in E.
  pose proof (Decimal.sto_to_string 64 h H) as E1. rewrite E, Decimal.sto_to_string in E1 by done. congruence.
Qed.

(** The hours [hs] have been begun and the lines [ws] written, each in the hour
    it is listed with. *)
Record holds (hs : list Z) (ws : list (tm * bytes)) (a : t) (f : fs) : Prop := {
  r_wf : wf a f;
  r_retain : retain_hours_ a <= 0;
  r_cut : is_cut_ a = true;
  r_range : Forall (in_s 64) hs;
  r_last : last_hour_suffix_ a ∈ hs /\ Forall (fun h => h <= last_hour_suffix_ a) hs;
  r_lines : Forall (fun w => GenHourSuffix (fst w) ∈ hs) ws;
  r_content : forall h, h ∈ hs -> content f (path_of a h) = Some (lines_in h ws);
  r_free : forall h, in_s 64 h -> h = last_hour_suffix_ a \/ h ∉ hs -> names f !! old_path a h = None;
}.

Lemma lines_in_snoc h ws w :
  lines_in h (ws ++ [w]) = lines_in h ws ++ if decide (GenHourSuffix (fst w) = h) then line_of (snd w) else [].
Proof.
  unfold lines_in. rewrite filter_app, fmap_app, join_app. f_equal.
  rewrite filter_cons, filter_nil. case_decide; [|done]. simpl. by rewrite app_nil_r.
Qed.

Lemma lines_in_none h (hs : list Z) ws : Forall (fun w => GenHourSuffix (fst w) ∈ hs) ws -> h ∉ hs -> lines_in h ws = [].
Proof.
  intros Hw Hh. unfold lines_in. destruct (base.filter _ ws) as [|w l] eqn:E; [done|].
  assert (w ∈ w :: l) as Hin by apply list_elem_of_here. rewrite <- E in Hin.
  apply list_elem_of_filter in Hin as [Hg Hin]. destruct Hh. rewrite <- Hg.
  exact (proj1 (Forall_forall _ _) Hw _ Hin).
Qed.

(** A line written into the open file. *)
Lemma holds_append hs ws a f now text i :
  holds hs ws a f -> GenHourSuffix now = last_hour_suffix_ a -> file_stream_ a = Some i ->
  holds hs (ws ++ [(now, text)]) a (append i (line_of text) f).
Proof.
  intros R En Hi. destruct (r_last _ _ _ _ R) as [Hl Hle]. constructor; try apply R.
  - apply wf_append, R.
  - apply Forall_app. split; [apply R|]. repeat constructor. simpl. by rewrite En.
  - intros h Hin. rewrite (wf_append_content a f i) by (done || apply R).
    rewrite (r_content _ _ _ _ R h Hin), lines_in_snoc. simpl. f_equal. unfold path_of. rewrite En.
    destruct (decide (h = last_hour_suffix_ a)) as [-> |Hne].
    + by rewrite !decide_True.
    + rewrite decide_False by apply old_path_ne. by rewrite decide_False, app_nil_r by done.
Qed.

(** The cut begins an hour. *)
Lemma holds_cut hs ws a f n :
  holds hs ws a f -> last_hour_suffix_ a < n -> in_s 64 n ->
  let '(i, f1) := cut_fs a f in holds (hs ++ [n]) ws (set_last n (set_stream (Some i) a)) f1.
Proof.
  intros R Hlt Hn. destruct (r_last _ _ _ _ R) as [Hl Hle].
  assert (in_s 64 (last_hour_suffix_ a)) as Hls by by apply (proj1 (Forall_forall _ _) (r_range _ _ _ _ R)).
  pose proof (cut_fs_content a f (r_wf _ _ _ _ R) (r_free _ _ _ _ R _ Hls (or_introl eq_refl))) as Hc.
  destruct (cut_fs a f) as [i f1]. destruct Hc as (Hp & Hf & Hj & Hnew & Hold & Hrest).
  assert (n ∉ hs) as Hnn.
  { intros Hin. pose proof (proj1 (Forall_forall _ _) Hle n Hin). simpl in *. lia. }
  assert (forall h, in_s 64 h -> h <> last_hour_suffix_ a ->
    names f1 !! old_path a h = names f !! old_path a h /\ content f1 (old_path a h) = content f (old_path a h)) as Hother.
  { intros h Hh Hne. apply Hrest; [apply old_path_ne|]. intros E. by apply Hne, (old_path_inj a). }
  constructor; try apply R.
  - constructor; [by exists i|done|done].
  - apply Forall_app. split; [apply R|by constructor].
  - simpl. split; [set_solver|]. apply Forall_app. split; [|by constructor; [lia|]].
    eapply Forall_impl; [exact Hle|]. simpl. lia.
  - eapply Forall_impl; [apply R|]. set_solver.
  - intros h Hin. unfold path_of. simpl. change (old_path (set_last n _) h) with (old_path a h).
    destruct (decide (h = n)) as [-> |Hne]; [by rewrite Hnew, (lines_in_none n hs) by (done || apply R)|].
    apply elem_of_app in Hin as [Hin|Hin%list_elem_of_singleton]; [|done].
    pose proof (r_content _ _ _ _ R h Hin) as Hct. unfold path_of in Hct.
    destruct (decide (h = last_hour_suffix_ a)) as [-> |Hnl]; [congruence|].
    rewrite (proj2 (Hother h (proj1 (Forall_forall _ _) (r_range _ _ _ _ R) h Hin) Hnl)). done.
  - intros h Hs Hin. change (old_path (set_last n _) h) with (old_path a h). simpl in Hin.
    assert (h ∉ hs) as Hnh by (destruct Hin as [-> |Hin]; set_solver).
    rewrite (proj1 (Hother h Hs ltac:(intros ->; done))). apply (r_free _ _ _ _ R); [done|by right].
Qed.

(** The hours begun when the hour [n] is reached. *)
Definition begin (n : Z) (hs : list Z) (a : t) : list Z := if last_hour_suffix_ a <? n then hs ++ [n] else hs.

Lemma holds_CutIfNeed hs ws a f now :
  holds hs ws a f -> in_s 64 (GenHourSuffix now) ->
  let '(a', f') := CutIfNeed true true now a f in
  holds (begin (GenHourSuffix now) hs a) ws a' f' /\
  last_hour_suffix_ a' = Z.max (last_hour_suffix_ a) (GenHourSuffix now).
Proof.
  intros R Hn. unfold CutIfNeed, begin. rewrite (r_cut _ _ _ _ R). cbn [negb].
  destruct (Z.ltb_spec (last_hour_suffix_ a) (GenHourSuffix now)) as [Hlt|Hge]; [|split; [done|lia]].
  pose proof (holds_cut hs ws a f _ R Hlt Hn) as Hc. unfold cut_fs in Hc. destruct (fopen _ _) as [i f1].
  cbn [retain_hours_ set_stream]. rewrite (proj2 (Z.ltb_ge 0 _) (r_retain _ _ _ _ R)). simpl. split; [done|lia].
Qed.

(** A line goes to the file of its own hour or, when the clock has gone back, to that
    of the latest one; [kept] is when that file was begun. *)
Lemma holds_write hs ws a f now kept text :
  holds hs ws a f -> in_s 64 (GenHourSuffix now) ->
  GenHourSuffix kept = Z.max (last_hour_suffix_ a) (GenHourSuffix now) ->
  let '(a', f') := Write true true now text a f in
  holds (begin (GenHourSuffix now) hs a) (ws ++ [(kept, text)]) a' f' /\ last_hour_suffix_ a' = GenHourSuffix kept.
Proof.
  intros R Hn Hk. unfold Write. pose proof (holds_CutIfNeed hs ws a f now R Hn) as Hc.
  destruct (CutIfNeed true true now a f) as [a1 f1]. destruct Hc as [R1 El].
  destruct (w_stream _ _ (r_wf _ _ _ _ R1)) as (i & Hi & _). rewrite Hi.
  split; [|lia]. apply holds_append; [done|lia|done].
Qed.

(** The hours of the start and of the writes. *)
Definition hours (s0 : Z) (ws : list (tm * bytes)) : list Z := s0 :: ((fun w => GenHourSuffix (fst w)) <$> ws).

Lemma elem_of_begin n (hs : list Z) a h :
  last_hour_suffix_ a ∈ hs -> last_hour_suffix_ a <= n -> h ∈ begin n hs a <-> h ∈ hs \/ h = n.
Proof.
  intros Hl Hn. unfold begin. destruct (Z.ltb_spec (last_hour_suffix_ a) n) as [Hlt|Hge].
  - by rewrite elem_of_app, list_elem_of_singleton.
  - split; [by left|]. intros [?| ->]; [done|]. by replace n with (last_hour_suffix_ a) by lia.
Qed.

Lemma holds_write_all ws2 : forall hs ws a f,
  holds hs ws a f ->
  StronglySorted Z.le (last_hour_suffix_ a :: ((fun w => GenHourSuffix (fst w)) <$> ws2)) ->
  Forall (fun w => in_s 64 (GenHourSuffix (fst w))) ws2 ->
  let '(a', f') := write_all ws2 a f in
  exists hs', holds hs' (ws ++ ws2) a' f' /\
    forall h, h ∈ hs' <-> h ∈ hs \/ h ∈ (fun w => GenHourSuffix (fst w)) <$> ws2.
Proof.
  induction ws2 as [|[now text] ws2 IH]; intros hs ws a f R Hs Hr; simpl.
  { exists hs. rewrite app_nil_r. split; [done|]. intros h. rewrite elem_of_nil. naive_solver. }
  inversion_clear Hs as [|? ? Hs' Hf]. apply Forall_cons in Hr as [Hr1 Hr2]. simpl in *.
  apply Forall_cons in Hf as [Hle _]. destruct (r_last _ _ _ _ R) as [Hl _].
  pose proof (holds_write hs ws a f now now text R Hr1 ltac:(lia)) as Hw.
  destruct (Write true true now text a f) as [a1 f1]. destruct Hw as [R1 El].
  specialize (IH _ (ws ++ [(now, text)]) a1 f1 R1). rewrite El in IH. specialize (IH Hs' Hr2).
  destruct (write_all ws2 a1 f1) as [a' f']. destruct IH as (hs' & R' & Hh'). exists hs'.
  rewrite <- app_assoc in R'. split; [done|]. intros h. rewrite Hh', elem_of_begin, elem_of_cons by done. naive_solver.
Qed.

Lemma holds_init dir name retain now a f :
  retain <= 0 -> in_s 64 (GenHourSuffix now) ->
  Init true true now (make dir name retain true) (mkFs ∅ ∅) = (true, a, f) ->
  holds [GenHourSuffix now] [] a f /\ last_hour_suffix_ a = GenHourSuffix now.
Proof.
  intros Hr Hn E. unfold Init, fopen in E. cbn [negb names file_path_ make] in E. rewrite lookup_empty in E.
  injection E as <- <-. set (path := (if decide _ then _ else _) ++ _). split; [|done].
  constructor; simpl; try done.
  - constructor; simpl.
    + eexists. split; [done|]. apply lookup_insert_eq.
    + intros p i [<- <-]%lookup_singleton_Some. rewrite lookup_insert_eq. eauto.
    + intros p q i [<- _]%lookup_singleton_Some [<- _]%lookup_singleton_Some. done.
  - apply Forall_singleton. done.
  - split; [apply list_elem_of_here|]. apply Forall_singleton. lia.
  - intros h ->%list_elem_of_singleton. unfold path_of. simpl. rewrite decide_True by done.
    unfold content; simpl. rewrite lookup_insert_eq. simpl. by rewrite lookup_insert_eq.
  - intros h _ _. rewrite lookup_insert_ne, lookup_empty; [done|]. apply not_eq_sym.
    exact (old_path_ne (mk None [] [] path 0 0 true []) h).
Qed.

(** Files that are none of the appender's. *)
Definition apart (p : bytes) (a : t) : Prop := p <> file_path_ a /\ forall h, p <> old_path a h.

Lemma fopen_holds hs ws a f p :
  holds hs ws a f -> apart p a -> names f !! p = None ->
  let '(i, f') := fopen p f in holds hs ws a f' /\ content f' p = Some [].
Proof.
  intros R [Hp Ho] Hnew. unfold fopen. rewrite Hnew. set (k := fresh (dom (files f))).
  assert (files f !! k = None) as Hk by (apply not_elem_of_dom, is_fresh).
  assert (forall q j, names f !! q = Some j -> j <> k) as Hjk.
  { intros q j Hq ->. destruct (w_files _ _ (r_wf _ _ _ _ R) _ _ Hq) as [? ?]. congruence. }
  assert (forall q, q <> p -> content (mkFs (<[p := k]> (names f)) (<[k := []]> (files f))) q = content f q) as Hc.
  { intros q Hq. unfold content. simpl. rewrite lookup_insert_ne by done.
    destruct (names f !! q) as [j|] eqn:E; [|done]. simpl. by rewrite lookup_insert_ne by (apply not_eq_sym; eauto). }
  split; [|unfold content; simpl; rewrite lookup_insert_eq; simpl; by rewrite lookup_insert_eq].
  destruct R as [[(i & Hi & Hn) Wf Wi] ? ? ? ? ? Rc Rf]. constructor; try done.
  - constructor; simpl.
    + exists i. by rewrite lookup_insert_ne.
    + intros q j. rewrite lookup_insert_Some. intros [[<- <-]|[_ Hq]]; [by rewrite lookup_insert_eq|].
      rewrite lookup_insert_ne by (apply not_eq_sym; eauto). eauto.
    + intros q q' j. rewrite !lookup_insert_Some. intros [[<- <-]|[? Hq]] [[<- ?]|[? Hq']]; try done;
        [by destruct (Hjk _ _ Hq')|subst j; by destruct (Hjk _ _ Hq)|by eapply Wi].
  - intros h Hh. rewrite Hc by (unfold path_of; case_decide; auto). by apply Rc.
  - intros h Hr Hh. simpl. rewrite lookup_insert_ne by auto. by apply Rf.
Qed.

Lemma Write_apart hs ws a f now text p :
  holds hs ws a f -> in_s 64 (GenHourSuffix now) -> apart p a ->
  let '(a', f') := Write true true now text a f in content f' p = content f p /\ file_path_ a' = file_path_ a.
Proof.
  intros R Hn [Hp Ho]. pose proof (holds_CutIfNeed hs ws a f now R Hn) as Hc. unfold Write.
  assert (let '(a', f') := CutIfNeed true true now a f in content f' p = content f p /\ file_path_ a' = file_path_ a) as Hcut.
  { unfold CutIfNeed. rewrite (r_cut _ _ _ _ R). cbn [negb]. case_test; [|done].
    destruct (r_last _ _ _ _ R) as [Hl _].
    assert (in_s 64 (last_hour_suffix_ a)) as Hls by by apply (proj1 (Forall_forall _ _) (r_range _ _ _ _ R)).
    pose proof (cut_fs_content a f (r_wf _ _ _ _ R) (r_free _ _ _ _ R _ Hls (or_introl eq_refl))) as Hcf.
    unfold cut_fs in Hcf. destruct (fopen _ _) as [i f1]. cbn [retain_hours_ set_stream].
    rewrite (proj2 (Z.ltb_ge 0 _) (r_retain _ _ _ _ R)). simpl. split; [|done]. apply Hcf; [done|apply Ho]. }
  destruct (CutIfNeed true true now a f) as [a1 f1]. destruct Hc as [R1 _]. destruct Hcut as [Ec Ep].
  destruct (w_stream _ _ (r_wf _ _ _ _ R1)) as (i & Hi & _). rewrite Hi. split; [|done].
  rewrite (wf_append_content a1 f1 i) by (done || apply R1). rewrite Ec, Ep.
  destruct (content f p); [|done]. simpl. by rewrite decide_False.
Qed.

(** With no retention time set, no line is lost or moved to another hour:
    after any writes at times that do not go back, every hour that was begun has
    its file, under the plain name for the current hour and under the hour's
    suffix for the past ones, and the file holds exactly the lines of that hour
    in order, each cut to the buffer size and ended by a newline. *)
Theorem every_hour_keeps_its_lines (dir name : bytes) (retain : Z) (t0 : tm) (ws : list (tm * bytes))
    (a0 a : t) (f0 f : fs) :
  retain <= 0 ->
  Init true true t0 (make dir name retain true) (mkFs ∅ ∅) = (true, a0, f0) ->
  StronglySorted Z.le (hours (GenHourSuffix t0) ws) -> Forall (in_s 64) (hours (GenHourSuffix t0) ws) ->
  write_all ws a0 f0 = (a, f) ->
  forall h, h ∈ hours (GenHourSuffix t0) ws -> content f (path_of a h) = Some (lines_in h ws).
Proof.
  intros Hr Hi Hs Hf Hw h Hh. pose proof Hf as [Hf0 Hf']%Forall_cons.
  destruct (holds_init _ _ _ _ _ _ Hr Hf0 Hi) as [R0 El].
  pose proof (holds_write_all ws _ [] a0 f0 R0) as R. rewrite El, Hw in R.
  destruct (R Hs (proj1 (Forall_fmap _ _ _) Hf')) as (hs' & R' & Hh'). apply (r_content _ _ _ _ R').
  apply Hh'. apply elem_of_cons in Hh as [-> |Hh]; [left; apply list_elem_of_here|by right].
Qed.

Definition sample_writes : list (tm * bytes) :=
  [(mkTm 14 2 3 122, lit "one"); (mkTm 14 2 3 122, lit "two"); (mkTm 15 2 3 122, lit "three")].

Definition sample_start : bool * t * fs :=
  Init true true (mkTm 14 2 3 122) (make (lit "log") (lit "x") 0 true) (mkFs ∅ ∅).

Definition sample_end : t * fs := write_all sample_writes (snd (fst sample_start)) (snd sample_start).

Lemma every_hour_keeps_its_lines_witness :
  content (snd sample_end) (path_of (fst sample_end) 2022040214) = Some (lines_in 2022040214 sample_writes).
Proof.
  apply (every_hour_keeps_its_lines (lit "log") (lit "x") 0 (mkTm 14 2 3 122) sample_writes
           (snd (fst sample_start)) (fst sample_end) (snd sample_start) (snd sample_end)).
  - lia.
  - reflexivity.
  - repeat constructor; vm_compute; congruence.
  - repeat constructor; vm_compute; congruence.
  - apply surjective_pairing.
  - apply (bool_decide_unpack _). vm_compute. exact I.
Defined.

End FileAppender.
