(* ===== verification/FileAppenderThreads.v ===== *)
(** * Logging from many threads (logger/file_appender.cc)

    [FileAppender::Write] takes [write_mutex_] twice.  [CutIfNeed] first reads the
    clock and looks at [last_hour_suffix_] without the mutex; if the hour is over
    it takes the mutex, looks again, and cuts the file; then [Write] takes the
    mutex again and writes.  Each of these is a step here, so that the calls of
    several threads interleave as they do in the program; critical sections are
    whole steps, and only [last_hour_suffix_] is read outside them.  The local time
    may jump anywhere at any moment, back too.  The appender keeps its old files (no
    retention), and renaming and opening succeed. *)

From S2P Require Import Prelude StdMap FileAppender.

Module FileAppenderThreads.
Import FileAppender.

(** Where a thread is; [now] is the time its call has read. *)
Inductive point :=
  | Idle
  | Called (text : bytes)
  | Cutting (now : tm) (text : bytes)
  | Writing (now : tm) (text : bytes).

(** A line that was written: by whom, the time its call had read, and the hour of
    the file it went to. *)
Record line := mkLine { writer : nat; seen : tm; kept : tm; text : bytes }.

Record t := mk {
  appender : FileAppender.t;
  disk : fs;
  clock : tm;
  points : list point;
  past : list tm;                  (* what the clock has shown *)
  hour : tm;                       (* when the open file was begun *)
  called : list (nat * bytes);     (* the calls of [Write], in order *)
  written : list line;             (* in the order of the second critical section *)
}.

Definition start (threads : nat) (now : tm) (a : FileAppender.t) (f : fs) : t :=
  mk a f now (replicate threads Idle) [now] now [] [].

Definition goto (i : nat) (p : point) (s : t) : t :=
  mk (appender s) (disk s) (clock s) (<[i := p]> (points s)) (past s) (hour s) (called s) (written s).

(** The first test of [CutIfNeed]. *)
Definition look (now : tm) (text : bytes) (a : FileAppender.t) : point :=
  if is_cut_ a && (last_hour_suffix_ a <? GenHourSuffix now) then Cutting now text else Writing now text.

(** The first critical section: the second test, and the cut. *)
Definition cut (rename_ok open_ok : bool) (i : nat) (now : tm) (text : bytes) (s : t) : t :=
  let '(a, f) := CutIfNeed rename_ok open_ok now (appender s) (disk s) in
  mk a f (clock s) (<[i := Writing now text]> (points s)) (past s)
    (if last_hour_suffix_ (appender s) <? GenHourSuffix now then now else hour s) (called s) (written s).

(** The second one; without an open file the line is dropped. *)
Definition put (i : nat) (now : tm) (text : bytes) (s : t) : t :=
  match file_stream_ (appender s) with
  | None => goto i Idle s
  | Some k =>
      mk (appender s) (append k (line_of text) (disk s)) (clock s) (<[i := Idle]> (points s)) (past s) (hour s) (called s)
        (written s ++ [mkLine i now (hour s) text])
  end.

Inductive step (rename_ok open_ok : bool) : t -> t -> Prop :=
  | tick s now :
      in_s 64 (GenHourSuffix now) ->
      step rename_ok open_ok s (mk (appender s) (disk s) now (points s) (now :: past s) (hour s) (called s) (written s))
  | call s i x :
      points s !! i = Some Idle ->
      step rename_ok open_ok s
        (mk (appender s) (disk s) (clock s) (<[i := Called x]> (points s)) (past s) (hour s) (called s ++ [(i, x)]) (written s))
  | first_test s i x :
      points s !! i = Some (Called x) ->
      step rename_ok open_ok s (goto i (look (clock s) x (appender s)) s)
  | first_section s i now x :
      points s !! i = Some (Cutting now x) -> step rename_ok open_ok s (cut rename_ok open_ok i now x s)
  | second_section s i now x :
      points s !! i = Some (Writing now x) -> step rename_ok open_ok s (put i now x s).

(** ** The invariant *)

Definition placed (l : line) : tm * bytes := (kept l, text l).

(** The line a thread still has to write. *)
Definition pending (p : point) : list bytes :=
  match p with Idle => [] | Called x | Cutting _ x | Writing _ x => [x] end.

Definition calls_of (i : nat) (cs : list (nat * bytes)) : list bytes := (base.filter (fun c => fst c = i) cs).*2.

Definition lines_of (i : nat) (ls : list line) : list bytes := text <$> base.filter (fun l => writer l = i) ls.

(** What holds of a thread at [p], the open file having been begun at [last]. *)
Definition point_ok (last : Z) (past : list tm) (p : point) : Prop :=
  match p with
  | Idle | Called _ => True
  | Cutting n _ => n ∈ past
  | Writing n _ => GenHourSuffix n <= last
  end.

Record inv (hs : list Z) (s : t) : Prop := {
  i_holds : holds hs (placed <$> written s) (appender s) (disk s);
  i_hour : GenHourSuffix (hour s) = last_hour_suffix_ (appender s);
  i_past : clock s ∈ past s /\ hour s ∈ past s /\ Forall (fun now => in_s 64 (GenHourSuffix now)) (past s);
  i_points : Forall (point_ok (last_hour_suffix_ (appender s)) (past s)) (points s);
  i_written : Forall (fun l => GenHourSuffix (seen l) <= GenHourSuffix (kept l) /\ kept l ∈ past s) (written s);
  i_lines i p : points s !! i = Some p -> calls_of i (called s) = lines_of i (written s) ++ pending p;
}.

Lemma point_ok_mono last last' past past' p :
  last <= last' -> past ⊆ past' -> point_ok last past p -> point_ok last' past' p.
Proof. intros H1 H2. destruct p; simpl; [done|done|apply H2|lia]. Qed.

(** A thread that moves on without a line having been called or written. *)
Lemma lines_goto s i p q (ps := <[i := q]> (points s)) :
  points s !! i = Some p -> pending q = pending p ->
  (forall j p', points s !! j = Some p' -> calls_of j (called s) = lines_of j (written s) ++ pending p') ->
  forall j p', ps !! j = Some p' -> calls_of j (called s) = lines_of j (written s) ++ pending p'.
Proof.
  intros Hi Hq H j p'. subst ps. rewrite list_lookup_insert_Some. intros [(-> & <- & _)|[_ Hj]]; [|by apply H].
  rewrite Hq. by apply H.
Qed.

Lemma calls_of_snoc i j x cs : calls_of j (cs ++ [(i, x)]) = calls_of j cs ++ if decide (i = j) then [x] else [].
Proof.
  unfold calls_of. rewrite filter_app, fmap_app. f_equal. rewrite filter_cons, filter_nil. simpl. by case_decide.
Qed.

Lemma lines_of_snoc l j ls : lines_of j (ls ++ [l]) = lines_of j ls ++ if decide (writer l = j) then [text l] else [].
Proof.
  unfold lines_of. rewrite filter_app, fmap_app. f_equal. rewrite filter_cons, filter_nil. by case_decide.
Qed.

Lemma look_ok a now past x hs ws f :
  holds hs ws a f -> now ∈ past ->
  point_ok (last_hour_suffix_ a) past (look now x a) /\ pending (look now x a) = [x].
Proof.
  intros R Hn. unfold look. rewrite (r_cut _ _ _ _ R). simpl.
  destruct (Z.ltb_spec (last_hour_suffix_ a) (GenHourSuffix now)); simpl; (split; [|done]); [done|lia].
Qed.

Lemma cut_inv hs s i now x :
  inv hs s -> points s !! i = Some (Cutting now x) ->
  inv (begin (GenHourSuffix now) hs (appender s)) (cut true true i now x s).
Proof.
  intros [R Hh (Hc & Hhp & Hall) Hp Hw Hl] Hi. pose proof (Forall_lookup_1 _ _ _ _ Hp Hi) as Hn. simpl in Hn.
  pose proof (proj1 (Forall_forall _ _) Hall _ Hn) as Hr. simpl in Hr. unfold cut.
  pose proof (holds_CutIfNeed _ _ _ _ now R Hr) as H. destruct (CutIfNeed true true now _ _) as [a f].
  destruct H as [R' El]. constructor; simpl; rewrite ?El.
  - done.
  - destruct (Z.ltb_spec (last_hour_suffix_ (appender s)) (GenHourSuffix now)); rewrite ?Hh; lia.
  - split_and!; [done|by case_match|done].
  - apply Forall_insert; [|simpl; lia]. eapply Forall_impl; [exact Hp|]. intros p. apply point_ok_mono; [lia|done].
  - done.
  - eapply lines_goto; [done|done|exact Hl].
Qed.

Lemma put_inv hs s i now x :
  inv hs s -> points s !! i = Some (Writing now x) -> inv hs (put i now x s).
Proof.
  intros [R Hh Hc Hp Hw Hl] Hi. pose proof (Forall_lookup_1 _ _ _ _ Hp Hi) as Hn. simpl in Hn.
  destruct (w_stream _ _ (r_wf _ _ _ _ R)) as (k & Hk & _). unfold put. rewrite Hk. constructor; simpl.
  - rewrite fmap_app. by apply holds_append.
  - done.
  - done.
  - by apply Forall_insert.
  - apply Forall_app. split; [done|]. repeat constructor; simpl; [by rewrite Hh|apply Hc].
  - intros j p. rewrite list_lookup_insert_Some, lines_of_snoc. simpl. intros [(<- & <- & _)|[Hne Hj]].
    + rewrite decide_True, app_nil_r by done. apply (Hl _ _ Hi).
    + rewrite decide_False, app_nil_r by done. by apply Hl.
Qed.

Lemma threads_step_inv hs s s' : inv hs s -> step true true s s' -> exists hs', inv hs' s'.
Proof.
  intros I Hs. destruct Hs as [s now Hr|s i x Hi|s i x Hi|s i now x Hi|s i now x Hi].
  - exists hs. destruct I as [R Hh (Hc & Hhp & Hall) Hp Hw Hl]. constructor; simpl; try done.
    + split_and!; [by left|by right|by constructor].
    + eapply Forall_impl; [exact Hp|]. intros p. apply point_ok_mono; [done|]. by apply list_subseteq_cons.
    + eapply Forall_impl; [exact Hw|]. intros l [? ?]. split; [done|by right].
  - exists hs. destruct I as [R Hh Hc Hp Hw Hl]. constructor; simpl; try done; [by apply Forall_insert|].
    intros j p. rewrite list_lookup_insert_Some, calls_of_snoc. intros [(<- & <- & _)|[Hne Hj]].
    + rewrite decide_True by done. pose proof (Hl _ _ Hi) as H. simpl in H. rewrite app_nil_r in H. by rewrite H.
    + rewrite decide_False, app_nil_r by done. by apply Hl.
  - exists hs. destruct I as [R Hh Hc Hp Hw Hl]. destruct (look_ok _ _ _ x _ _ _ R (proj1 Hc)) as [Hk Hx].
    constructor; simpl; try done; [by apply Forall_insert|]. by eapply lines_goto.
  - eexists. by apply cut_inv.
  - exists hs. by apply put_inv.
Qed.

Lemma start_inv dir name retain now n a f :
  retain <= 0 -> in_s 64 (GenHourSuffix now) ->
  Init true true now (make dir name retain true) (mkFs ∅ ∅) = (true, a, f) ->
  inv [GenHourSuffix now] (start n now a f).
Proof.
  intros Hr Hn E. destruct (holds_init _ _ _ _ _ _ Hr Hn E) as [R El]. constructor; simpl; rewrite ?El; try done.
  - split_and!; [by left|by left|by apply Forall_singleton].
  - by apply Forall_replicate.
  - intros i p [-> _]%lookup_replicate. done.
Qed.

Lemma threads_reachable_inv hs s s' : inv hs s -> rtc (step true true) s s' -> exists hs', inv hs' s'.
Proof.
  intros I Hr. revert hs I. induction Hr as [s|s s1 s' Hs _ IH]; intros hs I; [by exists hs|].
  destruct (threads_step_inv _ _ _ I Hs) as [hs1 I1]. eauto.
Qed.

(** C27: with an empty disk at first, no retention ([RetainHours] not positive), and
    renaming and opening that succeed: whatever the interleaving of any number of
    threads and however the local time moves, no line is torn, lost or written twice,
    and no file is overwritten by a cut: every file, the current one and those of past
    hours, holds exactly the lines written in its hour, in order; the lines of one
    thread are written in the order of its calls, all but the one it may be working
    on; and the hour of the file a line goes to is one the clock has shown, not before
    the one the call saw. *)
Theorem threads_share_the_log (dir name : bytes) (retain : Z) (t0 : tm) (n : nat) (a0 : FileAppender.t) (f0 : fs) (s : t) :
  retain <= 0 -> in_s 64 (GenHourSuffix t0) ->
  Init true true t0 (make dir name retain true) (mkFs ∅ ∅) = (true, a0, f0) ->
  rtc (step true true) (start n t0 a0 f0) s ->
  (forall h, h = last_hour_suffix_ (appender s) \/ h ∈ (fun l => GenHourSuffix (kept l)) <$> written s ->
     content (disk s) (path_of (appender s) h) = Some (lines_in h (placed <$> written s))) /\
  (forall i p, points s !! i = Some p -> calls_of i (called s) = lines_of i (written s) ++ pending p) /\
  (forall l, l ∈ written s -> GenHourSuffix (seen l) <= GenHourSuffix (kept l) /\ kept l ∈ past s).
Proof.
  intros Hr Hn E Hs. destruct (threads_reachable_inv _ _ _ (start_inv _ _ _ _ n _ _ Hr Hn E) Hs) as [hs I].
  pose proof (i_holds _ _ I) as R. destruct (r_last _ _ _ _ R) as [Hl Hle]. pose proof (r_lines _ _ _ _ R) as Hw.
  rewrite Forall_fmap, Forall_forall in Hw. simpl in Hw. split_and!.
  - intros h Hh. apply (r_content _ _ _ _ R). destruct Hh as [-> |(l & -> & Hin)%list_elem_of_fmap]; [done|by apply Hw].
  - apply I.
  - intros l Hin. exact (proj1 (Forall_forall _ _) (i_written _ _ I) l Hin).
Qed.

(** ** A line that comes late

    Thread 0 sees 14 o'clock; before it writes, the hour passes and thread 1 cuts. *)

Definition at14 : tm := mkTm 14 2 3 122.
Definition at15 : tm := mkTm 15 2 3 122.

Definition opened : bool * FileAppender.t * fs := Init true true at14 (make (lit "log") (lit "x") 0 true) (mkFs ∅ ∅).
Definition begun : t := start 2 at14 (snd (fst opened)) (snd opened).

Definition enter (i : nat) (x : bytes) (s : t) : t :=
  mk (appender s) (disk s) (clock s) (<[i := Called x]> (points s)) (past s) (hour s) (called s ++ [(i, x)]) (written s).
Definition see (i : nat) (x : bytes) (s : t) : t := goto i (look (clock s) x (appender s)) s.
Definition wait (now : tm) (s : t) : t := mk (appender s) (disk s) now (points s) (now :: past s) (hour s) (called s) (written s).

Definition before : t := see 1 (lit "new") (enter 1 (lit "new") (wait at15 (see 0 (lit "old") (enter 0 (lit "old") begun)))).
Definition late : t := put 0 at14 (lit "old") (put 1 at15 (lit "new") (cut true true 1 at15 (lit "new") before)).

Lemma late_reached : rtc (step true true) begun late.
Proof.
  apply (rtc_l _ _ (enter 0 (lit "old") begun)); [by apply call|].
  eapply rtc_l; [by apply (first_test _ _ _ 0 (lit "old"))|].
  eapply rtc_l; [apply (tick _ _ _ at15); by vm_compute|].
  eapply rtc_l; [by apply (call _ _ _ 1 (lit "new"))|].
  eapply rtc_l; [by apply (first_test _ _ _ 1 (lit "new"))|].
  eapply rtc_l; [by apply (first_section _ _ _ 1 at15 (lit "new"))|].
  eapply rtc_l; [by apply (second_section _ _ _ 1 at15 (lit "new"))|].
  apply rtc_once. by apply (second_section _ _ _ 0 at14 (lit "old")).
Qed.

(** The line of 14 o'clock is in the file of 15 o'clock, after a later one. *)
Lemma late_line_in_next_hour :
  content (disk late) (lit "log/x.2022040214") = Some [] /\
  content (disk late) (lit "log/x") = Some (lit "new" ++ [LF] ++ lit "old" ++ [LF]).
Proof. by vm_compute. Qed.

Lemma threads_share_the_log_witness :
  (forall h, h = last_hour_suffix_ (appender late) \/ h ∈ (fun l => GenHourSuffix (kept l)) <$> written late ->
     content (disk late) (path_of (appender late) h) = Some (lines_in h (placed <$> written late))) /\
  (forall i p, points late !! i = Some p -> calls_of i (called late) = lines_of i (written late) ++ pending p) /\
  (forall l, l ∈ written late -> GenHourSuffix (seen l) <= GenHourSuffix (kept l) /\ kept l ∈ past late).
Proof.
  apply (threads_share_the_log (lit "log") (lit "x") 0 at14 2 (snd (fst opened)) (snd opened) late).
  - lia.
  - by vm_compute.
  - reflexivity.
  - apply late_reached.
Defined.

End FileAppenderThreads.
