(* ===== verification/Backtrace.v ===== *)
(** * logger/backtrace.{h,cc}

    [StackDumper]: turns the frames libbacktrace reports into text.  What
    [backtrace_full] reports and what [abi::__cxa_demangle] answers are inputs;
    the loop of [backtrace_full] stops at the first callback that returns a value
    other than 0. *)

From S2P Require Import Prelude Decimal.

Module StackDumper.

Definition kMaxStackFrames : Z := 128.

(** What the callback gets; a null pointer is [None]. *)
Record frame := mkFrame { file : option bytes; line : Z; func : option bytes }.

(** The demangled name, and whether it is in a new buffer. *)
Definition demangler : Type := bytes -> option (bytes * bool).

(** [demangle_buff_] is kept as whether it is allocated. *)
Record t := mk { skip_ : Z; exec_path_ : bytes; demangle_buff_ : bool }.

(** [readlink_ret] is what [readlink] stored, if its result is positive. *)
Definition make (skip : Z) (readlink_ret : option bytes) : t :=
  mk skip (default [] readlink_ret) true.

Definition Demangle (dm : demangler) (sd : t) (name : bytes) : option bytes * bool * t :=
  match dm name with
  | None => (None, false, sd)
  | Some (p, moved) =>
      if moved || negb (demangle_buff_ sd) then (Some p, true, mk (skip_ sd) (exec_path_ sd) false)
      else (Some p, false, sd)
  end.

Definition unknown : bytes := lit "???".

(** The result, [*count], the frames collected and the dumper. *)
Definition Backtrace (dm : demangler) (fr : frame) (sd : t) (count : Z) (stacks : list bytes)
  : Z * Z * list bytes * t :=
  match file fr, func fr with
  | None, None => (0, count, stacks, sd)
  | _, _ =>
      if kMaxStackFrames <=? count then
        (-1, count,
         stacks ++ [lit "#" ++ Decimal.to_string count ++ lit " [reach max stack frames, truncated]"], sd)
      else
        let '(f, sd1) :=
          match func fr with
          | None => (None, sd)
          | Some name =>
              let '(p, _, sd1) := Demangle dm sd name in
              (Some (default name p), sd1)
          end in
        let text := lit "#" ++ Decimal.to_string count ++ lit " [" ++ default unknown (file fr) ++ lit ":" ++
                    Decimal.to_string (line fr) ++ lit "][" ++ default unknown f ++ lit "]" in
        (0, u32 (count + 1), stacks ++ [text], sd1)
  end.

(** [backtrace_full] over the frames below [skip_]. *)
Fixpoint backtrace_full (dm : demangler) (frames : list frame) (sd : t) (count : Z) (stacks : list bytes)
  : list bytes * t :=
  match frames with
  | [] => (stacks, sd)
  | fr :: frames' =>
      let '(ret, count1, stacks1, sd1) := Backtrace dm fr sd count stacks in
      if ret =? 0 then backtrace_full dm frames' sd1 count1 stacks1 else (stacks1, sd1)
  end.

Definition Dump (dm : demangler) (frames : list frame) (sd : t) (stack_frames : list bytes)
  : bool * list bytes * t :=
  let '(s, sd1) := backtrace_full dm (drop (Z.to_nat (skip_ sd)) frames) sd 0 stack_frames in (true, s, sd1).

(** ** How many frames are listed *)

(** Frames with neither a file nor a function are passed over. *)
Definition known (fr : frame) : bool :=
  match file fr, func fr with None, None => false | _, _ => true end.

Definition known_frames (frames : list frame) : list frame := base.filter (fun fr => known fr = true) frames.

(** The text of the frame number [n]. *)
Definition frame_text (dm : demangler) (n : Z) (fr : frame) : bytes :=
  lit "#" ++ Decimal.to_string n ++ lit " [" ++ default unknown (file fr) ++ lit ":" ++
  Decimal.to_string (line fr) ++ lit "][" ++
  default unknown ((fun name => default name (fst <$> dm name)) <$> func fr) ++ lit "]".

Definition truncated (n : Z) : bytes :=
  lit "#" ++ Decimal.to_string n ++ lit " [reach max stack frames, truncated]".

Lemma Backtrace_known dm fr sd n acc :
  known fr = true -> 0 <= n < kMaxStackFrames ->
  exists sd', Backtrace dm fr sd n acc = (0, n + 1, acc ++ [frame_text dm n fr], sd').
Proof.
  intros Hk Hn. unfold kMaxStackFrames in *.
  assert (u32 (n + 1) = n + 1) as Hu by (apply wrapu_id; unfold in_u; lia).
  unfold Backtrace, known, frame_text, kMaxStackFrames, Demangle in *.
  rewrite (proj2 (Z.leb_gt 128 n)) by lia.
  destruct (file fr), (func fr) as [name|]; try done; rewrite Hu; [|eexists; reflexivity|];
    (cbn [fmap option_fmap option_map]; destruct (dm name) as [[p mv]|]; [destruct (mv || _)|];
     eexists; reflexivity).
Qed.

Lemma Backtrace_full_up dm fr sd acc :
  known fr = true -> Backtrace dm fr sd kMaxStackFrames acc = (-1, kMaxStackFrames, acc ++ [truncated kMaxStackFrames], sd).
Proof. unfold Backtrace, known. destruct (file fr), (func fr); done. Qed.

Lemma Backtrace_unknown dm fr sd n acc : known fr = false -> Backtrace dm fr sd n acc = (0, n, acc, sd).
Proof. unfold Backtrace, known. by destruct (file fr), (func fr). Qed.

Lemma backtrace_full_spec dm frames : forall sd n acc,
  0 <= n <= kMaxStackFrames ->
  fst (backtrace_full dm frames sd n acc) =
    acc ++ imap (fun i fr => frame_text dm (n + Z.of_nat i) fr)
                (take (Z.to_nat (kMaxStackFrames - n)) (known_frames frames)) ++
    (if decide (kMaxStackFrames - n < vlen (known_frames frames)) then [truncated kMaxStackFrames] else []).
Proof.
  induction frames as [|fr frames IH]; intros sd n acc Hn; unfold known_frames in *.
  { rewrite filter_nil, take_nil, decide_False by (unfold vlen; simpl; lia). simpl. by rewrite app_nil_r. }
  cbn [backtrace_full]. destruct (known fr) eqn:Ek.
  - rewrite filter_cons_True by done. destruct (decide (n = kMaxStackFrames)) as [-> |Hne].
    + rewrite Backtrace_full_up, Z.sub_diag by done.
      rewrite decide_True by (unfold vlen; simpl length; lia). done.
    + destruct (Backtrace_known dm fr sd n acc Ek) as (sd' & ->); [lia|]. rewrite Z.eqb_refl.
      rewrite IH by lia. replace (Z.to_nat (kMaxStackFrames - n)) with (S (Z.to_nat (kMaxStackFrames - (n + 1)))) by lia.
      rewrite firstn_cons, imap_cons, <- app_assoc. f_equal. cbn [app]. rewrite Z.add_0_r. f_equal. f_equal.
      * apply imap_ext. intros i x _. simpl. f_equal. lia.
      * unfold vlen. simpl length. repeat case_decide; try done; lia.
  - rewrite filter_cons_False by congruence. rewrite Backtrace_unknown by done. rewrite Z.eqb_refl. by apply IH.
Qed.

(** [Dump] lists the known frames above [skip_] in order, numbered from 0, at
    most 128 of them, and says so once if there are more. *)
Theorem dump_lists_at_most_128_frames (dm : demangler) (frames : list frame) (sd : t) (acc : list bytes) :
  let ks := known_frames (drop (Z.to_nat (skip_ sd)) frames) in
  exists sd', Dump dm frames sd acc =
    (true, acc ++ imap (fun i fr => frame_text dm (Z.of_nat i) fr) (take 128 ks) ++
           (if decide (128 < vlen ks) then [truncated 128] else []), sd').
Proof.
  intros ks. unfold Dump.
  pose proof (backtrace_full_spec dm (drop (Z.to_nat (skip_ sd)) frames) sd 0 acc ltac:(unfold kMaxStackFrames; lia)) as E.
  destruct (backtrace_full _ _ _ _ _) as [s sd']. simpl in E. exists sd'. rewrite E. done.
Qed.

End StackDumper.
