(* ===== verification/Logger.v ===== *)
(** * logger/logger.{h,cc}, log_capture.{h,cc}, log_kv.{h,cc}, log.h

    [Logger]: levels, sinks and configuration; the objects behind the streaming
    and key/value macros; the counting and checking macros.  The world holds the
    file system, what went to the console and whether [exit] was called.  The
    clock (read once for the prefix of a line and once more by every write to a file),
    the process id and the frames of a stack dump are inputs ([env]); the
    configuration file is what cpptoml's table answers. *)

From S2P Require Import Prelude Decimal Printf FileAppender Backtrace.

Inductive Level := DEBUG_LEVEL | INFO_LEVEL | WARN_LEVEL | ERROR_LEVEL | FATAL_LEVEL.

#[global] Instance Level_eq_dec : EqDecision Level.
Proof. solve_decision. Defined.

Definition level_int (l : Level) : Z :=
  match l with DEBUG_LEVEL => 0 | INFO_LEVEL => 1 | WARN_LEVEL => 2 | ERROR_LEVEL => 3 | FATAL_LEVEL => 4 end.

Definition level_of_int (z : Z) : option Level :=
  match z with 0 => Some DEBUG_LEVEL | 1 => Some INFO_LEVEL | 2 => Some WARN_LEVEL
             | 3 => Some ERROR_LEVEL | 4 => Some FATAL_LEVEL | _ => None end.

Definition kLevel2Description (l : Level) : bytes :=
  match l with
  | DEBUG_LEVEL => lit "[DEBUG]" | INFO_LEVEL => lit "[INFO]" | WARN_LEVEL => lit "[WARN]"
  | ERROR_LEVEL => lit "[ERROR]" | FATAL_LEVEL => lit "[FATAL]"
  end.

Module Logger.

(** One call of [FileAppender::Write] (or [Init]): the local time it reads and, should
    it cut the file, whether the system lets it. *)
Record io := mkIo { clock : FileAppender.tm; rename_ok : bool; open_ok : bool }.

Record env := mkEnv {
  now : FileAppender.tm;           (* read by [GenLogPrefix] *)
  tm_min : Z;
  tm_sec : Z;
  tv_usec : Z;
  t_pid : Z;
  file_io : io;                    (* the log file, then the crash file *)
  crash_io : io;
  dump_file_io : io;               (* the same two for the stack dump *)
  dump_crash_io : io;
  frames : list StackDumper.frame;
  demangle : StackDumper.demangler;
}.

Record t := mk {
  is_console_output_ : bool;
  file_appender_ : option FileAppender.t;
  crash_file_appender_ : option FileAppender.t;
  priority_ : Level;
  receive_fatal_ : bool;
}.

Record world := mkWorld {
  logger : t;
  disk : FileAppender.fs;
  console : bytes;
  exited : bool;
  t_traceid : Z;
}.

(** [instance_] as the static initialiser leaves it *)
Definition make : t := mk true None None DEBUG_LEVEL false.

(** [~Logger]: both appenders go, with their streams.  The singleton itself is never deleted. *)
Definition destroy (l : t) : list FileAppender.t :=
  FileAppender.destroy <$> omap id [file_appender_ l; crash_file_appender_ l].

(** *** Signals *)

Inductive disposition := SIG_IGN | Handler.

Definition HandleSignal : list (Z * disposition) :=
  [(1, SIG_IGN); (3, SIG_IGN); (13, SIG_IGN); (22, SIG_IGN); (21, SIG_IGN); (17, SIG_IGN); (15, SIG_IGN);
   (7, Handler); (11, Handler); (6, Handler); (4, Handler); (8, Handler)].

Definition kSkipFrames : Z := 3.

Definition printf (s : bytes) (w : world) : world :=
  mkWorld (logger w) (disk w) (console w ++ s) (exited w) (t_traceid w).

Definition exit (w : world) : world := mkWorld (logger w) (disk w) (console w) true (t_traceid w).

(** The first eight of the sixteen bytes [uuid_generate] fills in, read as a word;
    the machine is little-endian. *)
Definition GenerateTraceId (uuid : list Z) : Z := foldr (fun b acc => b + 256 * acc) 0 (take 8 uuid).

(** [set_trace_id(id)]; [uuid] is what [uuid_generate] would give *)
Definition set_trace_id (trace_id : Z) (uuid : list Z) (w : world) : world :=
  mkWorld (logger w) (disk w) (console w) (exited w) (if trace_id =? 0 then GenerateTraceId uuid else trace_id).

Lemma GenerateTraceId_range uuid : Forall (in_u 8) uuid -> in_u 64 (GenerateTraceId uuid).
Proof.
  intros H. unfold GenerateTraceId. assert (Forall (in_u 8) (take 8 uuid)) as Ht by by apply Forall_take.
  assert (length (take 8 uuid) <= 8)%nat as Hl by (rewrite length_take; lia).
  assert (0 <= foldr (fun b acc => b + 256 * acc) 0 (take 8 uuid) < 2 ^ (8 * vlen (take 8 uuid))) as Hb.
  { clear Hl H. induction Ht as [|b l Hb _ IH]; [unfold vlen; simpl; lia|].
    replace (8 * vlen (b :: l)) with (8 + 8 * vlen l) by (unfold vlen; simpl length; lia).
    rewrite Z.pow_add_r by (unfold vlen; lia). unfold in_u in Hb. simpl foldr. lia. }
  unfold in_u. split; [apply Hb|]. eapply Z.lt_le_trans; [apply Hb|]. apply Z.pow_le_mono_r; unfold vlen; lia.
Qed.

Definition trace_id (w : world) : Z := t_traceid w.

Definition GenLogPrefix (e : env) (traceid : Z) : option bytes :=
  s ← Printf.format (lit "[%04d-%02d-%02d %02d:%02d:%02d.%06ld][%d:%lx]")
        [Printf.AInt (FileAppender.tm_year (now e) + 1900); Printf.AInt (FileAppender.tm_mon (now e) + 1);
         Printf.AInt (FileAppender.tm_mday (now e)); Printf.AInt (FileAppender.tm_hour (now e));
         Printf.AInt (tm_min e); Printf.AInt (tm_sec e); Printf.AInt (tv_usec e); Printf.AInt (t_pid e);
         Printf.AInt traceid];
  Some (snprintf 100 s).

(** [file_appender_->Write(fmt, args)], and the same for the crash file *)
Definition write_file (i : io) (fmt : bytes) (args : list Printf.arg) (w : world) : option world :=
  match file_appender_ (logger w) with
  | None => Some w
  | Some a =>
      text ← Printf.format fmt args;
      let '(a1, f1) := FileAppender.Write (rename_ok i) (open_ok i) (clock i) text a (disk w) in
      let l := logger w in
      Some (mkWorld (mk (is_console_output_ l) (Some a1) (crash_file_appender_ l) (priority_ l) (receive_fatal_ l))
              f1 (console w) (exited w) (t_traceid w))
  end.

Definition write_crash (i : io) (fmt : bytes) (args : list Printf.arg) (w : world) : option world :=
  match crash_file_appender_ (logger w) with
  | None => Some w
  | Some a =>
      text ← Printf.format fmt args;
      let '(a1, f1) := FileAppender.Write (rename_ok i) (open_ok i) (clock i) text a (disk w) in
      let l := logger w in
      Some (mkWorld (mk (is_console_output_ l) (file_appender_ l) (Some a1) (priority_ l) (receive_fatal_ l))
              f1 (console w) (exited w) (t_traceid w))
  end.

(** The dump goes to the console as data and to the files as a format. *)
Definition Backtrace (e : env) (w : world) : option world :=
  let '(_, stack_frames, _) :=
    StackDumper.Dump (demangle e) (frames e) (StackDumper.make kSkipFrames None) [] in
  let output := mjoin ((fun sf => [ascii_of_nat 9; ascii_of_nat 9] ++ sf ++ [LF]) <$> stack_frames) in
  let w1 := printf (c_str output) w in
  w2 ← write_file (dump_file_io e) output [] w1;
  write_crash (dump_crash_io e) output [] w2.

Definition fatal_suffix : bytes :=
  [LF; ascii_of_nat 9] ++ lit "Exiting due to FATAL log" ++ [LF; ascii_of_nat 9] ++ lit "Call Stack:".

(** [NDEBUG] is the build mode.  [None] is undefined behaviour in a format. *)
Definition Log (NDEBUG : bool) (e : env) (log_level : Level) (fmt : bytes) (args : list Printf.arg) (w : world)
  : option world :=
  if level_int log_level <? level_int (priority_ (logger w)) then Some w
  else
    prefix ← GenLogPrefix e (t_traceid w);
    let new_fmt := prefix ++ kLevel2Description log_level ++ c_str fmt ++
                   (if decide (log_level = FATAL_LEVEL) then fatal_suffix else []) in
    w1 ← (if is_console_output_ (logger w) || (level_int ERROR_LEVEL <=? level_int log_level)
          then s ← Printf.format (new_fmt ++ [LF]) args; Some (printf s w)
          else Some w);
    w2 ← write_file (file_io e) new_fmt args w1;
    w3 ← (if level_int FATAL_LEVEL <=? level_int log_level then write_crash (crash_io e) new_fmt args w2 else Some w2);
    if decide (log_level = FATAL_LEVEL) then
      if NDEBUG then
        let l := logger w3 in
        let w4 := mkWorld (mk (is_console_output_ l) (file_appender_ l) (crash_file_appender_ l) (priority_ l) true)
                    (disk w3) (console w3) (exited w3) (t_traceid w3) in
        if negb (receive_fatal_ l) then w5 ← Backtrace e w4; Some (exit w5) else Some w4
      else Backtrace e w3
    else Some w3.

(** The signal handler: a fatal log, then [exit]. *)
Definition on_signal (NDEBUG : bool) (e : env) (signal : Z) (w : world) : option world :=
  w1 ← Log NDEBUG e FATAL_LEVEL (lit "Exiting due to receive signal: %d") [Printf.AInt signal]
         (printf (lit "receive signal: " ++ Decimal.to_string signal ++ [LF]) w);
  Some (exit w1).

(** *** Configuration *)

Record toml := mkToml { get_int : bytes -> option Z; get_string : bytes -> option bytes }.

(** [util::ParseTomlValue]: the value is written only on success. *)
Definition ParseTomlValue {T} (got : option T) (value : T) : bool * T :=
  match got with None => (false, value) | Some v => (true, v) end.

(** The results of [mkdir] and [open] for the two appenders. *)
Record init_answers := mkInit { mkdir1 : bool; open1 : bool; mkdir2 : bool; open2 : bool }.

Definition set_logger (l : t) (f : FileAppender.fs) (w : world) : world :=
  mkWorld l f (console w) (exited w) (t_traceid w).

(** The format [LogError] and [LogWarn] put in front. *)
Definition at_source : bytes := lit "[%s:%d][%s] ".

(** [g] is the parsed file, or the text of the parse error; [file] is
    [__FILE__]. *)
Definition Init (NDEBUG : bool) (e : env) (file conf_path : bytes) (g : toml + bytes) (ans : init_answers) (w : world)
  : option (bool * world) :=
  match g with
  | inr what =>
      w1 ← Log NDEBUG e ERROR_LEVEL (at_source ++ lit "parse logger conf fail, path:%s err:%s")
             [Printf.AStr file; Printf.AInt 91; Printf.AStr (lit "Init"); Printf.AStr conf_path; Printf.AStr what] w;
      Some (false, w1)
  | inl g =>
      let l := logger w in
      let '(ok, level) := ParseTomlValue (get_int g (lit "Level")) 0 in
      let priority :=
        if ok && (level_int DEBUG_LEVEL <=? level) && (level <=? level_int ERROR_LEVEL)
        then default (priority_ l) (level_of_int level) else priority_ l in
      let l1 := mk (is_console_output_ l) (file_appender_ l) (crash_file_appender_ l) priority (receive_fatal_ l) in
      let dir := snd (ParseTomlValue (get_string g (lit "Directory")) (lit "./log")) in
      let '(ok_name, file_name) := ParseTomlValue (get_string g (lit "FileName")) [] in
      if negb ok_name then
        w1 ← Log NDEBUG e WARN_LEVEL (at_source ++ lit "parse FileName config fail, print to console")
               [Printf.AStr file; Printf.AInt 108; Printf.AStr (lit "Init")] (set_logger l1 (disk w) w);
        Some (false, w1)
      else
        let retain_hours := snd (ParseTomlValue (get_int g (lit "RetainHours")) 0) in
        let '(ok1, a1, f1) :=
          FileAppender.Init (mkdir1 ans) (open1 ans) (clock (file_io e)) (FileAppender.make dir file_name retain_hours true) (disk w) in
        let l2 := mk (is_console_output_ l1) (Some a1) (crash_file_appender_ l1) priority (receive_fatal_ l1) in
        if negb ok1 then Some (false, set_logger l2 f1 w)
        else
          let '(ok2, a2, f2) :=
            FileAppender.Init (mkdir2 ans) (open2 ans) (clock (crash_io e))
              (FileAppender.make dir (file_name ++ lit ".fatal") 0 false) f1 in
          let l3 := mk (is_console_output_ l2) (Some a1) (Some a2) priority (receive_fatal_ l2) in
          if negb ok2 then Some (false, set_logger l3 f2 w)
          else Some (true, set_logger (mk false (Some a1) (Some a2) priority (receive_fatal_ l3)) f2 w)
  end.

(** *** The prefix is plain text *)

Definition plain (c : ascii) : Prop := c <> "%"%char /\ c <> NUL.

Lemma plain_not_elem s : Forall plain s -> "%"%char ∉ s /\ NUL ∉ s.
Proof.
  intros H. split; intros Hin; pose proof (proj1 (Forall_forall _ _) H _ Hin) as [H1 H2]; done.
Qed.

Lemma plain_lit s : forallb (fun c => negb (bool_decide (c = "%"%char)) && negb (bool_decide (c = NUL))) s = true -> Forall plain s.
Proof.
  rewrite forallb_forall. intros H. apply Forall_forall. intros c Hc%list_elem_of_In. specialize (H c Hc).
  apply andb_true_iff in H as [H1 H2]. apply negb_true_iff, bool_decide_eq_false in H1, H2. done.
Qed.

Lemma plain_to_string z : Forall plain (Decimal.to_string z).
Proof.
  apply Forall_forall. intros c Hc. destruct (Decimal.to_string_digits z c Hc) as [-> |[d Hd]]; [done|].
  split; intros ->; by vm_compute in Hd.
Qed.

Lemma plain_hex_digit n : 0 <= n < 16 -> plain (Printf.hex_digit n).
Proof.
  intros H. assert (n ∈ [0; 1; 2; 3; 4; 5; 6; 7; 8; 9; 10; 11; 12; 13; 14; 15]) as Hn
    by (rewrite !elem_of_cons; lia).
  rewrite !elem_of_cons, elem_of_nil in Hn. destruct_or! Hn; try done; subst; split; by vm_compute.
Qed.

Lemma plain_hex n : Forall plain (Printf.hex n).
Proof.
  unfold Printf.hex. generalize 16%nat as fuel. intros fuel. revert n.
  induction fuel as [|fuel IH]; intros n; simpl; [constructor|].
  pose proof (plain_hex_digit (n mod 16) ltac:(apply Z.mod_pos_bound; lia)).
  case_test; [by apply Forall_singleton|]. apply Forall_app. split; [apply IH|by apply Forall_singleton].
Qed.

Lemma plain_pad sp s : Forall plain s -> Forall plain (Printf.pad sp s).
Proof.
  intros Hs. unfold Printf.pad.
  assert (forall n c, plain c -> Forall plain (replicate n c)) as Hr by (intros; by apply Forall_replicate).
  destruct (Printf.zero sp); [|apply Forall_app; split; [by apply Hr|done]].
  destruct s as [|c s]; [by apply Hr|]. apply Forall_cons in Hs as Hcs. destruct Hcs as [Hc Hs'].
  case_decide; [constructor; [done|]|]; apply Forall_app; split; try done; by apply Hr.
Qed.

Lemma plain_snprintf n s : Forall plain s -> Forall plain (snprintf n s).
Proof.
  intros H. unfold snprintf. apply Forall_take. induction H as [|c s Hc _ IH]; simpl; [constructor|].
  case_decide; [constructor|by constructor].
Qed.

Lemma GenLogPrefix_plain e tr : exists p, GenLogPrefix e tr = Some p /\ Forall plain p.
Proof.
  unfold GenLogPrefix.
  set (f1 := Printf.mkSpec true 4). set (f2 := Printf.mkSpec true 2). set (f6 := Printf.mkSpec true 6).
  set (f0 := Printf.mkSpec false 0).
  assert (forall a b c d m s u p t,
    Printf.format (lit "[%04d-%02d-%02d %02d:%02d:%02d.%06ld][%d:%lx]")
      [Printf.AInt a; Printf.AInt b; Printf.AInt c; Printf.AInt d; Printf.AInt m; Printf.AInt s; Printf.AInt u;
       Printf.AInt p; Printf.AInt t] =
    Some (lit "[" ++ Printf.pad f1 (Decimal.to_string a) ++ lit "-" ++ Printf.pad f2 (Decimal.to_string b) ++ lit "-" ++
      Printf.pad f2 (Decimal.to_string c) ++ lit " " ++ Printf.pad f2 (Decimal.to_string d) ++ lit ":" ++
      Printf.pad f2 (Decimal.to_string m) ++ lit ":" ++ Printf.pad f2 (Decimal.to_string s) ++ lit "." ++
      Printf.pad f6 (Decimal.to_string u) ++ lit "][" ++ Printf.pad f0 (Decimal.to_string p) ++ lit ":" ++
      Printf.pad f0 (Printf.hex t) ++ lit "]" ++ [])) as E by reflexivity.
  rewrite E. cbn [mbind option_bind]. eexists. split; [done|]. apply plain_snprintf.
  rewrite !Forall_app. split_and!;
    first [apply plain_lit; reflexivity|apply plain_pad; apply plain_to_string|apply plain_pad; apply plain_hex].
Qed.

Lemma plain_description l : Forall plain (kLevel2Description l).
Proof. destruct l; apply plain_lit; reflexivity. Qed.

End Logger.

(** ** Streaming logs: log_capture.{h,cc} *)
Module LogCapture.

Record t := mk {
  sstream_ : bytes;
  level_ : Level;
  file_ : bytes;
  line_ : Z;
  function_ : bytes;
  check_expression_ : bytes;
}.

Definition make (level : Level) (file : bytes) (line : Z) (function check_expression : bytes) : t :=
  mk [] level file line function check_expression.

(** [stream() << s] *)
Definition stream (s : bytes) (c : t) : t :=
  mk (sstream_ c ++ s) (level_ c) (file_ c) (line_ c) (function_ c) (check_expression_ c).

Definition fmt : bytes := lit "[%s:%d][%s] %s".

(** The destructor *)
Definition destroy (NDEBUG : bool) (e : Logger.env) (c : t) (w : Logger.world) : option Logger.world :=
  let c1 :=
    if decide (level_ c = FATAL_LEVEL) then
      if decide (check_expression_ c = []) then c
      else stream ([LF; ascii_of_nat 9] ++ lit "CHECK(" ++ check_expression_ c ++ lit ") fail.") c
    else c in
  Logger.Log NDEBUG e (level_ c) fmt
    [Printf.AStr (file_ c); Printf.AInt (line_ c); Printf.AStr (function_ c); Printf.AStr (sstream_ c1)] w.

End LogCapture.

(** ** What a log line does *)
Section delivery.
Context (NDEBUG : bool) (e : Logger.env).

(** The effect of one line below [FATAL_LEVEL]. *)
Definition delivered (level : Level) (text : bytes) (w : Logger.world) : Logger.world :=
  let l := Logger.logger w in
  let out := if Logger.is_console_output_ l || (level_int ERROR_LEVEL <=? level_int level)
             then text ++ [LF] else [] in
  match Logger.file_appender_ l with
  | None => Logger.printf out w
  | Some a =>
      let '(a1, f1) :=
        FileAppender.Write (Logger.rename_ok (Logger.file_io e)) (Logger.open_ok (Logger.file_io e))
          (Logger.clock (Logger.file_io e)) text a (Logger.disk w) in
      Logger.mkWorld
        (Logger.mk (Logger.is_console_output_ l) (Some a1) (Logger.crash_file_appender_ l) (Logger.priority_ l)
           (Logger.receive_fatal_ l))
        f1 (Logger.console w ++ out) (Logger.exited w) (Logger.t_traceid w)
  end.

Lemma pad_nothing s : Printf.pad (Printf.mkSpec false 0) s = s.
Proof.
  unfold Printf.pad. cbn [Printf.zero Printf.width].
  replace (Z.to_nat (0 - vlen s)) with 0%nat by (unfold vlen; lia). done.
Qed.

(** The text of a captured line. *)
Definition place_and_text (file : bytes) (line : Z) (function text : bytes) : bytes :=
  lit "[" ++ c_str file ++ lit ":" ++ Decimal.to_string line ++ lit "][" ++ c_str function ++ lit "] " ++ c_str text.

Lemma capture_format file line function text tail :
  tail = [] \/ tail = [LF] ->
  Printf.format (LogCapture.fmt ++ tail)
    [Printf.AStr file; Printf.AInt line; Printf.AStr function; Printf.AStr text] =
  Some (place_and_text file line function text ++ tail).
Proof.
  set (p := Printf.pad (Printf.mkSpec false 0)).
  assert (forall tl, tl = [] \/ tl = [LF] -> Printf.format (LogCapture.fmt ++ tl)
    [Printf.AStr file; Printf.AInt line; Printf.AStr function; Printf.AStr text] =
    Some (lit "[" ++ p (c_str file) ++ lit ":" ++ p (Decimal.to_string line) ++ lit "][" ++ p (c_str function) ++
          lit "] " ++ p (c_str text) ++ tl)) as E by (intros tl [-> | ->]; reflexivity).
  intros Ht. rewrite (E tail Ht). unfold p, place_and_text. rewrite !pad_nothing. by rewrite <- !app_assoc.
Qed.

Lemma Log_captured level file line function text prefix w :
  level <> FATAL_LEVEL -> level_int (Logger.priority_ (Logger.logger w)) <= level_int level ->
  Logger.GenLogPrefix e (Logger.t_traceid w) = Some prefix ->
  Logger.Log NDEBUG e level LogCapture.fmt
    [Printf.AStr file; Printf.AInt line; Printf.AStr function; Printf.AStr text] w =
  Some (delivered level (prefix ++ kLevel2Description level ++ place_and_text file line function text) w).
Proof.
  intros Hl Hp Hpre. destruct (Logger.GenLogPrefix_plain e (Logger.t_traceid w)) as (p & Ep & Hplain).
  assert (p = prefix) as -> by congruence.
  assert (Forall Logger.plain (prefix ++ kLevel2Description level)) as Hpl
    by (apply Forall_app; split; [done|apply Logger.plain_description]).
  apply Logger.plain_not_elem in Hpl as [Hpc Hnul].
  set (args := [_; _; _; _]).
  assert (forall tail, tail = [] \/ tail = [LF] ->
    Printf.format ((prefix ++ kLevel2Description level ++ LogCapture.fmt) ++ tail) args =
    Some ((prefix ++ kLevel2Description level ++ place_and_text file line function text) ++ tail)) as F.
  { intros tail Ht. rewrite (app_assoc prefix), <- app_assoc, Printf.format_prefix by done.
    unfold args. rewrite capture_format by done. cbn [mbind option_bind]. by rewrite <- !app_assoc. }
  unfold Logger.Log. rewrite (proj2 (Z.ltb_ge _ _) Hp), Ep. cbn [mbind option_bind].
  rewrite !(decide_False (P := level = FATAL_LEVEL)) by done. rewrite app_nil_r.
  change (c_str LogCapture.fmt) with LogCapture.fmt.
  assert (level_int FATAL_LEVEL <=? level_int level = false) as -> by (by destruct level).
  pose proof (F [LF] (or_intror eq_refl)) as F1. pose proof (F [] (or_introl eq_refl)) as F0.
  rewrite !app_nil_r in F0. rewrite F1. unfold Logger.write_file, delivered.
  destruct (Logger.is_console_output_ (Logger.logger w) || _); cbn [mbind option_bind Logger.printf Logger.logger];
    destruct (Logger.file_appender_ (Logger.logger w)) as [a|]; rewrite ?F0; cbn [mbind option_bind Logger.disk];
    try destruct (FileAppender.Write _ _ _ _ _ _) as [a1 f1]; cbn [mbind option_bind]; unfold Logger.printf;
    rewrite (decide_False (P := level = FATAL_LEVEL)) by done; rewrite ?app_nil_r; try done; by destruct w.
Qed.

(** A streamed log line that passes the priority reaches its sinks verbatim,
    whatever characters it holds: the console if the logger has no file yet or
    the level is at least [ERROR_LEVEL], and the log file if there is one, with
    the time, level and place in front; nothing else changes.  A line below the
    priority does nothing at all. *)
Theorem captured_line_delivered (level : Level) (file : bytes) (line : Z) (function check text : bytes)
    (w : Logger.world) :
  level <> FATAL_LEVEL ->
  let c := LogCapture.stream text (LogCapture.make level file line function check) in
  exists prefix, Logger.GenLogPrefix e (Logger.t_traceid w) = Some prefix /\
  LogCapture.destroy NDEBUG e c w =
    Some (if level_int level <? level_int (Logger.priority_ (Logger.logger w)) then w
          else delivered level (prefix ++ kLevel2Description level ++ place_and_text file line function text) w).
Proof.
  intros Hl c. destruct (Logger.GenLogPrefix_plain e (Logger.t_traceid w)) as (prefix & Ep & _).
  exists prefix. split; [done|]. unfold LogCapture.destroy, c. cbn [LogCapture.stream LogCapture.make LogCapture.level_].
  rewrite decide_False by done. cbn [LogCapture.file_ LogCapture.line_ LogCapture.function_ LogCapture.sstream_ app].
  destruct (Z.ltb_spec (level_int level) (level_int (Logger.priority_ (Logger.logger w)))) as [Hlt|Hge].
  - unfold Logger.Log. by rewrite (proj2 (Z.ltb_lt _ _) Hlt).
  - by apply Log_captured.
Qed.

End delivery.

(** A logger as it is before [Init], on an empty disk. *)
Definition sample_world : Logger.world := Logger.mkWorld Logger.make (FileAppender.mkFs ∅ ∅) [] false 255.

Definition sample_io : Logger.io := Logger.mkIo (FileAppender.mkTm 14 2 3 122) true true.

Definition sample_env (frames : list StackDumper.frame) : Logger.env :=
  Logger.mkEnv (FileAppender.mkTm 14 2 3 122) 5 9 1234 77 sample_io sample_io sample_io sample_io frames (fun _ => None).

Lemma captured_line_delivered_witness :
  exists prefix, Logger.GenLogPrefix (sample_env []) 255 = Some prefix /\
  LogCapture.destroy true (sample_env [])
    (LogCapture.stream (lit "100%s done") (LogCapture.make INFO_LEVEL (lit "a.cc") 7 (lit "f") [])) sample_world =
    Some (delivered (sample_env []) INFO_LEVEL
            (prefix ++ lit "[INFO]" ++ place_and_text (lit "a.cc") 7 (lit "f") (lit "100%s done")) sample_world).
Proof.
  apply (captured_line_delivered true (sample_env []) INFO_LEVEL (lit "a.cc") 7 (lit "f") [] (lit "100%s done")
           sample_world). discriminate.
Defined.

(** A world whose logger writes to a file. *)
Definition file_world : Logger.world :=
  Logger.mkWorld
    (Logger.mk false (Some (FileAppender.mk (Some 0%nat) (lit ".") (lit "x") (lit "./x") 0 2022040214 true [])) None
       DEBUG_LEVEL false)
    (FileAppender.mkFs {[lit "./x" := 0%nat]} {[0%nat := []]}) [] false 255.

(** [Backtrace] passes the dumped frames to the appenders as the format.  A
    frame whose function name has a ['%'] makes them read arguments that are not
    there; the same frame on the console is printed as data. *)
Theorem backtrace_used_as_format :
  let fr := StackDumper.mkFrame (Some (lit "m.cc")) 3 (Some (lit "Mod::operator%(int)")) in
  Logger.Backtrace (sample_env [fr; fr; fr; fr]) file_world = None /\
  (Logger.console <$> Logger.Backtrace (sample_env [fr; fr; fr; fr]) sample_world) =
    Some ([ascii_of_nat 9; ascii_of_nat 9] ++ lit "#0 [m.cc:3][Mod::operator%(int)]" ++ [LF]).
Proof. split; vm_compute; reflexivity. Qed.

(** ** Fatal lines *)

(** What the sinks leave alone. *)
Definition same_flags (w w' : Logger.world) : Prop :=
  Logger.exited w' = Logger.exited w /\
  Logger.receive_fatal_ (Logger.logger w') = Logger.receive_fatal_ (Logger.logger w).

#[local] Instance same_flags_trans : Transitive same_flags.
Proof. intros x y z [? ?] [? ?]. split; congruence. Qed.

Lemma write_file_flags i fmt args w w' : Logger.write_file i fmt args w = Some w' -> same_flags w w'.
Proof.
  unfold Logger.write_file. destruct (Logger.file_appender_ _); [|by intros [= <-]].
  destruct (Printf.format _ _); [|done]. simpl. destruct (FileAppender.Write _ _ _ _ _ _). by intros [= <-].
Qed.

Lemma write_crash_flags i fmt args w w' : Logger.write_crash i fmt args w = Some w' -> same_flags w w'.
Proof.
  unfold Logger.write_crash. destruct (Logger.crash_file_appender_ _); [|by intros [= <-]].
  destruct (Printf.format _ _); [|done]. simpl. destruct (FileAppender.Write _ _ _ _ _ _). by intros [= <-].
Qed.

Lemma Backtrace_flags e w w' : Logger.Backtrace e w = Some w' -> same_flags w w'.
Proof.
  unfold Logger.Backtrace. destruct (StackDumper.Dump _ _ _ _) as [[? fs] ?]. cbn zeta.
  set (w1 := Logger.printf _ w). destruct (Logger.write_file _ _ _ w1) as [w2|] eqn:E2; [|done].
  cbn [mbind option_bind]. intros E3. apply write_file_flags in E2. apply write_crash_flags in E3.
  etrans; [|exact E3]. exact E2.
Qed.

(** A FATAL line (also of a failed CHECK) ends a release process the first time
    and only then, a debug process never: there the statements after it run. *)
Theorem fatal_line_exits (NDEBUG : bool) (e : Logger.env) (fmt : bytes) (args : list Printf.arg) (w w' : Logger.world) :
  Logger.Log NDEBUG e FATAL_LEVEL fmt args w = Some w' ->
  Logger.exited w' = Logger.exited w || (NDEBUG && negb (Logger.receive_fatal_ (Logger.logger w))) /\
  Logger.receive_fatal_ (Logger.logger w') = Logger.receive_fatal_ (Logger.logger w) || NDEBUG.
Proof.
  unfold Logger.Log. rewrite (proj2 (Z.ltb_ge _ _)) by (by destruct (Logger.priority_ _)).
  destruct (Logger.GenLogPrefix _ _) as [prefix|]; [|done]. cbn [mbind option_bind]. rewrite orb_true_r.
  rewrite !decide_True by done. set (f := prefix ++ _). destruct (Printf.format (f ++ [LF]) args) as [text|]; [|done].
  cbn [mbind option_bind]. set (w1 := Logger.printf text w).
  destruct (Logger.write_file _ f args w1) as [w2|] eqn:E2; [|done]. cbn [mbind option_bind].
  change (level_int FATAL_LEVEL <=? level_int FATAL_LEVEL) with true. cbn [mbind option_bind].
  destruct (Logger.write_crash _ f args w2) as [w3|] eqn:E3; [|done]. cbn [mbind option_bind].
  apply write_file_flags in E2. apply write_crash_flags in E3.
  assert (same_flags w w3) as [Hx Hf] by (transitivity w2; [exact E2|exact E3]). clear E2 E3.
  destruct NDEBUG; rewrite ?andb_true_l, ?andb_false_l, ?orb_true_r, ?orb_false_r.
  - rewrite <- Hf, <- Hx. destruct (Logger.receive_fatal_ (Logger.logger w3)) eqn:Er; cbn [negb].
    + intros [= <-]. simpl. by rewrite orb_false_r.
    + destruct (Logger.Backtrace _ _) as [w5|] eqn:E5; [|done]. cbn [mbind option_bind]. intros [= <-].
      apply Backtrace_flags in E5 as [_ E5]. simpl in *. by rewrite orb_true_r.
  - intros E5%Backtrace_flags. destruct E5. split; congruence.
Qed.

Lemma fatal_line_exits_witness :
  Logger.exited (default sample_world (Logger.Log true (sample_env []) FATAL_LEVEL (lit "bye") [] sample_world)) = true /\
  Logger.receive_fatal_ (Logger.logger
    (default sample_world (Logger.Log true (sample_env []) FATAL_LEVEL (lit "bye") [] sample_world))) = true.
Proof.
  apply (fatal_line_exits true (sample_env []) (lit "bye") [] sample_world
           (default sample_world (Logger.Log true (sample_env []) FATAL_LEVEL (lit "bye") [] sample_world))).
  vm_compute. reflexivity.
Defined.

(** ** Key/value logs: log_kv.{h,cc} *)
Module LoggerKV.

Definition kSeparator : bytes := lit "||".

Record t := mk { sstream_ : bytes; level_ : Level; file_ : bytes; line_ : Z; function_ : bytes }.

Definition make (level : Level) (file : bytes) (line : Z) (function prefix : bytes) : t :=
  mk prefix level file line function.

Definition put (s : bytes) (c : t) : t := mk (sstream_ c ++ s) (level_ c) (file_ c) (line_ c) (function_ c).

(** [val] as [operator<<] prints it *)
Definition LogKV (key val : bytes) (c : t) : t := put (kSeparator ++ key ++ lit "=" ++ val) c.

Definition LogKVFormat (format : bytes) (args : list Printf.arg) (c : t) : option t :=
  s ← Printf.format format args; Some (put (lit "||" ++ snprintf 200 s) c).

Definition destroy (NDEBUG : bool) (e : Logger.env) (c : t) (w : Logger.world) : option Logger.world :=
  Logger.Log NDEBUG e (level_ c) LogCapture.fmt
    [Printf.AStr (file_ c); Printf.AInt (line_ c); Printf.AStr (function_ c); Printf.AStr (sstream_ c)] w.

(** The fields of a key/value line, one after the other. *)
Fixpoint log_all (kvs : list (bytes * bytes)) (c : t) : t :=
  match kvs with [] => c | (k, v) :: kvs' => log_all kvs' (LogKV k v c) end.

Definition fields (kvs : list (bytes * bytes)) : bytes := mjoin ((fun '(k, v) => lit "||" ++ k ++ lit "=" ++ v) <$> kvs).

Lemma log_all_text kvs : forall c,
  log_all kvs c = mk (sstream_ c ++ fields kvs) (level_ c) (file_ c) (line_ c) (function_ c).
Proof.
  induction kvs as [|[k v] kvs IH]; intros c; cbn [log_all].
  - unfold fields. simpl. rewrite app_nil_r. by destruct c.
  - rewrite IH. unfold LogKV, put, kSeparator. cbn [sstream_ level_ file_ line_ function_]. unfold fields.
    rewrite fmap_cons. cbn [mjoin list_join]. by rewrite <- !app_assoc.
Qed.

(** A key/value line that passes the priority is delivered as [prefix||k=v||...],
    whatever the keys and values hold. *)
Theorem kv_line_delivered (NDEBUG : bool) (e : Logger.env) (level : Level) (file : bytes) (line : Z)
    (function prefix : bytes) (kvs : list (bytes * bytes)) (w : Logger.world) :
  level <> FATAL_LEVEL -> level_int (Logger.priority_ (Logger.logger w)) <= level_int level ->
  exists front, Logger.GenLogPrefix e (Logger.t_traceid w) = Some front /\
  destroy NDEBUG e (log_all kvs (make level file line function prefix)) w =
    Some (delivered e level
            (front ++ kLevel2Description level ++ place_and_text file line function (prefix ++ fields kvs)) w).
Proof.
  intros Hl Hp. destruct (Logger.GenLogPrefix_plain e (Logger.t_traceid w)) as (front & Ef & _).
  exists front. split; [done|]. rewrite log_all_text. unfold destroy. by apply Log_captured.
Qed.

End LoggerKV.

(** ** The macros of log.h *)
Module LogMacros.

(** [__LOG_EVERY_N__]: the counter and whether the line is logged *)
Definition every_n (N cnt : Z) : Z * bool :=
  let cnt := u32 (cnt + 1) in
  let cnt := if N <? cnt then u32 (cnt - N) else cnt in
  (cnt, cnt =? 1).

(** [__LOG_FIRST_N__] *)
Definition first_n (N cnt : Z) : Z * bool :=
  let cnt := u32 (cnt + 1) in (cnt, cnt <=? N).

(** [__LOGGER_LOG__(level, fmt, args)] at a place in the source *)
Definition LOGGER_LOG (NDEBUG : bool) (e : Logger.env) (l : Level) (file : bytes) (line : Z) (function : bytes)
    (fmt : bytes) (args : list Printf.arg) (w : Logger.world) : option Logger.world :=
  Logger.Log NDEBUG e l (lit "[%s:%d][%s] " ++ fmt)
    ([Printf.AStr file; Printf.AInt line; Printf.AStr function] ++ args) w.

(** [CHECK_LT] and its relatives: the check fails and logs when the negated
    comparison holds. *)
Inductive comparison := LT | LE | GT | GE | EQ | NE.

Definition negated (c : comparison) (left right : Z) : bool :=
  match c with
  | LT => right <=? left | LE => right <? left | GT => left <=? right
  | GE => left <? right | EQ => negb (left =? right) | NE => left =? right
  end.

Definition symbol (c : comparison) : bytes :=
  match c with
  | LT => lit " < " | LE => lit " <= " | GT => lit " > " | GE => lit " >= " | EQ => lit " == " | NE => lit " != "
  end.

Definition CHECK_CMP (NDEBUG : bool) (e : Logger.env) (c : comparison) (left_text right_text : bytes)
    (left right : Z) (file : bytes) (line : Z) (function message : bytes) (w : Logger.world) : option Logger.world :=
  if negated c left right
  then LogCapture.destroy NDEBUG e
         (LogCapture.stream message
            (LogCapture.make FATAL_LEVEL file line function (left_text ++ symbol c ++ right_text))) w
  else Some w.

(** A place in the source: [__FILE__], [__LINE__] and [__FUNCTION__]. *)
Record place := mkPlace { file : bytes; line : Z; function : bytes }.

(** [__LOGGER_LOG_WITH_TAG__] *)
Definition LOGGER_LOG_WITH_TAG (NDEBUG : bool) (e : Logger.env) (l : Level) (at_ : place) (tag fmt : bytes)
    (args : list Printf.arg) (w : Logger.world) : option Logger.world :=
  Logger.Log NDEBUG e l (lit "[%s:%d][%s][tag=%s] " ++ fmt)
    ([Printf.AStr (file at_); Printf.AInt (line at_); Printf.AStr (function at_); Printf.AStr tag] ++ args) w.

(** [LogDebug], [LogInfo], [LogWarn], [LogError] and [LogFatal], by their level *)
Definition LogFormatted (NDEBUG : bool) (e : Logger.env) (l : Level) (at_ : place) (fmt : bytes) (args : list Printf.arg)
    (w : Logger.world) : option Logger.world :=
  LOGGER_LOG NDEBUG e l (file at_) (line at_) (function at_) fmt args w.

Definition LogErrorWithTag (NDEBUG : bool) (e : Logger.env) (at_ : place) (tag fmt : bytes) (args : list Printf.arg)
    (w : Logger.world) : option Logger.world :=
  LOGGER_LOG_WITH_TAG NDEBUG e ERROR_LEVEL at_ tag fmt args w.

(** [__LOGGER_LOG_CAPTURE_CHECK__(level, expression) << message] as a full expression:
    the temporary is destroyed at its end *)
Definition LOGGER_LOG_CAPTURE_CHECK (NDEBUG : bool) (e : Logger.env) (l : Level) (at_ : place) (expression message : bytes)
    (w : Logger.world) : option Logger.world :=
  LogCapture.destroy NDEBUG e
    (LogCapture.stream message (LogCapture.make l (file at_) (line at_) (function at_) expression)) w.

(** [LOG_DEBUG << message] and the other levels *)
Definition LOGGER_LOG_CAPTURE (NDEBUG : bool) (e : Logger.env) (l : Level) (at_ : place) (message : bytes)
    (w : Logger.world) : option Logger.world :=
  LOGGER_LOG_CAPTURE_CHECK NDEBUG e l at_ [] message w.

(** [LOG_INFO_IF(cond) << message] and the other levels *)
Definition LOG_IF (NDEBUG : bool) (e : Logger.env) (l : Level) (cond : bool) (at_ : place) (message : bytes)
    (w : Logger.world) : option Logger.world :=
  if cond then LOGGER_LOG_CAPTURE NDEBUG e l at_ message w else Some w.

(** [LogDebugKV(prefix).LogKV(k, v)...;] and the other levels *)
Definition LOGGER_LOG_KV (NDEBUG : bool) (e : Logger.env) (l : Level) (at_ : place) (prefix : bytes)
    (kvs : list (bytes * bytes)) (w : Logger.world) : option Logger.world :=
  LoggerKV.destroy NDEBUG e (LoggerKV.log_all kvs (LoggerKV.make l (file at_) (line at_) (function at_) prefix)) w.

(** [LOG_INFO_EVERY(N) << message] and [LOG_INFO_FIRST_N(N) << message], with the
    static counter *)
Definition LOG_EVERY (NDEBUG : bool) (e : Logger.env) (l : Level) (N : Z) (at_ : place) (message : bytes)
    (cnt : Z) (w : Logger.world) : option (Z * Logger.world) :=
  let '(cnt', b) := every_n N cnt in w' ← LOG_IF NDEBUG e l b at_ message w; Some (cnt', w').

Definition LOG_FIRST_N (NDEBUG : bool) (e : Logger.env) (l : Level) (N : Z) (at_ : place) (message : bytes)
    (cnt : Z) (w : Logger.world) : option (Z * Logger.world) :=
  let '(cnt', b) := first_n N cnt in w' ← LOG_IF NDEBUG e l b at_ message w; Some (cnt', w').

(** [CHECK(expression)] and [CHECK_NOTNULL(expression)] *)
Definition CHECK (NDEBUG : bool) (e : Logger.env) (holds : bool) (text : bytes) (at_ : place) (message : bytes)
    (w : Logger.world) : option Logger.world :=
  if negb holds then LOGGER_LOG_CAPTURE_CHECK NDEBUG e FATAL_LEVEL at_ text message w else Some w.

Definition CHECK_NOTNULL (NDEBUG : bool) (e : Logger.env) (null : bool) (text : bytes) (at_ : place) (message : bytes)
    (w : Logger.world) : option Logger.world :=
  if null then LOGGER_LOG_CAPTURE_CHECK NDEBUG e FATAL_LEVEL at_ (text ++ lit " != nullptr") message w else Some w.

(** *** Counting *)

(** What the first [k] passes over a counting macro log. *)
Fixpoint passes (f : Z -> Z * bool) (k : nat) (cnt : Z) : list bool :=
  match k with
  | O => []
  | S k' => let '(cnt', b) := f cnt in b :: passes f k' cnt'
  end.

Fixpoint counter (f : Z -> Z * bool) (k : nat) (cnt : Z) : Z :=
  match k with O => cnt | S k' => counter f k' (fst (f cnt)) end.

Lemma passes_lookup f i : forall k cnt, (i < k)%nat -> passes f k cnt !! i = Some (snd (f (counter f i cnt))).
Proof.
  induction i as [|i IH]; intros [|k] cnt H; try lia; simpl; destruct (f cnt) as [c b] eqn:E; simpl.
  - by rewrite ?E.
  - rewrite IH by lia. done.
Qed.

Lemma every_n_counter N i : 1 <= N < 2 ^ 32 - 1 -> forall c, 0 <= c <= N ->
  counter (every_n N) i c = if decide (i = 0%nat) then c else (c + Z.of_nat i - 1) mod N + 1.
Proof.
  intros HN. induction i as [|i IH]; intros c Hc; [done|]. cbn [counter].
  assert (fst (every_n N c) = c mod N + 1) as Ef.
  { unfold every_n. rewrite (wrapu_id 32 (c + 1)) by (unfold in_u; lia). simpl fst.
    destruct (Z.ltb_spec N (c + 1)).
    - assert (c = N) as -> by lia. rewrite wrapu_id by (unfold in_u; lia). rewrite Z.mod_same by lia. lia.
    - rewrite Z.mod_small by lia. done. }
  rewrite Ef, IH by (pose proof (Z.mod_pos_bound c N); lia).
  rewrite (decide_False (P := S i = 0%nat)) by done. case_decide as H0.
  - subst i. simpl. f_equal. f_equal. lia.
  - replace (c mod N + 1 + Z.of_nat i - 1) with (c mod N + Z.of_nat i) by lia.
    rewrite Zplus_mod_idemp_l. f_equal. f_equal. lia.
Qed.

(** The [LOG_..._EVERY(N)] macros log the passes 0, N, 2N, ... and no others,
    for every [N] below the counter's range. *)
Theorem every_n_logs_every_nth (N : Z) (k i : nat) :
  1 <= N < 2 ^ 32 - 1 -> (i < k)%nat ->
  passes (every_n N) k 0 !! i = Some (bool_decide (Z.of_nat i mod N = 0)).
Proof.
  intros HN Hi. rewrite passes_lookup by done. f_equal.
  rewrite every_n_counter by lia. unfold every_n. simpl snd.
  assert (exists c, 0 <= c <= N /\ c mod N = Z.of_nat i mod N /\
    (if decide (i = 0%nat) then 0 else (0 + Z.of_nat i - 1) mod N + 1) = c) as (c & Hc & Hm & ->).
  { case_decide as H0.
    - subst i. exists 0. split_and!; [lia|lia|done|done].
    - pose proof (Z.mod_pos_bound (0 + Z.of_nat i - 1) N ltac:(lia)). eexists. split_and!; [| | |done]; [lia|lia|].
      rewrite Zplus_mod_idemp_l. f_equal. lia. }
  rewrite (wrapu_id 32 (c + 1)) by (unfold in_u; lia). rewrite <- Hm.
  destruct (Z.ltb_spec N (c + 1)).
  - assert (c = N) as -> by lia. rewrite wrapu_id, Z.mod_same by (unfold in_u; lia).
    replace (N + 1 - N) with 1 by lia. done.
  - rewrite (Z.mod_small c) by lia. destruct (Z.eqb_spec (c + 1) 1); symmetry;
      [apply bool_decide_eq_true|apply bool_decide_eq_false]; lia.
Qed.

Lemma every_n_logs_every_nth_witness :
  passes (every_n 3) 8 0 !! 6%nat = Some (bool_decide (Z.of_nat 6 mod 3 = 0)).
Proof. apply (every_n_logs_every_nth 3 8 6); lia. Defined.

Lemma first_n_counter N i c : 0 <= c < 2 ^ 32 -> counter (first_n N) i c = (c + Z.of_nat i) mod 2 ^ 32.
Proof.
  revert c. induction i as [|i IH]; intros c Hc; cbn [counter].
  - rewrite Z.mod_small by lia. lia.
  - change (fst (first_n N c)) with (wrapu 32 (c + 1)).
    rewrite IH by (apply (wrapu_range 32); lia). unfold wrapu. rewrite Zplus_mod_idemp_l. f_equal. lia.
Qed.

(** The [LOG_..._FIRST_N(N)] macros log the first [N] passes, but the counter
    has 32 bits: after [2^32 - 1] passes they log again. *)
Theorem first_n_logs_first_passes (N : Z) (k i : nat) :
  (i < k)%nat -> passes (first_n N) k 0 !! i = Some ((Z.of_nat i + 1) mod 2 ^ 32 <=? N).
Proof.
  intros Hi. rewrite passes_lookup by done. f_equal. rewrite first_n_counter by lia.
  unfold first_n. simpl snd. unfold wrapu. rewrite Zplus_mod_idemp_l, Z.add_0_l. done.
Qed.

Lemma first_n_logs_first_passes_witness :
  passes (first_n 2) 5 0 !! 2%nat = Some ((Z.of_nat 2 + 1) mod 2 ^ 32 <=? 2).
Proof. apply (first_n_logs_first_passes 2 5 2). lia. Defined.

End LogMacros.
