(* ===== verification/LoggerRun.v ===== *)
(** * From the configuration to the log files (logger/logger.cc, log_capture.cc, file_appender.cc)

    The logger, its front end and its files together: a process reads its
    configuration with [Logger::Init] and then runs streaming log statements, one
    after the other.  The theorem says what is in every file and on the console
    afterwards. *)

From S2P Require Import Prelude StdMap Decimal Printf FileAppender Backtrace Logger.

Module LoggerRun.

(** A log statement: [LOG_INFO << message], with where and when it runs. *)
Record entry := mkEntry {
  moment : Logger.env;
  level : Level;
  file : bytes;
  line : Z;
  function : bytes;
  message : bytes;
}.

Definition statement (NDEBUG : bool) (x : entry) (w : Logger.world) : option Logger.world :=
  LogCapture.destroy NDEBUG (moment x)
    (LogCapture.stream (message x) (LogCapture.make (level x) (file x) (line x) (function x) [])) w.

Fixpoint run (NDEBUG : bool) (xs : list entry) (w : Logger.world) : option Logger.world :=
  match xs with
  | [] => Some w
  | x :: xs' => w1 ← statement NDEBUG x w; run NDEBUG xs' w1
  end.

(** A process before [Init], on an empty disk; [tr] is its trace id. *)
Definition process (tr : Z) : Logger.world := Logger.mkWorld Logger.make (FileAppender.mkFs ∅ ∅) [] false tr.

(** ** What should come out *)

(** The time its write reads, which may be later than the one in front of the line. *)
Definition time_of (x : entry) : FileAppender.tm := Logger.clock (Logger.file_io (moment x)).

Definition hour_of (x : entry) : Z := FileAppender.GenHourSuffix (time_of x).

Definition text_of (tr : Z) (x : entry) : bytes :=
  default [] (Logger.GenLogPrefix (moment x) tr) ++ kLevel2Description (level x) ++
  place_and_text (file x) (line x) (function x) (message x).

Definition passes (p : Level) (x : entry) : bool := level_int p <=? level_int (level x).

(** The later of two times, by the hour. *)
Definition later (t1 t2 : FileAppender.tm) : FileAppender.tm :=
  if FileAppender.GenHourSuffix t1 <? FileAppender.GenHourSuffix t2 then t2 else t1.

(** The lines with the hours of their files: the hour of the write or, if the clock
    has gone back, the latest hour so far ([cur] at the beginning). *)
Fixpoint to_files (p : Level) (tr : Z) (cur : FileAppender.tm) (xs : list entry) : list (FileAppender.tm * bytes) :=
  match xs with
  | [] => []
  | x :: xs' =>
      if passes p x then (later cur (time_of x), text_of tr x) :: to_files p tr (later cur (time_of x)) xs'
      else to_files p tr cur xs'
  end.

Definition to_console (p : Level) (tr : Z) (xs : list entry) : bytes :=
  mjoin ((fun x => text_of tr x ++ [LF]) <$>
         base.filter (fun x => passes p x = true /\ passes ERROR_LEVEL x = true) xs).

(** The priority, the file and the retention a configuration asks for. *)
Definition priority_of (g : Logger.toml) : Level :=
  match Logger.get_int g (lit "Level") with
  | Some 1 => INFO_LEVEL | Some 2 => WARN_LEVEL | Some 3 => ERROR_LEVEL | _ => DEBUG_LEVEL
  end.

Definition path_in (g : Logger.toml) (name : bytes) : bytes :=
  let dir := default (lit "./log") (Logger.get_string g (lit "Directory")) in
  (if decide (dir = []) then lit "." else dir) ++ lit "/" ++ name.

Definition retain_of (g : Logger.toml) : Z := default 0 (Logger.get_int g (lit "RetainHours")).

Definition calm (x : entry) : Prop :=
  level x <> FATAL_LEVEL /\ Logger.rename_ok (Logger.file_io (moment x)) = true /\
  Logger.open_ok (Logger.file_io (moment x)) = true /\ in_s 64 (hour_of x).

(** ** The state while the statements run *)

Definition crash_path (a : FileAppender.t) : bytes := FileAppender.file_path_ a ++ lit ".fatal".

Record logging (p : Level) (tr : Z) (hs : list Z) (ws : list (FileAppender.tm * bytes)) (out : bytes)
    (a : FileAppender.t) (w : Logger.world) : Prop := {
  l_file : Logger.file_appender_ (Logger.logger w) = Some a;
  l_quiet : Logger.is_console_output_ (Logger.logger w) = false;
  l_priority : Logger.priority_ (Logger.logger w) = p;
  l_trace : Logger.t_traceid w = tr;
  l_holds : FileAppender.holds hs ws a (Logger.disk w);
  l_console : Logger.console w = out;
  l_alive : Logger.exited w = false;
  l_crash : FileAppender.content (Logger.disk w) (crash_path a) = Some [];
}.

Lemma crash_path_apart a : FileAppender.apart (crash_path a) a.
Proof.
  unfold crash_path. split; [intros E; apply (f_equal length) in E; rewrite length_app in E; simpl in E; lia|].
  intros h E. unfold FileAppender.old_path in E. apply app_inv_head in E. injection E as E.
  assert ("f"%char ∈ Decimal.to_string h) as Hf by (rewrite <- E; apply list_elem_of_here).
  destruct (Decimal.to_string_digits _ _ Hf) as [?|[d Hd]]; [done|by vm_compute in Hd].
Qed.

Lemma statement_text NDEBUG x w :
  level x <> FATAL_LEVEL ->
  statement NDEBUG x w =
    Some (if passes (Logger.priority_ (Logger.logger w)) x
          then delivered (moment x) (level x) (text_of (Logger.t_traceid w) x) w else w).
Proof.
  intros Hl. unfold statement, LogCapture.destroy. cbn [LogCapture.stream LogCapture.make LogCapture.level_].
  rewrite decide_False by done. cbn [LogCapture.file_ LogCapture.line_ LogCapture.function_ LogCapture.sstream_ app].
  unfold passes. destruct (Z.leb_spec (level_int (Logger.priority_ (Logger.logger w))) (level_int (level x))) as [Hp|Hp].
  - destruct (Logger.GenLogPrefix_plain (moment x) (Logger.t_traceid w)) as (prefix & Ep & _).
    unfold text_of. rewrite Ep. by apply Log_captured.
  - unfold Logger.Log. by rewrite (proj2 (Z.ltb_lt _ _) Hp).
Qed.

Lemma hour_later t1 t2 :
  FileAppender.GenHourSuffix (later t1 t2) = Z.max (FileAppender.GenHourSuffix t1) (FileAppender.GenHourSuffix t2).
Proof. unfold later. case_test; breflect; lia. Qed.

Lemma logging_step NDEBUG p tr hs ws out a w cur x (cur' := if passes p x then later cur (time_of x) else cur) :
  logging p tr hs ws out a w -> calm x -> FileAppender.last_hour_suffix_ a = FileAppender.GenHourSuffix cur ->
  exists a' w', statement NDEBUG x w = Some w' /\
  FileAppender.file_path_ a' = FileAppender.file_path_ a /\
  FileAppender.last_hour_suffix_ a' = FileAppender.GenHourSuffix cur' /\
  logging p tr (if passes p x then FileAppender.begin (hour_of x) hs a else hs)
    (ws ++ to_files p tr cur [x]) (out ++ to_console p tr [x]) a' w'.
Proof.
  intros [Ef Eq Ep Et R Eo Ea Ec] (Hl & Hrn & Hop & Hr) Hle. rewrite (statement_text NDEBUG x w Hl), Ep, Et.
  unfold to_console. rewrite !filter_cons, !filter_nil. simpl to_files. subst cur'.
  destruct (passes p x) eqn:Hp; rewrite ?decide_True, ?(decide_False (P := false = true)) by done.
  - pose proof (FileAppender.holds_write hs ws a _ _ (later cur (time_of x)) (text_of tr x) R Hr) as Hw.
    rewrite hour_later, Hle in Hw. specialize (Hw eq_refl).
    pose proof (FileAppender.Write_apart hs ws a _ _ (text_of tr x) _ R Hr (crash_path_apart a)) as Hc.
    unfold delivered. rewrite Ef, Eq, Hrn, Hop. unfold time_of in Hw at 1, Hc.
    destruct (FileAppender.Write _ _ _ _ _ _) as [a1 f1].
    destruct Hw as [R1 El]. destruct Hc as [Ec1 Epath]. exists a1. eexists. split_and!; [done|done|by rewrite hour_later|].
    constructor; simpl; try done.
    + rewrite Eo. f_equal. unfold passes. simpl. case_decide as D.
      * destruct D as [_ ->]. simpl. by rewrite app_nil_r.
      * destruct (3 <=? level_int (level x)); [by destruct D|done].
    + replace (crash_path a1) with (crash_path a) by (unfold crash_path; congruence). congruence.
  - exists a, w. split_and!; [done|done|done|]. rewrite decide_False by (intros [? _]; done). simpl.
    rewrite !app_nil_r. by constructor.
Qed.

Lemma to_console_cons p tr x xs : to_console p tr (x :: xs) = to_console p tr [x] ++ to_console p tr xs.
Proof. unfold to_console. rewrite !filter_cons, filter_nil. case_decide; [|done]. simpl. by rewrite app_nil_r. Qed.

Definition hours_to_files (p : Level) (tr : Z) (cur : FileAppender.tm) (xs : list entry) : list Z :=
  (fun w => FileAppender.GenHourSuffix (fst w)) <$> to_files p tr cur xs.

(** The hour of a line is one that was begun. *)
Lemma later_begun hs ws a f cur now :
  FileAppender.holds hs ws a f -> FileAppender.last_hour_suffix_ a = FileAppender.GenHourSuffix cur ->
  FileAppender.GenHourSuffix (later cur now) ∈ FileAppender.begin (FileAppender.GenHourSuffix now) hs a.
Proof.
  intros R Hl. destruct (FileAppender.r_last _ _ _ _ R) as [Hin _]. unfold later, FileAppender.begin. rewrite Hl in *.
  case_test; breflect; set_solver.
Qed.

Lemma begin_mono n (hs : list Z) a h : h ∈ hs -> h ∈ FileAppender.begin n hs a.
Proof. unfold FileAppender.begin. case_test; set_solver. Qed.

Lemma logging_run NDEBUG p tr xs : forall hs ws out a w cur,
  logging p tr hs ws out a w -> Forall calm xs ->
  FileAppender.last_hour_suffix_ a = FileAppender.GenHourSuffix cur ->
  exists hs' a' w', run NDEBUG xs w = Some w' /\
  FileAppender.file_path_ a' = FileAppender.file_path_ a /\
  (forall h, h ∈ hs \/ h ∈ hours_to_files p tr cur xs -> h ∈ hs') /\
  logging p tr hs' (ws ++ to_files p tr cur xs) (out ++ to_console p tr xs) a' w'.
Proof.
  induction xs as [|x xs IH]; intros hs ws out a w cur L Hx Hcur.
  { exists hs, a, w. rewrite !app_nil_r. split_and!; [done|done| |done]. intros h [?|?%elem_of_nil]; done. }
  apply Forall_cons in Hx as [Hx Hxs]. pose proof (l_holds _ _ _ _ _ _ _ L) as R.
  destruct (logging_step NDEBUG _ _ _ _ _ _ _ _ _ L Hx Hcur) as (a1 & w1 & Es & Ep & El & L1).
  destruct (IH _ _ _ _ _ _ L1 Hxs El) as (hs' & a' & w' & Er & Ep' & Hh & L').
  exists hs', a', w'. split_and!; [|congruence| |].
  - simpl. rewrite Es. exact Er.
  - intros h Hin. apply Hh. unfold hours_to_files in *. simpl in Hin. destruct (passes p x); [|done].
    destruct Hin as [Hin|[-> |Hin]%elem_of_cons]; [left; by apply begin_mono|left; by eapply later_begun|by right].
  - rewrite to_console_cons, !app_assoc. rewrite <- app_assoc in L'. simpl in *. by destruct (passes p x).
Qed.

(** What [Init] opens first. *)
Lemma first_file dir name retain now a f :
  FileAppender.Init true true now (FileAppender.make dir name retain true) (FileAppender.mkFs ∅ ∅) = (true, a, f) ->
  FileAppender.file_path_ a = FileAppender.file_path_ (FileAppender.make dir name retain true) /\
  FileAppender.names f !! crash_path a = None.
Proof.
  unfold FileAppender.Init, FileAppender.fopen. cbn [negb FileAppender.names]. rewrite lookup_empty.
  intros [= <- <-]. split; [done|]. simpl. rewrite lookup_insert_ne, lookup_empty; [done|].
  exact (not_eq_sym (proj1 (crash_path_apart (FileAppender.make dir name retain true)))).
Qed.

(** [Init] with a file name and a disk that answers. *)
Lemma logging_init NDEBUG e src conf g name tr :
  Logger.get_string g (lit "FileName") = Some name -> retain_of g <= 0 ->
  in_s 64 (FileAppender.GenHourSuffix (Logger.clock (Logger.file_io e))) ->
  exists a w, Logger.Init NDEBUG e src conf (inl g) (Logger.mkInit true true true true) (process tr) = Some (true, w) /\
  FileAppender.file_path_ a = path_in g name /\
  FileAppender.last_hour_suffix_ a = FileAppender.GenHourSuffix (Logger.clock (Logger.file_io e)) /\
  logging (priority_of g) tr [FileAppender.GenHourSuffix (Logger.clock (Logger.file_io e))] [] [] a w.
Proof.
  intros Hname Hret Hr. unfold Logger.Init. rewrite Hname.
  destruct (Logger.ParseTomlValue (Logger.get_int g (lit "Level")) 0) as [ok lv] eqn:Elv.
  cbn [Logger.ParseTomlValue negb Logger.mkdir1 Logger.open1 Logger.mkdir2 Logger.open2].
  set (dir := snd (Logger.ParseTomlValue (Logger.get_string g (lit "Directory")) _)).
  assert (snd (Logger.ParseTomlValue (Logger.get_int g (lit "RetainHours")) 0) = retain_of g) as ->
    by (unfold retain_of; by destruct (Logger.get_int g (lit "RetainHours"))).
  destruct (FileAppender.Init true true (Logger.clock (Logger.file_io e)) _ _) as [[ok1 a1] f1] eqn:E1.
  assert (ok1 = true) as ->.
  { unfold FileAppender.Init in E1. cbn [negb] in E1. destruct (FileAppender.fopen _ _). by injection E1. }
  destruct (FileAppender.holds_init dir name (retain_of g) (Logger.clock (Logger.file_io e)) a1 f1 Hret Hr E1) as [R El].
  destruct (first_file _ _ _ _ _ _ E1) as [Epath Hnone].
  pose proof (FileAppender.fopen_holds _ _ _ _ _ R (crash_path_apart a1) Hnone) as Hc.
  assert (FileAppender.file_path_ (FileAppender.make dir (name ++ lit ".fatal") 0 false) = crash_path a1) as Ecr.
  { unfold crash_path. rewrite Epath. simpl. by rewrite <- app_assoc. }
  unfold FileAppender.Init at 1. cbn [negb]. rewrite Ecr. destruct (FileAppender.fopen _ f1) as [i f2].
  destruct Hc as [R2 Hc]. exists a1. eexists. split_and!; [done| |done|].
  - rewrite Epath. unfold path_in, FileAppender.make. subst dir. by destruct (Logger.get_string g (lit "Directory")).
  - constructor; simpl; try done. unfold priority_of. unfold Logger.ParseTomlValue in Elv.
    destruct (Logger.get_int g (lit "Level")) as [z|]; injection Elv as <- <-; [|done].
    repeat (destruct z as [|z|z]; try done).
Qed.


(** ** A process *)

Definition sample_conf : Logger.toml :=
  Logger.mkToml (fun k => if decide (k = lit "Level") then Some 1 else None)
    (fun k => if decide (k = lit "FileName") then Some (lit "x") else None).

(** The prefix is made in the hour [h], the line written in the hour [k]. *)
Definition at_hour (h k : Z) : Logger.env :=
  let i := Logger.mkIo (FileAppender.mkTm k 2 3 122) true true in
  Logger.mkEnv (FileAppender.mkTm h 2 3 122) 5 9 1234 77 i i i i [] (fun _ => None).

(** The third line is late for its hour; at the fourth the clock has gone back. *)
Definition sample_entries : list entry :=
  [mkEntry (at_hour 14 14) DEBUG_LEVEL (lit "a.cc") 7 (lit "f") (lit "quiet");
   mkEntry (at_hour 14 14) INFO_LEVEL (lit "a.cc") 8 (lit "f") (lit "100%s done");
   mkEntry (at_hour 14 15) ERROR_LEVEL (lit "a.cc") 9 (lit "f") (lit "bad");
   mkEntry (at_hour 14 14) INFO_LEVEL (lit "a.cc") 8 (lit "f") (lit "again")].

Definition sample_run : option Logger.world :=
  r ← Logger.Init true (at_hour 14 14) (lit "logger.cc") (lit "x.toml") (inl sample_conf) (Logger.mkInit true true true true)
        (process 255);
  run true sample_entries (snd r).

Example sample_run_files :
  (fun w => (FileAppender.content (Logger.disk w) (lit "./log/x.2022040214"),
             FileAppender.content (Logger.disk w) (lit "./log/x"), Logger.console w)) <$> sample_run =
  Some (Some (lit "[2022-04-02 14:05:09.001234][77:ff][INFO][a.cc:8][f] 100%s done" ++ [LF]),
        Some (lit "[2022-04-02 14:05:09.001234][77:ff][ERROR][a.cc:9][f] bad" ++ [LF] ++
              lit "[2022-04-02 14:05:09.001234][77:ff][INFO][a.cc:8][f] again" ++ [LF]),
        lit "[2022-04-02 14:05:09.001234][77:ff][ERROR][a.cc:9][f] bad" ++ [LF]).
Proof. vm_compute. reflexivity. Qed.


End LoggerRun.
