(* ===== verification/JsonMarshal.v ===== *)
(** * json_helper/{common,marshal,unmarshal}.h

    [Marshal] and [Unmarshal]: one definition per overload, templates being
    functions of the overload for the element type.  [Json::Value] belongs to
    jsoncpp, of which only the headers are here: its operations are a class, its
    documented behaviour a class of laws.  A reference to an element, passed down, is
    read, changed and written back.  [None] is an exception: a conversion out
    of range, [std::stoi] on a name that is not a number.

    The overload for [std::map<uint32_t, T>] in unmarshal.h has no definition
    here: it passes [&((&obj)[n])], a pointer to a constant pointer, to the
    pointer overload, which assigns to it; no use of it compiles. *)

From S2P Require Import Prelude StdMap Decimal.

(** ** The operations of [Json::Value] the code uses *)

Class JsonValue (V R : Type) := {
  jnull : V;
  of_int : Z -> V;            (* Json::Int, Json::Int64 *)
  of_uint : Z -> V;           (* Json::UInt, Json::UInt64 *)
  of_real : R -> V;
  of_bool : bool -> V;
  of_string : bytes -> V;
  at_index : V -> Z -> V;     (* indexing by a number *)
  put_index : V -> Z -> V -> V;
  at_key : V -> bytes -> V;   (* indexing by a name *)
  put_key : V -> bytes -> V -> V;
  append : V -> V -> V;
  size : V -> Z;
  members : V -> list bytes;  (* getMemberNames *)
  isIntegral : V -> bool;
  isDouble : V -> bool;
  isBool : V -> bool;
  isString : V -> bool;
  isArray : V -> bool;
  isObject : V -> bool;
  asInt : V -> option Z;
  asInt64 : V -> option Z;
  asUInt : V -> option Z;
  asUInt64 : V -> option Z;
  asReal : V -> option R;     (* asFloat, asDouble *)
  asBool : V -> option bool;
  asString : V -> option bytes;
}.

(** [v] is an array of [xs]; [v] is an object with the entries [m]. *)
Definition is_array {V R} `{JsonValue V R} (v : V) (xs : list V) : Prop :=
  isArray v = true /\ size v = vlen xs /\ forall i x, xs !! i = Some x -> at_index v (Z.of_nat i) = x.

Definition is_object {V R} `{JsonValue V R} (v : V) (m : list (bytes * V)) : Prop :=
  isObject v = true /\ members v = StdMap.keys m /\
  forall k x, StdMap.find k m = Some x -> at_key v k = x.

(** Documented behaviour: a null value becomes an array or an object when it is
    indexed, new elements are null, member names come in order. *)
Class JsonLaws (V R : Type) `{JsonValue V R} := {
  int_law z : isIntegral (of_int z) = true /\ (in_s 32 z -> asInt (of_int z) = Some z) /\
    (in_s 64 z -> asInt64 (of_int z) = Some z);
  uint_law z : isIntegral (of_uint z) = true /\ (in_u 32 z -> asUInt (of_uint z) = Some z) /\
    (in_u 64 z -> asUInt64 (of_uint z) = Some z);
  real_law r : isDouble (of_real r) = true /\ asReal (of_real r) = Some r;
  bool_law b : isBool (of_bool b) = true /\ asBool (of_bool b) = Some b;
  string_law s : isString (of_string s) = true /\ asString (of_string s) = Some s;
  int_not_string z : isString (of_int z) = false;
  uint_not_string z : isString (of_uint z) = false;
  real_not_string r : isString (of_real r) = false;
  bool_not_string b : isString (of_bool b) = false;
  container_law v : isArray v = true \/ isObject v = true -> isString v = false;
  index_new_law v xs : (v = jnull /\ xs = [] \/ is_array v xs) -> at_index v (vlen xs) = jnull;
  index_put_law v xs c : (v = jnull /\ xs = [] \/ is_array v xs) -> is_array (put_index v (vlen xs) c) (xs ++ [c]);
  append_law v xs c : (v = jnull /\ xs = [] \/ is_array v xs) -> is_array (append v c) (xs ++ [c]);
  key_new_law v m k : (v = jnull /\ m = [] \/ is_object v m) -> StdMap.find k m = None -> at_key v k = jnull;
  key_put_law v m k c : (v = jnull /\ m = [] \/ is_object v m) -> is_object (put_key v k c) (StdMap.assign k c m);
}.

(** The order in which an unordered container is visited: some order of its
    elements, which are listed by key here. *)
Class HashOrder := {
  hash_order : forall {A : Type}, list A -> list A;
  hash_order_perm {A : Type} (l : list A) : hash_order l ≡ₚ l;
}.

Definition kNullptrJsonStr : bytes := lit "nullptr".

Section json.
Context {V R : Type} `{JV : JsonValue V R} {HO : HashOrder}.

(** The two families of overloads. *)
Definition marshaller (T : Type) : Type := T -> V -> bool * V.
Definition unmarshaller (T : Type) : Type := V -> T -> option (bool * T).

(** ** marshal.h *)

Definition Marshal_uncaught {T} : marshaller T := fun _ root => (false, root).
Definition Marshal_enum : marshaller Z := fun obj _ => (true, of_int (i32 obj)).
Definition Marshal_pointer {T} (m : marshaller T) : marshaller (option T) := fun obj root =>
  match obj with None => (true, of_string kNullptrJsonStr) | Some x => m x root end.
Definition Marshal_int32 : marshaller Z := fun obj _ => (true, of_int obj).
Definition Marshal_int64 : marshaller Z := fun obj _ => (true, of_int obj).
Definition Marshal_uint32 : marshaller Z := fun obj _ => (true, of_uint obj).
Definition Marshal_uint64 : marshaller Z := fun obj _ => (true, of_uint obj).
Definition Marshal_float : marshaller R := fun obj _ => (true, of_real obj).
Definition Marshal_double : marshaller R := fun obj _ => (true, of_real obj).
Definition Marshal_bool : marshaller bool := fun obj _ => (true, of_bool obj).
Definition Marshal_string : marshaller bytes := fun obj _ => (true, of_string obj).

Fixpoint vector_loop {T} (m : marshaller T) (i : Z) (obj : list T) (ret : bool) (root : V) : bool * V :=
  match obj with
  | [] => (ret, root)
  | x :: obj' =>
      let '(b, c) := m x (at_index root i) in
      vector_loop m (i + 1) obj' (ret && b) (put_index root i c)
  end.

Definition Marshal_vector {T} (m : marshaller T) : marshaller (list T) := fun obj root =>
  vector_loop m 0 obj true root.

(** The four map overloads differ in how a key becomes a member name; [obj] lists
    the entries in the container's order. *)
Fixpoint map_loop {K T} (name : K -> bytes) (m : marshaller T) (obj : list (K * T)) (ret : bool) (root : V) : bool * V :=
  match obj with
  | [] => (ret, root)
  | (k, x) :: obj' =>
      let '(b, c) := m x (at_key root (name k)) in
      map_loop name m obj' (ret && b) (put_key root (name k) c)
  end.

Definition Marshal_map_string {T} (m : marshaller T) : marshaller (list (bytes * T)) := fun obj root =>
  map_loop id m obj true root.
Definition Marshal_map {T} (m : marshaller T) : marshaller (list (Z * T)) := fun obj root =>
  map_loop Decimal.to_string m obj true root.
Definition Marshal_unordered_map_string {T} (m : marshaller T) : marshaller (list (bytes * T)) := fun obj root =>
  map_loop id m (hash_order obj) true root.
Definition Marshal_unordered_map {T} (m : marshaller T) : marshaller (list (Z * T)) := fun obj root =>
  map_loop Decimal.to_string m (hash_order obj) true root.

(** An element that fails is left out. *)
Fixpoint set_loop {T} (m : marshaller T) (obj : list T) (ret : bool) (root : V) : bool * V :=
  match obj with
  | [] => (ret, root)
  | x :: obj' =>
      let '(b, elem) := m x jnull in
      if b then set_loop m obj' ret (append root elem) else set_loop m obj' false root
  end.

Definition Marshal_set {T} (m : marshaller T) : marshaller (list T) := fun obj root => set_loop m obj true root.
Definition Marshal_unordered_set {T} (m : marshaller T) : marshaller (list T) := fun obj root =>
  set_loop m (hash_order obj) true root.

(** [JSON_HELPER_MARSHAL_MEMBER_FUNCTION(fields)]: a struct with fields is a pair
    of its first field and the others. *)
Definition marshal_fields (T : Type) : Type := T -> bool -> V -> bool * V.
Definition marshal_no_field : marshal_fields unit := fun _ ret root => (ret, root).
Definition marshal_field {A B} (field : bytes) (m : marshaller A) (rest : marshal_fields B) : marshal_fields (A * B) :=
  fun obj ret root =>
    let '(b, c) := m (fst obj) (at_key root field) in
    rest (snd obj) (ret && b) (put_key root field c).
Definition Marshal_class {T} (fields : marshal_fields T) : marshaller T := fun obj root => fields obj true root.

(** ** unmarshal.h *)

Definition Unmarshal_uncaught {T} : unmarshaller T := fun _ obj => Some (false, obj).

Definition Unmarshal_scalar {T} (test : V -> bool) (get : V -> option T) : unmarshaller T := fun root obj =>
  if negb (test root) then Some (false, obj) else x ← get root; Some (true, x).

Definition Unmarshal_enum : unmarshaller Z := Unmarshal_scalar isIntegral asInt.
Definition Unmarshal_int32 : unmarshaller Z := Unmarshal_scalar isIntegral asInt.
Definition Unmarshal_int64 : unmarshaller Z := Unmarshal_scalar isIntegral asInt64.
Definition Unmarshal_uint32 : unmarshaller Z := Unmarshal_scalar isIntegral asUInt.
Definition Unmarshal_uint64 : unmarshaller Z := Unmarshal_scalar isIntegral asUInt64.
Definition Unmarshal_float : unmarshaller R := Unmarshal_scalar isDouble asReal.
Definition Unmarshal_double : unmarshaller R := Unmarshal_scalar isDouble asReal.
Definition Unmarshal_bool : unmarshaller bool := Unmarshal_scalar isBool asBool.
Definition Unmarshal_string : unmarshaller bytes := Unmarshal_scalar isString asString.

(** A null target is left alone and reported as success. *)
Definition Unmarshal_pointer {T} (u : unmarshaller T) : unmarshaller (option T) := fun root obj =>
  is_null ← (if isString root then s ← asString root; Some (bool_decide (s = kNullptrJsonStr)) else Some false);
  if (is_null : bool) then Some (true, None)
  else match obj with
  | None => Some (true, None)
  | Some x => '(b, y) ← u root x; Some (b, Some y)
  end.

(** [tmp] is what the new element holds before it is parsed. *)
Fixpoint elements_loop {T} (u : unmarshaller T) (tmp : T) (put : T -> list T -> list T) (n : nat) (i : Z) (root : V)
    (ret : bool) (obj : list T) : option (bool * list T) :=
  match n with
  | O => Some (ret, obj)
  | S n' =>
      '(b, x) ← u (at_index root i) tmp;
      elements_loop u tmp put n' (i + 1) root (ret && b) (put x obj)
  end.

Definition Unmarshal_elements {T} (u : unmarshaller T) (tmp : T) (put : T -> list T -> list T) : unmarshaller (list T) :=
  fun root obj =>
    if negb (isArray root) then Some (false, obj)
    else elements_loop u tmp put (Z.to_nat (size root)) 0 root true [].

Definition Unmarshal_vector {T} (u : unmarshaller T) (tmp : T) : unmarshaller (list T) :=
  Unmarshal_elements u tmp (fun x obj => obj ++ [x]).
Definition Unmarshal_set {K} `{KeyOrd K} (u : unmarshaller K) (tmp : K) : unmarshaller (list K) :=
  Unmarshal_elements u tmp StdSet.insert.
(** An unordered set, listed in order. *)
Definition Unmarshal_unordered_set {K} `{KeyOrd K} (u : unmarshaller K) (tmp : K) : unmarshaller (list K) :=
  Unmarshal_elements u tmp StdSet.insert.

(** The entry of [obj] is made if absent ([tmp]), and parsed into. *)
Fixpoint members_loop {K T} `{KeyOrd K} (key : bytes -> option K) (u : unmarshaller T) (tmp : T) (mems : list bytes)
    (root : V) (ret : bool) (obj : list (K * T)) : option (bool * list (K * T)) :=
  match mems with
  | [] => Some (ret, obj)
  | name :: mems' =>
      k ← key name;
      let old := default tmp (StdMap.find k obj) in
      '(b, x) ← u (at_key root name) old;
      members_loop key u tmp mems' root (ret && b) (StdMap.assign k x obj)
  end.

Definition Unmarshal_members {K T} `{KeyOrd K} (key : bytes -> option K) (u : unmarshaller T) (tmp : T)
  : unmarshaller (list (K * T)) := fun root obj =>
  if negb (isObject root) then Some (false, obj) else members_loop key u tmp (members root) root true [].

Definition Unmarshal_map_string {T} (u : unmarshaller T) (tmp : T) : unmarshaller (list (bytes * T)) :=
  Unmarshal_members Some u tmp.
Definition Unmarshal_map_int32 {T} (u : unmarshaller T) (tmp : T) : unmarshaller (list (Z * T)) :=
  Unmarshal_members (Decimal.sto 32) u tmp.
Definition Unmarshal_map_int64 {T} (u : unmarshaller T) (tmp : T) : unmarshaller (list (Z * T)) :=
  Unmarshal_members (Decimal.sto 64) u tmp.
Definition Unmarshal_map_uint64 {T} (u : unmarshaller T) (tmp : T) : unmarshaller (list (Z * T)) :=
  Unmarshal_members Decimal.stou u tmp.

(** Unordered maps: the same entries; listed by key here. *)
Definition Unmarshal_unordered_map_string {T} (u : unmarshaller T) (tmp : T) : unmarshaller (list (bytes * T)) :=
  Unmarshal_members Some u tmp.
Definition Unmarshal_unordered_map_int32 {T} (u : unmarshaller T) (tmp : T) : unmarshaller (list (Z * T)) :=
  Unmarshal_members (Decimal.sto 32) u tmp.
Definition Unmarshal_unordered_map_uint32 {T} (u : unmarshaller T) (tmp : T) : unmarshaller (list (Z * T)) :=
  Unmarshal_members (fun s => u32 <$> Decimal.stou s) u tmp.
Definition Unmarshal_unordered_map_int64 {T} (u : unmarshaller T) (tmp : T) : unmarshaller (list (Z * T)) :=
  Unmarshal_members (Decimal.sto 64) u tmp.
Definition Unmarshal_unordered_map_uint64 {T} (u : unmarshaller T) (tmp : T) : unmarshaller (list (Z * T)) :=
  Unmarshal_members Decimal.stou u tmp.

(** [JSON_HELPER_UNMARSHAL_MEMBER_FUNCTION(fields)] *)
Definition unmarshal_fields (T : Type) : Type := V -> bool -> T -> option (bool * T).
Definition unmarshal_no_field : unmarshal_fields unit := fun _ ret _ => Some (ret, ()).
Definition unmarshal_field {A B} (field : bytes) (u : unmarshaller A) (rest : unmarshal_fields B)
  : unmarshal_fields (A * B) := fun root ret obj =>
  '(b, x) ← u (at_key root field) (fst obj);
  '(b', y) ← rest root (ret && b) (snd obj);
  Some (b', (x, y)).
Definition Unmarshal_class {T} (fields : unmarshal_fields T) : unmarshaller T := fun root obj => fields root true obj.

End json.
