(* ===== verification/JsonRoundTrip.v ===== *)
(** * json_helper: what the overloads promise each other

    [RoundTrip] is the contract between a [Marshal] overload and its [Unmarshal]:
    the overloads for containers, pointers and classes are proved against the
    contract of their elements.  [UnmarshalProper]: an [Unmarshal] overload
    depends on a value only through the operations of the interface. *)

From S2P Require Import Prelude StdMap Decimal JsonMarshal.

(** What [m] writes into a new value, for values [x] in [ok], [u] reads back;
    [into x y] is what a target holding [y] holds then, which is [x] unless
    pointers are involved.  [str x] is the text of [x] if it is written as a
    string. *)
Class RoundTrip {V R} `{JsonValue V R} {T : Type} (m : marshaller T) (u : unmarshaller T)
    (ok : T -> Prop) (into : T -> T -> T) (str : T -> option bytes) : Prop :=
  round_trip : forall x, ok x -> exists v, m x jnull = (true, v) /\
    (isString v = true -> exists s, asString v = Some s /\ str x = Some s) /\ forall y, u v y = Some (true, into x y).

Abbreviation itself := (fun x _ => x).
Abbreviation no_text := (fun _ => None).

Section round_trips.
Context {V R : Type} {JV : JsonValue V R} {JL : JsonLaws V R} {HO : HashOrder}.

Lemma scalar_rt {T} (put : T -> V) (test : V -> bool) (get : V -> option T) (ok : T -> Prop) :
  (forall x, ok x -> test (put x) = true /\ get (put x) = Some x /\ isString (put x) = false) ->
  RoundTrip (fun x _ => (true, put x)) (Unmarshal_scalar test get) ok itself no_text.
Proof.
  intros H x Hx. destruct (H x Hx) as (H1 & H2 & H3). eexists. split_and!; [done|by rewrite H3|].
  intros y. unfold Unmarshal_scalar. by rewrite H1, H2.
Qed.

#[global] Instance int32_rt : RoundTrip Marshal_int32 Unmarshal_int32 (in_s 32) itself no_text.
Proof. apply scalar_rt. intros x Hx. destruct (int_law x) as (H1 & H2 & _). auto using int_not_string. Qed.

#[global] Instance int64_rt : RoundTrip Marshal_int64 Unmarshal_int64 (in_s 64) itself no_text.
Proof. apply scalar_rt. intros x Hx. destruct (int_law x) as (H1 & _ & H2). auto using int_not_string. Qed.

#[global] Instance uint32_rt : RoundTrip Marshal_uint32 Unmarshal_uint32 (in_u 32) itself no_text.
Proof. apply scalar_rt. intros x Hx. destruct (uint_law x) as (H1 & H2 & _). auto using uint_not_string. Qed.

#[global] Instance uint64_rt : RoundTrip Marshal_uint64 Unmarshal_uint64 (in_u 64) itself no_text.
Proof. apply scalar_rt. intros x Hx. destruct (uint_law x) as (H1 & _ & H2). auto using uint_not_string. Qed.

#[global] Instance float_rt : RoundTrip Marshal_float Unmarshal_float (fun _ => True) itself no_text.
Proof. apply scalar_rt. intros x _. destruct (real_law x) as (H1 & H2). auto using real_not_string. Qed.

#[global] Instance double_rt : RoundTrip Marshal_double Unmarshal_double (fun _ => True) itself no_text.
Proof. apply scalar_rt. intros x _. destruct (real_law x) as (H1 & H2). auto using real_not_string. Qed.

#[global] Instance bool_rt : RoundTrip Marshal_bool Unmarshal_bool (fun _ => True) itself no_text.
Proof. apply scalar_rt. intros x _. destruct (bool_law x) as (H1 & H2). auto using bool_not_string. Qed.

#[global] Instance enum_rt : RoundTrip Marshal_enum Unmarshal_enum (in_s 32) itself no_text.
Proof.
  intros x Hx. destruct (int_law x) as (H1 & H2 & _). exists (of_int x). unfold Marshal_enum. rewrite wraps_id by done.
  split_and!; [done|by rewrite int_not_string|]. intros y. unfold Unmarshal_enum, Unmarshal_scalar. by rewrite H1, H2.
Qed.

#[global] Instance string_rt : RoundTrip Marshal_string Unmarshal_string (fun _ => True) itself Some.
Proof.
  intros x _. destruct (string_law x) as (H1 & H2). eexists. split_and!; [done|eauto|].
  intros y. unfold Unmarshal_string, Unmarshal_scalar. by rewrite H1, H2.
Qed.

(** *** Pointers

    A null pointer is written as a text, so a pointer to that text, or to a null
    pointer, is not told from it; reading does not allocate: a target that is
    null stays so. *)
Definition pointer_into {T} (into : T -> T -> T) (p q : option T) : option T :=
  match p, q with Some x, Some y => Some (into x y) | _, _ => None end.

#[global] Instance pointer_rt {T} (m : marshaller T) u ok into str `{!RoundTrip m u ok into str} :
  RoundTrip (Marshal_pointer m) (Unmarshal_pointer u)
    (fun p => match p with None => True | Some x => ok x /\ str x <> Some kNullptrJsonStr end)
    (pointer_into into)
    (fun p => match p with None => Some kNullptrJsonStr | Some x => str x end).
Proof.
  intros [x|] Hx; unfold Marshal_pointer, Unmarshal_pointer.
  - destruct Hx as [Hx Hs]. destruct (round_trip x Hx) as (v & E & Hstr & Hu). exists v. split_and!; [done|done|].
    intros q. destruct (isString v) eqn:Ei.
    + destruct Hstr as (s & -> & Es); [done|]. simpl. rewrite bool_decide_false by congruence.
      destruct q; [by rewrite Hu|done].
    + simpl. destruct q; [by rewrite Hu|done].
  - destruct (string_law kNullptrJsonStr) as (H1 & H2). eexists. split_and!; [done|eauto|].
    intros q. by rewrite H1, H2.
Qed.

(** *** Arrays *)

Definition array_so_far (v : V) (xs : list V) : Prop := v = jnull /\ xs = [] \/ is_array v xs.

(** [y] holds the value [x], for an element that starts as [tmp]. *)
Definition reads {T} (u : unmarshaller T) (tmp : T) (x : T) (y : V) : Prop := u y tmp = Some (true, x).

(** What elements that start as [tmp] hold. *)
Definition all_into {T} (into : T -> T -> T) (tmp : T) (xs : list T) : list T := (fun x => into x tmp) <$> xs.

Lemma vector_loop_spec {T} (m : marshaller T) u ok into str tmp `{!RoundTrip m u ok into str} (obj : list T) :
  Forall ok obj -> forall v xs,
  array_so_far v xs ->
  exists v' ys, vector_loop m (vlen xs) obj true v = (true, v') /\ array_so_far v' (xs ++ ys) /\
    Forall2 (reads u tmp) (all_into into tmp obj) ys.
Proof.
  induction 1 as [|x obj Hx Hobj IH]; intros v xs Hv.
  { exists v, []. rewrite app_nil_r. by split_and!; [..|constructor]. }
  destruct (round_trip x Hx) as (c & Em & _ & Hu). cbn [vector_loop].
  rewrite (index_new_law v xs Hv), Em. simpl.
  destruct (IH (put_index v (vlen xs) c) (xs ++ [c])) as (v' & ys & E & Ha & Hf).
  { right. by apply index_put_law. }
  assert (vlen (xs ++ [c]) = vlen xs + 1) as Hl by (unfold vlen; rewrite length_app; simpl; lia).
  rewrite Hl in E. exists v', (c :: ys). rewrite E. rewrite <- app_assoc in Ha.
  split_and!; [done|done|]. constructor; [apply Hu|done].
Qed.

Lemma set_loop_spec {T} (m : marshaller T) u ok into str tmp `{!RoundTrip m u ok into str} (obj : list T) :
  Forall ok obj -> forall v xs,
  array_so_far v xs ->
  exists v' ys, set_loop m obj true v = (true, v') /\ array_so_far v' (xs ++ ys) /\
    Forall2 (reads u tmp) (all_into into tmp obj) ys.
Proof.
  induction 1 as [|x obj Hx Hobj IH]; intros v xs Hv.
  { exists v, []. rewrite app_nil_r. by split_and!; [..|constructor]. }
  destruct (round_trip x Hx) as (c & Em & _ & Hu). cbn [set_loop]. rewrite Em.
  destruct (IH (append v c) (xs ++ [c])) as (v' & ys & E & Ha & Hf); [right; by apply append_law|].
  exists v', (c :: ys). rewrite E. rewrite <- app_assoc in Ha.
  split_and!; [done|done|]. constructor; [apply Hu|done].
Qed.

Lemma elements_loop_spec {T} (u : unmarshaller T) tmp put root (ys : list V) : forall (obj : list T) i acc,
  Forall2 (reads u tmp) obj ys ->
  (forall k y, ys !! k = Some y -> at_index root (i + Z.of_nat k) = y) ->
  elements_loop u tmp put (length ys) i root true acc = Some (true, foldl (fun a x => put x a) acc obj).
Proof.
  induction ys as [|y ys IH]; intros obj i acc Hf Hat; inversion_clear Hf as [|x ? obj' ? Hu Hf']; [done|].
  cbn [elements_loop length]. pose proof (Hat 0%nat y eq_refl) as H0. rewrite Z.add_0_r in H0.
  rewrite H0. unfold reads in Hu. rewrite Hu. cbn [mbind option_bind andb]. rewrite (IH obj'); [done|done|].
  intros k z Hk. rewrite <- (Hat (S k) z Hk). f_equal. lia.
Qed.

Lemma Unmarshal_elements_spec {T} (u : unmarshaller T) tmp put root ys obj y :
  is_array root ys -> Forall2 (reads u tmp) obj ys ->
  Unmarshal_elements u tmp put root y = Some (true, foldl (fun a x => put x a) [] obj).
Proof.
  intros (Ha & Hs & Hat) Hf. unfold Unmarshal_elements. rewrite Ha, Hs. cbn [negb].
  replace (Z.to_nat (vlen ys)) with (length ys) by (unfold vlen; lia).
  by apply elements_loop_spec.
Qed.

Lemma foldl_snoc {T} (obj acc : list T) : foldl (fun a x => a ++ [x]) acc obj = acc ++ obj.
Proof.
  revert acc. induction obj as [|x obj IH]; intros acc; simpl; [by rewrite app_nil_r|].
  rewrite IH. by rewrite <- app_assoc.
Qed.

(** An array that was filled from nothing. *)
Lemma filled_array {T} (u : unmarshaller T) tmp (obj : list T) v ys :
  obj <> [] -> array_so_far v ys -> Forall2 (reads u tmp) obj ys -> is_array v ys /\ isString v = false.
Proof.
  intros Hne [[_ ->]|Ha] Hf; [by inversion Hf; subst|]. split; [done|]. apply container_law. left. apply Ha.
Qed.

(** An empty vector leaves the value null, which need not be an array. *)
#[global] Instance vector_rt {T} (m : marshaller T) u ok into str tmp `{!RoundTrip m u ok into str} :
  RoundTrip (Marshal_vector m) (Unmarshal_vector u tmp)
    (fun xs => xs <> [] /\ Forall ok xs) (fun xs _ => all_into into tmp xs) no_text.
Proof.
  intros obj [Hne Hok]. unfold Marshal_vector.
  destruct (vector_loop_spec m u ok into str tmp obj Hok jnull [] (or_introl (conj eq_refl eq_refl)))
    as (v & ys & E & Ha & Hf).
  destruct (filled_array u tmp (all_into into tmp obj) v ys) as [Hv Hs]; [by destruct obj|done|done|].
  exists v. split_and!; [done|by rewrite Hs|].
  intros y. unfold Unmarshal_vector. erewrite Unmarshal_elements_spec by done. by rewrite foldl_snoc.
Qed.

(** Sets, visited in any order. *)
Lemma set_rt_general {K} `{KeyOrd K} (m : marshaller K) u ok str tmp (visit : list K -> list K)
    `{!RoundTrip m u ok itself str} :
  (forall l, visit l ≡ₚ l) ->
  RoundTrip (fun obj root => set_loop m (visit obj) true root) (Unmarshal_elements u tmp StdSet.insert)
    (fun xs => xs <> [] /\ Forall ok xs /\ StdSet.sorted xs) itself no_text.
Proof.
  intros Hv obj (Hne & Hok & Hs). rewrite <- (Hv obj) in Hok.
  destruct (set_loop_spec m u ok itself str tmp (visit obj) Hok jnull [] (or_introl (conj eq_refl eq_refl)))
    as (v & ys & E & Ha & Hf).
  unfold all_into in Hf. rewrite list_fmap_id in Hf.
  destruct (filled_array u tmp (visit obj) v ys) as [Hav Hst]; [|done|done|].
  { intros Hn. pose proof (Hv obj) as Hp. rewrite Hn in Hp. by apply Permutation_nil_l in Hp. }
  exists v. split_and!; [done|by rewrite Hst|].
  intros y. erewrite Unmarshal_elements_spec by done. by rewrite (StdSet.foldl_insert_perm _ obj).
Qed.

#[global] Instance set_rt {K} `{KeyOrd K} (m : marshaller K) u ok str tmp `{!RoundTrip m u ok itself str} :
  RoundTrip (Marshal_set m) (Unmarshal_set u tmp)
    (fun xs => xs <> [] /\ Forall ok xs /\ StdSet.sorted xs) itself no_text.
Proof. by apply (set_rt_general m u ok str tmp id). Qed.

#[global] Instance unordered_set_rt {K} `{KeyOrd K} (m : marshaller K) u ok str tmp `{!RoundTrip m u ok itself str} :
  RoundTrip (Marshal_unordered_set m) (Unmarshal_unordered_set u tmp)
    (fun xs => xs <> [] /\ Forall ok xs /\ StdSet.sorted xs) itself no_text.
Proof. apply (set_rt_general m u ok str tmp hash_order), hash_order_perm. Qed.

(** *** Objects *)

Definition object_so_far (v : V) (m : list (bytes * V)) : Prop := v = jnull /\ m = [] \/ is_object v m.

Section maps.
Context {K T : Type} `{KeyOrd K} (name : K -> bytes) (key : bytes -> option K) (okk : K -> Prop).
Context (m : marshaller (V := V) T) (u : unmarshaller (V := V) T) (ok : T -> Prop) (into : T -> T -> T) (str : T -> option bytes) (tmp : T).
Context `{!RoundTrip m u ok into str}.
Hypothesis key_name : forall k, okk k -> key (name k) = Some k.

Definition entry_ok (e : K * T) : Prop := okk (fst e) /\ ok (snd e).

Definition entry_into (e : K * T) : K * T := (fst e, into (snd e) tmp).

Lemma name_inj k k' : okk k -> okk k' -> name k = name k' -> k = k'.
Proof. intros Hk Hk' E. pose proof (key_name k Hk) as E1. rewrite E, key_name in E1 by done. congruence. Qed.

(** What the object holds after the entries [obj] were added to [o]. *)
Lemma map_loop_spec (obj : list (K * T)) :
  Forall entry_ok obj -> NoDup (StdMap.keys obj) -> forall v o,
  object_so_far v o -> StdMap.ordered o -> (forall k, k ∈ StdMap.keys obj -> StdMap.find (name k) o = None) ->
  exists v' o', map_loop name m obj true v = (true, v') /\ object_so_far v' o' /\ StdMap.ordered o' /\
    (forall n c, StdMap.find n o' = Some c -> StdMap.find n o = Some c \/
       exists k x, (k, x) ∈ obj /\ n = name k /\ reads u tmp (into x tmp) c) /\
    (forall k, k ∈ StdMap.keys obj -> is_Some (StdMap.find (name k) o')) /\
    (forall n c, StdMap.find n o = Some c -> StdMap.find n o' = Some c).
Proof.
  induction 1 as [|[k x] obj (Hk & Hx) Hobj IH]; intros Hnd v o Hv Hord Hnew.
  { exists v, o. split_and!; [done|done|done|by left|by intros k ?%elem_of_nil|done]. }
  unfold StdMap.keys in *; simpl in *. apply NoDup_cons in Hnd as [Hnk Hnd].
  destruct (round_trip x Hx) as (c & Em & _ & Hu). cbn [map_loop].
  rewrite (key_new_law v o (name k) Hv) by (apply Hnew; left). rewrite Em. simpl.
  destruct (IH Hnd (put_key v (name k) c) (StdMap.assign (name k) c o)) as (v' & o' & E & Ho & Hord' & H1 & H2 & H3).
  { right. by apply key_put_law. }
  { by apply StdMap.assign_ordered. }
  { intros k' Hk'. rewrite StdMap.find_assign, decide_False; [by apply Hnew; right|].
    intros En. apply name_inj in En; [by subst|..|done].
    apply list_elem_of_fmap in Hk' as ([k2 x2] & -> & Hin). by apply (proj1 (Forall_forall _ _) Hobj _ Hin). }
  exists v', o'. split_and!; [done|done|done| | |].
  - intros n e Hd. destruct (H1 n e Hd) as [Hf|(k2 & x2 & Hin & -> & Hd')].
    + rewrite StdMap.find_assign in Hf. case_decide; [|by left]. simplify_eq. right. exists k, x.
      split_and!; [left|done|apply Hu].
    + right. exists k2, x2. split_and!; [by right|done|done].
  - intros k' [-> |Hk']%elem_of_cons; [|by apply H2]. exists c. apply H3. by rewrite StdMap.find_assign, decide_True.
  - intros n e Hd. apply H3. rewrite StdMap.find_assign, decide_False; [done|]. intros ->.
    rewrite Hnew in Hd by left. done.
Qed.

(** Reading the members [ns], each of which is the name of an entry of [obj]. *)
Lemma members_loop_spec (obj : list (K * T)) root ns : forall acc,
  NoDup ns ->
  (forall n, n ∈ ns -> exists k x, n = name k /\ okk k /\ StdMap.find k obj = Some x /\ reads u tmp x (at_key root n)) ->
  (forall k, okk k -> name k ∈ ns -> StdMap.find k acc = None) ->
  StdMap.ordered acc -> (forall k x, StdMap.find k acc = Some x -> StdMap.find k obj = Some x) ->
  exists acc', members_loop key u tmp ns root true acc = Some (true, acc') /\ StdMap.ordered acc' /\
    (forall k x, StdMap.find k acc' = Some x -> StdMap.find k obj = Some x) /\
    (forall k, is_Some (StdMap.find k acc) \/ (okk k /\ name k ∈ ns) -> is_Some (StdMap.find k acc')).
Proof.
  induction ns as [|n ns IH]; intros acc Hnd Hns Hnew Ho Hf.
  { exists acc. split_and!; [done|done|done|]. intros k [?|[_ Hn%elem_of_nil]]; done. }
  apply NoDup_cons in Hnd as [Hn Hnd].
  destruct (Hns n ltac:(left)) as (k & x & -> & Hk & Hx & Hu). cbn [members_loop]. rewrite key_name by done.
  cbn [mbind option_bind]. rewrite (Hnew k Hk) by left. simpl. unfold reads in Hu. rewrite Hu. cbn [mbind option_bind andb].
  destruct (IH (StdMap.assign k x acc)) as (acc' & E & Ho' & H1 & H2); [done| | | | |].
  - intros n' Hn'. apply Hns. by right.
  - intros k' Hk' Hin. rewrite StdMap.find_assign, decide_False by congruence. apply Hnew; [done|by right].
  - by apply StdMap.assign_ordered.
  - intros k' x'. rewrite StdMap.find_assign. case_decide; [congruence|apply Hf].
  - exists acc'. split_and!; [done|done|done|]. intros k' [Hs|[Hk' Hin]].
    + apply H2. left. rewrite StdMap.find_assign. case_decide; [eauto|done].
    + apply elem_of_cons in Hin as [Hin|Hin]; [|apply H2; by right]. apply name_inj in Hin; [|done|done]. subst k'.
      apply H2. left. rewrite StdMap.find_assign, decide_True by done. eauto.
Qed.

Lemma find_elem_nodup (obj : list (K * T)) k x :
  NoDup (StdMap.keys obj) -> (k, x) ∈ obj -> StdMap.find k obj = Some x.
Proof.
  unfold StdMap.keys. induction obj as [|[k0 x0] obj IH]; simpl; intros Hnd Hin; [by apply elem_of_nil in Hin|].
  apply NoDup_cons in Hnd as [Hn Hnd]. apply elem_of_cons in Hin as [E|Hin].
  - simplify_eq. by rewrite decide_True.
  - rewrite decide_False; [by apply IH|]. intros ->. apply Hn. by apply (list_elem_of_fmap_2 fst) in Hin.
Qed.

Lemma keys_into obj : StdMap.keys (entry_into <$> obj) = StdMap.keys obj.
Proof. unfold StdMap.keys. by rewrite <- list_fmap_compose. Qed.

Lemma map_rt_general (visit : list (K * T) -> list (K * T)) :
  (forall l, visit l ≡ₚ l) ->
  RoundTrip (fun obj root => map_loop name m (visit obj) true root) (Unmarshal_members key u tmp)
    (fun obj => obj <> [] /\ StdMap.ordered obj /\ Forall entry_ok obj) (fun obj _ => entry_into <$> obj) no_text.
Proof.
  intros Hvis obj (Hne & Hord & Hok). pose proof (Hvis obj) as Hp.
  assert (NoDup (StdMap.keys obj)) as Hnd by by apply StdMap.ordered_NoDup.
  destruct (map_loop_spec (visit obj)) with (v := jnull) (o := @nil (bytes * V))
    as (v & o & E & Ho & Hoo & H1 & H2 & _);
    [by rewrite Hp|unfold StdMap.keys; by rewrite Hp|by left|constructor|done|].
  assert (forall k x, (k, x) ∈ visit obj <-> (k, x) ∈ obj) as Hel by (intros k x; by rewrite Hp).
  destruct Ho as [[_ ->]|(Hob & Hmem & Hat)].
  { destruct obj as [|[k x] obj]; [done|]. destruct (H2 k) as [c Hc]; [|done].
    apply (list_elem_of_fmap_2 fst _ (k, x)), Hel. left. }
  exists v. split_and!; [done|rewrite container_law by auto; done|]. intros y.
  unfold Unmarshal_members. rewrite Hob, Hmem. cbn [negb].
  destruct (members_loop_spec (entry_into <$> obj) v (StdMap.keys o) []) as (acc & -> & Hao & Ha1 & Ha2).
  - by apply StdMap.ordered_NoDup.
  - intros n Hn. destruct (StdMap.find n o) as [c|] eqn:Ec; [|by apply StdMap.find_None in Ec].
    destruct (H1 n c Ec) as [?|(k & x & Hin & -> & Hu)]; [done|]. apply Hel in Hin.
    exists k, (into x tmp). pose proof (proj1 (Forall_forall _ _) Hok _ Hin) as [Hkk _]. rewrite (Hat _ _ Ec).
    split_and!; [done|done| |done]. apply find_elem_nodup; [by rewrite keys_into|].
    by apply (list_elem_of_fmap_2 entry_into _ (k, x)).
  - done.
  - constructor.
  - done.
  - f_equal. f_equal. apply StdMap.ordered_ext; [done|by unfold StdMap.ordered; rewrite keys_into|]. intros k.
    destruct (StdMap.find k (entry_into <$> obj)) as [x|] eqn:Ex.
    + pose proof (StdMap.find_Some_elem _ _ _ Ex) as Hin. apply list_elem_of_fmap in Hin as ([k0 x0] & [= -> _] & Hin).
      pose proof (proj1 (Forall_forall _ _) Hok _ Hin) as [Hkk _]. simpl in Hkk.
      destruct (Ha2 k0) as [x' Hx'].
      { right. split; [done|]. destruct (H2 k0) as [c Hc].
        { apply (list_elem_of_fmap_2 fst _ (k0, x0)). by apply Hel. }
        apply StdMap.find_Some_elem in Hc. by apply (list_elem_of_fmap_2 fst) in Hc. }
      rewrite Hx'. by rewrite (Ha1 _ _ Hx') in Ex.
    + destruct (StdMap.find k acc) as [x|] eqn:Ea; [|done]. apply Ha1 in Ea. congruence.
Qed.
End maps.

(** The condition on a map with keys in [okk]. *)
Definition map_ok {K T} `{KeyOrd K} (okk : K -> Prop) (ok : T -> Prop) (obj : list (K * T)) : Prop :=
  obj <> [] /\ StdMap.ordered obj /\ Forall (entry_ok okk ok) obj.

Definition map_into {K T} (into : T -> T -> T) (tmp : T) (obj : list (K * T)) : list (K * T) := entry_into into tmp <$> obj.

Section map_overloads.
Context {T : Type} (m : marshaller (V := V) T) (u : unmarshaller (V := V) T) (ok : T -> Prop) (into : T -> T -> T).
Context (str : T -> option bytes) (tmp : T) `{!RoundTrip m u ok into str}.

#[global] Instance map_string_rt :
  RoundTrip (Marshal_map_string m) (Unmarshal_map_string u tmp) (map_ok (fun _ => True) ok) (fun obj _ => map_into into tmp obj) no_text.
Proof.
  apply (map_rt_general id Some (fun _ => True) m u ok into str tmp) with (visit := id); [done|done].
Qed.

#[global] Instance map_int32_rt :
  RoundTrip (Marshal_map m) (Unmarshal_map_int32 u tmp) (map_ok (in_s 32) ok) (fun obj _ => map_into into tmp obj) no_text.
Proof.
  apply (map_rt_general Decimal.to_string (Decimal.sto 32) (in_s 32) m u ok into str tmp) with (visit := id); [intros k Hk; by apply Decimal.sto_to_string|done].
Qed.

#[global] Instance map_int64_rt :
  RoundTrip (Marshal_map m) (Unmarshal_map_int64 u tmp) (map_ok (in_s 64) ok) (fun obj _ => map_into into tmp obj) no_text.
Proof.
  apply (map_rt_general Decimal.to_string (Decimal.sto 64) (in_s 64) m u ok into str tmp) with (visit := id); [intros k Hk; by apply Decimal.sto_to_string|done].
Qed.

#[global] Instance map_uint64_rt :
  RoundTrip (Marshal_map m) (Unmarshal_map_uint64 u tmp) (map_ok (in_u 64) ok) (fun obj _ => map_into into tmp obj) no_text.
Proof.
  apply (map_rt_general Decimal.to_string Decimal.stou (in_u 64) m u ok into str tmp) with (visit := id); [intros k Hk; by apply Decimal.stou_to_string|done].
Qed.

#[global] Instance unordered_map_string_rt :
  RoundTrip (Marshal_unordered_map_string m) (Unmarshal_unordered_map_string u tmp) (map_ok (fun _ => True) ok) (fun obj _ => map_into into tmp obj) no_text.
Proof.
  apply (map_rt_general id Some (fun _ => True) m u ok into str tmp) with (visit := hash_order); [done|apply hash_order_perm].
Qed.

#[global] Instance unordered_map_int32_rt :
  RoundTrip (Marshal_unordered_map m) (Unmarshal_unordered_map_int32 u tmp) (map_ok (in_s 32) ok) (fun obj _ => map_into into tmp obj) no_text.
Proof.
  apply (map_rt_general Decimal.to_string (Decimal.sto 32) (in_s 32) m u ok into str tmp) with (visit := hash_order); [intros k Hk; by apply Decimal.sto_to_string|apply hash_order_perm].
Qed.

#[global] Instance unordered_map_uint32_rt :
  RoundTrip (Marshal_unordered_map m) (Unmarshal_unordered_map_uint32 u tmp) (map_ok (in_u 32) ok) (fun obj _ => map_into into tmp obj) no_text.
Proof.
  apply (map_rt_general Decimal.to_string (fun s => u32 <$> Decimal.stou s) (in_u 32) m u ok into str tmp) with (visit := hash_order); [intros k Hk; rewrite Decimal.stou_to_string by (unfold in_u in *; lia); simpl; by rewrite wrapu_id|apply hash_order_perm].
Qed.

#[global] Instance unordered_map_int64_rt :
  RoundTrip (Marshal_unordered_map m) (Unmarshal_unordered_map_int64 u tmp) (map_ok (in_s 64) ok) (fun obj _ => map_into into tmp obj) no_text.
Proof.
  apply (map_rt_general Decimal.to_string (Decimal.sto 64) (in_s 64) m u ok into str tmp) with (visit := hash_order); [intros k Hk; by apply Decimal.sto_to_string|apply hash_order_perm].
Qed.

#[global] Instance unordered_map_uint64_rt :
  RoundTrip (Marshal_unordered_map m) (Unmarshal_unordered_map_uint64 u tmp) (map_ok (in_u 64) ok) (fun obj _ => map_into into tmp obj) no_text.
Proof.
  apply (map_rt_general Decimal.to_string Decimal.stou (in_u 64) m u ok into str tmp) with (visit := hash_order); [intros k Hk; by apply Decimal.stou_to_string|apply hash_order_perm].
Qed.

End map_overloads.

(** *** Classes *)

(** The fields of a class read back from an object that holds the fields
    before them as well. *)
Definition fields_rt {T} (names : list bytes) (m : marshal_fields T) (u : unmarshal_fields T)
    (ok : T -> Prop) (into : T -> T -> T) : Prop :=
  forall x v o, ok x -> object_so_far v o -> (forall n, n ∈ names -> StdMap.find n o = None) ->
  exists v' o', m x true v = (true, v') /\ (names <> [] \/ o <> [] -> is_object v' o') /\
    (forall n c, StdMap.find n o = Some c -> StdMap.find n o' = Some c) /\
    forall w o2, is_object w o2 -> (forall n c, StdMap.find n o' = Some c -> StdMap.find n o2 = Some c) ->
      forall y, u w true y = Some (true, into x y).

Lemma no_field_rt : fields_rt [] marshal_no_field unmarshal_no_field (fun _ => True) itself.
Proof.
  intros [] v o _ Hv _. exists v, o. split_and!; [done| |done|done].
  intros [?|Ho]; [done|]. by destruct Hv as [[_ ?]|?].
Qed.

Lemma field_rt {A B} n ns (m : marshaller A) u okA intoA str (mf : marshal_fields B) uf okB intoB
    `{!RoundTrip m u okA intoA str} :
  n ∉ ns -> fields_rt ns mf uf okB intoB ->
  fields_rt (n :: ns) (marshal_field n m mf) (unmarshal_field n u uf) (fun p => okA (fst p) /\ okB (snd p))
    (fun p q => (intoA (fst p) (fst q), intoB (snd p) (snd q))).
Proof.
  intros Hn Hf [x xs] v o [Hx Hxs] Hv Hnew. simpl in *. destruct (round_trip x Hx) as (c & Em & _ & Hu).
  unfold marshal_field. simpl. rewrite (key_new_law v o n Hv) by (apply Hnew; left). rewrite Em. simpl.
  destruct (Hf xs (put_key v n c) (StdMap.assign n c o)) as (v' & o' & E & Hob & Hmono & Hread); [done| | |].
  { right. by apply key_put_law. }
  { intros n' Hn'. rewrite StdMap.find_assign, decide_False by congruence. apply Hnew. by right. }
  assert (StdMap.find n o' = Some c) as Hc by (apply Hmono; by rewrite StdMap.find_assign, decide_True).
  exists v', o'. split_and!; [done| | |].
  - intros _. apply Hob. right. intros E0. apply (f_equal (StdMap.find n)) in E0.
    by rewrite StdMap.find_assign, decide_True in E0.
  - intros n' c' Hc'. apply Hmono. rewrite StdMap.find_assign, decide_False; [done|].
    intros ->. rewrite Hnew in Hc'; [done|left].
  - intros w o2 Hw Hsub [y ys]. unfold unmarshal_field. simpl in *.
    destruct Hw as (Hw1 & Hw2 & Hw3). rewrite (Hw3 n c (Hsub _ _ Hc)), Hu. cbn [mbind option_bind andb].
    by rewrite (Hread w o2 (conj Hw1 (conj Hw2 Hw3)) Hsub).
Qed.

Lemma class_rt {T} ns (mf : marshal_fields T) uf ok into :
  ns <> [] -> fields_rt ns mf uf ok into -> RoundTrip (Marshal_class mf) (Unmarshal_class uf) ok into no_text.
Proof.
  intros Hne Hf x Hx. destruct (Hf x jnull [] Hx) as (v & o & E & Hob & _ & Hread); [by left|done|].
  destruct (Hob (or_introl Hne)) as (Hv & Hv2 & Hv3). exists v. split_and!; [done|rewrite container_law by auto; done|].
  intros y. by apply (Hread v o).
Qed.

End round_trips.

(** ** Values that cannot be told apart

    What jsoncpp's reader makes of a text need not be the value the writer was
    given (an unsigned number comes back as a signed one), but it answers every
    question in the same way. *)

Class JsonEquiv (V R : Type) `{JsonValue V R} := {
  jeq : V -> V -> Prop;
  jeq_refl :: Reflexive jeq;
  isIntegral_proper :: Proper (jeq ==> eq) isIntegral;
  isDouble_proper :: Proper (jeq ==> eq) isDouble;
  isBool_proper :: Proper (jeq ==> eq) isBool;
  isString_proper :: Proper (jeq ==> eq) isString;
  isArray_proper :: Proper (jeq ==> eq) isArray;
  isObject_proper :: Proper (jeq ==> eq) isObject;
  asInt_proper :: Proper (jeq ==> eq) asInt;
  asInt64_proper :: Proper (jeq ==> eq) asInt64;
  asUInt_proper :: Proper (jeq ==> eq) asUInt;
  asUInt64_proper :: Proper (jeq ==> eq) asUInt64;
  asReal_proper :: Proper (jeq ==> eq) asReal;
  asBool_proper :: Proper (jeq ==> eq) asBool;
  asString_proper :: Proper (jeq ==> eq) asString;
  size_proper :: Proper (jeq ==> eq) size;
  members_proper :: Proper (jeq ==> eq) members;
  at_index_proper :: Proper (jeq ==> eq ==> jeq) at_index;
  at_key_proper :: Proper (jeq ==> eq ==> jeq) at_key;
}.

Section proper.
Context {V R : Type} {JV : JsonValue V R} {JE : JsonEquiv V R}.

Abbreviation uproper u := (Proper (jeq ==> eq ==> eq) u).

#[global] Instance scalar_proper {T} test (get : V -> option T) :
  Proper (jeq ==> eq) test -> Proper (jeq ==> eq) get -> uproper (Unmarshal_scalar test get).
Proof. intros Ht Hg v w E y ? <-. unfold Unmarshal_scalar. by rewrite (Ht v w E), (Hg v w E). Qed.

#[global] Instance pointer_proper {T} (u : unmarshaller (V := V) T) : uproper u -> uproper (Unmarshal_pointer u).
Proof.
  intros Hu v w E y ? <-. unfold Unmarshal_pointer. rewrite (isString_proper v w E), (asString_proper v w E).
  destruct (if isString w then _ else _) as [[]|]; [done|simpl|done]. destruct y as [y|]; [|done].
  by rewrite (Hu v w E y y eq_refl).
Qed.

#[global] Instance elements_proper {T} (u : unmarshaller (V := V) T) tmp put :
  uproper u -> uproper (Unmarshal_elements u tmp put).
Proof.
  intros Hu v w E y ? <-. unfold Unmarshal_elements. rewrite (isArray_proper v w E), (size_proper v w E).
  generalize (Z.to_nat (size w)) as n. generalize 0 as i. generalize true as ret. generalize (@nil T) as acc.
  intros acc ret i n. destruct (isArray w); [simpl|done]. revert acc ret i.
  induction n as [|n IH]; intros acc ret i; simpl; [done|].
  rewrite (Hu (at_index v i) (at_index w i) (at_index_proper v w E i i eq_refl) tmp tmp eq_refl).
  destruct (u (at_index w i) tmp) as [[b x]|]; simpl; [apply IH|done].
Qed.

#[global] Instance members_proper' {K T} `{KeyOrd K} (key : bytes -> option K) (u : unmarshaller (V := V) T) tmp :
  uproper u -> uproper (Unmarshal_members key u tmp).
Proof.
  intros Hu v w E y ? <-. unfold Unmarshal_members. rewrite (isObject_proper v w E), (members_proper v w E). destruct (isObject w); [simpl|done].
  generalize (members w) as ns. generalize true as ret. generalize (@nil (K * T)) as acc.
  intros acc ret ns. revert acc ret. induction ns as [|n ns IH]; intros acc ret; simpl; [done|].
  destruct (key n) as [k|]; [simpl|done].
  rewrite (Hu (at_key v n) (at_key w n) (at_key_proper v w E n n eq_refl) _ _ eq_refl).
  destruct (u (at_key w n) _) as [[b x]|]; simpl; [apply IH|done].
Qed.

#[global] Instance no_field_proper : Proper (jeq ==> eq ==> eq ==> eq) (unmarshal_no_field (V := V)).
Proof. intros v w E b ? <- y ? <-. done. Qed.

#[global] Instance field_proper {A B} n (u : unmarshaller (V := V) A) (uf : unmarshal_fields (V := V) B) :
  uproper u -> Proper (jeq ==> eq ==> eq ==> eq) uf -> Proper (jeq ==> eq ==> eq ==> eq) (unmarshal_field n u uf).
Proof.
  intros Hu Hf v w E b ? <- y ? <-. unfold unmarshal_field.
  rewrite (Hu _ _ (at_key_proper v w E n n eq_refl) _ _ eq_refl). destruct (u (at_key w n) (fst y)) as [[b' x]|]; [simpl|done].
  by rewrite (Hf v w E _ _ eq_refl _ _ eq_refl).
Qed.

#[global] Instance class_proper {T} (uf : unmarshal_fields (V := V) T) :
  Proper (jeq ==> eq ==> eq ==> eq) uf -> uproper (Unmarshal_class uf).
Proof. intros Hf v w E y ? <-. unfold Unmarshal_class. by rewrite (Hf v w E _ _ eq_refl _ _ eq_refl). Qed.

End proper.
