(* ===== verification/JsonHelper.v ===== *)
(** * json_helper/json_helper.h and the types the overloads cover

    The front ends on text, and overload resolution: for every type built from
    the overloads, which [Marshal] and [Unmarshal] it gets.  The round trips, on
    values and on text, are proved for all these types at once. *)

From S2P Require Import Prelude StdMap Decimal JsonMarshal JsonRoundTrip.

Section text.
Context {V R : Type} `{JV : JsonValue V R}.

(** ** json_helper.h

    The reader and the two writers of jsoncpp are parameters. *)
Context (parse : bytes -> option V) (write : bool -> V -> bytes).

Definition Unmarshal_text {T} (u : unmarshaller T) (str : bytes) (obj : T) : option (bool * T) :=
  match parse str with None => Some (false, obj) | Some root => u root obj end.

Definition Unmarshal_cstr {T} (u : unmarshaller T) (str : bytes) (obj : T) : option (bool * T) :=
  Unmarshal_text u (c_str str) obj.

(** Fields that fail are left out; the text is written all the same. *)
Definition Marshal_text {T} (m : marshaller T) (obj : T) (with_style : bool) : bool * bytes :=
  let '(ret, root) := m obj jnull in (ret, write with_style root).

(** A newline at the end is dropped; the text is never empty. *)
Definition chomp (res : bytes) : bytes :=
  match last res with
  | Some c => if decide (c = LF) then take (length res - 1) res else res
  | None => res
  end.

Definition ToString {T} (m : marshaller T) (obj : T) : bytes :=
  let '(ret, res) := Marshal_text m obj false in if negb ret then [] else chomp res.

Definition ToStringFormatted {T} (m : marshaller T) (obj : T) : bytes :=
  let '(ret, res) := Marshal_text m obj true in if negb ret then [] else chomp res.
End text.

(** ** Overload resolution

    The types the overloads cover, and which overload each one gets. *)

Inductive scalar := SInt32 | SInt64 | SUInt32 | SUInt64 | SFloat | SDouble | SBool | SString | SEnum.

(** Key types that ordered maps and sets can have. *)
Inductive key := KString | KInt32 | KInt64 | KUInt64.

Inductive ty :=
  | TScalar (s : scalar)
  | TVector (t : ty)
  | TSet (k : key) | TUnorderedSet (k : key)
  | TMap (k : key) (t : ty) | TUnorderedMap (k : key) (t : ty) | TUnorderedMapUInt32 (t : ty)
  | TPointer (t : ty)
  | TClass (name : bytes) (t : ty) (fs : fields)
with fields := FNil | FCons (name : bytes) (t : ty) (fs : fields).

Definition denote_key (k : key) : Type := match k with KString => bytes | KInt32 | KInt64 | KUInt64 => Z end.

#[global] Instance denote_key_eq k : EqDecision (denote_key k).
Proof. destruct k; apply _. Defined.

#[global] Instance denote_key_ord k : KeyOrd (denote_key k).
Proof. destruct k; [apply bytes_key|apply Z_key..]. Defined.

Definition initial_key (k : key) : denote_key k :=
  match k with KString => [] | KInt32 | KInt64 | KUInt64 => 0 end.

Definition fits_key (k : key) : denote_key k -> Prop :=
  match k with KString => fun _ => True | KInt32 => in_s 32 | KInt64 => in_s 64 | KUInt64 => in_u 64 end.

Section types.
Context {V R : Type} {JV : JsonValue V R} {HO : HashOrder} (r0 : R).

Definition denote_scalar (s : scalar) : Type :=
  match s with
  | SInt32 | SInt64 | SUInt32 | SUInt64 | SEnum => Z
  | SFloat | SDouble => R
  | SBool => bool
  | SString => bytes
  end.

Fixpoint denote (t : ty) : Type :=
  match t with
  | TScalar s => denote_scalar s
  | TVector t => list (denote t)
  | TSet k | TUnorderedSet k => list (denote_key k)
  | TMap k t | TUnorderedMap k t => list (denote_key k * denote t)
  | TUnorderedMapUInt32 t => list (Z * denote t)
  | TPointer t => option (denote t)
  | TClass _ t fs => denote t * denote_fields fs
  end%type
with denote_fields (fs : fields) : Type :=
  match fs with FNil => unit | FCons _ t fs => (denote t * denote_fields fs)%type end.

Definition initial_scalar (s : scalar) : denote_scalar s :=
  match s with
  | SInt32 | SInt64 | SUInt32 | SUInt64 | SEnum => 0
  | SFloat | SDouble => r0
  | SBool => false
  | SString => []
  end.

(** A value to start from, members being initialised in their classes; for a
    scalar element of a vector or a set the code starts from an uninitialised one. *)
Fixpoint initial (t : ty) : denote t :=
  match t with
  | TScalar s => initial_scalar s
  | TVector _ | TSet _ | TUnorderedSet _ | TMap _ _ | TUnorderedMap _ _ | TUnorderedMapUInt32 _ => []
  | TPointer _ => None
  | TClass _ t fs => (initial t, initial_fields fs)
  end
with initial_fields (fs : fields) : denote_fields fs :=
  match fs with FNil => () | FCons _ t fs => (initial t, initial_fields fs) end.

Definition Marshal_scalar (s : scalar) : marshaller (denote_scalar s) :=
  match s with
  | SInt32 => Marshal_int32 | SInt64 => Marshal_int64 | SUInt32 => Marshal_uint32 | SUInt64 => Marshal_uint64
  | SFloat => Marshal_float | SDouble => Marshal_double | SBool => Marshal_bool | SString => Marshal_string
  | SEnum => Marshal_enum
  end.

Definition Marshal_key (k : key) : marshaller (denote_key k) :=
  match k with
  | KString => Marshal_string | KInt32 => Marshal_int32 | KInt64 => Marshal_int64 | KUInt64 => Marshal_uint64
  end.

Fixpoint Marshal (t : ty) : marshaller (denote t) :=
  match t with
  | TScalar s => Marshal_scalar s
  | TVector t => Marshal_vector (Marshal t)
  | TSet k => Marshal_set (Marshal_key k)
  | TUnorderedSet k => Marshal_unordered_set (Marshal_key k)
  | TMap k t =>
      match k with KString => Marshal_map_string (Marshal t) | KInt32 | KInt64 | KUInt64 => Marshal_map (Marshal t) end
  | TUnorderedMap k t =>
      match k with
      | KString => Marshal_unordered_map_string (Marshal t)
      | KInt32 | KInt64 | KUInt64 => Marshal_unordered_map (Marshal t)
      end
  | TUnorderedMapUInt32 t => Marshal_unordered_map (Marshal t)
  | TPointer t => Marshal_pointer (Marshal t)
  | TClass n t fs => Marshal_class (marshal_field n (Marshal t) (Marshal_fields fs))
  end
with Marshal_fields (fs : fields) : marshal_fields (denote_fields fs) :=
  match fs with
  | FNil => marshal_no_field
  | FCons n t fs => marshal_field n (Marshal t) (Marshal_fields fs)
  end.

Definition Unmarshal_scalar_ty (s : scalar) : unmarshaller (denote_scalar s) :=
  match s with
  | SInt32 => Unmarshal_int32 | SInt64 => Unmarshal_int64 | SUInt32 => Unmarshal_uint32 | SUInt64 => Unmarshal_uint64
  | SFloat => Unmarshal_float | SDouble => Unmarshal_double | SBool => Unmarshal_bool | SString => Unmarshal_string
  | SEnum => Unmarshal_enum
  end.

Definition Unmarshal_key (k : key) : unmarshaller (denote_key k) :=
  match k with
  | KString => Unmarshal_string | KInt32 => Unmarshal_int32 | KInt64 => Unmarshal_int64 | KUInt64 => Unmarshal_uint64
  end.

Fixpoint Unmarshal (t : ty) : unmarshaller (denote t) :=
  match t with
  | TScalar s => Unmarshal_scalar_ty s
  | TVector t => Unmarshal_vector (Unmarshal t) (initial t)
  | TSet k => Unmarshal_set (Unmarshal_key k) (initial_key k)
  | TUnorderedSet k => Unmarshal_unordered_set (Unmarshal_key k) (initial_key k)
  | TMap k t =>
      match k with
      | KString => Unmarshal_map_string (Unmarshal t) (initial t)
      | KInt32 => Unmarshal_map_int32 (Unmarshal t) (initial t)
      | KInt64 => Unmarshal_map_int64 (Unmarshal t) (initial t)
      | KUInt64 => Unmarshal_map_uint64 (Unmarshal t) (initial t)
      end
  | TUnorderedMap k t =>
      match k with
      | KString => Unmarshal_unordered_map_string (Unmarshal t) (initial t)
      | KInt32 => Unmarshal_unordered_map_int32 (Unmarshal t) (initial t)
      | KInt64 => Unmarshal_unordered_map_int64 (Unmarshal t) (initial t)
      | KUInt64 => Unmarshal_unordered_map_uint64 (Unmarshal t) (initial t)
      end
  | TUnorderedMapUInt32 t => Unmarshal_unordered_map_uint32 (Unmarshal t) (initial t)
  | TPointer t => Unmarshal_pointer (Unmarshal t)
  | TClass n t fs => Unmarshal_class (unmarshal_field n (Unmarshal t) (Unmarshal_fields fs))
  end
with Unmarshal_fields (fs : fields) : unmarshal_fields (denote_fields fs) :=
  match fs with
  | FNil => unmarshal_no_field
  | FCons n t fs => unmarshal_field n (Unmarshal t) (Unmarshal_fields fs)
  end.

Fixpoint field_names (fs : fields) : list bytes :=
  match fs with FNil => [] | FCons n _ fs => n :: field_names fs end.

(** The fields of every class have different names; the elements of a vector
    are not raw pointers, which would start uninitialised. *)
Fixpoint well_formed (t : ty) : Prop :=
  match t with
  | TVector t => match t with TPointer _ => False | _ => True end /\ well_formed t
  | TMap _ t | TUnorderedMap _ t | TUnorderedMapUInt32 t | TPointer t => well_formed t
  | TClass n t fs => n ∉ field_names fs /\ well_formed t /\ well_formed_fields fs
  | TScalar _ | TSet _ | TUnorderedSet _ => True
  end
with well_formed_fields (fs : fields) : Prop :=
  match fs with
  | FNil => True
  | FCons n t fs => n ∉ field_names fs /\ well_formed t /\ well_formed_fields fs
  end.

(** The text a value is written as, if it is written as a string. *)
Fixpoint text_of (t : ty) : denote t -> option bytes :=
  match t with
  | TScalar s => match s return denote_scalar s -> option bytes with SString => Some | _ => no_text end
  | TPointer t => fun p => match p with None => Some kNullptrJsonStr | Some x => text_of t x end
  | _ => no_text
  end.

(** What a target holding [y] holds after [x] was read into it: [x], but for the
    pointers that were null and stay so. *)
Fixpoint into (t : ty) : denote t -> denote t -> denote t :=
  match t with
  | TVector t => fun xs _ => all_into (into t) (initial t) xs
  | TMap _ t | TUnorderedMap _ t | TUnorderedMapUInt32 t => fun xs _ => map_into (into t) (initial t) xs
  | TPointer t => pointer_into (into t)
  | TClass _ t fs => fun p q => (into t (fst p) (fst q), into_fields fs (snd p) (snd q))
  | TScalar _ | TSet _ | TUnorderedSet _ => itself
  end
with into_fields (fs : fields) : denote_fields fs -> denote_fields fs -> denote_fields fs :=
  match fs with
  | FNil => itself
  | FCons _ t fs => fun p q => (into t (fst p) (fst q), into_fields fs (snd p) (snd q))
  end.

(** Whether a target holding [y] can receive [x]: where [x] points to something,
    so must the target. *)
Fixpoint receives (t : ty) : denote t -> denote t -> Prop :=
  match t with
  | TVector t => fun xs _ => Forall (fun x => receives t x (initial t)) xs
  | TMap _ t | TUnorderedMap _ t | TUnorderedMapUInt32 t =>
      fun xs _ => Forall (fun e => receives t (snd e) (initial t)) xs
  | TPointer t => fun p q => match p with None => True | Some x => exists y, q = Some y /\ receives t x y end
  | TClass _ t fs => fun p q => receives t (fst p) (fst q) /\ receives_fields fs (snd p) (snd q)
  | TScalar _ | TSet _ | TUnorderedSet _ => fun _ _ => True
  end
with receives_fields (fs : fields) : denote_fields fs -> denote_fields fs -> Prop :=
  match fs with
  | FNil => fun _ _ => True
  | FCons _ t fs => fun p q => receives t (fst p) (fst q) /\ receives_fields fs (snd p) (snd q)
  end.

Definition fits_scalar (s : scalar) : denote_scalar s -> Prop :=
  match s with
  | SInt32 | SEnum => in_s 32
  | SInt64 => in_s 64
  | SUInt32 => in_u 32
  | SUInt64 => in_u 64
  | SFloat | SDouble | SBool | SString => fun _ => True
  end.

(** Values that fit their types; containers are in order and not empty, and no
    pointer leads to the text that stands for the null pointer. *)
Fixpoint fits (t : ty) : denote t -> Prop :=
  match t with
  | TScalar s => fits_scalar s
  | TVector t => fun xs => xs <> [] /\ Forall (fits t) xs
  | TSet k | TUnorderedSet k => fun xs => xs <> [] /\ Forall (fits_key k) xs /\ StdSet.sorted xs
  | TMap k t | TUnorderedMap k t => map_ok (fits_key k) (fits t)
  | TUnorderedMapUInt32 t => map_ok (in_u 32) (fits t)
  | TPointer t => fun p => match p with None => True | Some x => fits t x /\ text_of t x <> Some kNullptrJsonStr end
  | TClass _ t fs => fun p => fits t (fst p) /\ fits_fields fs (snd p)
  end
with fits_fields (fs : fields) : denote_fields fs -> Prop :=
  match fs with
  | FNil => fun _ => True
  | FCons _ t fs => fun p => fits t (fst p) /\ fits_fields fs (snd p)
  end.

Section laws.
Context {JL : JsonLaws V R}.

Lemma key_rt k : exists str, RoundTrip (Marshal_key k) (Unmarshal_key k) (fits_key k) itself str.
Proof. destruct k; eexists; apply _. Qed.

Fixpoint ty_rt (t : ty) : well_formed t -> RoundTrip (Marshal t) (Unmarshal t) (fits t) (into t) (text_of t)
with fields_ty_rt (fs : fields) :
  well_formed_fields fs ->
  fields_rt (field_names fs) (Marshal_fields fs) (Unmarshal_fields fs) (fits_fields fs) (into_fields fs).
Proof.
  - destruct t; simpl; intros Hw.
    + destruct s; apply _.
    + pose proof (ty_rt t (proj2 Hw)). by eapply vector_rt.
    + destruct (key_rt k) as [str Hk]. by apply (set_rt (Marshal_key k) (Unmarshal_key k) (fits_key k) str (initial_key k)).
    + destruct (key_rt k) as [str Hk].
      by apply (unordered_set_rt (Marshal_key k) (Unmarshal_key k) (fits_key k) str (initial_key k)).
    + pose proof (ty_rt t Hw). destruct k; simpl; [by eapply map_string_rt|by eapply map_int32_rt|by eapply map_int64_rt|by eapply map_uint64_rt].
    + pose proof (ty_rt t Hw). destruct k; simpl; [by eapply unordered_map_string_rt|by eapply unordered_map_int32_rt|by eapply unordered_map_int64_rt|by eapply unordered_map_uint64_rt].
    + pose proof (ty_rt t Hw). by eapply unordered_map_uint32_rt.
    + pose proof (ty_rt t Hw). by eapply pointer_rt.
    + destruct Hw as (Hn & Ht & Hf). pose proof (ty_rt t Ht).
      apply (class_rt (name :: field_names fs)); [done|].
      eapply field_rt; [done|done|by apply fields_ty_rt].
  - destruct fs; simpl; intros Hw; [apply no_field_rt|].
    destruct Hw as (Hn & Ht & Hf). pose proof (ty_rt t Ht).
    eapply field_rt; [done|done|by apply fields_ty_rt].
Qed.

Lemma all_into_id {T} (f : T -> T -> T) tmp xs : Forall (fun x => f x tmp = x) xs -> all_into f tmp xs = xs.
Proof. unfold all_into. induction 1 as [|x xs Hx _ IH]; [done|]. cbn. by rewrite Hx, IH. Qed.

Lemma map_into_id {K T} (f : T -> T -> T) tmp (xs : list (K * T)) :
  Forall (fun e => f (snd e) tmp = snd e) xs -> map_into f tmp xs = xs.
Proof.
  unfold map_into, entry_into. induction 1 as [|[k x] xs Hx _ IH]; [done|]. cbn in *. by rewrite Hx, IH.
Qed.

Fixpoint into_id (t : ty) : forall x y, receives t x y -> into t x y = x
with into_fields_id (fs : fields) : forall x y, receives_fields fs x y -> into_fields fs x y = x.
Proof.
  - destruct t; simpl; intros x y Hr; try done.
    1: apply all_into_id. 2-4: apply map_into_id.
    1-4: eapply Forall_impl; [exact Hr|]; intros e; apply into_id.
    + destruct x as [x|]; [|done]. destruct Hr as (z & -> & Hz). simpl. by rewrite into_id.
    + destruct x as [x xs], Hr as [H1 H2]. simpl. by rewrite into_id, into_fields_id.
  - destruct fs; simpl; intros x y Hr; [done|].
    destruct x as [x xs], Hr as [H1 H2]. simpl. by rewrite into_id, into_fields_id.
Qed.

(** C2: for every type built to any depth from the scalar overloads, vectors (of
    anything but pointers), sets of strings, int32, int64 or uint64, maps with these
    keys (unordered ones with uint32 keys too), pointers and classes with distinct
    field names, and for every value in the range of its type whose containers are not
    empty at any level and whose pointers do not lead to the text [nullptr]: [Marshal]
    succeeds and [Unmarshal] succeeds on the result, whatever the target held.  The
    target then holds the value, provided that where the value has a pointer to
    something the target has one too; where it does not, the pointee is dropped
    ([into]).  Unordered containers may be visited in any order. *)
Theorem json_round_trip (t : ty) (x : denote t) :
  well_formed t -> fits t x ->
  exists v, Marshal t x jnull = (true, v) /\
    forall y, Unmarshal t v y = Some (true, into t x y) /\ (receives t x y -> into t x y = x).
Proof.
  intros Hw Hx. destruct (ty_rt t Hw x Hx) as (v & E & _ & Hu). exists v. eauto using into_id.
Qed.
End laws.

Lemma elements_loop_length {T} (u : unmarshaller T) tmp root n : forall i ret acc b l,
  elements_loop u tmp (fun x obj => obj ++ [x]) n i root ret acc = Some (b, l) ->
  length l = (length acc + n)%nat /\
  (b = true <-> ret = true /\ forall k, (k < n)%nat -> exists x, u (at_index root (i + Z.of_nat k)) tmp = Some (true, x)).
Proof.
  induction n as [|n IH]; intros i ret acc b l E; simpl in E.
  { simplify_eq. split; [lia|]. split; [intros ->; split; [done|lia]|by intros [-> _]]. }
  destruct (u (at_index root i) tmp) as [[b0 x]|] eqn:Eu; [|done]. simpl in E.
  destruct (IH _ _ _ _ _ E) as [Hl Hb]. split; [rewrite Hl, length_app; simpl; lia|].
  rewrite Hb, andb_true_iff. split.
  - intros [[-> ->] Hk]. split; [done|]. intros [|k] Hlt; [rewrite Z.add_0_r; eauto|].
    replace (i + Z.of_nat (S k)) with (i + 1 + Z.of_nat k) by lia. apply Hk. lia.
  - intros [-> Hk]. destruct (Hk 0%nat ltac:(lia)) as [x0 H0]. rewrite Z.add_0_r, Eu in H0. simplify_eq.
    split; [done|]. intros k Hlt. replace (i + 1 + Z.of_nat k) with (i + Z.of_nat (S k)) by lia. apply Hk. lia.
Qed.

(** Parsing an array into a vector yields one element per array element even
    when some of them fail, and reports success exactly if none did. *)
Theorem vector_keeps_its_length {T} (u : unmarshaller T) (tmp : T) (root : V) (obj obj' : list T) (b : bool) :
  isArray root = true -> 0 <= size root -> Unmarshal_vector u tmp root obj = Some (b, obj') ->
  vlen obj' = size root /\
  (b = true <-> forall i, 0 <= i < size root -> exists x, u (at_index root i) tmp = Some (true, x)).
Proof.
  intros Ha Hs E. unfold Unmarshal_vector, Unmarshal_elements in E. rewrite Ha in E. cbn [negb] in E.
  destruct (elements_loop_length u tmp root _ _ _ _ _ _ E) as [Hl Hb]. unfold vlen. rewrite Hl. simpl.
  split; [lia|]. rewrite Hb. split.
  - intros [_ Hk] i Hi. specialize (Hk (Z.to_nat i) ltac:(lia)). rewrite Z.add_0_l, Z2Nat.id in Hk by lia. done.
  - intros Hk. split; [done|]. intros k Hlt. rewrite Z.add_0_l. apply Hk. lia.
Qed.

(** ** On text *)

Section text_laws.
Context {JL : JsonLaws V R} {JE : JsonEquiv V R}.
Context (parse : bytes -> option V) (write : bool -> V -> bytes) (representable : V -> Prop).

(** The writers' texts can be read, with or without a newline at the end, and
    give a value that cannot be told from the one written. *)
Hypothesis parse_write : forall style v, representable v -> exists w, parse (write style v) = Some w /\ jeq w v.
Hypothesis parse_newline : forall s, parse (s ++ [LF]) = parse s.

Fixpoint Unmarshal_proper (t : ty) : Proper (jeq ==> eq ==> eq) (Unmarshal t)
with Unmarshal_fields_proper (fs : fields) : Proper (jeq ==> eq ==> eq ==> eq) (Unmarshal_fields fs).
Proof.
  - destruct t; simpl.
    + destruct s; apply _.
    + apply elements_proper, Unmarshal_proper.
    + destruct k; apply elements_proper; apply _.
    + destruct k; apply elements_proper; apply _.
    + destruct k; apply members_proper', Unmarshal_proper.
    + destruct k; apply members_proper', Unmarshal_proper.
    + apply members_proper', Unmarshal_proper.
    + apply pointer_proper, Unmarshal_proper.
    + apply class_proper, field_proper; [apply Unmarshal_proper|apply Unmarshal_fields_proper].
  - destruct fs; simpl; [apply no_field_proper|].
    apply field_proper; [apply Unmarshal_proper|apply Unmarshal_fields_proper].
Qed.

Lemma parse_chomp s : parse (chomp s) = parse s.
Proof.
  unfold chomp. destruct (last s) as [c|] eqn:El; [|done]. case_decide as Hc; [subst c|done].
  apply last_Some in El as [s' ->]. rewrite length_app. simpl.
  replace (length s' + 1 - 1)%nat with (length s') by lia. by rewrite take_app_length, parse_newline.
Qed.

(** The round trip on text: what [Marshal], [ToString] and [ToStringFormatted]
    write, [Unmarshal] of that text reads back: the target
    then holds the same value, if it has a pointer wherever the value has one. *)
Theorem json_text_round_trip (t : ty) (x y : denote t) (style : bool) :
  well_formed t -> fits t x ->
  (forall v, Marshal t x jnull = (true, v) -> representable v) ->
  exists s, Marshal_text write (Marshal t) x style = (true, s) /\
    Unmarshal_text parse (Unmarshal t) s y = Some (true, into t x y) /\
    Unmarshal_text parse (Unmarshal t) (ToString write (Marshal t) x) y = Some (true, into t x y) /\
    Unmarshal_text parse (Unmarshal t) (ToStringFormatted write (Marshal t) x) y = Some (true, into t x y) /\
    (receives t x y -> into t x y = x).
Proof.
  intros Hw Hx Hr. destruct (ty_rt t Hw x Hx) as (v & E & _ & Hu). specialize (Hr v E).
  assert (forall st s, parse s = parse (write st v) -> Unmarshal_text parse (Unmarshal t) s y = Some (true, into t x y)) as Hread.
  { intros st s Hs. unfold Unmarshal_text. rewrite Hs. destruct (parse_write st v Hr) as (w & -> & Hwv).
    rewrite (Unmarshal_proper t w v Hwv y y eq_refl). by apply Hu. }
  unfold ToString, ToStringFormatted, Marshal_text. rewrite E. simpl.
  eexists. split_and!; [done|by eapply Hread|eapply Hread, parse_chomp|eapply Hread, parse_chomp|apply into_id].
Qed.
End text_laws.

End types.
