(* ===== verification/JsonModel.v ===== *)
(** * A model of jsoncpp's interface

    A concrete [Json::Value] with the documented behaviour, a reader and a writer
    for it, and an order in which unordered containers are visited: the
    hypotheses of the theorems about json_helper hold for it.  Reals are decimal
    fractions; the text is not JSON, it only has to be readable. *)

From S2P Require Import Prelude StdMap Decimal JsonMarshal JsonRoundTrip JsonHelper.

Module JsonModel.

(** [(m, e)] is m * 10^e *)
Definition real : Type := Z * Z.

Inductive json :=
  | JNull | JInt (z : Z) | JUInt (z : Z) | JReal (r : real) | JBool (b : bool) | JString (s : bytes)
  | JArray (xs : list json) | JObject (m : list (bytes * json)).

Definition in_range (lo hi : Z) (v : json) : option Z :=
  match v with
  | JInt z | JUInt z => if (lo <=? z) && (z <? hi) then Some z else None
  | _ => None
  end.

#[global] Instance json_value : JsonValue json real := {
  jnull := JNull;
  of_int := JInt;
  of_uint := JUInt;
  of_real := JReal;
  of_bool := JBool;
  of_string := JString;
  at_index v i := match v with JArray xs => default JNull (xs !! Z.to_nat i) | _ => JNull end;
  put_index v i c :=
    match v with
    | JArray xs => JArray (take (Z.to_nat i) (xs ++ replicate (Z.to_nat i - length xs) JNull) ++ c :: drop (S (Z.to_nat i)) xs)
    | _ => JArray (replicate (Z.to_nat i) JNull ++ [c])
    end;
  at_key v k := match v with JObject m => default JNull (StdMap.find k m) | _ => JNull end;
  put_key v k c := match v with JObject m => JObject (StdMap.assign k c m) | _ => JObject [(k, c)] end;
  append v c := match v with JArray xs => JArray (xs ++ [c]) | _ => JArray [c] end;
  size v := match v with JArray xs => vlen xs | JObject m => vlen m | _ => 0 end;
  members v := match v with JObject m => StdMap.keys m | _ => [] end;
  isIntegral v := match v with JInt _ | JUInt _ => true | _ => false end;
  isDouble v := match v with JInt _ | JUInt _ | JReal _ => true | _ => false end;
  isBool v := match v with JBool _ => true | _ => false end;
  isString v := match v with JString _ => true | _ => false end;
  isArray v := match v with JArray _ => true | _ => false end;
  isObject v := match v with JObject _ => true | _ => false end;
  asInt := in_range (- 2 ^ 31) (2 ^ 31);
  asInt64 := in_range (- 2 ^ 63) (2 ^ 63);
  asUInt := in_range 0 (2 ^ 32);
  asUInt64 := in_range 0 (2 ^ 64);
  asReal v := match v with JReal r => Some r | JInt z | JUInt z => Some (z, 0) | _ => None end;
  asBool v := match v with JBool b => Some b | _ => None end;
  asString v := match v with JString s => Some s | _ => None end;
}.

Lemma in_range_int lo hi z : lo <= z < hi -> in_range lo hi (JInt z) = Some z.
Proof. intros H. simpl. rewrite (proj2 (Z.leb_le _ _)), (proj2 (Z.ltb_lt _ _)) by lia. done. Qed.

Lemma in_range_uint lo hi z : lo <= z < hi -> in_range lo hi (JUInt z) = Some z.
Proof. intros H. simpl. rewrite (proj2 (Z.leb_le _ _)), (proj2 (Z.ltb_lt _ _)) by lia. done. Qed.

Lemma array_shape v xs : is_array v xs -> v = JArray xs.
Proof.
  intros (Ha & Hs & Hat). destruct v; try done. simpl in *. f_equal. apply list_eq. intros i.
  assert (length xs0 = length xs) as Hl by (unfold vlen in Hs; lia).
  destruct (xs !! i) as [x|] eqn:E.
  - specialize (Hat i x E). rewrite Nat2Z.id in Hat. apply lookup_lt_Some in E as Hlt.
    destruct (xs0 !! i) eqn:E0; [simpl in Hat; by subst|]. apply lookup_ge_None in E0. lia.
  - apply lookup_ge_None in E. apply lookup_ge_None. lia.
Qed.

Lemma is_array_JArray xs : is_array (JArray xs) xs.
Proof. split_and!; [done|done|]. intros i x E. simpl. by rewrite Nat2Z.id, E. Qed.

Lemma object_shape v m : is_object v m -> exists o, v = JObject o /\ StdMap.keys o = StdMap.keys m /\
  forall k x, StdMap.find k m = Some x -> StdMap.find k o = Some x.
Proof.
  intros (Ho & Hm & Hat). destruct v; try done. exists m0. split_and!; [done|done|]. intros k x Hk.
  specialize (Hat k x Hk). simpl in *. destruct (StdMap.find k m0) eqn:E; [simpl in Hat; by subst|].
  apply StdMap.find_None in E. rewrite Hm in E. destruct E.
  apply StdMap.find_Some_elem in Hk. by apply (list_elem_of_fmap_2 fst) in Hk.
Qed.

(** Assigning into maps with the same keys keeps their keys the same. *)
Lemma keys_assign_same {A B} k (a : A) (b : B) (m : list (bytes * A)) (o : list (bytes * B)) :
  StdMap.keys o = StdMap.keys m -> StdMap.keys (StdMap.assign k b o) = StdMap.keys (StdMap.assign k a m).
Proof.
  unfold StdMap.keys. revert o. induction m as [|[k0 a0] m IH]; intros [|[k1 b1] o] E; simpl in *; try done.
  injection E as -> E. repeat case_test; simpl; rewrite ?E; try done. f_equal. by apply IH.
Qed.

#[global] Instance json_laws : JsonLaws json real.
Proof.
  constructor.
  - intros z. split_and!; [done|..]; intros Hz; by apply in_range_int.
  - intros z. split_and!; [done|..]; intros Hz; by apply in_range_uint.
  - done.
  - done.
  - done.
  - done.
  - done.
  - done.
  - done.
  - by intros [] [?|?].
  - intros v xs [[-> ->]|Ha]; [done|]. apply array_shape in Ha as ->. simpl.
    unfold vlen. rewrite Nat2Z.id, lookup_ge_None_2 by done. done.
  - intros v xs c [[-> ->]|Ha]; [apply (is_array_JArray [c])|]. apply array_shape in Ha as ->.
    assert (put_index (JArray xs) (vlen xs) c = JArray (xs ++ [c])) as ->; [|apply is_array_JArray].
    simpl. unfold vlen. rewrite Nat2Z.id, Nat.sub_diag. simpl. rewrite app_nil_r, firstn_all.
    by rewrite drop_ge by lia.
  - intros v xs c [[-> ->]|Ha]; [apply (is_array_JArray [c])|]. apply array_shape in Ha as ->.
    apply is_array_JArray.
  - intros v m k [[-> ->]|Ho] Hk; [done|]. apply object_shape in Ho as (o & -> & Hkeys & _). simpl.
    apply StdMap.find_None in Hk. rewrite <- Hkeys in Hk. apply StdMap.find_None in Hk. by rewrite Hk.
  - intros v m k c [[-> ->]|Ho].
    + split_and!; [done|done|]. intros k' x. simpl. case_decide; [by intros [= <-]|done].
    + apply object_shape in Ho as (o & -> & Hkeys & Hf). split_and!; [done|by apply keys_assign_same|].
      intros k' x. simpl. rewrite !StdMap.find_assign. case_decide; [by intros [= <-]|].
      intros Hx. by rewrite (Hf _ _ Hx).
Qed.

#[global] Instance rev_order : HashOrder := {
  hash_order A l := reverse l;
  hash_order_perm A l := reverse_Permutation l;
}.

(** Values that are equal are not told apart. *)
#[global] Instance json_equiv : JsonEquiv json real.
Proof. refine {| jeq := eq |}; try apply _; by intros ? ? ->. Defined.

(** ** A reader and a writer *)

(** A value as a tree of leaves. *)
Definition leaf : Type := Z + real + bool + bytes.

Fixpoint to_tree (v : json) : gen_tree leaf :=
  match v with
  | JNull => GenNode 0 []
  | JInt z => GenNode 1 [GenLeaf (inl (inl (inl z)))]
  | JUInt z => GenNode 2 [GenLeaf (inl (inl (inl z)))]
  | JReal r => GenNode 3 [GenLeaf (inl (inl (inr r)))]
  | JBool b => GenNode 4 [GenLeaf (inl (inr b))]
  | JString s => GenNode 5 [GenLeaf (inr s)]
  | JArray xs => GenNode 6 (to_tree <$> xs)
  | JObject m => GenNode 7 ((fun e => GenNode 8 [GenLeaf (inr (fst e)); to_tree (snd e)]) <$> m)
  end.

Fixpoint of_tree (t : gen_tree leaf) : json :=
  match t with
  | GenNode 1 [GenLeaf (inl (inl (inl z)))] => JInt z
  | GenNode 2 [GenLeaf (inl (inl (inl z)))] => JUInt z
  | GenNode 3 [GenLeaf (inl (inl (inr r)))] => JReal r
  | GenNode 4 [GenLeaf (inl (inr b))] => JBool b
  | GenNode 5 [GenLeaf (inr s)] => JString s
  | GenNode 6 ts => JArray (of_tree <$> ts)
  | GenNode 7 ts =>
      JObject ((fun t => match t with GenNode 8 [GenLeaf (inr k); t'] => (k, of_tree t') | _ => ([], JNull) end) <$> ts)
  | _ => JNull
  end.

Fixpoint of_to_tree (v : json) : of_tree (to_tree v) = v.
Proof.
  destruct v as [|z|z|r|b|s|xs|m]; [reflexivity..| |]; simpl; f_equal.
  - induction xs as [|x xs IH]; [reflexivity|]. simpl. f_equal; [apply of_to_tree|exact IH].
  - induction m as [|[k x] m IH]; [reflexivity|]. simpl. f_equal; [by rewrite of_to_tree|exact IH].
Qed.

(** A positive number as a text of binary digits. *)
Fixpoint bits (p : positive) : bytes :=
  match p with xH => [] | xO p => "0"%char :: bits p | xI p => "1"%char :: bits p end.

Fixpoint of_bits (s : bytes) : positive :=
  match s with
  | [] => xH
  | c :: s => if decide (c = "0"%char) then xO (of_bits s) else xI (of_bits s)
  end.

Lemma of_bits_bits p : of_bits (bits p) = p.
Proof. induction p as [p IH|p IH|]; simpl; rewrite ?IH; done. Qed.

Definition write (style : bool) (v : json) : bytes := bits (encode (to_tree v)) ++ [LF].

Definition parse (s : bytes) : option json := of_tree <$> decode (of_bits (base.filter (fun c => c <> LF) s)).

Lemma filter_bits p : base.filter (fun c => c <> LF) (bits p) = bits p.
Proof. induction p as [p IH|p IH|]; simpl; [| |done]; rewrite filter_cons_True, IH; done. Qed.

Lemma parse_write style v : exists w, parse (write style v) = Some w /\ w = v.
Proof.
  exists v. split; [|done]. unfold parse, write.
  rewrite filter_app, filter_bits, filter_cons_False, app_nil_r, of_bits_bits, decode_encode by naive_solver.
  simpl. by rewrite of_to_tree.
Qed.

Lemma parse_newline s : parse (s ++ [LF]) = parse s.
Proof. unfold parse. by rewrite filter_app, filter_cons_False, app_nil_r by naive_solver. Qed.

(** ** Instances of the theorems *)

(** A class with a vector, and a map of such objects under [int32_t] keys. *)
Definition sample_ty : ty :=
  TMap KInt32 (TClass (lit "id") (TScalar SUInt32)
    (FCons (lit "name") (TScalar SString) (FCons (lit "xs") (TVector (TScalar SInt64)) FNil))).

Definition sample_value : denote (R := real) sample_ty :=
  [(-5, (7, (lit "a", ([1; -2], ())))); (10, (8, (lit "b", ([3], ()))))].

Lemma sample_well_formed : well_formed sample_ty.
Proof.
  cbn [well_formed well_formed_fields sample_ty field_names].
  split_and!; try done; apply (bool_decide_unpack _); vm_compute; exact I.
Qed.

Lemma sample_fits : fits sample_ty sample_value.
Proof.
  cbn [fits sample_ty]. split_and!; [done|repeat constructor|].
  repeat constructor; simpl; unfold in_s, in_u; try lia; try done; repeat constructor; lia.
Qed.

Lemma json_round_trip_witness :
  exists v, Marshal (V := json) sample_ty sample_value jnull = (true, v) /\
    forall y, Unmarshal (0, 0) sample_ty v y = Some (true, into (0, 0) sample_ty sample_value y) /\
      (receives (0, 0) sample_ty sample_value y -> into (0, 0) sample_ty sample_value y = sample_value).
Proof.
  apply (json_round_trip (V := json) (0, 0) sample_ty sample_value); [apply sample_well_formed|apply sample_fits].
Defined.

Lemma vector_keeps_its_length_witness :
  vlen [1; 0; 3] = size (JArray [JInt 1; JString []; JInt 3]) /\
  (false = true <-> forall i, 0 <= i < size (JArray [JInt 1; JString []; JInt 3]) ->
     exists x, Unmarshal_int32 (at_index (JArray [JInt 1; JString []; JInt 3]) i) 0 = Some (true, x)).
Proof.
  apply (vector_keeps_its_length Unmarshal_int32 0 (JArray [JInt 1; JString []; JInt 3]) [] [1; 0; 3] false);
    [reflexivity|done|reflexivity].
Defined.

End JsonModel.
