(* ===== verification/JsonExample.v ===== *)
(** * json_helper/example/{marshal,unmarshal}.cc

    The two example programs, for any jsoncpp.  Real literals are parameters:
    [3.11], [3.1415f] and [3.1415926f]. *)

From S2P Require Import Prelude StdMap Decimal JsonMarshal JsonRoundTrip JsonHelper JsonModel.

(** [std::cout << s << std::endl] *)
Definition line (s : bytes) : bytes := s ++ [LF].

(** [struct SubClass], the same in both programs. *)
Definition SubClass : ty := TClass (lit "name") (TScalar SString) (FCons (lit "pi") (TScalar SFloat) FNil).

(** [enum Color], [enum class Gender] *)
Definition kBlue : Z := 1.
Definition kMale : Z := 1.

(** The fields the two classes have in common, with the element type of the map
    and what comes at the end. *)
Definition foo_fields (map : ty) (more : fields) : ty :=
  TClass (lit "money") (TScalar SInt32)
  (FCons (lit "uid") (TScalar SInt64)
  (FCons (lit "age") (TScalar SUInt32)
  (FCons (lit "birthday") (TScalar SDouble)
  (FCons (lit "name") (TScalar SString)
  (FCons (lit "list") (TVector (TScalar SInt32))
  (FCons (lit "set") (TSet KString)
  (FCons (lit "color") (TScalar SEnum)
  (FCons (lit "gender") (TScalar SEnum)
  (FCons (lit "sub_class") SubClass
  (FCons (lit "map") map
  (FCons (lit "pi") (TPointer (TScalar SInt32))
  (FCons (lit "ps") (TPointer (TScalar SString))
  (FCons (lit "p_sub_class") (TPointer SubClass) more))))))))))))).

(** Decides that the names of the fields are different. *)
Ltac distinct_names :=
  repeat lazymatch goal with
  | |- _ /\ _ => split
  | |- True => exact I
  | |- well_formed _ => hnf
  | |- well_formed_fields _ => hnf
  | |- _ => apply (bool_decide_unpack _); vm_compute; exact I
  end.

(** ** marshal.cc *)
Module MarshalExample.
Section program.
Context {V R : Type} {JV : JsonValue V R} {HO : HashOrder} (r3_11 r3_1415 r3_1415926 : R).

Definition Foo : ty :=
  foo_fields (TUnorderedMap KString (TScalar SBool)) (FCons (lit "id") (TScalar SUInt64) FNil).

(** [Foo foo;] *)
Definition foo : denote (R := R) Foo :=
  (-1, (1234567890, (24, (r3_11, (lit "foo",
  ([-5; 10; 100; 20033], ([lit "cc"; lit "kkk-mmm"],
  (kBlue, (kMale,
  ((lit "sub_class", (r3_1415, ())),
  ([(lit "dog", false); (lit "mouse", true)],
  (None, (Some (lit "string"), (Some (lit "p_sub_class", (r3_1415926, ())),
  (100, ()))))))))))))))).

Context (write : bool -> V -> bytes).

(** What the program prints. *)
Definition main : bytes :=
  let '(_, json_str) := Marshal_text write (Marshal Foo) foo true in
  let '(_, json_str') := Marshal_text write (Marshal Foo) foo false in
  line (lit "============ with style ============") ++ line json_str ++
  line (lit "=========== without style ==========") ++ line json_str'.

Lemma foo_well_formed : well_formed Foo.
Proof. distinct_names. Qed.

Lemma foo_fits : fits Foo foo.
Proof.
  cbn. unfold map_ok, entry_ok, in_s, in_u, kBlue, kMale. split_and!; repeat constructor; simpl; try done; lia.
Qed.

(** The program prints the two texts of one value, and [Unmarshal] of that value
    into an object with the same members gives those of [foo], pointers apart. *)
Theorem marshal_example_prints {JL : JsonLaws V R} (r0 : R) :
  exists v,
    main = line (lit "============ with style ============") ++ line (write true v) ++
           line (lit "=========== without style ==========") ++ line (write false v) /\
    forall y, Unmarshal r0 Foo v y = Some (true, into r0 Foo foo y).
Proof.
  destruct (ty_rt r0 Foo foo_well_formed foo foo_fits) as (v & E & _ & Hu). exists v. split; [|exact Hu].
  unfold main, Marshal_text. by rewrite E.
Qed.
End program.
End MarshalExample.

(** ** unmarshal.cc *)
Module UnmarshalExample.

(** The text [json_str], with quotes written as apostrophes. *)
Definition quoted (s : bytes) : bytes := (fun c => if decide (c = "'"%char) then ascii_of_nat 34 else c) <$> s.

Definition json_str : bytes := quoted (lit "
{
  'age': 24,
  'birthday': 3.1099999999999999,
  'color': 1,
  'gender': 1,
  'list': [-5, 10, 100, 20033],
  'map': {
    '10': 20,
    '30': 123
  },
  'money': -1,
  'name': 'foo',
  'p_sub_class': {
    'name': 'p_sub_class',
    'pi': 3.1415925025939941
  },
  'pi': 'nullptr',
  'ps': 'string',
  'set': ['cc', 'kkk-mmm'],
  'sub_class': {
    'name': 'sub_class',
    'pi': 3.1414999961853027
  },
  'uid': 1234567890
}
    ").

(** What a run leaves: what was printed, the CHECKs that failed, the exit code. *)
Record outcome := mkOutcome { stdout : bytes; failed : list bytes; code : Z }.

Section program.
Context {V R : Type} {JV : JsonValue V R} {HO : HashOrder} (r0 r3_11 r3_1415 r3_1415926 : R).
Context (parse : bytes -> option V) (write : bool -> V -> bytes) (NDEBUG : bool).

Definition Foo : ty := foo_fields (TUnorderedMap KInt32 (TScalar SInt32)) FNil.

(** A new [Foo]; [color] and [gender] have no initialiser. *)
Definition new_foo (color gender : Z) : denote (R := R) Foo :=
  (0, (0, (0, (r0, ([], ([], ([], (color, (gender, (([], (r0, ())), ([], (None, (None, (None, ())))))))))))))).

Definition age (foo : denote (R := R) Foo) : Z := fst (snd (snd foo)).
Definition color (foo : denote (R := R) Foo) : Z := fst (snd (snd (snd (snd (snd (snd (snd foo))))))).
Definition gender (foo : denote (R := R) Foo) : Z := fst (snd (snd (snd (snd (snd (snd (snd (snd foo)))))))).

(** A CHECK that fails logs a fatal line, which ends a release build with
    [exit(0)]. *)
Definition check (expression : bytes) (holds : bool) (rest : outcome -> outcome) (o : outcome) : outcome :=
  if holds then rest o
  else
    let o' := mkOutcome (stdout o) (failed o ++ [expression]) 0 in
    if NDEBUG then o' else rest o'.

Definition rule : bytes := lit "=======================================================".

(** [None]: an exception that nobody catches. *)
Definition main (color0 gender0 : Z) : option outcome :=
  match parse json_str with
  | None => Some (mkOutcome (line (lit "jsoncpp parse fail!")) [] (-1))
  | Some root =>
      let out :=
        line (lit "======================= jsoncpp =======================") ++
        line (lit "jsoncpp str:" ++ write true root) ++ line rule ++
        line (lit "===================== json_helper =====================") in
      '(ok, foo) ← Unmarshal_text parse (Unmarshal r0 Foo) json_str (new_foo color0 gender0);
      Some (check (lit "::json_helper::Unmarshal(json_str, &foo)") ok (fun o =>
        let o := mkOutcome (stdout o ++ line (ToStringFormatted write (Marshal Foo) foo) ++ line rule) (failed o) 0 in
        check (lit "24 == foo.age") (bool_decide (24 = age foo))
          (check (lit "Foo::Color::kBlue == foo.color") (bool_decide (kBlue = color foo))
             (check (lit "Foo::Gender::kMale == foo.gender") (bool_decide (kMale = gender foo)) id)) o)
        (mkOutcome out [] 0))
  end.

(** ** What [json_str] says *)

Definition object (entries : list (bytes * V)) : V := foldl (fun v e => put_key v (fst e) (snd e)) jnull entries.
Definition array (elements : list V) : V := foldl append jnull elements.

Definition sub_class_entries (name : bytes) (pi : R) : list (bytes * V) :=
  [(lit "name", of_string name); (lit "pi", of_real pi)].

Definition map_entries : list (bytes * V) := [(lit "10", of_int 20); (lit "30", of_int 123)].

(** The members of the document, in the order of the text, which is that of the names. *)
Definition entries : list (bytes * V) :=
  [(lit "age", of_int 24); (lit "birthday", of_real r3_11); (lit "color", of_int 1); (lit "gender", of_int 1);
   (lit "list", array [of_int (-5); of_int 10; of_int 100; of_int 20033]);
   (lit "map", object map_entries);
   (lit "money", of_int (-1)); (lit "name", of_string (lit "foo"));
   (lit "p_sub_class", object (sub_class_entries (lit "p_sub_class") r3_1415926));
   (lit "pi", of_string (lit "nullptr")); (lit "ps", of_string (lit "string"));
   (lit "set", array [of_string (lit "cc"); of_string (lit "kkk-mmm")]);
   (lit "sub_class", object (sub_class_entries (lit "sub_class") r3_1415));
   (lit "uid", of_int 1234567890)].

Definition document : V := object entries.

(** What the program ends up with: the pointers stay null. *)
Definition parsed_foo : denote (R := R) Foo :=
  (-1, (1234567890, (24, (r3_11, (lit "foo",
  ([-5; 10; 100; 20033], ([lit "cc"; lit "kkk-mmm"],
  (kBlue, (kMale,
  ((lit "sub_class", (r3_1415, ())),
  ([(10, 20); (30, 123)], (None, (None, (None, ())))))))))))))).

Section run.
Context {JL : JsonLaws V R}.

(** [asUInt] of a number that an [unsigned int] can hold, whatever its sign type. *)
Hypothesis int_as_uint : forall z, in_u 32 z -> asUInt (of_int z) = Some z.

Lemma object_spec es : forall v m, object_so_far v m ->
  object_so_far (foldl (fun v e => put_key v (fst e) (snd e)) v es)
    (foldl (fun m e => StdMap.assign (fst e) (snd e) m) m es).
Proof.
  induction es as [|[k c] es IH]; intros v m Hv; [done|]. apply IH. right. by apply key_put_law.
Qed.

Lemma array_spec xs : forall v ys, array_so_far v ys -> array_so_far (foldl append v xs) (ys ++ xs).
Proof.
  induction xs as [|x xs IH]; intros v ys Hv; [by rewrite app_nil_r|].
  change (x :: xs) with ([x] ++ xs). rewrite app_assoc. apply IH. right. by apply append_law.
Qed.

(** An object, listed in the order of its names. *)
Lemma object_is_object es :
  es <> [] -> foldl (fun m e => StdMap.assign (fst e) (snd e) m) [] es = es -> is_object (object es) es.
Proof.
  intros Hne Hs. destruct (object_spec es jnull []) as [[_ E]|Ho]; [by left| |by rewrite Hs in Ho]. congruence.
Qed.

Lemma array_is_array xs : xs <> [] -> is_array (array xs) xs.
Proof. intros Hne. destruct (array_spec xs jnull []) as [[_ E]|Ho]; [by left|done|done]. Qed.

Lemma member es n c :
  es <> [] -> foldl (fun m e => StdMap.assign (fst e) (snd e) m) [] es = es -> StdMap.find n es = Some c ->
  at_key (object es) n = c.
Proof. intros Hne Hs Hf. by apply (object_is_object es Hne Hs). Qed.

Lemma read_int32 z y : in_s 32 z -> Unmarshal_int32 (of_int z) y = Some (true, z).
Proof. intros Hz. unfold Unmarshal_int32, Unmarshal_scalar. destruct (int_law z) as (-> & E & _). by rewrite E. Qed.

Lemma read_string s y : Unmarshal_string (of_string s) y = Some (true, s).
Proof. unfold Unmarshal_string, Unmarshal_scalar. by destruct (string_law s) as (-> & ->). Qed.

Lemma read_real r y : Unmarshal_double (of_real r) y = Some (true, r).
Proof. unfold Unmarshal_double, Unmarshal_scalar. by destruct (real_law r) as (-> & ->). Qed.

Lemma read_sub_class name pi y :
  Unmarshal r0 SubClass (object (sub_class_entries name pi)) y = Some (true, (name, (pi, ()))).
Proof.
  cbn [SubClass Unmarshal Unmarshal_fields Unmarshal_scalar_ty]. unfold Unmarshal_class, unmarshal_field.
  rewrite (member _ (lit "name") (of_string name)), (member _ (lit "pi") (of_real pi)) by done.
  rewrite read_string. cbn [mbind option_bind]. change (@Unmarshal_float) with (@Unmarshal_double).
  by rewrite read_real.
Qed.

Lemma read_map y :
  Unmarshal r0 (TUnorderedMap KInt32 (TScalar SInt32)) (object map_entries) y = Some (true, [(10, 20); (30, 123)]).
Proof.
  cbn [Unmarshal Unmarshal_scalar_ty]. unfold Unmarshal_unordered_map_int32, Unmarshal_members.
  destruct (object_is_object map_entries) as (-> & -> & Hm); [done|done|].
  cbn [negb map_entries StdMap.keys fmap list_fmap fst members_loop].
  rewrite (Hm (lit "10") (of_int 20)), (Hm (lit "30") (of_int 123)) by done.
  change (Decimal.sto 32 (lit "10")) with (Some 10). change (Decimal.sto 32 (lit "30")) with (Some 30).
  cbn [mbind option_bind]. rewrite read_int32 by done. cbn [mbind option_bind]. by rewrite read_int32 by done.
Qed.

Lemma entries_in_order : foldl (fun m e => StdMap.assign (fst e) (snd e) m) [] entries = entries.
Proof. reflexivity. Qed.

Lemma read_list y :
  Unmarshal r0 (TVector (TScalar SInt32)) (array [of_int (-5); of_int 10; of_int 100; of_int 20033]) y =
  Some (true, [-5; 10; 100; 20033]).
Proof.
  cbn [Unmarshal Unmarshal_scalar_ty]. unfold Unmarshal_vector.
  erewrite Unmarshal_elements_spec with (obj := [-5; 10; 100; 20033]); [done|by apply array_is_array|].
  repeat constructor; by apply read_int32.
Qed.

Lemma read_set y :
  Unmarshal r0 (TSet KString) (array [of_string (lit "cc"); of_string (lit "kkk-mmm")]) y =
  Some (true, [lit "cc"; lit "kkk-mmm"]).
Proof.
  cbn [Unmarshal Unmarshal_key]. unfold Unmarshal_set.
  erewrite Unmarshal_elements_spec with (obj := [lit "cc"; lit "kkk-mmm"]); [done|by apply array_is_array|].
  repeat constructor; apply read_string.
Qed.

(** A null target stays null, whatever is read. *)
Lemma read_null {T} (u : unmarshaller T) v :
  (isString v = true -> is_Some (asString v)) -> Unmarshal_pointer u v None = Some (true, None).
Proof.
  intros Hs. unfold Unmarshal_pointer. destruct (isString v); [|done]. destruct Hs as [s ->]; [done|].
  simpl. by case_bool_decide.
Qed.

Lemma object_text es : es <> [] -> foldl (fun m e => StdMap.assign (fst e) (snd e) m) [] es = es ->
  isString (object es) = true -> is_Some (asString (object es)).
Proof. intros Hne Hs. rewrite container_law; [done|]. right. by apply (object_is_object es Hne Hs). Qed.

Lemma field_step {A B} n (u : unmarshaller A) (rest : unmarshal_fields B) c (x y : A) (r z : B) :
  StdMap.find n entries = Some c -> u c y = Some (true, x) -> rest document true r = Some (true, z) ->
  unmarshal_field n u rest document true (y, r) = Some (true, (x, z)).
Proof.
  intros Hf Hu Hr. unfold unmarshal_field, document. rewrite (member entries n c); [|done|apply entries_in_order|done].
  simpl. rewrite Hu. simpl. unfold document in Hr. by rewrite Hr.
Qed.

Lemma read_document color0 gender0 :
  Unmarshal r0 Foo document (new_foo color0 gender0) = Some (true, parsed_foo).
Proof.
  unfold Foo, foo_fields. cbn [Unmarshal Unmarshal_fields]. unfold Unmarshal_class, new_foo, parsed_foo.
  repeat (eapply field_step; [reflexivity| |]); try reflexivity; cbn [Unmarshal_scalar_ty].
  - by apply read_int32.
  - unfold Unmarshal_int64, Unmarshal_scalar. destruct (int_law 1234567890) as (-> & _ & E). by rewrite E.
  - unfold Unmarshal_uint32, Unmarshal_scalar. destruct (int_law 24) as (-> & _). by rewrite int_as_uint.
  - apply read_real.
  - apply read_string.
  - apply read_list.
  - apply read_set.
  - by apply read_int32.
  - by apply read_int32.
  - apply read_sub_class.
  - apply read_map.
  - apply read_null. intros _. destruct (string_law (lit "nullptr")) as (_ & ->). eauto.
  - apply read_null. intros _. destruct (string_law (lit "string")) as (_ & ->). eauto.
  - apply read_null. by apply object_text.
Qed.

Lemma doc_well_formed : well_formed Foo.
Proof. distinct_names. Qed.

Lemma parsed_foo_fits : fits Foo parsed_foo.
Proof. cbn. unfold map_ok, entry_ok, in_s, in_u, kBlue, kMale. split_and!; repeat constructor; simpl; try done; lia. Qed.

(** When jsoncpp reads [json_str] as the document it spells, the example
    program ends with exit code 0 and no failed CHECK, whatever its uninitialised
    enumerations held, and prints the document and the [Foo] it was read into.
    The members [ps] and [p_sub_class] of that [Foo] are null although the
    document gives both: reading does not allocate. *)
Theorem unmarshal_example_succeeds (color0 gender0 : Z) :
  parse json_str = Some document ->
  exists v, Marshal Foo parsed_foo jnull = (true, v) /\
    main color0 gender0 = Some (mkOutcome
      (line (lit "======================= jsoncpp =======================") ++
       line (lit "jsoncpp str:" ++ write true document) ++ line rule ++
       line (lit "===================== json_helper =====================") ++
       line (chomp (write true v)) ++ line rule) [] 0).
Proof.
  intros Hp. destruct (ty_rt r0 Foo doc_well_formed parsed_foo parsed_foo_fits) as (v & E & _). exists v. split; [done|].
  unfold main, Unmarshal_text. rewrite Hp, read_document. cbn [mbind option_bind check].
  unfold ToStringFormatted, Marshal_text. rewrite E. cbn [negb]. unfold check. simpl. by rewrite <- !app_assoc.
Qed.

(** Without a document the program says so and returns -1. *)
Lemma unmarshal_example_no_document color0 gender0 :
  parse json_str = None -> main color0 gender0 = Some (mkOutcome (line (lit "jsoncpp parse fail!")) [] (-1)).
Proof. intros Hp. unfold main. by rewrite Hp. Qed.
End run.
End program.

(** A reader that knows the one text. *)
Definition reader (s : bytes) : option JsonModel.json :=
  if decide (s = json_str) then Some (document (R := JsonModel.real) (311, -2) (31415, -4) (31415926, -7)) else None.

Lemma int_as_uint_model z : in_u 32 z -> asUInt (JsonModel.JInt z) = Some z.
Proof. apply JsonModel.in_range_int. Qed.

Lemma unmarshal_example_succeeds_witness :
  exists v, Marshal (V := JsonModel.json) Foo (parsed_foo (311, -2) (31415, -4)) jnull = (true, v) /\
    main (0, 0) reader JsonModel.write true 77 (-5) = Some (mkOutcome
      (line (lit "======================= jsoncpp =======================") ++
       line (lit "jsoncpp str:" ++ JsonModel.write true (document (311, -2) (31415, -4) (31415926, -7))) ++ line rule ++
       line (lit "===================== json_helper =====================") ++
       line (chomp (JsonModel.write true v)) ++ line rule) [] 0).
Proof.
  apply (unmarshal_example_succeeds (V := JsonModel.json) (0, 0) (311, -2) (31415, -4) (31415926, -7)
    reader JsonModel.write true int_as_uint_model 77 (-5)).
  unfold reader. by rewrite decide_True.
Defined.
End UnmarshalExample.

(** The [Foo] of unmarshal.cc with everything its document gives, written and read
    into a new one. *)
Definition full_foo : denote (R := JsonModel.real) UnmarshalExample.Foo :=
  (-1, (1234567890, (24, ((311, -2), (lit "foo",
  ([-5; 10; 100; 20033], ([lit "cc"; lit "kkk-mmm"],
  (kBlue, (kMale,
  ((lit "sub_class", ((31415, -4), ())),
  ([(10, 20); (30, 123)],
  (None, (Some (lit "string"), (Some (lit "p_sub_class", ((31415926, -7), ())), ())))))))))))))).

Lemma full_foo_fits : fits UnmarshalExample.Foo full_foo.
Proof.
  cbn. unfold map_ok, entry_ok, in_s, in_u, kBlue, kMale. split_and!; repeat constructor; simpl; try done; lia.
Qed.

Lemma json_text_round_trip_witness :
  let new := UnmarshalExample.new_foo (R := JsonModel.real) (0, 0) 77 (-5) in
  let read s := Unmarshal_text JsonModel.parse (Unmarshal (0, 0) UnmarshalExample.Foo) s new in
  let result := into (0, 0) UnmarshalExample.Foo full_foo new in
  exists s, Marshal_text JsonModel.write (Marshal UnmarshalExample.Foo) full_foo true = (true, s) /\
    read s = Some (true, result) /\
    read (ToString JsonModel.write (Marshal UnmarshalExample.Foo) full_foo) = Some (true, result) /\
    read (ToStringFormatted JsonModel.write (Marshal UnmarshalExample.Foo) full_foo) = Some (true, result) /\
    (receives (0, 0) UnmarshalExample.Foo full_foo new -> result = full_foo).
Proof.
  intros new read result.
  exact (json_text_round_trip (0, 0) JsonModel.parse JsonModel.write (fun _ => True)
    (fun style v _ => JsonModel.parse_write style v) JsonModel.parse_newline
    UnmarshalExample.Foo full_foo new true UnmarshalExample.doc_well_formed full_foo_fits (fun _ _ => I)).
Defined.
