(* ===== verification/RedisProxy.v ===== *)
(** * Redis client (redis_proxy/redis_proxy.h, redis_proxy/redis_proxy.cpp)

    [RedisCommand] and [RedisProxy] over hiredis, which is a parameter: the class
    [Hiredis] has its calls, [HiredisLaws] what they document about the objects they
    allocate and about pipelining, and [RedisServer] adds a server that is up and
    answers GET and SET, with its clock and the times at which values expire.  Contexts and replies are addresses; dereferencing or
    freeing one that is not allocated is undefined behaviour, [None].  The log lines
    are left out. *)

From S2P Require Import Prelude Decimal Printf.

Module RedisProxy.

(** ** hiredis *)

Definition REDIS_REPLY_STRING : Z := 1.
Definition REDIS_REPLY_ARRAY : Z := 2.
Definition REDIS_REPLY_INTEGER : Z := 3.
Definition REDIS_REPLY_NIL : Z := 4.
Definition REDIS_REPLY_STATUS : Z := 5.
Definition REDIS_REPLY_ERROR : Z := 6.

(** [struct redisReply]: [rstr] is the buffer of [len] bytes, or a null pointer
    (with [len] zero). *)
Inductive redisReply := mkReply (type : Z) (integer : Z) (str : option bytes) (element : list redisReply).

Definition rtype (r : redisReply) : Z := let 'mkReply ty _ _ _ := r in ty.
Definition rinteger (r : redisReply) : Z := let 'mkReply _ n _ _ := r in n.
Definition rstr (r : redisReply) : option bytes := let 'mkReply _ _ s _ := r in s.
Definition relement (r : redisReply) : list redisReply := let 'mkReply _ _ _ es := r in es.

(** Seconds and microseconds. *)
Definition timeval : Type := Z * Z.

Class Hiredis (W : Type) := {
  redisConnectWithTimeout : bytes -> Z -> timeval -> W -> Z * W;
  err : Z -> W -> bool;
  redisSetTimeout : Z -> timeval -> W -> Z * W;
  redisFree : Z -> W -> W;
  redisCommandArgv : Z -> list bytes -> W -> Z * W;
  redisvCommand : Z -> bytes -> list Printf.arg -> W -> Z * W;
  redisAppendCommandArgv : Z -> list bytes -> W -> Z * W;
  (** the second argument is the caller's pointer, kept when the call fails *)
  redisGetReply : Z -> Z -> W -> (Z * Z) * W;
  reply_at : Z -> W -> redisReply;
  freeReplyObject : Z -> W -> W;
  (** the allocated contexts and replies *)
  live : W -> gset Z;
  (** the commands of a context whose replies have not been read yet *)
  unread : Z -> W -> list (list bytes)
}.

(** Strings, statuses and errors carry their text. *)
Definition well_formed (r : redisReply) : Prop :=
  rtype r ∈ [REDIS_REPLY_STRING; REDIS_REPLY_STATUS; REDIS_REPLY_ERROR] -> is_Some (rstr r).

(** A call that may return a new reply. *)
Definition allocates {W} `{Hiredis W} (c p : Z) (w w' : W) : Prop :=
  p = 0 /\ live w' = live w \/
  p <> 0 /\ p ∉ live w /\ live w' = {[p]} ∪ live w /\ well_formed (reply_at p w').

Class HiredisLaws (W : Type) `{Hiredis W} := {
  connect_law ip port tv w p w' : redisConnectWithTimeout ip port tv w = (p, w') ->
    p = 0 /\ live w' = live w \/
    p <> 0 /\ p ∉ live w /\ live w' = {[p]} ∪ live w /\ unread p w' = [];
  timeout_law c tv w ret w' : c ∈ live w -> redisSetTimeout c tv w = (ret, w') ->
    live w' = live w /\ unread c w' = unread c w;
  free_law c w : c ∈ live w -> live (redisFree c w) = live w ∖ {[c]};
  free_reply_law c p w : p ∈ live w -> c <> p ->
    live (freeReplyObject p w) = live w ∖ {[p]} /\ unread c (freeReplyObject p w) = unread c w;
  (** the reply returned is the one to this command when none was unread *)
  command_law c argv w p w' : c ∈ live w -> redisCommandArgv c argv w = (p, w') ->
    allocates c p w w' /\ (p <> 0 -> unread c w = [] -> unread c w' = []);
  vcommand_law c fmt args w p w' : c ∈ live w -> redisvCommand c fmt args w = (p, w') ->
    allocates c p w w' /\ (p <> 0 -> unread c w = [] -> unread c w' = []);
  append_law c argv w ret w' : c ∈ live w -> redisAppendCommandArgv c argv w = (ret, w') ->
    live w' = live w /\ (ret = 0 -> unread c w' = unread c w ++ [argv]);
  get_reply_law c old w ret p w' : c ∈ live w -> redisGetReply c old w = ((ret, p), w') ->
    ret <> 0 /\ p = old /\ live w' = live w \/
    ret = 0 /\ allocates c p w w' /\ (p <> 0 -> forall argv q, unread c w = argv :: q -> unread c w' = q)
}.

(** ** RedisCommand *)

Inductive argument := ACStr (s : bytes) | AString (s : bytes) | AInteger (z : Z).

(** The heap copies [argv] (the same pointers as [buffs]) and the reply. *)
Record RedisCommand := mkCommand { argv : list bytes; reply : Z }.

Definition newCommand : RedisCommand := mkCommand [] 0.

(** [strncpy] stops at a NUL and pads; a NUL follows. *)
Definition copied (val : bytes) : bytes :=
  c_str val ++ replicate (length val - length (c_str val)) NUL ++ [NUL].

Definition append (a : argument) (c : RedisCommand) : RedisCommand :=
  let s := match a with ACStr s => c_str s | AString s => s | AInteger z => Decimal.to_string z end in
  mkCommand (argv c ++ [copied s]) (reply c).

Fixpoint append_all (args : list argument) (c : RedisCommand) : RedisCommand :=
  match args with [] => c | a :: args' => append_all args' (append a c) end.

(** hiredis is given no lengths, so it takes the arguments as C strings. *)
Definition sent (c : RedisCommand) : list bytes := c_str <$> argv c.

Definition get_cmd_str (c : RedisCommand) : bytes :=
  snd (foldl (fun '(i, res) a =>
    (i + 1, res ++ (lit "[" ++ c_str a ++ lit "]") ++ (if i =? vlen (argv c) - 1 then [] else lit " ")))
    (0, []) (argv c)).

(** ** Responses *)

Inductive ReturnCode :=
  REPLY_UNKNOWN | REPLY_ERROR | CONNECTION_REFUSED | REPLY_STRING | REPLY_ARRAY | REPLY_INTEGER | REPLY_NIL | REPLY_STATUS.

#[global] Instance ReturnCode_eq_dec : EqDecision ReturnCode.
Proof. solve_decision. Defined.

Definition code_int (c : ReturnCode) : Z :=
  match c with
  | REPLY_UNKNOWN => -3 | REPLY_ERROR => -2 | CONNECTION_REFUSED => -1 | REPLY_STRING => 1
  | REPLY_ARRAY => 2 | REPLY_INTEGER => 3 | REPLY_NIL => 4 | REPLY_STATUS => 5
  end.

Record Response := mkResponse { ret_code : ReturnCode; str : bytes; integer : Z; array : list bytes }.

(** [std::string(str, len)]; a null pointer with length zero is the empty string. *)
Definition sized (s : option bytes) : bytes := default [] s.

Definition joined (xs : list bytes) : bytes :=
  snd (foldl (fun '(i, res) x => (i + 1, res ++ x ++ (if i =? vlen xs - 1 then [] else lit " "))) (0, []) xs).

Definition print_fmt : bytes := lit "ret_code=%d||str=%s||integer=%ld||array=%s".

Definition PrintRedisReply (r : option redisReply) : option bytes :=
  match r with
  | None => Some []
  | Some r =>
      s ← Printf.format print_fmt [Printf.AInt (rtype r); Printf.AStr (sized (rstr r)); Printf.AInt (rinteger r);
            Printf.AStr (joined ((fun e => sized (rstr e)) <$> relement r))];
      Some (snprintf 200 s)
  end.

Definition PrintRedisResponse (resp : option Response) : option bytes :=
  match resp with
  | None => Some []
  | Some r =>
      s ← Printf.format print_fmt [Printf.AInt (code_int (ret_code r)); Printf.AStr (str r);
            Printf.AInt (integer r); Printf.AStr (joined (array r))];
      Some (snprintf 200 s)
  end.

(** The switch of [parse_redis_reply]; assigning a null [char*] to a string is
    undefined. *)
Definition read_reply (r : redisReply) : option Response :=
  let ty := rtype r in
  if ty =? REDIS_REPLY_STRING then s ← rstr r; Some (mkResponse REPLY_STRING (c_str s) 0 [])
  else if ty =? REDIS_REPLY_ARRAY then Some (mkResponse REPLY_ARRAY [] 0 ((fun e => sized (rstr e)) <$> relement r))
  else if ty =? REDIS_REPLY_INTEGER then Some (mkResponse REPLY_INTEGER [] (rinteger r) [])
  else if ty =? REDIS_REPLY_NIL then Some (mkResponse REPLY_NIL [] 0 [])
  else if ty =? REDIS_REPLY_STATUS then s ← rstr r; Some (mkResponse REPLY_STATUS (c_str s) 0 [])
  else if ty =? REDIS_REPLY_ERROR then s ← rstr r; Some (mkResponse REPLY_ERROR (c_str s) 0 [])
  else Some (mkResponse REPLY_UNKNOWN (match rstr r with None => lit "nullptr" | Some s => c_str s end) 0 []).

(** ** The proxy *)

Record t := mk { ip_ : bytes; port_ : Z; conn_timeout_ms_ : Z; rw_timeout_ms_ : Z; ctx_ : Z }.

Definition make (ip : bytes) (port conn_timeout_ms rw_timeout_ms : Z) : t :=
  mk ip port conn_timeout_ms rw_timeout_ms 0.

Definition set_ctx (c : Z) (p : t) : t := mk (ip_ p) (port_ p) (conn_timeout_ms_ p) (rw_timeout_ms_ p) c.

Definition millis (ms : Z) : timeval := (Z.quot ms 1000, Z.rem ms 1000 * 1000).

Section proxy.
Context {W : Type} `{Hiredis W}.

(** A method: the object and the world outside go in and come out; [None] is
    undefined behaviour. *)
Definition M (A : Type) : Type := t * W -> option (A * (t * W)).

#[global] Instance M_ret : MRet M := fun A a s => Some (a, s).
#[global] Instance M_bind : MBind M := fun A B f m s => '(a, s') ← m s; f a s'.

Definition ctx : M Z := fun s => Some (ctx_ (fst s), s).
Definition field {A} (f : t -> A) : M A := fun s => Some (f (fst s), s).
Definition assign (c : Z) : M unit := fun '(p, w) => Some ((), (set_ctx c p, w)).
Definition look {A} (f : W -> A) : M A := fun s => Some (f (snd s), s).
Definition call {A} (f : W -> A * W) : M A := fun '(p, w) => let '(a, w') := f w in Some (a, (p, w')).
Definition lift {A} (o : option A) : M A := fun s => a ← o; Some (a, s).

(** Following a pointer. *)
Definition use (p : Z) : M unit := fun s => if decide (p ∈ live (snd s)) then Some ((), s) else None.

Definition close : M unit :=
  c ← ctx;
  if c =? 0 then mret ()
  else _ ← use c; _ ← call (fun w => ((), redisFree c w)); assign 0.

Definition connect : M bool :=
  c ← ctx;
  if negb (c =? 0) then mret true
  else
    ip ← field ip_; port ← field port_; ct ← field conn_timeout_ms_; rt ← field rw_timeout_ms_;
    c ← call (redisConnectWithTimeout (c_str ip) port (millis ct));
    _ ← assign c;
    failed ← (if c =? 0 then mret true else _ ← use c; look (err c));
    if (failed : bool) then _ ← close; mret false
    else
      _ ← use c; ret ← call (redisSetTimeout c (millis rt));
      if negb (ret =? 0) then _ ← close; mret false else mret true.

Definition refused : Response := mkResponse CONNECTION_REFUSED [] 0 [].

Definition parse_redis_reply (reply : Z) : M Response :=
  if reply =? 0 then _ ← close; mret refused
  else _ ← use reply; r ← look (reply_at reply); lift (read_reply r).

(** The response, and the command with its reply set. *)
Definition execute (cmd : RedisCommand) : M (Response * RedisCommand) :=
  b ← connect;
  if negb b then mret (refused, cmd)
  else
    c ← ctx; _ ← use c; p ← call (redisCommandArgv c (sent cmd));
    r ← parse_redis_reply p; mret (r, mkCommand (argv cmd) p).

Definition free_reply (p : Z) : M unit :=
  if p =? 0 then mret () else _ ← use p; call (fun w => ((), freeReplyObject p w)).

Definition destroyCommand (cmd : RedisCommand) : M unit := free_reply (reply cmd).

Definition ExecuteArgv (args : list argument) : M Response :=
  '(r, cmd) ← execute (append_all args newCommand);
  _ ← destroyCommand cmd; mret r.

(** The text in [buff] is only logged; formatting it still reads the arguments. *)
Definition Execute (format : bytes) (args : list Printf.arg) : M Response :=
  b ← connect;
  if negb b then mret refused
  else
    c ← ctx; _ ← use c; p ← call (redisvCommand c format args);
    _ ← lift (Printf.format format args);
    r ← parse_redis_reply p;
    _ ← free_reply p; mret r.

Fixpoint append_commands (cmds : list RedisCommand) : M bool :=
  match cmds with
  | [] => mret true
  | cmd :: cmds' =>
      c ← ctx; _ ← use c; ret ← call (redisAppendCommandArgv c (sent cmd));
      if negb (ret =? 0) then _ ← close; mret false else append_commands cmds'
  end.

(** [redis_reply] keeps its value from one round to the next. *)
Fixpoint get_replies (n : nat) (redis_reply : Z) (resps : list Response) : M (bool * list Response) :=
  match n with
  | O => mret (true, resps)
  | S n' =>
      c ← ctx; _ ← use c; '(ret, p) ← call (redisGetReply c redis_reply);
      if (p =? 0) || negb (ret =? 0) then _ ← close; mret (false, resps)
      else
        r ← parse_redis_reply p;
        _ ← free_reply p;
        get_replies n' p (resps ++ [r])
  end.

Definition PipeExecute (cmds : list RedisCommand) (resps : list Response) : M (bool * list Response) :=
  b ← connect;
  if negb b then mret (false, resps)
  else
    b ← append_commands cmds;
    if negb b then mret (false, resps) else get_replies (length cmds) 0 resps.

Definition is_ok (r : Response) : bool :=
  bool_decide (ret_code r = REPLY_STATUS) && bool_decide (str r = lit "OK").

Definition Set_ (key value : bytes) (expire_time_sec : Z) : M bool :=
  r ← (if 0 <? expire_time_sec
       then ExecuteArgv [ACStr (lit "set"); AString key; AString value; ACStr (lit "ex"); AInteger expire_time_sec]
       else ExecuteArgv [ACStr (lit "set"); AString key; AString value]);
  mret (is_ok r).

(** With the contents of the out parameter. *)
Definition Get (key value : bytes) : M (bool * bytes) :=
  r ← ExecuteArgv [ACStr (lit "get"); AString key];
  mret (if decide (ret_code r = REPLY_STRING) then (true, str r) else (false, value)).

Definition set_command (key value : bytes) (expire : Z) : RedisCommand :=
  let cmd := append (AString value) (append (AString key) (append (ACStr (lit "set")) newCommand)) in
  if 0 <? expire then append (AInteger expire) (append (ACStr (lit "ex")) cmd) else cmd.

Fixpoint set_commands (keys values : list bytes) (expires : list Z) : list RedisCommand :=
  match keys, values, expires with
  | k :: ks, v :: vs, e :: es => set_command k v e :: set_commands ks vs es
  | _, _, _ => []
  end.

Definition PipeSet (keys values : list bytes) (expire_time_secs : list Z) : M bool :=
  if negb (length keys =? length values)%nat || negb (length values =? length expire_time_secs)%nat then mret false
  else
    '(b, resps) ← PipeExecute (set_commands keys values expire_time_secs) [];
    mret (b && forallb is_ok resps).

Definition PipeGet (keys : list bytes) (values : list (bool * bytes)) : M (bool * list (bool * bytes)) :=
  '(b, resps) ← PipeExecute ((fun k => append (AString k) (append (ACStr (lit "get")) newCommand)) <$> keys) [];
  if negb b then mret (false, values)
  else mret (true, values ++ ((fun r => if decide (ret_code r = REPLY_STRING) then (true, str r) else (false, [])) <$> resps)).

(** The destructor. *)
Definition destroy : M unit := close.

End proxy.

(** ** A server that is up *)

Definition reply_string (v : bytes) : redisReply := mkReply REDIS_REPLY_STRING 0 (Some v) [].
Definition reply_nil : redisReply := mkReply REDIS_REPLY_NIL 0 None [].
Definition reply_ok : redisReply := mkReply REDIS_REPLY_STATUS 0 (Some (lit "OK")) [].

(** The keys with their values and, for those stored with EX, the last millisecond
    at which they are still there. *)
Definition keyspace : Type := gmap bytes (bytes * option Z).

Inductive query := QGet (k : bytes) | QSet (k v : bytes) (ex : option Z).

Definition parse_query (argv : list bytes) : option query :=
  match argv with
  | [cmd; k] => if decide (cmd = lit "get") then Some (QGet k) else None
  | [cmd; k; v] => if decide (cmd = lit "set") then Some (QSet k v None) else None
  | [cmd; k; v; ex; n] =>
      if decide (cmd = lit "set" /\ ex = lit "ex") then
        z ← Decimal.stou n; if 0 <? z then Some (QSet k v (Some z)) else None
      else None
  | _ => None
  end.

(** The value a key has at the time [now]. *)
Definition present (now : Z) (e : bytes * option Z) : option bytes :=
  match snd e with Some d => if now <=? d then Some (fst e) else None | None => Some (fst e) end.

Definition value_at (now : Z) (st : keyspace) (k : bytes) : option bytes := e ← st !! k; present now e.

(** What Redis answers at the time [now], and the store afterwards. *)
Definition serve (q : query) (now : Z) (st : keyspace) : redisReply * keyspace :=
  match q with
  | QGet k => (from_option reply_string reply_nil (value_at now st k), st)
  | QSet k v ex => (reply_ok, <[k := (v, (fun n => now + 1000 * n) <$> ex)]> st)
  end.

(** A server that is up, and that nobody else writes to.  [clock] is its time when it
    served the last command whose reply was read; between that and the next one any
    time may pass. *)
Class RedisServer (W : Type) `{Hiredis W} := {
  up : W -> Prop;
  clock : W -> Z;
  store : W -> keyspace;
  up_connect ip port tv w p w' : up w -> redisConnectWithTimeout ip port tv w = (p, w') ->
    p <> 0 /\ err p w' = false /\ up w' /\ clock w' = clock w /\ store w' = store w;
  up_timeout c tv w ret w' : up w -> c ∈ live w -> redisSetTimeout c tv w = (ret, w') ->
    ret = 0 /\ up w' /\ clock w' = clock w /\ store w' = store w;
  up_free_reply p w : up w ->
    up (freeReplyObject p w) /\ clock (freeReplyObject p w) = clock w /\ store (freeReplyObject p w) = store w;
  up_command c argv w q p w' : up w -> c ∈ live w -> unread c w = [] -> parse_query argv = Some q ->
    redisCommandArgv c argv w = (p, w') ->
    p <> 0 /\ up w' /\ clock w <= clock w' /\ (reply_at p w', store w') = serve q (clock w') (store w);
  up_append c argv w ret w' : up w -> c ∈ live w -> redisAppendCommandArgv c argv w = (ret, w') ->
    ret = 0 /\ up w' /\ clock w' = clock w /\ store w' = store w;
  up_get_reply c old argv cmds w q ret p w' : up w -> c ∈ live w -> unread c w = argv :: cmds ->
    parse_query argv = Some q -> redisGetReply c old w = ((ret, p), w') ->
    ret = 0 /\ p <> 0 /\ up w' /\ clock w <= clock w' /\ (reply_at p w', store w') = serve q (clock w') (store w)
}.

(** A query answered at some later time. *)
Definition served (q : query) (d : Z * keyspace) (r : redisReply) (d' : Z * keyspace) : Prop :=
  fst d <= fst d' /\ (r, snd d') = serve q (fst d') (snd d).

Fixpoint served_all (qs : list query) (d : Z * keyspace) (rs : list redisReply) (d' : Z * keyspace) : Prop :=
  match qs, rs with
  | [], [] => d' = d
  | q :: qs', r :: rs' => exists d1, served q d r d1 /\ served_all qs' d1 rs' d'
  | _, _ => False
  end.

(** With no server the laws hold vacuously. *)
Lemma no_server (W : Type) `{Hiredis W} : RedisServer W.
Proof. refine {| up := fun _ => False; clock := fun _ => 0; store := fun _ => ∅ |}; done. Defined.

(** ** A small program logic *)

Section logic.
Context {W : Type} `{Hiredis W}.

(** The method returns, in a state and with a result that satisfy [Q]. *)
Definition wp {A} (m : M (W := W) A) (Q : A -> t * W -> Prop) (s : t * W) : Prop :=
  match m s with Some (a, s') => Q a s' | None => False end.

Lemma wp_ret {A} (a : A) Q s : Q a s -> wp (mret a) Q s.
Proof. done. Qed.

Lemma wp_bind {A B} (m : M A) (f : A -> M B) Q s : wp m (fun a => wp (f a) Q) s -> wp (m ≫= f) Q s.
Proof. unfold wp, mbind, M_bind. simpl. destruct (m s) as [[a s']|]; done. Qed.

Lemma wp_mono {A} (m : M A) (P Q : A -> t * W -> Prop) s :
  wp m P s -> (forall a s', P a s' -> Q a s') -> wp m Q s.
Proof. unfold wp. destruct (m s) as [[a s']|]; [|done]. eauto. Qed.

Lemma wp_use p Q s : p ∈ live (snd s) -> Q () s -> wp (use p) Q s.
Proof. unfold wp, use. intros Hp HQ. by rewrite decide_True. Qed.

Lemma wp_call {A} (f : W -> A * W) Q p w :
  (forall a w', f w = (a, w') -> Q a (p, w')) -> wp (call f) Q (p, w).
Proof. unfold wp, call. intros HQ. destruct (f w) as [a w'] eqn:E. by apply HQ. Qed.

Lemma wp_lift {A} (o : option A) Q s a : o = Some a -> Q a s -> wp (lift o) Q s.
Proof. unfold wp, lift. by intros ->. Qed.

End logic.

(** Reading a field and assigning the context compute. *)
Ltac wp_step :=
  apply wp_bind;
  first [ apply wp_ret | match goal with |- wp (ctx) _ _ => hnf | |- wp (field _) _ _ => hnf
        | |- wp (assign _) _ _ => hnf | |- wp (look _) _ _ => hnf end | idtac ];
  cbn [fst snd].

(** ** Ownership *)

Section laws.
Context {W : Type} {hiredis : Hiredis W} {laws : HiredisLaws W} {server : RedisServer W}.
Implicit Types (L : gset Z) (s : t * W).

(** The proxy holds an open context with the commands [q] unread, besides the
    objects [L] that belong to others. *)
Definition open (L : gset Z) (q : list (list bytes)) (s : t * W) : Prop :=
  ctx_ (fst s) <> 0 /\ ctx_ (fst s) ∉ L /\ live (snd s) = {[ctx_ (fst s)]} ∪ L /\
  unread (ctx_ (fst s)) (snd s) = q.

Definition closed (L : gset Z) (s : t * W) : Prop := ctx_ (fst s) = 0 /\ live (snd s) = L.

(** Between two calls: no context, or one without unread replies. *)
Definition idle (L : gset Z) (s : t * W) : Prop := closed L s \/ open L [] s.

(** A reply besides. *)
Definition holding (L : gset Z) (p : Z) (q : list (list bytes)) (s : t * W) : Prop :=
  p <> 0 /\ p ∉ L /\ open ({[p]} ∪ L) q s /\ well_formed (reply_at p (snd s)).

Lemma open_live L q s : open L q s -> ctx_ (fst s) ∈ live (snd s).
Proof. intros (_ & _ & -> & _). set_solver. Qed.

Lemma close_ok L q s (Q : unit -> t * W -> Prop) :
  closed L s \/ open L q s -> (forall s', closed L s' -> Q () s') -> wp close Q s.
Proof.
  intros Hs HQ. destruct s as [p w]. unfold close. wp_step.
  destruct Hs as [Hc|Ho].
  - pose proof Hc as [E _]. simpl in E. rewrite E. simpl. apply wp_ret. by apply HQ.
  - pose proof (open_live _ _ _ Ho) as Hl. destruct Ho as (H0 & HL & Hlive & _). simpl in *.
    rewrite (proj2 (Z.eqb_neq _ _) H0).
    apply wp_bind, wp_use; [done|]. apply wp_bind, wp_call. intros a w' [= <- <-].
    hnf. apply HQ. split; [done|]. simpl. rewrite free_law by done. rewrite Hlive. set_solver.
Qed.

(** The server is up, with this time and this store. *)
Definition serves (d : Z * keyspace) (s : t * W) : Prop :=
  up (snd s) /\ clock (snd s) = fst d /\ store (snd s) = snd d.

Lemma connect_ok L s (Q : bool -> t * W -> Prop) :
  idle L s ->
  (forall s', closed L s' -> (forall st, ~ serves st s) -> Q false s') ->
  (forall s', open L [] s' -> (forall st, serves st s -> serves st s') -> Q true s') ->
  wp connect Q s.
Proof.
  intros Hs HF HT. destruct s as [p w]. unfold connect. wp_step.
  destruct Hs as [[Hc Hl]|Ho]; simpl in *.
  2: { pose proof Ho as (E & _). simpl in E. rewrite (proj2 (Z.eqb_neq _ _) E). simpl. apply wp_ret. by apply HT. }
  rewrite Hc. simpl. do 4 wp_step.
  apply wp_bind, wp_call. intros c w1 E1. wp_step.
  assert (forall st, serves st (p, w) ->
    c <> 0 /\ err c w1 = false /\ serves st (set_ctx c p, w1)) as Hup.
  { intros st (Hu & Hc1 & Hs1). destruct (up_connect _ _ _ _ _ _ Hu E1) as (? & ? & ? & ? & ?).
    unfold serves; simpl in *; split_and!; congruence || done. }
  pose proof (connect_law _ _ _ _ _ _ E1) as [[-> E]|(Hc0 & Hfresh & E & Eu)].
  { apply wp_bind. simpl. apply wp_ret. apply wp_bind.
    eapply (close_ok L []); [by left; split; [|simpl; congruence]|]. intros s' Hs'. apply wp_ret.
    apply HF; [done|]. intros st [??]%Hup. done. }
  assert (open L [] (set_ctx c p, w1)) as Ho.
  { split_and!; simpl; [done|set_solver|by rewrite E, Hl|done]. }
  pose proof (open_live _ _ _ Ho) as Hlive. simpl in Hlive.
  rewrite (proj2 (Z.eqb_neq _ _) Hc0). apply wp_bind, wp_bind, wp_use; [done|]. hnf. cbn [fst snd].
  destruct (err c w1) eqn:Ee.
  { apply wp_bind. eapply (close_ok L []); [by right|]. intros s' Hs'. apply wp_ret.
    apply HF; [done|]. intros st (_ & ? & _)%Hup. done. }
  apply wp_bind, wp_use; [done|]. apply wp_bind, wp_call. intros ret w2 E2.
  destruct (timeout_law _ _ _ _ _ Hlive E2) as [El2 Eu2].
  assert (open L [] (set_ctx c p, w2)) as Ho2.
  { destruct Ho as (? & ? & ? & ?). split_and!; simpl in *; congruence. }
  destruct (Z.eqb_spec ret 0) as [->|Hret]; simpl.
  - apply wp_ret. apply HT; [done|]. intros st (_ & _ & Hst & Hc1 & Hs1)%Hup.
    destruct (up_timeout _ _ _ _ _ Hst Hlive E2) as (_ & ? & ? & ?). unfold serves; simpl in *; split_and!; congruence || done.
  - apply wp_bind. eapply (close_ok L []); [by right|]. intros s' Hs'. apply wp_ret.
    apply HF; [done|]. intros st (_ & _ & Hst & _)%Hup.
    destruct (up_timeout _ _ _ _ _ Hst Hlive E2) as (? & _). done.
Qed.

Lemma read_reply_ok r : well_formed r -> is_Some (read_reply r).
Proof.
  unfold well_formed, read_reply. intros Hr. rewrite !elem_of_cons in Hr.
  repeat case_test; breflect; try done; destruct Hr as [x ->]; eauto.
Qed.

(** Parsing a reply in hand reads it and nothing else. *)
Lemma parse_ok L p q s (Q : Response -> t * W -> Prop) :
  holding L p q s -> (forall r, read_reply (reply_at p (snd s)) = Some r -> Q r s) -> wp (parse_redis_reply p) Q s.
Proof.
  intros (Hp & HpL & Ho & Hw) HQ. unfold parse_redis_reply. rewrite (proj2 (Z.eqb_neq _ _) Hp).
  apply wp_bind, wp_use; [destruct Ho as (_ & _ & -> & _); set_solver|].
  wp_step. destruct (read_reply_ok _ Hw) as [r Hr]. eapply wp_lift; eauto.
Qed.

Lemma free_reply_ok L p q s (Q : unit -> t * W -> Prop) :
  holding L p q s -> (forall s', open L q s' -> (forall st, serves st s -> serves st s') -> Q () s') ->
  wp (free_reply p) Q s.
Proof.
  intros (Hp & HpL & (Hc & HcL & Hl & Hq) & Hw) HQ. unfold free_reply. rewrite (proj2 (Z.eqb_neq _ _) Hp).
  destruct s as [o w]. simpl in *.
  assert (p ∈ live w) as Hpl by (rewrite Hl; set_solver).
  apply wp_bind, wp_use; [done|]. apply wp_call. intros [] w' [= <-].
  destruct (free_reply_law (ctx_ o) p w) as [El Eu]; [done|set_solver|].
  apply HQ.
  - split_and!; simpl; [done|set_solver|rewrite El, Hl; set_solver|congruence].
  - intros st (Hu & Hc1 & Hs1). destruct (up_free_reply p w Hu) as (? & ? & ?). unfold serves; simpl in *; split_and!; congruence || done.
Qed.

Lemma allocates_holding L q q' s w' p :
  open L q s -> allocates (ctx_ (fst s)) p (snd s) w' -> p <> 0 -> unread (ctx_ (fst s)) w' = q' ->
  holding L p q' (fst s, w').
Proof.
  intros (Hc & HcL & Hl & Hq) [[? _]|(_ & Hf & El & Hw)] Hp Hu; [done|]. rewrite Hl in El, Hf.
  split_and!; [done|set_solver| |done]. split_and!; simpl; [done|set_solver| |done].
  rewrite El. set_solver.
Qed.

Lemma allocates_open L q s w' p :
  open L q s -> allocates (ctx_ (fst s)) p (snd s) w' -> p = 0 -> open L (unread (ctx_ (fst s)) w') (fst s, w').
Proof.
  intros (Hc & HcL & Hl & Hq) [[_ El]|(Hp & _)] Hp0; [|done]. split_and!; simpl; [done|done|congruence|done].
Qed.

(** ** The calls *)

(** If the server is up and knows the command, the response is read from its
    answer. *)
Definition answered (argv : list bytes) (s : t * W) (r : Response) (s' : t * W) : Prop :=
  forall d q, serves d s -> parse_query argv = Some q ->
    exists r' d', served q d r' d' /\ read_reply r' = Some r /\ serves d' s'.

(** One round trip on an open context: either the context is closed and nothing
    was served, or the reply is in hand. *)
Lemma command_round L s w' p (Q : Response -> t * W -> Prop) :
  open L [] s -> allocates (ctx_ (fst s)) p (snd s) w' -> (p <> 0 -> unread (ctx_ (fst s)) w' = []) ->
  (p = 0 -> forall s', closed L s' -> Q refused s') ->
  (forall r, p <> 0 -> holding L p [] (fst s, w') -> read_reply (reply_at p w') = Some r -> Q r (fst s, w')) ->
  wp (parse_redis_reply p) Q (fst s, w').
Proof.
  intros Ho Ha Hu H0 H1. destruct (Z.eq_dec p 0) as [->|Hp].
  - unfold parse_redis_reply. simpl. apply wp_bind.
    eapply close_ok; [right; by eapply allocates_open|]. intros s' Hs'. apply wp_ret. by apply H0.
  - pose proof (allocates_holding _ _ _ _ _ _ Ho Ha Hp (Hu Hp)) as Hh. eapply parse_ok; [done|]. eauto.
Qed.

Lemma ExecuteArgv_ok L args s :
  idle L s ->
  wp (ExecuteArgv args) (fun r s' => idle L s' /\ answered (sent (append_all args newCommand)) s r s') s.
Proof.
  intros Hs. unfold ExecuteArgv. apply wp_bind. unfold execute. apply wp_bind.
  assert (reply (append_all args newCommand) = 0) as Hr0.
  { assert (forall c, reply (append_all args c) = reply c) as E by (induction args; intros c; simpl; [done|by rewrite IHargs]).
    apply E. }
  set (cmd := append_all args newCommand) in *.
  eapply connect_ok; [done|..]; intros s1 Hs1 Hup; simpl.
  { apply wp_ret. apply wp_bind. unfold destroyCommand. rewrite Hr0. apply wp_ret, wp_ret.
    split; [by left|]. intros d q Hst. by destruct (Hup d). }
  destruct s1 as [p1 w1]. wp_step. pose proof (open_live _ _ _ Hs1) as Hlive.
  apply wp_bind, wp_use; [done|]. apply wp_bind, wp_call. intros p w2 E2. simpl in *.
  destruct (command_law _ _ _ _ _ Hlive E2) as [Ha Hu]. pose proof Hs1 as (_ & _ & _ & Hq). simpl in Hq.
  assert (forall d q, serves d s -> parse_query (sent cmd) = Some q ->
    p <> 0 /\ exists d', served q d (reply_at p w2) d' /\ serves d' (p1, w2)) as Hans.
  { intros d q (Hu1 & Ec & Est)%Hup Hsv. simpl in *.
    destruct (up_command _ _ _ _ _ _ Hu1 Hlive Hq Hsv E2) as (? & ? & ? & ?). split; [done|].
    exists (clock w2, store w2). unfold served. simpl. rewrite <- Ec, <- Est. done. }
  apply wp_bind. eapply (command_round L (p1, w1)); [done|done|by auto|..].
  - intros -> s' Hs'. apply wp_ret. apply wp_bind. unfold destroyCommand. simpl. apply wp_ret, wp_ret.
    split; [by left|]. intros d q Hst Hsv. by destruct (Hans _ _ Hst Hsv).
  - intros r Hp Hh Hr. apply wp_ret. apply wp_bind. unfold destroyCommand.
    eapply free_reply_ok; [done|]. intros s' Ho' Hst'. apply wp_ret. split; [by right|].
    intros d q Hst Hsv. destruct (Hans _ _ Hst Hsv) as (_ & d' & ? & ?). eauto 10.
Qed.

Lemma Execute_ok L format args s text :
  idle L s -> Printf.format format args = Some text -> wp (Execute format args) (fun _ s' => idle L s') s.
Proof.
  intros Hs Ht. unfold Execute. apply wp_bind. eapply connect_ok; [done|..]; intros s1 Hs1 Hup; simpl.
  { apply wp_ret. by left. }
  destruct s1 as [p1 w1]. wp_step. pose proof (open_live _ _ _ Hs1) as Hlive.
  apply wp_bind, wp_use; [done|]. apply wp_bind, wp_call. intros p w2 E2. simpl in *.
  destruct (vcommand_law _ _ _ _ _ _ Hlive E2) as [Ha Hu]. pose proof Hs1 as (_ & _ & _ & Hq).
  apply wp_bind. eapply wp_lift; [done|]. apply wp_bind. eapply (command_round L (p1, w1)); [done|done|by auto|..].
  - intros -> s' Hs'. apply wp_bind. unfold free_reply. simpl. apply wp_ret, wp_ret. by left.
  - intros r Hp Hh Hr. apply wp_bind. eapply free_reply_ok; [done|]. intros s' Ho' _. apply wp_ret. by right.
Qed.

Lemma append_commands_ok L cmds : forall q s (Q : bool -> t * W -> Prop),
  open L q s ->
  (forall s', closed L s' -> (forall st, ~ serves st s) -> Q false s') ->
  (forall s', open L (q ++ (sent <$> cmds)) s' -> (forall st, serves st s -> serves st s') -> Q true s') ->
  wp (append_commands cmds) Q s.
Proof.
  induction cmds as [|cmd cmds IH]; intros q s Q Hs HF HT; simpl.
  { apply wp_ret. rewrite app_nil_r in HT. by apply HT. }
  destruct s as [p w]. wp_step. pose proof (open_live _ _ _ Hs) as Hlive.
  apply wp_bind, wp_use; [done|]. apply wp_bind, wp_call. intros ret w1 E1. simpl in *.
  destruct (append_law _ _ _ _ _ Hlive E1) as [El Eu]. destruct Hs as (H0 & HL & Hl & Hq). simpl in *.
  assert (forall st, serves st (p, w) -> ret = 0 /\ serves st (p, w1)) as Hup.
  { intros st (Hu & Hc1 & Hs1). simpl in *. destruct (up_append _ _ _ _ _ Hu Hlive E1) as (? & ? & ? & ?).
    unfold serves; simpl; split_and!; congruence || done. }
  assert (open L (unread (ctx_ p) w1) (p, w1)) as Ho by (split_and!; simpl; congruence).
  destruct (Z.eqb_spec ret 0) as [->|Hret]; simpl.
  - rewrite Eu, Hq in Ho by done. eapply IH; [done|..].
    + intros s' Hc Hn. apply HF; [done|]. intros st Hst. apply (Hn st), Hup, Hst.
    + intros s' Ho' Hs'. apply HT; [by rewrite <- app_assoc in Ho'|]. intros st Hst. by apply Hs', Hup.
  - apply wp_bind. eapply close_ok; [by right|]. intros s' Hc. apply wp_ret. apply HF; [done|].
    intros st Hst. by destruct (Hup st Hst).
Qed.

Definition answered_all (cmds : list (list bytes)) (s : t * W) (rs : bool * list Response) (s' : t * W) : Prop :=
  forall d qs, serves d s -> Forall2 (fun c q => parse_query c = Some q) cmds qs ->
    fst rs = true /\ exists rs' d', served_all qs d rs' d' /\
      Forall2 (fun r' r => read_reply r' = Some r) rs' (snd rs) /\ serves d' s'.

Lemma get_replies_ok L cmds : forall old resps s,
  open L cmds s ->
  wp (get_replies (length cmds) old resps) (fun res s' =>
    idle L s' /\ exists rs, snd res = resps ++ rs /\ answered_all cmds s (fst res, rs) s') s.
Proof.
  induction cmds as [|cmd cmds IH]; intros old resps s Hs; simpl.
  { apply wp_ret. split; [by right|]. exists []. split; [by rewrite app_nil_r|]. intros d qs Hst Hq.
    apply Forall2_nil_inv_l in Hq as ->. split; [done|]. by exists [], d. }
  destruct s as [o w]. wp_step. pose proof (open_live _ _ _ Hs) as Hlive.
  apply wp_bind, wp_use; [done|]. apply wp_bind, wp_call. intros [ret p] w1 E1. simpl in *.
  pose proof Hs as (_ & _ & _ & Hq). simpl in Hq.
  assert (forall d q, serves d (o, w) -> parse_query cmd = Some q ->
    ret = 0 /\ p <> 0 /\ exists d', served q d (reply_at p w1) d' /\ serves d' (o, w1)) as Hans.
  { intros d q (Hu & Ec & Est) Hsv. simpl in *.
    destruct (up_get_reply _ _ _ _ _ _ _ _ _ Hu Hlive Hq Hsv E1) as (? & ? & ? & ? & ?). split_and!; [done..|].
    exists (clock w1, store w1). unfold served. simpl. rewrite <- Ec, <- Est. done. }
  destruct (decide (p <> 0 /\ ret = 0)) as [[Hp ->]|Hf].
  - rewrite (proj2 (Z.eqb_neq _ _) Hp). simpl.
    destruct (get_reply_law _ _ _ _ _ _ Hlive E1) as [(? & _)|(_ & Ha & Hu)]; [done|].
    pose proof (allocates_holding _ _ _ _ _ _ Hs Ha Hp (Hu Hp _ _ Hq)) as Hh. simpl in Hh.
    apply wp_bind. eapply parse_ok; [done|]. intros r Hr. simpl in Hr. apply wp_bind.
    eapply free_reply_ok; [done|]. intros s' Ho' Hst'.
    eapply wp_mono; [by apply IH|]. simpl. intros res s'' (Hi & rs & Ers & Hrs). split; [done|].
    exists (r :: rs). split; [by rewrite Ers, <- app_assoc|]. intros d qs Hst Hqs.
    apply Forall2_cons_inv_l in Hqs as (q1 & qs1 & Hq1 & Hqs1 & ->).
    destruct (Hans _ _ Hst Hq1) as (_ & _ & d1 & Hsv1 & Hst1).
    destruct (Hrs _ _ (Hst' _ Hst1) Hqs1) as (Hb & rs' & d' & ? & ? & ?). split; [done|].
    exists (reply_at p w1 :: rs'), d'. split_and!; [by exists d1|by constructor|done].
  - assert ((p =? 0) || negb (ret =? 0) = true) as ->.
    { destruct (Z.eqb_spec p 0), (Z.eqb_spec ret 0); naive_solver. }
    apply wp_bind.
    assert (exists q, open L q (o, w1)) as [q Ho].
    { destruct (get_reply_law _ _ _ _ _ _ Hlive E1) as [(_ & _ & El)|(Hr & Ha & _)].
      - exists (unread (ctx_ o) w1). destruct Hs as (? & ? & ? & ?). split_and!; simpl in *; congruence.
      - assert (p = 0) as Hp0 by (destruct (Z.eq_dec p 0); naive_solver).
        eexists. exact (allocates_open _ _ _ _ _ Hs Ha Hp0). }
    eapply close_ok; [by right|]. intros s' Hc. apply wp_ret. split; [by left|]. exists [].
    split; [by rewrite app_nil_r|]. intros d qs Hst Hqs.
    apply Forall2_cons_inv_l in Hqs as (q1 & qs1 & Hq1 & _ & _). destruct (Hans _ _ Hst Hq1) as (? & ? & _). naive_solver.
Qed.

Lemma PipeExecute_ok L cmds resps s :
  idle L s ->
  wp (PipeExecute cmds resps) (fun res s' =>
    idle L s' /\ exists rs, snd res = resps ++ rs /\ answered_all (sent <$> cmds) s (fst res, rs) s') s.
Proof.
  intros Hs. unfold PipeExecute. apply wp_bind.
  assert (forall s', closed L s' -> (forall st, ~ serves st s) ->
    idle L s' /\ exists rs, resps = resps ++ rs /\ answered_all (sent <$> cmds) s (false, rs) s') as HF.
  { intros s' Hc Hn. split; [by left|]. exists []. split; [by rewrite app_nil_r|]. intros d qs Hst. by destruct (Hn d). }
  eapply connect_ok; [done|..]; intros s1 Hs1 Hup; simpl; [apply wp_ret; by apply HF|].
  apply wp_bind. eapply append_commands_ok; [done|..]; intros s2 Hs2 Hup2; simpl.
  - apply wp_ret, HF; [done|]. intros st Hst. by apply (Hup2 st), Hup.
  - simpl in Hs2. rewrite <- (length_fmap sent cmds). eapply wp_mono; [by apply get_replies_ok|].
    intros res s' (Hi & rs & E & Hr). split; [done|]. exists rs. split; [done|].
    intros d qs Hst Hqs. by eapply Hr; [apply Hup2, Hup|].
Qed.

(** ** Sequences of calls *)

End laws.

Inductive op :=
  | OExecuteArgv (args : list argument)
  | OExecute (format : bytes) (args : list Printf.arg)
  | OPipeExecute (cmds : list (list argument))
  | OSet (key value : bytes) (expire_time_sec : Z)
  | OGet (key value : bytes)
  | OPipeSet (keys values : list bytes) (expire_time_secs : list Z)
  | OPipeGet (keys : list bytes) (values : list (bool * bytes)).

Inductive result :=
  | RResponse (r : Response) | RPipe (b : bool) (rs : list Response) | RBool (b : bool)
  | RGet (b : bool) (v : bytes) | RPipeGet (b : bool) (vs : list (bool * bytes)).

Definition perform {W} `{Hiredis W} (o : op) : M (W := W) result :=
  match o with
  | OExecuteArgv args => r ← ExecuteArgv args; mret (RResponse r)
  | OExecute format args => r ← Execute format args; mret (RResponse r)
  | OPipeExecute cmds => '(b, rs) ← PipeExecute ((fun c => append_all c newCommand) <$> cmds) []; mret (RPipe b rs)
  | OSet k v e => b ← Set_ k v e; mret (RBool b)
  | OGet k v => '(b, v') ← Get k v; mret (RGet b v')
  | OPipeSet ks vs es => b ← PipeSet ks vs es; mret (RBool b)
  | OPipeGet ks vs => '(b, vs') ← PipeGet ks vs; mret (RPipeGet b vs')
  end.

Fixpoint run {W} `{Hiredis W} (ops : list op) : M (W := W) (list result) :=
  match ops with
  | [] => mret []
  | o :: ops' => r ← perform o; rs ← run ops'; mret (r :: rs)
  end.

(** Formats match their arguments, and expiry times are [unsigned int]s. *)
Definition op_ok (o : op) : Prop :=
  match o with
  | OExecute format args => is_Some (Printf.format format args)
  | OSet _ _ e => in_u 32 e
  | OPipeSet _ _ es => Forall (in_u 32) es
  | _ => True
  end.

(** *** The store the calls stand for *)

(** Keys and values are C strings; an expiry of zero is none. *)
Definition stored (now : Z) (v : bytes) (e : Z) : bytes * option Z :=
  (c_str v, if 0 <? e then Some (now + 1000 * e) else None).

Definition lookup_result (now : Z) (st : keyspace) (k : bytes) : option bytes :=
  c_str <$> value_at now st (c_str k).

(** Entries stored one after the other, each at its own time. *)
Fixpoint stores (kvs : list (bytes * bytes * Z)) (d d' : Z * keyspace) : Prop :=
  match kvs with
  | [] => d' = d
  | (k, v, e) :: kvs' => exists now, fst d <= now /\ stores kvs' (now, <[c_str k := stored now v e]> (snd d)) d'
  end.

(** Keys looked up one after the other. *)
Fixpoint loads (ks : list bytes) (d : Z * keyspace) (vs : list (bool * bytes)) (d' : Z * keyspace) : Prop :=
  match ks, vs with
  | [], [] => d' = d
  | k :: ks', v :: vs' => exists now, fst d <= now /\
      v = match lookup_result now (snd d) k with Some x => (true, x) | None => (false, []) end /\
      loads ks' (now, snd d) vs' d'
  | _, _ => False
  end.

Definition spec (o : op) (d : Z * keyspace) (r : result) (d' : Z * keyspace) : Prop :=
  match o with
  | OSet k v e => r = RBool true /\ stores [(k, v, e)] d d'
  | OGet k v => fst d <= fst d' /\ snd d' = snd d /\
      r = match lookup_result (fst d') (snd d) k with Some v' => RGet true v' | None => RGet false v end
  | OPipeSet ks vs es =>
      if (length ks =? length vs)%nat && (length vs =? length es)%nat
      then r = RBool true /\ stores (zip (zip ks vs) es) d d'
      else r = RBool false /\ d' = d
  | OPipeGet ks vs => exists vs', r = RPipeGet true (vs ++ vs') /\ loads ks d vs' d'
  | _ => True
  end.

Fixpoint spec_run (ops : list op) (d : Z * keyspace) (rs : list result) (d' : Z * keyspace) : Prop :=
  match ops, rs with
  | [], [] => d' = d
  | o :: ops', r :: rs' => exists d1, spec o d r d1 /\ spec_run ops' d1 rs' d'
  | _, _ => False
  end.

(** The calls whose command is GET or SET. *)
Definition on_keys (o : op) : bool :=
  match o with OSet _ _ _ | OGet _ _ | OPipeSet _ _ _ | OPipeGet _ _ => true | _ => false end.

(** *** What is sent *)

Lemma c_str_app s s' : NUL ∉ s -> c_str (s ++ s') = s ++ c_str s'.
Proof.
  induction s as [|c s IH]; intros Hs; [done|]. apply not_elem_of_cons in Hs as [Hc Hs]. simpl.
  by rewrite decide_False, IH by done.
Qed.

Lemma c_str_NUL s : NUL ∉ c_str s.
Proof.
  induction s as [|c s IH]; simpl; [by apply not_elem_of_nil|]. case_decide; [by apply not_elem_of_nil|].
  apply not_elem_of_cons. done.
Qed.

Lemma c_str_copied s : c_str (copied s) = c_str s.
Proof.
  unfold copied. rewrite c_str_app by apply c_str_NUL.
  destruct (_ - _)%nat; simpl; by rewrite app_nil_r.
Qed.

Lemma c_str_to_string z : c_str (Decimal.to_string z) = Decimal.to_string z.
Proof.
  apply c_str_no_nul. intros Hc%Decimal.to_string_digits. by destruct Hc as [Hc|[d Hd]].
Qed.

Lemma sent_get k : sent (append_all [ACStr (lit "get"); AString k] newCommand) = [lit "get"; c_str k].
Proof. unfold sent. simpl. by rewrite !c_str_copied. Qed.

Lemma sent_set k v : sent (append_all [ACStr (lit "set"); AString k; AString v] newCommand) = [lit "set"; c_str k; c_str v].
Proof. unfold sent. simpl. by rewrite !c_str_copied. Qed.

Lemma sent_set_ex k v e :
  sent (append_all [ACStr (lit "set"); AString k; AString v; ACStr (lit "ex"); AInteger e] newCommand)
  = [lit "set"; c_str k; c_str v; lit "ex"; Decimal.to_string e].
Proof. unfold sent. simpl. by rewrite !c_str_copied, c_str_to_string. Qed.

Lemma parse_get k : parse_query [lit "get"; k] = Some (QGet k).
Proof. done. Qed.

Definition set_query (k v : bytes) (e : Z) : query :=
  QSet (c_str k) (c_str v) (if 0 <? e then Some e else None).

Lemma parse_set_command k v e : in_u 32 e -> parse_query (sent (set_command k v e)) = Some (set_query k v e).
Proof.
  intros He. unfold set_command, set_query. destruct (Z.ltb_spec 0 e).
  - change (sent _) with (sent (append_all [ACStr (lit "set"); AString k; AString v; ACStr (lit "ex"); AInteger e] newCommand)).
    rewrite sent_set_ex. unfold parse_query. rewrite decide_True by done.
    rewrite Decimal.stou_to_string by (unfold in_u in *; lia). simpl.
    by rewrite (proj2 (Z.ltb_lt _ _)) by done.
  - change (sent _) with (sent (append_all [ACStr (lit "set"); AString k; AString v] newCommand)).
    by rewrite sent_set.
Qed.

Lemma serve_set k v e now st : serve (set_query k v e) now st = (reply_ok, <[c_str k := stored now v e]> st).
Proof. unfold set_query, stored. simpl. by destruct (0 <? e). Qed.

Lemma read_get (o : option bytes) :
  read_reply (from_option reply_string reply_nil o)
  = Some (match o with Some v => mkResponse REPLY_STRING (c_str v) 0 [] | None => mkResponse REPLY_NIL [] 0 [] end).
Proof. by destruct o. Qed.

Definition set_queries (kvs : list (bytes * bytes * Z)) : list query :=
  (fun '(k, v, e) => set_query k v e) <$> kvs.

Lemma parse_sets ks : forall vs es,
  length ks = length vs -> length vs = length es -> Forall (in_u 32) es ->
  Forall2 (fun c q => parse_query c = Some q) (sent <$> set_commands ks vs es) (set_queries (zip (zip ks vs) es)).
Proof.
  induction ks as [|k ks IH]; intros [|v vs] [|e es] H1 H2 He; try done.
  apply Forall_cons in He as [He Hes]. constructor; [by apply parse_set_command|].
  apply IH; simpl in *; lia || done.
Qed.

Lemma served_sets kvs : forall d rs' rs d',
  served_all (set_queries kvs) d rs' d' -> Forall2 (fun r' r => read_reply r' = Some r) rs' rs ->
  forallb is_ok rs = true /\ stores kvs d d'.
Proof.
  induction kvs as [|[[k v] e] kvs IH]; intros d [|r' rs'] rs d'; simpl; try done.
  { by intros -> ->%Forall2_nil_inv_l. }
  intros ([now st1] & [Hle Hsv] & Hall) (r & rs1 & Hr & Hrs & ->)%Forall2_cons_inv_l. cbn [fst snd] in *.
  rewrite serve_set in Hsv. injection Hsv as -> ->. injection Hr as <-. simpl.
  destruct (IH _ _ _ _ Hall Hrs). eauto.
Qed.

Definition get_command (k : bytes) : RedisCommand := append (AString k) (append (ACStr (lit "get")) newCommand).

Lemma parse_gets ks :
  Forall2 (fun c q => parse_query c = Some q) (sent <$> (get_command <$> ks)) ((fun k => QGet (c_str k)) <$> ks).
Proof.
  induction ks as [|k ks IH]; constructor; [|done].
  change (get_command k) with (append_all [ACStr (lit "get"); AString k] newCommand). by rewrite sent_get, parse_get.
Qed.

Lemma served_gets ks : forall d rs' rs d',
  served_all ((fun k => QGet (c_str k)) <$> ks) d rs' d' -> Forall2 (fun r' r => read_reply r' = Some r) rs' rs ->
  loads ks d ((fun r => if decide (ret_code r = REPLY_STRING) then (true, str r) else (false, [])) <$> rs) d'.
Proof.
  induction ks as [|k ks IH]; intros d [|r' rs'] rs d'; simpl; try done.
  { by intros -> ->%Forall2_nil_inv_l. }
  intros ([now st1] & [Hle Hsv] & Hall) (r & rs1 & Hr & Hrs & ->)%Forall2_cons_inv_l. simpl in *.
  injection Hsv as -> ->. rewrite read_get in Hr. injection Hr as <-. exists now. split_and!; [done| |by eapply IH].
  unfold lookup_result. by destruct (value_at now (snd d) (c_str k)).
Qed.

(** *** Every call *)

Section calls.
Context {W : Type} {hiredis : Hiredis W} {laws : HiredisLaws W} {server : RedisServer W}.

Definition simulates (o : op) (s : t * W) (r : result) (s' : t * W) : Prop :=
  forall d, on_keys o = true -> serves d s -> exists d', spec o d r d' /\ serves d' s'.

Lemma perform_ok L o s :
  idle L s -> op_ok o -> wp (perform o) (fun r s' => idle L s' /\ simulates o s r s') s.
Proof.
  intros Hs Hok. destruct o as [args|fmt args|cmds|k v e|k v|ks vs es|ks vs]; simpl; apply wp_bind.
  - eapply wp_mono; [by apply ExecuteArgv_ok|]. intros r s' [Hi _]. apply wp_ret. by split.
  - destruct Hok as [text Ht]. eapply wp_mono; [by eapply Execute_ok|]. intros r s' Hi. apply wp_ret. by split.
  - eapply wp_mono; [by apply PipeExecute_ok|]. intros [b rs] s' [Hi _]. apply wp_ret. by split.
  - unfold Set_. apply wp_bind.
    assert (wp (if 0 <? e then ExecuteArgv [ACStr (lit "set"); AString k; AString v; ACStr (lit "ex"); AInteger e]
                else ExecuteArgv [ACStr (lit "set"); AString k; AString v])
      (fun r s' => idle L s' /\ answered (sent (set_command k v e)) s r s') s) as Hx.
    { unfold set_command. destruct (0 <? e); by apply ExecuteArgv_ok. }
    eapply wp_mono; [exact Hx|]. intros r s' [Hi Ha]. apply wp_ret, wp_ret. split; [done|].
    intros d _ Hst. destruct (Ha _ _ Hst (parse_set_command k v e Hok)) as (r' & [now st] & [Hle Hsv] & Hr & ?).
    rewrite serve_set in Hsv. simpl in Hsv. injection Hsv as -> ->. injection Hr as <-. simpl.
    eexists. split; [|done]. split; [done|]. by exists now.
  - unfold Get. apply wp_bind. eapply wp_mono; [by apply ExecuteArgv_ok|]. intros r s' [Hi Ha]. apply wp_ret.
    rewrite sent_get in Ha.
    assert (simulates (OGet k v) s (if decide (ret_code r = REPLY_STRING) then RGet true (str r) else RGet false v) s') as Hsim.
    { intros d _ Hst. destruct (Ha _ _ Hst (parse_get _)) as (r' & [now st] & [Hle Hsv] & Hr & ?).
      simpl in Hsv. injection Hsv as -> ->. rewrite read_get in Hr. injection Hr as <-.
      eexists. split; [|done]. split_and!; [done..|]. simpl. unfold lookup_result. by destruct (value_at now _ _). }
    case_decide; apply wp_ret; by split.
  - unfold PipeSet. destruct (length ks =? length vs)%nat eqn:E1, (length vs =? length es)%nat eqn:E2; simpl.
    2-4: apply wp_ret, wp_ret; split; [done|]; intros d _ Hst; exists d; simpl; by rewrite E1, E2.
    apply Nat.eqb_eq in E1, E2.
    apply wp_bind. eapply wp_mono; [by apply PipeExecute_ok|]. intros [b rs'] s' (Hi & rs & E & Ha).
    simpl in E. subst rs'. apply wp_ret, wp_ret. split; [done|]. intros d _ Hst.
    destruct (Ha _ _ Hst (parse_sets _ _ _ E1 E2 Hok)) as (Hb & rs' & d' & Hsv & Hrs & ?). simpl in *. subst b.
    destruct (served_sets _ _ _ _ _ Hsv Hrs) as [-> ?]. exists d'.
    by rewrite (proj2 (Nat.eqb_eq _ _) E1), (proj2 (Nat.eqb_eq _ _) E2).
  - unfold PipeGet. apply wp_bind. eapply wp_mono; [by apply PipeExecute_ok|]. intros [b rs'] s' (Hi & rs & E & Ha).
    simpl in E. subst rs'.
    assert (forall d, serves d s -> b = true /\ exists d', serves d' s' /\
      loads ks d ((fun r => if decide (ret_code r = REPLY_STRING) then (true, str r) else (false, [])) <$> rs) d') as Hg.
    { intros d Hst. destruct (Ha _ _ Hst (parse_gets ks)) as (Hb & rs' & d' & Hsv & Hrs & ?). split; [done|].
      exists d'. split; [done|]. by eapply served_gets. }
    destruct b; apply wp_ret, wp_ret; (split; [done|]); intros d _ Hst;
      destruct (Hg _ Hst) as (Hb & d' & ? & ?); [|done]. exists d'. split; [by eexists|done].
Qed.

Lemma run_ok L ops : forall s,
  idle L s -> Forall op_ok ops ->
  wp (run ops) (fun rs s' => idle L s' /\
    forall d, forallb on_keys ops = true -> serves d s -> exists d', spec_run ops d rs d' /\ serves d' s') s.
Proof.
  induction ops as [|o ops IH]; intros s Hs Hok; simpl.
  { apply wp_ret. split; [done|]. intros d _ Hst. by exists d. }
  apply Forall_cons in Hok as [Ho Hops]. apply wp_bind. eapply wp_mono; [by apply perform_ok|].
  intros r s1 [Hi1 Hr]. apply wp_bind. eapply wp_mono; [by apply IH|]. intros rs s2 [Hi2 Hrs]. apply wp_ret.
  split; [done|]. intros d [Hk Hks]%andb_true_iff Hst.
  destruct (Hr _ Hk Hst) as (d1 & ? & Hst1). destruct (Hrs _ Hks Hst1) as (d2 & ? & ?). exists d2.
  split; [|done]. by exists d1.
Qed.

Lemma idle_make ip port ct rt (w : W) : idle (live w) (make ip port ct rt, w).
Proof. by left. Qed.

Lemma wp_Some {A} (m : M (W := W) A) (Q : A -> t * W -> Prop) (s : t * W) : wp m Q s -> exists a s', m s = Some (a, s') /\ Q a s'.
Proof. unfold wp. destruct (m s) as [[a s']|]; [eauto|done]. Qed.

End calls.

(** C11: whatever the network and the server do, every sequence of calls returns, no
    freed or null object is used, the connection kept between calls has no unread
    replies (so a response is never matched to an older command), and once the proxy
    is destroyed every context and reply it obtained has been freed. *)
Theorem redis_proxy_leaks_nothing {W} {hiredis : Hiredis W} {laws : HiredisLaws W}
    (ip : bytes) (port ct rt : Z) (ops : list op) (w : W) :
  Forall op_ok ops ->
  exists rs p w1 p' w2,
    run ops (make ip port ct rt, w) = Some (rs, (p, w1)) /\
    (ctx_ p <> 0 -> ctx_ p ∈ live w1 /\ unread (ctx_ p) w1 = []) /\
    destroy (p, w1) = Some ((), (p', w2)) /\ live w2 = live w.
Proof.
  intros Hok.
  destruct (wp_Some _ _ _ (run_ok (server := no_server W) _ ops _ (idle_make ip port ct rt w) Hok))
    as (rs & [p w1] & E & Hi & _).
  assert (wp destroy (fun _ s' => closed (live w) s') (p, w1)) as Hd by (eapply close_ok; [exact Hi|done]).
  destruct (wp_Some _ _ _ Hd) as ([] & [p' w2] & E2 & [_ Hl]).
  exists rs, p, w1, p', w2. split_and!; [done| |done|done].
  intros Hc. destruct Hi as [[? _]|Ho]; [done|]. split; [by apply (open_live _ _ _ Ho)|]. by destruct Ho as (_ & _ & _ & ?).
Qed.

(** C12: against a server that is up and has no other client, any sequence of [Set],
    [Get], [PipeSet] and [PipeGet] returns what the same sequence returns on a store
    of expiring entries, and leaves the server with that store: a value set with an
    expiry of [e] seconds is found until [e] seconds of the server's clock have
    passed, one set without is found until it is overwritten.  Keys and values count
    up to their first NUL. *)
Theorem redis_refines_store {W} {hiredis : Hiredis W} {laws : HiredisLaws W} {server : RedisServer W}
    (ip : bytes) (port ct rt : Z) (ops : list op) (w : W) :
  Forall op_ok ops -> forallb on_keys ops = true -> up w ->
  exists rs p w', run ops (make ip port ct rt, w) = Some (rs, (p, w')) /\ up w' /\
    spec_run ops (clock w, store w) rs (clock w', store w').
Proof.
  intros Hok Hkeys Hup.
  destruct (wp_Some _ _ _ (run_ok _ ops _ (idle_make ip port ct rt w) Hok)) as (rs & [p w'] & E & _ & Hs).
  destruct (Hs (clock w, store w) Hkeys) as ([now st] & Hsp & Hu & Ec & Est); [done|]. simpl in *. subst now st.
  exists rs, p, w'. done.
Qed.

(** ** A simulated server, on which the laws hold *)

(** [delays] has the milliseconds that pass before each command is served. *)
Record sim := mkSim {
  replies : gmap Z redisReply; contexts : gmap Z (list (list bytes)); data : keyspace; now : Z; delays : list Z
}.

Definition allocated (w : sim) : gset Z := dom (replies w) ∪ dom (contexts w).

(** An address above all others. *)
Definition new_address (w : sim) : Z := 1 + foldr Z.max 0 (elements (allocated w)).

Definition release (p : Z) (w : sim) : sim := mkSim (delete p (replies w)) (delete p (contexts w)) (data w) (now w) (delays w).

Definition pending (c : Z) (w : sim) : list (list bytes) := default [] (contexts w !! c).

Definition next_time (w : sim) : Z := now w + Z.max 0 (default 0 (head (delays w))).

Definition answer (argv : list bytes) (w : sim) (fail : Z) : Z * sim :=
  match parse_query argv with
  | Some q =>
      let p := new_address w in let '(r, st) := serve q (next_time w) (data w) in
      (p, mkSim (<[p := r]> (replies w)) (contexts w) st (next_time w) (tail (delays w)))
  | None => (fail, w)
  end.

#[global] Instance sim_hiredis : Hiredis sim := {
  redisConnectWithTimeout ip port tv w :=
    let p := new_address w in (p, mkSim (replies w) (<[p := []]> (contexts w)) (data w) (now w) (delays w));
  err c w := false;
  redisSetTimeout c tv w := (0, w);
  redisFree := release;
  redisCommandArgv c argv w := match pending c w with [] => answer argv w 0 | _ => (0, w) end;
  redisvCommand c fmt args w := (0, w);
  redisAppendCommandArgv c argv w :=
    (0, mkSim (replies w) (<[c := pending c w ++ [argv]]> (contexts w)) (data w) (now w) (delays w));
  redisGetReply c old w :=
    match pending c w with
    | argv :: q =>
        match parse_query argv with
        | Some _ =>
            let '(p, w') := answer argv w 0 in
            ((0, p), mkSim (replies w') (<[c := q]> (contexts w')) (data w') (now w') (delays w'))
        | None => ((-1, old), w)
        end
    | [] => ((-1, old), w)
    end;
  reply_at p w := default reply_nil (replies w !! p);
  freeReplyObject := release;
  live := allocated;
  unread := pending }.

Lemma new_address_fresh w : new_address w <> 0 /\ new_address w ∉ allocated w.
Proof.
  assert (forall l (x : Z), (x ∈ l -> x <= foldr Z.max 0 l) /\ 0 <= foldr Z.max 0 l) as Hmax.
  { induction l as [|y l IH]; intros x; simpl; [split; [by intros ?%not_elem_of_nil|lia]|].
    destruct (IH x) as [IH1 IH2]. split; [|lia]. intros [-> |Hx%IH1]%elem_of_cons; lia. }
  unfold new_address. destruct (Hmax (elements (allocated w)) 0) as [_ Hpos]. split; [lia|].
  intros Hin%elem_of_elements. apply Hmax in Hin. lia.
Qed.

Lemma serve_well_formed q now st r st' : serve q now st = (r, st') -> well_formed r.
Proof.
  unfold well_formed. destruct q as [k|k v ex]; simpl; intros [= <- <-]; [|by eauto].
  destruct (value_at now st k) as [v|]; simpl; [by eauto|]. rewrite !elem_of_cons, elem_of_nil. intros Hin. by destruct_or! Hin.
Qed.

Lemma answer_Some argv w fail q :
  parse_query argv = Some q ->
  answer argv w fail = (new_address w, mkSim (<[new_address w := fst (serve q (next_time w) (data w))]> (replies w))
    (contexts w) (snd (serve q (next_time w) (data w))) (next_time w) (tail (delays w))).
Proof. unfold answer. intros ->. by destruct (serve q (next_time w) (data w)). Qed.

Lemma answer_allocates c argv w p w' : answer argv w 0 = (p, w') -> allocates c p w w'.
Proof.
  destruct (parse_query argv) as [q|] eqn:E; [|unfold answer; rewrite E; intros [= <- <-]; by left].
  rewrite (answer_Some _ _ _ _ E). intros [= <- <-].
  destruct (new_address_fresh w). right. split_and!; [done..| |].
  - simpl. unfold allocated. simpl. rewrite dom_insert_L. set_solver.
  - simpl. rewrite lookup_insert_eq. destruct (serve q (next_time w) (data w)) eqn:Es. by eapply serve_well_formed.
Qed.

Lemma release_allocated p w : allocated (release p w) = allocated w ∖ {[p]}.
Proof. unfold allocated, release. simpl. rewrite !dom_delete_L. set_solver. Qed.

Lemma append_allocated c q w :
  c ∈ allocated w -> allocated (mkSim (replies w) (<[c := q]> (contexts w)) (data w) (now w) (delays w)) = allocated w.
Proof. unfold allocated. simpl. rewrite dom_insert_L. set_solver. Qed.

#[global] Instance sim_laws : HiredisLaws sim.
Proof.
  constructor.
  - intros ip port tv w p w' [= <- <-]. destruct (new_address_fresh w). right. split_and!; [done..| |].
    + simpl. unfold allocated. simpl. rewrite dom_insert_L. set_solver.
    + simpl. unfold pending. simpl. by rewrite lookup_insert_eq.
  - by intros c tv w ret w' _ [= <- <-].
  - intros c w _. apply release_allocated.
  - intros c p w _ Hcp. split; [apply release_allocated|]. simpl. unfold pending. simpl. by rewrite lookup_delete_ne.
  - intros c argv w p w' _. simpl. destruct (pending c w) eqn:Eq; [|intros [= <- <-]; split; [by left|done]].
    intros Ha. split; [by eapply answer_allocates|]. intros _ _.
    destruct (parse_query argv) as [q'|] eqn:E; [|unfold answer in Ha; rewrite E in Ha; by simplify_eq].
    rewrite (answer_Some _ _ _ _ E) in Ha. by simplify_eq.
  - intros c fmt args w p w' _ [= <- <-]. split; [by left|done].
  - intros c argv w ret w' Hc [= <- <-]. split; [by apply append_allocated|]. intros _. simpl. unfold pending at 1.
    simpl. by rewrite lookup_insert_eq.
  - intros c old w ret p w' Hc. simpl. destruct (pending c w) as [|argv q] eqn:Eq; [intros [= <- <- <-]; by left|].
    destruct (parse_query argv) as [q'|] eqn:Es; [|intros [= <- <- <-]; by left].
    destruct (answer argv w 0) as [p1 w1] eqn:Ea. intros [= <- <- <-]. right.
    pose proof (answer_allocates c _ _ _ _ Ea) as Hal. rewrite (answer_Some _ _ _ _ Es) in Ea. injection Ea as <- <-.
    destruct (new_address_fresh w) as [Hn0 Hnf].
    destruct Hal as [[? _]|(_ & _ & El & Hw)]; [done|]. split_and!; [done| |].
    + right. split_and!; [done..| |done]. simpl in *. rewrite <- El. unfold allocated. simpl.
      rewrite !dom_insert_L. unfold allocated in Hc. simpl in Hc. set_solver.
    + intros _ argv' cmds [= <- <-]. simpl. unfold pending. simpl. by rewrite lookup_insert_eq.
Qed.

#[global] Instance sim_server : RedisServer sim.
Proof.
  refine {| up := fun _ => True; clock := now; store := data |}.
  - intros ip port tv w p w' _ [= <- <-]. by destruct (new_address_fresh w).
  - by intros c tv w ret w' _ _ [= <- <-].
  - done.
  - intros c argv w q p w' _ _ Hu Hs. simpl in *. rewrite Hu, (answer_Some _ _ _ _ Hs). intros [= <- <-].
    simpl. rewrite lookup_insert_eq. destruct (new_address_fresh w). split_and!; [done|done| |by destruct (serve _ _ _)].
    unfold next_time. lia.
  - by intros c argv w ret w' _ _ [= <- <-].
  - intros c old argv cmds w q ret p w' _ _ Hu Hs. simpl in *. rewrite Hu, Hs, (answer_Some _ _ _ _ Hs).
    intros [= <- <- <-]. simpl. rewrite lookup_insert_eq. destruct (new_address_fresh w).
    split_and!; [done..| |by destruct (serve _ _ _)]. unfold next_time. lia.
Defined.

(** Nobody has written yet; the fifth command, the first key of the pipelined
    look-up, is served six seconds later. *)
Definition sample_world : sim := mkSim ∅ ∅ ∅ 0 [1; 1; 1; 1; 6000].

Definition sample_ops : list op :=
  [OSet (lit "a") (lit "1") 60; OPipeSet [lit "b"; lit "c"] [lit "2"; lit "3"] [0; 5];
   OGet (lit "c") []; OPipeGet [lit "a"; lit "x"; lit "c"] []; OGet (lit "b") []].

Definition sample_results : list result :=
  [RBool true; RBool true; RGet true (lit "3"); RPipeGet true [(true, lit "1"); (false, []); (false, [])];
   RGet true (lit "2")].

(** The entry with an expiry of five seconds is gone at the second look. *)
Example sample_run :
  fst <$> run sample_ops (make (lit "127.0.0.1") 6379 50 50, sample_world) = Some sample_results.
Proof. vm_compute. reflexivity. Qed.

Lemma sample_ops_ok : Forall op_ok sample_ops.
Proof.
  unfold sample_ops. rewrite !Forall_cons, Forall_nil. simpl. rewrite !Forall_cons, Forall_nil.
  unfold in_u. split_and!; done || lia.
Qed.

Lemma redis_proxy_leaks_nothing_witness :
  exists rs p w1 p' w2,
    run sample_ops (make (lit "127.0.0.1") 6379 50 50, sample_world) = Some (rs, (p, w1)) /\
    (ctx_ p <> 0 -> ctx_ p ∈ live w1 /\ unread (ctx_ p) w1 = []) /\
    destroy (p, w1) = Some ((), (p', w2)) /\ live w2 = live sample_world.
Proof.
  apply (redis_proxy_leaks_nothing (lit "127.0.0.1") 6379 50 50 sample_ops sample_world). exact sample_ops_ok.
Defined.

Lemma redis_refines_store_witness :
  exists rs p w', run sample_ops (make (lit "127.0.0.1") 6379 50 50, sample_world) = Some (rs, (p, w')) /\
    up w' /\ spec_run sample_ops (clock sample_world, store sample_world) rs (clock w', store w').
Proof.
  apply (redis_refines_store (lit "127.0.0.1") 6379 50 50 sample_ops sample_world);
    [exact sample_ops_ok|reflexivity|exact I].
Defined.

End RedisProxy.
