(* ===== verification/SharedMemory.v ===== *)
(** * Shared memory of the message queue
    (lockfree/ipc_message_queue/shared_memory/shared_memory.h,
     read_only_shared_memory.h, read_write_shared_memory.h, ring_buffer_shared_memory.h)

    The boost objects are thin wrappers of [shm_open], [ftruncate], [mmap] and of a
    file lock; the system they act on is the record [os]: named segments of bytes
    and the lock files that exist.  An operation returns, ends the process (a FATAL
    log line in a release build), lets an exception escape, or is undefined. *)

From S2P Require Import Prelude.

(** ** The system *)

Record os := mkOs {
  names : gmap bytes nat;      (* /dev/shm *)
  segments : gmap nat bytes;   (* contents, also of unlinked segments *)
  lock_files : gset bytes
}.

Inductive outcome (A : Type) :=
  | Returns (a : A) (w : os)
  | Exits (w : os)
  | Throws (w : os)
  | Undefined.
Arguments Returns {A} a w.
Arguments Exits {A} w.
Arguments Throws {A} w.
Arguments Undefined {A}.

Definition M (A : Type) : Type := os -> outcome A.

#[global] Instance M_ret : MRet M := fun A a w => Returns a w.
#[global] Instance M_bind : MBind M := fun A B f m w =>
  match m w with Returns a w' => f a w' | Exits w' => Exits w' | Throws w' => Throws w' | Undefined => Undefined end.

Definition undefined {A} : M A := fun _ => Undefined.
Definition throw {A} : M A := fun w => Throws w.

(** [LOG_FATAL] and a failed [CHECK]: a release build exits, a debug build logs and
    carries on (Logger::Log). *)
Definition fatal (NDEBUG : bool) : M unit := fun w => if NDEBUG then Exits w else Returns () w.

Definition CHECK (NDEBUG b : bool) : M unit := if b then mret () else fatal NDEBUG.

(** ** boost::interprocess *)

(** What the system grants during a call (permissions, memory): the file lock, the
    segment, its size, its mapping.  What it refuses makes boost throw. *)
Record grants := mkGrants { may_lock : bool; may_open : bool; may_truncate : bool; may_map : bool }.

Definition all_granted : grants := mkGrants true true true true.

Definition shm_size (i : nat) (w : os) : Z := vlen (default [] (segments w !! i)).

(** [shared_memory_object(open_or_create, ...)]; [allowed] is the answer of the
    system. *)
Definition open_or_create (allowed : bool) (key : bytes) (w : os) : option (nat * os) :=
  if negb allowed then None
  else match names w !! key with
       | Some i => Some (i, w)
       | None => let i := fresh (dom (segments w)) in
                 Some (i, mkOs (<[key := i]> (names w)) (<[i := []]> (segments w)) (lock_files w))
       end.

(** [shared_memory_object(open_only, ...)] *)
Definition open_only (key : bytes) (w : os) : option nat := names w !! key.

(** [truncate]: cut or filled up with zeros. *)
Definition resize (n : Z) (s : bytes) : bytes := take (Z.to_nat n) s ++ replicate (Z.to_nat n - length s) NUL.

Definition truncate (i : nat) (n : Z) (w : os) : os :=
  mkOs (names w) (<[i := resize n (default [] (segments w !! i))]> (segments w)) (lock_files w).

Definition shm_remove (key : bytes) (w : os) : os := mkOs (delete key (names w)) (segments w) (lock_files w).

(** A mapping of the whole segment; mapping an empty one fails, and so does any that
    the system refuses. *)
Record mapped_region := mkRegion { segment : nat; get_size : Z }.

Definition map_region (allowed : bool) (i : nat) : M mapped_region := fun w =>
  if negb allowed || (shm_size i w =? 0) then Throws w else Returns (mkRegion i (shm_size i w)) w.

Definition size_of (i : nat) : M Z := fun w => Returns (shm_size i w) w.

Definition truncates (allowed : bool) (i : nat) (n : Z) : M unit := fun w =>
  if allowed then Returns () (truncate i n w) else Throws w.

(** [file_lock(path)] opens an existing file; [lock()] takes the lock. *)
Definition file_lock (allowed : bool) (path : bytes) : M unit := fun w =>
  if decide (allowed = true /\ path ∈ lock_files w) then Returns () w else Throws w.

(** Bytes [off, off + len) through a mapping; outside it, or past the end of a
    segment that was shrunk, undefined. *)
Definition read_region (r : mapped_region) (off len : Z) (w : os) : option bytes :=
  if (0 <=? off) && (0 <=? len) && (off + len <=? get_size r) && (off + len <=? shm_size (segment r) w)
  then Some (take (Z.to_nat len) (drop (Z.to_nat off) (default [] (segments w !! segment r)))) else None.

(** ** SharedMemory::NodeInfo *)

Record NodeInfo := mkNode {
  shared_memory_key : bytes; process_id : Z; channel_id : Z;
  offset : Z; length_ : Z; check_sum : Z; expired_timestamp_ns : Z
}.

Definition kMaxBufferSize : Z := 256.

(** [shared_memory_size_mb_ << 20] in [uint32_t], stored in an [int64_t]. *)
Definition desired_size_bytes (mb : Z) : Z := u32 (Z.shiftl mb 20).

(** ** ReadWriteSharedMemory *)

Module ReadWriteSharedMemory.

Record t := mk {
  key_ : bytes;
  file_lock_path_ : bytes;
  shared_memory_size_mb_ : Z;
  shared_memory_ : option nat;
  mapped_region_ : option mapped_region
}.

(** [SharedMemoryByteSize] of a null pointer: the CHECK, then a dereference. *)
Definition SharedMemoryByteSize (NDEBUG : bool) (shm : option nat) : M Z :=
  match shm with None => _ ← fatal NDEBUG; undefined | Some i => size_of i end.

Definition deref (shm : option nat) : M nat := match shm with None => undefined | Some i => mret i end.

(** The [try] block: an exception is logged as fatal and the pointer stays null. *)
Definition try_open (NDEBUG allowed : bool) (key : bytes) : M (option nat) := fun w =>
  match open_or_create allowed key w with
  | Some (i, w') => Returns (Some i) w'
  | None => (_ ← fatal NDEBUG; mret (M := M) None) w
  end.

Definition OpenSharedMemory (NDEBUG : bool) (g : grants) (o : t) : M t :=
  let desired := desired_size_bytes (shared_memory_size_mb_ o) in
  _ ← file_lock (may_lock g) (file_lock_path_ o);
  shm ← try_open NDEBUG (may_open g) (key_ o);
  current ← SharedMemoryByteSize NDEBUG shm;
  _ ← (if negb (current =? 0) && negb (current =? desired) then fatal NDEBUG else mret ());
  _ ← (if current =? 0 then i ← deref shm; truncates (may_truncate g) i desired else mret ());
  current ← SharedMemoryByteSize NDEBUG shm;
  _ ← CHECK NDEBUG (current =? desired);
  i ← deref shm;
  r ← map_region (may_map g) i;
  mret (mk (key_ o) (file_lock_path_ o) (shared_memory_size_mb_ o) shm (Some r)).

(** The constructor. *)
Definition make (NDEBUG : bool) (g : grants) (key : bytes) (mb : Z) : M t :=
  _ ← CHECK NDEBUG (negb (bool_decide (key = [])));
  _ ← CHECK NDEBUG (0 <? mb);
  OpenSharedMemory NDEBUG g
    (mk key (lit "./ring_buffer_shared_memory/" ++ key ++ lit ".lock") mb None None).

(** Not written yet: they report success and do nothing. *)
Definition Write (data : bytes) (data_len : Z) (node_info : NodeInfo) (o : t) : bool * NodeInfo := (true, node_info).
Definition Read (node_info : NodeInfo) (data : bytes) (o : t) : bool * bytes := (true, data).

End ReadWriteSharedMemory.

(** ** ReadOnlySharedMemory *)

Module ReadOnlySharedMemory.

Record t := mk {
  key_ : bytes;
  shared_memory_ : option nat;
  mapped_region_ : option mapped_region;
  is_available_ : bool
}.

(** Members set before an early return stay set.  A segment that is not empty can be
    mapped for reading. *)
Definition OpenSharedMemory (o : t) : M (bool * t) := fun w =>
  match open_only (key_ o) w with
  | None => Returns (false, o) w
  | Some i =>
      let o1 := mk (key_ o) (Some i) (mapped_region_ o) (is_available_ o) in
      if shm_size i w =? 0 then Returns (false, o1) w
      else (r ← map_region true i; mret (M := M) (true, mk (key_ o) (Some i) (Some r) (is_available_ o))) w
  end.

Definition set_available (b : bool) (o : t) : t := mk (key_ o) (shared_memory_ o) (mapped_region_ o) b.

Definition make (NDEBUG : bool) (key : bytes) : M t :=
  _ ← CHECK NDEBUG (negb (bool_decide (key = [])));
  '(b, o) ← OpenSharedMemory (mk key None None false);
  mret (set_available b o).

Definition Write (data : bytes) (data_len : Z) (node_info : NodeInfo) (o : t) : bool := false.

(** [now] is [util::TimestampNanoSec()]. *)
Definition CheckIfAvailable (now : Z) (node_info : NodeInfo) (o : t) : M (bool * t) :=
  '(ok, o) ← (if is_available_ o then mret (true, o)
              else '(b, o1) ← OpenSharedMemory o; mret (b, set_available b o1));
  if negb ok then mret (false, o)
  else if expired_timestamp_ns node_info <? now then mret (false, o)
  else match mapped_region_ o with
       | None => undefined
       | Some r =>
           if get_size r <? u64 (offset node_info + length_ node_info) then mret (false, set_available false o)
           else mret (true, o)
       end.

Definition read_mapped (node_info : NodeInfo) (o : t) : M bytes := fun w =>
  match mapped_region_ o with
  | None => Undefined
  | Some r => match read_region r (offset node_info) (length_ node_info) w with
              | Some s => Returns s w
              | None => Undefined
              end
  end.

(** [Read] into a [std::vector]; the result, the vector and the object. *)
Definition Read_vector (now : Z) (node_info : NodeInfo) (data : bytes) (o : t) : M (bool * bytes * t) :=
  '(ok, o) ← CheckIfAvailable now node_info o;
  if negb ok then mret (false, data, o)
  else s ← read_mapped node_info o; mret (false, s, o).

(** [Read] into a [std::string]. *)
Definition Read_string (now : Z) (node_info : NodeInfo) (data : bytes) (o : t) : M (bool * bytes * t) :=
  '(ok, o) ← CheckIfAvailable now node_info o;
  if negb ok then mret (false, data, o)
  else s ← read_mapped node_info o; mret (true, s, o).

End ReadOnlySharedMemory.

(** ** RingBufferSharedMemory

    Neither method is called yet.  [OpenSharedMemory] declares [current_size_bytes]
    twice in the read-only branch; both declarations have the same value. *)

Module RingBufferSharedMemory.

Record t := mk {
  key_ : bytes;
  file_lock_path_ : bytes;
  shared_memory_size_mb_ : Z;
  is_readonly_ : bool;
  is_available_ : bool;
  shared_memory_ : option nat;
  mapped_region_ : option (mapped_region * bool)   (* and whether it is writable *)
}.

Definition make (NDEBUG : bool) (key : bytes) (mb : Z) : M t :=
  _ ← CHECK NDEBUG (negb (bool_decide (key = [])));
  _ ← CHECK NDEBUG (0 <? mb);
  mret (mk key (lit "./ring_buffer_shared_memory/" ++ key ++ lit ".lock") mb false false None None).

Definition set_shm (shm : option nat) (o : t) : t :=
  mk (key_ o) (file_lock_path_ o) (shared_memory_size_mb_ o) (is_readonly_ o) (is_available_ o) shm (mapped_region_ o).

Definition set_mapped (r : mapped_region) (writable : bool) (o : t) : t :=
  mk (key_ o) (file_lock_path_ o) (shared_memory_size_mb_ o) (is_readonly_ o) true (shared_memory_ o) (Some (r, writable)).

Definition SharedMemorySize (shm : option nat) : M Z := i ← ReadWriteSharedMemory.deref shm; size_of i.

Definition find_only (key : bytes) : M (option nat) := fun w => Returns (open_only key w) w.

Definition OpenSharedMemory (NDEBUG : bool) (g : grants) (o : t) : M (bool * t) :=
  let desired := desired_size_bytes (shared_memory_size_mb_ o) in
  if is_readonly_ o then
    shm ← find_only (key_ o);
    match shm with
    | None => mret (false, o)
    | Some i =>
        current ← size_of i;
        if negb (current =? desired) then mret (false, set_shm None o)
        else r ← map_region (may_map g) i; mret (true, set_mapped r false (set_shm shm o))
    end
  else
    _ ← file_lock (may_lock g) (file_lock_path_ o);
    shm ← ReadWriteSharedMemory.try_open NDEBUG (may_open g) (key_ o);
    current ← SharedMemorySize shm;
    if negb (current =? 0) && negb (current =? desired) then _ ← fatal NDEBUG; mret (false, set_shm shm o)
    else
      _ ← (if current =? 0 then i ← ReadWriteSharedMemory.deref shm; truncates (may_truncate g) i desired else mret ());
      current ← SharedMemorySize shm;
      _ ← CHECK NDEBUG (current =? desired);
      i ← ReadWriteSharedMemory.deref shm;
      r ← map_region (may_map g) i;
      mret (true, set_mapped r false (set_shm shm o)).

(** Creates the file if it is not there; its directory exists. *)
Definition create_lock_file (path : bytes) : M unit := fun w =>
  Returns () (mkOs (names w) (segments w) ({[path]} ∪ lock_files w)).

Definition removes (key : bytes) : M unit := fun w => Returns () (shm_remove key w).

(** The second, uncaught [open_or_create]. *)
Definition reopen (allowed : bool) (key : bytes) : M (option nat) := fun w =>
  match open_or_create allowed key w with Some (i, w') => Returns (Some i) w' | None => Throws w end.

(** [allowed2] is the answer to the second [open_or_create]. *)
Definition OpenSharedMemory2 (NDEBUG : bool) (g : grants) (allowed2 : bool) (o : t) : M t :=
  let desired := desired_size_bytes (shared_memory_size_mb_ o) in
  shm ← (if is_readonly_ o then find_only (key_ o) else ReadWriteSharedMemory.try_open NDEBUG (may_open g) (key_ o));
  if is_readonly_ o && bool_decide (shm = None) then mret o
  else
    _ ← CHECK NDEBUG (bool_decide (is_Some shm));
    current ← SharedMemorySize shm;
    i ← ReadWriteSharedMemory.deref shm;
    let o := set_shm shm o in
    if current =? desired then r ← map_region (may_map g) i; mret (set_mapped r (negb (is_readonly_ o)) o)
    else
      _ ← CHECK NDEBUG (bool_decide (is_Some (mapped_region_ o)));
      if is_readonly_ o then mret o
      else
        _ ← create_lock_file (file_lock_path_ o);
        _ ← file_lock (may_lock g) (file_lock_path_ o);
        current ← size_of i;
        i ← (if negb (current =? desired) then
               j ← (if negb (current =? 0) then
                      _ ← removes (key_ o); shm ← reopen allowed2 (key_ o); ReadWriteSharedMemory.deref shm
                    else mret i);
               _ ← truncates (may_truncate g) j desired; mret j
             else mret i);
        r ← map_region (may_map g) i;
        mret (set_mapped r true (set_shm (Some i) o)).

End RingBufferSharedMemory.

(** ** Opening *)

Lemma desired_size_exact mb : 0 < mb < 4096 -> desired_size_bytes mb = mb * 2 ^ 20.
Proof. intros H. unfold desired_size_bytes. rewrite Z.shiftl_mul_pow2 by lia. apply wrapu_id. unfold in_u. lia. Qed.

Lemma length_resize n s : 0 <= n -> vlen (resize n s) = n.
Proof.
  intros Hn. unfold vlen, resize. rewrite length_app, length_take, length_replicate. lia.
Qed.

Lemma shm_size_truncate i n w : 0 <= n -> shm_size i (truncate i n w) = n.
Proof. intros Hn. unfold shm_size, truncate. simpl. rewrite lookup_insert_eq. by apply length_resize. Qed.

(** [open_or_create] leaves the segments there were. *)
Lemma open_or_create_Some key w i w' :
  open_or_create true key w = Some (i, w') ->
  names w' !! key = Some i /\ (forall j s, segments w !! j = Some s -> segments w' !! j = Some s) /\
  (names w !! key = Some i \/ names w !! key = None /\ shm_size i w' = 0 /\ segments w !! i = None).
Proof.
  unfold open_or_create. simpl. destruct (names w !! key) as [i'|] eqn:E; intros [= <- <-]; [by auto|]. simpl.
  pose proof (is_fresh (dom (segments w))) as Hf. apply not_elem_of_dom in Hf.
  rewrite lookup_insert_eq. split_and!; [done| |].
  - intros j s Hj. rewrite lookup_insert_ne; [done|]. congruence.
  - right. split_and!; [done| |done]. unfold shm_size. simpl. by rewrite lookup_insert_eq.
Qed.

(** Every non-empty segment is as it was. *)
Definition preserved (w w' : os) : Prop :=
  forall j s, segments w !! j = Some s -> s <> [] -> segments w' !! j = Some s.

(** What became of an attempt to open [key] with [mb] megabytes in a release build. *)
Definition opened_exactly (g : grants) (key : bytes) (mb : Z) (w : os) (res : outcome ReadWriteSharedMemory.t) : Prop :=
  match res with
  | Returns o w' =>
      exists i, names w' !! key = Some i /\ ReadWriteSharedMemory.mapped_region_ o = Some (mkRegion i (mb * 2 ^ 20)) /\
        shm_size i w' = mb * 2 ^ 20 /\ preserved w w'
  | Exits w' =>
      w' = w /\ (may_open g = false \/ exists i, names w !! key = Some i /\ shm_size i w <> 0 /\ shm_size i w <> mb * 2 ^ 20)
  | Throws w' =>
      w' = w /\ (may_lock g = false \/ lit "./ring_buffer_shared_memory/" ++ key ++ lit ".lock" ∉ lock_files w) \/
      exists i, names w' !! key = Some i /\ preserved w w' /\
        (may_truncate g = false /\ shm_size i w' = 0 \/ may_map g = false /\ shm_size i w' = mb * 2 ^ 20)
  | Undefined => False
  end.

Lemma preserved_truncate w w1 i n :
  (forall j s, segments w !! j = Some s -> segments w1 !! j = Some s) -> shm_size i w1 = 0 ->
  preserved w (truncate i n w1).
Proof.
  intros Hk H0 j s Hj Hs. apply Hk in Hj. simpl. rewrite lookup_insert_ne; [done|]. intros ->.
  unfold shm_size in H0. rewrite Hj in H0. simpl in H0. destruct s; [done|]. unfold vlen in H0. simpl in H0. lia.
Qed.

(** C24: in a release build, opening the segment of a key with a size of 1 to 4095
    megabytes ends in exactly one of these ways: the segment exists with exactly that
    size and is mapped whole; or the process exits, having changed nothing, because the
    system refused the segment or it has another size; or an exception escapes, because
    the lock file does not exist or cannot be locked (nothing has changed then), because
    the segment could not be given its size (it is left empty) or because it could not
    be mapped (it is left with that size).  No non-empty segment is ever touched. *)
Theorem release_open_is_exact (g : grants) (key : bytes) (mb : Z) (w : os) :
  key <> [] -> 0 < mb < 4096 ->
  opened_exactly g key mb w (ReadWriteSharedMemory.make true g key mb w).
Proof.
  intros Hkey Hmb. unfold ReadWriteSharedMemory.make. rewrite bool_decide_eq_false_2, (proj2 (Z.ltb_lt _ _)) by (done || lia).
  cbn [negb CHECK mbind M_bind mret M_ret]. unfold ReadWriteSharedMemory.OpenSharedMemory. cbn [ReadWriteSharedMemory.shared_memory_size_mb_
    ReadWriteSharedMemory.file_lock_path_ ReadWriteSharedMemory.key_]. rewrite desired_size_exact by done.
  set (n := mb * 2 ^ 20). assert (0 < n) as Hn by lia.
  unfold mbind, M_bind, mret, M_ret. unfold file_lock at 1. case_decide as Hlock.
  2: { left. split; [done|]. destruct (may_lock g); [right|by left]. by intros ?; apply Hlock. }
  unfold ReadWriteSharedMemory.try_open. destruct (may_open g) eqn:Eg; [|by split; [|left]].
  destruct (open_or_create true key w) as [[i w1]|] eqn:E; [|unfold open_or_create in E; simpl in E; by destruct (names w !! key)].
  pose proof (open_or_create_Some _ _ _ _ E) as (Hname & Hkeep & Hcase).
  cbn [ReadWriteSharedMemory.SharedMemoryByteSize ReadWriteSharedMemory.deref]. unfold size_of at 1.
  unfold mret, M_ret. destruct (Z.eqb_spec (shm_size i w1) 0) as [E0|E0]; cbn [negb andb].
  - unfold truncates, size_of. destruct (may_truncate g) eqn:Et.
    2: { right. exists i. split_and!; [done|intros j s Hj _; auto|by left]. }
    rewrite shm_size_truncate by lia. rewrite Z.eqb_refl. cbn [CHECK]. unfold mret, M_ret.
    pose proof (shm_size_truncate i n w1 ltac:(lia)) as Hsz. pose proof (preserved_truncate w w1 i n Hkeep E0) as Hpr.
    unfold map_region. rewrite Hsz, (proj2 (Z.eqb_neq n 0)) by lia. destruct (may_map g) eqn:Em; cbn [negb orb].
    + exists i. by split_and!.
    + right. exists i. split_and!; [done..|by right].
  - assert (names w !! key = Some i /\ w1 = w) as [Hi ->].
    { destruct Hcase as [Hi|(_ & ? & _)]; [|done]. unfold open_or_create in E. simpl in E. rewrite Hi in E. by simplify_eq. }
    destruct (Z.eqb_spec (shm_size i w) n) as [E1|E1]; cbn [negb].
    + unfold size_of. rewrite (proj2 (Z.eqb_eq _ _) E1). cbn [CHECK]. unfold mret, M_ret. unfold map_region.
      rewrite (proj2 (Z.eqb_neq _ _) E0), E1. assert (preserved w w) as Hpr by by intros j s Hj _.
      destruct (may_map g) eqn:Em; cbn [negb orb]; [|right]; exists i; split_and!; auto.
    + split; [done|]. right. eauto.
Qed.

Definition sample_key : bytes := lit "k".
Definition sample_lock : bytes := lit "./ring_buffer_shared_memory/" ++ sample_key ++ lit ".lock".

(** The system has no room for the segment: it stays behind, empty. *)
Definition no_room : grants := mkGrants true true false true.

Lemma release_open_is_exact_witness :
  opened_exactly all_granted sample_key 2 (mkOs ∅ ∅ {[sample_lock]})
    (ReadWriteSharedMemory.make true all_granted sample_key 2 (mkOs ∅ ∅ {[sample_lock]})) /\
  opened_exactly no_room sample_key 2 (mkOs ∅ ∅ {[sample_lock]})
    (ReadWriteSharedMemory.make true no_room sample_key 2 (mkOs ∅ ∅ {[sample_lock]})).
Proof.
  split; [apply (release_open_is_exact all_granted sample_key 2 (mkOs ∅ ∅ {[sample_lock]}))
         |apply (release_open_is_exact no_room sample_key 2 (mkOs ∅ ∅ {[sample_lock]}))]; done || lia.
Defined.

(** Without the lock file the constructor throws whatever else is there; nothing in
    the class creates it. *)
Lemma open_needs_lock_file NDEBUG g key mb names segments :
  key <> [] -> 0 < mb ->
  ReadWriteSharedMemory.make NDEBUG g key mb (mkOs names segments ∅) = Throws (mkOs names segments ∅).
Proof.
  intros Hkey Hmb. unfold ReadWriteSharedMemory.make. rewrite bool_decide_eq_false_2, (proj2 (Z.ltb_lt _ _)) by done.
  cbn [negb CHECK mbind M_bind mret M_ret]. unfold ReadWriteSharedMemory.OpenSharedMemory.
  unfold mbind, M_bind, mret, M_ret. unfold file_lock at 1. case_decide as Hl; [|done]. by destruct Hl as [_ ?%elem_of_empty].
Qed.

(** In a debug build FATAL lines do not end the process, so a segment of another
    size is mapped all the same: a writer of 2 megabytes gets a mapping of 3 bytes. *)
Theorem debug_open_maps_wrong_size :
  let w := mkOs {[sample_key := 0%nat]} {[0%nat := lit "abc"]} {[sample_lock]} in
  ReadWriteSharedMemory.make false all_granted sample_key 2 w
  = Returns (ReadWriteSharedMemory.mk sample_key sample_lock 2 (Some 0%nat) (Some (mkRegion 0 3))) w.
Proof. reflexivity. Qed.

(** ** Reading *)

Module Reading.
Import ReadOnlySharedMemory.

(** The mapping covers what the segment had when it was mapped; segments do not
    shrink while they are mapped. *)
Definition valid (o : t) (w : os) : Prop :=
  (forall r, mapped_region_ o = Some r -> 0 < get_size r <= shm_size (segment r) w) /\
  (is_available_ o = true -> is_Some (mapped_region_ o)).

Definition node_ok (n : NodeInfo) : Prop := in_u 64 (offset n) /\ in_u 64 (length_ n).

Lemma shm_size_nonneg i w : 0 <= shm_size i w.
Proof. unfold shm_size, vlen. lia. Qed.

Lemma OpenSharedMemory_ok o w :
  valid o w -> exists b o', OpenSharedMemory o w = Returns (b, o') w /\ valid (set_available b o') w /\ key_ o' = key_ o.
Proof.
  intros [Hm Ha]. unfold OpenSharedMemory. destruct (open_only (key_ o) w) as [i|].
  2: { exists false, o. split_and!; [done| |done]. by split. }
  pose proof (shm_size_nonneg i w) as H0. destruct (Z.eqb_spec (shm_size i w) 0) as [E|E].
  - eexists _, _. split_and!; [reflexivity| |done]. split; [done|]. by intros ?.
  - unfold mbind, M_bind, map_region. rewrite (proj2 (Z.eqb_neq _ _) E). cbn [negb orb].
    eexists _, _. split_and!; [reflexivity| |done]. split; simpl; [intros r [= <-]; simpl; lia|eauto].
Qed.

(** Never undefined, never throwing; a positive answer comes with a mapping that
    covers the (wrapped) end of the node. *)
Lemma CheckIfAvailable_ok now n o w :
  valid o w -> exists b o', CheckIfAvailable now n o w = Returns (b, o') w /\ valid o' w /\
    (b = true -> now <= expired_timestamp_ns n /\
       exists r, mapped_region_ o' = Some r /\ u64 (offset n + length_ n) <= get_size r).
Proof.
  intros Hv. unfold CheckIfAvailable.
  assert (exists ok o1, (if is_available_ o then mret (M := M) (true, o)
      else '(b, o1) ← OpenSharedMemory o; mret (M := M) (b, set_available b o1)) w = Returns (ok, o1) w /\
      valid o1 w /\ (ok = true -> is_available_ o1 = true)) as (ok & o1 & E & Hv1 & Hok).
  { destruct (is_available_ o) eqn:Ea; [eexists true, o; by split_and!|].
    destruct (OpenSharedMemory_ok o w Hv) as (b & o' & E & Hv' & _).
    exists b, (set_available b o'). unfold mbind, M_bind. rewrite E. done. }
  unfold mbind at 1, M_bind at 1. rewrite E. destruct ok; simpl; [|eexists _, _; by split_and!].
  destruct (Z.ltb_spec (expired_timestamp_ns n) now); [eexists _, _; by split_and!|].
  destruct (proj2 Hv1 (Hok eq_refl)) as [r Hr]. rewrite Hr.
  destruct (Z.ltb_spec (get_size r) (u64 (offset n + length_ n))).
  - eexists _, _. split_and!; [reflexivity| |done]. destruct Hv1 as [? _]. by split.
  - eexists _, _. split_and!; [reflexivity|done|]. intros _. split; [lia|eauto].
Qed.

(** The bytes of the segment the node points at. *)
Definition node_bytes (n : NodeInfo) (i : nat) (w : os) : bytes :=
  take (Z.to_nat (length_ n)) (drop (Z.to_nat (offset n)) (default [] (segments w !! i))).

(** C35: a read of a node whose end does not wrap around never touches memory outside
    the mapping: it reports failure and leaves the string alone, or it returns
    exactly the bytes of the segment the node points at, and then the node has not
    expired. *)
Theorem shared_read_in_bounds (now : Z) (n : NodeInfo) (data : bytes) (o : t) (w : os) :
  valid o w -> node_ok n -> offset n + length_ n < 2 ^ 64 ->
  exists b s o', Read_string now n data o w = Returns (b, s, o') w /\ valid o' w /\
    (b = false -> s = data) /\
    (b = true -> now <= expired_timestamp_ns n /\
       exists r, mapped_region_ o' = Some r /\ s = node_bytes n (segment r) w /\ vlen s = length_ n).
Proof.
  intros Hv [[Ho _] [Hl _]] Hwrap. destruct (CheckIfAvailable_ok now n o w Hv) as (b & o' & E & Hv' & Hb).
  unfold Read_string. unfold mbind at 1, M_bind at 1. rewrite E. destruct b; simpl; [|by eexists false, data, o'; split_and!].
  destruct (Hb eq_refl) as (Hexp & r & Hr & Hsz). rewrite wrapu_id in Hsz by (unfold in_u; lia).
  pose proof (proj1 Hv' r Hr) as Hsize. unfold mbind, M_bind, read_mapped. rewrite Hr. unfold read_region.
  rewrite !(proj2 (Z.leb_le _ _)) by lia. simpl. exists true, (node_bytes n (segment r) w), o'.
  split_and!; [done|done|done|]. intros _. split; [done|]. exists r. split_and!; [done..|].
  unfold node_bytes, vlen. rewrite length_take, length_drop. unfold shm_size, vlen in Hsize. lia.
Qed.

(** [Read] into a vector reports failure on every path, also when it has filled
    the vector with the bytes [Read] into a string reports success for. *)
Theorem vector_read_reports_failure (now : Z) (n : NodeInfo) (data : bytes) (o : t) (w : os) :
  match Read_string now n data o w with
  | Returns (_, s, o') w' => Read_vector now n data o w = Returns (false, s, o') w'
  | Exits w' => Read_vector now n data o w = Exits w'
  | Throws w' => Read_vector now n data o w = Throws w'
  | Undefined => Read_vector now n data o w = Undefined
  end.
Proof.
  unfold Read_string, Read_vector, mbind, M_bind. destruct (CheckIfAvailable now n o w) as [[ok o'] w1| | |]; try done.
  destruct ok; simpl; [|done]. by destruct (read_mapped n o' w1).
Qed.

(** A reader with a mapping of a segment of 16 bytes. *)
Definition reader : t := mk sample_key (Some 0%nat) (Some (mkRegion 0 16)) true.
Definition reader_os : os := mkOs {[sample_key := 0%nat]} {[0%nat := lit "0123456789abcdef"]} ∅.
Definition node (off len : Z) : NodeInfo := mkNode sample_key 1 1 off len 0 100.

(** The bounds test adds offset and length in 64 bits.  A node near the top of
    the range wraps around, passes the test, and the read goes outside the mapping. *)
Theorem read_bounds_check_wraps :
  CheckIfAvailable 50 (node (2 ^ 64 - 8) 16) reader reader_os = Returns (true, reader) reader_os /\
  Read_string 50 (node (2 ^ 64 - 8) 16) [] reader reader_os = Undefined.
Proof. split; reflexivity. Qed.

Lemma shared_read_in_bounds_witness :
  exists b s o', Read_string 50 (node 4 3) [] reader reader_os = Returns (b, s, o') reader_os /\ valid o' reader_os /\
    (b = false -> s = []) /\
    (b = true -> 50 <= expired_timestamp_ns (node 4 3) /\
       exists r, mapped_region_ o' = Some r /\ s = node_bytes (node 4 3) (segment r) reader_os /\ vlen s = length_ (node 4 3)).
Proof.
  apply (shared_read_in_bounds 50 (node 4 3) [] reader reader_os).
  - split; [intros r [= <-]; vm_compute; split; congruence|done].
  - by vm_compute.
  - by vm_compute.
Defined.

End Reading.

(** ** The resizing open *)

(** In a release build [OpenSharedMemory2] cannot create a segment: with no mapping
    yet, a segment of another size (in particular a new, empty one) ends the process
    at [CHECK_NOTNULL(mapped_region_)], before the code that resizes it. *)
Theorem open2_exits_before_resizing (key path : bytes) (mb : Z) (avail : bool) (shm : option nat) (w : os) :
  0 < mb < 4096 ->
  (forall i, names w !! key = Some i -> shm_size i w <> mb * 2 ^ 20) ->
  exists w', RingBufferSharedMemory.OpenSharedMemory2 true all_granted true
    (RingBufferSharedMemory.mk key path mb false avail shm None) w = Exits w' /\ preserved w w'.
Proof.
  intros Hmb Hsz. unfold RingBufferSharedMemory.OpenSharedMemory2.
  cbn [may_open all_granted RingBufferSharedMemory.is_readonly_ RingBufferSharedMemory.key_ RingBufferSharedMemory.shared_memory_size_mb_ andb].
  rewrite desired_size_exact by done. unfold mbind, M_bind, mret, M_ret. unfold ReadWriteSharedMemory.try_open.
  destruct (open_or_create true key w) as [[i w1]|] eqn:E; [|unfold open_or_create in E; simpl in E; by destruct (names w !! key)].
  pose proof (open_or_create_Some _ _ _ _ E) as (Hname & Hkeep & Hcase). exists w1. split; [|intros j s Hj _; auto].
  rewrite bool_decide_eq_true_2 by eauto. cbn [CHECK]. unfold RingBufferSharedMemory.SharedMemorySize, mbind, M_bind, mret, M_ret.
  cbn [ReadWriteSharedMemory.deref]. unfold mret, M_ret, size_of at 1.
  assert (shm_size i w1 <> mb * 2 ^ 20) as Hne.
  { destruct Hcase as [Hi|(_ & -> & _)]; [|lia]. specialize (Hsz i Hi).
    unfold open_or_create in E. simpl in E. rewrite Hi in E. by simplify_eq. }
  rewrite (proj2 (Z.eqb_neq _ _) Hne). reflexivity.
Qed.

Lemma open2_exits_before_resizing_witness :
  exists w', RingBufferSharedMemory.OpenSharedMemory2 true all_granted true
    (RingBufferSharedMemory.mk sample_key sample_lock 2 false false None None) (mkOs ∅ ∅ ∅) = Exits w' /\
    preserved (mkOs ∅ ∅ ∅) w'.
Proof. apply (open2_exits_before_resizing sample_key sample_lock 2 false None (mkOs ∅ ∅ ∅)); [lia|done]. Defined.
