(* ===== verification/SharedMemoryOpen.v ===== *)
(** * Processes opening the same shared memory at once
    (read_write_shared_memory.h, read_only_shared_memory.h: OpenSharedMemory)

    One transition per system call.  [nw] processes open the segment for writing, each
    with a size of its own, and [nr] for reading.  Writers hold the file lock from
    [file_lock.lock()] to [file_lock.unlock()], or until they exit or an exception
    leaves [OpenSharedMemory]; readers take no lock.  The system may refuse the lock,
    the segment, its size or its mapping.  The build is a release build, in which a
    FATAL line ends the process; a writer that has opened the segment may store into
    it. *)

From S2P Require Import Prelude SharedMemory.

Module SharedMemoryOpen.

Inductive writer :=
  | WStart
  | WLocked
  | WOpened
  | WSized (current_size_bytes : Z)
  | WResized
  | WChecked
  | WMapped (size : Z)
  | WDone (size : Z)
  | WExited.                       (* the process has exited, or has no mapping *)

(** A reader that finds no segment or an empty one tries again at its next read. *)
Inductive reader := RStart | ROpened | RSized (current_size_bytes : Z) | RMapped (size : Z) | RFailed.

Record t := mk {
  segment : option bytes;         (* the named segment, if it was created *)
  holder : option nat;            (* the writer that has the file lock *)
  writers : nat -> writer;
  readers : nat -> reader
}.

Definition size (s : t) : Z := vlen (default [] (segment s)).

Definition goto {A} (i : nat) (p : A) (f : nat -> A) : nat -> A := fun j => if decide (j = i) then p else f j.

(** [nw] writers and [nr] readers about to open the segment, which may exist. *)
Definition init (nw nr : nat) (c : option bytes) : t :=
  mk c None (fun i => if decide (i < nw)%nat then WStart else WExited)
    (fun i => if decide (i < nr)%nat then RStart else RFailed).

(** The lines of [OpenSharedMemory] inside the lock. *)
Definition critical (w : writer) : Prop :=
  match w with WLocked | WOpened | WSized _ | WResized | WChecked | WMapped _ => True | _ => False end.

Definition finished (w : writer) : Prop := match w with WDone _ | WExited => True | _ => False end.

Definition read_finished (r : reader) : Prop := match r with RMapped _ | RFailed => True | _ => False end.

Section processes.
Context (desired : nat -> Z).

(** Writer [i] does its next system call, which succeeds. *)
Inductive writer_step (i : nat) : t -> t -> Prop :=
  | step_lock c ws rs :
      ws i = WStart -> writer_step i (mk c None ws rs) (mk c (Some i) (goto i WLocked ws) rs)
  | step_open c h ws rs :
      ws i = WLocked -> writer_step i (mk c h ws rs) (mk (Some (default [] c)) h (goto i WOpened ws) rs)
  | step_size c h ws rs :
      ws i = WOpened -> writer_step i (mk c h ws rs) (mk c h (goto i (WSized (vlen (default [] c))) ws) rs)
  | step_mismatch c h ws rs n :
      ws i = WSized n -> n <> 0 -> n <> desired i ->
      writer_step i (mk c h ws rs) (mk c None (goto i WExited ws) rs)
  | step_truncate c h ws rs :
      ws i = WSized 0 ->
      writer_step i (mk c h ws rs) (mk (Some (resize (desired i) (default [] c))) h (goto i WResized ws) rs)
  | step_keep c h ws rs n :
      ws i = WSized n -> n <> 0 -> n = desired i -> writer_step i (mk c h ws rs) (mk c h (goto i WResized ws) rs)
  | step_check c h ws rs :
      ws i = WResized -> vlen (default [] c) = desired i ->
      writer_step i (mk c h ws rs) (mk c h (goto i WChecked ws) rs)
  | step_check_fails c h ws rs :
      ws i = WResized -> vlen (default [] c) <> desired i ->
      writer_step i (mk c h ws rs) (mk c None (goto i WExited ws) rs)
  | step_map c h ws rs :
      ws i = WChecked -> writer_step i (mk c h ws rs) (mk c h (goto i (WMapped (vlen (default [] c))) ws) rs)
  | step_unlock c h ws rs n :
      ws i = WMapped n -> writer_step i (mk c h ws rs) (mk c None (goto i (WDone n) ws) rs).

(** The system refuses it: the exception of [open_or_create] is fatal, the others
    escape; either way the lock is given up. *)
Inductive refused_step (i : nat) : t -> t -> Prop :=
  | refused_lock c h ws rs :
      ws i = WStart -> refused_step i (mk c h ws rs) (mk c h (goto i WExited ws) rs)
  | refused_open c h ws rs :
      ws i = WLocked -> refused_step i (mk c h ws rs) (mk c None (goto i WExited ws) rs)
  | refused_truncate c h ws rs :
      ws i = WSized 0 -> refused_step i (mk c h ws rs) (mk c None (goto i WExited ws) rs)
  | refused_map c h ws rs :
      ws i = WChecked -> refused_step i (mk c h ws rs) (mk c None (goto i WExited ws) rs).

Inductive reader_step (i : nat) : t -> t -> Prop :=
  | step_read_open c h ws rs :
      rs i = RStart -> reader_step i (mk (Some c) h ws rs) (mk (Some c) h ws (goto i ROpened rs))
  | step_read_empty c h ws rs :
      rs i = ROpened -> vlen (default [] c) = 0 -> reader_step i (mk c h ws rs) (mk c h ws (goto i RStart rs))
  | step_read_size c h ws rs :
      rs i = ROpened -> vlen (default [] c) <> 0 ->
      reader_step i (mk c h ws rs) (mk c h ws (goto i (RSized (vlen (default [] c))) rs))
  | step_read_map c h ws rs n :
      rs i = RSized n -> reader_step i (mk c h ws rs) (mk c h ws (goto i (RMapped (vlen (default [] c))) rs))
  | step_read_map_refused c h ws rs n :
      rs i = RSized n -> reader_step i (mk c h ws rs) (mk c h ws (goto i RFailed rs)).

Inductive step : t -> t -> Prop :=
  | step_writer i s s' : writer_step i s s' -> step s s'
  | step_refused i s s' : refused_step i s s' -> step s s'
  | step_reader i s s' : reader_step i s s' -> step s s'
  | step_store c h ws rs i n c' :
      ws i = WDone n -> vlen c' = vlen c -> step (mk (Some c) h ws rs) (mk (Some c') h ws rs).

(** What each process knows about the size of the segment. *)
Definition writer_ok (n : Z) (d : Z) (w : writer) : Prop :=
  match w with
  | WSized c => c = n
  | WResized | WChecked => n = d
  | WMapped m | WDone m => m = n /\ n = d
  | _ => True
  end.

Definition reader_ok (n : Z) (r : reader) : Prop :=
  match r with RSized m | RMapped m => m = n /\ n <> 0 | _ => True end.

(** Processes that are not there never move. *)
Record inv (nw : nat) (s : t) : Prop := {
  inv_absent i : (nw <= i)%nat -> writers s i = WExited;
  inv_mutex i : critical (writers s i) -> holder s = Some i;
  inv_holder i : holder s = Some i -> critical (writers s i);
  inv_writers i : writer_ok (size s) (desired i) (writers s i);
  inv_readers i : reader_ok (size s) (readers s i)
}.

Hypothesis desired_pos : forall i, 0 < desired i.
Context {nw : nat}.

Lemma goto_cases {A} (P : nat -> A -> Prop) i p f :
  P i p -> (forall j, j <> i -> P j (f j)) -> forall j, P j (goto i p f j).
Proof. intros Hi Hf j. unfold goto. case_decide as E; [by subst|by apply Hf]. Qed.

(** Only processes that are there and not finished move. *)
Lemma absent_goto i p ws c h rs :
  inv nw (mk c h ws rs) -> ~ finished (ws i) -> forall j, (nw <= j)%nat -> goto i p ws j = WExited.
Proof.
  intros Hi Hf j Hj. unfold goto. case_decide as E; [|by apply Hi]. subst j.
  destruct Hf. pose proof (inv_absent _ _ Hi i Hj) as E. simpl in E. by rewrite E.
Qed.

Lemma critical_unfinished w : critical w -> ~ finished w.
Proof. destruct w; simpl; tauto. Qed.

(** A writer inside the lock moves on without changing the size. *)
Lemma inv_inside c c' i p ws rs h :
  inv nw (mk c h ws rs) -> critical (ws i) -> critical p -> vlen (default [] c') = vlen (default [] c) ->
  writer_ok (vlen (default [] c)) (desired i) p -> inv nw (mk c' h (goto i p ws) rs).
Proof.
  intros Hinv Hi Hp Hc Hok. pose proof (absent_goto i p ws _ _ _ Hinv (critical_unfinished _ Hi)) as Ha.
  destruct Hinv as [_ Hm Hh Hw Hr]. unfold size in *. simpl in *. split; unfold size; simpl; rewrite ?Hc; [done| | | |done].
  - apply (goto_cases (fun j w => critical w -> h = Some j)); [by intros _; apply Hm|auto].
  - apply (goto_cases (fun j w => h = Some j -> critical w)); [done|auto].
  - apply (goto_cases (fun j w => writer_ok _ (desired j) w)); auto.
Qed.

(** A writer leaves the lock. *)
Lemma inv_leave c i p ws rs h :
  inv nw (mk c h ws rs) -> critical (ws i) -> ~ critical p ->
  writer_ok (vlen (default [] c)) (desired i) p -> inv nw (mk c None (goto i p ws) rs).
Proof.
  intros Hinv Hi Hp Hok. pose proof (absent_goto i p ws _ _ _ Hinv (critical_unfinished _ Hi)) as Ha.
  destruct Hinv as [_ Hm Hh Hw Hr]. simpl in *. split; unfold size in *; simpl in *; [done| |done| |done].
  - apply (goto_cases (fun j w => critical w -> None = Some j)); [done|].
    intros j Hj Hc. apply Hm in Hc, Hi. congruence.
  - apply (goto_cases (fun j w => writer_ok _ (desired j) w)); auto.
Qed.

(** Only a writer that found the segment empty changes its size; then nobody has
    mapped it. *)
Lemma inv_truncate c i ws rs h :
  inv nw (mk c h ws rs) -> ws i = WSized 0 ->
  inv nw (mk (Some (resize (desired i) (default [] c))) h (goto i WResized ws) rs).
Proof.
  intros Hinv Hi. pose proof (absent_goto i WResized ws _ _ _ Hinv) as Ha. rewrite Hi in Ha. specialize (Ha (fun f => f)).
  destruct Hinv as [_ Hm Hh Hw Hr]. simpl in *. unfold size in *. simpl in *. pose proof (Hw i) as Hsz. rewrite Hi in Hsz. simpl in Hsz.
  assert (h = Some i) as -> by (apply Hm; by rewrite Hi).
  assert (vlen (resize (desired i) (default [] c)) = desired i) as Hn by (apply length_resize; specialize (desired_pos i); lia).
  split; unfold size; simpl; rewrite ?Hn; [done|..].
  - apply (goto_cases (fun j w => critical w -> Some i = Some j)); [done|auto].
  - apply (goto_cases (fun j w => Some i = Some j -> critical w)); [done|]. intros j Hj [= ->]. done.
  - apply (goto_cases (fun j w => writer_ok (desired i) (desired j) w)); [done|]. intros j Hj.
    pose proof (Hw j) as Hwj. pose proof (Hm j) as Hmj. pose proof (desired_pos j).
    destruct (ws j); simpl in *; try done; first [specialize (Hmj I); congruence | lia].
  - intros j. specialize (Hr j). destruct (rs j); simpl in *; done || lia.
Qed.

(** A reader moves. *)
Lemma inv_reader c i r ws rs h :
  inv nw (mk c h ws rs) -> reader_ok (vlen (default [] c)) r -> inv nw (mk c h ws (goto i r rs)).
Proof.
  intros [Ha Hm Hh Hw Hr] Hok. split; [done..|]. apply (goto_cases (fun _ => reader_ok _)); [done|auto].
Qed.

(** A writer that was not let into the lock. *)
Lemma inv_not_started c i ws rs h : inv nw (mk c h ws rs) -> ws i = WStart -> inv nw (mk c h (goto i WExited ws) rs).
Proof.
  intros Hinv Hi. pose proof (absent_goto i WExited ws _ _ _ Hinv) as Ha. rewrite Hi in Ha. specialize (Ha (fun f => f)).
  destruct Hinv as [_ Hm Hh Hw Hr]. simpl in *. split; unfold size in *; simpl in *; [done| | | |done].
  - apply (goto_cases (fun j w => critical w -> h = Some j)); [done|auto].
  - apply (goto_cases (fun j w => h = Some j -> critical w)); [|auto]. intros Hj. apply Hh in Hj. by rewrite Hi in Hj.
  - apply (goto_cases (fun j w => writer_ok _ (desired j) w)); [done|auto].
Qed.

Lemma inv_locked c i ws rs : inv nw (mk c None ws rs) -> ws i = WStart -> inv nw (mk c (Some i) (goto i WLocked ws) rs).
Proof.
  intros Hinv Hi. pose proof (absent_goto i WLocked ws _ _ _ Hinv) as Ha. rewrite Hi in Ha. specialize (Ha (fun f => f)).
  destruct Hinv as [_ Hm Hh Hw Hr]. simpl in *. split; unfold size in *; simpl in *; [done| | | |done].
  - apply (goto_cases (fun j w => critical w -> Some i = Some j)); [done|]. intros j _ Hc. by apply Hm in Hc.
  - apply (goto_cases (fun j w => Some i = Some j -> critical w)); [done|]. by intros j Hj [= ->].
  - apply (goto_cases (fun j w => writer_ok _ (desired j) w)); [done|auto].
Qed.

Lemma writer_step_inv i s s' : inv nw s -> writer_step i s s' -> inv nw s'.
Proof.
  intros Hi Hs. pose proof (inv_writers _ _ Hi i) as Hw.
  destruct Hs as [c ws rs Hp|c h ws rs Hp|c h ws rs Hp|c h ws rs n Hp Hn Hd|c h ws rs Hp|c h ws rs n Hp Hn Hd
    |c h ws rs Hp Hd|c h ws rs Hp Hd|c h ws rs Hp|c h ws rs n Hp];
    unfold size in *; simpl in *; rewrite Hp in Hw; simpl in Hw.
  - by apply inv_locked.
  - by eapply inv_inside; [done|rewrite Hp| | |].
  - by eapply inv_inside; [done|rewrite Hp| | |].
  - eapply inv_leave; [done|by rewrite Hp|by intros []|done].
  - by apply inv_truncate.
  - eapply inv_inside; [done|by rewrite Hp|done|done|]. simpl. congruence.
  - by eapply inv_inside; [done|rewrite Hp| | |].
  - eapply inv_leave; [done|by rewrite Hp|by intros []|done].
  - eapply inv_inside; [done|by rewrite Hp|done|done|by split].
  - eapply inv_leave; [done|by rewrite Hp|by intros []|done].
Qed.

Lemma refused_step_inv i s s' : inv nw s -> refused_step i s s' -> inv nw s'.
Proof.
  intros Hi Hs. destruct Hs as [c h ws rs Hp|c h ws rs Hp|c h ws rs Hp|c h ws rs Hp];
    [by apply inv_not_started|..]; (eapply inv_leave; [done|by rewrite Hp|by intros []|done]).
Qed.

Lemma open_step_inv s s' : inv nw s -> step s s' -> inv nw s'.
Proof.
  intros Hi Hst. destruct Hst as [i s1 s2 Hs|i s1 s2 Hs|i s1 s2 Hs|c h ws rs i n c' Hp Hlen].
  - by eapply writer_step_inv.
  - by eapply refused_step_inv.
  - pose proof (inv_readers _ _ Hi i) as Hr. unfold size in Hr.
    destruct Hs as [c h ws rs Hp|c h ws rs Hp H0|c h ws rs Hp H0|c h ws rs n Hp|c h ws rs n Hp]; simpl in *;
      (apply inv_reader; [done|]); try done. rewrite Hp in Hr. simpl in *. by split; [|destruct Hr as [<- ?]].
  - destruct Hi as [Ha Hm Hh Hw' Hr']. split; [done..| |]; unfold size in *; simpl in *; by rewrite Hlen.
Qed.

Lemma open_init_inv nr c : inv nw (init nw nr c).
Proof.
  split; simpl; intros i; try (case_decide; done). intros Hi. rewrite decide_False by lia. done.
Qed.

(** *** Progress *)

(** A writer inside the lock can go on; one outside waits for it at most. *)
Lemma writer_progress s i :
  inv nw s -> ~ finished (writers s i) ->
  exists j s', (j = i \/ holder s = Some j) /\ writer_step j s s'.
Proof.
  intros Hi Hf. destruct s as [c h ws rs]. simpl in *.
  assert (exists j, (j = i \/ h = Some j) /\ match h with Some _ => critical (ws j) | None => ws j = WStart end)
    as (j & Hj & Hc).
  { destruct h as [k|]; [exists k; split; [by right|by apply (inv_holder _ _ Hi)]|]. exists i. split; [by left|].
    pose proof (inv_mutex _ _ Hi i) as Hm. simpl in Hm. destruct (ws i); simpl in *; try done; by specialize (Hm I). }
  exists j. destruct h as [k|]; [|eexists; split; [done|by apply step_lock]].
  destruct (ws j) as [| | |n| | |n|n|] eqn:E; simpl in Hc; try done; try (eexists; split; [done|by econstructor]).
  - destruct (decide (n = 0)) as [->|Hn]; [eexists; split; [done|by apply step_truncate]|].
    destruct (decide (n = desired j)); eexists; (split; [done|]); [by eapply step_keep|by eapply step_mismatch].
  - destruct (decide (vlen (default [] c) = desired j)); eexists; (split; [done|]);
      [by eapply step_check|by eapply step_check_fails].
Qed.

(** A reader never waits for anybody once the segment exists. *)
Lemma reader_progress s i :
  is_Some (segment s) -> ~ read_finished (readers s i) -> exists s', reader_step i s s'.
Proof.
  destruct s as [c h ws rs]. simpl. intros [b ->] Hf. destruct (rs i) eqn:E; simpl in Hf; try done.
  - eexists. by apply step_read_open.
  - destruct (decide (vlen (default [] (Some b)) = 0)); eexists; [by apply step_read_empty|by apply step_read_size].
  - eexists. by eapply step_read_map.
Qed.

(** The system calls a writer has still to do. *)
Definition remaining (w : writer) : nat :=
  match w with
  | WStart => 7 | WLocked => 6 | WOpened => 5 | WSized _ => 4 | WResized => 3 | WChecked => 2 | WMapped _ => 1
  | WDone _ | WExited => 0
  end.

Definition left_of (n : nat) (ws : nat -> writer) : nat := sum_list_with (fun i => remaining (ws i)) (seq 0 n).

Lemma left_goto n i p ws :
  (i < n)%nat -> (remaining p < remaining (ws i))%nat -> (left_of n (goto i p ws) < left_of n ws)%nat.
Proof.
  unfold left_of. intros Hi Hp.
  assert (forall l, (i ∉ l -> sum_list_with (fun j => remaining (goto i p ws j)) l = sum_list_with (fun j => remaining (ws j)) l) /\
    (i ∈ l -> NoDup l -> (sum_list_with (fun j => remaining (goto i p ws j)) l < sum_list_with (fun j => remaining (ws j)) l)%nat)) as H.
  { induction l as [|j l [IH1 IH2]]; simpl; [split; [done|by intros ?%elem_of_nil]|]. unfold goto at 1 3. split.
    - intros [Hj Hl]%not_elem_of_cons. rewrite decide_False by done. by rewrite IH1.
    - intros Hin [Hj Hl]%NoDup_cons. apply elem_of_cons in Hin. case_decide as E.
      + subst j. rewrite IH1 by done. lia.
      + destruct Hin as [?|Hin]; [done|]. specialize (IH2 Hin Hl). lia. }
  apply H; [|apply NoDup_seq]. apply elem_of_seq. lia.
Qed.

Lemma writer_present s i : inv nw s -> ~ finished (writers s i) -> (i < nw)%nat.
Proof.
  intros Hi Hf. destruct (decide (i < nw)%nat); [done|]. destruct Hf. by rewrite (inv_absent _ _ Hi i) by lia.
Qed.

Lemma writer_step_left i s s' :
  inv nw s -> writer_step i s s' \/ refused_step i s s' -> (left_of nw (writers s') < left_of nw (writers s))%nat.
Proof.
  intros Hi Hs.
  assert ((i < nw)%nat) as Hn.
  { apply (writer_present s); [done|]. destruct Hs as [[]|[]]; simpl; intros Hf;
      match goal with H : _ i = _ |- _ => by rewrite H in Hf end. }
  destruct Hs as [[]|[]]; simpl; apply left_goto; try done;
    match goal with H : _ i = _ |- _ => rewrite H; simpl; lia end.
Qed.

(** A run with the number of writers' system calls in it. *)
Inductive run : nat -> t -> t -> Prop :=
  | run_nil s : run 0 s s
  | run_writer n i s s1 s2 : writer_step i s s1 \/ refused_step i s s1 -> run n s1 s2 -> run (S n) s s2
  | run_reader n i s s1 s2 : reader_step i s s1 -> run n s1 s2 -> run n s s2
  | run_store n c h ws rs i m c' s2 :
      ws i = WDone m -> vlen c' = vlen c -> run n (mk (Some c') h ws rs) s2 -> run n (mk (Some c) h ws rs) s2.

Lemma run_left n s s' : inv nw s -> run n s s' -> (n + left_of nw (writers s') <= left_of nw (writers s))%nat.
Proof.
  intros Hi Hr. revert Hi. induction Hr as [s|n i s s1 s2 Hs _ IH|n i s s1 s2 Hs _ IH|n c h ws rs i m c' s2 Hw Hl _ IH];
    intros Hi; [simpl; lia|..].
  - pose proof (writer_step_left _ _ _ Hi Hs). cut (inv nw s1); [intros Hi1; specialize (IH Hi1); lia|].
    destruct Hs; [by eapply writer_step_inv|by eapply refused_step_inv].
  - assert (writers s1 = writers s) as <- by by destruct Hs. apply IH. eapply open_step_inv; [done|by eapply step_reader].
  - apply IH. eapply open_step_inv; [done|by eapply step_store].
Qed.

Lemma left_bound ws n : (left_of n ws <= 7 * n)%nat.
Proof.
  unfold left_of. cut (forall l, (sum_list_with (fun i => remaining (ws i)) l <= 7 * length l)%nat).
  { intros H. specialize (H (seq 0 n)). by rewrite length_seq in H. }
  induction l as [|i l IH]; simpl in *; [lia|].
  assert (remaining (ws i) <= 7)%nat by (destruct (ws i); simpl; lia). lia.
Qed.

(** C23: when writers with their own sizes and readers open the same segment in any
    interleaving, and whatever the system refuses them, every writer that gets through
    has mapped exactly the bytes it asked for, all of them have asked for the same
    size, every reader's mapping is of that size too, and the segment never grows or
    shrinks under a mapping.  No opener keeps another out for ever: a writer that is
    not finished can do its next call, or the one that has the lock can; a reader
    waits for nobody once the segment exists; and the writers do at most seven calls
    each, however readers and stores come in between. *)
Theorem concurrent_open_agrees (nr : nat) (c : option bytes) (s : t) :
  rtc step (init nw nr c) s ->
  (forall i n, writers s i = WDone n -> n = desired i /\ n = size s) /\
  (forall i n, readers s i = RMapped n -> n = size s /\ n <> 0) /\
  (forall i j m n, writers s i = WDone m -> writers s j = WDone n -> desired i = desired j) /\
  (forall i, ~ finished (writers s i) -> exists j s', (j = i \/ holder s = Some j) /\ writer_step j s s') /\
  (forall i, is_Some (segment s) -> ~ read_finished (readers s i) -> exists s', reader_step i s s') /\
  (forall n s', run n s s' -> (n <= 7 * nw)%nat).
Proof.
  intros Hs. assert (inv nw s) as Hi by (eapply invariant_rtc; [apply open_step_inv|apply open_init_inv|done]).
  assert (forall i n, writers s i = WDone n -> n = desired i /\ n = size s) as Hw.
  { intros i n E. pose proof (inv_writers _ _ Hi i) as Hw. rewrite E in Hw. simpl in Hw. lia. }
  split_and!; [done| | | | |].
  - intros i n E. pose proof (inv_readers _ _ Hi i) as Hr. rewrite E in Hr. simpl in Hr. lia.
  - intros i j m n [H1 H2]%Hw [H3 H4]%Hw. congruence.
  - intros i. by apply writer_progress.
  - intros i. apply reader_progress.
  - intros n s' Hr. pose proof (run_left _ _ _ Hi Hr). pose proof (left_bound (writers s) nw). lia.
Qed.

End processes.

(** Two writers and a reader; the first writer asks for 4 bytes and opens the segment. *)
Definition lone_writer : nat -> writer :=
  goto 0 (WDone 4) (goto 0 (WMapped 4) (goto 0 WChecked (goto 0 WResized (goto 0 (WSized 0)
    (goto 0 WOpened (goto 0 WLocked (writers (init 2 1 None)))))))).

Definition lone_state : t := mk (Some (resize 4 [])) None lone_writer (readers (init 2 1 None)).

Lemma lone_reaches : rtc (step (fun _ => 4)) (init 2 1 None) lone_state.
Proof.
  eapply rtc_l; [by eapply (step_writer _ 0), step_lock|]. eapply rtc_l; [by eapply (step_writer _ 0), step_open|].
  eapply rtc_l; [by eapply (step_writer _ 0), step_size|]. eapply rtc_l; [by eapply (step_writer _ 0), step_truncate|].
  eapply rtc_l; [by eapply (step_writer _ 0), step_check|]. eapply rtc_l; [by eapply (step_writer _ 0), step_map|].
  eapply rtc_l; [by eapply (step_writer _ 0), (step_unlock _ _ _ _ _ _ 4)|]. apply rtc_refl.
Qed.

Lemma concurrent_open_agrees_witness :
  (forall i n, writers lone_state i = WDone n -> n = 4 /\ n = size lone_state) /\
  (forall i n, readers lone_state i = RMapped n -> n = size lone_state /\ n <> 0) /\
  (forall i j m n, writers lone_state i = WDone m -> writers lone_state j = WDone n -> 4 = 4) /\
  (forall i, ~ finished (writers lone_state i) ->
     exists j s', (j = i \/ holder lone_state = Some j) /\ writer_step (fun _ => 4) j lone_state s') /\
  (forall i, is_Some (segment lone_state) -> ~ read_finished (readers lone_state i) ->
     exists s', reader_step i lone_state s') /\
  (forall n s', run (fun _ => 4) n lone_state s' -> (n <= 7 * 2)%nat).
Proof.
  apply (concurrent_open_agrees (fun _ => 4) (fun _ => eq_refl) 1 None lone_state). exact lone_reaches.
Defined.

End SharedMemoryOpen.
