(* ===== verification/IpcMessageQueue.v ===== *)
(** * The registry of shared memories
    (lockfree/ipc_message_queue/ipc_message_queue.h: IpcMessageQueue::SharedMemory)

    Each thread has a map of its own in front of a central map guarded by a mutex.
    The critical section touches nothing but the two maps, so a call is one step.
    A [shared_ptr] is the number of the object it owns; [objects] is the heap of
    [RingBufferSharedMemory] objects, each with the key it was made with.  Its
    constructor checks the key, which ends a release build ([None]); the size, which
    the call leaves out, is taken to be positive.  The message queue's [Read] and [Write] are declared but have no body. *)

From S2P Require Import Prelude SharedMemory.

Module IpcMessageQueue.

(** [SharedMemoryNodeInfo], [SharedMemoryMessageQueue] and [ObjectPool]: the layouts
    placed in shared memory. *)
Definition QUEUE_CAPACITY : Z := 2048.
Definition OBJECT_POOL_CAPACITY : Z := 2048.

Record t := mk {
  central_shared_memory_map_ : gmap bytes nat;
  local_shared_memory_map : nat -> gmap bytes nat;
  objects : list bytes
}.

Definition init : t := mk ∅ (fun _ => ∅) [].

Definition set_local (i : nat) (key : bytes) (p : nat) (f : nat -> gmap bytes nat) : nat -> gmap bytes nat :=
  fun j => if decide (j = i) then <[key := p]> (f i) else f j.

(** [RingBufferSharedMemory(key, size)]: [CHECK(!shared_memory_key_.empty())]; in a debug
    build the object is made all the same. *)
Definition construct (NDEBUG : bool) (key : bytes) : option bytes :=
  if NDEBUG && bool_decide (key = []) then None else Some key.

(** The call of thread [i]. *)
Definition SharedMemory (NDEBUG : bool) (i : nat) (key : bytes) (s : t) : option (nat * t) :=
  match local_shared_memory_map s i !! key with
  | Some p => Some (p, s)
  | None =>
      match central_shared_memory_map_ s !! key with
      | Some p => Some (p, mk (central_shared_memory_map_ s) (set_local i key p (local_shared_memory_map s)) (objects s))
      | None =>
          o ← construct NDEBUG key;
          let p := length (objects s) in
          Some (p, mk (<[key := p]> (central_shared_memory_map_ s)) (set_local i key p (local_shared_memory_map s))
                      (objects s ++ [o]))
      end
  end.

Fixpoint run (NDEBUG : bool) (calls : list (nat * bytes)) (s : t) : option (list nat * t) :=
  match calls with
  | [] => Some ([], s)
  | (i, key) :: calls' => '(p, s1) ← SharedMemory NDEBUG i key s; '(ps, s2) ← run NDEBUG calls' s1; Some (p :: ps, s2)
  end.

(** Local maps are parts of the central map, which has one object per key. *)
Record inv (s : t) : Prop := {
  inv_local i key p : local_shared_memory_map s i !! key = Some p -> central_shared_memory_map_ s !! key = Some p;
  inv_central key p : central_shared_memory_map_ s !! key = Some p -> objects s !! p = Some key;
  inv_objects p key : objects s !! p = Some key -> central_shared_memory_map_ s !! key = Some p
}.

Lemma set_local_lookup i key p f j k q :
  set_local i key p f j !! k = Some q -> (k = key /\ q = p) \/ f j !! k = Some q.
Proof.
  unfold set_local. case_decide as E; [subst j|by auto]. intros [[-> ->]|[_ ?]]%lookup_insert_Some; auto.
Qed.

(** A call keeps the invariant, returns the object of the key, and moves nothing that
    was registered. *)
Lemma SharedMemory_ok NDEBUG i key s p s' :
  inv s -> SharedMemory NDEBUG i key s = Some (p, s') ->
  inv s' /\ central_shared_memory_map_ s' !! key = Some p /\
  central_shared_memory_map_ s ⊆ central_shared_memory_map_ s' /\
  dom (central_shared_memory_map_ s') = {[key]} ∪ dom (central_shared_memory_map_ s).
Proof.
  intros [Hl Hc Ho] E. unfold SharedMemory in E.
  destruct (local_shared_memory_map s i !! key) as [q|] eqn:El.
  { injection E as <- <-. pose proof (Hl _ _ _ El) as Hq. split_and!; [by split|done|done|].
    apply elem_of_dom_2 in Hq. set_solver. }
  destruct (central_shared_memory_map_ s !! key) as [q|] eqn:Ec; [injection E as <- <-|].
  - split_and!; simpl; [|done|done|apply elem_of_dom_2 in Ec; set_solver]. split; simpl; [|done|done].
    intros j k q' [[-> ->]|?]%set_local_lookup; eauto.
  - unfold construct in E. destruct (NDEBUG && _); [done|]. injection E as <- <-.
    split_and!; simpl; [|by rewrite lookup_insert_eq|by apply insert_subseteq|apply dom_insert_L]. split; simpl.
    + intros j k q' [[-> ->]|Hj]%set_local_lookup; [by rewrite lookup_insert_eq|].
      apply Hl in Hj. rewrite lookup_insert_ne; [done|]. congruence.
    + intros k q' [[<- <-]|[Hne Hk]]%lookup_insert_Some.
      * by rewrite lookup_app_r, Nat.sub_diag.
      * apply Hc in Hk. rewrite lookup_app_l; [done|]. by eapply lookup_lt_Some.
    + intros q' k [Hq|[Hge Hq]]%lookup_app_Some.
      * apply Ho in Hq. rewrite lookup_insert_ne; [done|]. congruence.
      * destruct (q' - length (objects s))%nat eqn:Eq; [|done]. injection Hq as <-.
        assert (q' = length (objects s)) as -> by lia. apply lookup_insert_eq.
Qed.

Lemma registry_run_ok NDEBUG calls : forall s ps s',
  inv s -> run NDEBUG calls s = Some (ps, s') ->
  inv s' /\ central_shared_memory_map_ s ⊆ central_shared_memory_map_ s' /\
  Forall2 (fun c p => central_shared_memory_map_ s' !! snd c = Some p) calls ps /\
  dom (central_shared_memory_map_ s') = list_to_set (snd <$> calls) ∪ dom (central_shared_memory_map_ s).
Proof.
  induction calls as [|[i key] calls IH]; intros s ps s' Hi; simpl.
  { intros [= <- <-]. split_and!; [done|done|constructor|set_solver]. }
  destruct (SharedMemory NDEBUG i key s) as [[p s1]|] eqn:E1; [|done]. simpl.
  destruct (run NDEBUG calls s1) as [[ps' s2]|] eqn:E2; [|done]. intros [= <- <-].
  destruct (SharedMemory_ok _ _ _ _ _ _ Hi E1) as (Hi1 & Hk & Hsub & Hd).
  destruct (IH _ _ _ Hi1 E2) as (Hi2 & Hsub2 & Hf & Hd2). split_and!; [done|by etrans| |].
  - constructor; [|done]. simpl. by eapply lookup_weaken.
  - rewrite Hd2, Hd. set_solver.
Qed.

(** Only an empty key ends the process. *)
Lemma registry_run_exits NDEBUG calls : forall s,
  run NDEBUG calls s = None -> NDEBUG = true /\ exists i, (i, []) ∈ calls.
Proof.
  induction calls as [|[i key] calls IH]; intros s; simpl; [done|].
  destruct (SharedMemory NDEBUG i key s) as [[p s1]|] eqn:E1; simpl.
  - destruct (run NDEBUG calls s1) as [[ps' s2]|] eqn:E2; [done|]. intros _.
    destruct (IH _ E2) as [? [j ?]]. split; [done|]. exists j. set_solver.
  - intros _. unfold SharedMemory in E1. destruct (_ !! key); [done|]. destruct (_ !! key); [done|].
    unfold construct in E1. destruct NDEBUG, (bool_decide_reflect (key = [])) as [-> |]; try done.
    split; [done|]. exists i. set_solver.
Qed.

Lemma registry_init_inv : inv init.
Proof. split; simpl; intros *; by rewrite ?lookup_empty. Qed.

(** C29: whatever threads ask for whatever keys in whatever order, every call returns
    (or, in a release build, an empty key ends the process), two calls return the same
    object exactly when they name the same key, and exactly one object is made per key
    asked for. *)
Theorem registry_one_object_per_key (NDEBUG : bool) (calls : list (nat * bytes)) :
  match run NDEBUG calls init with
  | Some (ps, s) =>
      (forall a b i j k l p q, calls !! a = Some (i, k) -> ps !! a = Some p -> calls !! b = Some (j, l) -> ps !! b = Some q ->
         p = q <-> k = l) /\
      length ps = length calls /\
      NoDup (objects s) /\ list_to_set (objects s) =@{gset bytes} list_to_set (snd <$> calls)
  | None => NDEBUG = true /\ exists i, (i, []) ∈ calls
  end.
Proof.
  destruct (run NDEBUG calls init) as [[ps s]|] eqn:E; [|by eapply registry_run_exits]. revert E.
  intros E. destruct (registry_run_ok _ _ _ _ _ registry_init_inv E) as ([_ Hc Ho] & _ & Hf & Hd).
  assert (forall a i k p, calls !! a = Some (i, k) -> ps !! a = Some p -> central_shared_memory_map_ s !! k = Some p) as Hat.
  { intros a i k p H1 H2. exact (Forall2_lookup_lr _ _ _ _ _ _ Hf H1 H2). }
  split_and!.
  - intros a b i j k l p q H1 H2 H3 H4. pose proof (Hat _ _ _ _ H1 H2) as Hp. pose proof (Hat _ _ _ _ H3 H4) as Hq.
    split; [|congruence]. intros ->. apply Hc in Hp, Hq. congruence.
  - symmetry. by eapply Forall2_length.
  - apply NoDup_alt. intros p q k Hp Hq. apply Ho in Hp, Hq. congruence.
  - simpl in Hd. rewrite dom_empty_L, union_empty_r_L in Hd. rewrite <- Hd. apply set_eq. intros k.
    rewrite elem_of_list_to_set, elem_of_dom, list_elem_of_lookup. unfold is_Some.
    split; intros [p Hp]; exists p; auto.
Qed.

Definition sample_calls : list (nat * bytes) :=
  [(0%nat, lit "a"); (1%nat, lit "a"); (1%nat, lit "b"); (0%nat, lit "b"); (0%nat, lit "a")].

Example registry_sample : fst <$> run true sample_calls init = Some [0; 0; 1; 1; 0]%nat.
Proof. vm_compute. reflexivity. Qed.

End IpcMessageQueue.
