(* ===== verification/TcpServer.v ===== *)
(** * Broadcast server (tcp/tcp_server/tcp_server.h, tcp/tcp_server/tcp_server.cc)

    [TcpServer] relays what it reads from a client to all the others.  The kernel
    side keeps, per connection, the bytes not yet read, whether the peer has closed,
    and whether an edge is pending: connections are registered edge-triggered, so an
    arrival is reported once.  [None] is [exit(EXIT_FAILURE)].  [Send] and [Receive]
    are declared in the header and have no body. *)

From S2P Require Import Prelude Decimal.

Module TcpServer.

Definition kReadBufferSize : Z := 1024.
Definition kMaxEpollEvents : Z := 10.
Definition O_NONBLOCK : Z := 2048.

Record t := mk {
  delim_ : bytes;
  port_ : Z;
  listen_sockfd_ : Z;
  epoll_fd_ : Z;
  is_stop_ : bool;
  sock_fd_to_client_addr_ : gmap Z bytes
}.

Definition make (delim : bytes) : t := mk delim (-1) (-1) (-1) false ∅.

(** ** Start *)

(** The answers of the system calls of [Start], in order. *)
Record start_answers := mkStart {
  socket_ret : Z; bind_ret : Z; listen_ret : Z; getfl_ret : Z; setfl_ret : Z; epoll_create_ret : Z; epoll_add_ret : Z
}.

Definition ListenOn (a : start_answers) (s : t) : option t :=
  let s := mk (delim_ s) (port_ s) (socket_ret a) (epoll_fd_ s) (is_stop_ s) (sock_fd_to_client_addr_ s) in
  if socket_ret a =? -1 then None
  else if bind_ret a =? -1 then None
  else if listen_ret a =? -1 then None else Some s.

(** The flags handed to [F_SETFL]. *)
Definition SetNonBlocking (getfl setfl : Z) : option Z :=
  if getfl =? -1 then None
  else let flags := Z.lor getfl O_NONBLOCK in if setfl =? -1 then None else Some flags.

Definition CreateEpoll (ret : Z) (s : t) : option t :=
  let s := mk (delim_ s) (port_ s) (listen_sockfd_ s) ret (is_stop_ s) (sock_fd_to_client_addr_ s) in
  if ret =? -1 then None else Some s.

Definition AddListenSocketToEpoll (ret : Z) : option unit := if ret =? -1 then None else Some ().

Definition Start (a : start_answers) (port : Z) (s : t) : option t :=
  s ← ListenOn a (mk (delim_ s) port (listen_sockfd_ s) (epoll_fd_ s) (is_stop_ s) (sock_fd_to_client_addr_ s));
  _ ← SetNonBlocking (getfl_ret a) (setfl_ret a);
  s ← CreateEpoll (epoll_create_ret a) s;
  _ ← AddListenSocketToEpoll (epoll_add_ret a);
  Some s.

(** [Stop] sets the flag; the loop sees it after the current batch. *)
Definition Stop (s : t) : t :=
  mk (delim_ s) (port_ s) (listen_sockfd_ s) (epoll_fd_ s) true (sock_fd_to_client_addr_ s).

(** ** The event loop *)

(** [log], [since] and [received] are history: the chunks read, the length of [log]
    when a connection was accepted, and all it has received. *)
Record world := mkWorld {
  server : t;
  batch : list Z;                 (* what is left of [epoll_events_] *)
  backlog : nat;                  (* connections waiting to be accepted *)
  inbox : gmap Z bytes;
  closed : gset Z;
  edges : gset Z;
  sent : gmap Z bytes;
  log : list (Z * bytes);
  since : gmap Z nat;
  received : gmap Z bytes
}.

Definition set_clients (m : gmap Z bytes) (s : t) : t :=
  mk (delim_ s) (port_ s) (listen_sockfd_ s) (epoll_fd_ s) (is_stop_ s) m.

Record accept_answers := mkAccept {
  conn_fd : Z; cli_ip : bytes; cli_port : Z; acc_getfl : Z; acc_setfl : Z; acc_epoll : Z
}.

Definition accept_event_handler (a : accept_answers) (w : world) : option world :=
  if conn_fd a =? -1 then None
  else
    let cli_address := cli_ip a ++ lit ":" ++ Decimal.to_string (cli_port a) in
    let s := set_clients (<[conn_fd a := cli_address]> (sock_fd_to_client_addr_ (server w))) (server w) in
    _ ← SetNonBlocking (acc_getfl a) (acc_setfl a);
    if acc_epoll a =? -1 then None
    else Some (mkWorld s (batch w) (pred (backlog w)) (<[conn_fd a := []]> (inbox w)) (closed w) (edges w)
                 (<[conn_fd a := []]> (sent w)) (log w) (<[conn_fd a := length (log w)]> (since w))
                 (<[conn_fd a := []]> (received w))).

(** Bytes taken by the socket [fd]. *)
Definition put (fd : Z) (taken : bytes) (m : gmap Z bytes) : gmap Z bytes :=
  <[fd := default [] (m !! fd) ++ taken]> m.

(** The forwarding loop; the count [write] returns is not looked at, only the error. *)
Fixpoint forward (write_ret : Z -> Z -> Z) (sock_fd : Z) (chunk : bytes) (fds : list Z) (m : gmap Z bytes)
  : option (gmap Z bytes) :=
  match fds with
  | [] => Some m
  | fd :: fds' =>
      if decide (fd <> sock_fd) then
        let n := write_ret fd (vlen chunk) in
        if n =? -1 then None
        else forward write_ret sock_fd chunk fds' (put fd (take (Z.to_nat n) chunk) m)
      else forward write_ret sock_fd chunk fds' m
  end.

Definition client_fds (s : t) : list Z := fst <$> map_to_list (sock_fd_to_client_addr_ s).

(** [read_fails] is an error other than EAGAIN. *)
Definition client_msg_handler (read_fails : bool) (write_ret : Z -> Z -> Z) (fd : Z) (w : world) : option world :=
  if read_fails then None
  else match default [] (inbox w !! fd) with
  | [] =>
      if decide (fd ∈ closed w) then
        Some (mkWorld (set_clients (delete fd (sock_fd_to_client_addr_ (server w))) (server w)) (batch w) (backlog w)
                (delete fd (inbox w)) (closed w ∖ {[fd]}) (edges w ∖ {[fd]}) (delete fd (sent w)) (log w)
                (delete fd (since w)) (delete fd (received w)))
      else Some w
  | pending =>
      let chunk := take (Z.to_nat kReadBufferSize) pending in
      m ← forward write_ret fd chunk (client_fds (server w)) (sent w);
      Some (mkWorld (server w) (batch w) (backlog w) (<[fd := drop (Z.to_nat kReadBufferSize) pending]> (inbox w))
              (closed w) (edges w) m (log w ++ [(fd, chunk)]) (since w) (received w))
  end.

(** One round of the [for] loop of [HandleEpollEvent]. *)
Definition handle_next (a : accept_answers) (read_fails : bool) (write_ret : Z -> Z -> Z) (w : world) : option world :=
  match batch w with
  | [] => None
  | fd :: rest =>
      let w := mkWorld (server w) rest (backlog w) (inbox w) (closed w) (edges w) (sent w) (log w) (since w) (received w) in
      if decide (fd = listen_sockfd_ (server w)) then accept_event_handler a w
      else client_msg_handler read_fails write_ret fd w
  end.

(** [epoll_wait]: at most ten of the descriptors that are ready; reporting an edge
    consumes it. *)
Definition ready (w : world) (fd : Z) : Prop :=
  fd ∈ edges w \/ fd = listen_sockfd_ (server w) /\ (0 < backlog w)%nat.

Definition epoll_wait (fds : list Z) (w : world) : world :=
  mkWorld (server w) fds (backlog w) (inbox w) (closed w) (edges w ∖ list_to_set fds) (sent w) (log w) (since w) (received w).

(** With [full] every [write] takes the whole chunk. *)
Inductive step (full : bool) : world -> world -> Prop :=
  | step_wait w fds :
      is_stop_ (server w) = false -> batch w = [] -> NoDup fds -> Forall (ready w) fds -> vlen fds <= kMaxEpollEvents ->
      step full w (epoll_wait fds w)
  | step_handle w a rf wr w' :
      (forall fd rest, batch w = fd :: rest -> fd = listen_sockfd_ (server w) ->
         conn_fd a ∉ dom (inbox w) /\ conn_fd a <> listen_sockfd_ (server w)) ->
      (full = true -> forall fd n, wr fd n = -1 \/ wr fd n = n) ->
      handle_next a rf wr w = Some w' -> step full w w'
  | step_stop w :
      step full w (mkWorld (Stop (server w)) (batch w) (backlog w) (inbox w) (closed w) (edges w) (sent w) (log w)
                     (since w) (received w))
  | step_connect w :
      step full w (mkWorld (server w) (batch w) (S (backlog w)) (inbox w) (closed w) (edges w) (sent w) (log w)
                     (since w) (received w))
  | step_arrive w fd bs :
      fd ∈ dom (inbox w) -> fd ∉ closed w ->
      step full w (mkWorld (server w) (batch w) (backlog w) (put fd bs (inbox w)) (closed w) ({[fd]} ∪ edges w) (sent w)
                     (log w) (since w) (put fd bs (received w)))
  | step_peer_closes w fd :
      fd ∈ dom (inbox w) ->
      step full w (mkWorld (server w) (batch w) (backlog w) (inbox w) ({[fd]} ∪ closed w) ({[fd]} ∪ edges w) (sent w)
                     (log w) (since w) (received w)).

Definition started (s : t) : world := mkWorld s [] 0 ∅ ∅ ∅ ∅ [] ∅ ∅.

(** The chunks read from [fd], and from the others, in a stretch of the log. *)
Definition own (fd : Z) (l : list (Z * bytes)) : bytes := mjoin (snd <$> base.filter (fun e => fst e = fd) l).
Definition others (fd : Z) (l : list (Z * bytes)) : bytes := mjoin (snd <$> base.filter (fun e => fst e <> fd) l).


(** ** Invariant *)

Record inv (full : bool) (w : world) : Prop := {
  inv_clients : dom (sock_fd_to_client_addr_ (server w)) = dom (inbox w);
  inv_sent : dom (sent w) = dom (inbox w);
  inv_since : dom (since w) = dom (inbox w);
  inv_received : dom (received w) = dom (inbox w);
  inv_listen : listen_sockfd_ (server w) ∉ dom (inbox w);
  inv_edges : edges w ⊆ dom (inbox w);
  inv_closed : closed w ⊆ dom (inbox w);
  inv_batch : NoDup (batch w) /\ forall fd, fd ∈ batch w -> fd = listen_sockfd_ (server w) \/ fd ∈ dom (inbox w);
  inv_history fd n : since w !! fd = Some n ->
    (n <= length (log w))%nat /\
    (full = true -> sent w !! fd = Some (others fd (drop n (log w)))) /\
    (exists b, inbox w !! fd = Some b /\ received w !! fd = Some (own fd (drop n (log w)) ++ b))
}.

Lemma drop_log n l (e : Z * bytes) : (n <= length l)%nat -> drop n (l ++ [e]) = drop n l ++ [e].
Proof. intros Hn. rewrite drop_app_le by done. done. Qed.

Lemma own_app fd l e : own fd (l ++ [e]) = own fd l ++ (if decide (fst e = fd) then snd e else []).
Proof.
  unfold own. rewrite filter_app, fmap_app, join_app. f_equal. rewrite filter_cons, filter_nil.
  case_decide; simpl; by rewrite ?app_nil_r.
Qed.

Lemma others_app fd l e : others fd (l ++ [e]) = others fd l ++ (if decide (fst e = fd) then [] else snd e).
Proof.
  unfold others. rewrite filter_app, fmap_app, join_app. f_equal. rewrite filter_cons, filter_nil.
  destruct (decide (fst e = fd)); [rewrite decide_False by auto|rewrite decide_True by done]; simpl; by rewrite ?app_nil_r.
Qed.

Lemma put_lookup fd bs m fd' b :
  m !! fd' = Some b -> put fd bs m !! fd' = Some (if decide (fd' = fd) then b ++ bs else b).
Proof.
  intros Hm. unfold put. case_decide as E; [subst|by rewrite lookup_insert_ne].
  by rewrite lookup_insert_eq, Hm.
Qed.

Lemma dom_put fd bs m : fd ∈ dom m -> dom (put fd bs m) = dom m.
Proof. intros Hf. unfold put. rewrite dom_insert_L. set_solver. Qed.

Lemma forward_dom wr s chunk fds : forall m m',
  forward wr s chunk fds m = Some m' -> Forall (fun fd => fd ∈ dom m) fds -> dom m' = dom m.
Proof.
  induction fds as [|fd fds IH]; intros m m' Hf Hd; simpl in Hf; [by injection Hf as <-|].
  apply Forall_cons in Hd as [Hfd Hd]. case_decide; [|by apply IH]. destruct (_ =? -1); [done|].
  rewrite <- (dom_put fd (take (Z.to_nat (wr fd (vlen chunk))) chunk) m) by done. apply (IH _ _ Hf).
  eapply Forall_impl; [exact Hd|]. intros x Hx. by rewrite dom_put.
Qed.

(** With whole writes, every descriptor of the list but the sender's gets the chunk
    once. *)
Lemma forward_full wr s chunk fds : forall m m',
  (forall fd n, wr fd n = -1 \/ wr fd n = n) -> forward wr s chunk fds m = Some m' -> NoDup fds ->
  forall fd b, m !! fd = Some b -> m' !! fd = Some (if decide (fd ∈ fds /\ fd <> s) then b ++ chunk else b).
Proof.
  induction fds as [|f fds IH]; intros m m' Hwr Hf Hnd fd b Hb; simpl in Hf.
  { injection Hf as <-. rewrite decide_False by (intros [?%not_elem_of_nil _]; done). done. }
  apply NoDup_cons in Hnd as [Hnin Hnd]. case_decide as Hfs.
  - destruct (Z.eqb_spec (wr f (vlen chunk)) (-1)) as [|Hr]; [done|].
    destruct (Hwr f (vlen chunk)) as [?|Hn]; [done|]. rewrite Hn in Hf. unfold vlen in Hf. rewrite Nat2Z.id, firstn_all in Hf.
    erewrite (IH _ _ Hwr Hf Hnd) by (by apply put_lookup).
    destruct (decide (fd = f)) as [->|Hne].
    + rewrite decide_False by (by intros [? _]). rewrite decide_True by (split; [by apply elem_of_cons; left|done]). done.
    + f_equal. apply decide_ext. rewrite elem_of_cons. naive_solver.
  - rewrite (IH _ _ Hwr Hf Hnd _ _ Hb). f_equal. apply decide_ext. rewrite elem_of_cons.
    assert (f = s) as -> by (destruct (decide (f = s)); naive_solver). naive_solver.
Qed.

Lemma client_fds_spec s : NoDup (client_fds s) /\ forall fd, fd ∈ client_fds s <-> fd ∈ dom (sock_fd_to_client_addr_ s).
Proof.
  unfold client_fds. split; [apply NoDup_fst_map_to_list|]. intros fd. rewrite list_elem_of_fmap, elem_of_dom. split.
  - intros ([k v] & -> & Hk). apply elem_of_map_to_list in Hk. eauto.
  - intros [v Hv]. exists (fd, v). by rewrite elem_of_map_to_list.
Qed.

Lemma history_lookup full w fd : inv full w -> fd ∈ dom (inbox w) -> exists n, since w !! fd = Some n.
Proof. intros Hi Hfd. rewrite <- (inv_since _ _ Hi) in Hfd. by apply elem_of_dom in Hfd. Qed.


(** ** Every step keeps it *)

Definition set_batch (b : list Z) (w : world) : world :=
  mkWorld (server w) b (backlog w) (inbox w) (closed w) (edges w) (sent w) (log w) (since w) (received w).

Lemma batch_pop_inv full w fd rest :
  inv full w -> batch w = fd :: rest ->
  inv full (set_batch rest w) /\ fd ∉ rest /\ (fd = listen_sockfd_ (server w) \/ fd ∈ dom (inbox w)).
Proof.
  intros [H1 H2 H3 H4 H5 H6 H7 [Hnd Hb] H9] E. rewrite E in Hnd, Hb. apply NoDup_cons in Hnd as [Hn Hnd]. split_and!.
  - split; try done. split; [done|]. intros x Hx. apply Hb. by right.
  - done.
  - apply Hb. by left.
Qed.

Lemma accept_inv full a w w' :
  inv full w -> conn_fd a ∉ dom (inbox w) -> conn_fd a <> listen_sockfd_ (server w) ->
  accept_event_handler a w = Some w' -> inv full w'.
Proof.
  intros [H1 H2 H3 H4 H5 H6 H7 [Hnd Hb] H9] Hfresh Hl. unfold accept_event_handler.
  destruct (_ =? -1); [done|]. destruct (SetNonBlocking _ _); [|done]. simpl. destruct (_ =? -1); [done|].
  intros [= <-]. split; simpl; rewrite ?dom_insert_L.
  1-4: by f_equal.
  1-3: clear -Hl H5 H6 H7; set_solver.
  - split; [done|]. intros x Hx. destruct (Hb x Hx) as [?|Hd]; [by left|right]. clear -Hd. set_solver.
  - intros fd n [[<- <-]|[Hne Hn]]%lookup_insert_Some.
    + rewrite !lookup_insert_eq, drop_ge by done. split_and!; [done..|]. exists []. done.
    + rewrite !lookup_insert_ne by done. auto.
Qed.

Lemma disconnect_inv full fd w :
  inv full w -> fd ∉ batch w ->
  inv full (mkWorld (set_clients (delete fd (sock_fd_to_client_addr_ (server w))) (server w)) (batch w) (backlog w)
                (delete fd (inbox w)) (closed w ∖ {[fd]}) (edges w ∖ {[fd]}) (delete fd (sent w)) (log w)
                (delete fd (since w)) (delete fd (received w))).
Proof.
  intros [H1 H2 H3 H4 H5 H6 H7 [Hnd Hb] H9] Hfd. split; simpl; rewrite ?dom_delete_L.
  1-4: by f_equal.
  1-3: clear -H5 H6 H7; set_solver.
  - split; [done|]. intros x Hx. destruct (Hb x Hx) as [?|Hd]; [by left|right].
    assert (x <> fd) as Hne by congruence. clear -Hd Hne. set_solver.
  - intros x n [Hne Hn]%lookup_delete_Some. rewrite !lookup_delete_ne by done. auto.
Qed.

Lemma relay_inv full wr fd pending w m :
  inv full w -> inbox w !! fd = Some pending -> (full = true -> forall fd n, wr fd n = -1 \/ wr fd n = n) ->
  let chunk := take (Z.to_nat kReadBufferSize) pending in
  forward wr fd chunk (client_fds (server w)) (sent w) = Some m ->
  inv full (mkWorld (server w) (batch w) (backlog w) (<[fd := drop (Z.to_nat kReadBufferSize) pending]> (inbox w))
              (closed w) (edges w) m (log w ++ [(fd, chunk)]) (since w) (received w)).
Proof.
  intros [H1 H2 H3 H4 H5 H6 H7 [Hnd Hb] H9] Hp Hwr chunk Hf.
  assert (fd ∈ dom (inbox w)) as Hfd by by eapply elem_of_dom_2.
  destruct (client_fds_spec (server w)) as [Hcn Hcs].
  assert (dom m = dom (sent w)) as Hdm.
  { eapply forward_dom; [exact Hf|]. apply Forall_forall. intros x Hx. rewrite H2, <- H1. by apply Hcs. }
  assert (dom (<[fd := drop (Z.to_nat kReadBufferSize) pending]> (inbox w)) = dom (inbox w)) as Hdi
    by (rewrite dom_insert_L; set_solver).
  split; simpl; rewrite ?Hdi; try done; [congruence|].
  intros x n Hx. destruct (H9 x n Hx) as (Hn & Hs & b & Hib & Hrb). rewrite drop_log, own_app, others_app, length_app by done.
  simpl. split_and!; [lia| |].
  - intros Hfull. rewrite (forward_full _ _ _ _ _ _ (Hwr Hfull) Hf Hcn _ _ (Hs Hfull)). f_equal.
    assert (x ∈ client_fds (server w)) as Hxc by (apply Hcs; rewrite H1; by eapply elem_of_dom_2).
    destruct (decide (fd = x)) as [->|Hne]; [rewrite decide_False by naive_solver; by rewrite app_nil_r|].
    by rewrite decide_True by auto.
  - destruct (decide (fd = x)) as [->|Hne].
    + rewrite lookup_insert_eq. eexists. split; [done|]. rewrite Hrb. f_equal.
      rewrite Hp in Hib. injection Hib as <-. rewrite <- app_assoc. f_equal. symmetry. apply take_drop.
    + rewrite lookup_insert_ne by done. exists b. by rewrite app_nil_r.
Qed.

Lemma client_msg_inv full rf wr fd w w' :
  inv full w -> fd ∈ dom (inbox w) -> fd ∉ batch w -> (full = true -> forall fd n, wr fd n = -1 \/ wr fd n = n) ->
  client_msg_handler rf wr fd w = Some w' -> inv full w'.
Proof.
  intros Hi Hfd Hb Hwr. unfold client_msg_handler. destruct rf; [done|].
  apply elem_of_dom in Hfd as [p Hp]. rewrite Hp. simpl. destruct p as [|c p].
  - case_decide; intros [= <-]; [by apply disconnect_inv|done].
  - destruct (forward _ _ _ _ _) as [m|] eqn:Ef; [|done]. cbn [mbind option_bind]. intros [= <-].
    by apply (relay_inv full wr fd (c :: p)).
Qed.

Lemma tcp_step_inv full w w' : inv full w -> step full w w' -> inv full w'.
Proof.
  intros Hi Hs. destruct Hs as [w fds Hst Hb Hnd Hr Hlen|w a rf wr w' Hacc Hwr Hh|w|w|w fd bs Hfd Hc|w fd Hfd].
  - destruct Hi as [H1 H2 H3 H4 H5 H6 H7 _ H9]. split; try done; simpl; [clear -H6; set_solver|]. split; [done|].
    intros x Hx. rewrite Forall_forall in Hr. destruct (Hr x Hx) as [?|[? _]]; [right; by apply H6|by left].
  - unfold handle_next in Hh. destruct (batch w) as [|fd rest] eqn:Eb; [done|].
    destruct (batch_pop_inv _ _ _ _ Hi Eb) as (Hi' & Hnin & Hd). simpl in Hh. case_decide as El.
    + destruct (Hacc fd rest eq_refl El). by eapply accept_inv.
    + destruct Hd as [?|Hd]; [done|]. by eapply client_msg_inv.
  - destruct Hi. by split.
  - destruct Hi. by split.
  - destruct Hi as [H1 H2 H3 H4 H5 H6 H7 H8 H9].
    assert (dom (put fd bs (inbox w)) = dom (inbox w)) as Hdi by by apply dom_put.
    assert (dom (put fd bs (received w)) = dom (received w)) as Hdr by (apply dom_put; by rewrite H4).
    split; simpl; rewrite ?Hdi, ?Hdr; try done; [clear -H6 Hfd; set_solver|].
    intros x n Hx. destruct (H9 x n Hx) as (Hn & Hsx & b & Hib & Hrb). split_and!; [done..|].
    rewrite (put_lookup _ _ _ _ _ Hib), (put_lookup _ _ _ _ _ Hrb). eexists. split; [done|].
    case_decide; [|done]. by rewrite app_assoc.
  - destruct Hi as [H1 H2 H3 H4 H5 H6 H7 H8 H9]. split; try done; simpl; clear -H6 H7 Hfd; set_solver.
Qed.

Lemma tcp_started_inv full s : sock_fd_to_client_addr_ s = ∅ -> inv full (started s).
Proof.
  intros Hs. split; simpl; rewrite ?Hs, ?dom_empty_L; try done.
  split; [constructor|]. by intros fd ?%not_elem_of_nil.
Qed.

Lemma tcp_reachable full s w : sock_fd_to_client_addr_ s = ∅ -> rtc (step full) (started s) w -> inv full w.
Proof. intros Hs. apply invariant_rtc; [by apply tcp_step_inv|by apply tcp_started_inv]. Qed.

(** C36: in every reachable state the server's table has exactly the open connections,
    and every event still to be handled is the listening socket's or an open
    connection's, each at most once: no handler runs on a descriptor closed before. *)
Theorem tcp_events_are_open_connections (s : t) (w : world) :
  sock_fd_to_client_addr_ s = ∅ -> rtc (step false) (started s) w ->
  dom (sock_fd_to_client_addr_ (server w)) = dom (inbox w) /\
  NoDup (batch w) /\
  forall fd, fd ∈ batch w -> fd = listen_sockfd_ (server w) \/ fd ∈ dom (inbox w).
Proof.
  intros Hs Hr. pose proof (tcp_reachable _ _ _ Hs Hr) as Hi. split; [apply (inv_clients _ _ Hi)|]. apply (inv_batch _ _ Hi).
Qed.

(** C14: as long as [write] takes whole chunks, every client has been sent exactly the
    chunks read from the other clients since it was accepted, in the order they were
    read, and what was read from a client, followed by what still waits in its
    socket, is what it sent: nothing is lost, duplicated, reordered or echoed. *)
Theorem tcp_relays_to_all_others (s : t) (w : world) (fd : Z) (n : nat) :
  sock_fd_to_client_addr_ s = ∅ -> rtc (step true) (started s) w -> since w !! fd = Some n ->
  sent w !! fd = Some (others fd (drop n (log w))) /\
  exists b, inbox w !! fd = Some b /\ received w !! fd = Some (own fd (drop n (log w)) ++ b).
Proof.
  intros Hs Hr Hn. destruct (inv_history _ _ (tcp_reachable _ _ _ Hs Hr) fd n Hn) as (_ & H1 & H2). auto.
Qed.


(** ** A run: two clients, one of which sends 1025 bytes at once *)

Definition listening : t := mk (lit ";") 8080 3 4 false ∅.
Definition answers (fd : Z) : accept_answers := mkAccept fd (lit "127.0.0.1") 5000 2 0 0.
Definition whole (fd n : Z) : Z := n.
Definition long_text : bytes := replicate 1025 "x"%char.

(** One event: it is reported by [epoll_wait] and handled. *)
Definition react (a : accept_answers) (fd : Z) (w : world) : option world :=
  handle_next a false whole (epoll_wait [fd] w).

Definition connects (w : world) : world :=
  mkWorld (server w) (batch w) (S (backlog w)) (inbox w) (closed w) (edges w) (sent w) (log w) (since w) (received w).

Definition arrives (fd : Z) (bs : bytes) (w : world) : world :=
  mkWorld (server w) (batch w) (backlog w) (put fd bs (inbox w)) (closed w) ({[fd]} ∪ edges w) (sent w) (log w) (since w)
    (put fd bs (received w)).

Lemma react_steps full a fd w w' :
  is_stop_ (server w) = false -> batch w = [] -> ready w fd ->
  (fd = listen_sockfd_ (server w) -> conn_fd a ∉ dom (inbox w) /\ conn_fd a <> listen_sockfd_ (server w)) ->
  react a fd w = Some w' -> rtc (step full) w w'.
Proof.
  intros Hst Hb Hr Ha E. eapply rtc_l; [apply (step_wait full w [fd]); [done|done|apply NoDup_singleton|by apply Forall_singleton|done]|].
  apply rtc_once. eapply (step_handle full _ a false whole); [|intros _; by right|exact E].
  simpl. intros fd' rest [= <- <-]. auto.
Qed.

Definition both_in : option world :=
  w ← react (answers 5) 3 (connects (started listening)); react (answers 6) 3 (connects w).

(** Client 5 sends [text], which the server reads once. *)
Definition after_sending (text : bytes) : world :=
  default (started listening) (w ← both_in; react (answers 0) 5 (arrives 5 text w)).

Lemma sender_runs full text : rtc (step full) (started listening) (after_sending text).
Proof.
  unfold after_sending.
  destruct (react (answers 5) 3 (connects (started listening))) as [w1|] eqn:E1; [|done].
  destruct (react (answers 6) 3 (connects w1)) as [w2|] eqn:E2.
  2: { unfold both_in. rewrite E1. cbn [mbind option_bind]. rewrite E2. apply rtc_refl. }
  unfold both_in. rewrite E1. cbn [mbind option_bind]. rewrite E2. cbn [mbind option_bind].
  destruct (react (answers 0) 5 (arrives 5 text w2)) as [w3|] eqn:E3; [|apply rtc_refl]. simpl default.
  eapply rtc_l; [apply step_connect|]. etrans.
  { eapply (react_steps full (answers 5) 3); [reflexivity|reflexivity|right; split; [done|simpl; lia]| |exact E1].
    intros _. split; [|done]. simpl. rewrite dom_empty_L. apply not_elem_of_empty. }
  injection E1 as <-. eapply rtc_l; [apply step_connect|]. etrans.
  { eapply (react_steps full (answers 6) 3); [reflexivity|reflexivity|right; split; [done|simpl; lia]| |exact E2].
    intros _. split; [|done]. simpl. rewrite dom_insert_L, dom_empty_L. set_solver. }
  injection E2 as <-. eapply rtc_l; [apply (step_arrive full _ 5 text); [|apply not_elem_of_empty]|].
  { simpl. rewrite !dom_insert_L. set_solver. }
  eapply (react_steps full (answers 0) 5); [reflexivity|reflexivity|left; simpl; set_solver|done|exact E3].
Qed.

Definition sample_world : world := after_sending long_text.

Lemma sample_runs full : rtc (step full) (started listening) sample_world.
Proof. apply sender_runs. Qed.

(** Connections are registered edge-triggered but read once per event.  After a
    client has sent 1025 bytes at once, a reachable state has its last byte still
    in the socket, with no event pending and none left in the batch. *)
Theorem edge_triggered_read_leaves_data :
  rtc (step true) (started listening) sample_world /\
  inbox sample_world !! 5 = Some [ "x"%char ] /\ edges sample_world = ∅ /\ batch sample_world = [] /\
  sent sample_world !! 6 = Some (replicate 1024 "x"%char).
Proof. split; [apply sample_runs|]. split_and!; vm_compute; reflexivity. Qed.

Lemma tcp_events_are_open_connections_witness :
  dom (sock_fd_to_client_addr_ (server sample_world)) = dom (inbox sample_world) /\
  NoDup (batch sample_world) /\
  forall fd, fd ∈ batch sample_world -> fd = listen_sockfd_ (server sample_world) \/ fd ∈ dom (inbox sample_world).
Proof. apply (tcp_events_are_open_connections listening sample_world); [reflexivity|apply sample_runs]. Defined.

Lemma tcp_relays_to_all_others_witness :
  sent sample_world !! 6 = Some (others 6 (drop 0 (log sample_world))) /\
  exists b, inbox sample_world !! 6 = Some b /\ received sample_world !! 6 = Some (own 6 (drop 0 (log sample_world)) ++ b).
Proof.
  apply (tcp_relays_to_all_others listening sample_world 6 0); [reflexivity|apply sample_runs|vm_compute; reflexivity].
Defined.

End TcpServer.
