(* ===== verification/TcpClient.v ===== *)
(** * Line client (tcp/tcp_client/tcp_client.h, tcp/tcp_client/tcp_client.cc)

    [Connect] starts a thread that prints the lines it receives.  A round of that
    thread continues with some lines printed, ends the process, or is undefined. *)

From S2P Require Import Prelude SStream.

Module TcpClient.

Definition kMaxBufferSize : Z := 4096.

Record t := mk { name_ : bytes; sockfd_ : Z; is_stop_ : bool; joinable : bool }.

Definition make (name : bytes) : t := mk name (-1) false false.

(** ** Split *)

(** [while (!iss.eof())]; [temp] keeps its value when [getline] extracts nothing. *)
Fixpoint split_loop (fuel : nat) (iss : SStream.t) (temp : bytes) (delim : ascii) (res : list bytes)
  : option (list bytes) :=
  match fuel with
  | O => None
  | S fuel' =>
      if SStream.eof iss then Some res
      else
        let '(temp, iss) := SStream.getline iss temp delim in
        split_loop fuel' iss temp delim
          (if bool_decide (temp <> [LF]) && bool_decide (temp <> []) then res ++ [temp] else res)
  end.

Definition Split (msg : bytes) (delim : ascii) : option (list bytes) :=
  split_loop (length msg + 2) (SStream.of_bytes msg) [] delim [].

(** ** The connection *)

(** The port as it goes into [sin_port]; [None] is [exit(EXIT_FAILURE)]. *)
Definition Connect (socket_ret connect_ret : Z) (server_port : Z) (c : t) : option (Z * t) :=
  if socket_ret =? -1 then None
  else if connect_ret =? -1 then None
  else Some (u16 server_port, mk (name_ c) socket_ret (is_stop_ c) true).

Definition Disconnect (c : t) : t := mk (name_ c) (sockfd_ c) true false.

(** [write]'s count is not looked at. *)
Definition Send (write_ret : Z) (c : t) : option t := if write_ret =? -1 then None else Some c.

Inductive answer :=
  | SelectFails
  | SelectTimeout
  | ReadFails
  | ReadClosed
  | ReadBytes (data : bytes).

Inductive round := Continues (printed : list bytes) | Exits | Undefined.

(** What the terminated buffer holds as a C string; a read that fills the buffer has
    its terminator written one past the end. *)
Definition terminate (data : bytes) : option bytes :=
  if vlen data <? kMaxBufferSize then Some (c_str data) else None.

(** One round of the receiving thread. *)
Definition receive (a : answer) : round :=
  match a with
  | SelectFails => Exits
  | SelectTimeout => Continues []
  | ReadFails => Exits
  | ReadClosed => Exits
  | ReadBytes data =>
      match terminate data with
      | None => Undefined
      | Some text => match Split text LF with Some msgs => Continues msgs | None => Undefined end
      end
  end.

Fixpoint receive_all (answers : list answer) : round :=
  match answers with
  | [] => Continues []
  | a :: answers' =>
      match receive a with
      | Continues out =>
          match receive_all answers' with Continues out' => Continues (out ++ out') | r => r end
      | r => r
      end
  end.

(** ** Correctness *)

Definition lines (s : bytes) : list bytes := base.filter (fun p => p <> []) (SStream.split LF s).

Lemma split_loop_spec d s : forall fuel iss temp res,
  SStream.at_rest iss s -> (length s + 1 < fuel)%nat ->
  split_loop fuel iss temp d res = Some (res ++ base.filter (fun p => p <> [LF] /\ p <> []) (SStream.split d s)).
Proof.
  assert (forall (p : bytes) (res : list bytes), (if bool_decide (p <> [LF]) && bool_decide (p <> []) then res ++ [p] else res)
    = res ++ base.filter (fun p => p <> [LF] /\ p <> []) [p]) as Hone.
  { intros p res. rewrite filter_cons, filter_nil, <- bool_decide_and. case_bool_decide as E; [by rewrite decide_True|].
    rewrite decide_False by done. by rewrite app_nil_r. }
  induction s as [s IH] using (induction_ltof1 _ (@length ascii)). intros [|fuel] iss temp res Hs Hf; [lia|].
  cbn [split_loop]. assert (SStream.eof iss = false) as ->.
  { destruct Hs as (Hg & _). by apply SStream.good_true in Hg as [? _]. }
  rewrite SStream.split_cut. destruct (SStream.cut d s) as [l [r|]] eqn:E.
  - apply SStream.cut_Some in E as [-> Hd]. destruct (SStream.getline_delim iss temp d l r Hs Hd) as (iss' & -> & Hs' & _).
    rewrite length_app in Hf. simpl in Hf. rewrite (IH r); [|unfold ltof; rewrite length_app; simpl; lia|done|lia].
    rewrite Hone, <- app_assoc. by rewrite <- filter_app.
  - apply SStream.cut_None in E as [-> Hd].
    destruct (SStream.getline_last iss temp d s Hs Hd) as (iss' & -> & _ & He & _). rewrite Hone.
    destruct fuel as [|fuel]; [lia|]. cbn [split_loop]. by rewrite He.
Qed.

(** [Split] ends, with the non-empty fields between delimiters. *)
Lemma Split_lines s : Split s LF = Some (lines s).
Proof.
  unfold Split. rewrite (split_loop_spec LF s); [|apply SStream.at_rest_of_bytes|lia]. simpl. f_equal. unfold lines.
  induction (SStream.split_no_delim LF s) as [|p ps Hn _ IH]; [done|]. rewrite !filter_cons, IH.
  assert (p <> [] -> p <> [LF]) by (intros _ ->; apply Hn; by left).
  destruct (decide (p <> [])) as [Hp|Hp]; [rewrite decide_True by auto; done|rewrite decide_False by naive_solver; done].
Qed.

(** A piece of the stream that ends with a complete line. *)
Definition whole_lines (s : bytes) : Prop := NUL ∉ s /\ vlen s < kMaxBufferSize /\ exists s', s = s' ++ [LF].

Lemma lines_app s s' : lines (s ++ LF :: s') = lines s ++ lines s'.
Proof. unfold lines. by rewrite SStream.split_at, filter_app. Qed.

Lemma lines_whole s s' : whole_lines s -> lines (s ++ s') = lines s ++ lines s'.
Proof.
  intros (_ & _ & r & ->). rewrite <- app_assoc. simpl. rewrite !lines_app. by rewrite app_nil_r.
Qed.

Lemma receive_whole s : whole_lines s -> receive (ReadBytes s) = Continues (lines s).
Proof.
  intros (Hn & Hl & _). unfold receive, terminate. rewrite (proj2 (Z.ltb_lt _ _) Hl), c_str_no_nul by done.
  by rewrite Split_lines.
Qed.

Lemma receive_lines reads :
  Forall whole_lines reads -> receive_all (ReadBytes <$> reads) = Continues (lines (mjoin reads)).
Proof.
  induction 1 as [|s reads Hs _ IH]; [done|]. cbn [fmap list_fmap receive_all]. rewrite receive_whole by done.
  change (list_fmap _ _ ReadBytes reads) with (ReadBytes <$> reads). rewrite IH. cbn [mjoin list_join].
  by rewrite lines_whole.
Qed.

(** C32: when the reads fall on line boundaries, are shorter than the buffer and have
    no NUL, the client prints exactly the non-empty lines of the stream, in order,
    however the stream was cut into reads; and splitting always ends. *)
Theorem client_prints_the_lines (reads : list bytes) :
  Forall whole_lines reads -> receive_all (ReadBytes <$> reads) = Continues (lines (mjoin reads)).
Proof. apply receive_lines. Qed.

Lemma client_prints_the_lines_witness :
  receive_all [ReadBytes (lit "one" ++ [LF]); ReadBytes ([LF] ++ lit "two" ++ [LF] ++ lit "three" ++ [LF])]
  = Continues [lit "one"; lit "two"; lit "three"].
Proof.
  apply (client_prints_the_lines [lit "one" ++ [LF]; [LF] ++ lit "two" ++ [LF] ++ lit "three" ++ [LF]]).
  apply Forall_cons. split; [|apply Forall_singleton];
    (split; [apply (bool_decide_unpack _); vm_compute; exact I|split; [reflexivity|]]).
  - by exists (lit "one").
  - by exists ([LF] ++ lit "two" ++ [LF] ++ lit "three").
Defined.

(** A read that fills the buffer puts the terminating NUL outside it, whatever the
    bytes are. *)
Theorem full_read_overflows (data : bytes) :
  vlen data = kMaxBufferSize -> receive (ReadBytes data) = Undefined.
Proof. intros H. unfold receive, terminate. by rewrite H. Qed.

Lemma full_read_overflows_witness : receive (ReadBytes (replicate 4096 "x"%char)) = Undefined.
Proof. apply (full_read_overflows (replicate 4096 "x"%char)). reflexivity. Defined.

(** Lines are put together within one read only: a line that arrives in two reads is
    printed as two. *)
Lemma line_across_reads_is_split :
  receive_all [ReadBytes (lit "he"); ReadBytes (lit "llo" ++ [LF])] = Continues [lit "he"; lit "llo"] /\
  receive_all [ReadBytes (lit "hello" ++ [LF])] = Continues [lit "hello"].
Proof. split; reflexivity. Qed.

End TcpClient.
