(* ===== verification/TcpChat.v ===== *)
(** * The relay and its clients together (tcp/)

    What the server of [TcpServer] writes to a connection is what the client of
    [TcpClient] at its other end reads, in pieces of TCP's choosing. *)

From S2P Require Import Prelude SStream TcpServer TcpClient.

Module TcpChat.

(** The messages of the other clients since [fd] joined, chunk by chunk. *)
Definition messages_for (fd : Z) (l : list (Z * bytes)) : list bytes :=
  mjoin ((fun e => TcpClient.lines (snd e)) <$> base.filter (fun e => fst e <> fd) l).

Lemma lines_join chunks :
  Forall TcpClient.whole_lines chunks -> TcpClient.lines (mjoin chunks) = mjoin (TcpClient.lines <$> chunks).
Proof.
  induction 1 as [|s chunks Hs _ IH]; [done|].
  change (mjoin (s :: chunks)) with (s ++ mjoin chunks). rewrite TcpClient.lines_whole, IH by done. done.
Qed.

Lemma lines_others fd l :
  Forall (fun e => TcpClient.whole_lines (snd e)) l -> TcpClient.lines (TcpServer.others fd l) = messages_for fd l.
Proof.
  intros Hl. unfold TcpServer.others, messages_for. rewrite lines_join.
  - by rewrite <- list_fmap_compose.
  - apply Forall_fmap. apply Forall_forall. intros e He. apply list_elem_of_filter in He as [_ He].
    by apply (proj1 (Forall_forall _ _) Hl).
Qed.


(** Two clients; the first sends a line. *)
Definition hello : bytes := lit "hello" ++ [LF].

Definition chat_world : TcpServer.world := TcpServer.after_sending hello.

Lemma hello_whole : TcpClient.whole_lines hello.
Proof.
  split; [apply (bool_decide_unpack _); vm_compute; exact I|]. split; [reflexivity|]. by exists (lit "hello").
Qed.

Lemma chat_log : TcpServer.log chat_world = [(5, hello)].
Proof. vm_compute. reflexivity. Qed.


End TcpChat.
