(* ===== verification/HttpClient.v ===== *)
(** * HTTP client (http/http_client/http_client.h, http/http_client/http_client.cc)

    [Post] and [Get] over libcurl.  The library is a parameter: [transfer] gives, for
    the options of a handle, the pieces of the body it delivers and its result code.
    What libcurl documents of its callbacks is written out in [perform]: pieces are
    passed with element size 1, and a callback that does not return the number of
    bytes it was given ends the transfer with CURLE_WRITE_ERROR.  Log lines are left
    out. *)

From S2P Require Import Prelude.

Module HttpClient.

Definition CURLE_OK : Z := 0.
Definition CURLE_FAILED_INIT : Z := 2.
Definition CURLE_WRITE_ERROR : Z := 23.

Inductive option_ :=
  | VERBOSE (v : Z) | DEBUGFUNCTION | URL (s : bytes) | POST (v : Z) | POSTFIELDS (s : bytes) | READFUNCTION_NULL
  | WRITEFUNCTION | WRITEDATA | NOSIGNAL (v : Z) | SSL_VERIFYPEER (b : bool) | SSL_VERIFYHOST (b : bool)
  | CAINFO (s : bytes) | TIMEOUT_MS (ms : Z) | CONNECTTIMEOUT_MS (ms : Z).

(** The handles allocated, each with its options, the latest first. *)
Abbreviation handles := (gmap Z (list option_)).

Section client.
Context (transfer : list option_ -> list bytes * Z).

(** [init] is what [curl_easy_init] returns: a new handle, or null. *)
Definition curl_easy_init (h : Z) (hs : handles) : handles := if h =? 0 then hs else <[h := []]> hs.

(** Using a handle that is not allocated is undefined, [None]. *)
Definition curl_easy_setopt (h : Z) (o : option_) (hs : handles) : option handles :=
  os ← hs !! h; Some (<[h := o :: os]> hs).

Fixpoint setopts (h : Z) (l : list option_) (hs : handles) : option handles :=
  match l with [] => Some hs | o :: l' => hs' ← curl_easy_setopt h o hs; setopts h l' hs' end.

Definition curl_easy_cleanup (h : Z) (hs : handles) : option handles := _ ← hs !! h; Some (delete h hs).

(** [str] is the [std::string] behind [p_data], or null; the result is what the
    callback returns and the string afterwards. *)
Definition write_callback_func (buffer : bytes) (size nmemb : Z) (str : option bytes) : Z * option bytes :=
  match str with
  | None => (u64 (-1), None)
  | Some s => (nmemb, Some (s ++ take (Z.to_nat (size * nmemb)) buffer))
  end.

(** Pieces are delivered until the callback objects. *)
Fixpoint deliver (pieces : list bytes) (str : option bytes) : bool * option bytes :=
  match pieces with
  | [] => (true, str)
  | p :: pieces' =>
      let '(ret, str') := write_callback_func p 1 (vlen p) str in
      if ret =? vlen p then deliver pieces' str' else (false, str')
  end.

Definition curl_easy_perform (h : Z) (resp : option bytes) (hs : handles) : option (Z * option bytes) :=
  os ← hs !! h;
  let '(pieces, code) := transfer os in
  let '(ok, resp') := deliver pieces resp in
  Some (if (ok : bool) then code else CURLE_WRITE_ERROR, resp').

(** What to log of a debug event; the data is read as a C string. *)
Definition debug_prefix (itype : Z) : option bytes :=
  if itype =? 0 then Some (lit "[TEXT]") else if itype =? 1 then Some (lit "[HEADER_IN]")
  else if itype =? 2 then Some (lit "[HEADER_OUT]") else if itype =? 3 then Some (lit "[DATA_IN]")
  else if itype =? 4 then Some (lit "[DATA_OUT]") else None.

Definition verification (ca_path : option bytes) : list option_ :=
  match ca_path with
  | None => [SSL_VERIFYPEER false; SSL_VERIFYHOST false]
  | Some p => [SSL_VERIFYPEER true; CAINFO (c_str p)]
  end.

Definition post_options (debug : bool) (url post_params : bytes) (timeout_ms conn_timeout_ms : Z) (ca_path : option bytes)
  : list option_ :=
  (if debug then [VERBOSE 1; DEBUGFUNCTION] else []) ++
  [URL (c_str url); POST 1; POSTFIELDS (c_str post_params); READFUNCTION_NULL; WRITEFUNCTION; WRITEDATA; NOSIGNAL 1] ++
  verification ca_path ++ [NOSIGNAL 1; TIMEOUT_MS timeout_ms; CONNECTTIMEOUT_MS conn_timeout_ms].

Definition get_options (debug : bool) (url : bytes) (timeout_ms conn_timeout_ms : Z) (ca_path : option bytes) : list option_ :=
  (if debug then [VERBOSE 1; DEBUGFUNCTION] else []) ++
  [URL (c_str url); READFUNCTION_NULL; WRITEFUNCTION; WRITEDATA; NOSIGNAL 1] ++
  verification ca_path ++ [NOSIGNAL 1; TIMEOUT_MS timeout_ms; CONNECTTIMEOUT_MS conn_timeout_ms].

(** Both functions: set the options, perform, clean up, return the code. *)
Definition request (h : Z) (options : list option_) (resp : option bytes) (hs : handles)
  : option (Z * option bytes * handles) :=
  let hs := curl_easy_init h hs in
  if h =? 0 then Some (CURLE_FAILED_INIT, resp, hs)
  else
    hs ← setopts h options hs;
    '(res, resp') ← curl_easy_perform h resp hs;
    hs ← curl_easy_cleanup h hs;
    Some (res, resp', hs).

Definition Post (debug : bool) (h : Z) (url post_params : bytes) (timeout_ms conn_timeout_ms : Z) (resp ca_path : option bytes)
  (hs : handles) : option (Z * option bytes * handles) :=
  request h (post_options debug url post_params timeout_ms conn_timeout_ms ca_path) resp hs.

Definition Get (debug : bool) (h : Z) (url : bytes) (timeout_ms conn_timeout_ms : Z) (resp ca_path : option bytes)
  (hs : handles) : option (Z * option bytes * handles) :=
  request h (get_options debug url timeout_ms conn_timeout_ms ca_path) resp hs.

(** ** Correctness *)

Lemma setopts_spec h l : forall hs os, hs !! h = Some os -> setopts h l hs = Some (<[h := reverse l ++ os]> hs).
Proof.
  induction l as [|o l IH]; intros hs os Hh; cbn [setopts]; [by rewrite reverse_nil, insert_id|].
  unfold curl_easy_setopt. rewrite Hh. cbn [mbind option_bind]. erewrite IH by apply lookup_insert_eq.
  by rewrite insert_insert_eq, reverse_cons, <- app_assoc.
Qed.

Lemma deliver_spec pieces : forall s, deliver pieces (Some s) = (true, Some (s ++ mjoin pieces)).
Proof.
  induction pieces as [|p ps IH]; intros s; [by simpl; rewrite app_nil_r|]. cbn [deliver write_callback_func].
  rewrite Z.eqb_refl, IH. cbn [mjoin list_join]. rewrite Z.mul_1_l. unfold vlen. rewrite Nat2Z.id, firstn_all.
  by rewrite <- app_assoc.
Qed.

Lemma request_spec h options s hs :
  h <> 0 -> hs !! h = None ->
  request h options (Some s) hs
  = Some (snd (transfer (reverse options)), Some (s ++ mjoin (fst (transfer (reverse options)))), hs).
Proof.
  intros Hh Hn. unfold request, curl_easy_init. rewrite (proj2 (Z.eqb_neq _ _) Hh).
  erewrite setopts_spec by apply lookup_insert_eq. cbn [mbind option_bind]. rewrite insert_insert_eq, app_nil_r.
  unfold curl_easy_perform, curl_easy_cleanup. rewrite lookup_insert_eq. cbn [mbind option_bind].
  destruct (transfer (reverse options)) as [pieces code]. rewrite deliver_spec. cbn [mbind option_bind].
  by rewrite delete_insert_id.
Qed.


(** Without a string to write to, the first piece of a body ends the transfer. *)
Lemma null_response_fails p ps : vlen p < 2 ^ 64 - 1 -> deliver (p :: ps) None = (false, None).
Proof.
  intros Hp. cbn [deliver write_callback_func]. destruct (Z.eqb_spec (u64 (-1)) (vlen p)) as [E|E]; [|done].
  unfold wrapu in E. replace (-1 mod 2 ^ 64) with (2 ^ 64 - 1) in E by reflexivity. lia.
Qed.

End client.


End HttpClient.
