(* ===== verification/Util.v ===== *)
(** * Small utilities (util/random.h, util/time/timestamp.h, util/magic_enum.h, util/macro_util.h) *)

From S2P Require Import Prelude Printf.

(** ** util/random.h *)

Module Random.

Definition RAND_MAX : Z := 2 ^ 31 - 1.

Section random.
(** [rand_r]: the value and the next seed. *)
Context (rand_r : Z -> Z * Z).

(** [int] arithmetic; overflow and division by zero are undefined, [None]. *)
Definition int_ (z : Z) : option Z := if decide (in_s 32 z) then Some z else None.

Definition remainder (a b : Z) : option Z := if b =? 0 then None else int_ (Z.rem a b).

(** The result and the static [seed]. *)
Definition RandInt (min max : Z) (seed : Z) : option (Z * Z) :=
  let '(r, seed') := rand_r seed in
  d ← int_ (max - min); m ← remainder r d; v ← int_ (min + m); Some (v, seed').

Definition RandInt1 (max : Z) (seed : Z) : option (Z * Z) :=
  let '(r, seed') := rand_r seed in m ← remainder r max; Some (m, seed').

(** POSIX: a value between 0 and [RAND_MAX]. *)
Hypothesis rand_range : forall s, 0 <= fst (rand_r s) <= RAND_MAX.

(** For bounds whose difference fits an [int], [RandInt(min, max)] is at least
    [min] and always less than [max], and [RandInt(max)] less than [max]: the upper
    bound, which the comment includes, is never returned; with equal bounds the call
    divides by zero. *)
Theorem RandInt_excludes_max (min max seed : Z) :
  in_s 32 min -> in_s 32 max -> min < max -> max - min < 2 ^ 31 ->
  (exists v s, RandInt min max seed = Some (v, s) /\ min <= v < max) /\
  (0 < max -> exists v s, RandInt1 max seed = Some (v, s) /\ 0 <= v < max) /\
  RandInt min min seed = None.
Proof.
  intros Hmin Hmax Hlt Hd. unfold RandInt, RandInt1. pose proof (rand_range seed) as Hr.
  destruct (rand_r seed) as [r s]. simpl in Hr. unfold remainder, int_, RAND_MAX, in_s in *.
  assert (forall b, 0 < b -> 0 <= Z.rem r b < b) as Hrem by (intros b Hb; apply Z.rem_bound_pos; lia).
  split_and!.
  - rewrite decide_True by lia. cbn [mbind option_bind]. rewrite (proj2 (Z.eqb_neq _ _)) by lia.
    pose proof (Hrem (max - min) ltac:(lia)). rewrite decide_True by lia. cbn [mbind option_bind].
    rewrite decide_True by lia. eexists _, _. split; [done|]. lia.
  - intros H0. rewrite (proj2 (Z.eqb_neq _ _)) by lia. pose proof (Hrem max H0).
    rewrite decide_True by lia. eexists _, _. split; [done|]. lia.
  - rewrite Z.sub_diag, decide_True by lia. done.
Qed.

End random.

(** The linear congruential generator of the C standard's example. *)
Definition lcg (s : Z) : Z * Z := let s' := u32 (s * 1103515245 + 12345) in (s' / 65536 mod 32768, s').

Lemma lcg_range s : 0 <= fst (lcg s) <= RAND_MAX.
Proof. unfold lcg, RAND_MAX. simpl fst. pose proof (Z.mod_pos_bound (u32 (s * 1103515245 + 12345) / 65536) 32768). lia. Qed.

Lemma RandInt_excludes_max_witness :
  (exists v s, RandInt lcg 1 6 123 = Some (v, s) /\ 1 <= v < 6) /\
  (0 < 6 -> exists v s, RandInt1 lcg 6 123 = Some (v, s) /\ 0 <= v < 6) /\
  RandInt lcg 1 1 123 = None.
Proof. apply (RandInt_excludes_max lcg lcg_range 1 6 123); unfold in_s; lia. Defined.

End Random.

(** ** util/time/timestamp.h *)

Module Timestamp.

(** [tv_sec * 1000 * 1000 + tv_usec] in [long]; overflow is undefined. *)
Definition long_ (z : Z) : option Z := if decide (in_s 64 z) then Some z else None.

Definition TimestampSec (tv_sec : Z) : Z := u64 tv_sec.

Definition TimestampMicroSec (tv_sec tv_usec : Z) : option Z :=
  a ← long_ (tv_sec * 1000); b ← long_ (a * 1000); c ← long_ (b + tv_usec); Some (u64 c).

Definition TimestampNanoSec (tv_sec tv_nsec : Z) : option Z :=
  a ← long_ (tv_sec * 1000); b ← long_ (a * 1000); c ← long_ (b * 1000); d ← long_ (c + tv_nsec); Some (u64 d).

Lemma long_in z : in_s 64 z -> long_ z = Some z.
Proof. intros Hz. unfold long_. by rewrite decide_True. Qed.

Lemma TimestampNanoSec_spec s n :
  0 <= s < 9 * 10 ^ 9 -> 0 <= n < 10 ^ 9 -> TimestampNanoSec s n = Some (s * 10 ^ 9 + n).
Proof.
  intros Hs Hn. unfold TimestampNanoSec. do 4 (rewrite long_in by (unfold in_s; lia); cbn [mbind option_bind]).
  f_equal. rewrite wrapu_id by (unfold in_u; lia). lia.
Qed.

Lemma TimestampMicroSec_spec s n :
  0 <= s < 9 * 10 ^ 9 -> 0 <= n < 10 ^ 6 -> TimestampMicroSec s n = Some (s * 10 ^ 6 + n).
Proof.
  intros Hs Hn. unfold TimestampMicroSec. do 3 (rewrite long_in by (unfold in_s; lia); cbn [mbind option_bind]).
  f_equal. rewrite wrapu_id by (unfold in_u; lia). lia.
Qed.

End Timestamp.

(** ** util/magic_enum.h *)

Module MagicEnum.

(** [find] of a pattern in a [std::string_view]. *)
Fixpoint find (pat s : bytes) : option nat :=
  if decide (take (length pat) s = pat) then Some 0%nat
  else match s with [] => None | _ :: s' => S <$> find pat s' end.

(** [find_last_of(c)] *)
Fixpoint find_last_of (c : ascii) (s : bytes) : option nat :=
  match s with
  | [] => None
  | x :: s' => match find_last_of c s' with
               | Some n => Some (S n)
               | None => if decide (x = c) then Some 0%nat else None
               end
  end.

Section magic.
(** [__PRETTY_FUNCTION__] of [enum_name<static_cast<T>(N)>], which the compiler
    generates. *)
Context (pretty : Z -> bytes).

Definition key : bytes := lit "value = ".

(** [enum_name<value>()]; a missing mark would make the view start or end outside
    the string. *)
Definition enum_name_at (N : Z) : option bytes :=
  let name := pretty N in
  start ← find key name; end_ ← find_last_of "]" name;
  if decide (start + 8 <= end_)%nat then Some (take (end_ - (start + 8)) (drop (start + 8) name)) else None.

(** [enum_max<T, N>()]: the first value without an enumerator; the compiler's limit on
    template recursion is the fuel. *)
Fixpoint enum_max (fuel : nat) (N : Z) : option Z :=
  match fuel with
  | O => None
  | S fuel' =>
      name ← enum_name_at N;
      if decide (")"%char ∈ name) then Some N else enum_max fuel' (N + 1)
  end.

(** [names], then [names[static_cast<std::size_t>(value)]]. *)
Definition enum_name (fuel : nat) (value : Z) : option bytes :=
  num ← enum_max fuel 0;
  names ← mapM enum_name_at (seqZ 0 num);
  vget names (u64 value).

(** A pretty name has its first mark before the enumerator and ends with the bracket. *)
Definition shows (N : Z) (name : bytes) : Prop :=
  exists before, pretty N = before ++ key ++ name ++ [ "]"%char ] /\ find key (pretty N) = Some (length before).

Lemma find_last_of_end c s : find_last_of c (s ++ [c]) = Some (length s).
Proof. induction s as [|x s IH]; simpl; [by rewrite decide_True|]. by rewrite IH. Qed.

Lemma enum_name_at_shows N name : shows N name -> enum_name_at N = Some name.
Proof.
  intros (before & E & Hf). unfold enum_name_at. rewrite Hf. cbn [mbind option_bind].
  assert (find_last_of "]" (pretty N) = Some (length before + 8 + length name)%nat) as ->.
  { rewrite E, app_assoc, app_assoc, find_last_of_end, !length_app. done. }
  cbn [mbind option_bind]. rewrite decide_True by lia. f_equal. rewrite E.
  rewrite app_assoc, drop_app_length' by (rewrite length_app; done).
  rewrite take_app_length'; [done|lia].
Qed.

(** The enumerators are [0 .. n-1] with the names [names]; the next value is shown
    with a cast, which has a parenthesis. *)
Definition enumerates (names : list bytes) (past : bytes) : Prop :=
  (forall i name, names !! i = Some name -> shows (Z.of_nat i) name /\ ")"%char ∉ name) /\
  shows (vlen names) past /\ ")"%char ∈ past.

Lemma enum_max_ok names past fuel k :
  enumerates names past -> (k <= length names)%nat -> (length names - k < fuel)%nat ->
  enum_max fuel (Z.of_nat k) = Some (vlen names).
Proof.
  intros (Hn & Hp & Hpar). revert k. induction fuel as [|fuel IH]; intros k Hk Hf; [lia|]. cbn [enum_max].
  destruct (decide (k = length names)) as [->|Hne].
  - change (Z.of_nat (length names)) with (vlen names). rewrite (enum_name_at_shows _ _ Hp). cbn [mbind option_bind]. by rewrite decide_True.
  - destruct (lookup_lt_is_Some_2 names k) as [name Hname]; [lia|]. destruct (Hn _ _ Hname) as [Hs Hno].
    rewrite (enum_name_at_shows _ _ Hs). cbn [mbind option_bind]. rewrite decide_False by done.
    replace (Z.of_nat k + 1) with (Z.of_nat (S k)) by lia. apply IH; lia.
Qed.

(** For an enumeration whose enumerators are numbered 0, 1, ..., the search for
    the last one ends, and [enum_name] gives every enumerator its name; any other
    value indexes outside the table of names. *)
Theorem enum_name_correct (names : list bytes) (past : bytes) (value : Z) (fuel : nat) :
  enumerates names past -> vlen names <= 2 ^ 31 -> in_s 32 value -> (length names < fuel)%nat ->
  enum_name fuel value = vget names value.
Proof.
  intros He Hlen Hv Hf. unfold enum_name. pose proof (enum_max_ok _ _ fuel 0 He ltac:(lia) ltac:(lia)) as Hmax. change (Z.of_nat 0) with 0 in Hmax.
  rewrite Hmax. cbn [mbind option_bind].
  assert (mapM enum_name_at (seqZ 0 (vlen names)) = Some names) as ->.
  { apply mapM_Some. apply Forall2_same_length_lookup_2; [rewrite length_seqZ; unfold vlen; lia|].
    intros i x name Hx Hname. apply lookup_seqZ in Hx as [-> Hi]. apply enum_name_at_shows.
    destruct (proj1 He _ _ Hname) as [Hs _]. done. }
  cbn [mbind option_bind]. destruct (Z.ltb_spec value 0) as [Hneg|Hpos].
  - unfold vget at 2. rewrite (proj2 (Z.ltb_lt _ _) Hneg). unfold vget. destruct (Z.ltb_spec (u64 value) 0); [done|].
    apply lookup_ge_None. unfold wrapu, in_s in *.
    assert (value mod 2 ^ 64 = value + 2 ^ 64) as -> by (symmetry; apply (Z.mod_unique_pos _ _ (-1)); lia). unfold vlen in Hlen. lia.
  - rewrite wrapu_id by (unfold in_u, in_s in *; lia). done.
Qed.

End magic.

(** [enum class Color { RED, GREEN }] as GCC shows it. *)
Definition color (N : Z) : bytes :=
  lit "constexpr auto util::enum_name() [with auto value = " ++
  (if N =? 0 then lit "Color::RED" else if N =? 1 then lit "Color::GREEN" else lit "(Color)2") ++ lit "]".

Definition color_prefix : bytes := lit "constexpr auto util::enum_name() [with auto ".

Lemma enum_name_correct_witness : enum_name color 10 1 = vget [lit "Color::RED"; lit "Color::GREEN"] 1.
Proof.
  apply (enum_name_correct color [lit "Color::RED"; lit "Color::GREEN"] (lit "(Color)2") 1 10).
  - assert (forall N name, color N = color_prefix ++ key ++ name ++ [ "]"%char ] ->
      find key (color N) = Some (length color_prefix) -> shows color N name) as Hshow by (intros; by exists color_prefix).
    split_and!.
    + intros [|[|i]] name [= <-]; (split; [by apply Hshow|apply (bool_decide_unpack _); vm_compute; exact I]).
    + by apply Hshow.
    + apply (bool_decide_unpack _). vm_compute. exact I.
  - by vm_compute.
  - by vm_compute.
  - simpl. lia.
Defined.

End MagicEnum.

(** ** util/macro_util.h *)

Module MacroUtil.

(** [CHECK_RET(ret)] in front of the rest of a function. *)
Definition CHECK_RET (ret : Z) (rest : Z) : Z := if negb (ret =? 0) then ret else rest.

(** The fields of [struct tm] and the microseconds. *)
Record clock := mkClock { tm_year : Z; tm_mon : Z; tm_mday : Z; tm_hour : Z; tm_min : Z; tm_sec : Z; tv_usec : Z }.

Definition head : bytes := lit "[%04d-%02d-%02d %02d:%02d:%02d.%06ld][%s:%d][%s]".

Definition head_args (c : clock) (file : bytes) (line : Z) (function : bytes) : list Printf.arg :=
  [Printf.AInt (tm_year c + 1900); Printf.AInt (tm_mon c + 1); Printf.AInt (tm_mday c); Printf.AInt (tm_hour c);
   Printf.AInt (tm_min c); Printf.AInt (tm_sec c); Printf.AInt (tv_usec c); Printf.AStr file; Printf.AInt line;
   Printf.AStr function].

(** What [printf2console] prints. *)
Definition printf2console (c : clock) (file : bytes) (line : Z) (function fmt : bytes) (args : list Printf.arg)
  : option bytes :=
  Printf.format (head ++ fmt ++ [LF]) (head_args c file line function ++ args).

(** What [perror2console] hands to [perror]. *)
Definition perror2console (c : clock) (file : bytes) (line : Z) (function str : bytes) : option bytes :=
  buff ← Printf.format head (head_args c file line function);
  Some (c_str (snprintf 200 buff ++ str)).

Example printf2console_line :
  printf2console (mkClock 122 3 2 14 5 9 1234) (lit "a.cc") 7 (lit "f") (lit "n=%d") [Printf.AInt 3]
  = Some (lit "[2022-04-02 14:05:09.001234][a.cc:7][f]n=3" ++ [LF]).
Proof. vm_compute. reflexivity. Qed.

End MacroUtil.
