(* ===== verification/Examples.v ===== *)
(** * The small example programs

    http/http_server/example/example.cpp, threadpool/example/threadpool_example.cpp,
    http/http_client/example/example.cpp and main/main.cc: the programs that show
    how the components are used.  Those of json_helper are in [JsonExample]. *)

From S2P Require Import Prelude StdMap SStream EpollTypes HttpRequest HttpResponse HttpHandler EpollSocket HttpServer.
From S2P Require Import HttpExchange HttpClient ThreadPool Util JsonMarshal JsonModel.

(** ** http/http_server/example/example.cpp *)
Module EchoExample.
Section program.
Context {V R : Type} {JV : JsonValue V R} (toStyledString : V -> bytes) (address : HttpHandler.HttpHandler).

Definition echo (req : HttpRequest.t) (resp : HttpResponse.t) : HttpRequest.t * HttpResponse.t :=
  let '(name, params) := StdMap.subscript [] (lit "name") (HttpRequest.url_params req) in
  let root := put_key jnull (lit "name") (of_string name) in
  (HttpRequest.set_line (HttpRequest.method req) (HttpRequest.url req) (HttpRequest.uri req)
     (HttpRequest.http_version req) params req,
   HttpResponse.set_status (HttpResponse.status_line resp) (toStyledString root) resp).

(** The function at [address] is [echo]. *)
Definition echo_call : HttpHandler.calls := fun f req resp => if decide (f = address) then echo req resp else (req, resp).

(** The results of the system calls are given; the server goes when [main] returns. *)
Definition main (socket bind listen efd ctl high : Z)
    (waits : list (option (list (EpollSocket.epoll_event * EpollSocket.answers HttpHandler.calls)))) : option (Z * HttpServer.t) :=
  s ← HttpServer.RegisterHandler (lit "/echo") address (HttpServer.make 8888 10 1000);
  '(_, s) ← HttpServer.Start s socket bind listen efd ctl high waits;
  Some (0, HttpServer.destroy s).

(** A name that the URL carries as it is. *)
Definition plain (name : bytes) : Prop := HttpRequest.clean [" "%char; LF; "?"%char; "&"%char; "="%char] name.

Lemma echo_url name :
  plain name -> HttpRequest.ref_url (lit "/echo?name=" ++ name) [] = (lit "/echo", [(lit "name", name)]).
Proof.
  intros Hp. unfold HttpRequest.ref_url.
  change (lit "/echo?name=" ++ name) with (lit "/echo" ++ "?"%char :: (lit "name=" ++ name)).
  assert (forall d, d ∈ ["?"%char; "&"%char] -> d ∉ lit "name=" ++ name) as Hd.
  { intros d Hd. rewrite not_elem_of_app. split.
    - repeat (apply elem_of_cons in Hd as [->|Hd]; [apply (bool_decide_unpack _); vm_compute; exact I|]). set_solver.
    - apply (HttpRequest.clean_not_elem _ d _ Hp). set_solver. }
  rewrite SStream.split_app by (apply (bool_decide_unpack _); vm_compute; exact I).
  rewrite SStream.split_single by (apply Hd; set_solver). f_equal.
  unfold HttpRequest.query_pairs. rewrite SStream.split_single by (apply Hd; set_solver).
  cbn [fmap list_fmap mjoin list_join]. change (lit "name=" ++ name) with (lit "name" ++ "="%char :: name).
  rewrite SStream.split_app by (apply (bool_decide_unpack _); vm_compute; exact I).
  rewrite SStream.split_single by (apply (HttpRequest.clean_not_elem _ _ _ Hp); set_solver). done.
Qed.

(** A request for [/echo?name=...] is answered with status 200 and the JSON text
    of an object whose member [name] is the name of the request, for every name
    that needs no escaping. *)
Theorem echo_answers (m v name : bytes) (hs : list (bytes * bytes)) :
  plain name -> HttpRequest.well_formed m (lit "/echo?name=" ++ name) v hs ->
  exists r, HttpRequest.OnReadable HttpRequest.make (HttpRequest.render m (lit "/echo?name=" ++ name) v hs) =
      Some (READ_OVER, r) /\
    HttpExchange.answer echo_call [(lit "/echo", address)] r =
      (r, HttpResponse.mk HttpResponse.STATUS_OK [] (toStyledString (put_key jnull (lit "name") (of_string name)))
            false SStream.empty).
Proof.
  intros Hp Hwf. destruct (HttpRequest.rendered_request_read _ _ _ _ Hwf) as (r & E & Em & _ & Eu & _).
  exists r. split; [done|]. rewrite (echo_url name Hp) in Eu. injection Eu as Eu Ep.
  unfold HttpExchange.answer, HttpHandler.handle_http_request. rewrite Eu. cbn [StdMap.find HttpHandler.uri2handler].
  rewrite decide_True by done. rewrite decide_False.
  2: { rewrite Em. destruct (HttpRequest.wf_method _ _ _ _ Hwf) as [-> | ->]; intros [? ?]; done. }
  unfold echo_call. rewrite decide_True by done. unfold echo. rewrite Ep. change (StdMap.subscript [] (lit "name") [(lit "name", name)]) with (name, [(lit "name", name)]).
  f_equal. destruct r. simpl in *. by subst.
Qed.
End program.

Lemma echo_answers_witness :
  exists r, HttpRequest.OnReadable HttpRequest.make (HttpRequest.render (lit "GET") (lit "/echo?name=" ++ lit "tomocat")
      (lit "HTTP/1.1") [(lit "Accept", lit "*/*")]) = Some (READ_OVER, r) /\
    HttpExchange.answer (echo_call (JsonModel.write true) 1024) [(lit "/echo", 1024)] r =
      (r, HttpResponse.mk HttpResponse.STATUS_OK []
            (JsonModel.write true (put_key jnull (lit "name") (of_string (lit "tomocat"))))
            false SStream.empty).
Proof.
  apply (echo_answers (JsonModel.write true) 1024 (lit "GET") (lit "HTTP/1.1") (lit "tomocat") [(lit "Accept", lit "*/*")]).
  - apply (bool_decide_unpack _). vm_compute. exact I.
  - apply (bool_decide_unpack _). vm_compute. exact I.
Defined.
End EchoExample.

(** ** threadpool/example/threadpool_example.cpp *)
Module ThreadPoolExample.
Import ThreadPool.

(** The steps of the program: [main] enqueues the tasks 0 to 99, each call sending
    its notification before the next, and then destroys the pool; the
    workers of the pool run beside it. *)
Inductive step : t (T := nat) -> t (T := nat) -> Prop :=
  | enqueue s s' :
      phase s = Alive -> notify s = 0%nat -> (length (accepted s) < 100)%nat ->
      Enqueue (length (accepted s)) s = Some s' -> step s s'
  | notified s s' : notify_step s s' -> step s s'
  | leave s s' : notify s = 0%nat -> length (accepted s) = 100%nat -> dtor_step s s' -> step s s'
  | worker s s' : worker_step s s' -> step s s'
  | woken s s' : spurious_step s s' -> step s s'.

(** [ThreadPool threadpool(20);] *)
Definition start : t (T := nat) := init 20.

Lemma step_pool s s' : step s s' -> ThreadPool.step s s'.
Proof.
  intros []; [by eapply step_enqueue|by apply step_notify|by apply step_dtor|by apply step_worker|by apply step_spurious].
Qed.

Lemma reach_pool s : rtc step start s -> rtc ThreadPool.step (init 20) s.
Proof. apply rtc_subrel. intros ? ?. apply step_pool. Qed.

Definition so_far (s : t (T := nat)) : Prop :=
  accepted s = seq 0 (length (accepted s)) /\ (length (accepted s) <= 100)%nat /\
  (phase s <> Alive -> length (accepted s) = 100%nat /\ notify s = 0%nat).

Lemma worker_keeps (s s' : t (T := nat)) :
  worker_step s s' \/ spurious_step s s' -> accepted s' = accepted s /\ phase s' = phase s /\ notify s' = notify s.
Proof. by intros [[]|[]]. Qed.

Lemma step_so_far s s' : so_far s -> step s s' -> so_far s'.
Proof.
  intros I Hs. revert I. destruct Hs as [x x' Hph Hn Hlt He|x x' Hn|x x' Hn H100 Hd|x x' Hw|x x' Hw];
    intros (Ha & Hl & Hp).
  - unfold Enqueue in He. destruct (stop_ x); [done|]. injection He as <-. unfold so_far. simpl.
    rewrite length_app. simpl. split_and!; [|lia|done].
    rewrite seq_app. simpl. by rewrite <- Ha.
  - revert Ha Hl Hp. destruct Hn as [x k i Hk _|x k Hk _]; intros Ha Hl Hp; (unfold so_far; simpl; split_and!; [done|done|]);
      intros H; destruct (Hp H); congruence.
  - revert Ha Hl Hp Hn H100. destruct Hd; intros; unfold so_far; simpl; split_and!; auto.
  - destruct (worker_keeps x x' (or_introl Hw)) as (E1 & E2 & E3). unfold so_far. by rewrite E1, E2, E3.
  - destruct (worker_keeps x x' (or_intror Hw)) as (E1 & E2 & E3). unfold so_far. by rewrite E1, E2, E3.
Qed.

Lemma reach_so_far s : rtc step start s -> so_far s.
Proof. apply invariant_rtc; [apply step_so_far|]. split_and!; simpl; [done|lia|done]. Qed.

(** The example program never gets stuck before its pool is destroyed, and then
    every one of the tasks 0 to 99 has been run, once. *)
Theorem pool_example_runs_every_task (s : t) :
  rtc step start s ->
  (phase s <> Destroyed -> exists s', step s s') /\
  (phase s = Destroyed -> finished s ≡ₚ seq 0 100).
Proof.
  intros Hr. pose proof (pool_reachable_inv 20 s (reach_pool s Hr)) as I.
  destruct (reach_so_far s Hr) as (Ha & Hl & Hp). split.
  - intros Hd. destruct (notify s) as [|k] eqn:En; [|destruct (notify_progress s k En); eauto using notified].
    destruct (phase s) eqn:Eph; [| | |done].
    + destruct (decide (length (accepted s) = 100%nat)) as [H100|H100].
      { eexists. apply leave; [done|done|by apply dtor_stop]. }
      assert (stop_ s = false) as Hst by (destruct (stop_ s) eqn:E; [by apply (i_stop _ _ I) in E|done]).
      eexists. apply enqueue; [done|done|lia|]. unfold Enqueue. by rewrite Hst.
    + eexists. apply leave; [done|by apply Hp|by apply dtor_notify_all].
    + destruct (joining_progress 20 s (conj I Eph)) as [Hx|[s' Hx]]; [|eauto using worker].
      eexists. apply leave; [done|by apply Hp|by apply dtor_joined].
  - intros Hd. destruct (Hp ltac:(congruence)) as [H100 _]. pose proof (i_destroyed _ _ I Hd) as Hx.
    rewrite (done_accepted 20 s I Hx), Ha, H100 by lia. done.
Qed.

(** The program after its first task was enqueued and notified. *)
Lemma pool_example_runs_every_task_witness :
  exists s : t, rtc step start s /\ accepted s = [0%nat] /\
    (phase s <> Destroyed -> exists s', step s s') /\ (phase s = Destroyed -> finished s ≡ₚ seq 0 100).
Proof.
  set (s1 := mk (replicate 20 Top) [0%nat] false 1 Alive [0%nat] [] []).
  set (s2 := mk (replicate 20 Top) [0%nat] false 0 Alive [0%nat] [] []).
  assert (rtc step start s2) as Hr.
  { eapply rtc_l; [apply (enqueue start s1); [done|done|simpl; lia|done]|]. apply rtc_once, notified.
    apply (notify_none s1 0); [done|]. intros H%elem_of_replicate. by destruct H. }
  exists s2. split_and!; [exact Hr|done|..]; apply (pool_example_runs_every_task s2 Hr).
Defined.
End ThreadPoolExample.

(** ** http/http_client/example/example.cpp *)
Module HttpClientExample.

(** What is printed; [transfer] is libcurl, [h] the handle it gives. *)
Definition main (transfer : list HttpClient.option_ -> list bytes * Z) (debug : bool) (h : Z) (hs : HttpClient.handles)
  : option bytes :=
  '(_, resp, _) ← HttpClient.Get transfer debug h (lit "www.baidu.com") 400 200 (Some []) None hs;
  s ← resp; Some (c_str s ++ [LF]).

(** The body that came before the time-outs is printed, up to its first NUL; an
    error is not. *)
Lemma client_example_prints transfer debug h hs :
  h <> 0 -> hs !! h = None ->
  main transfer debug h hs =
  Some (c_str (mjoin (fst (transfer (reverse (HttpClient.get_options debug (lit "www.baidu.com") 400 200 None))))) ++ [LF]).
Proof. intros Hh Hn. unfold main, HttpClient.Get. by rewrite HttpClient.request_spec. Qed.
End HttpClientExample.

(** ** main/main.cc *)
Module MainProgram.

Definition RED : Z := 0.

(** What is printed; [pretty] is the compiler's [__PRETTY_FUNCTION__]. *)
Definition main (pretty : Z -> bytes) (fuel : nat) : option bytes :=
  name ← MagicEnum.enum_name pretty fuel RED; Some (name ++ [LF]).

Lemma main_prints_RED pretty past fuel :
  MagicEnum.enumerates pretty [lit "RED"; lit "GREEN"; lit "BLUE"] past -> (3 < fuel)%nat ->
  main pretty fuel = Some (lit "RED" ++ [LF]).
Proof.
  intros He Hf. unfold main. rewrite (MagicEnum.enum_name_correct pretty _ past _ fuel He); [done|done|done|exact Hf].
Qed.
End MainProgram.
