(* ===== verification/UnitTests.v ===== *)
(** * The repository's unit tests, run on the model

    The cases of segment_tree_test.cc, queue_test.cc, magic_enum_test.cc,
    marshal_test.cc and unmarshal_test.cc whose expectations are about the modelled
    code, as programs over the model; each passes.  A case is the list of its expectations,
    [None] if a call is undefined or throws.  What [Json::Reader] makes of a text
    is written as the value of [JsonModel]; reals are decimal fractions there. *)

From S2P Require Import Prelude StdMap Decimal RingQueue SegmentTree Util JsonMarshal JsonRoundTrip JsonHelper JsonModel.

(** A case passes if it runs to its end and every expectation holds. *)
Definition passed (c : option (list bool)) : bool :=
  match c with None => false | Some es => forallb id es end.

(** [EXPECT_EQ] *)
Definition eq_ {A} `{EqDecision A} (expected actual : A) : bool := bool_decide (expected = actual).

(** ** data_structure/segment_tree/segment_tree_test.cc *)
Module SegmentTreeTest.
Import SegmentTree.

(** The calls before the range addition, and from it on. *)
Definition before : list op := [OpQuery (mkRange 1 1024); OpPoint 10 1234; OpQuery (mkRange 1 1024); OpQuery (mkRange 10 10)].
Definition after : list op := [OpRange (mkRange 8 12) 20; OpQuery (mkRange 1 1024); OpQuery (mkRange 10 10)].

Definition expected : list Z := [0; 1234; 1234; 1234 + 20 * 5; 20 + 1234].

(** By the specification, and not by running a tree of 1024 leaves. *)
Example usage_passes : exists x y, make 1024 = Made x /\ run x (before ++ after) = Some (expected, y).
Proof.
  assert (spec_run (wid 10) (fun _ => 0) (before ++ after) = expected) as E by (vm_compute; reflexivity).
  rewrite <- E. change 1024 with (2 ^ Z.of_nat 10). apply run_made;
    [unfold height_ok; lia|apply (bool_decide_unpack _); vm_compute; exact I..].
Qed.

End SegmentTreeTest.

(** ** data_structure/ring_buffer_queue/queue_test.cc *)
Module QueueTest.
Import Queue.

Definition enqueue_all (xs : list Z) (q : t) : option t := foldl (fun q x => '(_, q) ← q ≫= (fun q => Enqueue q x); Some q) (Some q) xs.

(** [while (!queue.IsEmpty()) std::cout << queue.Dequeue()] *)
Fixpoint drain (fuel : nat) (q : t) : option (list Z) :=
  if IsEmpty q then Some []
  else match fuel with O => None | S fuel' => '(x, q) ← Dequeue q; xs ← drain fuel' q; Some (x :: xs) end.

(** What it prints; it has no expectations. *)
Definition usage : option (list Z) :=
  q ← enqueue_all (seqZ 0 10) (make 5);
  '(x, q) ← Dequeue q;
  q ← enqueue_all [10; 11; 12] q;
  xs ← drain 5 q;
  Some (x :: xs).

(** The queue was full after five elements, and takes one more of the last three. *)
Example usage_prints : usage = Some [0; 1; 2; 3; 4; 10].
Proof. vm_compute. reflexivity. Qed.

End QueueTest.

(** ** util/magic_enum_test.cc *)
Module MagicEnumTest.
Import MagicEnum.

(** [enum Color { RED, GREEN, BLUE }] of the test, in namespace util, as GCC shows it. *)
Definition color (N : Z) : bytes :=
  lit "constexpr auto util::enum_name() [with auto value = " ++
  (if N =? 0 then lit "util::RED" else if N =? 1 then lit "util::GREEN" else if N =? 2 then lit "util::BLUE"
   else lit "(util::Color)3") ++ lit "]".

Definition magic_enum_test : option (list bool) :=
  red ← enum_name color 4 0; green ← enum_name color 4 1; blue ← enum_name color 4 2;
  Some [eq_ (lit "util::RED") red; eq_ (lit "util::GREEN") green; eq_ (lit "util::BLUE") blue].

Example magic_enum_passes : passed magic_enum_test = true.
Proof. vm_compute. reflexivity. Qed.

End MagicEnumTest.

(** ** json_helper/unit_test/marshal_test.cc *)
Module MarshalTest.
Import JsonModel.

(** [ASSERT_TRUE(Marshal(obj, &root))], then the expectations about [root]. *)
Definition marshalled {T} (m : marshaller (V := json) T) (obj : T) (rest : json -> option (list bool)) : option (list bool) :=
  let '(ok, root) := m obj jnull in (fun es => ok :: es) <$> rest root.

Definition all (cs : list (option (list bool))) : option (list bool) := mjoin <$> mapM id cs.

Definition marshal_basic_types : option (list bool) :=
  all [marshalled Marshal_int32 (-123) (fun root => z ← asInt root; Some [eq_ (-123) z]);
       marshalled Marshal_int64 (-32123) (fun root => z ← asInt64 root; Some [eq_ (-32123) z]);
       marshalled Marshal_uint32 777 (fun root => z ← asUInt root; Some [eq_ 777 z]);
       marshalled Marshal_uint64 888 (fun root => z ← asUInt64 root; Some [eq_ 888 z]);
       marshalled Marshal_float (314, -2) (fun root => r ← asReal root; Some [eq_ (314, -2) r]);
       marshalled Marshal_double (-712, -2) (fun root => r ← asReal root; Some [eq_ (-712, -2) r]);
       marshalled Marshal_bool true (fun root => b ← asBool root; Some [b]);
       marshalled Marshal_string (lit "kkkk") (fun root => s ← asString root; Some [eq_ (lit "kkkk") s])].

Definition marshal_vector : option (list bool) :=
  let vi := [1; 22; 333; 4444] in
  marshalled (Marshal_vector Marshal_int32) vi (fun root =>
    zs ← mapM (fun i => asInt (at_index root i)) [0; 1; 2; 3];
    Some [eq_ (vlen vi) (size root); eq_ vi zs]).

(** The first map of marshal_map and marshal_unordered_map, listed by key. *)
Definition m_str_i32 : list (bytes * Z) := [(lit "ccc", -5); (lit "kkk", 10); (lit "mmm", -100)].
Definition m_ui64_str : list (Z * bytes) := [(111, lit "1"); (222, lit "22"); (333, lit "333")].

Definition str_i32_expected (root : json) : option (list bool) :=
  k ← asInt (at_key root (lit "kkk")); c ← asInt (at_key root (lit "ccc")); m ← asInt (at_key root (lit "mmm"));
  Some [eq_ (vlen m_str_i32) (size root); eq_ 10 k; eq_ (-5) c; eq_ (-100) m].

Definition ui64_str_expected (root : json) : option (list bool) :=
  x ← asString (at_key root (lit "111")); y ← asString (at_key root (lit "222")); z ← asString (at_key root (lit "333"));
  Some [eq_ (vlen m_ui64_str) (size root); eq_ (lit "1") x; eq_ (lit "22") y; eq_ (lit "333") z].

Definition marshal_map : option (list bool) :=
  all [marshalled (Marshal_map_string Marshal_int32) m_str_i32 str_i32_expected;
       marshalled (Marshal_map Marshal_string) m_ui64_str ui64_str_expected].

Definition marshal_unordered_map : option (list bool) :=
  all [marshalled (Marshal_unordered_map_string Marshal_int32) m_str_i32 str_i32_expected;
       marshalled (Marshal_unordered_map Marshal_string) m_ui64_str ui64_str_expected].

(** [std::set<int32_t> s = {1, -5, 20, 100, 7}] *)
Definition marshal_set_int32 : option (list bool) :=
  let s := foldr StdSet.insert [] [1; -5; 20; 100; 7] in
  marshalled (Marshal_set Marshal_int32) s (fun root =>
    zs ← mapM (fun i => asInt (at_index root i)) [0; 1; 2; 3; 4];
    Some [eq_ (vlen s) (size root); eq_ [-5; 1; 7; 20; 100] zs]).

Definition marshal_unordered_set_string : option (list bool) :=
  let us := [lit "111"; lit "aaa"; lit "to"] in
  marshalled (Marshal_unordered_set Marshal_string) us (fun root =>
    ss ← mapM (fun i => asString (at_index root i)) [0; 1; 2];
    Some (eq_ (vlen us) (size root) :: ((fun s => bool_decide (s ∈ ss)) <$> us))).

(** [class Cat]; the expected text is that of a value, which is compared here. *)
Definition Marshal_Cat : marshaller (V := json) (bytes * (Z * (real * (list Z * ())))) :=
  Marshal_class (marshal_field (lit "name") Marshal_string (marshal_field (lit "age") Marshal_int32
    (marshal_field (lit "birthday") Marshal_double
      (marshal_field (lit "favorite_nums") (Marshal_vector Marshal_int32) marshal_no_field)))).

Definition cat_value : json :=
  JObject [(lit "age", JInt (-10)); (lit "birthday", JReal (31, -1));
           (lit "favorite_nums", JArray [JInt 5; JInt 7; JInt 9]); (lit "name", JString (lit "cc"))].

Example marshal_plain_class_passes :
  Marshal_Cat (lit "cc", (-10, ((31, -1), ([5; 7; 9], ())))) jnull = (true, cat_value).
Proof. vm_compute. reflexivity. Qed.

(** [struct Dog] has no member function and [std::mutex] is not a container. *)
Definition marshal_uncaught_types (name : bytes) : list bool :=
  [negb (fst (Marshal_uncaught (T := bytes) name JNull)); negb (fst (Marshal_uncaught (T := ()) () JNull))].

Definition marshal_enum_class : option (list bool) :=
  all ((fun i => marshalled Marshal_enum i (fun root => z ← asInt root; Some [eq_ i z])) <$> [0; 1; 2; 3]).

Definition Marshal_Vehicle : marshaller (V := json) ((Z * (real * (bytes * ()))) * (bytes * ())) :=
  Marshal_class
    (marshal_field (lit "wheel")
       (Marshal_class (marshal_field (lit "temp") Marshal_int32 (marshal_field (lit "pressure") Marshal_double
          (marshal_field (lit "factory") Marshal_string marshal_no_field))))
       (marshal_field (lit "color") Marshal_string marshal_no_field)).

Example marshal_nested_class_passes :
  Marshal_Vehicle ((10, ((32, -1), (lit "Audi", ()))), (lit "blue", ())) jnull =
  (true, JObject [(lit "color", JString (lit "blue"));
                  (lit "wheel", JObject [(lit "factory", JString (lit "Audi")); (lit "pressure", JReal (32, -1));
                                         (lit "temp", JInt 10)])]).
Proof. vm_compute. reflexivity. Qed.

(** Both calls marshal into one [root]. *)
Definition marshal_pointer : option (list bool) :=
  let '(ok1, root1) := Marshal_pointer Marshal_int32 None jnull in
  s ← asString root1;
  let '(ok2, root2) := Marshal_pointer Marshal_int32 (Some 10) root1 in
  z ← asInt root2;
  Some [ok1; eq_ (lit "nullptr") s; ok2; eq_ 10 z].

Example marshal_tests_pass :
  forallb passed
    [marshal_basic_types; marshal_vector; marshal_map; marshal_unordered_map; marshal_set_int32;
     marshal_unordered_set_string; Some (marshal_uncaught_types []); marshal_enum_class; marshal_pointer] = true.
Proof. vm_compute. reflexivity. Qed.

End MarshalTest.

(** ** json_helper/unit_test/unmarshal_test.cc *)
Module UnmarshalTest.
Import JsonModel.

Definition r0 : real := (0, 0).

(** [ASSERT_TRUE(Unmarshal(root, &res))] and what [res] should be. *)
Definition unmarshalled {T} `{EqDecision T} (u : unmarshaller (V := json) T) (root : json) (res expected : T)
  : option (list bool) := '(ok, res) ← u root res; Some [ok; eq_ expected res].

Definition unmarshal_basic_type : option (list bool) :=
  MarshalTest.all
    [unmarshalled Unmarshal_string (JString (lit "tomo")) [] (lit "tomo");
     unmarshalled Unmarshal_int32 (JInt 12) 0 12;
     unmarshalled Unmarshal_float (JReal (511, -2)) r0 (511, -2);
     unmarshalled Unmarshal_double (JReal (31415926, -7)) r0 (31415926, -7)].

Definition cat_root : json :=
  JObject [(lit "age", JInt 12); (lit "birthday", JReal (511, -2)); (lit "name", JString (lit "tomo"))].

Definition Unmarshal_Cat : unmarshaller (V := json) (bytes * (Z * (real * ()))) :=
  Unmarshal_class (unmarshal_field (lit "name") Unmarshal_string (unmarshal_field (lit "age") Unmarshal_int32
    (unmarshal_field (lit "birthday") Unmarshal_double unmarshal_no_field))).

(** Both ways of calling it are the member function. *)
Definition unmarshal_plain_class : option (list bool) :=
  unmarshalled Unmarshal_Cat cat_root ([], (-1, (r0, ()))) (lit "tomo", (12, ((511, -2), ()))).

(** [struct Dog] and [std::mutex]: refused, and left as they were. *)
Definition test_uncaught_types : option (list bool) :=
  let root := JObject [(lit "age", JInt 12); (lit "name", JString (lit "tomo"))] in
  '(ok, dog) ← Unmarshal_uncaught (T := bytes * Z) root ([], -1);
  '(ok2, _) ← Unmarshal_uncaught (T := ()) root ();
  Some [negb ok; eq_ ([], -1) dog; negb ok2].

(** The enumerators are their numbers. *)
Definition test_enum_class : option (list bool) :=
  let root := foldl (fun v i => put_key v (Decimal.to_string i) (of_uint i)) jnull [0; 1; 2; 3] in
  MarshalTest.all ((fun i => '(_, color) ← Unmarshal_enum (at_key root (Decimal.to_string i)) 0; Some [eq_ i color]) <$>
                   [0; 1; 2; 3]).

Definition Unmarshal_Vehicle : unmarshaller (V := json) ((Z * (real * (bytes * ()))) * (bytes * ())) :=
  Unmarshal_class
    (unmarshal_field (lit "wheel")
       (Unmarshal_class (unmarshal_field (lit "temp") Unmarshal_int32 (unmarshal_field (lit "pressure") Unmarshal_double
          (unmarshal_field (lit "factory") Unmarshal_string unmarshal_no_field))))
       (unmarshal_field (lit "color") Unmarshal_string unmarshal_no_field)).

Definition test_nested_class : option (list bool) :=
  unmarshalled Unmarshal_Vehicle
    (JObject [(lit "color", JString (lit "blue"));
              (lit "wheel", JObject [(lit "factory", JString (lit "Audi")); (lit "pressure", JReal (855, -1));
                                     (lit "temp", JInt 45)])])
    ((0, (r0, ([], ()))), ([], ())) ((45, ((855, -1), (lit "Audi", ()))), (lit "blue", ())).

(** The test's own overload for [ClassWithoutUnmarshalFunction]: name, age, birthday. *)
Definition Unmarshal_ClassWithoutUnmarshalFunction : unmarshaller (V := json) (bytes * Z * real) := fun root _ =>
  name ← asString (at_key root (lit "name"));
  age ← asUInt (at_key root (lit "age"));
  birthday ← asReal (at_key root (lit "birthday"));
  Some (true, (name, age, birthday)).

Definition test_class_without_unmarshal_member_function : option (list bool) :=
  unmarshalled Unmarshal_ClassWithoutUnmarshalFunction
    (JObject [(lit "age", JInt 10); (lit "birthday", JReal (314, -2)); (lit "name", JString (lit "cat"))])
    ([], 0, r0) (lit "cat", 10, (314, -2)).

Definition test_unmarshal_vector : option (list bool) :=
  unmarshalled (Unmarshal_vector Unmarshal_string []) (JArray [JString (lit "a"); JString (lit "b"); JString (lit "c")])
    [] [lit "a"; lit "b"; lit "c"].

Definition test_unmarshal_map_string_key : option (list bool) :=
  unmarshalled (Unmarshal_map_string Unmarshal_int32 0)
    (JObject [(lit "cat", JInt 10); (lit "dog", JInt 1107); (lit "mouse", JInt 2133)])
    [] [(lit "cat", 10); (lit "dog", 1107); (lit "mouse", 2133)].

(** The cases called uint32_t and uint64_t use [std::map<int64_t, int32_t>] too. *)
Definition test_unmarshal_map_int_key : option (list bool) :=
  let root := JObject [(lit "1", JInt 10); (lit "2", JInt 1107); (lit "3", JInt 2133)] in
  let res := [(1, 10); (2, 1107); (3, 2133)] in
  MarshalTest.all
    [unmarshalled (Unmarshal_map_int32 Unmarshal_int32 0) root [] res;
     unmarshalled (Unmarshal_map_int64 Unmarshal_int32 0) root [] res;
     unmarshalled (Unmarshal_map_int64 Unmarshal_int32 0) root [] res;
     unmarshalled (Unmarshal_map_int64 Unmarshal_int32 0) root [] res].

Definition test_unmarshal_unordered_map_int_key : option (list bool) :=
  let root := JObject [(lit "1", JInt 115); (lit "2", JInt 107); (lit "3", JInt 233)] in
  let res := [(1, 115); (2, 107); (3, 233)] in
  MarshalTest.all
    [unmarshalled (Unmarshal_unordered_map_int32 Unmarshal_int32 0) root [] res;
     unmarshalled (Unmarshal_unordered_map_int64 Unmarshal_int32 0) root [] res;
     unmarshalled (Unmarshal_unordered_map_int64 Unmarshal_int32 0) root [] res;
     unmarshalled (Unmarshal_unordered_map_int64 Unmarshal_int32 0) root [] res].

Definition test_unmarshal_set_and_unordered_set : option (list bool) :=
  let root := JArray [JString (lit "cat"); JString (lit "dog"); JString (lit "mouse")] in
  let res := [lit "cat"; lit "dog"; lit "mouse"] in
  MarshalTest.all [unmarshalled (Unmarshal_set Unmarshal_string []) root [] res;
                   unmarshalled (Unmarshal_unordered_set Unmarshal_string []) root [] res].

(** Without the death of a null [int*], which is undefined. *)
Definition unmarshal_pointer : option (list bool) :=
  let root := JInt 40 in
  MarshalTest.all
    [unmarshalled Unmarshal_int32 root 0 40;
     unmarshalled (Unmarshal_pointer Unmarshal_int32) root (Some 0) (Some 40);
     unmarshalled (Unmarshal_pointer Unmarshal_int32) root None None].

(** [&age] of a [static constexpr int] has no overload but the one that refuses. *)
Definition unmarshal_constexpr : option (list bool) :=
  '(ok, obj) ← Unmarshal_class (unmarshal_field (lit "name") Unmarshal_string
                  (unmarshal_field (lit "age") Unmarshal_uncaught unmarshal_no_field))
                 (JObject [(lit "age", JInt 100); (lit "name", JString (lit "tomo"))]) ([], (100, ()));
  Some [negb ok; eq_ (lit "tomo") (fst obj)].

Example unmarshal_tests_pass :
  forallb passed
    [unmarshal_basic_type; unmarshal_plain_class; test_uncaught_types; test_enum_class; test_nested_class;
     test_class_without_unmarshal_member_function; test_unmarshal_vector; test_unmarshal_map_string_key;
     test_unmarshal_map_int_key; test_unmarshal_unordered_map_int_key; test_unmarshal_set_and_unordered_set;
     unmarshal_pointer; unmarshal_constexpr] = true.
Proof. vm_compute. reflexivity. Qed.

End UnmarshalTest.
